(* ===== verification/_CoqProject ===== *)
-Q . S2P
Prelude.v
Types.v
Text.v
Queues.v
Channels.v
World.v
Source.v
Worker.v
WorkerSpec.v
WorkerExit.v
Threads.v
Placement.v
Boot.v
Sequential.v
Push.v
Jobs.v
Lifecycle.v
WorkerIds.v
Shutdown.v
StageEnd.v
Iterate.v
Compose.v
Web.v
Scavenge.v
Utils.v
Monitors.v
ShmStore.v
ShmQueue.v
ShmArrays.v
BlockStore.v
Ring.v
ObjectQueue.v
Lock.v
Wakeups.v
ShmOwner.v
Autoscale.v
AutoscaleSpawn.v
Examples.v
Encode.v
Batches.v
Demos.v
Display.v
