(* ===== verification/Prelude.v ===== *)
(** * A model of the pipe package (src/src/pipe)

    The package runs a list of stages as worker processes joined by queues.
    [Pipe.add] builds the list, [start] allocates the shared objects and spawns
    the workers, each worker runs [_worker_run] or [_threaded_worker_run] until
    the stage before it is done, the consumer iterates over the last queue, and
    threads in the process of the pipeline watch over the workers, draw
    statistics and hand GPUs back to other users.

    ** The parts

    - [Prelude]: exceptions, results, state-passing programs ([prog]) with
      their notation, [loop] with fuel, the rules [wp_...] to reason about
      them, and the predicates [keeps] (an observation is left alone) and
      [calm] (nothing is raised) with the hint database [pipe].
    - [Types] (types.py, and the scans of workers.py): Python values, items,
      sentinels, messages. Objects the framework cannot see into are opaque;
      their truth value, addition, [.get] and iteration are the class [ObjOps].
    - [Text]: the [str] methods the package uses. It has no file of its own in
      the package.
    - [Queues] (queues.py): the interface [queue] and its laws [LawfulQueue],
      the retrying put, the queue with statistics; [Channels]: the chunking
      channels and [PipeIterator], over any lawful queue.
    - [ShmStore], [ShmQueue] (shmstore.py, shmqueue.py): sizes, the sweep of
      leftovers, and the shared-memory queue, which is shown to be lawful and
      to refine the bounded FIFO of [Queues]. [ShmArrays]: the reducers that
      move numpy arrays and CPU tensors into blocks of the store, over
      interfaces for numpy and torch. [ShmOwner]: who creates, attaches and
      removes rings and stores, and the pickler each thread keeps.
    - [BlockStore], [Ring], [Lock] (rust/src/store.rs, ring.rs, sys.rs): the
      allocator of the payload store over its control segment and block
      headers, the byte ring with its records, pads and spills, and the lock
      word with its dead and living holders, each with any number of
      processes; [Wakeups]: who sleeps on the ring and who is woken.
      [ObjectQueue] puts [ShmQueue] on top of [Ring]: whole messages
      through the bytes and the store together.
    - [World]: one worker among other processes. What the next read of a
      shared object or the next queue call answers is fixed by an
      [environment], a function of a tick; what the worker does is recorded in
      a trace. A theorem for all environments is one for all behaviours of the
      others.
    - [Source] (_drain_source_generator, _SourceBackoff, _timed_call),
      [Worker] (_worker_run), [Push] (_make_push), [Placement] (_cpu_chunk,
      _setup_cpu, the physical GPU), [Boot] (what a worker process does before
      its loop): the code of workers.py that a worker process runs.
      [WorkerSpec] and [WorkerExit] hold the theorems on
      [Worker], [Threads] models _threaded_worker_run on top of it.
    - [StageEnd] (_finish_worker, _scavenge_hold_wait): all workers of a stage
      interleaved, as labelled steps.
    - [Jobs] (Pipe.add), [Lifecycle] (start), [WorkerIds], [Shutdown] (_stop,
      restart, _restart_worker), [Iterate] (Pipe.__iter__), [Monitors]
      (monitors.py), [Scavenge] (scavenge.py): the process of the pipeline. Its
      shared objects are named by numbers in a heap, so that "the same queue"
      and "a stale event" are equalities and inequalities of names.
    - [Sequential] (sequential.py): everything in one process. [Compose]: whole
      pipelines, from the runs of their workers to what the consumer gets,
      against sequential mode.
    - [Web] (web.py): the server over a pipeline and [SerializerWorker].
    - [Utils] (utils.py): the ready-made workers; [Display] (monitors.py,
      profiling.py): what the statistics and the profiles show; [Autoscale], [AutoscaleSpawn]
      (_planned/autoscale.py): the decisions of the autoscaler and the workers
      it spawns; nothing calls it yet.
    - [Examples], [Encode], [Batches], [Demos] (examples/): the stages of the
      example pipelines, run one stage at a time: grouping by key, retrying by
      pushing back, audio cut into chunks, encoded in batches and put together
      again, downloads and uploads in batches, sources.

    The parts meet at interfaces. [Channels], [Push] and the retrying put are
    proved against [LawfulQueue]; [World]'s queues, the FIFO, the instrumented
    and the shared-memory queue are instances of it. [Worker] calls the
    channels through [zoom] into its local variables; [StageEnd] takes from
    [Worker] the runs of _finish_worker, and [Threads] the calls of a turn;
    [Monitors] calls [Shutdown], which calls [Lifecycle].

    ** What the theorems show

    - Delivery: a retried put puts once; channels lose, repeat and reorder
      nothing; a worker, of a process or of a thread, hands all it receives to
      its stage and puts all its stage returns, in order; pushes; the consumer
      yields what the last queue gives; sequential mode computes the
      composition of the stages, and so does a pipeline of processes, in
      the same order with one worker per stage; [Batcher] and
      [AsyncPoolWorker] hand out everything once; the web server answers the
      items of the last queue in order.
    - The end of a stage: whatever the interleaving, the sentinels follow the
      last item, and are put by one worker; the stage ends (liveness); the code
      of _finish_worker is a run of the protocol (refinement); a thread's last
      chunk precedes the sentinels; a loop whose upstream is done ends.
    - Wiring: [add] makes well-formed jobs or raises; [start] gives every
      worker the objects of its stage and of the one before; ids are unique;
      [_stop] leaves nothing running; a restart gives new objects to all; a
      restarted worker runs the same call; CPU slices partition the pool.
    - Supervision: which crashes restart the pipeline; only stuck workers are
      killed; the scavenger's slots follow their state machine, a checkpoint is
      made whole or undone; a park is acknowledged only with nothing in flight.
    - Memory: rings and store fit what is free; blocks in use never overlap
      and are accounted for; the ring is a FIFO of whole payloads that leaves
      no spill behind; an array is copied once for all hops and arrives equal;
      every name that is registered is unlinked once; the sweep removes only
      what dead processes left; the lock has one living holder at most, and a
      dead one's is taken over; no wake-up of the ring is lost; messages arrive whole, once and in order
      through ring and store.
    - Examples: chunks of audio that arrive in any order are put together
      right; groups partition the clips; retries end and lose nothing
      silently; one thread that downloads in batches downloads everything, and
      so does the uploader.
    - Errors the code has: theorems that exhibit them, such as
      [held_workers_never_end], [iter_restart_never_ends],
      [source_end_overtakes], [late_ack_never_answered],
      [retrieve_drops_last_page], [park_items_follow_the_sentinels],
      [batches_dissolve], [threads_lose_batch].

    ** Fuel, numbers, time

    [while] loops take fuel and end in [Spin] without it; a blocking call that
    waits for ever is [Spin] too. [Spin] is never caught, so theorems about
    what was done hold up to that point. That a loop ends is proved with a
    bound on the fuel: [main_loop_ends] (buffered items and the threshold of
    empty polls), [iter_ends], [put_retry_terminates], [stage_end_inevitable]
    (a bound on the steps of the schedule). Integers are unbounded, as
    Python's. Times are in microseconds, except where a file says otherwise;
    the float products and quotients of the code are exact quotients of
    integers here, apart from the overflow of the backoff.

    ** Not modelled

    Most messages to the console; the drawing of the statistics table and the
    column widths of the profile summary; the SIGINT handler, but for what it
    does to the pipeline; the file limit a worker reports; _torch.py beyond its
    test for torch; the constant page of the web server and its throughputs;
    the benchmarks, and of the examples load(), the training loops and the main
    programs. Ratios of times ([Display]) are exact rationals where the code
    has floating-point numbers. Of the Rust core: attaching to a ring, and the table of
    pending spills, which matters where shared memory cannot be listed. What
    is done under the lock of the ring is one step in [Ring] and [Wakeups];
    [Lock] has the lock itself, for process ids that are not reused. Its offsets and counters are
    64-bit and are taken not to overflow. Third parties (torch, numpy, nvidia-smi,
    cuda-checkpoint, databases, the event loop, FastAPI, pickle) are
    parameters. *)
From stdpp Require Export base tactics option list numbers strings gmap.
From Stdlib Require Export Ascii ZArith Lia.

(** ** Python exceptions and results *)

(** The exception classes the modelled code raises or tests for.
    [UserError n] stands for any other [Exception] raised by user code. *)
Inductive exn :=
  | ValueError | TypeError | KeyError | IndexError | AttributeError
  | OverflowError | ZeroDivisionError | RuntimeError | ImportError
  | NameError | OSError | FileNotFoundError | ConnectionError | BrokenPipeError
  | EOFError | TimeoutError | Full | Empty | StopIteration | KeyboardInterrupt
  | UserError (n : Z).

#[export] Instance exn_eq_dec : EqDecision exn.
Proof. solve_decision. Defined.

(** [except (ConnectionError, FileNotFoundError)]: [BrokenPipeError] is a
    subclass of [ConnectionError]. *)
Definition is_connection_error (e : exn) : bool :=
  match e with
  | ConnectionError | BrokenPipeError | FileNotFoundError => true
  | _ => false
  end.

(** [except OSError]. *)
Definition is_os_error (e : exn) : bool :=
  match e with
  | OSError | FileNotFoundError | ConnectionError | BrokenPipeError | TimeoutError => true
  | _ => false
  end.

(** [except Exception]: everything but [KeyboardInterrupt]. *)
Definition is_exception (e : exn) : bool :=
  match e with KeyboardInterrupt => false | _ => true end.

(** What running a piece of code gives: a value, an exception, or [Spin] when
    the fuel of one of its [while] loops ran out (no handler sees it). *)
Inductive res (X : Type) :=
  | Ok (x : X)
  | Raise (e : exn)
  | Spin.
Arguments Ok {_} _.
Arguments Raise {_} _.
Arguments Spin {_}.

(** ** Programs: state passing with exceptions *)

Definition prog (W X : Type) : Type := W → res X * W.

Definition ret {W X} (x : X) : prog W X := λ w, (Ok x, w).
Definition raise {W X} (e : exn) : prog W X := λ w, (Raise e, w).
Definition bind {W X Y} (c : prog W X) (k : X → prog W Y) : prog W Y :=
  λ w, match c w with
       | (Ok x, w') => k x w'
       | (Raise e, w') => (Raise e, w')
       | (Spin, w') => (Spin, w')
       end.

(** [try: c except e: h e]: the handler [h] gets the exception and re-raises
    what it does not handle. *)
Definition try_except {W X} (c : prog W X) (h : exn → prog W X) : prog W X :=
  λ w, match c w with
       | (Raise e, w') => h e w'
       | r => r
       end.

(** [try: c finally: f]. *)
Definition try_finally {W X} (c : prog W X) (f : prog W unit) : prog W X :=
  λ w, let '(r, w1) := c w in
       match r with
       | Spin => (Spin, w1)
       | _ => match f w1 with
              | (Ok _, w2) => (r, w2)
              | (Raise e, w2) => (Raise e, w2)
              | (Spin, w2) => (Spin, w2)
              end
       end.

(** Lift a pure result into a program. *)
Definition of_res {W X} (r : res X) : prog W X := λ w, (r, w).

Declare Scope pipe_scope.
Delimit Scope pipe_scope with pipe.
Notation "'let!' x ':=' c 'in' k" := (bind c (λ x, k))
  (at level 10, x pattern, c at level 200, k at level 200) : pipe_scope.
Notation "c ';!' k" := (bind c (λ _, k))
  (at level 100, right associativity) : pipe_scope.
Open Scope pipe_scope.

(** A [while] loop: [body] returns [inl] to go round again and [inr] to leave
    the loop with a result. *)
Fixpoint loop {W S R} (fuel : nat) (body : S → prog W (S + R)) (s : S) : prog W R :=
  match fuel with
  | O => λ w, (Spin, w)
  | S fuel =>
      let! r := body s in
      match r with
      | inl s' => loop fuel body s'
      | inr x => ret x
      end
  end.

(** [for x in xs: body]. *)
Fixpoint for_each {W X} (xs : list X) (body : X → prog W unit) : prog W unit :=
  match xs with
  | [] => ret tt
  | x :: xs => body x ;! for_each xs body
  end.

(** ** Weakest preconditions *)

(** [wp c Q w]: running [c] in [w] ends with a result and a state in [Q]. *)
Definition wp {W X} (c : prog W X) (Q : res X → W → Prop) (w : W) : Prop :=
  Q (c w).1 (c w).2.

Section wp.
Context {W : Type}.
Implicit Types (w : W).

Lemma wp_ret {X} (x : X) Q w : Q (Ok x) w → wp (ret x) Q w.
Proof. done. Qed.

Lemma wp_raise {X} e (Q : res X → W → Prop) w : Q (Raise e) w → wp (raise e) Q w.
Proof. done. Qed.

Lemma wp_bind {X Y} (c : prog W X) (k : X → prog W Y) Q w :
  wp c (λ r w', match r with
                | Ok x => wp (k x) Q w'
                | Raise e => Q (Raise e) w'
                | Spin => Q Spin w'
                end) w →
  wp (bind c k) Q w.
Proof. unfold wp, bind. by destruct (c w) as [[] ?]. Qed.

Lemma wp_try {X} (c : prog W X) h Q w :
  wp c (λ r w', match r with
                | Raise e => wp (h e) Q w'
                | r => Q r w'
                end) w →
  wp (try_except c h) Q w.
Proof. unfold wp, try_except. by destruct (c w) as [[] ?]. Qed.

Lemma wp_eq {X} (c : prog W X) (Q : res X → W → Prop) w r w' :
  c w = (r, w') → Q r w' → wp c Q w.
Proof. unfold wp. by intros ->. Qed.

Lemma wp_mono {X} (c : prog W X) (Q Q' : res X → W → Prop) w :
  wp c Q w → (∀ r w', Q r w' → Q' r w') → wp c Q' w.
Proof. unfold wp. auto. Qed.

(** The invariant rule for [while] loops. *)
Lemma wp_loop {S R} (I : S → W → Prop) (body : S → prog W (S + R)) Q fuel s w :
  I s w →
  (∀ s w, I s w → Q Spin w) →
  (∀ s w, I s w →
     wp (body s) (λ r w', match r with
                          | Ok (inl s') => I s' w'
                          | Ok (inr x) => Q (Ok x) w'
                          | Raise e => Q (Raise e) w'
                          | Spin => Q Spin w'
                          end) w) →
  wp (loop fuel body s) Q w.
Proof.
  intros HI Hspin Hbody. revert s w HI.
  induction fuel as [|fuel IH]; intros s w HI; simpl.
  - unfold wp; simpl; eauto.
  - apply wp_bind. eapply wp_mono; [by apply Hbody|].
    intros [[s'|x]|e|] w' H; simpl in *; eauto using wp_ret.
Qed.

Lemma wp_for_each {X} (I : list X → W → Prop) (body : X → prog W unit) Q xs w :
  I xs w →
  (∀ w', I [] w' → Q (Ok tt) w') →
  (∀ x xs w, I (x :: xs) w →
     wp (body x) (λ r w', match r with
                          | Ok _ => I xs w'
                          | Raise e => Q (Raise e) w'
                          | Spin => Q Spin w'
                          end) w) →
  wp (for_each xs body) Q w.
Proof.
  intros HI Hnil Hbody. revert w HI.
  induction xs as [|x xs IH]; intros w HI; simpl; [by apply wp_ret, Hnil|].
  apply wp_bind. eapply wp_mono; [by apply Hbody|].
  intros [[]|e|] w' H; simpl in *; eauto.
Qed.
End wp.

(** [c] leaves every observation in [obs] as it was. *)
Definition keeps {W X O} (obs : W → O) (c : prog W X) : Prop :=
  ∀ w, obs (c w).2 = obs w.

Lemma keeps_ret {W X O} (obs : W → O) (x : X) : keeps obs (ret x).
Proof. done. Qed.

Lemma keeps_raise {W X O} (obs : W → O) e : keeps obs (raise (X:=X) e).
Proof. done. Qed.

Lemma keeps_bind {W X Y O} (obs : W → O) (c : prog W X) (k : X → prog W Y) :
  keeps obs c → (∀ x, keeps obs (k x)) → keeps obs (bind c k).
Proof.
  intros Hc Hk w. unfold bind. specialize (Hc w).
  destruct (c w) as [[x|e|] w']; simpl in *; try done. by rewrite Hk.
Qed.

Lemma keeps_try {W X O} (obs : W → O) (c : prog W X) h :
  keeps obs c → (∀ e, keeps obs (h e)) → keeps obs (try_except c h).
Proof.
  intros Hc Hh w. unfold try_except. specialize (Hc w).
  destruct (c w) as [[x|e|] w']; simpl in *; try done. by rewrite Hh.
Qed.

Lemma keeps_finally {W X O} (obs : W → O) (c : prog W X) f :
  keeps obs c → keeps obs f → keeps obs (try_finally c f).
Proof.
  intros Hc Hf w. unfold try_finally. specialize (Hc w).
  destruct (c w) as [[x|e|] w']; simpl in *; try done;
    specialize (Hf w'); destruct (f w') as [[]]; simpl in *; congruence.
Qed.

Lemma keeps_of_res {W X O} (obs : W → O) (r : res X) : keeps obs (of_res r).
Proof. done. Qed.

Lemma keeps_for_each {W X O} (obs : W → O) (xs : list X) (body : X → prog W unit) :
  (∀ x, keeps obs (body x)) → keeps obs (for_each xs body).
Proof.
  intros Hb. induction xs as [|x xs IH]; simpl; [by intros w|]. by apply keeps_bind.
Qed.

Lemma keeps_loop {W S R O} (obs : W → O) fuel (body : S → prog W (S + R)) s :
  (∀ s, keeps obs (body s)) → keeps obs (loop fuel body s).
Proof.
  intros Hb. revert s. induction fuel as [|fuel IH]; intros s; [done|].
  apply keeps_bind; [done|]. intros [s'|x]; [apply IH | apply keeps_ret].
Qed.

Lemma wp_keeps {W X O} (obs : W → O) (c : prog W X) (Q : res X → W → Prop) w :
  keeps obs c → (∀ r w', obs w' = obs w → Q r w') → wp c Q w.
Proof. intros Hc HQ. apply HQ, Hc. Qed.

(** Sequencing after a program that keeps [obs]. *)
Lemma wp_bind_keeps {W X Y O} (obs : W → O) (c : prog W X) (k : X → prog W Y)
    (Q : res Y → W → Prop) w :
  keeps obs c →
  (∀ w', obs w' = obs w → (∀ e, Q (Raise e) w') ∧ Q Spin w') →
  (∀ x w', obs w' = obs w → wp (k x) Q w') →
  wp (bind c k) Q w.
Proof.
  intros Hc Hfail Hk. apply wp_bind, (wp_keeps obs); [done|].
  intros [x|e|] w' Hw; [by apply Hk|by apply Hfail|by apply Hfail].
Qed.

(** [c] raises nothing. *)
Definition calm {W X} (c : prog W X) : Prop := ∀ w e, (c w).1 ≠ Raise e.

Lemma calm_ret {W X} (x : X) : calm (W:=W) (ret x).
Proof. done. Qed.

Lemma calm_bind {W X Y} (c : prog W X) (k : X → prog W Y) :
  calm c → (∀ x, calm (k x)) → calm (bind c k).
Proof.
  intros Hc Hk w e. unfold bind. specialize (Hc w e).
  destruct (c w) as [[x|e'|] w']; simpl in *; [apply Hk|intros [= ->]; by apply Hc|done].
Qed.

Lemma calm_try {W X} (c : prog W X) h : (∀ e w w', c w = (Raise e, w') → ∀ e', (h e w').1 ≠ Raise e') →
  calm (try_except c h).
Proof.
  intros Hh w e. unfold try_except. specialize (Hh) with (w := w).
  destruct (c w) as [[x|e'|] w'] eqn:E; simpl in *; [done| |done]. by eapply Hh.
Qed.

Lemma calm_loop {W S R} fuel (body : S → prog W (S + R)) s :
  (∀ s, calm (body s)) → calm (loop fuel body s).
Proof.
  intros Hb. revert s. induction fuel as [|fuel IH]; intros s; [by intros w e|].
  apply calm_bind; [done|]. intros [s'|x]; [apply IH | apply calm_ret].
Qed.

(** A loop whose turns decrease a measure ends within that much fuel. *)
Lemma loop_terminates {W S R} (I : S → W → Prop) (μ : S → W → nat)
    (body : S → prog W (S + R)) fuel s w :
  (∀ s w, I s w → (body s w).1 ≠ Spin ∧
     ∀ s' w', body s w = (Ok (inl s'), w') → I s' w' ∧ μ s' w' < μ s w)%nat →
  I s w → (μ s w < fuel)%nat → (loop fuel body s w).1 ≠ Spin.
Proof.
  intros Hb. revert s w. induction fuel as [|fuel IH]; intros s w HI Hμ; [lia|]; simpl.
  destruct (Hb s w HI) as [Hspin Hstep]. unfold bind.
  destruct (body s w) as [[[s'|x]|e|] w'] eqn:E; simpl in *; try done.
  destruct (Hstep _ _ eq_refl). apply IH; [done|lia].
Qed.

(** ** Programs on a component of the state *)

(** Run a program on the left component of a pair of states. *)
Definition lift {W S X} (c : prog W X) : prog (W * S) X :=
  λ '(w, s), let '(r, w') := c w in (r, (w', s)).

(** Read and write the right component. *)
Definition get_obj {W S} : prog (W * S) S := λ '(w, s), (Ok s, (w, s)).
Definition put_obj {W S} (s : S) : prog (W * S) unit := λ '(w, _), (Ok tt, (w, s)).

Lemma wp_lift {W S X} (c : prog W X) Q (w : W) (s : S) :
  wp c (λ r w', Q r (w', s)) w → wp (lift c) Q (w, s).
Proof. unfold wp, lift. by destruct (c w). Qed.

Lemma wp_get_obj {W S} Q (w : W) (s : S) : Q (Ok s) (w, s) → wp get_obj Q (w, s).
Proof. done. Qed.

Lemma wp_put_obj {W S} Q (w : W) (s s' : S) :
  Q (Ok tt) (w, s') → wp (put_obj s') Q (w, s).
Proof. done. Qed.

(** Run a program of a part of a larger state. *)
Definition zoom {V W X} (get : V → W) (put : W → V → V) (c : prog W X) : prog V X :=
  λ v, let '(r, w) := c (get v) in (r, put w v).

Lemma wp_zoom {V W X} (get : V → W) (put : W → V → V) (c : prog W X) Q v :
  wp c (λ r w, Q r (put w v)) (get v) → wp (zoom get put c) Q v.
Proof. unfold wp, zoom. by destruct (c (get v)). Qed.

Lemma keeps_zoom {V W X O} (get : V → W) (put : W → V → V) (c : prog W X) (obs : V → O) :
  (∀ v, obs (put (c (get v)).2 v) = obs v) → keeps obs (zoom get put c).
Proof. intros Hc v. unfold zoom. specialize (Hc v). by destruct (c (get v)). Qed.

Lemma calm_lift {W S X} (c : prog W X) : calm c → calm (lift (S:=S) c).
Proof. intros Hc [w s] e. unfold lift. specialize (Hc w e). by destruct (c w). Qed.

Lemma calm_zoom {V W X} (get : V → W) (put : W → V → V) (c : prog W X) :
  calm c → calm (zoom get put c).
Proof. intros Hc v e. unfold zoom. specialize (Hc (get v) e). by destruct (c (get v)). Qed.

Create HintDb pipe.
Create Rewrite HintDb pipe.
#[export] Hint Resolve keeps_ret keeps_raise keeps_bind keeps_try keeps_loop
  keeps_finally keeps_of_res keeps_for_each calm_ret calm_bind calm_lift calm_zoom : pipe.

(** ** Lists *)

Lemma filter_all {A} (P : A → Prop) `{∀ x, Decision (P x)} l : Forall P l → filter P l = l.
Proof. induction 1; [done|]. rewrite filter_cons_True by done. by f_equal. Qed.

Lemma filter_none {A} (P : A → Prop) `{∀ x, Decision (P x)} l : Forall (λ x, ¬ P x) l → filter P l = [].
Proof. induction 1; [done|]. by rewrite filter_cons_False. Qed.

(** [l[a:b]] for [0 <= a]. *)
Definition slice {A} (l : list A) (a b : Z) : list A :=
  take (Z.to_nat (b - a)) (drop (Z.to_nat a) l).

(** [range(n)]. *)
Definition range (n : Z) : list Z := seqZ 0 n.

(** ** Time *)

(** Clock readings and durations are integers, in microseconds. *)
Definition millis (n : Z) : Z := n * 1000.
Definition seconds (n : Z) : Z := n * 1000000.

(** ** Tactics *)

(** Split every [match] of the goal and of the hypotheses on a variable or a
    comparison, simplifying as it goes. *)
Ltac cases :=
  repeat (case_match; simplify_eq/=; try done).

(** Turn the boolean comparisons of the context into propositions. *)
Ltac boolify :=
  rewrite ?andb_true_iff, ?andb_false_iff, ?orb_true_iff, ?orb_false_iff,
    ?negb_true_iff, ?negb_false_iff, ?Z.leb_le, ?Z.leb_gt, ?Z.ltb_lt, ?Z.ltb_ge,
    ?Z.eqb_eq, ?Z.eqb_neq in *.

