(* ===== verification/Types.v ===== *)
(** * Values that travel through a pipeline

    The control sentinels of [types.py], Python values as far as the framework
    looks into them, the results worker calls return, and the duration and
    CUDA scans of [workers.py] that inspect items. *)
From S2P Require Import Prelude.

Set Warnings "-register-all".

(** ** Sentinels (types.py) *)

Inductive Sentinel := END | WORKER_STOP.

#[export] Instance Sentinel_eq_dec : EqDecision Sentinel.
Proof. solve_decision. Defined.

(** [Enum.name]. *)
Definition Sentinel_name (s : Sentinel) : string :=
  match s with END => "END" | WORKER_STOP => "WORKER_STOP" end.

(** [str.upper], [str.lower] and [str.title] on ASCII letters. *)
Definition ascii_lower (c : ascii) : ascii :=
  let n := nat_of_ascii c in
  if decide (65 ≤ n ≤ 90)%nat then ascii_of_nat (n + 32) else c.
Definition ascii_upper (c : ascii) : ascii :=
  let n := nat_of_ascii c in
  if decide (97 ≤ n ≤ 122)%nat then ascii_of_nat (n - 32) else c.

(** [str.title] of a word without inner separators. *)
Definition title_word (cs : list ascii) : list ascii :=
  match cs with
  | [] => []
  | c :: cs => ascii_upper c :: (ascii_lower <$> cs)
  end.

(** [str.split(sep)] for a one-character separator: never empty. *)
Fixpoint split_chars (sep : ascii) (cs : list ascii) : list (list ascii) :=
  match cs with
  | [] => [[]]
  | c :: cs =>
      if decide (c = sep) then [] :: split_chars sep cs
      else match split_chars sep cs with
           | [] => [[c]]
           | w :: ws => (c :: w) :: ws
           end
  end.

(** [Sentinel.__repr__]. *)
Definition Sentinel_repr (s : Sentinel) : string :=
  String.string_of_list_ascii
    (concat (title_word <$>
       split_chars "_"%char (String.list_ascii_of_string (Sentinel_name s)))).

Example Sentinel_repr_END : Sentinel_repr END = "End".
Proof. reflexivity. Qed.
Example Sentinel_repr_WORKER_STOP : Sentinel_repr WORKER_STOP = "WorkerStop".
Proof. reflexivity. Qed.

(** ** Python values *)

(** Items and worker results. Numbers are exact integers (a duration is a
    number of time units); [PyTensor] is a numpy array or a torch tensor with
    its [is_cuda] flag, [PyObj] any other object. *)
Inductive py :=
  | PyNone
  | PySent (s : Sentinel)
  | PyNum (n : Z)
  | PyStr (s : string)
  | PyList (l : list py)
  | PyTuple (l : list py)
  | PyDict (d : list (string * py))
  | PyTensor (is_cuda : bool) (tag : Z)
  | PyObj (tag : Z)
  | PyBytes (b : list Byte.byte).

Definition End : py := PySent END.
Definition WorkerStop : py := PySent WORKER_STOP.

(** [_is_end], [_is_worker_stop] (workers.py) and [is None]. *)
Definition _is_end (item : py) : bool :=
  match item with PySent END => true | _ => false end.
Definition _is_worker_stop (item : py) : bool :=
  match item with PySent WORKER_STOP => true | _ => false end.
Definition is_None (item : py) : bool :=
  match item with PyNone => true | _ => false end.

(** [[r for r in result if r is not None and not _is_end(r)]]. *)
Definition is_valid (item : py) : bool := negb (is_None item) && negb (_is_end item).
Definition valid_items (l : list py) : list py := filter (λ r, is_valid r = true) l.

(** The items among payloads: all but [End]. *)
Definition live (l : list py) : list py := filter (λ x, _is_end x = false) l.

Lemma live_app l l' : live (l ++ l') = live l ++ live l'.
Proof. apply filter_app. Qed.

(** A generator as the framework sees it: what it yields, then whether it
    stops normally or by raising. *)
Record generator := Generator {
  gen_yields : list py;
  gen_raises : option exn;
}.

(** What a worker call returns: a generator or any other value. *)
Inductive result :=
  | RGen (g : generator)
  | RVal (v : py).

(** The items of a result that go downstream. *)
Definition as_list (v : py) : list py := match v with PyList l => l | v => [v] end.
Definition result_items (r : res result) : list py :=
  match r with
  | Ok (RGen g) => valid_items (gen_yields g)
  | Ok (RVal v) => valid_items (as_list v)
  | _ => []
  end.

(** ** Stage names (worker.push) *)

(** How the target of a push is named; a [bool] is an [int] to Python but is
    refused. *)
Inductive push_target :=
  | StageBool (b : bool)
  | StageIndex (i : Z)
  | StageName (s : string).

(** ** Queue messages (queues.Chunk) *)

(** One queue message: a bare payload or sentinel, or a [Chunk] of payloads. *)
Inductive msg :=
  | Bare (v : py)
  | Chunk (items : list py).

(** The payloads a message carries, oldest first. *)
Definition msg_items (m : msg) : list py :=
  match m with Bare v => [v] | Chunk items => items end.

Definition carried (ms : list msg) : list py := ms ≫= msg_items.

Lemma carried_app ms ms' : carried (ms ++ ms') = carried ms ++ carried ms'.
Proof. apply bind_app. Qed.

Lemma carried_snoc ms m : carried (ms ++ [m]) = carried ms ++ msg_items m.
Proof. rewrite carried_app. unfold carried. simpl. by rewrite app_nil_r. Qed.

(** A chunk that holds something; [_InputChannel.get] pops one item of every
    chunk it receives. *)
Definition nonempty_msg (m : msg) : bool :=
  match m with Chunk [] => false | _ => true end.

Lemma valid_items_app l l' : valid_items (l ++ l') = valid_items l ++ valid_items l'.
Proof. apply filter_app. Qed.

Lemma valid_items_idem l : valid_items (valid_items l) = valid_items l.
Proof. apply list_filter_filter_l. naive_solver. Qed.

#[export] Hint Rewrite carried_app carried_snoc valid_items_app valid_items_idem : pipe.

(** ** Inspecting items (workers.extract_audio_duration, _has_cuda_tensor) *)

(** What the framework relies on Python to do with objects it cannot see
    into: their truth value, [+], [.get("duration", 0.0)] and iteration. *)
Class ObjOps := {
  obj_truth : py → res bool;
  obj_add : py → py → res py;
  obj_get_duration : py → res py;
  obj_iter : py → res (list py);
}.

(** [d.get(k)]. *)
Fixpoint dict_get (k : string) (d : list (string * py)) : option py :=
  match d with
  | [] => None
  | (k', v) :: d => if decide (k = k') then Some v else dict_get k d
  end.

Section inspect.
Context `{ObjOps}.

(** [bool(v)]. *)
Definition truthy (v : py) : res bool :=
  match v with
  | PyNone => Ok false
  | PySent _ => Ok true
  | PyNum n => Ok (negb (n =? 0)%Z)
  | PyStr s => Ok (negb (bool_decide (s = EmptyString)))
  | PyList l | PyTuple l => Ok (negb (bool_decide (length l = 0%nat)))
  | PyDict d => Ok (negb (bool_decide (length d = 0%nat)))
  | PyBytes b => Ok (negb (bool_decide (length b = 0%nat)))
  | PyTensor _ _ | PyObj _ => obj_truth v
  end.

(** [a + b] for a number [a], as [sum] uses it. *)
Definition py_add (a b : py) : res py :=
  match a, b with
  | PyNum m, PyNum n => Ok (PyNum (m + n))
  | (PyTensor _ _ | PyObj _), _ | _, (PyTensor _ _ | PyObj _) => obj_add a b
  | _, _ => Raise TypeError
  end.

(** [v.get("duration", 0.0)]. *)
Definition get_duration (v : py) : res py :=
  match v with
  | PyDict d => Ok (default (PyNum 0) (dict_get "duration" d))
  | PyObj _ => obj_get_duration v
  | _ => Raise AttributeError
  end.

(** [iter(v)], as a [for] loop runs it. *)
Definition py_iter (v : py) : res (list py) :=
  match v with
  | PyList l | PyTuple l => Ok l
  | PyDict d => Ok (PyStr <$> d.*1)
  | PyStr s => Ok ((λ c, PyStr (String.String c EmptyString)) <$> String.list_ascii_of_string s)
  | PyTensor _ _ | PyObj _ => obj_iter v
  | PyBytes b => Ok ((λ c, PyNum (Z.of_N (Byte.to_N c))) <$> b)
  | PyNone | PySent _ | PyNum _ => Raise TypeError
  end.

(** [sum(f(x) for x in l)] from an accumulator: each element is computed,
    then added. *)
Definition sum_map (f : py → res py) : py → list py → res py :=
  fix go acc l :=
    match l with
    | [] => Ok acc
    | x :: l =>
        match f x with
        | Ok v => match py_add acc v with
                  | Ok acc => go acc l
                  | Raise e => Raise e
                  | Spin => Spin
                  end
        | Raise e => Raise e
        | Spin => Spin
        end
    end.

(** [sum(l)] from an accumulator. *)
Definition py_sum : py → list py → res py := sum_map Ok.

(** [extract_audio_duration(obj)]. *)
Fixpoint extract_audio_duration (obj : py) : res py :=
  match obj with
  | PyNone => Ok (PyNum 0)
  | PyDict d =>
      let dur := default (PyNum 0) (dict_get "duration" d) in
      match dur with
      | PyList l => py_sum (PyNum 0) l
      | _ =>
          match truthy dur with
          | Ok true => Ok dur
          | Ok false =>
              match dict_get "sample" d, dict_get "segments" d with
              | Some sample, _ => get_duration sample
              | None, Some segments =>
                  match py_iter segments with
                  | Ok l => sum_map get_duration (PyNum 0) l
                  | Raise e => Raise e
                  | Spin => Spin
                  end
              | None, None => Ok (PyNum 0)
              end
          | Raise e => Raise e
          | Spin => Spin
          end
      end
  | PyList l => sum_map extract_audio_duration (PyNum 0) l
  | _ => Ok (PyNum 0)
  end.

(** [sum(extract_audio_duration(b) for b in batch)]. *)
Definition batch_audio (batch : list py) : res py :=
  sum_map extract_audio_duration (PyNum 0) batch.
End inspect.

(** [_has_cuda_tensor(obj, _depth)], with torch loaded. The recursion is at
    most two levels deep; [depth] counts down from 2. *)
Fixpoint has_cuda_tensor_at (depth : nat) (obj : py) : bool :=
  match obj with
  | PyTensor is_cuda _ => is_cuda
  | _ =>
      match depth with
      | O => false
      | S depth =>
          match obj with
          | PyDict d => existsb (has_cuda_tensor_at depth) d.*2
          | PyList l | PyTuple l => existsb (has_cuda_tensor_at depth) l
          | _ => false
          end
      end
  end.

Definition _has_cuda_tensor (torch_loaded : bool) (obj : py) : bool :=
  torch_loaded && has_cuda_tensor_at 2 obj.
