(* ===== verification/Text.v ===== *)
(** * Python strings

    The [str] methods the placement code uses, on ASCII strings: [strip],
    [split(",")], [startswith], [str(int)] and [int(str)]. *)
From S2P Require Import Prelude Types.
From Stdlib Require Import DecimalString DecimalZ DecimalPos.

Definition chars (s : string) : list ascii := String.list_ascii_of_string s.
Definition text (cs : list ascii) : string := String.string_of_list_ascii cs.

Lemma text_chars s : text (chars s) = s.
Proof. apply String.string_of_list_ascii_of_string. Qed.
Lemma chars_text cs : chars (text cs) = cs.
Proof. apply String.list_ascii_of_string_of_list_ascii. Qed.

(** The characters [str.strip()] removes. *)
Definition is_space (c : ascii) : bool :=
  let n := nat_of_ascii c in
  ((9 <=? n) && (n <=? 13) || (28 <=? n) && (n <=? 32))%nat.

Fixpoint lstrip (cs : list ascii) : list ascii :=
  match cs with
  | c :: cs' => if is_space c then lstrip cs' else cs
  | [] => []
  end.
Definition strip_chars (cs : list ascii) : list ascii := rev (lstrip (rev (lstrip cs))).

(** [s.strip()] and [s.split(",")]. *)
Definition strip (s : string) : string := text (strip_chars (chars s)).
Definition split_commas (s : string) : list string := text <$> split_chars ","%char (chars s).

(** [s.startswith(p)]. *)
Definition startswith (p s : string) : bool := bool_decide (chars p `prefix_of` chars s).

(** [str(n)]. *)
Definition str_of_Z (n : Z) : string := NilZero.string_of_int (Z.to_int n).

(** [int(s)]: blanks around it, a sign, digits, and single underscores between
    digits; anything else raises [ValueError]. *)
Fixpoint underscores_ok (after_digit : bool) (cs : list ascii) : bool :=
  match cs with
  | [] => after_digit
  | c :: cs => if decide (c = "_"%char) then after_digit && underscores_ok false cs
               else underscores_ok true cs
  end.
Definition int_digits (cs : list ascii) : res Z :=
  if underscores_ok false cs then
    match NilZero.uint_of_string (text (filter (λ c, c ≠ "_"%char) cs)) with
    | Some d => Ok (Z.of_uint d)
    | None => Raise ValueError
    end
  else Raise ValueError.
Definition int_of_str (s : string) : res Z :=
  match strip_chars (chars s) with
  | c :: cs =>
      if decide (c = "-"%char) then
        match int_digits cs with Ok n => Ok (- n)%Z | r => r end
      else if decide (c = "+"%char) then int_digits cs
      else int_digits (c :: cs)
  | [] => Raise ValueError
  end.

Example int_of_str_blanks : int_of_str " +1_000 " = Ok 1000%Z.
Proof. reflexivity. Qed.
Example int_of_str_bad : int_of_str "1__0" = Raise ValueError.
Proof. reflexivity. Qed.

(** ** Stripping and joining *)

(** A word: not empty, without commas and blanks. *)
Definition word (cs : list ascii) : Prop :=
  cs ≠ [] ∧ Forall (λ c, is_space c = false ∧ c ≠ ","%char) cs.

Lemma lstrip_word cs : Forall (λ c, is_space c = false) cs → lstrip cs = cs.
Proof. destruct cs; [done|]. inversion 1; subst. simpl. by case_match; simplify_eq. Qed.

Lemma strip_solid cs : Forall (λ c, is_space c = false) cs → strip_chars cs = cs.
Proof.
  intros Hcs. unfold strip_chars. rewrite (lstrip_word cs) by done.
  rewrite lstrip_word by (by apply List.Forall_rev). apply rev_involutive.
Qed.

Lemma word_solid cs : word cs → Forall (λ c, is_space c = false) cs.
Proof. intros [_ Hcs]. eapply Forall_impl; [exact Hcs|]. naive_solver. Qed.

(** [",".join(ws)]. *)
Fixpoint join_commas (ws : list (list ascii)) : list ascii :=
  match ws with
  | [] => []
  | [w] => w
  | w :: ws => w ++ ","%char :: join_commas ws
  end.

Lemma split_word sep cs : Forall (λ c, c ≠ sep) cs → split_chars sep cs = [cs].
Proof.
  induction 1 as [|c cs Hc Hcs IH]; [done|]. simpl. rewrite decide_False by done. by rewrite IH.
Qed.

Lemma split_app sep cs rest :
  Forall (λ c, c ≠ sep) cs → split_chars sep (cs ++ sep :: rest) = cs :: split_chars sep rest.
Proof.
  induction 1 as [|c cs Hc Hcs IH]; simpl; [by rewrite decide_True|].
  rewrite decide_False by done. by rewrite IH.
Qed.

Lemma split_join ws :
  ws ≠ [] → Forall word ws → split_chars ","%char (join_commas ws) = ws.
Proof.
  intros Hne Hws. induction Hws as [|w ws [_ Hw] Hws IH]; [done|].
  assert (Forall (λ c, c ≠ ","%char) w) as Hw'.
  { eapply Forall_impl; [exact Hw|]. naive_solver. }
  destruct ws as [|w' ws]; [by apply split_word|].
  change (join_commas (w :: w' :: ws)) with (w ++ ","%char :: join_commas (w' :: ws)).
  rewrite split_app by done. f_equal. by apply IH.
Qed.

(** ** Numbers *)

Definition is_digit (c : ascii) : Prop := is_space c = false ∧ c ≠ ","%char ∧ c ≠ "_"%char ∧ c ≠ "-"%char ∧ c ≠ "+"%char.

Lemma uint_digits d : Forall is_digit (chars (NilEmpty.string_of_uint d)).
Proof. induction d; simpl; constructor; auto; by split_and!. Qed.

Lemma nonneg_digits n : (0 ≤ n)%Z →
  ∃ d, d ≠ Decimal.Nil ∧ str_of_Z n = NilEmpty.string_of_uint d ∧ Z.of_uint d = n.
Proof.
  intros Hn. destruct n as [|p|p]; [by exists Decimal.zero| |done].
  exists (Pos.to_uint p). pose proof (Unsigned.to_uint_nonnil p) as Hp. split_and!; [done| |].
  - unfold str_of_Z. simpl. unfold NilZero.string_of_uint. by destruct (Pos.to_uint p).
  - unfold Z.of_uint. by rewrite Unsigned.of_to.
Qed.

Lemma str_digits n : (0 ≤ n)%Z → Forall is_digit (chars (str_of_Z n)).
Proof. intros Hn. destruct (nonneg_digits n Hn) as (d & _ & -> & _). apply uint_digits. Qed.

Lemma str_nonempty n : (0 ≤ n)%Z → chars (str_of_Z n) ≠ [].
Proof. intros Hn. destruct (nonneg_digits n Hn) as (d & Hd & -> & _). by destruct d. Qed.

Lemma str_word n : (0 ≤ n)%Z → word (chars (str_of_Z n)).
Proof.
  intros Hn. split; [by apply str_nonempty|].
  eapply Forall_impl; [by apply str_digits|]. unfold is_digit. naive_solver.
Qed.

Lemma underscores_digits b cs :
  Forall is_digit cs → cs ≠ [] ∨ b = true → underscores_ok b cs = true.
Proof.
  intros Hcs. revert b. induction Hcs as [|c cs (_ & _ & Hc & _) Hcs IH]; intros b Hb; simpl; [naive_solver|].
  rewrite decide_False by done. apply IH. by right.
Qed.

(** [int(str(n)) == n]. *)
Lemma int_of_str_of_Z n : (0 ≤ n)%Z → int_of_str (str_of_Z n) = Ok n.
Proof.
  intros Hn. pose proof (str_digits n Hn) as Hd. pose proof (str_nonempty n Hn) as Hne.
  unfold int_of_str. rewrite strip_solid.
  2: { eapply Forall_impl; [exact Hd|]. unfold is_digit. naive_solver. }
  assert (int_digits (chars (str_of_Z n)) = Ok n) as Hint.
  { unfold int_digits. rewrite underscores_digits by auto.
    rewrite filter_all by (eapply Forall_impl; [exact Hd|]; unfold is_digit; naive_solver).
    rewrite text_chars. destruct (nonneg_digits n Hn) as (d & Hnil & -> & <-).
    pose proof (NilZero.usu d Hnil) as Hu.
    assert (NilZero.string_of_uint d = NilEmpty.string_of_uint d) as <- by (by destruct d).
    by rewrite Hu. }
  destruct (chars (str_of_Z n)) as [|c cs]; [done|].
  inversion Hd as [|? ? (_ & _ & _ & Hm & Hp) _]; subst. by rewrite !decide_False by done.
Qed.
