(* ===== verification/Queues.v ===== *)
(** * Queues between stages (queues.py)

    What a queue promises to the processes that use it ([queue],
    [LawfulQueue]), the retrying put ([putter], [_put_retry]), the queue with
    statistics ([InstrumentedQueue]) and, as the reference queue of witnesses
    and round trips, a bounded FIFO ([Fifo]). *)
From S2P Require Import Prelude Types.

(** ** What the framework uses of a queue *)

(** The clock and [time.sleep]. *)
Class Runtime (W : Type) := {
  now : prog W Z;
  sleep : Z → prog W unit;
}.

(** The clock always answers and sleeping always ends. *)
Class TotalRuntime (W : Type) `{Runtime W} := {
  now_total w : ∃ n, (now w).1 = Ok n;
  sleep_total d w : (sleep d w).1 = Ok tt;
}.

(** A reference to a queue of messages [M] from a process whose world is [W].
    [q_put t m] is one [put] call: it raises [Full] when there was no room
    within the timeout ([None]: wait for ever). [q_encode], for a queue that
    has an [encode] method, encodes a message once and gives the
    [put_encoded] of that encoding. [q_sent] and [q_recv] are the messages
    this process has put on and taken off the queue so far. *)
Record queue (W M : Type) := Queue {
  q_put : option Z → M → prog W unit;
  q_put_nowait : M → prog W unit;
  q_get : option Z → prog W M;
  q_get_nowait : prog W M;
  q_encode : option (M → prog W (Z → prog W unit));
  q_sent : W → list M;
  q_recv : W → list M;
}.
Arguments Queue {_ _} _ _ _ _ _ _ _.
Arguments q_put {_ _} _ _ _.
Arguments q_put_nowait {_ _} _ _.
Arguments q_get {_ _} _ _.
Arguments q_get_nowait {_ _} _.
Arguments q_encode {_ _} _.
Arguments q_sent {_ _} _ _.
Arguments q_recv {_ _} _ _.

(** The messages a call delivered or received. *)
Definition ok_list {X Y} (r : res X) (l : list Y) : list Y :=
  match r with Ok _ => l | _ => [] end.
Definition got_list {X} (r : res X) : list X :=
  match r with Ok x => [x] | _ => [] end.

Section laws.
Context {W M : Type}.
Implicit Types (q : queue W M).

(** [c] puts [m] on [q] exactly when it returns normally. *)
Definition puts q (m : M) {X} (c : prog W X) : Prop :=
  ∀ w, q_sent q (c w).2 = q_sent q w ++ ok_list (c w).1 [m] ∧
       q_recv q (c w).2 = q_recv q w.

(** [c] takes one message off [q] exactly when it returns normally, and
    returns that message. *)
Definition gets q (c : prog W M) : Prop :=
  ∀ w, q_recv q (c w).2 = q_recv q w ++ got_list (c w).1 ∧
       q_sent q (c w).2 = q_sent q w.

Definition q_log q (w : W) : list M * list M := (q_sent q w, q_recv q w).
End laws.

(** What a queue promises: a call that raises has no effect on the process's
    history with the queue, one that returns moves exactly one message, and
    encoding moves none. *)
Class LawfulQueue {W M} `{Runtime W} (q : queue W M) := {
  lawful_put t m : puts q m (q_put q t m);
  lawful_put_nowait m : puts q m (q_put_nowait q m);
  lawful_get t : gets q (q_get q t);
  lawful_get_nowait : gets q (q_get_nowait q);
  lawful_encode enc m w :
    q_encode q = Some enc →
    q_log q (enc m w).2 = q_log q w ∧
    ∀ put t, (enc m w).1 = Ok put → puts q m (put t);
  lawful_now : keeps (q_log q) now;
  lawful_sleep d : keeps (q_log q) (sleep d);
}.

(** ** putter and _put_retry *)

Section put_retry.
Context {W : Type} `{Runtime W} {M : Type}.
Implicit Types (q : queue W M) (m : M).

(** [putter(queue, msg)]. *)
Definition putter q m : prog W (Z → prog W unit) :=
  match q_encode q with
  | None => ret (λ timeout, q_put q (Some timeout) m)
  | Some enc => enc m
  end.

(** The [except Full] branch of [_put_retry]: fire [on_stall] once the put
    has waited [stall_s], then forget it. *)
Definition note_stall (stall_s : Z) (t0 : option Z) (on_stall : option (prog W unit))
    : prog W (option Z * option (prog W unit)) :=
  match on_stall with
  | None => ret (t0, None)
  | Some hook =>
      match t0 with
      | None => let! t := now in ret (Some t, on_stall)
      | Some t =>
          let! n := now in
          if (stall_s <=? n - t)%Z then
            try_except hook (λ e, if is_exception e then ret tt else raise e) ;!
            ret (t0, None)
          else ret (t0, on_stall)
      end
  end.

(** One turn of the retry loop. *)
Definition retry_turn (put : Z → prog W unit) (stall_s : Z)
    (s : option Z * option (prog W unit))
    : prog W ((option Z * option (prog W unit)) + unit) :=
  try_except
    (put (millis 100) ;! ret (inr tt))
    (λ e, match e with
          | Full =>
              let! s' := note_stall stall_s s.1 s.2 in
              sleep (millis 10) ;!
              ret (inl s')
          | e => raise e
          end).

(** [_put_retry(queue, msg, on_stall, stall_s)]. *)
Definition _put_retry (fuel : nat) q m (on_stall : option (prog W unit)) (stall_s : Z)
    : prog W unit :=
  let! put := putter q m in
  loop fuel (retry_turn put stall_s) (None, on_stall).

(** *** Every observation the attempts, the clock and the hook keep *)

Lemma note_stall_keeps {O} (obs : W → O) stall_s t0 on_stall :
  keeps obs now →
  (∀ hook, on_stall = Some hook → keeps obs hook) →
  keeps obs (note_stall stall_s t0 on_stall).
Proof.
  intros Hnow Hhook. unfold note_stall.
  destruct on_stall as [hook|], t0 as [t|]; auto with pipe.
  apply keeps_bind; [done|]. intros n. case_match; [|auto with pipe].
  apply keeps_bind; [apply keeps_try|]; auto with pipe.
  intros e. destruct (is_exception e); auto with pipe.
Qed.

Lemma note_stall_hook stall_s t0 on_stall w s' w' :
  note_stall stall_s t0 on_stall w = (Ok s', w') →
  s'.2 = None ∨ s'.2 = on_stall.
Proof.
  unfold note_stall, bind, try_except, ret.
  destruct on_stall, t0; intros; repeat case_match; simplify_eq/=; auto.
Qed.

(** What every attempt, the clock, the naps and the hook leave alone, the
    whole retrying put leaves alone. *)
Lemma retry_turn_keeps {O} (obs : W → O) put stall_s s :
  (∀ t, keeps obs (put t)) → keeps obs now → (∀ d, keeps obs (sleep d)) →
  (∀ hook, s.2 = Some hook → keeps obs hook) →
  keeps obs (retry_turn put stall_s s) ∧
  ∀ w s' w', retry_turn put stall_s s w = (Ok (inl s'), w') → s'.2 = None ∨ s'.2 = s.2.
Proof.
  intros Hput Hnow Hsl Hhook. split.
  - apply keeps_try; [auto with pipe|]. intros e. destruct e; auto with pipe.
    apply keeps_bind; [by apply note_stall_keeps|]. auto with pipe.
  - intros w s' w'. unfold retry_turn, try_except, bind, ret, raise.
    pose proof (note_stall_hook stall_s s.1 s.2) as Hn.
    destruct (put (millis 100) w) as [[|[]|] w1]; intros; simplify_eq/=.
    specialize (Hn w1). destruct (note_stall _ _ _ w1) as [[s1|e|] w2]; simplify_eq/=.
    destruct (sleep _ w2) as [[[]|e|] w3]; simplify_eq/=. eauto.
Qed.

Lemma put_retry_keeps {O} (obs : W → O) fuel q m on_stall stall_s :
  keeps obs (putter q m) →
  (∀ w put t, (putter q m w).1 = Ok put → keeps obs (put t)) →
  keeps obs now → (∀ d, keeps obs (sleep d)) →
  (∀ hook, on_stall = Some hook → keeps obs hook) →
  keeps obs (_put_retry fuel q m on_stall stall_s).
Proof.
  intros Henc Hput Hnow Hsl Hhook w. unfold _put_retry, bind.
  specialize (Henc w). specialize (Hput w).
  destruct (putter q m w) as [[put|e|] w0]; simpl in *; try done. rewrite <-Henc.
  specialize (Hput put).
  enough (wp (loop fuel (retry_turn put stall_s) (None, on_stall))
            (λ _ w', obs w' = obs w0) w0) by done.
  apply (wp_loop (λ s w', obs w' = obs w0 ∧ ∀ hook, s.2 = Some hook → keeps obs hook)); [done|naive_solver|].
  intros s w1 [Hw1 Hs].
  destruct (retry_turn_keeps obs put stall_s s) as [Hk Hh]; [auto..|].
  unfold wp. specialize (Hk w1). specialize (Hh w1).
  destruct (retry_turn put stall_s s w1) as [[[s'|]|e|] w2]; simpl in *; try congruence.
  split; [congruence|]. destruct (Hh _ _ eq_refl) as [->| ->]; [done|]. auto.
Qed.

(** If the attempts raise nothing but [Full], the retrying put raises
    nothing. *)
Lemma put_retry_calm fuel q m on_stall stall_s :
  q_encode q = None →
  (∀ t w e, (q_put q (Some t) m w).1 = Raise e → e = Full) →
  calm now → (∀ d, calm (sleep d)) →
  (∀ hook, on_stall = Some hook → calm hook) →
  calm (_put_retry fuel q m on_stall stall_s).
Proof.
  intros Henc Hput Hnow Hsl Hhook w e. unfold _put_retry, putter, bind. rewrite Henc. simpl.
  set (put := λ t : Z, q_put q (Some t) m) in *.
  enough (wp (loop fuel (retry_turn put stall_s) (None, on_stall))
            (λ r _, ∀ e, r ≠ Raise e) w) as Hwp by apply Hwp.
  assert (∀ s, s.2 = None ∨ s.2 = on_stall → calm (note_stall stall_s s.1 s.2)) as Hnote.
  { intros [t0 o] Ho. simpl in *. unfold note_stall.
    assert (∀ hook, o = Some hook → calm hook) as Hcalm by naive_solver.
    destruct o as [hook|], t0 as [t|]; auto with pipe.
    apply calm_bind; [done|]. intros n. case_match; [|auto with pipe].
    apply calm_bind; [|auto with pipe]. apply calm_try. intros e' w1 w2 E.
    specialize (Hcalm hook eq_refl w1 e'). by rewrite E in Hcalm. }
  apply (wp_loop (λ s _, s.2 = None ∨ s.2 = on_stall)); [by right|done|].
  clear w. intros s w Hs. unfold wp, retry_turn, try_except, bind, ret.
  specialize (Hput (millis 100) w). unfold put.
  destruct (q_put q (Some (millis 100)) m w) as [[[]|e'|] w1]; simpl in *; try done.
  rewrite (Hput e') by done. specialize (Hnote s Hs w1).
  pose proof (note_stall_hook stall_s s.1 s.2 w1) as Hn.
  destruct (note_stall stall_s s.1 s.2 w1) as [[s1|e1|] w2]; simpl in *; [|by edestruct Hnote|done].
  specialize (Hsl (millis 10) w2). destruct (sleep (millis 10) w2) as [[[]|e1|] w3]; simpl in *;
    [|by edestruct Hsl|done].
  destruct (Hn s1 w2 eq_refl) as [->| ->]; [by left|done].
Qed.

Context (q : queue W M) `{!LawfulQueue q}.

Lemma putter_spec m w :
  q_log q (putter q m w).2 = q_log q w ∧
  ∀ put t, (putter q m w).1 = Ok put → puts q m (put t).
Proof.
  unfold putter. destruct (q_encode q) as [enc|] eqn:E.
  - by apply lawful_encode.
  - split; [done|]. simpl. intros put t [= <-]. apply lawful_put.
Qed.
(** The hook of a stalled put must not use the queue itself. *)
Definition quiet (on_stall : option (prog W unit)) : Prop :=
  ∀ hook, on_stall = Some hook → keeps (q_log q) hook.

Lemma retry_turn_spec put stall_s m s w :
  (∀ t, puts q m (put t)) →
  quiet s.2 →
  wp (retry_turn put stall_s s)
     (λ r w', match r with
              | Ok (inl s') => q_log q w' = q_log q w ∧ quiet s'.2
              | Ok (inr _) => q_sent q w' = q_sent q w ++ [m] ∧ q_recv q w' = q_recv q w
              | _ => q_log q w' = q_log q w
              end) w.
Proof.
  intros Hput Hquiet. apply wp_try, wp_bind.
  unfold wp at 1. destruct (Hput (millis 100) w) as [Hs Hr].
  destruct (put (millis 100) w) as [[[]|e|] w1]; simpl in *; [by split| |].
  2: { unfold q_log. by rewrite Hs, Hr, app_nil_r. }
  assert (q_log q w1 = q_log q w) as Hlog by (unfold q_log; by rewrite Hs, Hr, app_nil_r).
  destruct e; try (by apply wp_raise).
  apply wp_bind. unfold wp at 1.
  pose proof (note_stall_keeps (q_log q) stall_s s.1 s.2 lawful_now Hquiet w1) as Hk.
  pose proof (note_stall_hook stall_s s.1 s.2 w1) as Hh.
  destruct (note_stall stall_s s.1 s.2 w1) as [[s'|e|] w2]; simpl in *; try congruence.
  apply wp_bind. unfold wp at 1. pose proof (lawful_sleep (q:=q) (millis 10) w2) as Hsl.
  destruct (sleep (millis 10) w2) as [[[]|e|] w3]; simpl in *; try congruence.
  apply wp_ret. split; [congruence|].
  destruct (Hh s' w2 eq_refl) as [->| ->]; [by intros ? ?|done].
Qed.
End put_retry.

Section put_retry_spec.
Context {W : Type} `{Runtime W} {M : Type} (q : queue W M) `{!LawfulQueue q}.

Lemma put_retry_puts fuel m on_stall stall_s :
  quiet q on_stall →
  puts q m (_put_retry fuel q m on_stall stall_s).
Proof.
  intros Hquiet w.
  enough (wp (_put_retry fuel q m on_stall stall_s)
    (λ r w', q_sent q w' = q_sent q w ++ ok_list r [m] ∧ q_recv q w' = q_recv q w) w) by done.
  apply wp_bind. unfold wp at 1. destruct (putter_spec q m w) as [Hlog Hput].
  destruct (putter q m w) as [[put|e|] w0]; simpl in *;
    [|unfold q_log in *; simplify_eq/=; rewrite app_nil_r; by split..].
  specialize (Hput put). eapply (wp_loop (λ s w', q_log q w' = q_log q w ∧ quiet q s.2)).
  - done.
  - intros s w' [Hl _]. unfold q_log in *. simplify_eq/=. rewrite app_nil_r. by split.
  - intros s w' [Hl Hq]. eapply wp_mono; [apply (retry_turn_spec q put stall_s m); auto|].
    unfold q_log in *.
    intros [[s'|[]]|e|] w2; simpl; rewrite ?app_nil_r; intros; destruct_and?; simplify_eq/=; split; auto; congruence.
Qed.
End put_retry_spec.

(** *** The stall hook and termination *)

Section put_retry_more.
Context {W : Type} `{Runtime W} {M : Type} (q : queue W M).

(** [calls] counts the runs of the hook; nothing else changes it. *)
Context (calls : W → nat).
Context (now_calls : keeps calls now) (sleep_calls : ∀ d, keeps calls (sleep d)).

(** The hook is still to run and has not, or is spent after at most one run. *)
Definition at_most_once (hook : prog W unit) (c0 : nat) (o : option (prog W unit)) (w : W) : Prop :=
  (o = Some hook ∧ calls w = c0) ∨ (o = None ∧ (calls w ≤ S c0)%nat).

Lemma at_most_once_le hook c0 o w : at_most_once hook c0 o w → (calls w ≤ S c0)%nat.
Proof. intros [[_ ->]|[_ ?]]; lia. Qed.

Lemma at_most_once_eq hook c0 o w w' :
  calls w' = calls w → at_most_once hook c0 o w → at_most_once hook c0 o w'.
Proof. unfold at_most_once. by intros ->. Qed.

Hint Resolve at_most_once_le : core.

Context (hook : prog W unit) (hook_calls : ∀ w, calls (hook w).2 = S (calls w)).

Lemma note_stall_calls stall_s t0 o c0 w :
  at_most_once hook c0 o w →
  wp (note_stall stall_s t0 o)
     (λ r w', match r with
              | Ok s' => at_most_once hook c0 s'.2 w'
              | _ => calls w' ≤ S c0
              end)%nat w.
Proof.
  intros [[-> Hc]|[-> Hc]]; simpl; [|apply wp_ret; by right].
  destruct t0 as [t|]; (apply (wp_bind_keeps calls); [done|intros; split; simpl; intros; lia|]);
    intros n w1 Hn; [|apply wp_ret; left; simpl; split; [done|lia]].
  case_match; [|apply wp_ret; left; simpl; split; [done|lia]].
  apply wp_bind, wp_try. unfold wp at 1. pose proof (hook_calls w1) as Hh.
  destruct (hook w1) as [[[]|e|] w2]; simpl in *; [|destruct (is_exception e)|];
    unfold wp, at_most_once; simpl; naive_solver lia.
Qed.

Lemma retry_turn_calls put stall_s s c0 w :
  (∀ t, keeps calls (put t)) →
  at_most_once hook c0 s.2 w →
  wp (retry_turn put stall_s s)
     (λ r w', match r with
              | Ok (inl s') => at_most_once hook c0 s'.2 w'
              | _ => calls w' ≤ S c0
              end)%nat w.
Proof.
  intros Hput Hs. apply wp_try, (wp_bind_keeps calls); [done| |].
  2: { intros [] w1 Hp. apply wp_ret. rewrite Hp. eauto. }
  intros w1 Hp. split; [|rewrite Hp; eauto].
  intros e. destruct e; try (apply wp_raise; rewrite Hp; by eauto).
  apply wp_bind. eapply wp_mono; [by eapply note_stall_calls, at_most_once_eq|].
  intros [s'|e|] w2 Hr; [|done..].
  apply (wp_bind_keeps calls); [done|intros w3 ->; eauto|].
  intros [] w3 Hsl. apply wp_ret. by eapply at_most_once_eq.
Qed.

Lemma put_retry_calls fuel m stall_s w :
  (∀ put w, (putter q m w).1 = Ok put → ∀ t, keeps calls (put t)) →
  keeps calls (putter q m) →
  (calls (_put_retry fuel q m (Some hook) stall_s w).2 ≤ S (calls w))%nat.
Proof.
  intros Hput Henc.
  enough (wp (_put_retry fuel q m (Some hook) stall_s)
            (λ _ w', calls w' ≤ S (calls w))%nat w) by done.
  apply wp_bind. unfold wp at 1. specialize (Hput) with (w := w). specialize (Henc w).
  destruct (putter q m w) as [[put|e|] w0]; simpl in *; [|lia..].
  apply (wp_loop (λ s w', at_most_once hook (calls w) s.2 w')).
  - by left.
  - eauto.
  - intros s w1 Hs. eapply wp_mono; [by apply retry_turn_calls; auto|].
    by intros [[s'|[]]|e|] w2.
Qed.
End put_retry_more.

Section put_retry_live.
Context {W : Type} `{Runtime W} {M : Type} (q : queue W M).

(** [fulls w]: how many more attempts will find the queue full. *)
Context (fulls : W → nat).
Context (sleep_fulls : ∀ d, keeps fulls (sleep d)).
Context `{!TotalRuntime W}.

Lemma retry_turn_progress put stall_s s w :
  (∀ t w, (put t w).1 ≠ Spin) →
  (∀ t w w', put t w = (Raise Full, w') → fulls w' < fulls w)%nat →
  s.2 = None →
  (retry_turn put stall_s s w).1 ≠ Spin ∧
  ∀ s' w', retry_turn put stall_s s w = (Ok (inl s'), w') →
    s'.2 = None ∧ (fulls w' < fulls w)%nat.
Proof.
  destruct s as [t0 o]; intros Htot Hfull; simpl; intros ->.
  unfold retry_turn, try_except, bind, ret, raise; simpl.
  specialize (Htot (millis 100) w). specialize (Hfull (millis 100) w).
  destruct (put (millis 100) w) as [[[]|e|] w1]; simpl in *; try done.
  destruct e; try done.
  pose proof (sleep_total (millis 10) w1). specialize (sleep_fulls (millis 10) w1).
  destruct (sleep (millis 10) w1) as [[[]|e|] w2]; simpl in *; try done.
  split; [done|]. intros ? ? [= <- <-]. split; [done|]. rewrite sleep_fulls. by apply Hfull.
Qed.

Lemma put_retry_returns fuel m stall_s w :
  (∀ w, (putter q m w).1 ≠ Spin) →
  keeps fulls (putter q m) →
  (∀ put w, (putter q m w).1 = Ok put →
     ∀ t, (∀ w, (put t w).1 ≠ Spin) ∧
          (∀ w w', put t w = (Raise Full, w') → fulls w' < fulls w)%nat) →
  (fulls w < fuel)%nat →
  (_put_retry fuel q m None stall_s w).1 ≠ Spin.
Proof.
  intros Henc Hkeep Hput Hfuel. unfold _put_retry, bind.
  specialize (Henc w). specialize (Hkeep w). specialize (Hput) with (w := w).
  destruct (putter q m w) as [[put|e|] w0]; simpl in *; try done.
  apply (loop_terminates (λ s _, s.2 = None) (λ _ w, fulls w)); [|done|lia].
  intros s w1 Hs. apply retry_turn_progress; [..|done]; intros; by eapply Hput.
Qed.
End put_retry_live.

(** ** InstrumentedQueue *)

(** The counters [items_put], [items_got] and [total_transit]. *)
Record transit_stats := TransitStats {
  items_put : Z;
  items_got : Z;
  total_transit : Z;
}.

Section instrumented.
Context {W M : Type} `{Runtime W} (q : queue W (M * Z)).

Definition count_put : prog (W * transit_stats) unit :=
  let! s := get_obj in
  put_obj (TransitStats (items_put s + 1) (items_got s) (total_transit s)).

Definition count_got (transit : Z) : prog (W * transit_stats) unit :=
  let! s := get_obj in
  put_obj (TransitStats (items_put s) (items_got s) (total_transit s + transit)) ;!
  let! s := get_obj in
  put_obj (TransitStats (items_put s) (items_got s + 1) (total_transit s)).

(** [InstrumentedQueue.put] and [put_nowait]: the message travels with the
    time of the put. *)
Definition instr_put (put : M * Z → prog W unit) (m : M) : prog (W * transit_stats) unit :=
  let! t := lift now in
  lift (put (m, t)) ;!
  count_put.

(** [InstrumentedQueue.get] and [get_nowait]. *)
Definition instr_get (get : prog W (M * Z)) : prog (W * transit_stats) M :=
  let! (item, put_time) := lift get in
  let! t := lift now in
  count_got (t - put_time) ;!
  ret item.

(** The wrapper has no [encode] method: [putter] falls back to its [put]. *)
Definition InstrumentedQueue : queue (W * transit_stats) M := {|
  q_put t m := instr_put (q_put q t) m;
  q_put_nowait m := instr_put (q_put_nowait q) m;
  q_get t := instr_get (q_get q t);
  q_get_nowait := instr_get (q_get_nowait q);
  q_encode := None;
  q_sent s := (q_sent q s.1).*1;
  q_recv s := (q_recv q s.1).*1;
|}.

#[export] Instance instrumented_runtime : Runtime (W * transit_stats) := {|
  now := lift now;
  sleep d := lift (sleep d);
|}.
End instrumented.

(** ** A queue between one producer and one consumer in the same process *)

Module Fifo.
(** What was taken, what waits, the capacity (0: unbounded), the clock. *)
Record fifo (M : Type) := MkFifo {
  got : list M;
  items : list M;
  maxsize : Z;
  time : Z;
}.
Arguments MkFifo {_} _ _ _ _.
Arguments got {_} _.
Arguments items {_} _.
Arguments maxsize {_} _.
Arguments time {_} _.

Section ops.
Context {M : Type}.

Definition full (f : fifo M) : bool :=
  (0 <? maxsize f)%Z && (maxsize f <=? Z.of_nat (length (items f)))%Z.

(** Nobody else takes from the queue, so a full put times out, or waits
    for ever when it has no timeout. *)
Definition put (t : option Z) (m : M) : prog (fifo M) unit := λ f,
  if full f then (match t with Some _ => Raise Full | None => Spin end, f)
  else (Ok tt, MkFifo (got f) (items f ++ [m]) (maxsize f) (time f)).

Definition get (t : option Z) : prog (fifo M) M := λ f,
  match items f with
  | [] => (match t with Some _ => Raise Empty | None => Spin end, f)
  | m :: l => (Ok m, MkFifo (got f ++ [m]) l (maxsize f) (time f))
  end.

Definition as_queue : queue (fifo M) M := {|
  q_put := put;
  q_put_nowait := put (Some 0%Z);
  q_get := get;
  q_get_nowait := get (Some 0%Z);
  q_encode := None;
  q_sent f := got f ++ items f;
  q_recv := got;
|}.

#[global] Instance runtime : Runtime (fifo M) := {|
  now := λ f, (Ok (time f), f);
  sleep d := λ f, (Ok tt, MkFifo (got f) (items f) (maxsize f) (time f + d));
|}.

Lemma fifo_put_puts t m : puts as_queue m (put t m).
Proof.
  intros f. unfold put. destruct (full f); [destruct t|]; simpl;
    rewrite ?app_nil_r, ?app_assoc; done.
Qed.

Lemma get_gets t : gets as_queue (get t).
Proof.
  intros f. unfold get. destruct (items f) as [|m l] eqn:E; [destruct t|]; simpl;
    rewrite ?E, ?app_nil_r, <-?app_assoc; done.
Qed.

#[global] Instance lawful : LawfulQueue as_queue.
Proof. split; try done; intros; try apply fifo_put_puts; apply get_gets. Qed.
End ops.
End Fifo.

#[export] Instance fifo_total {M} : TotalRuntime (Fifo.fifo M).
Proof. split; eauto. Qed.

(** A queue whose reader is busy elsewhere: it answers [Full] a number of
    times, then takes everything; [hook_runs] counts the runs of the stall
    hook [run_hook]. *)
Module Busy.
Record busy (M : Type) := MkBusy {
  fulls : nat;
  taken : list M;
  time : Z;
  hook_runs : nat;
}.
Arguments MkBusy {_} _ _ _ _.
Arguments fulls {_} _.
Arguments taken {_} _.
Arguments time {_} _.
Arguments hook_runs {_} _.

Section ops.
Context {M : Type}.

Definition put (m : M) : prog (busy M) unit := λ b,
  match fulls b with
  | S n => (Raise Full, MkBusy n (taken b) (time b) (hook_runs b))
  | O => (Ok tt, MkBusy 0 (taken b ++ [m]) (time b) (hook_runs b))
  end.

Definition as_queue : queue (busy M) M := {|
  q_put _ := put;
  q_put_nowait := put;
  q_get _ := raise Empty;
  q_get_nowait := raise Empty;
  q_encode := None;
  q_sent := taken;
  q_recv _ := [];
|}.

Definition run_hook : prog (busy M) unit := λ b,
  (Ok tt, MkBusy (fulls b) (taken b) (time b) (S (hook_runs b))).

#[global] Instance runtime : Runtime (busy M) := {|
  now := λ b, (Ok (time b), b);
  sleep d := λ b, (Ok tt, MkBusy (fulls b) (taken b) (time b + d) (hook_runs b));
|}.

#[global] Instance total : TotalRuntime (busy M).
Proof. split; eauto. Qed.

Lemma busy_put_puts m : puts as_queue m (put m).
Proof. intros b. unfold put. destruct (fulls b); simpl; by rewrite ?app_nil_r. Qed.

#[global] Instance lawful : LawfulQueue as_queue.
Proof. split; try done; intros; try apply busy_put_puts; by intros b. Qed.
End ops.
End Busy.

Section instrumented_spec.
Context {W M : Type} `{Runtime W, !TotalRuntime W} (q : queue W (M * Z)) `{!LawfulQueue q}.

Lemma instr_put_puts put m :
  (∀ m, puts q m (put m)) → puts (InstrumentedQueue q) m (instr_put put m).
Proof.
  intros Hput [w s]. unfold instr_put, bind, lift; simpl.
  pose proof (lawful_now (q:=q) w) as Hn. unfold q_log in Hn.
  destruct (now w) as [[t|e|] w1]; simpl in *; simplify_eq/=; rewrite ?app_nil_r;
    [|by split; congruence..].
  destruct (Hput (m, t) w1) as [Hs Hr].
  destruct (put (m, t) w1) as [[[]|e|] w2]; simpl in *; rewrite Hs, Hr, ?app_nil_r, ?fmap_app; simpl;
    rewrite ?app_nil_r; split; congruence.
Qed.

Lemma instr_get_gets get : gets q get → gets (InstrumentedQueue q) (instr_get get).
Proof.
  intros Hget [w s]. unfold instr_get, bind, lift; simpl.
  destruct (Hget w) as [Hr Hs].
  destruct (get w) as [[[item put_time]|e|] w1]; simpl in *;
    [|by rewrite Hr, Hs, ?app_nil_r..].
  pose proof (lawful_now (q:=q) w1) as Hn. unfold q_log in Hn.
  destruct (now_total w1) as [t Ht]. destruct (now w1) as [r w2]; simplify_eq/=.
  split; [|congruence]. replace (q_recv q w2) with (q_recv q w1) by congruence.
  by rewrite Hr, fmap_app.
Qed.

#[export] Instance instrumented_lawful : LawfulQueue (InstrumentedQueue q).
Proof.
  split; intros; simpl in *; try done.
  - apply instr_put_puts, lawful_put.
  - apply instr_put_puts. intros. apply lawful_put_nowait.
  - apply instr_get_gets, lawful_get.
  - apply instr_get_gets, lawful_get_nowait.
  - intros [w s]. pose proof (lawful_now (q:=q) w) as Hn. unfold q_log, lift in *; simpl.
    destruct (now w); simpl in *. by injection Hn as -> ->.
  - intros [w s]. pose proof (lawful_sleep (q:=q) d w) as Hn. unfold q_log, lift in *; simpl.
    destruct (sleep d w); simpl in *. by injection Hn as -> ->.
Qed.
End instrumented_spec.


(** ** Properties *)

(** C17: a retried put delivers exactly one copy. However often the queue is
    full in between, [_put_retry] puts the message once when it returns, and
    not at all when it raises or is still waiting. *)
Theorem put_retry_exactly_once {W M} `{Runtime W} (q : queue W M) `{!LawfulQueue q}
    (fuel : nat) (m : M) (on_stall : option (prog W unit)) (stall_s : Z) (w : W) :
  quiet q on_stall →
  let '(r, w') := _put_retry fuel q m on_stall stall_s w in
  q_sent q w' = q_sent q w ++ ok_list r [m] ∧ q_recv q w' = q_recv q w.
Proof.
  intros Hquiet. pose proof (put_retry_puts q fuel m on_stall stall_s Hquiet w) as Hp.
  by destruct (_put_retry _ _ _ _ _ w).
Qed.

Lemma put_retry_exactly_once_witness :
  let w := Busy.MkBusy 3 [] 0 0 in
  (_put_retry 4 Busy.as_queue 7%Z None (seconds 2) w).1 = Ok tt ∧
  let '(r, w') := _put_retry 4 Busy.as_queue 7%Z None (seconds 2) w in
  q_sent Busy.as_queue w' = q_sent Busy.as_queue w ++ ok_list r [7%Z] ∧
  q_recv Busy.as_queue w' = q_recv Busy.as_queue w.
Proof.
  split; [vm_compute; reflexivity|].
  exact (put_retry_exactly_once Busy.as_queue 4 7%Z None (seconds 2)
           (Busy.MkBusy 3 [] 0 0) (λ hook, ltac:(done))).
Defined.

(** The stall hook fires at most once per put. Whatever the hook does to
    the rest of the world, a put with [on_stall=hook] runs it at most once, if
    putting, reading the clock and sleeping do not run it. *)
Theorem put_retry_hook_once {W M} `{Runtime W} (q : queue W M) (hook : prog W unit)
    (calls : W → nat) (fuel : nat) (m : M) (stall_s : Z) (w : W) :
  (∀ w, calls (hook w).2 = S (calls w)) →
  keeps calls now → (∀ d, keeps calls (sleep d)) → keeps calls (putter q m) →
  (∀ put w, (putter q m w).1 = Ok put → ∀ t, keeps calls (put t)) →
  (calls (_put_retry fuel q m (Some hook) stall_s w).2 ≤ S (calls w))%nat.
Proof. intros. by apply put_retry_calls. Qed.

Lemma put_retry_hook_once_witness :
  let w := Busy.MkBusy 8 [] 0 0 in
  Busy.hook_runs
    (_put_retry 9 Busy.as_queue 7%Z (Some Busy.run_hook) (millis 25) w).2 = 1%nat ∧
  (Busy.hook_runs
    (_put_retry 9 Busy.as_queue 7%Z (Some Busy.run_hook) (millis 25) w).2
    ≤ S (Busy.hook_runs w))%nat.
Proof.
  split; [vm_compute; reflexivity|].
  refine (put_retry_hook_once Busy.as_queue Busy.run_hook Busy.hook_runs 9 7%Z (millis 25)
           (Busy.MkBusy 8 [] 0 0) _ _ _ _ _); try done.
  intros put w [= <-] t b. simpl. unfold Busy.put. by destruct (Busy.fulls b).
Defined.

(** A retried put returns once there is room. If the queue answers [Full]
    only [fulls w] more times, [_put_retry] ends within that many turns plus
    one. *)
Theorem put_retry_terminates {W M} `{Runtime W, !TotalRuntime W} (q : queue W M)
    (fulls : W → nat) (fuel : nat) (m : M) (stall_s : Z) (w : W) :
  (∀ d, keeps fulls (sleep d)) → keeps fulls (putter q m) →
  (∀ w, (putter q m w).1 ≠ Spin) →
  (∀ put w, (putter q m w).1 = Ok put →
     ∀ t, (∀ w, (put t w).1 ≠ Spin) ∧
          (∀ w w', put t w = (Raise Full, w') → fulls w' < fulls w)%nat) →
  (fulls w < fuel)%nat →
  (_put_retry fuel q m None stall_s w).1 ≠ Spin.
Proof. intros. by apply (put_retry_returns q fulls). Qed.

Lemma put_retry_terminates_witness :
  (_put_retry 4 Busy.as_queue 7%Z None (seconds 2) (Busy.MkBusy 3 [] 0 0)).1 ≠ Spin.
Proof.
  apply (put_retry_terminates Busy.as_queue Busy.fulls); simpl; [done|done|done| |lia].
  intros put w [= <-] t. unfold Busy.put.
  split; [intros b; by destruct (Busy.fulls b)|].
  intros b b'. destruct (Busy.fulls b) eqn:E; intros [= <-]. simpl. lia.
Defined.

(** [InstrumentedQueue] keeps the order and the messages of the queue it
    wraps, and counts: a put that returns adds one to [items_put] and nothing
    else, one that raises changes no counter, and a get that returns adds one
    to [items_got] and the message's time in the queue to [total_transit]. *)
Theorem instrumented_counts {W M} `{Runtime W, !TotalRuntime W} (q : queue W (M * Z))
    `{!LawfulQueue q} (t : option Z) (m : M) (w : W) (s : transit_stats) :
  (let '(r, (w', s')) := q_put (InstrumentedQueue q) t m (w, s) in
   (q_sent q w').*1 = (q_sent q w).*1 ++ ok_list r [m] ∧
   s' = match r with
        | Ok _ => TransitStats (items_put s + 1) (items_got s) (total_transit s)
        | _ => s
        end) ∧
  (let '(r, (w', s')) := q_get (InstrumentedQueue q) t (w, s) in
   (q_recv q w').*1 = (q_recv q w).*1 ++ got_list r ∧
   match r with
   | Ok item => ∃ put_time n, q_recv q w' = q_recv q w ++ [(item, put_time)] ∧
       s' = TransitStats (items_put s) (items_got s + 1) (total_transit s + (n - put_time))
   | _ => s' = s
   end).
Proof.
  split.
  - destruct (lawful_put (q:=InstrumentedQueue q) t m (w, s)) as [Hs _]. simpl in *.
    revert Hs. unfold instr_put, bind, lift. destruct (now w) as [[n|e|] w1]; simpl; [|done..].
    by destruct (q_put q t (m, n) w1) as [[[]|e|] w2].
  - destruct (lawful_get (q:=InstrumentedQueue q) t (w, s)) as [Hs _]. simpl in *.
    destruct (lawful_get (q:=q) t w) as [Hr _].
    revert Hs Hr. unfold instr_get, bind, lift.
    destruct (q_get q t w) as [[[item pt]|e|] w1]; simpl; [|done..].
    pose proof (lawful_now (q:=q) w1) as Hn. unfold q_log in Hn.
    destruct (now_total w1) as [n Hn1]. destruct (now w1) as [r w2]; simplify_eq/=.
    intros Hs Hr. split; [done|]. exists pt, n. split; [congruence|done].
Qed.

Lemma instrumented_counts_witness :
  let w := Fifo.MkFifo [] [(5, 10)%Z] 2 30 in
  let s := TransitStats 1 0 7 in
  (q_get (InstrumentedQueue Fifo.as_queue) None (w, s)).2.2 = TransitStats 1 1 27 ∧
  (let '(r, (w', s')) := q_put (InstrumentedQueue Fifo.as_queue) None 6%Z (w, s) in
   (q_sent Fifo.as_queue w').*1 = (q_sent Fifo.as_queue w).*1 ++ ok_list r [6%Z] ∧
   s' = match r with
        | Ok _ => TransitStats (items_put s + 1) (items_got s) (total_transit s)
        | _ => s
        end) ∧
  (let '(r, (w', s')) := q_get (InstrumentedQueue Fifo.as_queue) None (w, s) in
   (q_recv Fifo.as_queue w').*1 = (q_recv Fifo.as_queue w).*1 ++ got_list r ∧
   match r with
   | Ok item => ∃ put_time n, q_recv Fifo.as_queue w' = q_recv Fifo.as_queue w ++ [(item, put_time)] ∧
       s' = TransitStats (items_put s) (items_got s + 1) (total_transit s + (n - put_time))
   | _ => s' = s
   end).
Proof.
  intros w s. split; [reflexivity|].
  exact (instrumented_counts Fifo.as_queue None 6%Z w s).
Defined.
