(* ===== verification/Channels.v ===== *)
(** * Channels (queues.py)

    The chunking [_OutputChannel], the unpacking [_InputChannel] and the
    consumer-side [PipeIterator]: what they put and deliver, and the round
    trip through a queue. *)
From S2P Require Import Prelude Types Queues.

(** ** _OutputChannel *)

(** The mutable fields of an output channel. *)
Record out_chan := OutChan {
  oc_pending : list py;
  oc_oldest : Z;
}.

Definition new_out_chan : out_chan := OutChan [] 0.

Section output_channel.
Context {W : Type} `{Runtime W}.
(** The constructor arguments [queue], [chunk_size], [chunk_ms], [on_stall],
    and the fuel for the blocking put. *)
Context (q : queue W msg) (chunk_size chunk_ms : Z) (on_stall : option (prog W unit)).
Context (fuel : nat).

Definition chunk_s : Z := millis chunk_ms.

Definition oc_blocking_put (m : msg) : prog (W * out_chan) unit :=
  lift (_put_retry fuel q m on_stall (seconds 2)).

(** [_OutputChannel.flush]. *)
Definition oc_flush : prog (W * out_chan) unit :=
  let! ch := get_obj in
  match oc_pending ch with
  | [] => ret tt
  | pending =>
      put_obj (OutChan [] (oc_oldest ch)) ;!
      oc_blocking_put (Chunk pending)
  end.

(** [_OutputChannel.maybe_flush]. *)
Definition oc_maybe_flush : prog (W * out_chan) unit :=
  let! ch := get_obj in
  match oc_pending ch with
  | [] => ret tt
  | _ =>
      let! n := lift now in
      if (chunk_s <=? n - oc_oldest ch)%Z then oc_flush else ret tt
  end.

(** [_OutputChannel.send]. *)
Definition oc_send (payload : py) : prog (W * out_chan) unit :=
  if (chunk_size <=? 0)%Z then oc_blocking_put (Bare payload)
  else
    let! ch := get_obj in
    (match oc_pending ch with
     | [] => let! n := lift now in put_obj (OutChan [] n)
     | _ => ret tt
     end) ;!
    let! ch := get_obj in
    put_obj (OutChan (oc_pending ch ++ [payload]) (oc_oldest ch)) ;!
    let! ch := get_obj in
    if (chunk_size <=? Z.of_nat (length (oc_pending ch)))%Z then oc_flush
    else
      let! n := lift now in
      if (chunk_s <=? n - oc_oldest ch)%Z then oc_flush else ret tt.
End output_channel.

(** ** _InputChannel *)

(** [self._buf]: a [deque] at first, a plain [list] once [requeue_buffered]
    has rebound it. *)
Inductive in_buf :=
  | Deque (l : list py)
  | PlainList (l : list py).

Definition buf_items (b : in_buf) : list py :=
  match b with Deque l | PlainList l => l end.

(** [_buf.extend(items)]. *)
Definition buf_extend (b : in_buf) (items : list py) : in_buf :=
  match b with
  | Deque l => Deque (l ++ items)
  | PlainList l => PlainList (l ++ items)
  end.

(** [_buf.popleft()]: lists have no such method. *)
Definition buf_popleft {W} : prog (W * in_buf) py :=
  let! b := get_obj in
  match b with
  | PlainList _ => raise AttributeError
  | Deque [] => raise IndexError
  | Deque (x :: l) => put_obj (Deque l) ;! ret x
  end.

Definition new_in_buf : in_buf := Deque [].

Section input_channel.
Context {W : Type} `{Runtime W}.
Context (q : queue W msg) (fuel : nat).

Definition ic_receive (recv : prog W msg) : prog (W * in_buf) py :=
  let! b := get_obj in
  match buf_items b with
  | _ :: _ => buf_popleft
  | [] =>
      let! m := lift recv in
      match m with
      | Chunk items => put_obj (buf_extend b items) ;! buf_popleft
      | Bare v => ret v
      end
  end.

(** [_InputChannel.get], [get_nowait], [buffered], [put]. *)
Definition ic_get (timeout : option Z) : prog (W * in_buf) py := ic_receive (q_get q timeout).
Definition ic_get_nowait : prog (W * in_buf) py := ic_receive (q_get_nowait q).
Definition ic_buffered (b : in_buf) : nat := length (buf_items b).
Definition ic_put (v : py) : prog (W * in_buf) unit := lift (q_put q None (Bare v)).

(** [_InputChannel.requeue_buffered]. *)
Definition ic_requeue_buffered : prog (W * in_buf) unit :=
  let! b := get_obj in
  match buf_items b with
  | [] => ret tt
  | pending =>
      put_obj (PlainList []) ;!
      lift (_put_retry fuel q (Chunk pending) None (seconds 2))
  end.

(** [PipeIterator.__next__]. *)
Definition iter_next : prog (W * in_buf) py :=
  loop fuel (λ _ : unit,
    try_except
      (let! item := ic_get (Some (seconds 1)) in
       if _is_end item then raise StopIteration else ret (inr item))
      (λ e, match e with Empty => ret (inl tt) | e => raise e end)) tt.
End input_channel.

(** ** Output channel: nothing lost, nothing reordered *)

Section output_channel_spec.
Context {W : Type} `{Runtime W} (q : queue W msg) `{!LawfulQueue q}.
Context (chunk_size chunk_ms : Z) (on_stall : option (prog W unit)) (fuel : nat).
Context (Hquiet : quiet q on_stall).

(** A message this channel may put: chunks hold between 1 and [chunk_size]
    items. *)
Definition chunk_ok (m : msg) : Prop :=
  match m with
  | Bare _ => True
  | Chunk l => (0 < length l)%nat ∧ (Z.of_nat (length l) ≤ chunk_size)%Z
  end.

(** Between calls fewer than [chunk_size] items are pending, and none when
    chunking is off. *)
Definition oc_bounded (ch : out_chan) : Prop :=
  (Z.of_nat (length (oc_pending ch)) ≤ Z.max 0 (chunk_size - 1))%Z.

(** [c] put the messages [ms] and took nothing. *)
Definition put_msgs (w w' : W) (ms : list msg) : Prop :=
  q_sent q w' = q_sent q w ++ ms ∧ q_recv q w' = q_recv q w.

Lemma put_msgs_nil w w' : q_log q w' = q_log q w → put_msgs w w' [].
Proof. unfold q_log, put_msgs. intros. simplify_eq/=. by rewrite app_nil_r. Qed.

Lemma put_msgs_trans w1 w2 w3 ms ms' :
  put_msgs w1 w2 ms → put_msgs w2 w3 ms' → put_msgs w1 w3 (ms ++ ms').
Proof. unfold put_msgs. intros [-> ->] [-> ->]. by rewrite app_assoc. Qed.

(** Reading the clock inside a channel method. *)
Lemma wp_now_lift {X} (k : Z → prog (W * out_chan) X) (Q : res X → W * out_chan → Prop) w ch :
  (∀ w' n, q_log q w' = q_log q w → wp (k n) Q (w', ch)) →
  (∀ w', q_log q w' = q_log q w → (∀ e, Q (Raise e) (w', ch)) ∧ Q Spin (w', ch)) →
  wp (let! n := lift now in k n) Q (w, ch).
Proof.
  intros Hk Hfail. apply wp_bind, wp_lift, (wp_keeps (q_log q)); [apply lawful_now|].
  intros [n|e|] w' Hw; [by apply Hk|by apply Hfail..].
Qed.

Lemma oc_blocking_put_spec m w ch :
  wp (oc_blocking_put q on_stall fuel m)
     (λ r s, put_msgs w s.1 (ok_list r [m]) ∧ s.2 = ch) (w, ch).
Proof.
  apply wp_lift. unfold wp. simpl.
  by destruct (put_retry_puts q fuel m on_stall (seconds 2) Hquiet w).
Qed.

Lemma oc_flush_spec w ch :
  wp (oc_flush q on_stall fuel)
     (λ r s, oc_pending s.2 = [] ∧
        put_msgs w s.1 (ok_list r match oc_pending ch with [] => [] | l => [Chunk l] end))
     (w, ch).
Proof.
  apply wp_bind, wp_get_obj. destruct (oc_pending ch) as [|x l] eqn:E.
  - apply wp_ret. split; [done|]. by apply put_msgs_nil.
  - apply wp_bind, wp_put_obj. eapply wp_mono; [apply oc_blocking_put_spec|].
    by intros r [w' ch'] [? ->].
Qed.

(** What a channel method leaves: the messages put are well formed and, when
    it returns, carry [items], less what is pending now. *)
Definition sends (w : W) (items : list py) (r : res unit) (s : W * out_chan) : Prop :=
  oc_bounded s.2 ∧
  ∃ ms, put_msgs w s.1 ms ∧ Forall chunk_ok ms ∧
    match r with Ok _ => carried ms ++ oc_pending s.2 = items | _ => ms = [] end.

Lemma oc_bounded_nil ch : oc_pending ch = [] → oc_bounded ch.
Proof. unfold oc_bounded. intros ->. simpl. lia. Qed.
Hint Resolve oc_bounded_nil put_msgs_nil : core.

(** Nothing put yet, the items still pending or lost to an exception. *)
Lemma sends_nothing w w' ch r :
  q_log q w' = q_log q w → oc_bounded ch → sends w (oc_pending ch) r (w', ch).
Proof. intros Hw Hb. split; [done|]. exists []. split_and!; auto. by destruct r. Qed.

Lemma sends_eq w w' items r s :
  q_log q w' = q_log q w → sends w' items r s → sends w items r s.
Proof.
  intros Hl (Hb & ms & Hms & Hrest). split; [done|]. exists ms. split; [|exact Hrest].
  unfold put_msgs, q_log in *. destruct Hms as [-> ->]. by injection Hl as -> ->.
Qed.

Lemma oc_flush_sends w w' ch :
  q_log q w' = q_log q w →
  oc_pending ch = [] ∨ chunk_ok (Chunk (oc_pending ch)) →
  wp (oc_flush q on_stall fuel)
     (λ r s, sends w (oc_pending ch) r s ∧ oc_pending s.2 = []) (w', ch).
Proof.
  intros Hw Hok. eapply wp_mono; [apply oc_flush_spec|].
  intros r [w2 ch'] [Hp Hput]; simpl in *. split; [|done]. apply (sends_eq w w'); [done|].
  split; [by apply oc_bounded_nil|].
  eexists. split; [done|]. simpl. rewrite Hp, app_nil_r.
  destruct (oc_pending ch) as [|x l]; [destruct r; by split_and!|].
  destruct Hok as [?|Hok]; [done|].
  destruct r; simpl; rewrite ?app_nil_r; split; auto using Forall_nil_2, Forall_cons_2.
Qed.

(** [send] once the payload is on the pending list: flush, or not. *)
Lemma oc_appended_sends w w' ch (t : Z) :
  q_log q w' = q_log q w → chunk_ok (Chunk (oc_pending ch)) →
  wp (if (chunk_size <=? Z.of_nat (length (oc_pending ch)))%Z then oc_flush q on_stall fuel
      else let! n := lift now in
           if (t <=? n - oc_oldest ch)%Z then oc_flush q on_stall fuel else ret tt)
     (sends w (oc_pending ch)) (w', ch).
Proof.
  intros Hw Hok.
  assert (∀ w2, q_log q w2 = q_log q w →
    wp (oc_flush q on_stall fuel) (sends w (oc_pending ch)) (w2, ch)) as Hflush.
  { intros w2 Hw2. eapply wp_mono; [by apply (oc_flush_sends w); auto|]. by intros ? ? []. }
  case_match eqn:Hsz; boolify; [by apply Hflush|].
  assert (oc_bounded ch) as Hb by (unfold oc_bounded; lia).
  apply wp_now_lift.
  - intros w2 n Hw2. case_match; [apply Hflush; congruence|].
    apply wp_ret, sends_nothing; [congruence|done].
  - intros w2 Hw2. split; intros; apply sends_nothing; auto; congruence.
Qed.

Lemma oc_send_sends v w ch :
  oc_bounded ch →
  wp (oc_send q chunk_size chunk_ms on_stall fuel v)
     (sends w (oc_pending ch ++ [v])) (w, ch).
Proof.
  unfold oc_bounded. intros Hb. unfold oc_send. case_match eqn:Hsz; boolify.
  - assert (oc_pending ch = []) as Hnil by (apply nil_length_inv; lia).
    eapply wp_mono; [apply oc_blocking_put_spec|].
    intros r [w' ch'] [Hput ?]. simpl in *. subst ch'.
    split; [by apply oc_bounded_nil|]. eexists. split; [done|]. simpl. rewrite Hnil, app_nil_r.
    destruct r; simpl; repeat constructor.
  - apply wp_bind, wp_get_obj.
    assert (∀ w1 old, q_log q w1 = q_log q w →
      wp (let! ch := get_obj in
          put_obj (OutChan (oc_pending ch ++ [v]) (oc_oldest ch)) ;!
          let! ch := get_obj in
          if (chunk_size <=? Z.of_nat (length (oc_pending ch)))%Z then oc_flush q on_stall fuel
          else let! n := lift now in
               if (chunk_s chunk_ms <=? n - oc_oldest ch)%Z then oc_flush q on_stall fuel
               else ret tt)
         (sends w (oc_pending ch ++ [v])) (w1, OutChan (oc_pending ch) old)) as Hrest.
    { intros w1 old Hw1. apply wp_bind, wp_get_obj, wp_bind, wp_put_obj, wp_bind, wp_get_obj.
      simpl. apply (oc_appended_sends w w1 (OutChan (oc_pending ch ++ [v]) old)); [done|].
      simpl. rewrite length_app. simpl. lia. }
    apply wp_bind. destruct ch as [[|x l] old]; simpl in *; [|by apply wp_ret, Hrest].
    apply wp_now_lift.
    + intros w1 n Hw1. by apply wp_put_obj, Hrest.
    + intros w1 Hw1. split; intros; (split; [by apply oc_bounded_nil|]; exists []; auto).
Qed.

(** Sending a list of payloads, then the flush before the [End]. *)
Lemma oc_send_all_sends xs w ch :
  oc_bounded ch →
  wp (for_each xs (oc_send q chunk_size chunk_ms on_stall fuel) ;!
      oc_flush q on_stall fuel)
     (λ r s, ∃ ms, put_msgs w s.1 ms ∧ Forall chunk_ok ms ∧
        carried ms `prefix_of` oc_pending ch ++ xs ∧
        (r = Ok tt → carried ms = oc_pending ch ++ xs ∧ oc_pending s.2 = [])) (w, ch).
Proof.
  intros Hb. apply wp_bind.
  apply (wp_for_each (λ todo s, ∃ ms, put_msgs w s.1 ms ∧ Forall chunk_ok ms ∧
    oc_bounded s.2 ∧ carried ms ++ oc_pending s.2 ++ todo = oc_pending ch ++ xs)).
  - exists []. split_and!; auto.
  - intros [w1 ch1] (ms & Hms & Hok & Hb1 & <-); simpl in *. rewrite app_nil_r.
    eapply wp_mono; [apply (oc_flush_sends w1); [done|]|].
    { unfold oc_bounded in Hb1. destruct (oc_pending ch1) eqn:E; [by left|right].
      simpl in *. lia. }
    intros r [w2 ch2] [(_ & ms' & Hms' & Hok' & Hr) Hnil]; simpl in *.
    exists (ms ++ ms'). rewrite carried_app, Hnil, app_nil_r in *.
    split_and!; [by eapply put_msgs_trans|by apply Forall_app| |by intros ->; rewrite Hr].
    apply prefix_app. destruct r; [by rewrite Hr|subst ms'; apply prefix_nil..].
  - intros x todo [w1 ch1] (ms & Hms & Hok & Hb1 & Heq); simpl in *.
    eapply wp_mono; [by apply oc_send_sends|].
    intros r [w2 ch2] (Hb2 & ms' & Hms' & Hok' & Hr); simpl in *.
    assert (put_msgs w w2 (ms ++ ms')) by (by eapply put_msgs_trans).
    assert (Forall chunk_ok (ms ++ ms')) by (by apply Forall_app).
    destruct r; exists (ms ++ ms'); split_and!; try done; rewrite carried_app, <-Heq.
    + rewrite <-app_assoc. f_equal. rewrite app_assoc, Hr, <-app_assoc. done.
    + subst ms'. rewrite app_nil_r. by apply prefix_app_r.
    + subst ms'. rewrite app_nil_r. by apply prefix_app_r.
Qed.
End output_channel_spec.

(** ** Input channel: items come out in order, one at a time *)

Section input_channel_spec.
Context {W : Type} `{Runtime W} (q : queue W msg) `{!LawfulQueue q}.

Lemma ic_receive_spec recv w l :
  gets q recv →
  wp (ic_receive recv)
     (λ r s, q_sent q s.1 = q_sent q w ∧
        ∃ ms l', q_recv q s.1 = q_recv q w ++ ms ∧ s.2 = Deque l' ∧
          match r with
          | Ok v => v :: l' = l ++ carried ms
          | _ => l = [] ∧ l' = [] ∧ carried ms = []
          end) (w, Deque l).
Proof.
  intros Hrecv. apply wp_bind, wp_get_obj. simpl. destruct l as [|x l].
  2: { unfold wp; simpl. split; [done|]. exists [], l. by rewrite !app_nil_r. }
  apply wp_bind, wp_lift. unfold wp at 1. destruct (Hrecv w) as [Hr Hs].
  destruct (recv w) as [[[v|items]|e|] w1]; simpl in *.
  - apply wp_ret. split; [done|]. by exists [Bare v], [].
  - apply wp_bind, wp_put_obj. destruct items as [|v items].
    + unfold wp; simpl. split; [done|]. by exists [Chunk []], [].
    + unfold wp; simpl. split; [done|]. exists [Chunk (v :: items)], items.
      simpl. by rewrite app_nil_r.
  - split; [done|]. by exists [], [].
  - split; [done|]. by exists [], [].
Qed.

(** [n] successive [get] calls. *)
Fixpoint ic_gets (n : nat) (timeout : option Z) : prog (W * in_buf) (list py) :=
  match n with
  | O => ret []
  | S n =>
      let! v := ic_get q timeout in
      let! vs := ic_gets n timeout in
      ret (v :: vs)
  end.

Lemma ic_gets_spec n timeout w l :
  wp (ic_gets n timeout)
     (λ r s, q_sent q s.1 = q_sent q w ∧
        ∃ ms l', q_recv q s.1 = q_recv q w ++ ms ∧ s.2 = Deque l' ∧
          (∀ vs, r = Ok vs → vs ++ l' = l ++ carried ms)) (w, Deque l).
Proof.
  revert w l. induction n as [|n IH]; intros w l; simpl.
  - apply wp_ret. split; [done|]. exists [], l. rewrite !app_nil_r. naive_solver.
  - apply wp_bind. eapply wp_mono; [apply ic_receive_spec, lawful_get|].
    intros [v|e|] [w1 b1] (Hs & ms & l1 & Hr & Hb & Hv); simpl in *; subst b1;
      [|split; [done|]; exists ms, l1; naive_solver..].
    apply wp_bind. eapply wp_mono; [apply IH|].
    intros [vs|e|] [w2 b2] (Hs2 & ms2 & l2 & Hr2 & Hb2 & Hvs); simpl in *; subst b2;
      [apply wp_ret|..]; simpl; (split; [congruence|]; exists (ms ++ ms2), l2;
      rewrite Hr2, Hr, app_assoc; split_and!; [done..|]); intros ? [=].
    subst. rewrite carried_app, app_assoc, <-Hv. simpl. by rewrite Hvs.
Qed.
End input_channel_spec.

(** ** A channel into a queue and out of it again *)

Section roundtrip.
Context (chunk_size chunk_ms : Z) (fuel : nat).
Local Abbreviation sends_all xs :=
  (for_each xs (oc_send Fifo.as_queue chunk_size chunk_ms None fuel) ;!
   oc_flush Fifo.as_queue None fuel).

(** On an unbounded queue every channel method succeeds at once. *)
Definition accepts {X} (c : prog (Fifo.fifo msg * out_chan) X) : Prop :=
  ∀ f ch, Fifo.maxsize f = 0%Z →
    ∃ x, (c (f, ch)).1 = Ok x ∧ Fifo.maxsize (c (f, ch)).2.1 = 0%Z.

Lemma accepts_bind {X Y} (c : prog _ X) (k : X → prog _ Y) :
  accepts c → (∀ x, accepts (k x)) → accepts (bind c k).
Proof.
  intros Hc Hk f ch Hf. unfold bind. destruct (Hc f ch Hf) as (x & Hx & Hf').
  destruct (c (f, ch)) as [r [f' ch']]; simplify_eq/=. by apply Hk.
Qed.

Lemma accepts_ret {X} (x : X) : accepts (ret x).
Proof. intros f ch Hf. by exists x. Qed.
Lemma accepts_get : accepts get_obj.
Proof. intros f ch Hf. by exists ch. Qed.
Lemma accepts_put ch : accepts (put_obj ch).
Proof. intros f ch' Hf. by exists tt. Qed.
Lemma accepts_now : accepts (lift now).
Proof. intros f ch Hf. by exists (Fifo.time f). Qed.
Hint Resolve accepts_bind accepts_ret accepts_get accepts_put accepts_now : core.

Context (Hfuel : (0 < fuel)%nat).

Lemma accepts_blocking_put m : accepts (oc_blocking_put Fifo.as_queue None fuel m).
Proof using Hfuel.
  intros f ch Hf. destruct fuel as [|n]; [lia|]. exists tt.
  unfold oc_blocking_put, lift, _put_retry, putter, loop, retry_turn, try_except, bind, ret; simpl.
  unfold Fifo.put, Fifo.full. by rewrite Hf.
Qed.
Hint Resolve accepts_blocking_put : core.

Lemma accepts_flush : accepts (oc_flush Fifo.as_queue None fuel).
Proof using Hfuel. apply accepts_bind; [done|]. intros ch. destruct (oc_pending ch); auto. Qed.
Hint Resolve accepts_flush : core.

Lemma accepts_send v : accepts (oc_send Fifo.as_queue chunk_size chunk_ms None fuel v).
Proof using Hfuel.
  unfold oc_send. case_match; [done|].
  repeat first [case_match | apply accepts_bind; [|intros ?]]; auto.
Qed.

Lemma accepts_sends_all xs : accepts (sends_all xs).
Proof using Hfuel.
  apply accepts_bind; [|done]. induction xs; simpl; auto using accepts_send.
Qed.
End roundtrip.

Lemma nonempty_of_chunk_ok chunk_size ms :
  Forall (chunk_ok chunk_size) ms → Forall (λ m, nonempty_msg m = true) ms.
Proof. intros Hok. eapply Forall_impl; [done|]. intros [v|[|x l]]; simpl; auto. intros [? _]. lia. Qed.

Lemma fifo_gets ms : Forall (λ m, nonempty_msg m = true) ms →
  ∀ taken cap t l n, n = length (l ++ carried ms) →
  ic_gets Fifo.as_queue n (Some (seconds 1)) (Fifo.MkFifo taken ms cap t, Deque l) =
  (Ok (l ++ carried ms), (Fifo.MkFifo (taken ++ ms) [] cap t, Deque [])).
Proof.
  intros Hne taken cap t l n. revert ms taken l Hne.
  induction n as [|n IH]; intros ms taken l Hne Hn.
  - destruct l; [|done]. destruct Hne as [|m ms Hm Hne]; simpl; [by rewrite app_nil_r|].
    by destruct m as [v|[|v items]].
  - destruct l as [|x l].
    + destruct Hne as [|m ms Hm Hne]; [done|]. simpl.
      destruct m as [v|[|v items]]; [| done |];
        unfold ic_get, ic_receive, bind, lift, get_obj, put_obj, ret; simpl;
        rewrite IH; rewrite ?app_nil_r, <-?app_assoc; auto.
    + simpl. unfold ic_get at 1, ic_receive, bind, lift, get_obj, put_obj, ret; simpl.
      rewrite IH; auto.
Qed.

(** ** Properties *)

(** a channel loses, duplicates and reorders nothing. Sending the payloads
    [xs] through a fresh [_OutputChannel] and flushing it puts messages whose
    chunks hold between 1 and [chunk_size] items each; together they carry
    exactly [xs] in order when the calls return, and a prefix of [xs] when a
    put raised. *)
Theorem output_channel_lossless {W} `{Runtime W} (q : queue W msg) `{!LawfulQueue q}
    (chunk_size chunk_ms : Z) (on_stall : option (prog W unit)) (fuel : nat)
    (Hquiet : quiet q on_stall) (xs : list py) (w : W) :
  let '(r, (w', ch')) :=
    (for_each xs (oc_send q chunk_size chunk_ms on_stall fuel) ;!
     oc_flush q on_stall fuel) (w, new_out_chan) in
  ∃ ms, q_sent q w' = q_sent q w ++ ms ∧ q_recv q w' = q_recv q w ∧
    Forall (chunk_ok chunk_size) ms ∧ carried ms `prefix_of` xs ∧
    (r = Ok tt → carried ms = xs ∧ oc_pending ch' = []).
Proof.
  pose proof (oc_send_all_sends q chunk_size chunk_ms on_stall fuel Hquiet xs w new_out_chan) as Hs.
  unfold wp in Hs. destruct (bind _ _ _) as [r [w' ch']].
  destruct Hs as (ms & [Hsent Hrecv] & Hok & Hpre & Hr); [by apply oc_bounded_nil|].
  by exists ms.
Qed.

Lemma output_channel_lossless_witness :
  let '(r, (w', ch')) :=
    (for_each [PyNum 1; PyNum 2; PyNum 3] (oc_send Fifo.as_queue 2 10 None 1) ;!
     oc_flush Fifo.as_queue None 1) (Fifo.MkFifo [] [] 0 0, new_out_chan) in
  r = Ok tt ∧ Fifo.items w' = [Chunk [PyNum 1; PyNum 2]; Chunk [PyNum 3]] ∧
  ∃ ms, q_sent Fifo.as_queue w' = [] ++ ms ∧ q_recv Fifo.as_queue w' = [] ∧
    Forall (chunk_ok 2) ms ∧ carried ms `prefix_of` [PyNum 1; PyNum 2; PyNum 3] ∧
    (r = Ok tt → carried ms = [PyNum 1; PyNum 2; PyNum 3] ∧ oc_pending ch' = []).
Proof.
  split; [reflexivity|]. split; [reflexivity|].
  apply (output_channel_lossless Fifo.as_queue 2 10 None 1 (λ hook, ltac:(done))
           [PyNum 1; PyNum 2; PyNum 3] (Fifo.MkFifo [] [] 0 0)).
Defined.

(** C16: end to end. Payloads sent through an [_OutputChannel], whatever its
    chunk size and flush interval, come out of an [_InputChannel] on the same
    queue one by one, all of them, in the order sent, and leave the queue and
    the buffer empty. *)
Theorem channel_roundtrip (chunk_size chunk_ms : Z) (fuel : nat) (xs : list py) (t : Z) :
  (0 < fuel)%nat →
  let '(r, (f, ch)) :=
    (for_each xs (oc_send Fifo.as_queue chunk_size chunk_ms None fuel) ;!
     oc_flush Fifo.as_queue None fuel) (Fifo.MkFifo [] [] 0 t, new_out_chan) in
  r = Ok tt ∧
  ∃ f', ic_gets Fifo.as_queue (length xs) (Some (seconds 1)) (f, new_in_buf) =
          (Ok xs, (f', Deque [])) ∧ Fifo.items f' = [].
Proof.
  intros Hfuel.
  destruct (accepts_sends_all chunk_size chunk_ms fuel Hfuel xs
              (Fifo.MkFifo [] [] 0 t) new_out_chan eq_refl) as ([] & Hr & Hcap).
  pose proof (oc_send_all_sends Fifo.as_queue chunk_size chunk_ms None fuel
                (λ hook, ltac:(done)) xs (Fifo.MkFifo [] [] 0 t) new_out_chan
                (oc_bounded_nil chunk_size new_out_chan eq_refl)) as Hl. unfold wp in Hl.
  destruct (bind _ _ _) as [r [f ch]]; simpl in *. subst r.
  destruct Hl as (ms & [Hsent Hrecv] & Hok & _ & Hc). destruct (Hc eq_refl) as [<- _].
  split; [done|]. destruct f as [taken items cap tm]; simpl in *. subst taken.
  simpl in Hsent. subst items. eexists.
  split; [by apply (fifo_gets ms (nonempty_of_chunk_ok _ _ Hok) [] cap tm [])|done].
Qed.

Lemma channel_roundtrip_witness :
  (0 < 1)%nat ∧
  let '(r, (f, ch)) :=
    (for_each [PyNum 7; PyNum 8; PyNum 9] (oc_send Fifo.as_queue 2 10 None 1) ;!
     oc_flush Fifo.as_queue None 1) (Fifo.MkFifo [] [] 0 5, new_out_chan) in
  r = Ok tt ∧
  ∃ f', ic_gets Fifo.as_queue 3 (Some (seconds 1)) (f, new_in_buf) =
          (Ok [PyNum 7; PyNum 8; PyNum 9], (f', Deque [])) ∧ Fifo.items f' = [].
Proof.
  split; [lia|].
  apply (channel_roundtrip 2 10 1 [PyNum 7; PyNum 8; PyNum 9] 5). lia.
Defined.

(** What leaves the pool goes back. [requeue_buffered], called before a
    worker exits early, puts the items it had buffered on the shared queue as
    one chunk, in order, once the put goes through, and puts nothing when the
    buffer is empty; the buffer is empty afterwards. *)
Theorem requeue_buffered_returns {W} `{Runtime W} (q : queue W msg) `{!LawfulQueue q}
    (fuel : nat) (w : W) (l : list py) :
  let '(r, (w', b')) := ic_requeue_buffered q fuel (w, Deque l) in
  buf_items b' = [] ∧ q_recv q w' = q_recv q w ∧
  carried (q_sent q w') = carried (q_sent q w) ++ ok_list r l.
Proof.
  unfold ic_requeue_buffered, bind, get_obj, lift, put_obj, ret; simpl.
  destruct l as [|x l]; [by rewrite app_nil_r|].
  pose proof (put_retry_puts q fuel (Chunk (x :: l)) None (seconds 2) ltac:(done) w) as [Hs Hr].
  destruct (_put_retry _ _ _ _ _ w) as [[[]|e|] w']; simpl in *;
    rewrite Hs, carried_app; simpl; by rewrite ?app_nil_r.
Qed.

Lemma requeue_buffered_returns_witness :
  let f := Fifo.MkFifo [] [Bare (PyNum 0)] 0 0 in
  let '(r, (w', b')) := ic_requeue_buffered Fifo.as_queue 1 (f, Deque [PyNum 1; PyNum 2]) in
  Fifo.items w' = [Bare (PyNum 0); Chunk [PyNum 1; PyNum 2]] ∧
  buf_items b' = [] ∧ q_recv Fifo.as_queue w' = q_recv Fifo.as_queue f ∧
  carried (q_sent Fifo.as_queue w') =
    carried (q_sent Fifo.as_queue f) ++ ok_list r [PyNum 1; PyNum 2].
Proof.
  split; [reflexivity|].
  exact (requeue_buffered_returns Fifo.as_queue 1 (Fifo.MkFifo [] [Bare (PyNum 0)] 0 0)
           [PyNum 1; PyNum 2]).
Defined.

(** After [requeue_buffered] has put items back, the channel is unusable
    for chunks: its buffer is now a plain list, and the next chunk it receives
    makes [get] raise [AttributeError] with the whole chunk left in the
    buffer. *)
Theorem requeue_buffered_breaks_channel {W} `{Runtime W} (q : queue W msg)
    (fuel : nat) (w w1 w2 : W) (x : py) (l items : list py) (b : in_buf) (t : option Z) :
  ic_requeue_buffered q fuel (w, Deque (x :: l)) = (Ok tt, (w1, b)) →
  q_get q t w1 = (Ok (Chunk items), w2) →
  ic_get q t (w1, b) = (Raise AttributeError, (w2, PlainList items)).
Proof.
  unfold ic_requeue_buffered, ic_get, ic_receive, bind, get_obj, lift, put_obj; simpl.
  destruct (_put_retry _ _ _ _ _ w) as [[[]|e|] w'] eqn:E; intros [= <- <-] Hget; simpl.
  by rewrite Hget.
Qed.

Lemma requeue_buffered_breaks_channel_witness :
  let f0 := Fifo.MkFifo [] [] 0 0 : Fifo.fifo msg in
  let f1 := Fifo.MkFifo [] [Chunk [PyNum 1; PyNum 2]] 0 0 in
  let f2 := Fifo.MkFifo [Chunk [PyNum 1; PyNum 2]] [] 0 0 in
  ic_requeue_buffered Fifo.as_queue 1 (f0, Deque [PyNum 1; PyNum 2]) =
    (Ok tt, (f1, PlainList [])) ∧
  ic_get Fifo.as_queue (Some (seconds 1)) (f1, PlainList []) =
    (Raise AttributeError, (f2, PlainList [PyNum 1; PyNum 2])).
Proof.
  split; [vm_compute; reflexivity|].
  exact (requeue_buffered_breaks_channel Fifo.as_queue 1 (Fifo.MkFifo [] [] 0 0)
           (Fifo.MkFifo [] [Chunk [PyNum 1; PyNum 2]] 0 0)
           (Fifo.MkFifo [Chunk [PyNum 1; PyNum 2]] [] 0 0) (PyNum 1) [PyNum 2]
           [PyNum 1; PyNum 2] (PlainList []) (Some (seconds 1)) eq_refl eq_refl).
Defined.

(** The consumer side. [PipeIterator.__next__] returns the next item that
    is not [End], in queue order, and raises [StopIteration] exactly for an
    [End]; what it did not return stays buffered. *)
Theorem iter_next_in_order {W} `{Runtime W} (q : queue W msg) `{!LawfulQueue q}
    (fuel : nat) (w : W) (l : list py) :
  (∀ w, (q_get q (Some (seconds 1)) w).1 ≠ Raise StopIteration) →
  let '(r, (w', b')) := iter_next q fuel (w, Deque l) in
  ∃ ms l', q_recv q w' = q_recv q w ++ ms ∧ b' = Deque l' ∧
    match r with
    | Ok v => v :: l' = l ++ carried ms ∧ _is_end v = false
    | Raise StopIteration => End :: l' = l ++ carried ms
    | _ => l' = l ++ carried ms
    end.
Proof.
  intros Hstop.
  set (Q := λ (r : res py) (s : W * in_buf),
    ∃ ms l', q_recv q s.1 = q_recv q w ++ ms ∧ s.2 = Deque l' ∧
      match r with
      | Ok v => v :: l' = l ++ carried ms ∧ _is_end v = false
      | Raise StopIteration => End :: l' = l ++ carried ms
      | _ => l' = l ++ carried ms
      end).
  enough (wp (iter_next q fuel) Q (w, Deque l)) as HQ.
  { unfold wp, Q in HQ. by destruct (iter_next q fuel (w, Deque l)) as [r [w' b']]. }
  apply (wp_loop (λ _ s, ∃ ms l', q_recv q s.1 = q_recv q w ++ ms ∧ s.2 = Deque l' ∧
                   l' = l ++ carried ms)).
  - exists [], l. by rewrite !app_nil_r.
  - intros _ s (ms & l' & ?). by exists ms, l'.
  - intros _ [w1 b1] (ms & l1 & Hr & Hb & Hl); simpl in *; subst b1.
    apply wp_try, wp_bind. unfold wp at 1.
    assert ((ic_get q (Some (seconds 1)) (w1, Deque l1)).1 ≠ Raise StopIteration) as Hns.
    { unfold ic_get, ic_receive, bind, get_obj, lift; simpl. destruct l1; [|done].
      specialize (Hstop w1). destruct (q_get q _ w1) as [[[v|[|v items]]|e|] w2]; simpl in *;
        try done. congruence. }
    pose proof (ic_receive_spec q _ w1 l1 (lawful_get (Some (seconds 1)))) as Hg.
    unfold wp in Hg. fold (ic_get q (Some (seconds 1))) in Hg.
    destruct (ic_get q _ (w1, Deque l1)) as [r [w2 b2]]; simpl in *.
    destruct Hg as (_ & ms' & l2 & Hr2 & -> & Hv).
    assert (q_recv q w2 = q_recv q w ++ (ms ++ ms')) as Hrecv by (by rewrite Hr2, Hr, app_assoc).
    rewrite Hl, <-app_assoc, <-carried_app in Hv.
    destruct r as [v|e|].
    + destruct (_is_end v) eqn:E.
      * destruct v as [|[]|?|?|?|?|?|? ?|?|?]; try done.
        apply wp_raise, wp_raise. by exists (ms ++ ms'), l2.
      * apply wp_ret. by exists (ms ++ ms'), l2.
    + destruct Hv as (Hl1 & -> & Hc).
      assert ([] = l ++ carried (ms ++ ms')) as Hnil
        by (by rewrite carried_app, Hc, app_nil_r, Hl1).
      by destruct e; exists (ms ++ ms'), [].
    + destruct Hv as (Hl1 & -> & Hc). exists (ms ++ ms'), []. simpl. split_and!; [done..|].
      by rewrite carried_app, Hc, app_nil_r, Hl1.
Qed.

Lemma iter_next_in_order_witness :
  let f := Fifo.MkFifo [] [Bare End; Chunk [PyNum 4; PyNum 5]] 0 0 in
  (iter_next Fifo.as_queue 3 (f, Deque [PyNum 3])).1 = Ok (PyNum 3) ∧
  (iter_next Fifo.as_queue 3 (f, Deque [])).1 = Raise StopIteration ∧
  (let '(r, (w', b')) := iter_next Fifo.as_queue 3 (f, Deque []) in
   ∃ ms l', q_recv Fifo.as_queue w' = q_recv Fifo.as_queue f ++ ms ∧ b' = Deque l' ∧
    match r with
    | Ok v => v :: l' = [] ++ carried ms ∧ _is_end v = false
    | Raise StopIteration => End :: l' = [] ++ carried ms
    | _ => l' = [] ++ carried ms
    end).
Proof.
  split; [vm_compute; reflexivity|]. split; [vm_compute; reflexivity|].
  refine (iter_next_in_order Fifo.as_queue 3
            (Fifo.MkFifo [] [Bare End; Chunk [PyNum 4; PyNum 5]] 0 0) [] _).
  intros w. simpl. unfold Fifo.get. by destruct (Fifo.items w).
Defined.
