(* ===== verification/World.v ===== *)
(** * One worker process and its environment

    A worker runs among other processes that share its queues, counters and
    flags. The model fixes what those others do as an [environment]: for each
    tick, what the next read of a shared object, or the next queue call, would
    answer. A theorem about every environment is a theorem about every
    interleaving. The worker's own actions are recorded in a trace. *)
From S2P Require Import Prelude Types Queues.

(** ** Environment and world *)

Record environment := Environment {
  e_clock : nat → Z;              (* time.monotonic(), time.time() *)
  e_should_stop : nat → Z;        (* should_stop.value *)
  e_upstream_done : nat → bool;   (* upstream_done.is_set() *)
  e_drain : nat → bool;           (* drain_event.is_set() *)
  e_park : nat → Z;               (* scavenge_park.value *)
  e_hold : nat → Z;               (* scavenge_hold.value *)
  e_in : nat → res msg;           (* in_queue.get *)
  e_in_put : nat → res unit;      (* in_queue.put *)
  e_out_put : nat → res unit;     (* out_queue.put *)
  e_torch : nat → bool;           (* _torch.loaded() is not None *)
  e_cuda : nat → bool;            (* torch.cuda.is_initialized() *)
  e_finished : nat → Z;           (* stage_end_counter.value *)
  e_count : nat → Z;              (* stage_worker_count.value *)
}.

(** The row of [timing_dict] a worker writes. *)
Record timing := Timing {
  t_items : Z;
  t_total_time : Z;
  t_audio_duration : py;
  t_start_wall_time : Z;
}.

(** What a worker does to the shared world, in order. *)
Inductive action :=
  | Received (m : msg)            (* a message taken off the input queue *)
  | PutOut (m : msg)              (* a message put on the output queue *)
  | PutBack (m : msg)             (* a message put on the input queue *)
  | Called (arg : option py)      (* the user's stage was called *)
  | SetPark (v : Z)
  | SetStop (v : Z)
  | SetIpc
  | SetBusy (v : Z)
  | SetTiming (t : timing)
  | Finished                      (* stage_end_counter.value += 1 *)
  | SetDone                       (* stage_done.set() *)
  | Slept (d : Z).

Record world (U : Type) := World {
  tick : nat;
  trace : list action;
  user : U;                       (* the stage object *)
}.
Arguments World {_} _ _ _.
Arguments tick {_} _.
Arguments trace {_} _.
Arguments user {_} _.

Section world.
Context {U : Type} (env : environment).
Local Abbreviation W := (world U).

(** Read something shared: the answer is fixed by the tick. *)
Definition observe {X} (f : environment → nat → X) : prog W X := λ w,
  (Ok (f env (tick w)), World (S (tick w)) (trace w) (user w)).

Definition act (a : action) : prog W unit := λ w,
  (Ok tt, World (S (tick w)) (trace w ++ [a]) (user w)).

(** A queue call: the answer is fixed by the tick, and recorded if it is
    not an exception. *)
Definition answer {X} (f : environment → nat → res X) (a : X → action) : prog W X :=
  let! r := observe f in
  let! x := of_res r in
  act (a x) ;!
  ret x.

#[export] Instance world_runtime : Runtime W := {|
  now := observe e_clock;
  sleep d := act (Slept d);
|}.

#[export] Instance world_total : TotalRuntime W.
Proof. split; intros; simpl; eauto. Qed.

Definition sent_on (proj : action → option msg) (w : W) : list msg := omap proj (trace w).

Definition out_msg (a : action) : option msg :=
  match a with PutOut m => Some m | _ => None end.
Definition back_msg (a : action) : option msg :=
  match a with PutBack m => Some m | _ => None end.
Definition recv_msg (a : action) : option msg :=
  match a with Received m => Some m | _ => None end.

(** The stage's input queue as this worker sees it. *)
Definition in_queue : queue W msg := {|
  q_put _ m := answer e_in_put (λ _, PutBack m);
  q_put_nowait m := answer e_in_put (λ _, PutBack m);
  q_get _ := answer e_in Received;
  q_get_nowait := answer e_in Received;
  q_encode := None;
  q_sent := sent_on back_msg;
  q_recv := sent_on recv_msg;
|}.

(** The stage's output queue; workers never take from it. *)
Definition out_queue : queue W msg := {|
  q_put _ m := answer e_out_put (λ _, PutOut m);
  q_put_nowait m := answer e_out_put (λ _, PutOut m);
  q_get _ := raise Empty;
  q_get_nowait := raise Empty;
  q_encode := None;
  q_sent := sent_on out_msg;
  q_recv _ := [];
|}.

(** Run user code on the stage object. *)
Definition on_user {X} (c : prog U X) : prog W X := λ w,
  let '(r, u) := c (user w) in (r, World (tick w) (trace w) u).

(** *** What each step adds to the trace *)

(** [c] appends to the trace exactly [f r] when it ends with [r]. *)
Definition appends {X} (c : prog W X) (f : res X → list action) : Prop :=
  ∀ w, trace (c w).2 = trace w ++ f (c w).1.

Lemma observe_keeps {X} (f : environment → nat → X) : keeps trace (observe f).
Proof. done. Qed.

Lemma on_user_keeps {X} (c : prog U X) : keeps trace (on_user c).
Proof. intros w. unfold on_user. by destruct (c (user w)). Qed.

Lemma now_keeps : keeps trace (now (W:=W)).
Proof. done. Qed.

Lemma act_appends a : appends (act a) (λ _, [a]).
Proof. done. Qed.

(** Reading and sleeping leave no message behind. *)
Lemma sleep_keeps proj d :
  (∀ d, proj (Slept d) = None) → keeps (sent_on proj) (sleep (W:=W) d).
Proof.
  intros Hp w. unfold sent_on. simpl. rewrite omap_app. simpl. rewrite Hp.
  by rewrite app_nil_r.
Qed.

Lemma answer_appends {X} (f : environment → nat → res X) a :
  appends (answer f a) (λ r, match r with Ok x => [a x] | _ => [] end).
Proof.
  intros w. unfold answer, bind, observe, of_res; simpl.
  destruct (f env (tick w)); simpl; by rewrite ?app_nil_r.
Qed.

#[export] Instance in_queue_lawful : LawfulQueue in_queue.
Proof.
  split; try done; [..|intros d w; apply pair_eq; split; by apply sleep_keeps]; intros; intros w; simpl; unfold sent_on;
    rewrite answer_appends, !omap_app;
    destruct (answer _ _ w).1; simpl; by rewrite ?app_nil_r.
Qed.

#[export] Instance out_queue_lawful : LawfulQueue out_queue.
Proof.
  split; try done; [..|intros d w; apply pair_eq; split; [by apply sleep_keeps|done]]; intros; intros w; simpl; unfold sent_on;
    try rewrite answer_appends, !omap_app;
    try destruct (answer _ _ w).1; simpl; by rewrite ?app_nil_r.
Qed.
End world.

#[export] Hint Resolve observe_keeps on_user_keeps now_keeps : pipe.
