(* ===== verification/Source.v ===== *)
(** * Sources (workers.py)

    How a worker runs a source generator: [_drain_source_generator] sends its
    items on, [_SourceBackoff] decides how long to wait before the source is
    called again after it raised. *)
From S2P Require Import Prelude Types Queues World.

(** ** _SourceBackoff *)

(** [2 ** self.failures] is converted to a float to be multiplied with
    [self.base]; from 2^1024 on that conversion raises [OverflowError]. *)
Definition float_max_exponent : Z := 1024.

(** [delay = min(self.base * 2 ** self.failures, 60.0)]. *)
Definition backoff_delay (base failures : Z) : res Z :=
  if (float_max_exponent <=? failures)%Z then Raise OverflowError
  else Ok (Z.min (base * 2 ^ failures) (seconds 60)).

Section backoff.
Context {W : Type} `{Runtime W}.

(** [while not stop(): ...] of [_SourceBackoff.wait]. *)
Definition wait_until (fuel : nat) (deadline : Z) (stop : prog W bool) : prog W unit :=
  loop fuel (λ _ : unit,
    let! stopped := stop in
    if stopped : bool then ret (inr tt)
    else
      let! n := now in
      let left := (deadline - n)%Z in
      if (left <=? 0)%Z then ret (inr tt)
      else sleep (Z.min (millis 100) left) ;! ret (inl tt)) tt.

(** [_SourceBackoff.wait(made_progress, stop, worker_desc)] on the object
    [failures], kept beside the world. *)
Definition backoff_wait (fuel : nat) (base : Z) (made_progress : bool) (stop : prog W bool)
    : prog (W * Z) unit :=
  let! failures := get_obj in
  let failures := if made_progress then 0%Z else failures in
  put_obj failures ;!
  let! delay := of_res (backoff_delay base failures) in
  put_obj (failures + 1)%Z ;!
  let! n := lift now in
  lift (wait_until fuel (n + delay) stop).
End backoff.

(** ** _drain_source_generator *)

Section drain.
Context {W : Type}.
Context (raise_errors : bool) (stop : prog W bool) (on_item : py → prog W unit).
Context (emit : option (py → prog W unit)).

(** The outer [except] clauses: connection errors and, with
    [raise_errors], any error propagate; otherwise [return True, sent]. *)
Definition source_failed (sent : Z) (e : exn) : prog W (bool * Z) :=
  if is_connection_error e then raise e
  else if negb (is_exception e) then raise e
  else if raise_errors then raise e
  else ret (true, sent).

(** Run [c] under the outer handlers, then go on with [k]. *)
Definition guarded (sent : Z) (c : prog W unit) (k : prog W (bool * Z)) : prog W (bool * Z) :=
  let! r := try_except (c ;! ret None)
              (λ e, let! x := source_failed sent e in ret (Some x)) in
  match r with
  | Some x => ret x
  | None => k
  end.

(** The inner [try: emit(gen_item)]: a failed send drops just that item. *)
Definition send_or_drop (em : py → prog W unit) (y : py) : prog W unit :=
  try_except (em y)
    (λ e, if is_connection_error e then raise e
          else if negb (is_exception e) then raise e
          else if raise_errors then raise e
          else ret tt).

Fixpoint drain_items (ending : option exn) (ys : list py) (sent : Z) : prog W (bool * Z) :=
  match ys with
  | [] =>
      match ending with
      | None => ret (false, sent)
      | Some e => source_failed sent e
      end
  | y :: ys =>
      let! stopped := stop in
      if stopped : bool then ret (false, sent)
      else if negb (is_valid y) then drain_items ending ys sent
      else
        guarded sent (on_item y)
          (let sent := (sent + 1)%Z in
           match emit with
           | None => drain_items ending ys sent
           | Some em => guarded sent (send_or_drop em y) (drain_items ending ys sent)
           end)
  end.

(** [_drain_source_generator(gen, emit, stop, on_item, ...)]:
    [(raised, sent)]. *)
Definition _drain_source_generator (g : generator) : prog W (bool * Z) :=
  drain_items (gen_raises g) (gen_yields g) 0.
End drain.

(** ** _timed_call *)

Section timed_call.
Context {U : Type} (env : environment).

(** [_timed_call(worker, arg, busy_since)]; [busy] says whether the stage
    has a [hang_timeout], hence a [busy_since] cell. *)
Definition _timed_call (busy : bool) (call : option py → prog U result) (arg : option py)
    : prog (world U) result :=
  if busy then
    let! t := now (Runtime:=world_runtime env) in
    act (SetBusy t) ;!
    try_finally (act (Called arg) ;! on_user (call arg)) (act (SetBusy 0))
  else act (Called arg) ;! on_user (call arg).
End timed_call.

(** ** What the generator loop emits *)

Section drain_spec.
Context {W : Type} (out : W → list py).
Context (raise_errors : bool) (stop : prog W bool) (on_item : py → prog W unit).
Context (em : py → prog W unit).
Context (stop_quiet : keeps out stop) (item_quiet : ∀ y, keeps out (on_item y)).
Context (em_out : ∀ y w, out (em y w).2 = out w ++ ok_list (em y w).1 [y]).

(** [c] emitted some of the items [l], in order. *)
Definition emits_from {X} (l : list py) (c : prog W X) : Prop :=
  ∀ w, ∃ done, out (c w).2 = out w ++ done ∧ done `sublist_of` l.

Lemma emits_none {X} l (c : prog W X) : keeps out c → emits_from l c.
Proof. intros Hc w. exists []. rewrite app_nil_r. split; [apply Hc|apply sublist_nil_l]. Qed.

Lemma source_failed_eq sent e (w : W) : ∃ r, source_failed raise_errors sent e w = (r, w).
Proof. unfold source_failed. repeat case_match; eauto. Qed.

Lemma source_failed_keeps sent e : keeps (W:=W) out (source_failed raise_errors sent e).
Proof. intros w. by destruct (source_failed_eq sent e w) as [r ->]. Qed.

Lemma send_or_drop_out y w :
  ∃ done, out (send_or_drop raise_errors em y w).2 = out w ++ done ∧ done `sublist_of` [y].
Proof.
  unfold send_or_drop, try_except. specialize (em_out y w).
  destruct (em y w) as [[[]|e|] w1]; simpl in *; [by exists [y]|..];
    exists []; (split; [|apply sublist_nil_l]); repeat case_match; done.
Qed.

Lemma emits_guarded l1 l2 sent c k :
  emits_from l1 c → emits_from l2 k → emits_from (l1 ++ l2) (guarded raise_errors sent c k).
Proof.
  intros Hc Hk w. unfold guarded, bind, try_except, ret.
  destruct (Hc w) as (d1 & Hd1 & Hs1). destruct (c w) as [[[]|e|] w1]; simpl in *.
  - destruct (Hk w1) as (d2 & Hd2 & Hs2). exists (d1 ++ d2).
    rewrite Hd2, Hd1, app_assoc. split; [done|by apply sublist_app].
  - exists d1. destruct (source_failed_eq sent e w1) as [[x|e'|] ->]; simpl;
      (split; [done|by apply sublist_inserts_r]).
  - exists d1. split; [done|by apply sublist_inserts_r].
Qed.

Lemma drain_items_emits ending ys sent :
  emits_from (valid_items ys) (drain_items raise_errors stop on_item (Some em) ending ys sent).
Proof.
  revert sent. induction ys as [|y ys IH]; intros sent; simpl.
  - apply emits_none. destruct ending; [apply source_failed_keeps|done].
  - intros w. unfold bind at 1. pose proof (stop_quiet w) as Hq.
    destruct (stop w) as [[[]|e|] w1]; simpl in *;
      [exists []; by rewrite app_nil_r; split; [|apply sublist_nil_l]| |
       exists []; by rewrite app_nil_r; split; [|apply sublist_nil_l]..].
    rewrite <-Hq. unfold valid_items. rewrite filter_cons.
    destruct (is_valid y) eqn:Hy; simpl; [|apply IH].
    change (y :: ?l) with ([] ++ [y] ++ l). apply emits_guarded; [by apply emits_none|].
    apply emits_guarded; [|apply IH]. intros w2. apply send_or_drop_out.
Qed.

(** With nobody stopping and no exception everything valid is emitted. *)
Lemma drain_items_all ys sent w :
  (∀ w, (stop w).1 = Ok false) → (∀ y w, (on_item y w).1 = Ok tt) → (∀ y w, (em y w).1 = Ok tt) →
  let '(r, w') := drain_items raise_errors stop on_item (Some em) None ys sent w in
  r = Ok (false, sent + Z.of_nat (length (valid_items ys)))%Z ∧
  out w' = out w ++ valid_items ys.
Proof.
  intros Hstop Hitem Hem. revert sent w. induction ys as [|y ys IH]; intros sent w; simpl.
  - by rewrite Z.add_0_r, app_nil_r.
  - unfold bind at 1. specialize (Hstop w). pose proof (stop_quiet w) as Hq.
    destruct (stop w) as [r w1]; simplify_eq/=. unfold valid_items. rewrite filter_cons.
    destruct (is_valid y) eqn:Hy; simpl; [|rewrite <-Hq; apply IH].
    unfold guarded, send_or_drop, bind, try_except, ret.
    specialize (Hitem y w1). pose proof (item_quiet y w1) as Hi.
    destruct (on_item y w1) as [r1 w2]; simplify_eq/=.
    specialize (Hem y w2). pose proof (em_out y w2) as He.
    destruct (em y w2) as [r2 w3]; simplify_eq/=.
    specialize (IH (sent + 1)%Z w3). destruct (drain_items _ _ _ _ _ _ _ w3) as [r w4].
    destruct IH as [-> ->]. rewrite He, Hi, Hq, <-app_assoc. fold (valid_items ys).
    split; [simpl; do 2 f_equal; lia|done].
Qed.
End drain_spec.

(** ** Properties *)

(** A source generator's items reach the output in order, each at most
    once. [_drain_source_generator] emits a subsequence of the items that are
    neither [None] nor [End], in every case; when nobody asks to stop and
    neither the counting nor the sending raises it emits all of them, reports
    how many, and reports that the generator did not raise. *)
Theorem drain_source_generator_in_order {W} (out : W → list py)
    (raise_errors : bool) (stop : prog W bool) (on_item em : py → prog W unit)
    (g : generator) (w : W) :
  keeps out stop → (∀ y, keeps out (on_item y)) →
  (∀ y w, out (em y w).2 = out w ++ ok_list (em y w).1 [y]) →
  let '(r, w') := _drain_source_generator raise_errors stop on_item (Some em) g w in
  (∃ done, out w' = out w ++ done ∧ done `sublist_of` valid_items (gen_yields g)) ∧
  ((∀ w, (stop w).1 = Ok false) → (∀ y w, (on_item y w).1 = Ok tt) →
   (∀ y w, (em y w).1 = Ok tt) → gen_raises g = None →
   r = Ok (false, Z.of_nat (length (valid_items (gen_yields g)))) ∧
   out w' = out w ++ valid_items (gen_yields g)).
Proof.
  intros Hstop Hitem Hem. unfold _drain_source_generator.
  pose proof (drain_items_emits out raise_errors stop on_item em Hstop Hitem Hem
                (gen_raises g) (gen_yields g) 0 w) as Hemits.
  pose proof (drain_items_all out raise_errors stop on_item em Hstop Hitem Hem
                (gen_yields g) 0 w) as Hall.
  destruct (drain_items _ _ _ _ (gen_raises g) _ _ w) as [r w'] eqn:E. split; [done|].
  intros H1 H2 H3 Hnone. rewrite Hnone in E. rewrite E in Hall. by apply Hall.
Qed.

Lemma drain_source_generator_in_order_witness :
  let em := λ (y : py) (w : list py), (Ok tt, w ++ [y]) in
  let g := Generator [PyNum 1; PyNone; End; PyNum 2] None in
  let '(r, w') := _drain_source_generator false (ret false) (λ _, ret tt) (Some em) g [] in
  (∃ done, w' = [] ++ done ∧ done `sublist_of` valid_items (gen_yields g)) ∧
  ((∀ w : list py, (ret false w).1 = Ok false) → (∀ (y : py) (w : list py), (ret tt w).1 = Ok tt) →
   (∀ y w, (em y w).1 = Ok tt) → gen_raises g = None →
   r = Ok (false, Z.of_nat (length (valid_items (gen_yields g)))) ∧
   w' = [] ++ valid_items (gen_yields g)).
Proof.
  exact (drain_source_generator_in_order id false (ret false) (λ _, ret tt)
           (λ (y : py) (w : list py), (Ok tt, w ++ [y]))
           (Generator [PyNum 1; PyNone; End; PyNum 2] None) []
           (λ _, eq_refl) (λ _ _, eq_refl) (λ _ _, eq_refl)).
Defined.

(** The delay before a failing source is called again doubles from the
    base up to a minute, and a call that made progress starts over from the
    base. From the 1025th failure in a row on there is no delay any more:
    computing it raises [OverflowError]. *)
Theorem backoff_delays (base failures : Z) :
  (0 < base ≤ seconds 60)%Z → (0 ≤ failures)%Z →
  backoff_delay base 0 = Ok base ∧
  ((failures < float_max_exponent)%Z →
   ∃ d, backoff_delay base failures = Ok d ∧ (base ≤ d ≤ seconds 60)%Z ∧
     (backoff_delay base (failures + 1) =
        if (failures + 1 <? float_max_exponent)%Z then Ok (Z.min (2 * d) (seconds 60))
        else Raise OverflowError)) ∧
  ((float_max_exponent ≤ failures)%Z → backoff_delay base failures = Raise OverflowError).
Proof.
  intros Hb Hf. unfold backoff_delay. split; [|split].
  - simpl. f_equal. lia.
  - intros Hlt. rewrite (proj2 (Z.leb_gt _ _)) by done. eexists. split; [done|].
    assert (1 ≤ 2 ^ failures)%Z by (apply (Z.pow_le_mono_r 2 0); lia).
    split; [nia|]. rewrite Z.ltb_antisym. case_match; simpl; [done|].
    f_equal. rewrite Z.pow_add_r by lia. nia.
  - intros Hle. by rewrite (proj2 (Z.leb_le _ _)).
Qed.

Lemma backoff_delays_witness :
  backoff_delay (seconds 1) 3 = Ok (seconds 8) ∧
  backoff_delay (seconds 1) 0 = Ok (seconds 1) ∧
  ((3 < float_max_exponent)%Z →
   ∃ d, backoff_delay (seconds 1) 3 = Ok d ∧ (seconds 1 ≤ d ≤ seconds 60)%Z ∧
     (backoff_delay (seconds 1) (3 + 1) =
        if (3 + 1 <? float_max_exponent)%Z then Ok (Z.min (2 * d) (seconds 60))
        else Raise OverflowError)) ∧
  ((float_max_exponent ≤ 3)%Z → backoff_delay (seconds 1) 3 = Raise OverflowError).
Proof.
  split; [vm_compute; reflexivity|].
  refine (backoff_delays (seconds 1) 3 _ _); unfold seconds; lia.
Defined.
