(* ===== verification/Worker.v ===== *)
(** * The worker process (workers.py: _worker_run)

    One run of [_worker_run]: the turns of its main loop for root and middle
    stages, the cooperative park, the [pull]/[put] a custom [run()] is given,
    the flush at the end and the coordination with siblings. Section
    [worker_run] holds the code; the theorems about it are in [WorkerSpec]. *)
From S2P Require Import Prelude Types Queues Channels World Source.

(** The user's stage object as the framework uses it, over its own state [U]:
    [__call__] (with no argument for a root stage), the optional [load],
    [flush], [on_park] and [on_unpark]. *)
Record stage (U : Type) := Stage {
  st_call : option py → prog U result;
  st_load : option (prog U unit);
  st_flush : option (prog U generator);
  st_on_park : option (prog U (list py));
  st_on_unpark : option (prog U unit);
}.
Arguments Stage {_} _ _ _ _ _.
Arguments st_call {_} _ _.
Arguments st_load {_} _.
Arguments st_flush {_} _.
Arguments st_on_park {_} _.
Arguments st_on_unpark {_} _.

(** The arguments of [_worker_run] that do not change. The flags [has_...] say
    which of the optional arguments were given. *)
Record config := Config {
  is_root : bool;                 (* in_queue is None *)
  has_out : bool;                 (* out_queue is not None *)
  has_upstream : bool;            (* upstream_done is not None *)
  has_drain_event : bool;
  has_timing : bool;              (* timing_dict is not None *)
  has_counters : bool;            (* stage_end_counter, stage_worker_count *)
  has_park : bool;                (* scavenge_park is not None *)
  has_ipc : bool;                 (* scavenge_ipc is not None *)
  has_hold : bool;                (* scavenge_hold is not None *)
  has_busy : bool;                (* busy_since is not None *)
  raise_errors : bool;
  drain : bool;
  batch_size : Z;
  out_chunk : Z;
  out_chunk_ms : Z;
  is_final_stage : bool;
  expected_consumers : nat;
  retry_base : Z;                 (* PIPE_SOURCE_RETRY_S *)
  empty_threshold : Z;            (* EMPTY_THRESHOLD *)
  start_wall_time : Z;            (* worker_start_wall_time *)
}.

(** [EMPTY_THRESHOLD = max(1, int(float(PIPE_DRAIN_GRACE) / 0.1))] for a grace
    period in microseconds. *)
Definition threshold_of_grace (grace : Z) : Z := Z.max 1 (grace / millis 100).

(** The local variables of [_worker_run]. *)
Record locals := Locals {
  l_in : in_buf;                  (* in_ch *)
  l_out : out_chan;               (* out_ch *)
  l_failures : Z;                 (* source_backoff.failures *)
  l_ipc_left : nat;               (* ipc_checks_left *)
  l_items : Z;                    (* items_processed *)
  l_time : Z;                     (* total_process_time *)
  l_audio : py;                   (* total_audio_duration *)
  l_empty : Z;                    (* consecutive_empty *)
}.

Definition init_locals (cfg : config) : locals :=
  Locals new_in_buf new_out_chan 0 (if has_ipc cfg then 32 else 0) 0 0 (PyNum 0) 0.

Definition set_in (b : in_buf) (l : locals) : locals :=
  Locals b (l_out l) (l_failures l) (l_ipc_left l) (l_items l) (l_time l) (l_audio l) (l_empty l).
Definition set_out (c : out_chan) (l : locals) : locals :=
  Locals (l_in l) c (l_failures l) (l_ipc_left l) (l_items l) (l_time l) (l_audio l) (l_empty l).
Definition set_failures (n : Z) (l : locals) : locals :=
  Locals (l_in l) (l_out l) n (l_ipc_left l) (l_items l) (l_time l) (l_audio l) (l_empty l).
Definition set_ipc_left (n : nat) (l : locals) : locals :=
  Locals (l_in l) (l_out l) (l_failures l) n (l_items l) (l_time l) (l_audio l) (l_empty l).
Definition set_items (n : Z) (l : locals) : locals :=
  Locals (l_in l) (l_out l) (l_failures l) (l_ipc_left l) n (l_time l) (l_audio l) (l_empty l).
Definition set_time (t : Z) (l : locals) : locals :=
  Locals (l_in l) (l_out l) (l_failures l) (l_ipc_left l) (l_items l) t (l_audio l) (l_empty l).
Definition set_audio (a : py) (l : locals) : locals :=
  Locals (l_in l) (l_out l) (l_failures l) (l_ipc_left l) (l_items l) (l_time l) a (l_empty l).
Definition set_empty (n : Z) (l : locals) : locals :=
  Locals (l_in l) (l_out l) (l_failures l) (l_ipc_left l) (l_items l) (l_time l) (l_audio l) n.

(** How a turn of the main loop ends. *)
Inductive turn := Continue | Break | Return.

Section worker_run.
Context `{ObjOps} {U : Type} (env : environment) (cfg : config) (st : stage U).
(** [torch.cuda.empty_cache()], with [synchronize] and [gc.collect] where
    the code calls them, on the state of the process. *)
Context (free_pool : prog U unit).
(** Fuel for the loops inside a turn. *)
Context (fuel : nat).

Local Abbreviation W := (world U).
Local Abbreviation P X := (prog (W * locals) X).
#[local] Instance process_runtime : Runtime W := world_runtime env.
#[local] Instance locals_runtime : Runtime (W * locals) := {|
  now := lift now;
  sleep d := lift (sleep d);
|}.

(** Programs of the world, of the input and of the output channel. *)
Definition in_world {X} (c : prog W X) : P X := lift c.
Definition look {X} (f : environment → nat → X) : P X := in_world (observe env f).
Definition on_in {X} (c : prog (W * in_buf) X) : P X :=
  zoom (λ '(w, l), (w, l_in l)) (λ '(w, b) '(_, l), (w, set_in b l)) c.
Definition on_out {X} (c : prog (W * out_chan) X) : P X :=
  zoom (λ '(w, l), (w, l_out l)) (λ '(w, c) '(_, l), (w, set_out c l)) c.
Definition on_backoff {X} (c : prog (W * locals * Z) X) : P X :=
  zoom (λ '(w, l), (w, l, l_failures l)) (λ '(w, l, n) _, (w, set_failures n l)) c.
Definition modify (f : locals → locals) : P unit :=
  let! l := get_obj in put_obj (f l).

(** [torch is not None and torch.cuda.is_initialized()]. *)
Definition cuda_ready : prog W bool :=
  let! loaded := observe env e_torch in
  if loaded : bool then observe env e_cuda else ret false.

(** [_release_pool_on_stall]. *)
Definition _release_pool_on_stall : prog W unit :=
  let! ready := cuda_ready in
  if ready : bool then on_user free_pool else ret tt.

Definition out_flush : P unit :=
  on_out (oc_flush (out_queue env) (Some _release_pool_on_stall) fuel).
Definition out_maybe_flush : P unit :=
  on_out (oc_maybe_flush (out_queue env) (out_chunk_ms cfg) (Some _release_pool_on_stall) fuel).

(** [_emit(obj)]; without an output queue [out_ch] is [None]. *)
Definition _emit (obj : py) : P unit :=
  let! l := get_obj in
  (match l_ipc_left l with
   | O => ret tt
   | S n =>
       modify (set_ipc_left n) ;!
       let! loaded := look e_torch in
       if _has_cuda_tensor loaded obj then
         in_world (act SetIpc) ;! modify (set_ipc_left 0)
       else ret tt
   end) ;!
  if has_out cfg then
    on_out (oc_send (out_queue env) (out_chunk cfg) (out_chunk_ms cfg)
              (Some _release_pool_on_stall) fuel obj)
  else raise AttributeError.

Definition emit_all (items : list py) : P unit := for_each items _emit.

(** [should_stop.value] is nonzero. *)
Definition stopping : P bool :=
  let! v := look e_should_stop in ret (negb (v =? 0)%Z).

(** [_stopping()] of the root branch. *)
Definition source_stopping : P bool :=
  let! s := stopping in
  if s : bool then ret true
  else if has_drain_event cfg then look e_drain else ret false.

(** *** Statistics *)

(** [total_audio_duration += v]. *)
Definition add_audio (v : res py) : P unit :=
  let! v := of_res v in
  let! l := get_obj in
  let! a := of_res (py_add (l_audio l) v) in
  modify (set_audio a).

Definition write_timing : P unit :=
  let! l := get_obj in
  in_world (act (SetTiming (Timing (l_items l) (l_time l) (l_audio l) (start_wall_time cfg)))).

(** Every tenth item a middle worker publishes its numbers. *)
Definition write_timing_10 : P unit :=
  let! l := get_obj in
  if (l_items l `mod` 10 =? 0)%Z then write_timing else ret tt.

Definition add_items (n : Z) : P unit := modify (λ l, set_items (l_items l + n) l).
Definition add_time (t : Z) : P unit := modify (λ l, set_time (l_time l + t) l).

(** *** _maybe_park *)

(** Release the GPU: ask the stage, emit what it hands back, flush, ack.
    Returns whether the park was acknowledged. *)
Definition park_release : P bool :=
  let! items :=
    try_except
      (let! items := in_world (match st_on_park st with
                               | Some f => on_user f
                               | None => raise AttributeError
                               end) in
       ret (Some items))
      (λ e, if is_exception e then in_world (act (SetPark 3)) ;! ret None else raise e) in
  match items with
  | None => ret false
  | Some items =>
      emit_all (valid_items items) ;!
      (if has_out cfg then out_flush else ret tt) ;!
      in_world (act (SetPark 2)) ;!
      ret true
  end.

(** Wait until the GPU comes back, then rebuild. *)
Definition park_wait : P unit :=
  loop fuel (λ _ : unit,
    let! p := look e_park in
    if (p =? 2)%Z then
      let! s := stopping in
      if s : bool then ret (inr tt) else in_world (sleep (millis 100)) ;! ret (inl tt)
    else ret (inr tt)) tt ;!
  let! s := stopping in
  if s : bool then ret tt
  else
    try_except
      (in_world (match st_on_unpark st, st_load st with
                 | Some f, _ | None, Some f => on_user f
                 | None, None => ret tt
                 end))
      (λ e, if is_exception e then ret tt else raise e).

Definition _maybe_park : P unit :=
  if negb (has_park cfg) then ret tt
  else
    let! p := look e_park in
    if negb (p =? 1)%Z then ret tt
    else
      let! acked := park_release in
      if acked : bool then park_wait else ret tt.

(** *** A root turn *)

(** [_count(gen_item)]. *)
Definition count_item (y : py) : P unit :=
  if has_timing cfg then add_items 1 ;! add_audio (extract_audio_duration y) else ret tt.

Definition emit_opt : option (py → P unit) := if has_out cfg then Some _emit else None.

(** A result that is a generator: drain it; if it raised, back off. *)
Definition root_generator (g : generator) (start : Z) : P turn :=
  let! (raised, sent) :=
    _drain_source_generator (raise_errors cfg) source_stopping count_item emit_opt g in
  if raised : bool then
    on_backoff (backoff_wait fuel (retry_base cfg) (0 <? sent)%Z source_stopping) ;!
    ret Continue
  else
    (if has_timing cfg then
       let! t := in_world now in add_time (t - start) ;! write_timing
     else ret tt) ;!
    ret Break.

(** A list or single-item result. *)
Definition root_values (v : py) (process_time : Z) : P turn :=
  if _is_end v then ret Break
  else
    let result := match v with PyList l => l | v => [v] end in
    let has_end := existsb _is_end result in
    let valid := valid_items result in
    (if has_timing cfg && negb (bool_decide (valid = [])) then
       add_items (Z.of_nat (length valid)) ;!
       add_time process_time ;!
       add_audio (extract_audio_duration (PyList valid)) ;!
       write_timing
     else ret tt) ;!
    (if has_out cfg then emit_all valid else ret tt) ;!
    ret (if has_end then Break else Continue).

Definition root_turn : P turn :=
  let! start := in_world now in
  let! result := in_world (act (Called None) ;! on_user (st_call st None)) in
  let! t := in_world now in
  match result with
  | RVal PyNone => ret Continue
  | RGen g => root_generator g start
  | RVal v => root_values v (t - start)
  end.

(** *** A middle-stage turn *)

(** [item = in_ch.get(timeout=0.1)] and its handlers: an item, or how the
    turn ends without one. *)
Definition next_item : P (py + turn) :=
  try_except
    (let! v := on_in (ic_get (in_queue env) (Some (millis 100))) in
     modify (set_empty 0) ;!
     ret (inl v))
    (λ e, match e with
          | Empty =>
              modify (λ l, set_empty (l_empty l + 1) l) ;!
              let! l := get_obj in
              let! upstream_done :=
                if has_upstream cfg then look e_upstream_done else ret false in
              ret (inr (if upstream_done && (empty_threshold cfg <=? l_empty l)%Z
                        then Break else Continue))
          | EOFError => ret (inr Break)
          | e => if is_os_error e then ret (inr Break) else raise e
          end).

(** The batch of a [batch=N] stage: what arrives within 50ms, at most [N]
    items. *)
Definition gather (item : py) : P (list py) :=
  let! t := in_world now in
  let deadline := (t + millis 50)%Z in
  loop fuel (λ batch : list py,
    if (Z.of_nat (length batch) <? batch_size cfg)%Z then
      let! t := in_world now in
      let remaining := (deadline - t)%Z in
      if (remaining <=? 0)%Z then ret (inr batch)
      else
        let! raw :=
          try_except
            (let! v := on_in (ic_get (in_queue env) (Some (Z.min remaining (millis 10)))) in
             ret (Some v))
            (λ e, match e with Empty => ret None | e => raise e end) in
        match raw with
        | None =>
            let! t := in_world now in
            ret (if (deadline <=? t)%Z then inr batch else inl batch)
        | Some raw =>
            if _is_worker_stop raw then
              on_in (ic_put (in_queue env) WorkerStop) ;! ret (inr batch)
            else ret (inl (if _is_end raw then batch else batch ++ [raw]))
        end
    else ret (inr batch)) [item].

(** A generator result: emit what it yields until a stop is asked for. *)
Fixpoint emit_generator (ys : list py) (ending : option exn) : P unit :=
  match ys with
  | [] => match ending with None => ret tt | Some e => raise e end
  | y :: ys =>
      let! s := stopping in
      if s : bool then ret tt
      else (if is_valid y && has_out cfg then _emit y else ret tt) ;!
           emit_generator ys ending
  end.

(** What a middle worker does with the result of a call on [n_items] items. *)
Definition handle_result (result : result) (n_items start process_time : Z)
    (input_audio : py) : P unit :=
  match result with
  | RVal PyNone => ret tt
  | RGen g =>
      emit_generator (gen_yields g) (gen_raises g) ;!
      if has_timing cfg then
        add_items n_items ;!
        (let! t := in_world now in add_time (t - start)) ;!
        add_audio (Ok input_audio) ;!
        write_timing_10
      else ret tt
  | RVal v =>
      let result := match v with PyList l => l | v => [v] end in
      (if has_timing cfg then
         add_items n_items ;!
         add_time process_time ;!
         (let! a := of_res (extract_audio_duration (PyList result)) in
          let! b := of_res (truthy a) in
          add_audio (Ok (if b : bool then a else input_audio))) ;!
         write_timing_10
       else ret tt) ;!
      if has_out cfg then emit_all (valid_items result) else ret tt
  end.

(** [while not should_stop.value: time.sleep(0.1)]. *)
Definition stay_alive {X} (x : X) : P X :=
  loop fuel (λ _ : unit,
    let! s := stopping in
    if s : bool then ret (inr x)
    else in_world (sleep (millis 100)) ;! ret (inl tt)) tt.

(** One item off the queue: sentinels, batching, the call, the result. *)
Definition stage_item (item : py) : P turn :=
  if _is_worker_stop item then
    on_in (ic_requeue_buffered (in_queue env) fuel) ;!
    (if has_out cfg then out_flush else ret tt) ;!
    stay_alive Return
  else if _is_end item then ret Continue
  else if (0 <? batch_size cfg)%Z then
    let! batch := gather item in
    let! start := in_world now in
    let! result :=
      in_world (_timed_call env (has_busy cfg) (st_call st) (Some (PyList batch))) in
    let! t := in_world now in
    let! input_audio := of_res (batch_audio batch) in
    handle_result result (Z.of_nat (length batch)) start (t - start) input_audio ;!
    ret Continue
  else
    let! start := in_world now in
    let! result := in_world (_timed_call env (has_busy cfg) (st_call st) (Some item)) in
    let! t := in_world now in
    let! input_audio := of_res (extract_audio_duration item) in
    handle_result result 1 start (t - start) input_audio ;!
    ret Continue.

Definition stage_turn : P turn :=
  let! next := next_item in
  match next with
  | inl item => stage_item item
  | inr t => ret t
  end.

(** *** The main loop *)

(** One turn: flush a partial chunk that is due, park if asked to, stop on a
    drain, then the root or the middle branch, under the handlers of the
    loop. *)
Definition worker_turn : P turn :=
  (if has_out cfg then out_maybe_flush else ret tt) ;!
  try_except
    (let! stop := look e_should_stop in
     if (stop =? 1)%Z then ret Break
     else
       _maybe_park ;!
       let! draining :=
         if negb (drain cfg) && has_drain_event cfg then look e_drain else ret false in
       if draining : bool then ret Break
       else if is_root cfg then root_turn else stage_turn)
    (λ e, if is_connection_error e then in_world (act (SetStop 2)) ;! ret Break
          else if negb (is_exception e) then raise e
          else if raise_errors cfg then raise e
          else ret Continue).

Definition main_loop (turns : nat) : P turn :=
  loop turns (λ _ : unit,
    let! s := stopping in
    if s : bool then ret (inr Break)
    else
      let! t := worker_turn in
      ret (match t with Continue => inl tt | t => inr t end)) tt.

(** *** The end of the run *)

(** [worker.flush()]: everything it yields but [None] is emitted. *)
Definition flush_stage : P unit :=
  match st_flush st with
  | Some f =>
      if has_out cfg then
        try_except
          (let! g := in_world (on_user f) in
           match gen_raises g with
           | Some e => raise e
           | None => emit_all (filter (λ v, is_None v = false) (gen_yields g))
           end)
          (λ e, if is_exception e then ret tt else raise e)
      else ret tt
  | None => ret tt
  end.

(** [_finish_worker]: the last worker of the stage puts the [End]
    sentinels and sets the stage-done event. *)
Definition _finish_worker : P unit :=
  if negb (has_counters cfg) then ret tt
  else
    in_world (act Finished) ;!
    let! finished := look e_finished in
    let! current := look e_count in
    if (finished <? current)%Z then ret tt
    else
      (if has_out cfg then
         let n_ends := if is_final_stage cfg then expected_consumers cfg else 1%nat in
         try_except
           (for_each (replicate n_ends End)
              (λ e, in_world (q_put (out_queue env) (Some (seconds 1)) (Bare e))))
           (λ e, match e with Full => ret tt | e => raise e end)
       else ret tt) ;!
      in_world (act SetDone).

(** What [_worker_run] does after its main loop: [worker.flush()] (where it
    applies), the partial output chunk, the coordination with siblings. *)
Definition worker_end (flushes : bool) : P unit :=
  (if flushes then flush_stage else ret tt) ;!
  (if has_out cfg then out_flush else ret tt) ;!
  _finish_worker.

(** *** Held at spawn (scavenging) *)

(** [_scavenge_hold_wait]: whether the hold was released before the stream
    ended. It reads the raw queue, not the channel. *)
Definition hold_turn : P (unit + bool) :=
  let! hold := look e_hold in
  if (hold =? 0)%Z then ret (inr true)
  else
    let! s := stopping in
    if s : bool then ret (inr false)
    else
      let! upstream_done := if has_upstream cfg then look e_upstream_done else ret false in
      let pause := in_world (sleep (millis 250)) ;! ret (inl tt) in
      if upstream_done : bool then
        if is_root cfg then ret (inr false)
        else
          let! only_unfinished :=
            if has_counters cfg then
              let! finished := look e_finished in
              let! count := look e_count in
              ret (count - 1 <=? finished)%Z
            else ret false in
          if only_unfinished : bool then
            let! raw := try_except
              (let! m := in_world (q_get_nowait (in_queue env)) in ret (Some m))
              (λ e, match e with Empty => ret None | e => raise e end) in
            match raw with
            | None => ret (inr false)
            | Some (Bare (PySent END)) => ret (inl tt)
            | Some raw => in_world (q_put (in_queue env) None raw) ;! pause
            end
          else pause
      else pause.

Definition _scavenge_hold_wait : P bool := loop fuel (λ _ : unit, hold_turn) tt.

(** *** The GPU at the end of the run *)

(** [_park_release_gpu]: what [on_park] hands back is emitted and flushed,
    then the last references to the stage are dropped. *)
Definition _park_release_gpu : P unit :=
  let! ready := in_world cuda_ready in
  if negb ready then ret tt
  else
    match st_on_park st with
    | None => ret tt
    | Some f =>
        let! items := try_except (in_world (on_user f))
                        (λ e, if is_exception e then ret [] else raise e) in
        match items with
        | [] => ret tt
        | items =>
            emit_all (valid_items items) ;!
            (if has_out cfg then out_flush else ret tt)
        end
    end.

(** [_free_cuda_pool]. *)
Definition _free_cuda_pool : P unit :=
  let! ready := in_world cuda_ready in
  if ready : bool then
    try_except (in_world (on_user free_pool))
      (λ e, if is_exception e then ret tt else raise e)
  else ret tt.

(** [_worker_run] from the scavenge hold to its end. [run] is the stage's
    own [run()] if it has one: user code, which may call [_pull] and
    [_put]. [turns] is the fuel of the main loop. *)
Definition _worker_run (run : option (P unit)) (turns : nat) : P unit :=
  let! hold := if has_hold cfg then look e_hold else ret 0%Z in
  let! released := if (hold =? 0)%Z then ret true else _scavenge_hold_wait in
  let custom_run := if is_root cfg then None else run in
  (if released : bool then
     in_world (match st_load st with Some f => on_user f | None => ret tt end) ;!
     match custom_run with Some r => r | None => ret tt end
   else ret tt) ;!
  let! t := match custom_run with
            | Some _ => ret Break
            | None => if released then main_loop turns else ret Break
            end in
  match t with
  | Return => ret tt
  | _ =>
      worker_end (match custom_run with Some _ => false | None => released end) ;!
      _park_release_gpu ;!
      _free_cuda_pool ;!
      stay_alive tt
  end.

(** *** [pull] and [put] of a stage with a custom [run()] *)

(** The loop of [_pull(n)]: up to [n] items, or [None] for its early
    [return []], when upstream is done and nothing came. *)
Definition pull_items (n : Z) : P (option (list py)) :=
  loop fuel (λ items : list py,
    if (Z.of_nat (length items) <? n)%Z then
      let! s := stopping in
      if s : bool then ret (inr (Some items))
      else
        let! raw :=
          try_except (let! v := on_in (ic_get_nowait (in_queue env)) in ret (Some v))
            (λ e, match e with Empty => ret None | e => raise e end) in
        match raw with
        | None =>
            match items with
            | _ :: _ => ret (inr (Some items))
            | [] =>
                let! upstream_done :=
                  if has_upstream cfg then look e_upstream_done else ret false in
                if upstream_done : bool then ret (inr None)
                else in_world (sleep (millis 10)) ;! ret (inl items)
            end
        | Some raw =>
            if _is_worker_stop raw then
              on_in (ic_put (in_queue env) WorkerStop) ;! ret (inr (Some items))
            else ret (inl (if _is_end raw then items else items ++ [raw]))
        end
    else ret (inr (Some items))) [].

Definition _pull (n : Z) : P (list py) :=
  let! items := pull_items n in
  match items with
  | None => ret []
  | Some [] => (if has_out cfg then out_maybe_flush else ret tt) ;! ret []
  | Some items => ret items
  end.

Definition _put (item : py) : P unit :=
  if is_None item then ret tt else _emit item.
End worker_run.
