(* ===== verification/WorkerSpec.v ===== *)
(** * What a worker process does with its items (theorems about Worker)

    For every environment, that is every behaviour of the other processes:
    what a middle worker receives is what it hands to its stage; what it
    puts is what its stage returned; the sentinels come last; the GPU is
    given up only when nothing is left in flight; the loop ends. *)
From S2P Require Import Prelude Types Queues Channels World Source Worker.

(** ** Steps that leave part of the state alone *)

Section frame.
Context `{ObjOps} {U : Type} (env : environment) (cfg : config) (st : stage U).
Context (free_pool : prog U unit) (fuel : nat).
Local Abbreviation W := (world U).
Local Abbreviation WL := (W * locals)%type.
#[local] Instance frame_runtime : Runtime W := world_runtime env.
#[local] Instance frame_locals_runtime : Runtime (W * locals) := locals_runtime env.

(** The part of the state seen by [f] on actions and [g] on locals. *)
Context {X G : Type} (f : action → option X) (g : locals → G).
Definition seen (w : W) : list X := omap f (trace w).
Definition view (s : WL) : list X * G := (seen s.1, g s.2).

(** [f] ignores the action [a]. *)
Lemma act_view a : f a = None → keeps seen (act a).
Proof. intros Ha w. unfold seen. simpl. rewrite omap_app. simpl. by rewrite Ha, app_nil_r. Qed.

Lemma trace_view {Y} (c : prog W Y) : keeps trace c → keeps seen c.
Proof. intros Hc w. unfold seen. by rewrite Hc. Qed.

Lemma in_world_view {Y} (c : prog W Y) : keeps seen c → keeps view (in_world c).
Proof.
  intros Hc [w l]. unfold view, in_world, lift. specialize (Hc w).
  destruct (c w) as [r w']; simpl in *. by rewrite Hc.
Qed.

Lemma look_view {Y} (h : environment → nat → Y) : keeps view (look env h).
Proof. by apply in_world_view. Qed.

Lemma modify_view h : (∀ l, g (h l) = g l) → keeps view (modify h).
Proof. intros Hh [w l]. unfold view. simpl. by rewrite Hh. Qed.

Lemma get_view : keeps view get_obj.
Proof. by intros [w l]. Qed.

Lemma zoom_view {S Y} (get : locals → S) (put : S → locals → locals) (c : prog (W * S) Y) :
  (∀ s l, g (put s l) = g l) → keeps (λ s, seen s.1) c →
  keeps view (zoom (λ '(w, l), (w, get l)) (λ '(w, s) '(_, l), (w, put s l)) c).
Proof.
  intros Hput Hc. apply keeps_zoom. intros [w l]. specialize (Hc (w, get l)).
  destruct (c (w, get l)) as [r [w' s]]; simpl in *. unfold view; simpl. by rewrite Hput, Hc.
Qed.

Lemma lift_seen {S Y} (c : prog W Y) : keeps seen c → keeps (λ s : W * S, seen s.1) (lift c).
Proof.
  intros Hc [w l]. unfold lift. specialize (Hc w). by destruct (c w) as [r w'].
Qed.

Lemma sleep_seen d : f (Slept d) = None → keeps seen (sleep d).
Proof. apply act_view. Qed.

Lemma answer_seen {Y} (h : environment → nat → res Y) a :
  (∀ y, f (a y) = None) → keeps seen (answer env h a).
Proof.
  intros Ha w. unfold seen. rewrite answer_appends, omap_app.
  destruct (answer env h a w).1; simpl; rewrite ?Ha; apply app_nil_r.
Qed.

(** What the emitting path touches: puts, naps and the IPC flag. *)
Definition ignores_output : Prop :=
  (∀ m, f (PutOut m) = None) ∧ (∀ d, f (Slept d) = None) ∧ f SetIpc = None.

Lemma put_retry_seen m hook stall :
  ignores_output → (∀ h, hook = Some h → keeps seen h) →
  keeps seen (_put_retry fuel (out_queue env) m hook stall).
Proof.
  intros (Hput & Hsl & _) Hhook. apply put_retry_keeps; auto with pipe.
  - apply keeps_ret.
  - intros w put t [= <-]. simpl. by apply answer_seen.
  - by apply trace_view, now_keeps.
  - intros d. by apply sleep_seen.
Qed.

Lemma cuda_ready_trace : keeps trace (cuda_ready (U:=U) env).
Proof. apply keeps_bind; [done|]. by intros []. Qed.

Lemma release_seen : keeps seen (_release_pool_on_stall env free_pool).
Proof.
  apply trace_view, keeps_bind; [apply cuda_ready_trace|].
  intros []; [apply on_user_keeps|apply keeps_ret].
Qed.

(** Locals that only feed the statistics and the counters. *)
Definition ignores_stats : Prop := ∀ l,
  (∀ n, g (set_failures n l) = g l) ∧ (∀ n, g (set_ipc_left n l) = g l) ∧
  (∀ n, g (set_items n l) = g l) ∧ (∀ n, g (set_time n l) = g l).

Context (Hstats : ignores_stats).

Lemma stopping_view : keeps view (stopping env).
Proof. apply keeps_bind; [apply look_view|]. intros; apply keeps_ret. Qed.

Lemma add_items_view n : keeps view (add_items n).
Proof using Hstats. apply modify_view. intros l. apply Hstats. Qed.

Lemma add_time_view n : keeps view (add_time n).
Proof using Hstats. apply modify_view. intros l. apply Hstats. Qed.

Lemma set_empty_view n : (∀ n l, g (set_empty n l) = g l) → keeps view (modify (set_empty n)).
Proof. intros Hg. by apply modify_view. Qed.

Lemma count_empty_view :
  (∀ n l, g (set_empty n l) = g l) → keeps view (modify (λ l, set_empty (l_empty l + 1) l)).
Proof. intros Hg. by apply modify_view. Qed.

Context (Haudio : ∀ a l, g (set_audio a l) = g l).

Lemma add_audio_view v : keeps view (add_audio v).
Proof using Haudio.
  apply keeps_bind; [apply keeps_of_res|]. intros x.
  apply keeps_bind; [apply get_view|]. intros l.
  apply keeps_bind; [apply keeps_of_res|]. intros a.
  apply modify_view. intros l'. apply Haudio.
Qed.

Context (Htiming : ∀ t, f (SetTiming t) = None).

Lemma write_timing_view : keeps view (write_timing cfg).
Proof using Htiming.
  apply keeps_bind; [apply get_view|]. intros l. by apply in_world_view, act_view.
Qed.

Lemma write_timing_10_view : keeps view (write_timing_10 cfg).
Proof using Htiming.
  apply keeps_bind; [apply get_view|]. intros l. case_match; [apply write_timing_view|].
  apply keeps_ret.
Qed.

(** *** The emitting path, for what ignores it *)

Context (Hput : ignores_output) (Hout : ∀ c l, g (set_out c l) = g l).

Lemma oc_flush_seen : keeps (λ s, seen s.1) (oc_flush (out_queue env) (Some (_release_pool_on_stall env free_pool)) fuel).
Proof using Hput.
  apply keeps_bind; [by intros [w l]|]. intros ch. destruct (oc_pending ch); [apply keeps_ret|].
  apply keeps_bind; [by intros [w ?]|]. intros [].
  apply lift_seen, put_retry_seen; [done|]. intros h [= <-]. apply release_seen.
Qed.

Lemma now_seen : keeps (λ s : W * out_chan, seen s.1) (lift now).
Proof. apply lift_seen, trace_view, now_keeps. Qed.

Lemma oc_maybe_flush_seen : keeps (λ s, seen s.1)
  (oc_maybe_flush (out_queue env) (out_chunk_ms cfg) (Some (_release_pool_on_stall env free_pool)) fuel).
Proof using Hput.
  apply keeps_bind; [by intros [w l]|]. intros ch. destruct (oc_pending ch); [apply keeps_ret|].
  apply keeps_bind; [apply now_seen|]. intros n. case_match; [apply oc_flush_seen|apply keeps_ret].
Qed.

Lemma oc_send_seen v : keeps (λ s, seen s.1)
  (oc_send (out_queue env) (out_chunk cfg) (out_chunk_ms cfg)
     (Some (_release_pool_on_stall env free_pool)) fuel v).
Proof using Hput.
  unfold oc_send. case_match.
  { apply lift_seen, put_retry_seen; [done|]. intros h [= <-]. apply release_seen. }
  apply keeps_bind; [by intros [w l]|]. intros ch.
  apply keeps_bind.
  { destruct (oc_pending ch); [|apply keeps_ret].
    apply keeps_bind; [apply now_seen|]. by intros n [w l]. }
  intros []. apply keeps_bind; [by intros [w l]|]. intros ch'.
  apply keeps_bind; [by intros [w l]|]. intros [].
  apply keeps_bind; [by intros [w l]|]. intros ch2. case_match; [apply oc_flush_seen|].
  apply keeps_bind; [apply now_seen|]. intros n. case_match; [apply oc_flush_seen|apply keeps_ret].
Qed.

Lemma out_flush_view : keeps view (out_flush env free_pool fuel).
Proof using Hput Hout. apply zoom_view; [done|apply oc_flush_seen]. Qed.

Lemma out_maybe_flush_view : keeps view (out_maybe_flush env cfg free_pool fuel).
Proof using Hput Hout. apply zoom_view; [done|apply oc_maybe_flush_seen]. Qed.

Lemma ipc_check_view obj : f SetIpc = None → keeps view
  (let! l := get_obj in
   match l_ipc_left l with
   | O => ret tt
   | S n =>
       modify (set_ipc_left n) ;!
       let! loaded := look env e_torch in
       if _has_cuda_tensor loaded obj then
         in_world (act SetIpc) ;! modify (set_ipc_left 0)
       else ret tt
   end).
Proof using Hstats.
  intros Hipc.
  apply keeps_bind; [apply get_view|]. intros l. destruct (l_ipc_left l); [apply keeps_ret|].
  apply keeps_bind; [apply modify_view; intros l'; apply Hstats|]. intros [].
  apply keeps_bind; [apply look_view|]. intros loaded. case_match; [|apply keeps_ret].
  apply keeps_bind; [by apply in_world_view, act_view|]. intros [].
  apply modify_view. intros l'. apply Hstats.
Qed.

Lemma emit_view obj : keeps view (_emit env cfg free_pool fuel obj).
Proof using Hstats Hput Hout.
  intros s. unfold _emit. pose proof (ipc_check_view obj (proj2 (proj2 Hput)) s) as Hi.
  unfold bind at 1 2. unfold bind at 1 in Hi. destruct s as [w l]. simpl in *.
  set (c := match l_ipc_left l with O => _ | _ => _ end) in *. clearbody c.
  destruct (c (w, l)) as [[[]|e|] s1]; [|done..]. rewrite <-Hi. simpl.
  case_match; [|done]. apply zoom_view; [done|apply oc_send_seen].
Qed.

Lemma emit_all_view l : keeps view (emit_all env cfg free_pool fuel l).
Proof using Hstats Hput Hout. apply keeps_for_each, emit_view. Qed.

Lemma in_user_view {Y} (c : prog U Y) : keeps view (in_world (on_user c)).
Proof. apply in_world_view, trace_view, on_user_keeps. Qed.

Lemma now_view : keeps view (in_world now).
Proof. by apply in_world_view, trace_view, now_keeps. Qed.

Lemma nap_view d : keeps view (in_world (sleep d)).
Proof using Hput. apply in_world_view, sleep_seen, Hput. Qed.

Lemma stay_alive_view {Y} (y : Y) : keeps view (stay_alive env fuel y).
Proof using Hput.
  apply keeps_loop. intros _. apply keeps_bind; [apply stopping_view|].
  intros []; [apply keeps_ret|]. apply keeps_bind; [apply nap_view|]. intros; apply keeps_ret.
Qed.

Lemma emit_generator_view ys ending : keeps view (emit_generator env cfg free_pool fuel ys ending).
Proof using Hstats Hput Hout.
  induction ys as [|y ys IH]; simpl; [destruct ending; auto with pipe|].
  apply keeps_bind; [apply stopping_view|]. intros []; [apply keeps_ret|].
  apply keeps_bind; [case_match; [apply emit_view|apply keeps_ret]|]. auto.
Qed.

Lemma handle_result_view res n start t audio :
  keeps view (handle_result env cfg free_pool fuel res n start t audio).
Proof using Hstats Haudio Htiming Hput Hout.
  assert (keeps view (emit_all env cfg free_pool fuel [])) as _ by apply emit_all_view.
  pose proof (add_items_view n). pose proof add_time_view. pose proof add_audio_view.
  pose proof write_timing_10_view. pose proof now_view.
  unfold handle_result. destruct res as [g'|v].
  - apply keeps_bind; [apply emit_generator_view|]. intros []. case_match; auto 10 with pipe.
  - destruct v; try apply keeps_ret; (apply keeps_bind;
      [case_match; auto 12 with pipe|intros []; case_match; [apply emit_all_view|apply keeps_ret]]).
Qed.

Context (Hpark : ∀ v, f (SetPark v) = None).

Lemma set_park_view v : keeps view (in_world (act (SetPark v))).
Proof using Hpark. by apply in_world_view, act_view. Qed.

Lemma park_release_view : keeps view (park_release env cfg st free_pool fuel).
Proof using Hstats Hput Hout Hpark.
  apply keeps_bind.
  - apply keeps_try.
    + apply keeps_bind; [|intros; apply keeps_ret].
      destruct (st_on_park st); [apply in_user_view|]. apply in_world_view, keeps_raise.
    + intros e. case_match; [|apply keeps_raise].
      apply keeps_bind; [apply set_park_view|]. intros; apply keeps_ret.
  - intros [items|]; [|apply keeps_ret].
    apply keeps_bind; [apply emit_all_view|]. intros [].
    apply keeps_bind; [case_match; [apply out_flush_view|apply keeps_ret]|]. intros [].
    apply keeps_bind; [apply set_park_view|]. intros; apply keeps_ret.
Qed.

Lemma park_wait_view : keeps view (park_wait env st fuel).
Proof using Hput.
  pose proof stopping_view. apply keeps_bind.
  - apply keeps_loop. intros _. apply keeps_bind; [apply look_view|]. intros p.
    case_match; [|apply keeps_ret]. apply keeps_bind; [done|].
    intros []; [apply keeps_ret|]. apply keeps_bind; [apply nap_view|]. auto with pipe.
  - intros []. apply keeps_bind; [done|]. intros []; [apply keeps_ret|].
    apply keeps_try; [|intros e; case_match; auto with pipe].
    destruct (st_on_unpark st), (st_load st);
      first [apply in_user_view | apply in_world_view, keeps_ret].
Qed.

Lemma maybe_park_view : keeps view (_maybe_park env cfg st free_pool fuel).
Proof using Hstats Hput Hout Hpark.
  unfold _maybe_park. case_match; [apply keeps_ret|].
  apply keeps_bind; [apply look_view|]. intros p. case_match; [apply keeps_ret|].
  apply keeps_bind; [apply park_release_view|].
  intros []; [apply park_wait_view|apply keeps_ret].
Qed.
End frame.

(** ** What a middle worker receives is what it hands to its stage *)

(** An item that is neither of the two sentinels. *)
Definition is_real (v : py) : bool := negb (_is_end v) && negb (_is_worker_stop v).
Definition reals (l : list py) : list py := filter (λ v, is_real v = true) l.

(** The items a worker took off its queue, and those it called its stage on,
    according to its trace. *)
Definition received (tr : list action) : list py := carried (omap recv_msg tr).
Definition called_with (batch : Z) (a : action) : list py :=
  match a with
  | Called (Some x) =>
      if (0 <? batch)%Z then match x with PyList b => b | _ => [] end else [x]
  | _ => []
  end.
Definition handed (batch : Z) (tr : list action) : list py := tr ≫= called_with batch.

(** Everything real that was received has been handed to the stage, in order,
    or waits in the input buffer. *)
Definition balanced {U} (batch : Z) (s : world U * locals) : Prop :=
  ∃ b, l_in s.2 = Deque b ∧ WorkerStop ∉ b ∧
    reals (received (trace s.1)) = handed batch (trace s.1) ++ reals b.

(** The broker is up and nobody scales the stage down: reading the queue gives
    a message with something in it and no [WorkerStop], or [Empty]. *)
Definition reads_ok (env : environment) : Prop := ∀ t,
  match e_in env t with
  | Ok m => nonempty_msg m = true ∧ WorkerStop ∉ msg_items m
  | Raise e => e = Empty
  | Spin => False
  end.

Lemma reals_app l l' : reals (l ++ l') = reals l ++ reals l'.
Proof. apply filter_app. Qed.

Section inputs.
Context `{ObjOps} {U : Type} (env : environment) (cfg : config) (st : stage U).
Context (free_pool : prog U unit) (fuel : nat).
Local Abbreviation WL := (world U * locals)%type.
Local Abbreviation P X := (prog WL X).
#[local] Instance inputs_runtime : Runtime (world U) := world_runtime env.

Definition input_of (a : action) : option action :=
  match a with Received _ | Called _ => Some a | _ => None end.

(** The part of the state [balanced] is about. *)
Local Abbreviation inputs := (view (U:=U) input_of l_in).

Lemma received_seen (w w' : world U) :
  seen input_of w = seen input_of w' → received (trace w) = received (trace w').
Proof.
  unfold seen, received. intros E. f_equal.
  assert (∀ tr : list action, omap recv_msg tr = omap recv_msg (omap (M:=list) input_of tr)) as Hf.
  { intros tr. induction tr as [|a tr IH]; [done|]. destruct a; try exact IH. exact (f_equal (cons m) IH). }
  by rewrite (Hf (trace w)), (Hf (trace w')), E.
Qed.

Lemma handed_seen batch (w w' : world U) :
  seen input_of w = seen input_of w' → handed batch (trace w) = handed batch (trace w').
Proof.
  unfold seen, handed. intros E.
  assert (∀ tr : list action, tr ≫= called_with batch = omap (M:=list) input_of tr ≫= called_with batch) as Hf.
  { intros tr. induction tr as [|a tr IH]; [done|].
    destruct a; try exact IH. exact (f_equal (app (called_with batch (Called arg))) IH). }
  by rewrite (Hf (trace w)), (Hf (trace w')), E.
Qed.

Lemma balanced_view batch (s s' : WL) : inputs s' = inputs s → balanced batch s → balanced batch s'.
Proof.
  unfold view, balanced. intros [= Hs Hl] (b & Hb & Hn & Hr). exists b. rewrite Hl. split_and!; [done..|].
  by rewrite (received_seen _ _ Hs), (handed_seen _ _ _ Hs).
Qed.

Lemma input_ignores_output : ignores_output input_of.
Proof. done. Qed.
Lemma input_ignores_stats : ignores_stats l_in.
Proof. done. Qed.

(** [c] leaves the balance as it is. *)
Definition level {X} (c : P X) : Prop := keeps inputs c.

Lemma level_ret {X} (x : X) : level (ret x).
Proof. apply keeps_ret. Qed.
Lemma level_raise {X} e : level (raise (X:=X) e).
Proof. apply keeps_raise. Qed.
Lemma level_bind {X Y} (c : P X) (k : X → P Y) :
  level c → (∀ x, level (k x)) → level (bind c k).
Proof. apply keeps_bind. Qed.
Lemma level_act a : input_of a = None → level (in_world (act a)).
Proof. intros Ha. by apply in_world_view, act_view. Qed.
Lemma level_now : level (in_world now).
Proof. apply now_view. Qed.
Lemma level_look {Y} (h : environment → nat → Y) : level (look env h).
Proof. apply look_view. Qed.
Lemma level_stopping : level (stopping env).
Proof. apply stopping_view. Qed.
Lemma level_flush : level (out_flush env free_pool fuel).
Proof. by apply out_flush_view. Qed.
Lemma level_maybe_flush : level (out_maybe_flush env cfg free_pool fuel).
Proof. by apply out_maybe_flush_view. Qed.
Lemma level_handle_result res n start t audio :
  level (handle_result env cfg free_pool fuel res n start t audio).
Proof. by apply handle_result_view. Qed.
Lemma level_maybe_park : level (_maybe_park env cfg st free_pool fuel).
Proof. by apply maybe_park_view. Qed.
Hint Resolve level_ret level_raise level_bind level_act level_now level_look level_stopping
  level_flush level_maybe_flush level_handle_result level_maybe_park : core.

(** Sequencing: a level step keeps the invariant [I] on the inputs. *)
Lemma wp_level {X Y} (c : P X) (k : X → P Y) (Q : res Y → WL → Prop) s :
  level c → (∀ s', inputs s' = inputs s → (∀ e, Q (Raise e) s') ∧ Q Spin s') →
  (∀ x s', inputs s' = inputs s → wp (k x) Q s') →
  wp (bind c k) Q s.
Proof. apply wp_bind_keeps. Qed.

(** Between taking [taken] off the channel and the call. *)
Definition taken_from (batch : Z) (taken : list py) (s : WL) : Prop :=
  ∃ b, l_in s.2 = Deque b ∧ WorkerStop ∉ b ∧
    reals (received (trace s.1)) = handed batch (trace s.1) ++ reals taken ++ reals b.

Lemma taken_view batch taken (s s' : WL) :
  inputs s' = inputs s → taken_from batch taken s → taken_from batch taken s'.
Proof.
  unfold view, taken_from. intros [= Hs Hl] (b & Hb & Hn & Hr). exists b. rewrite Hl. split_and!; [done..|].
  by rewrite (received_seen _ _ Hs), (handed_seen _ _ _ Hs).
Qed.

Lemma taken_nil batch s : taken_from batch [] s ↔ balanced batch s.
Proof. done. Qed.

Context (Hreads : reads_ok env).

(** One [get]: an item, which is never [WorkerStop], or [Empty] on an empty
    buffer. *)
Lemma get_spec batch taken timeout s :
  taken_from batch taken s →
  wp (on_in (ic_get (in_queue env) timeout))
     (λ r s', match r with
              | Ok v => v ≠ WorkerStop ∧ taken_from batch (taken ++ [v]) s'
              | Raise e => e = Empty ∧ l_in s'.2 = Deque [] ∧ l_in s.2 = Deque [] ∧
                           l_empty s'.2 = l_empty s.2 ∧ taken_from batch taken s'
              | Spin => False
              end) s.
Proof using Hreads.
  destruct s as [w [i o fl ipc it ti au em]]. intros (b & Hb & Hn & Hr). simpl in *. subst i.
  unfold wp, on_in, zoom, ic_get, ic_receive, bind, get_obj. simpl.
  destruct b as [|v b]; simpl.
  - unfold answer, bind, observe, of_res, act, ret, lift. simpl. specialize (Hreads (tick w)).
    destruct (e_in env (tick w)) as [m|e|]; simpl; [|subst e|done].
    2: { split_and!; [done..|]. by exists []. }
    destruct Hreads as [Hne Hws].
    assert (∀ v0 b', msg_items m = v0 :: b' →
      v0 ≠ WorkerStop ∧ taken_from batch (taken ++ [v0])
        (World (S (S (tick w))) (trace w ++ [Received m]) (user w),
         Locals (Deque b') o fl ipc it ti au em)) as Hgot.
    { intros v0 b' Hm. rewrite Hm in Hws. apply not_elem_of_cons in Hws as [? ?].
      split; [congruence|]. exists b'. simpl. split_and!; [done..|].
      unfold received, handed in *. rewrite omap_app, bind_app, carried_app, reals_app, Hr.
      simpl. rewrite !app_nil_r, Hm. rewrite <-!app_assoc. f_equal. rewrite <-reals_app.
      by rewrite <-!reals_app, <-app_assoc. }
    destruct m as [v|[|v items]]; [|done|]; simpl; by apply Hgot.
  - apply not_elem_of_cons in Hn as [? ?]. split; [congruence|]. exists b. simpl.
    split_and!; [done..|]. rewrite Hr, <-!reals_app, <-app_assoc. done.
Qed.


(** Steps that always go on. *)
Lemma wp_modify h (Q : res unit → WL → Prop) w l : Q (Ok tt) (w, h l) → wp (modify h) Q (w, l).
Proof. done. Qed.

Lemma wp_look {Y} (h : environment → nat → Y) (Q : res Y → WL → Prop) w l :
  Q (Ok (h env (tick w))) (World (S (tick w)) (trace w) (user w), l) →
  wp (look env h) Q (w, l).
Proof. done. Qed.

Lemma wp_now (Q : res Z → WL → Prop) w l :
  (∀ n, Q (Ok n) (World (S (tick w)) (trace w) (user w), l)) → wp (in_world now) Q (w, l).
Proof. intros HQ. apply HQ. Qed.

Lemma next_item_spec batch s :
  balanced batch s →
  wp (next_item env cfg)
     (λ r s', match r with
              | Ok (inl v) => v ≠ WorkerStop ∧ taken_from batch [v] s'
              | Ok (inr t) => balanced batch s' ∧ t ≠ Return ∧
                  (t = Break → l_in s'.2 = Deque [] ∧ has_upstream cfg = true ∧
                               (empty_threshold cfg ≤ l_empty s'.2)%Z)
              | _ => False
              end) s.
Proof using Hreads.
  intros Hb. apply wp_try, wp_bind. eapply wp_mono; [by apply (get_spec batch [])|].
  intros [v|e|] [w1 l1]; [|intros (-> & He & _ & _ & Hb1)|done]; simpl.
  - intros [Hv Ht]. apply wp_bind, wp_modify, wp_ret. split; [done|].
    by eapply taken_view; [|exact Ht].
  - apply wp_bind, wp_modify, wp_bind, wp_get_obj. simpl in *.
    apply wp_bind. assert (∀ w' l', inputs (w', l') = inputs (w1, l1) → balanced batch (w', l')) as Hkeep.
    { intros w' l' E. by eapply balanced_view. }
    destruct (has_upstream cfg).
    + apply wp_look. set (y := e_upstream_done env _). clearbody y. apply wp_ret. split; [by apply Hkeep|].
      destruct y, (_ <=? _)%Z eqn:Hle; simpl; boolify; split; try done.
    + apply wp_ret, wp_ret. split; [by apply Hkeep|]. done.
Qed.

Lemma gather_spec batch item s :
  is_real item = true → taken_from batch [item] s →
  wp (gather env cfg fuel item)
     (λ r s', match r with
              | Ok items => Forall (λ v, is_real v = true) items ∧ taken_from batch items s'
              | Raise _ => False
              | Spin => True
              end) s.
Proof using Hreads.
  intros Hreal Ht. destruct s as [w l]. apply wp_bind, wp_now. intros t0.
  apply (wp_loop (λ items s, Forall (λ v, is_real v = true) items ∧ taken_from batch items s)).
  { split; [by constructor|]. by eapply taken_view; [|exact Ht]. }
  { done. }
  clear w l Ht. intros items [w l] [Hall Ht]. case_match; [|by apply wp_ret].
  apply wp_bind, wp_now. intros t1. cbv zeta; case_match.
  { apply wp_ret. split; [done|]. by eapply taken_view; [|exact Ht]. }
  apply wp_bind, wp_try, wp_bind. eapply wp_mono; [apply get_spec; by eapply taken_view; [|exact Ht]|].
  intros [v|e|] [w2 l2]; [|intros (-> & _ & _ & _ & Ht2)|done]; simpl.
  - intros [Hv Ht2]. apply wp_ret. assert (_is_worker_stop v = false) as ->.
    { destruct v as [|[]| | | | | | | |]; done. }
    apply wp_ret. destruct (_is_end v) eqn:Hend.
    + split; [done|]. destruct Ht2 as (b & ? & ? & Hr). exists b. split_and!; [done..|].
      rewrite Hr, reals_app. destruct v as [|[]| | | | | | | |]; try done.
      change (reals [PySent END]) with (@nil py). by rewrite app_nil_r.
    + split; [|done]. apply Forall_app. split; [done|]. constructor; [|done].
      unfold is_real. rewrite Hend. by destruct v as [|[]| | | | | | | |].
  - apply wp_ret, wp_bind, wp_now. intros t2. apply wp_ret.
    simpl. destruct (_ <=? t2)%Z; (split; [done|by eapply taken_view; [|exact Ht2]]).
Qed.

Lemma reals_all l : Forall (λ v, is_real v = true) l → reals l = l.
Proof. apply filter_all. Qed.

(** The call itself settles what was taken. *)
Lemma called_balanced taken arg s :
  Forall (λ v, is_real v = true) taken → called_with (batch_size cfg) (Called (Some arg)) = taken →
  taken_from (batch_size cfg) taken s →
  wp (in_world (_timed_call env (has_busy cfg) (st_call st) (Some arg)))
     (λ _ s', balanced (batch_size cfg) s') s.
Proof.
  intros Hall Harg (b & Hb & Hn & Hr). destruct s as [w l].
  assert (∀ w' : world U, seen input_of w' = seen input_of w ++ [Called (Some arg)] →
    balanced (batch_size cfg) (w', l)) as Hdone.
  { intros w' Hs. exists b. split_and!; [done..|]. simpl in *.
    rewrite <-(received_seen (World (tick w) (trace w ++ [Called (Some arg)]) (user w)) w'),
      <-(handed_seen _ (World (tick w) (trace w ++ [Called (Some arg)]) (user w)) w');
      [|rewrite Hs; unfold seen; simpl; by rewrite omap_app..].
    simpl. unfold received, handed in *. rewrite omap_app, bind_app, app_nil_r. simpl.
    rewrite Hr, app_nil_r, <-Harg, app_assoc. rewrite Harg at 2. simpl in Harg. rewrite Harg.
    by rewrite (reals_all taken). }
  unfold wp, in_world, lift.
  enough (seen input_of (_timed_call env (has_busy cfg) (st_call st) (Some arg) w).2 =
          seen input_of w ++ [Called (Some arg)]) as Hs.
  { destruct (_timed_call _ _ _ _ w). by apply Hdone. }
  unfold _timed_call, seen. destruct (has_busy cfg); unfold bind, try_finally, on_user; simpl.
  - destruct (st_call st (Some arg) (user w)) as [[]]; simpl; rewrite !omap_app; simpl;
      by rewrite ?app_nil_r.
  - destruct (st_call st (Some arg) (user w)) as [[]]; simpl; rewrite !omap_app; simpl;
      by rewrite ?app_nil_r.
Qed.

(** Where a turn may end: everything taken is settled, unless it ran out of
    fuel half-way. *)
Definition settled {Y} (ok : Y → WL → Prop) (r : res Y) (s : WL) : Prop :=
  match r with
  | Ok y => balanced (batch_size cfg) s ∧ ok y s
  | Raise _ => balanced (batch_size cfg) s
  | Spin => True
  end.

Lemma settled_level {X Y} (c : P X) (k : X → P Y) ok s :
  level c → balanced (batch_size cfg) s →
  (∀ x s', balanced (batch_size cfg) s' → wp (k x) (settled ok) s') →
  wp (bind c k) (settled ok) s.
Proof.
  intros Hc Hb Hk. apply wp_level; [done| |].
  - intros s' Hs. split; [|done]. intros e. by eapply balanced_view.
  - intros x s' Hs. by eapply Hk, balanced_view.
Qed.

(** After the call: the result is dealt with. *)
Lemma after_call_settled (audio : res py) (k : py → Z → P unit) s :
  (∀ a t, level (k a t)) → balanced (batch_size cfg) s →
  wp (let! t := in_world now in
      let! a := of_res audio in
      k a t ;! ret Continue) (settled (λ t _, t = Continue)) s.
Proof.
  intros Hk Hb. apply settled_level; [done|done|]. intros t s1 Hb1.
  apply settled_level; [apply keeps_of_res|done|]. intros a s2 Hb2.
  apply settled_level; [apply Hk|done|]. intros [] s3 Hb3. by apply wp_ret.
Qed.

Lemma stage_item_settled item s :
  item ≠ WorkerStop → taken_from (batch_size cfg) [item] s →
  wp (stage_item env cfg st free_pool fuel item) (settled (λ t _, t = Continue)) s.
Proof using Hreads.
  intros Hws Ht. unfold stage_item.
  assert (_is_worker_stop item = false) as Hstop by (by destruct item as [|[]| | | | | | | |]).
  rewrite Hstop. destruct (_is_end item) eqn:Hend.
  { apply wp_ret. split; [|done]. destruct Ht as (b & ? & ? & Hr). exists b. split_and!; [done..|].
    rewrite Hr. by destruct item as [|[]| | | | | | | |]. }
  assert (is_real item = true) as Hreal by (unfold is_real; by rewrite Hend, Hstop).
  destruct (0 <? batch_size cfg)%Z eqn:Hbatch.
  - apply wp_bind. eapply wp_mono; [by apply gather_spec|].
    intros [items|e|] [w1 l1]; [|done..]. intros [Hall Ht1].
    apply wp_bind, wp_now. intros t0. apply wp_bind.
    eapply wp_mono; [apply (called_balanced items); [done| |by eapply taken_view; [|exact Ht1]]|].
    { simpl. by rewrite Hbatch. }
    intros [res|e|] s2 Hb2; [|done..].
    apply (after_call_settled _ (λ a t, handle_result env cfg free_pool fuel res _ t0 (t - t0) a)); auto.
  - destruct s as [w l]. apply wp_bind, wp_now. intros t0. apply wp_bind.
    eapply wp_mono; [apply (called_balanced [item]); [by constructor| |by eapply taken_view; [|exact Ht]]|].
    { simpl. by rewrite Hbatch. }
    intros [res|e|] s2 Hb2; [|done..].
    apply (after_call_settled _ (λ a t, handle_result env cfg free_pool fuel res _ t0 (t - t0) a)); auto.
Qed.

(** The exits of the main loop: told to stop or drain, or dried up. *)
Definition dried_up (s : WL) : Prop :=
  l_in s.2 = Deque [] ∧ has_upstream cfg = true ∧ (empty_threshold cfg ≤ l_empty s.2)%Z.

Lemma stage_turn_settled s :
  balanced (batch_size cfg) s →
  wp (stage_turn env cfg st free_pool fuel)
     (settled (λ t s', t ≠ Return ∧ (t = Break → dried_up s'))) s.
Proof using Hreads.
  intros Hb. apply wp_bind. eapply wp_mono; [by apply next_item_spec|].
  intros [[v|t]|e|] s1; [|intros (? & ? & ?)|done..].
  - intros [Hv Ht]. eapply wp_mono; [by apply stage_item_settled|].
    intros [t|e|] s2; simpl; [intros [? ->]|done..]. naive_solver.
  - by apply wp_ret.
Qed.

(** Why the main loop may end. *)
Definition exit_reason (s : WL) : Prop :=
  dried_up s ∨ (∃ n, e_should_stop env n ≠ 0%Z) ∨ (∃ n, e_drain env n = true) ∨
  SetStop 2 ∈ trace s.1.

Definition turn_ok (t : turn) (s : WL) : Prop := t ≠ Return ∧ (t = Break → exit_reason s).

Lemma turn_body_settled s :
  is_root cfg = false → balanced (batch_size cfg) s →
  wp (let! stop := look env e_should_stop in
      if (stop =? 1)%Z then ret Break
      else
        _maybe_park env cfg st free_pool fuel ;!
        let! draining :=
          if negb (drain cfg) && has_drain_event cfg then look env e_drain else ret false in
        if draining : bool then ret Break
        else if is_root cfg then root_turn env cfg st free_pool fuel
             else stage_turn env cfg st free_pool fuel)
     (settled turn_ok) s.
Proof using Hreads.
  intros Hroot Hb. rewrite Hroot.
  apply wp_bind. destruct s as [w l]. unfold wp at 1. simpl.
  set (w1 := World (S (tick w)) (trace w) (user w)).
  assert (balanced (batch_size cfg) (w1, l)) as Hb1 by (by eapply balanced_view; [|exact Hb]).
  case_match eqn:Hstop; boolify.
  { apply wp_ret. split; [done|]. split; [done|]. intros _. right; left. exists (tick w). lia. }
  apply settled_level; [auto|done|]. intros [] [w2 l2] Hb2.
  apply wp_bind. destruct (negb (drain cfg) && has_drain_event cfg).
  - unfold wp at 1. simpl. set (w3 := World (S (tick w2)) (trace w2) (user w2)).
    assert (balanced (batch_size cfg) (w3, l2)) as Hb3 by (by eapply balanced_view; [|exact Hb2]).
    destruct (e_drain env (tick w2)) eqn:Hdrain.
    + apply wp_ret. split; [done|]. split; [done|]. intros _. right; right; left. eauto.
    + eapply wp_mono; [by apply stage_turn_settled|].
      intros [t|e|] s4; simpl; [|done..]. unfold turn_ok, exit_reason. naive_solver.
  - apply wp_ret. eapply wp_mono; [by apply stage_turn_settled|].
    intros [t|e|] s4; simpl; [|done..]. unfold turn_ok, exit_reason. naive_solver.
Qed.

Lemma worker_turn_settled s :
  is_root cfg = false → balanced (batch_size cfg) s →
  wp (worker_turn env cfg st free_pool fuel) (settled turn_ok) s.
Proof using Hreads.
  intros Hroot Hb. apply settled_level; [case_match; auto|done|]. intros [] s1 Hb1.
  apply wp_try. eapply wp_mono; [by apply turn_body_settled|].
  intros [t|e|] [w2 l2] Hs; [done| |done]. simpl in Hs.
  destruct (is_connection_error e).
  - apply wp_bind. unfold wp. simpl.
    split; [by eapply balanced_view; [exact (level_act (SetStop 2) eq_refl (w2, l2))|exact Hs]|].
    split; [done|]. intros _. right; right; right. simpl. apply elem_of_app. right. by left.
  - destruct (is_exception e); [destruct (raise_errors cfg)|]; simpl; [done| |done].
    by apply wp_ret.
Qed.

Lemma main_loop_settled turns s :
  is_root cfg = false → balanced (batch_size cfg) s →
  wp (main_loop env cfg st free_pool fuel turns) (settled turn_ok) s.
Proof using Hreads.
  intros Hroot Hb. apply (wp_loop (λ _ s, balanced (batch_size cfg) s)); [done|done|].
  clear s Hb. intros _ [w l] Hb. unfold stopping.
  apply wp_bind, wp_bind, wp_look, wp_ret.
  assert (∀ n, balanced (batch_size cfg) (World n (trace w) (user w), l)) as Hb1.
  { intros n. by eapply balanced_view; [|exact Hb]. }
  destruct (_ =? 0)%Z eqn:Hv; simpl; boolify.
  2: { apply wp_ret. split; [apply Hb1|]. split; [done|]. intros _. right; left. eauto. }
  apply wp_bind. eapply wp_mono; [by apply worker_turn_settled; auto|].
  intros [[]|e|] s2; simpl; [intros [? ?]; by apply wp_ret..|done|done].
Qed.
End inputs.

(** ** What a middle worker puts is what its stage returned *)

(** The stage as a function of what it is called on. *)
Definition computes {U} (st : stage U) (f : py → res result) : Prop :=
  (∀ x u, (st_call st (Some x) u).1 = f x) ∧ ∀ x, f x ≠ Spin.

(** What a worker called its stage on, and what it put or will put. *)
Definition call_arg (a : action) : option py :=
  match a with Called (Some x) => Some x | _ => None end.
Definition calls (tr : list action) : list py := omap call_arg tr.
Definition emitted {U} (s : world U * locals) : list py :=
  carried (omap out_msg (trace s.1)) ++ oc_pending (l_out s.2).

(** The downstream queue accepts what it is given, sooner or later. *)
Definition puts_ok (env : environment) : Prop :=
  ∀ t, e_out_put env t = Ok tt ∨ e_out_put env t = Raise Full.

Section outputs.
Context `{ObjOps} {U : Type} (env : environment) (cfg : config) (st : stage U).
Context (free_pool : prog U unit) (fuel : nat).
Local Abbreviation WL := (world U * locals)%type.
Local Abbreviation P X := (prog WL X).
#[local] Instance outputs_runtime : Runtime (world U) := world_runtime env.

(** The input to [numeric]: the audio duration the worker computes from the
    argument of a call. *)
Definition input_audio (x : py) : res py :=
  if (0 <? batch_size cfg)%Z then match x with PyList b => batch_audio b | _ => Ok (PyNum 0) end
  else extract_audio_duration x.

(** The durations of what the stage accepts and returns are numbers. *)
Definition numeric (f : py → res result) : Prop := ∀ x r, f x = Ok r →
  (∃ n, input_audio x = Ok (PyNum n)) ∧
  match r with
  | RVal v => ∃ n, extract_audio_duration (PyList (as_list v)) = Ok (PyNum n)
  | RGen _ => True
  end.

Context (f : py → res result) (Hf : computes st f) (Hnum : numeric f).
Context (Hputs : puts_ok env) (Hstop : ∀ t, e_should_stop env t = 0%Z).
Context (Hfree : calm free_pool).
Context (Hpark : has_park cfg = false) (Hout : has_out cfg = true).

Definition output_of (a : action) : option action :=
  match a with PutOut _ | Called _ => Some a | _ => None end.
Definition output_locals (l : locals) : out_chan * py := (l_out l, l_audio l).
Local Abbreviation outputs := (view (U:=U) output_of output_locals).

(** The invariant: everything the stage returned has been emitted, in order,
    but for [rest], what is still to come of the call in progress. *)
Definition mapped (rest : list py) (s : WL) : Prop :=
  oc_bounded (out_chunk cfg) (l_out s.2) ∧ (∃ n, l_audio s.2 = PyNum n) ∧
  emitted s ++ rest = calls (trace s.1) ≫= λ x, result_items (f x).

Lemma emitted_seen (s s' : WL) : outputs s' = outputs s → emitted s' = emitted s.
Proof.
  unfold view, emitted, output_locals. intros E. injection E as Hs Ho _. rewrite Ho. do 2 f_equal.
  assert (∀ tr : list action, omap out_msg tr = omap out_msg (omap (M:=list) output_of tr)) as Hom.
  { intros tr. induction tr as [|a tr IH]; [done|]. destruct a; try exact IH.
    exact (f_equal (cons m) IH). }
  rewrite (Hom (trace s'.1)), (Hom (trace s.1)). unfold seen in Hs. by rewrite Hs.
Qed.

Lemma calls_seen (s s' : WL) : outputs s' = outputs s → calls (trace s'.1) = calls (trace s.1).
Proof.
  unfold view, calls. intros E. injection E as Hs _ _.
  assert (∀ tr : list action, omap call_arg tr = omap call_arg (omap (M:=list) output_of tr)) as Hom.
  { intros tr. induction tr as [|a tr IH]; [done|]. destruct a; try exact IH.
    destruct arg; [exact (f_equal (cons _) IH)|exact IH]. }
  rewrite (Hom (trace s'.1)), (Hom (trace s.1)). unfold seen in Hs. by rewrite Hs.
Qed.

Lemma mapped_view rest (s s' : WL) : outputs s' = outputs s → mapped rest s → mapped rest s'.
Proof.
  intros E (Hb & Hn & He). pose proof E as E2. unfold view, output_locals in E2.
  injection E2 as _ Ho Ha. unfold mapped. rewrite (emitted_seen s s' E), (calls_seen s s' E), Ho, Ha.
  done.
Qed.

(** The output channel never raises. *)
Lemma put_retry_out_calm m : calm
  (_put_retry fuel (out_queue env) m (Some (_release_pool_on_stall env free_pool)) (seconds 2)).
Proof using Hputs Hfree.
  apply put_retry_calm; try done.
  - intros t w e. simpl. unfold answer, bind, observe, of_res. simpl.
    destruct (Hputs (tick w)) as [-> | ->]; simpl; naive_solver.
  - intros hook [= <-]. apply calm_bind.
    + apply calm_bind; [done|]. by intros [].
    + intros []; [|done]. intros w e. unfold on_user. specialize (Hfree (user w) e).
      by destruct (free_pool (user w)).
Qed.

Lemma oc_flush_calm : calm
  (oc_flush (out_queue env) (Some (_release_pool_on_stall env free_pool)) fuel).
Proof using Hputs Hfree.
  apply calm_bind; [by intros []|]. intros ch. destruct (oc_pending ch); [done|].
  apply calm_bind; [by intros []|]. intros []. apply calm_lift, put_retry_out_calm.
Qed.

Lemma oc_send_calm v : calm
  (oc_send (out_queue env) (out_chunk cfg) (out_chunk_ms cfg)
     (Some (_release_pool_on_stall env free_pool)) fuel v).
Proof using Hputs Hfree.
  assert (calm (W:=world U * out_chan) get_obj) by (by intros []).
  assert (∀ c, calm (W:=world U * out_chan) (put_obj c)) by (by intros ? []).
  assert (calm (lift (W:=world U) (S:=out_chan) now)) by (by apply calm_lift).
  pose proof oc_flush_calm.
  unfold oc_send. case_match; [apply calm_lift, put_retry_out_calm|].
  apply calm_bind; [done|]. intros ch.
  apply calm_bind; [destruct (oc_pending ch); auto with pipe|]. intros [].
  apply calm_bind; [done|]. intros ch'. apply calm_bind; [done|]. intros [].
  apply calm_bind; [done|]. intros ch2. case_match; auto with pipe.
  apply calm_bind; [done|]. intros n. case_match; auto with pipe.
Qed.

Lemma stall_hook_quiet : quiet (out_queue env) (Some (_release_pool_on_stall env free_pool)).
Proof.
  intros hook [= <-] w. apply pair_eq. split; [|done]. apply (release_seen env free_pool out_msg).
Qed.

(** A method of the output channel inside the worker. *)
Lemma on_out_wp (c : prog (world U * out_chan) unit) (Q : res unit → WL → Prop) w l :
  wp c (λ r s, Q r (s.1, set_out s.2 l)) (w, l_out l) → wp (on_out c) Q (w, l).
Proof. intros Hc. apply wp_zoom. eapply wp_mono; [exact Hc|]. by intros r [w' ch]. Qed.

(** [items] more have been emitted; the calls and the statistics are as they
    were. *)
Definition emits (items : list py) (s s' : WL) : Prop :=
  oc_bounded (out_chunk cfg) (l_out s'.2) ∧ emitted s' = emitted s ++ items ∧
  calls (trace s'.1) = calls (trace s.1) ∧ l_audio s'.2 = l_audio s.2.

Lemma emits_mapped items rest s s' :
  emits items s s' → mapped (items ++ rest) s → mapped rest s'.
Proof.
  intros (Hb & He & Hc & Ha) (_ & Hn & Hm). unfold mapped. rewrite He, Hc, Ha.
  by rewrite <-app_assoc.
Qed.

Lemma emits_trans l1 l2 s1 s2 s3 : emits l1 s1 s2 → emits l2 s2 s3 → emits (l1 ++ l2) s1 s3.
Proof.
  intros (_ & E1 & C1 & A1) (B2 & E2 & C2 & A2). unfold emits.
  by rewrite E2, E1, C2, C1, A2, A1, app_assoc.
Qed.

(** What a channel method emits, from what it puts. *)
Lemma sends_emits items w l r s :
  calls (trace s.1) = calls (trace w) →
  sends (out_queue env) (out_chunk cfg) w (oc_pending (l_out l) ++ items) r s →
  r = Ok tt → emits items (w, l) (s.1, set_out s.2 l).
Proof.
  intros Hc (Hb2 & ms & [Hs _] & _ & Hr) ->. unfold emits, emitted in *. simpl in *.
  split_and!; [done| |done..]. unfold sent_on in Hs. rewrite Hs, carried_app, <-!app_assoc.
  f_equal. done.
Qed.

(** One item emitted. *)
Lemma emit_emits v s :
  oc_bounded (out_chunk cfg) (l_out s.2) →
  wp (_emit env cfg free_pool fuel v)
     (λ r s', match r with
              | Ok _ => emits [v] s s'
              | Raise _ => False
              | Spin => True
              end) s.
Proof using Hputs Hfree Hout.
  intros Hb. unfold _emit. rewrite Hout.
  pose proof (ipc_check_view env output_of output_locals (λ l, ltac:(done)) v eq_refl s) as Hi.
  destruct s as [w l]. apply wp_bind, wp_get_obj. unfold bind at 1 in Hi. simpl in Hi.
  set (c := match l_ipc_left l with O => _ | _ => _ end) in *.
  assert (calm c) as Hc.
  { unfold c. destruct (l_ipc_left l); [done|]. apply calm_bind; [by intros []|]. intros [].
    apply calm_bind; [by intros []|]. intros y. case_match; [|done].
    apply calm_bind; [by intros []|]. by intros [] []. }
  clearbody c. specialize (Hc (w, l)).
  apply wp_bind. unfold wp at 1. destruct (c (w, l)) as [[[]|e|] [w1 l1]]; simpl in *; [|by edestruct Hc|done].
  assert (emits [] (w, l) (w1, l1)) as Hm1.
  { pose proof (emitted_seen _ _ Hi) as E1. pose proof (calls_seen _ _ Hi) as E2.
    unfold view, output_locals in Hi. simpl in Hi. injection Hi as _ Ho Ha. unfold emits.
    rewrite E1, E2, app_nil_r. simpl. by rewrite Ho, Ha. }
  apply on_out_wp. pose proof (oc_send_calm v (w1, l_out l1)) as Hcalm.
  pose proof (oc_send_seen env cfg free_pool fuel call_arg ltac:(done) v (w1, l_out l1)) as Hcalls.
  pose proof (oc_send_sends (out_queue env) (out_chunk cfg) (out_chunk_ms cfg) _ fuel
                stall_hook_quiet v w1 (l_out l1) (proj1 Hm1)) as Hs.
  unfold wp in *. destruct (oc_send _ _ _ _ _ _ _) as [[[]|e|] [w2 ch2]]; simpl in *;
    [|by edestruct Hcalm|done].
  eapply (emits_trans [] [v]); [done|].
  by apply (sends_emits [v] w1 l1 (Ok tt) (w2, ch2)).
Qed.

Lemma emit_mapped rest v s :
  mapped (v :: rest) s →
  wp (_emit env cfg free_pool fuel v)
     (λ r s', match r with
              | Ok _ => mapped rest s'
              | Raise _ => False
              | Spin => True
              end) s.
Proof using Hputs Hfree Hout.
  intros Hm. eapply wp_mono; [apply emit_emits, Hm|].
  intros [[]|e|] s'; [|done..]. intros He. by eapply (emits_mapped [v]).
Qed.

Lemma emit_all_emits items s :
  oc_bounded (out_chunk cfg) (l_out s.2) →
  wp (emit_all env cfg free_pool fuel items)
     (λ r s', match r with Ok _ => emits items s s' | Raise _ => False | Spin => True end) s.
Proof using Hputs Hfree Hout.
  intros Hb. apply (wp_for_each (λ todo s', ∃ done, emits done s s' ∧ items = done ++ todo)).
  - exists []. split; [|done]. split_and!; [done|by rewrite app_nil_r|done..].
  - intros s' (done & He & ->). by rewrite app_nil_r.
  - intros x xs s1 (done & He & ->). eapply wp_mono; [apply emit_emits, He|].
    intros [[]|e|] s2; [|done..]. intros He2. exists (done ++ [x]).
    split; [by eapply emits_trans|]. by rewrite <-app_assoc.
Qed.

(** The outcomes that leave [rest] to emit. *)
Definition left_with {Y} (rest : list py) (r : res Y) (s : WL) : Prop :=
  match r with Ok _ => mapped rest s | Raise _ => False | Spin => True end.

Lemma emit_all_mapped rest items s :
  mapped (items ++ rest) s →
  wp (emit_all env cfg free_pool fuel items) (left_with rest) s.
Proof using Hputs Hfree Hout.
  intros Hm. eapply wp_mono; [apply emit_all_emits, Hm|].
  intros [[]|e|] s'; [|done..]. intros He. by eapply emits_mapped.
Qed.

Lemma emit_generator_mapped ys ending s :
  mapped (valid_items ys) s →
  wp (emit_generator env cfg free_pool fuel ys ending)
     (λ r s', match r with
              | Ok _ => ending = None ∧ mapped [] s'
              | Raise e => ending = Some e ∧ mapped [] s'
              | Spin => True
              end) s.
Proof using Hputs Hfree Hout Hstop.
  revert s. induction ys as [|y ys IH]; intros [w l] Hm; simpl; [by destruct ending|].
  unfold stopping. apply wp_bind, wp_bind, wp_look, wp_ret. rewrite Hstop. simpl.
  set (w1 := World (S (tick w)) (trace w) (user w)).
  assert (mapped (valid_items (y :: ys)) (w1, l)) as Hm1 by (by eapply mapped_view; [|exact Hm]).
  clearbody w1. unfold valid_items in Hm1. rewrite filter_cons in Hm1. rewrite Hout.
  destruct (is_valid y); simpl in *.
  - apply wp_bind. eapply wp_mono; [by apply emit_mapped|]. intros [[]|e|] s2 Hm2; [|done..]. by apply IH.
  - apply wp_bind, wp_ret. by apply IH.
Qed.

(** Statistics: they never fail and leave the outputs alone. *)
Definition harmless (c : P unit) : Prop :=
  ∀ rest s, mapped rest s → wp c (λ r s', r = Ok tt ∧ mapped rest s') s.

Lemma harmless_bind c k : harmless c → harmless k → harmless (c ;! k).
Proof.
  intros Hc Hk rest s Hm. apply wp_bind. eapply wp_mono; [by apply Hc|].
  intros r s' [-> Hm']. by apply Hk.
Qed.
Lemma harmless_ret : harmless (ret tt).
Proof. by intros rest s Hm. Qed.
Lemma harmless_modify h : (∀ l, output_locals (h l) = output_locals l) → harmless (modify h).
Proof. intros Hh rest [w l] Hm. split; [done|]. eapply mapped_view; [|exact Hm]. unfold view. simpl. by rewrite Hh. Qed.
Lemma harmless_now (k : Z → P unit) : (∀ t, harmless (k t)) → harmless (let! t := in_world now in k t).
Proof.
  intros Hk rest [w l] Hm. apply wp_bind, wp_now. intros t. apply Hk.
  by eapply mapped_view; [|exact Hm].
Qed.
Lemma harmless_timing : harmless (write_timing_10 cfg).
Proof.
  intros rest [w l] Hm. apply wp_bind, wp_get_obj. case_match; [|by apply wp_ret].
  split; [done|]. eapply mapped_view; [|exact Hm].
  exact (write_timing_view cfg output_of output_locals (λ _, eq_refl) (w, l)).
Qed.
Lemma harmless_audio n : harmless (add_audio (Ok (PyNum n))).
Proof.
  intros rest [w l] (Hb & [m Hn] & He). simpl in *. apply wp_bind. unfold wp at 1. simpl.
  apply wp_bind, wp_get_obj, wp_bind. unfold wp at 1. rewrite Hn. simpl.
  split; [done|]. split_and!; [done|by eexists|done].
Qed.
Hint Resolve harmless_bind harmless_ret harmless_now harmless_timing harmless_audio : core.
Lemma harmless_items n : harmless (add_items n).
Proof. by apply harmless_modify. Qed.
Lemma harmless_time n : harmless (add_time n).
Proof. by apply harmless_modify. Qed.
Hint Resolve harmless_items harmless_time : core.

(** Nothing is owed, whether the step returned or raised. *)
Definition paid {Y} (r : res Y) (s : WL) : Prop :=
  match r with Spin => True | _ => mapped [] s end.

Lemma emit_values_paid v s :
  mapped (valid_items (as_list v)) s →
  wp (emit_all env cfg free_pool fuel (valid_items (as_list v))) paid s.
Proof using Hputs Hfree Hout.
  intros Hm. eapply wp_mono; [apply (emit_all_mapped []); by rewrite app_nil_r|].
  by intros [[]|e|] s'.
Qed.

Lemma handle_result_paid x res n start t a s :
  f x = Ok res → mapped (result_items (Ok res)) s →
  wp (handle_result env cfg free_pool fuel res n start t (PyNum a)) paid s.
Proof using Hputs Hfree Hout Hstop Hnum.
  intros Hx Hm. destruct (Hnum x res Hx) as [_ Haudio]. unfold handle_result.
  destruct res as [g|v].
  - apply wp_bind. eapply wp_mono; [by apply emit_generator_mapped|].
    intros [[]|e|] s1; [intros [_ Hm1]|by intros [_ ?]|done].
    assert (harmless (if has_timing cfg
      then add_items n ;! (let! t := in_world now in add_time (t - start)) ;!
           add_audio (Ok (PyNum a)) ;! write_timing_10 cfg
      else ret tt)) as Hh by (case_match; auto 8).
    eapply wp_mono; [by apply Hh|]. by intros r s2 [-> ?].
  - destruct Haudio as [d Hd].
    assert (∀ l, l = as_list v → mapped (valid_items l) s → wp
      ((if has_timing cfg
        then add_items n ;! add_time t ;!
             (let! a' := of_res (extract_audio_duration (PyList l)) in
              let! b := of_res (truthy a') in
              add_audio (Ok (if b : bool then a' else PyNum a))) ;!
             write_timing_10 cfg
        else ret tt) ;!
       if has_out cfg then emit_all env cfg free_pool fuel (valid_items l) else ret tt)
      paid s) as Hgo.
    { intros l -> Hml. rewrite Hout, Hd.
      assert (harmless (if has_timing cfg
        then add_items n ;! add_time t ;!
             (let! a' := of_res (Ok (PyNum d)) in
              let! b := of_res (truthy a') in
              add_audio (Ok (if b : bool then a' else PyNum a))) ;!
             write_timing_10 cfg
        else ret tt)) as Hh.
      { case_match; [|auto]. repeat apply harmless_bind; auto.
        change (harmless (add_audio (Ok (if negb (d =? 0)%Z then PyNum d else PyNum a)))).
        case_match; auto. }
      apply wp_bind. eapply wp_mono; [by apply Hh|]. intros r s2 [-> Hm2]. by apply emit_values_paid. }
    destruct v; try (by apply (Hgo _ eq_refl)). by apply wp_ret.
Qed.

Lemma timed_call_mapped x s :
  mapped [] s →
  wp (in_world (_timed_call env (has_busy cfg) (st_call st) (Some x)))
     (λ r s', r = f x ∧ mapped (result_items (f x)) s') s.
Proof using Hf.
  destruct s as [w l]. intros (Hb & Hn & He). destruct Hf as [Hpure Hspin].
  assert (∀ w', seen output_of w' = seen output_of w ++ [Called (Some x)] →
    mapped (result_items (f x)) (w', l)) as Hdone.
  { intros w' Hs. unfold mapped. split_and!; [done..|]. simpl in *.
    rewrite app_nil_r in He.
    pose proof (emitted_seen (World 0 (trace w ++ [Called (Some x)]) (user w), l) (w', l)) as E1.
    pose proof (calls_seen (World 0 (trace w ++ [Called (Some x)]) (user w), l) (w', l)) as E2.
    unfold view in *. simpl in *. rewrite Hs in *. unfold seen in *. simpl in *.
    rewrite omap_app in E1, E2. specialize (E1 eq_refl). specialize (E2 eq_refl).
    rewrite E1, E2. unfold emitted, calls in *. simpl in *. rewrite !omap_app, bind_app, <-He.
    simpl. by rewrite !app_nil_r. }
  unfold wp, in_world, lift.
  enough ((_timed_call env (has_busy cfg) (st_call st) (Some x) w).1 = f x ∧
    seen output_of (_timed_call env (has_busy cfg) (st_call st) (Some x) w).2 =
          seen output_of w ++ [Called (Some x)]) as [Hr Hs].
  { destruct (_timed_call _ _ _ _ w). split; [done|]. by apply Hdone. }
  unfold _timed_call, seen. specialize (Hpure x (user w)). specialize (Hspin x).
  destruct (has_busy cfg); unfold bind, try_finally, on_user; simpl;
    destruct (st_call st (Some x) (user w)) as [r u]; simpl in *; subst r;
    destruct (f x); simpl; try done; rewrite !omap_app; simpl; by rewrite ?app_nil_r.
Qed.

(** A call and what follows it. *)
Lemma call_paid x audio (n start : Z) s :
  (∀ r, f x = Ok r → audio = input_audio x) → mapped [] s →
  wp (let! result := in_world (_timed_call env (has_busy cfg) (st_call st) (Some x)) in
      let! t := in_world now in
      let! input_audio := of_res audio in
      handle_result env cfg free_pool fuel result n start (t - start) input_audio ;!
      ret Continue) paid s.
Proof using Hf Hputs Hfree Hout Hstop Hnum.
  intros Ha Hm. apply wp_bind. eapply wp_mono; [by apply timed_call_mapped|].
  intros r [w1 l1] [-> Hm1]. destruct (f x) as [res|e|] eqn:Hx; [|done..].
  apply wp_bind, wp_now. intros t. apply wp_bind.
  destruct (Hnum x res Hx) as [[a Hin] _]. rewrite (Ha res), Hin by done.
  unfold wp at 1. simpl. apply wp_bind.
  eapply wp_mono; [eapply handle_result_paid; [done|]; by eapply mapped_view; [|exact Hm1]|].
  by intros [[]|e|] s2.
Qed.

Definition kept {X} (c : P X) : Prop := keeps outputs c.

Lemma get_kept timeout : kept (on_in (ic_get (in_queue env) timeout)).
Proof.
  apply zoom_view; [done|]. apply keeps_bind; [by intros []|]. intros b.
  assert (keeps (λ s : world U * in_buf, seen output_of s.1) buf_popleft).
  { apply keeps_bind; [by intros []|]. intros [[]|]; try done. by intros []. }
  destruct (buf_items b); [|done].
  apply keeps_bind; [apply lift_seen; by apply answer_seen|].
  intros [v|items]; [done|]. apply keeps_bind; [by intros []|]. done.
Qed.

Lemma kept_paid {X Y} (c : P X) (k : X → P Y) s :
  kept c → mapped [] s → (∀ x s', mapped [] s' → wp (k x) paid s') → wp (bind c k) paid s.
Proof.
  intros Hc Hm Hk. apply (wp_bind_keeps outputs); [done| |].
  - intros s' Hs. split; [|done]. intros e. by eapply mapped_view.
  - intros x s' Hs. by eapply Hk, mapped_view.
Qed.

Lemma gather_kept item : kept (gather env cfg fuel item).
Proof.
  assert (kept (in_world now)) by apply now_view.
  apply keeps_bind; [done|]. intros t. apply keeps_loop. intros items.
  case_match; [|apply keeps_ret]. apply keeps_bind; [done|]. intros t1.
  cbv zeta. case_match; [apply keeps_ret|]. apply keeps_bind.
  - apply keeps_try; [|intros []; auto with pipe].
    apply keeps_bind; [apply get_kept|]. intros; apply keeps_ret.
  - intros [v|]; [|apply keeps_bind; [done|]; intros; apply keeps_ret].
    case_match; [|apply keeps_ret]. apply keeps_bind; [|intros; apply keeps_ret].
    apply zoom_view; [done|]. apply lift_seen. by apply answer_seen.
Qed.

Lemma next_item_kept : kept (next_item env cfg).
Proof.
  apply keeps_try.
  - apply keeps_bind; [apply get_kept|]. intros v.
    apply keeps_bind; [by apply set_empty_view|]. intros; apply keeps_ret.
  - intros e. assert (kept (if is_os_error e then ret (inr Break) else raise (X:=py + turn) e)).
    { case_match; [apply keeps_ret|apply keeps_raise]. }
    destruct e; try done.
    apply keeps_bind; [by apply count_empty_view|]. intros [].
    apply keeps_bind; [apply get_view|]. intros l. apply keeps_bind; [|intros; apply keeps_ret].
    destruct (has_upstream cfg); [apply look_view|apply keeps_ret].
Qed.

Lemma stage_item_paid item s :
  item ≠ WorkerStop → mapped [] s → wp (stage_item env cfg st free_pool fuel item) paid s.
Proof using Hf Hputs Hfree Hout Hstop Hnum.
  intros Hws Hm. unfold stage_item.
  assert (_is_worker_stop item = false) as -> by (by destruct item as [|[]| | | | | | | |]).
  case_match; [by apply wp_ret|]. destruct (0 <? batch_size cfg)%Z eqn:Hbatch.
  - apply kept_paid; [apply gather_kept|done|]. intros items [w l] Hm1.
    apply wp_bind, wp_now. intros t. apply (call_paid (PyList items)).
    + intros r _. unfold input_audio. by rewrite Hbatch.
    + by eapply mapped_view; [|exact Hm1].
  - destruct s as [w l]. apply wp_bind, wp_now. intros t. apply (call_paid item).
    + intros r _. unfold input_audio. by rewrite Hbatch.
    + by eapply mapped_view; [|exact Hm].
Qed.

(** The flush of the output channel: it leaves nothing pending. *)
Lemma out_flush_emits s :
  oc_bounded (out_chunk cfg) (l_out s.2) →
  wp (out_flush env free_pool fuel)
     (λ r s', oc_pending (l_out s'.2) = [] ∧
        match r with Ok _ => emits [] s s' | Raise _ => False | Spin => True end) s.
Proof using Hputs Hfree.
  destruct s as [w l]. intros Hb. apply on_out_wp.
  pose proof (oc_flush_calm (w, l_out l)) as Hcalm.
  pose proof (oc_flush_seen env free_pool fuel call_arg ltac:(done) (w, l_out l)) as Hcalls.
  assert (oc_pending (l_out l) = [] ∨ chunk_ok (out_chunk cfg) (Chunk (oc_pending (l_out l)))) as Hch.
  { unfold oc_bounded in Hb. simpl in Hb.
    destruct (oc_pending (l_out l)) eqn:E; [by left|right]. simpl in *. lia. }
  pose proof (oc_flush_sends (out_queue env) (out_chunk cfg) _ fuel
                stall_hook_quiet w w (l_out l) eq_refl Hch) as Hs.
  unfold wp in *. destruct (oc_flush _ _ _ _) as [[[]|e|] [w2 ch2]]; simpl in *;
    [|by edestruct Hcalm|by destruct Hs].
  destruct Hs as [Hs Hp]. split; [done|].
  apply (sends_emits [] w l (Ok tt) (w2, ch2)); [done| |done]. by rewrite app_nil_r.
Qed.

Lemma out_flush_mapped s :
  mapped [] s →
  wp (out_flush env free_pool fuel)
     (λ r s', left_with [] r s' ∧ oc_pending (l_out s'.2) = []) s.
Proof using Hputs Hfree.
  intros Hm. eapply wp_mono; [apply out_flush_emits, Hm|].
  intros [[]|e|] s' [Hp He]; try done. split; [|done]. by eapply (emits_mapped []).
Qed.

(** A due partial chunk goes out, or nothing happens. *)
Lemma out_maybe_flush_emits s :
  oc_bounded (out_chunk cfg) (l_out s.2) →
  wp (out_maybe_flush env cfg free_pool fuel)
     (λ r s', match r with Ok _ => emits [] s s' | Raise _ => False | Spin => True end) s.
Proof using Hputs Hfree.
  destruct s as [w l]. intros Hb. unfold out_maybe_flush. apply on_out_wp, wp_bind, wp_get_obj.
  assert (∀ n, emits [] (w, l) (World n (trace w) (user w), set_out (l_out l) l)) as Hsame.
  { intros n. destruct l. split_and!; [done|by rewrite app_nil_r|done..]. }
  destruct (oc_pending (l_out l)) eqn:E; [apply wp_ret; destruct w as [t tr u]; exact (Hsame t)|].
  apply wp_bind. unfold wp at 1. simpl. case_match; [|apply wp_ret, Hsame].
  set (w1 := World (S (tick w)) (trace w) (user w)).
  pose proof (out_flush_emits (w1, l) Hb) as Hf1. unfold out_flush, on_out, zoom, wp in *. simpl in *.
  destruct (oc_flush _ _ _ (w1, l_out l)) as [r [w2 ch2]]. simpl in *. by destruct r, Hf1.
Qed.

Lemma out_maybe_flush_mapped s :
  mapped [] s → wp (out_maybe_flush env cfg free_pool fuel) (left_with []) s.
Proof using Hputs Hfree.
  intros Hm. eapply wp_mono; [apply out_maybe_flush_emits, Hm|].
  intros [[]|e|] s' He; try done. by eapply (emits_mapped []).
Qed.

Lemma stage_turn_paid s :
  reads_ok env → balanced (batch_size cfg) s → mapped [] s →
  wp (stage_turn env cfg st free_pool fuel) paid s.
Proof using Hf Hputs Hfree Hout Hstop Hnum.
  intros Hreads Hb Hm. apply wp_bind.
  pose proof (next_item_spec env cfg Hreads _ s Hb) as Hi. unfold wp in *.
  pose proof (next_item_kept s) as Hk. destruct (next_item env cfg s) as [[[v|t]|e|] s1]; simpl in *;
    try done; [|by eapply mapped_view].
  apply stage_item_paid; [apply Hi|by eapply mapped_view].
Qed.

Lemma worker_turn_paid s :
  reads_ok env → is_root cfg = false → balanced (batch_size cfg) s → mapped [] s →
  wp (worker_turn env cfg st free_pool fuel) paid s.
Proof using Hf Hputs Hfree Hout Hstop Hnum Hpark.
  intros Hreads Hroot Hb Hm. unfold worker_turn. rewrite Hout. apply wp_bind.
  pose proof (out_maybe_flush_mapped s Hm) as H1. unfold wp in *.
  pose proof (level_maybe_flush env cfg free_pool fuel s) as Hl.
  destruct (out_maybe_flush env cfg free_pool fuel s) as [[[]|e|] [w1 l1]]; simpl in *; [|done..].
  assert (balanced (batch_size cfg) (w1, l1)) as Hb1 by (by eapply balanced_view).
  clear Hl Hb Hm. apply wp_try.
  apply (wp_mono _ paid).
  2: { intros [t|e|] [w2 l2] Hp; [done| |done]. simpl in Hp.
       case_match; [apply wp_bind; unfold wp; simpl; by eapply mapped_view; [exact (in_world_view output_of output_locals (act (SetStop 2)) (act_view output_of (SetStop 2) eq_refl) (w2, l2))|]|].
       repeat case_match; done. }
  apply wp_bind, wp_look. rewrite Hstop. simpl. unfold _maybe_park. rewrite Hpark. simpl.
  apply wp_bind, wp_ret. set (w2 := World (S (tick w1)) (trace w1) (user w1)).
  assert (mapped [] (w2, l1)) as Hm2 by (by eapply mapped_view; [|exact H1]).
  assert (balanced (batch_size cfg) (w2, l1)) as Hb2 by (by eapply balanced_view; [|exact Hb1]).
  clearbody w2. rewrite Hroot. case_match.
  - apply wp_bind, wp_look. set (w3 := World (S (tick w2)) (trace w2) (user w2)).
    assert (mapped [] (w3, l1)) by (by eapply mapped_view; [|exact Hm2]).
    assert (balanced (batch_size cfg) (w3, l1)) by (by eapply balanced_view; [|exact Hb2]).
    case_match; [by apply wp_ret|]. by apply stage_turn_paid.
  - apply wp_bind, wp_ret. by apply stage_turn_paid.
Qed.

Lemma main_loop_paid turns s :
  reads_ok env → is_root cfg = false → balanced (batch_size cfg) s → mapped [] s →
  wp (main_loop env cfg st free_pool fuel turns) paid s.
Proof using Hf Hputs Hfree Hout Hstop Hnum Hpark.
  intros Hreads Hroot Hb Hm.
  apply (wp_loop (λ _ s, balanced (batch_size cfg) s ∧ mapped [] s)); [done|done|].
  clear s Hb Hm. intros _ [w l] [Hb Hm]. unfold stopping.
  apply wp_bind, wp_bind, wp_look, wp_ret. rewrite Hstop. simpl.
  set (w1 := World (S (tick w)) (trace w) (user w)).
  assert (mapped [] (w1, l)) as Hm1 by (by eapply mapped_view; [|exact Hm]).
  assert (balanced (batch_size cfg) (w1, l)) as Hb1 by (by eapply balanced_view; [|exact Hb]).
  apply wp_bind.
  pose proof (worker_turn_paid _ Hreads Hroot Hb1 Hm1) as H1.
  pose proof (worker_turn_settled env cfg st free_pool fuel Hreads _ Hroot Hb1) as H2.
  unfold wp in *. destruct (worker_turn _ _ _ _ _ _) as [[[]|e|] s2]; simpl in *; try done.
  by destruct H2.
Qed.
End outputs.

(** ** Properties *)

(** C1: a middle worker hands everything it receives to its stage, in order
    and exactly once. Whatever the other processes do, whatever the stage
    returns or raises, with or without [batch=N], and parking when asked to: as long as the
    broker answers and no [WorkerStop] arrives, the items taken off the queue
    are the items the stage was called on followed by those still in the
    input buffer. The loop ends by itself only with an empty buffer, after
    [EMPTY_THRESHOLD] empty polls in a row, or because it was told to stop or
    drain or lost a connection. *)
Theorem stage_inputs_handed_in_order `{ObjOps} {U} (env : environment) (cfg : config)
    (st : stage U) (free_pool : prog U unit) (fuel turns : nat) (s : world U * locals) :
  reads_ok env → is_root cfg = false → balanced (batch_size cfg) s →
  let '(r, s') := main_loop env cfg st free_pool fuel turns s in
  r ≠ Spin →
  balanced (batch_size cfg) s' ∧ (r = Ok Break → exit_reason env cfg s') ∧ r ≠ Ok Return.
Proof.
  intros Hreads Hroot Hb.
  pose proof (main_loop_settled env cfg st free_pool fuel Hreads turns s Hroot Hb) as Hs.
  unfold wp in Hs. destruct (main_loop _ _ _ _ _ _ _) as [[t|e|] s']; simpl in Hs; [|done..].
  intros _. unfold turn_ok in Hs. naive_solver.
Qed.

(** C2: what a middle worker puts downstream is what its stage returned. For a
    stage that computes a function [f] of its argument (a value, a list, a
    generator or an exception), the items put so far and the pending chunk
    are, in order, the valid items of [f x] for each call [x]: nothing is lost,
    repeated or reordered by chunking, by retried puts, by a generator
    raising half-way or by a call that raises, and [None] and [End] never go
    downstream. *)
Theorem stage_outputs_are_results `{ObjOps} {U} (env : environment) (cfg : config)
    (st : stage U) (free_pool : prog U unit) (fuel turns : nat) (s : world U * locals)
    (f : py → res result) :
  computes st f → numeric cfg f → puts_ok env → (∀ t, e_should_stop env t = 0%Z) →
  calm free_pool → has_park cfg = false → has_out cfg = true →
  reads_ok env → is_root cfg = false →
  balanced (batch_size cfg) s → mapped cfg f [] s →
  let '(r, s') := main_loop env cfg st free_pool fuel turns s in
  r ≠ Spin →
  emitted s' = calls (trace s'.1) ≫= (λ x, result_items (f x)) ∧
  oc_bounded (out_chunk cfg) (l_out s'.2).
Proof.
  intros Hf Hnum Hputs Hstop Hfree Hpark Hout Hreads Hroot Hb Hm.
  pose proof (main_loop_paid env cfg st free_pool fuel f Hf Hnum Hputs Hstop Hfree Hpark Hout
                turns s Hreads Hroot Hb Hm) as Hp.
  unfold wp in Hp. destruct (main_loop _ _ _ _ _ _ _) as [r s']. simpl in *. intros Hr.
  assert (mapped cfg f [] s') as (Hbd & _ & He) by (by destruct r).
  by rewrite app_nil_r in He.
Qed.

(** *** A run to look at *)

Module Demo.
(** Objects the framework cannot see into do not occur. *)
Definition no_objects : ObjOps :=
  {| obj_truth _ := Ok true; obj_add _ _ := Raise TypeError;
     obj_get_duration _ := Raise AttributeError; obj_iter _ := Raise TypeError |}.

(** The items arrive during the first ticks; upstream is done from the start;
    one put in five finds the downstream queue full. *)
Definition env : environment := {|
  e_clock n := Z.of_nat n * 1000;
  e_should_stop _ := 0;
  e_upstream_done _ := true;
  e_drain _ := false;
  e_park _ := 0;
  e_hold _ := 0;
  e_in n := if (n <? 60)%nat then Ok (Chunk [PyNum (Z.of_nat n); End; PyNum 0]) else Raise Empty;
  e_in_put _ := Ok tt;
  e_out_put n := if (n mod 5 =? 0)%nat then Raise Full else Ok tt;
  e_torch _ := false;
  e_cuda _ := false;
  e_finished _ := 1;
  e_count _ := 1;
|}%Z.

Definition cfg (batch : Z) : config := {|
  is_root := false; has_out := true; has_upstream := true; has_drain_event := true;
  has_timing := true; has_counters := true; has_park := false; has_ipc := false;
  has_hold := false; has_busy := false; raise_errors := false; drain := true;
  batch_size := batch; out_chunk := 2; out_chunk_ms := 10; is_final_stage := true;
  expected_consumers := 2; retry_base := 1000; empty_threshold := 3; start_wall_time := 0;
|}.

(** Twice each number, [0] raises, and a list is summed up by a generator
    that fails at its end. *)
Definition f (x : py) : res result :=
  match x with
  | PyNum 0 => Raise ValueError
  | PyNum n => Ok (RVal (PyList [PyNum n; PyNone; PyNum (n + n)]))
  | PyList [PyNum m; PyNum n] => Ok (RGen (Generator [PyNum (m + n); End] (Some ValueError)))
  | _ => Raise TypeError
  end.

Definition st : stage nat := {|
  st_call arg := λ u, (match arg with Some x => f x | None => Ok (RVal PyNone) end, S u);
  st_load := None; st_flush := None; st_on_park := None; st_on_unpark := None;
|}.

Definition start : world nat * locals := (World 0 [] 0%nat, init_locals (cfg 0)).

Lemma reads : reads_ok env.
Proof.
  intros t. simpl. destruct (t <? 60)%nat; [|done]. split; [done|].
  change (WorkerStop ∉ [PyNum (Z.of_nat t); End; PyNum 0]).
  rewrite !not_elem_of_cons. split_and!; try done. apply not_elem_of_nil.
Defined.

Lemma puts : puts_ok env.
Proof. intros t. unfold env. simpl. destruct (Nat.eqb _ 0); auto. Defined.

Lemma computes_f : computes st f.
Proof.
  split; [done|]. intros x. unfold f. repeat case_match; done.
Defined.

Lemma numeric_f : numeric (H:=no_objects) (cfg 2) f.
Proof.
  intros x r Hx. unfold f in Hx. unfold input_audio. simpl.
  repeat case_match; simplify_eq/=; eauto.
Defined.

Lemma balanced_start b : balanced b start.
Proof. exists []. split_and!; [done|apply not_elem_of_nil|done]. Defined.
End Demo.

Local Abbreviation demo_main_loop batch :=
  (main_loop (H:=Demo.no_objects) Demo.env (Demo.cfg batch) Demo.st (ret tt) 20 50 Demo.start).

Lemma stage_inputs_handed_in_order_witness :
  ((demo_main_loop 0).1 = Ok Break ∧
   handed 0 (trace (demo_main_loop 0).2.1) =
     [PyNum 2; PyNum 0; PyNum 19; PyNum 0; PyNum 36; PyNum 0; PyNum 53; PyNum 0]) ∧
  let '(r, s') := demo_main_loop 0 in
  r ≠ Spin →
  balanced (batch_size (Demo.cfg 0)) s' ∧
  (r = Ok Break → exit_reason Demo.env (Demo.cfg 0) s') ∧ r ≠ Ok Return.
Proof.
  split; [vm_compute; by split|].
  pose proof (stage_inputs_handed_in_order (H:=Demo.no_objects) Demo.env (Demo.cfg 0) Demo.st
    (ret tt) 20 50 Demo.start Demo.reads eq_refl (Demo.balanced_start _)) as Hs.
  exact Hs.
Defined.

Lemma stage_outputs_are_results_witness :
  (emitted (demo_main_loop 2).2 = [PyNum 2; PyNum 17; PyNum 31; PyNum 46]) ∧
  let '(r, s') := demo_main_loop 2 in
  r ≠ Spin →
  emitted s' = calls (trace s'.1) ≫= (λ x, result_items (Demo.f x)) ∧
  oc_bounded (out_chunk (Demo.cfg 2)) (l_out s'.2).
Proof.
  split; [vm_compute; reflexivity|].
  assert (calm (W:=nat) (ret tt)) as Hfree by done.
  assert (mapped (Demo.cfg 2) Demo.f [] Demo.start) as Hm.
  { split_and!; [|by exists 0%Z|done]. unfold oc_bounded. simpl. lia. }
  pose proof (stage_outputs_are_results (H:=Demo.no_objects) Demo.env (Demo.cfg 2) Demo.st (ret tt)
    20 50 Demo.start Demo.f Demo.computes_f Demo.numeric_f Demo.puts (λ _, eq_refl)
    Hfree eq_refl eq_refl Demo.reads eq_refl (Demo.balanced_start _) Hm) as Hs.
  exact Hs.
Defined.
