(* ===== verification/WorkerExit.v ===== *)
(** * How a worker gives things up (theorems about Worker, continued)

    The end of a run ([worker_end], [_finish_worker]): the sentinels after
    everything else, the item that [on_park] hands back at the end; the
    cooperative park; a worker held before [load()]; and the end of the main
    loop once the upstream stage is done. *)
From S2P Require Import Prelude Types Queues Channels World Source Worker WorkerSpec.

(** ** The end of the run *)

(** The actions by which siblings coordinate. *)
Definition coord_of (a : action) : option action :=
  match a with Finished | SetDone => Some a | _ => None end.

(** What [_finish_worker] does: count itself, and, if it is the last one, put
    [k] sentinels and perhaps set the stage-done event. *)
Definition finish_actions (k : nat) (last done : bool) : list action :=
  Finished :: if last then replicate k (PutOut (Bare End)) ++ (if done then [SetDone] else []) else [].

Lemma carried_ends m : carried (omap out_msg (replicate m (PutOut (Bare End)))) = replicate m End.
Proof. induction m as [|m IH]; [done|]. exact (f_equal (cons End) IH). Qed.

Definition n_ends (cfg : config) : nat :=
  if is_final_stage cfg then expected_consumers cfg else 1%nat.

Section run_end.
Context `{ObjOps} {U : Type} (env : environment) (cfg : config) (st : stage U).
Context (free_pool : prog U unit) (fuel : nat).
Local Abbreviation WL := (world U * locals)%type.
#[local] Instance run_end_runtime : Runtime (world U) := world_runtime env.

(** A row of sentinel puts: some prefix of them lands. *)
Lemma put_ends_spec n (s : WL) :
  wp (for_each (replicate n End)
        (λ e, in_world (q_put (out_queue (U:=U) env) (Some (seconds 1)) (Bare e))))
     (λ r s', s'.2 = s.2 ∧ user s'.1 = user s.1 ∧
        ((∀ t, e_out_put env t = Ok tt) → r = Ok tt) ∧
        ∃ k, (k ≤ n)%nat ∧ (r = Ok tt → k = n) ∧ (r ≠ Ok tt → k < n)%nat ∧
        trace s'.1 = trace s.1 ++ replicate k (PutOut (Bare End))) s.
Proof.
  revert s. induction n as [|n IH]; intros [w l]; simpl.
  - apply wp_ret. split_and!; [done..|]. exists 0%nat. simpl. by rewrite app_nil_r.
  - apply wp_bind. unfold wp at 1. simpl. unfold answer, bind, observe, of_res, act, ret, in_world, lift. simpl.
    destruct (e_out_put env (tick w)) as [[]|e|] eqn:Hp; simpl.
    + set (w1 := World _ _ _). eapply wp_mono; [apply IH|].
      intros r [w2 l2] (Hl & Hu & Hok & k & Hk & Hall & Hlt & Ht). simpl in *. split_and!; [done..|].
      exists (S k). split_and!; [lia|intros ->; by rewrite Hall|intros Hr; specialize (Hlt Hr); lia|]. rewrite Ht. simpl.
      by rewrite <-app_assoc.
    + split_and!; [done|done|intros Hall; by rewrite Hall in Hp|].
      exists 0%nat. simpl. rewrite app_nil_r. split_and!; [lia|done|lia|done].
    + split_and!; [done|done|intros Hall; by rewrite Hall in Hp|].
      exists 0%nat. simpl. rewrite app_nil_r. split_and!; [lia|done|lia|done].
Qed.

(** The trace of [_finish_worker] from [s]: exactly [finish_actions]. *)
Definition finished_from (s : WL) (r : res unit) (s' : WL) : Prop :=
  ∃ k done,
    let last := (e_count env (S (S (tick s.1))) <=? e_finished env (S (tick s.1)))%Z in
    (k ≤ n_ends cfg)%nat ∧
    trace s'.1 = trace s.1 ++ finish_actions k last done ∧
    (r = Ok tt → done = true) ∧
    ((∀ t, e_out_put env t = Ok tt) → has_out cfg = true → last = true →
     r = Ok tt ∧ k = n_ends cfg).

Lemma finish_spec (s : WL) :
  wp (_finish_worker env cfg)
     (λ r s', s'.2 = s.2 ∧ user s'.1 = user s.1 ∧
        if has_counters cfg then finished_from s r s' else r = Ok tt ∧ trace s'.1 = trace s.1) s.
Proof.
  destruct s as [w l]. unfold _finish_worker, finished_from. destruct (has_counters cfg); simpl; [|by apply wp_ret].
  apply wp_bind. unfold wp at 1. simpl. apply wp_bind, wp_look. simpl. apply wp_bind, wp_look. simpl.
  set (t1 := S (tick w)). rewrite (Z.ltb_antisym (e_count env _)).
  destruct (e_count env (S t1) <=? e_finished env t1)%Z; simpl.
  2: { apply wp_ret. simpl. split_and!; [done..|]. exists 0%nat, true. split_and!; [lia|done..]. }
  apply wp_bind.
  assert (∀ k w', trace w' = (trace w ++ [Finished]) ++ replicate k (PutOut (Bare End)) →
    user w' = user w → (k ≤ n_ends cfg)%nat →
    ((∀ t, e_out_put env t = Ok tt) → has_out cfg = true → k = n_ends cfg) →
    wp (in_world (act SetDone)) (λ r s', s'.2 = l ∧ user s'.1 = user w ∧ ∃ k done,
         (k ≤ n_ends cfg)%nat ∧ trace s'.1 = trace w ++ finish_actions k true done ∧
         (r = Ok tt → done = true) ∧
         ((∀ t, e_out_put env t = Ok tt) → has_out cfg = true → true = true →
          r = Ok tt ∧ k = n_ends cfg)) (w', l)) as Hend.
  { intros k w' Ht Hu Hk Hall. unfold wp. simpl. split_and!; [done..|]. exists k, true.
    unfold finish_actions. rewrite Ht, <-!app_assoc. split_and!; [done|done|done|]. auto. }
  destruct (has_out cfg) eqn:Hout.
  2: { apply wp_ret, (Hend 0%nat); [simpl; by rewrite app_nil_r|done|lia|done]. }
  apply wp_try. eapply wp_mono; [apply put_ends_spec|].
  intros r [w2 l2] (Hl & Hu & Hok & k & Hk & Hall & _ & Ht). simpl in *. subst l2.
  destruct r as [[]|e|].
  - apply (Hend k); auto.
  - assert ((∀ t, e_out_put env t = Ok tt) → False) as Hno by (intros Hp; by specialize (Hok Hp)).
    assert (∀ r, r ≠ Ok tt → l = l ∧ user w2 = user w ∧ ∃ k done, (k ≤ n_ends cfg)%nat ∧
      trace w2 = trace w ++ finish_actions k true done ∧ (r = Ok tt → done = true) ∧
      ((∀ t, e_out_put env t = Ok tt) → true = true → true = true → r = Ok tt ∧ k = n_ends cfg)) as Hfail.
    { intros r Hr. split_and!; [done..|]. exists k, false. unfold finish_actions.
      rewrite Ht, app_nil_r, <-app_assoc. split_and!; [done|done|done|]. intros Hp. by edestruct Hno. }
    destruct e; try (by apply Hfail). apply wp_ret, (Hend k); auto.
  - split_and!; [done..|]. exists k, false. unfold finish_actions.
    rewrite Ht, app_nil_r, <-app_assoc. split_and!; [done|done|done|]. intros Hp. by specialize (Hok Hp).
Qed.

(** The part of [worker_end] before [_finish_worker]. *)
Lemma flush_all_coord flushes (s : WL) :
  seen coord_of ((let! x := if flushes : bool then flush_stage env cfg st free_pool fuel else ret tt in
     if has_out cfg then out_flush env free_pool fuel else ret tt) s).2.1 = seen coord_of s.1.
Proof.
  enough (keeps (view coord_of (λ _ : locals, tt))
    (let! x := if flushes : bool then flush_stage env cfg st free_pool fuel else ret tt in
     if has_out cfg then out_flush env free_pool fuel else ret tt)) as Hk.
  { specialize (Hk s). unfold view in Hk. by injection Hk. }
  assert (ignores_output coord_of) by done.
  apply keeps_bind.
  - destruct flushes; [|apply keeps_ret]. unfold flush_stage.
    destruct (st_flush st); [|apply keeps_ret]. destruct (has_out cfg); [|apply keeps_ret].
    apply keeps_try; [|intros e; case_match; auto with pipe].
    apply keeps_bind; [apply in_user_view|]. intros g'. case_match; [apply keeps_raise|].
    by apply emit_all_view.
  - intros []. destruct (has_out cfg); [|apply keeps_ret]. by apply out_flush_view.
Qed.

Lemma out_flush_empties (s : WL) :
  oc_pending (l_out (out_flush env free_pool fuel s).2.2) = [].
Proof.
  destruct s as [w l]. unfold out_flush.
  enough (wp (on_out (oc_flush (out_queue env) (Some (_release_pool_on_stall env free_pool)) fuel))
            (λ _ s', oc_pending (l_out s'.2) = []) (w, l)) by done.
  apply on_out_wp.
  pose proof (oc_flush_spec (out_queue env) _ fuel (stall_hook_quiet env free_pool) w (l_out l)) as Hf.
  unfold wp in *. destruct (oc_flush _ _ _ _) as [r [w' ch]]. apply Hf.
Qed.
End run_end.

(** ** The cooperative park *)

Definition park_of (a : action) : option action :=
  match a with SetPark _ => Some a | _ => None end.

(** What a park comes to, for what [on_park] did on the stage object: parked
    with everything it handed back delivered, refused with nothing done, or
    (the delivery stuck, or an interrupt) not answered at all. *)
Definition park_outcome {U} (on_park : res (list py)) (s : world U * locals)
    (r : res bool) (s' : world U * locals) : Prop :=
  match r with
  | Ok true =>
      ∃ items tr, on_park = Ok items ∧
        trace s'.1 = tr ++ [SetPark 2] ∧ omap park_of tr = omap park_of (trace s.1) ∧
        emitted s' = emitted s ++ valid_items items ∧ oc_pending (l_out s'.2) = []
  | Ok false =>
      ∃ e, on_park = Raise e ∧ is_exception e = true ∧
        trace s'.1 = trace s.1 ++ [SetPark 3] ∧ emitted s' = emitted s
  | _ => omap park_of (trace s'.1) = omap park_of (trace s.1)
  end.

(** What [worker.on_park()] does on the stage object. *)
Definition on_park_result {U} (st : stage U) (u : U) : res (list py) :=
  match st_on_park st with Some f => (f u).1 | None => Raise AttributeError end.

Section park.
Context `{ObjOps} {U : Type} (env : environment) (cfg : config) (st : stage U).
Context (free_pool : prog U unit) (fuel : nat).
Context (Hputs : puts_ok env) (Hfree : calm free_pool) (Hout : has_out cfg = true).
Local Abbreviation WL := (world U * locals)%type.

Lemma park_seen_ignores : ignores_output park_of.
Proof. done. Qed.

(** Emitting and flushing [items]: delivered, or stuck. *)
Lemma deliver_spec items (s : WL) :
  oc_bounded (out_chunk cfg) (l_out s.2) →
  wp (emit_all env cfg free_pool fuel items ;!
      if has_out cfg then out_flush env free_pool fuel else ret tt)
     (λ r s', match r with
              | Ok _ => emits cfg items s s' ∧ oc_pending (l_out s'.2) = []
              | Raise _ => False
              | Spin => True
              end ∧ seen park_of s'.1 = seen park_of s.1) s.
Proof using Hputs Hfree Hout.
  intros Hb. rewrite Hout.
  pose proof (emit_all_view env cfg free_pool fuel park_of (λ _ : locals, tt) ltac:(done) park_seen_ignores ltac:(done) items s) as Hv.
  pose proof (emit_all_emits env cfg free_pool fuel Hputs Hfree Hout items s Hb) as He.
  apply wp_bind. unfold wp in He. unfold wp at 1.
  destruct (emit_all env cfg free_pool fuel items s) as [[[]|e|] s1]; simpl in *; [|done|].
  2: { split; [done|]. unfold view in Hv. by injection Hv. }
  pose proof (out_flush_view env free_pool fuel park_of (λ _ : locals, tt) park_seen_ignores ltac:(done) s1) as Hv2.
  pose proof (out_flush_emits env cfg free_pool fuel Hputs Hfree s1 (proj1 He)) as Hf.
  unfold wp in *. destruct (out_flush env free_pool fuel s1) as [r s2]; simpl in *.
  unfold view in *. injection Hv as Hv. injection Hv2 as Hv2. split; [|congruence].
  destruct Hf as [Hp Hf]. destruct r as [[]|e|]; [|done..]. split; [|done].
  pose proof (emits_trans cfg items [] _ _ _ He Hf) as Hi. by rewrite app_nil_r in Hi.
Qed.

Lemma park_release_spec (s : WL) :
  oc_bounded (out_chunk cfg) (l_out s.2) →
  wp (park_release env cfg st free_pool fuel)
     (park_outcome (on_park_result st (user s.1)) s) s.
Proof using Hputs Hfree Hout.
  intros Hb. destruct s as [w l]. unfold park_release, on_park_result. simpl.
  set (c := try_except _ _).
  assert (∃ u, c (w, l) =
    match on_park_result st (user w) with
    | Ok items => (Ok (Some items), (World (tick w) (trace w) u, l))
    | Raise e => if is_exception e
                 then (Ok None, (World (S (tick w)) (trace w ++ [SetPark 3]) u, l))
                 else (Raise e, (World (tick w) (trace w) u, l))
    | Spin => (Spin, (World (tick w) (trace w) u, l))
    end) as [u Hc].
  { unfold c, try_except, bind, in_world, lift, on_user, on_park_result, ret, raise, act.
    destruct (st_on_park st) as [f|]; simpl.
    - destruct (f (user w)) as [[items|e|] u]; simpl; exists u; try done.
      by destruct (is_exception e).
    - exists (user w). by destruct w. }
  clearbody c. apply wp_bind. unfold wp at 1. rewrite Hc.
  change (match st_on_park st with Some f => _ | None => _ end) with (on_park_result st (user w)).
  destruct (on_park_result st (user w)) as [items|e|]; simpl; [|destruct (is_exception e) eqn:He; simpl|done].
  - set (w1 := World (tick w) (trace w) u).
    pose proof (deliver_spec (valid_items items) (w1, l) Hb) as Hd.
    enough (wp ((emit_all env cfg free_pool fuel (valid_items items) ;!
                 if has_out cfg then out_flush env free_pool fuel else ret tt) ;!
                in_world (act (SetPark 2)) ;! ret true)
              (park_outcome (Ok items) (w, l)) (w1, l)) as Hwp.
    { unfold wp, bind in *.
      destruct (emit_all env cfg free_pool fuel (valid_items items) (w1, l)) as [[[]|?|] ?]; exact Hwp. }
    apply wp_bind. eapply wp_mono; [exact Hd|].
    intros [[]|e|] [w2 l2] [Hr Hs]; simpl in *; [|done|done].
    unfold wp. simpl. destruct Hr as [(_ & Hem & _) Hp].
    exists items, (trace w2). split_and!; [done|done|exact Hs| |done].
    unfold emitted in *. simpl in *. rewrite omap_app. simpl. rewrite app_nil_r. exact Hem.
  - unfold wp. simpl. exists e. split_and!; [done|done|done|].
    unfold emitted. simpl. rewrite omap_app. simpl. by rewrite app_nil_r.
  - done.
Qed.
End park.

(** ** A worker held before load() *)

Section hold.
Context `{ObjOps} {U : Type} (env : environment) (cfg : config) (fuel : nat).
Local Abbreviation WL := (world U * locals)%type.
#[local] Instance hold_runtime : Runtime (world U) := world_runtime env.

Definition not_end (m : msg) : bool :=
  match m with Bare v => negb (_is_end v) | Chunk _ => true end.

(** Messages taken off the input queue, but for [End] sentinels, and the
    messages put back on it. *)
Definition taken_msgs (tr : list action) : list msg :=
  filter (λ m, not_end m = true) (omap recv_msg tr).
Definition returned_msgs (tr : list action) : list msg := omap back_msg tr.

(** [s'] comes after [s] with everything taken put back and nothing else
    done to the stage or the output. *)
Definition only_peeked (s s' : WL) : Prop :=
  ∃ ms, taken_msgs (trace s'.1) = taken_msgs (trace s.1) ++ ms ∧
    returned_msgs (trace s'.1) = returned_msgs (trace s.1) ++ ms ∧
    user s'.1 = user s.1 ∧ s'.2 = s.2 ∧
    calls (trace s'.1) = calls (trace s.1) ∧ omap out_msg (trace s'.1) = omap out_msg (trace s.1).

Lemma peeked_refl s : only_peeked s s.
Proof. exists []. by rewrite !app_nil_r. Qed.

Lemma peeked_trans s1 s2 s3 : only_peeked s1 s2 → only_peeked s2 s3 → only_peeked s1 s3.
Proof.
  intros (ms & Ht & Hr & Hu & Hl & Hc & Ho) (ms' & Ht' & Hr' & Hu' & Hl' & Hc' & Ho').
  exists (ms ++ ms'). rewrite Ht', Hr', Ht, Hr, <-!app_assoc. split_and!; congruence.
Qed.

(** Actions that put back what they take and do nothing else. *)
Lemma peeked_acts w l n acts :
  taken_msgs acts = returned_msgs acts → calls acts = [] → omap out_msg acts = [] →
  only_peeked (w, l) (World n (trace w ++ acts) (user w), l).
Proof.
  intros Ht Hc Ho. exists (taken_msgs acts). simpl. unfold taken_msgs, returned_msgs, calls in *.
  rewrite !omap_app, filter_app, Hc, Ho, !app_nil_r. by rewrite Ht.
Qed.

(** What a turn of the hold may end with. *)
Definition hold_end (b : bool) : Prop :=
  if b then ∃ n, e_hold env n = 0%Z
  else (∃ n, e_should_stop env n ≠ 0%Z) ∨ 
    (has_upstream cfg = true ∧ (∃ n, e_upstream_done env n = true) ∧
     (is_root cfg = true ∨ ∃ n, (e_count env (S n) - 1 <= e_finished env n)%Z)).

Lemma peeked_none (w : world U) l n : only_peeked (w, l) (World n (trace w) (user w), l).
Proof. pose proof (peeked_acts w l n []) as Hp. rewrite app_nil_r in Hp. by apply Hp. Qed.

Lemma hold_turn_spec (s : WL) :
  wp (hold_turn env cfg)
     (λ r s', match r with
              | Ok (inl _) => only_peeked s s'
              | Ok (inr b) => only_peeked s s' ∧ hold_end b
              | _ => True
              end) s.
Proof.
  destruct s as [w l].
  unfold hold_turn, stopping. apply wp_bind, wp_look.
  case_match eqn:Hh; boolify; [apply wp_ret; split; [apply peeked_none|by eexists]|].
  apply wp_bind, wp_bind, wp_look, wp_ret. simpl. case_match eqn:Hs; boolify.
  { apply wp_ret. split; [apply peeked_none|]. left. by eexists. }
  set (Q := λ (r : res (unit + bool)) (s' : WL), match r with
            | Ok (inl _) => only_peeked (w, l) s'
            | Ok (inr b) => only_peeked (w, l) s' ∧ hold_end b
            | _ => True end).
  change (wp ?c _ ?s) with (wp c Q s).
  assert (∀ n acts, taken_msgs acts = returned_msgs acts → calls acts = [] → omap out_msg acts = [] →
    wp (in_world (sleep (millis 250)) ;! ret (inl tt)) Q (World n (trace w ++ acts) (user w), l)) as Hpause.
  { intros n acts Ht Hc Ho. unfold wp, Q. simpl. rewrite <-app_assoc. apply peeked_acts.
    - unfold taken_msgs, returned_msgs in *. by rewrite !omap_app, filter_app, Ht.
    - unfold calls in *. by rewrite omap_app, Hc.
    - by rewrite omap_app, Ho. }
  assert (∀ n, wp (in_world (sleep (millis 250)) ;! ret (inl tt)) Q (World n (trace w) (user w), l)) as Hpause0.
  { intros n. pose proof (Hpause n []) as Hp. rewrite app_nil_r in Hp. by apply Hp. }
  destruct (has_upstream cfg) eqn:Hup; [|apply wp_bind, wp_ret, Hpause0].
  apply wp_bind, wp_look. simpl. destruct (e_upstream_done env _) eqn:Hd; [|apply Hpause0].
  destruct (is_root cfg) eqn:Hroot; [apply wp_ret; split; [apply peeked_none|right; eauto]|].
  destruct (has_counters cfg); [|apply wp_bind, wp_ret, Hpause0].
  apply wp_bind, wp_bind, wp_look, wp_bind, wp_look, wp_ret. simpl.
  case_match eqn:Hcount; [|apply Hpause0].
  assert (hold_end false) as Hend.
  { boolify. right. split_and!; [done|eauto|]. right. eexists. exact Hcount. }
  apply wp_bind, wp_try, wp_bind. unfold wp at 1. simpl.
  unfold answer, bind, observe, of_res, act, ret, in_world, lift. simpl.
  destruct (e_in env _) as [m|e|]; simpl; [|destruct e; try done|done].
  2: { split; [apply peeked_none|done]. }
  set (n := S _).
  destruct m as [[|[]| | | | | | | |]|items];
    [|by apply (peeked_acts w l n [Received (Bare End)])|..]; unfold wp; simpl;
    unfold answer, bind, observe, of_res, act, ret, in_world, lift; simpl;
    (destruct (e_in_put env _) as [[]|e|]; simpl; [|done..]);
    rewrite <-!app_assoc; simpl; by apply (peeked_acts w l _ [Received _; PutBack _; Slept (millis 250)]).
Qed.

(** The whole wait. *)
Lemma hold_wait_spec (s : WL) :
  wp (_scavenge_hold_wait env cfg fuel)
     (λ r s', match r with Ok b => only_peeked s s' ∧ hold_end b | _ => True end) s.
Proof.
  apply (wp_loop (λ _ s', only_peeked s s')); [apply peeked_refl|done|].
  intros _ s' Hs. eapply wp_mono; [apply hold_turn_spec|].
  intros [[[]|b]|e|] s2; [|intros [H1 H2]; split; [|done]|done..]; intros; by eapply peeked_trans.
Qed.
End hold.

(** ** The main loop ends once the upstream stage is done *)

(** [c] always comes to an end. *)
Definition ends {W X} (c : prog W X) : Prop := ∀ w, (c w).1 ≠ Spin.

Lemma ends_ret {W X} (x : X) : ends (W:=W) (ret x).
Proof. done. Qed.
Lemma ends_raise {W X} e : ends (W:=W) (raise (X:=X) e).
Proof. done. Qed.
Lemma ends_bind {W X Y} (c : prog W X) (k : X → prog W Y) :
  ends c → (∀ x, ends (k x)) → ends (bind c k).
Proof.
  intros Hc Hk w. unfold bind. specialize (Hc w).
  destruct (c w) as [[x|e|] w']; simpl in *; [apply Hk|done|done].
Qed.
Lemma ends_try {W X} (c : prog W X) h : ends c → (∀ e, ends (h e)) → ends (try_except c h).
Proof.
  intros Hc Hh w. unfold try_except. specialize (Hc w).
  destruct (c w) as [[x|e|] w']; simpl in *; [done|apply Hh|done].
Qed.
Lemma ends_lift {W S X} (c : prog W X) : ends c → ends (lift (S:=S) c).
Proof. intros Hc [w s]. unfold lift. specialize (Hc w). by destruct (c w). Qed.
Lemma ends_zoom {V W X} (get : V → W) (put : W → V → V) (c : prog W X) :
  ends c → ends (zoom get put c).
Proof. intros Hc v. unfold zoom. specialize (Hc (get v)). by destruct (c (get v)). Qed.
Lemma ends_for_each {W X} (xs : list X) (body : X → prog W unit) :
  (∀ x, ends (body x)) → ends (for_each xs body).
Proof. intros Hb. induction xs; simpl; auto using ends_ret, ends_bind. Qed.
Lemma ends_of_res {W X} (r : res X) : r ≠ Spin → ends (W:=W) (of_res r).
Proof. by intros Hr w. Qed.
Lemma ends_get {W S} : ends (W:=W * S) get_obj.
Proof. by intros []. Qed.
Lemma ends_put {W S} (s : S) : ends (W:=W * S) (put_obj s).
Proof. by intros []. Qed.
#[export] Hint Resolve ends_ret ends_raise ends_bind ends_try ends_lift ends_zoom ends_for_each
  ends_of_res ends_get ends_put : pipe.

(** Python's arithmetic on objects comes to an end. *)
Class ObjEnds `{ObjOps} : Prop := {
  truth_ends v : obj_truth v ≠ Spin;
  add_ends a b : obj_add a b ≠ Spin;
  duration_ends v : obj_get_duration v ≠ Spin;
  iter_ends v : obj_iter v ≠ Spin;
}.

Section audio_ends.
Context `{ObjEnds}.

Lemma truthy_ends v : truthy v ≠ Spin.
Proof. destruct v; try done; apply truth_ends. Qed.
Lemma py_add_ends a b : py_add a b ≠ Spin.
Proof. destruct a, b; try done; apply add_ends. Qed.
Lemma get_duration_ends v : get_duration v ≠ Spin.
Proof. destruct v; try done; apply duration_ends. Qed.
Lemma py_iter_ends v : py_iter v ≠ Spin.
Proof. destruct v; try done; apply iter_ends. Qed.
Lemma sum_map_ends f acc l : Forall (λ x, f x ≠ Spin) l → sum_map f acc l ≠ Spin.
Proof.
  intros Hl. revert acc. induction Hl as [|x l Hx Hl IH]; intros acc; simpl; [done|].
  destruct (f x) as [v|e|]; try done. pose proof (py_add_ends acc v).
  destruct (py_add acc v); try done; apply IH.
Qed.
Lemma sum_any_ends f acc l : (∀ x, f x ≠ Spin) → sum_map f acc l ≠ Spin.
Proof. intros Hf. by apply sum_map_ends, Forall_true. Qed.

(** Nested lists included: by recursion on the item. *)
Lemma extract_ends obj : extract_audio_duration obj ≠ Spin.
Proof.
  revert obj. fix IH 1. intros [| | | |l| |d| | |]; try discriminate.
  - change (sum_map extract_audio_duration (PyNum 0) l ≠ Spin). apply sum_map_ends.
    induction l as [|x l IHl]; [constructor|constructor; [apply IH|exact IHl]].
  - simpl. set (dur := default (PyNum 0) (dict_get "duration" d)).
    pose proof (truthy_ends dur).
    assert (∀ l, py_sum (PyNum 0) l ≠ Spin) by (intros l; by apply sum_any_ends).
    assert (match truthy dur with
            | Ok true => Ok dur
            | Ok false =>
                match dict_get "sample" d, dict_get "segments" d with
                | Some sample, _ => get_duration sample
                | None, Some segments =>
                    match py_iter segments with
                    | Ok l => sum_map get_duration (PyNum 0) l
                    | Raise e => Raise e
                    | Spin => Spin
                    end
                | None, None => Ok (PyNum 0)
                end
            | Raise e => Raise e
            | Spin => Spin
            end ≠ Spin) as Hrest.
    { destruct (truthy dur) as [[]| |]; try done.
      destruct (dict_get "sample" d); [apply get_duration_ends|].
      destruct (dict_get "segments" d) as [seg|]; [|done]. pose proof (py_iter_ends seg).
      destruct (py_iter seg); try done. apply sum_any_ends, get_duration_ends. }
    clear IH. destruct dur; auto.
Qed.
End audio_ends.

Section drained.
Context `{ObjEnds} {U : Type} (env : environment) (cfg : config) (st : stage U).
Context (free_pool : prog U unit) (fuel : nat).
Local Abbreviation WL := (world U * locals)%type.
Local Abbreviation P X := (prog WL X).
#[local] Instance drained_runtime : Runtime (world U) := world_runtime env.

(** The downstream queue has room. *)
Context (Hput : ∀ t, e_out_put env t = Ok tt) (Hfuel : (0 < fuel)%nat).

Lemma oc_put_ends m : ends
  (oc_blocking_put (out_queue env) (Some (_release_pool_on_stall env free_pool)) fuel m).
Proof using Hput Hfuel.
  intros [w ch]. destruct fuel as [|n]; [lia|].
  unfold oc_blocking_put, lift, _put_retry, putter, loop, retry_turn, try_except, bind, ret. simpl.
  unfold answer, bind, observe, of_res, act, ret. simpl. by rewrite Hput.
Qed.

Lemma oc_flush_ends : ends
  (oc_flush (out_queue env) (Some (_release_pool_on_stall env free_pool)) fuel).
Proof using Hput Hfuel.
  apply ends_bind; [apply ends_get|]. intros ch. destruct (oc_pending ch); [apply ends_ret|].
  apply ends_bind; [apply ends_put|]. intros []. apply oc_put_ends.
Qed.

Lemma channel_now_ends : ends (W:=world U * out_chan) (lift now).
Proof. by apply ends_lift. Qed.
Hint Resolve oc_put_ends oc_flush_ends channel_now_ends : pipe.

Lemma oc_send_ends v : ends
  (oc_send (out_queue env) (out_chunk cfg) (out_chunk_ms cfg)
     (Some (_release_pool_on_stall env free_pool)) fuel v).
Proof using Hput Hfuel.
  unfold oc_send. case_match; [apply oc_put_ends|].
  apply ends_bind; [apply ends_get|]. intros ch.
  apply ends_bind; [destruct (oc_pending ch); auto with pipe|]. intros [].
  apply ends_bind; [apply ends_get|]. intros ch'. apply ends_bind; [apply ends_put|]. intros [].
  apply ends_bind; [apply ends_get|]. intros ch2. case_match; [auto with pipe|].
  apply ends_bind; [auto with pipe|]. intros n. case_match; auto with pipe.
Qed.

Lemma modify_ends h : ends (W:=WL) (modify h).
Proof. by intros []. Qed.
Lemma look_ends {X} (h : environment → nat → X) : ends (W:=WL) (look env h).
Proof. by intros []. Qed.
Lemma act_ends a : ends (W:=WL) (in_world (act a)).
Proof. by intros []. Qed.
Lemma world_now_ends : ends (W:=WL) (in_world now).
Proof. by intros []. Qed.
Hint Resolve oc_send_ends modify_ends look_ends act_ends world_now_ends : pipe.

Lemma emit_ends v : ends (_emit env cfg free_pool fuel v).
Proof using Hput Hfuel.
  apply ends_bind; [apply ends_get|]. intros l.
  apply ends_bind; [|intros []; case_match; [by apply ends_zoom, oc_send_ends|apply ends_raise]].
  destruct (l_ipc_left l); [apply ends_ret|].
  apply ends_bind; [apply modify_ends|]. intros []. apply ends_bind; [apply look_ends|].
  intros y. case_match; auto with pipe.
Qed.
Hint Resolve emit_ends : pipe.

Lemma emit_all_ends l : ends (emit_all env cfg free_pool fuel l).
Proof using Hput Hfuel. apply ends_for_each. auto with pipe. Qed.

Lemma out_flush_ends : ends (out_flush env free_pool fuel).
Proof using Hput Hfuel. apply ends_zoom. auto with pipe. Qed.

Lemma out_maybe_flush_ends : ends (out_maybe_flush env cfg free_pool fuel).
Proof using Hput Hfuel.
  apply ends_zoom, ends_bind; [apply ends_get|]. intros ch.
  destruct (oc_pending ch); [apply ends_ret|]. apply ends_bind; [auto with pipe|].
  intros n. case_match; auto with pipe.
Qed.

Lemma add_audio_ends v : v ≠ Spin → ends (W:=WL) (add_audio v).
Proof.
  intros Hv. apply ends_bind; [by apply ends_of_res|]. intros x.
  apply ends_bind; [apply ends_get|]. intros l.
  apply ends_bind; [apply ends_of_res, py_add_ends|]. auto with pipe.
Qed.

Lemma write_timing_10_ends : ends (W:=WL) (write_timing_10 cfg).
Proof.
  apply ends_bind; [apply ends_get|]. intros l. case_match; [|apply ends_ret].
  apply ends_bind; [apply ends_get|]. auto with pipe.
Qed.
Hint Resolve emit_all_ends out_flush_ends add_audio_ends write_timing_10_ends : pipe.

Lemma stopping_ends : ends (W:=WL) (stopping env).
Proof. apply ends_bind; auto with pipe. Qed.

Lemma emit_generator_ends ys ending : ends (emit_generator env cfg free_pool fuel ys ending).
Proof using Hput Hfuel.
  induction ys as [|y ys IH]; simpl; [destruct ending; auto with pipe|].
  apply ends_bind; [apply stopping_ends|]. intros []; [apply ends_ret|].
  apply ends_bind; [case_match; auto with pipe|]. auto.
Qed.

Lemma add_items_ends n : ends (W:=WL) (add_items n).
Proof. apply modify_ends. Qed.
Lemma add_time_ends n : ends (W:=WL) (add_time n).
Proof. apply modify_ends. Qed.
Hint Resolve add_items_ends add_time_ends : pipe.

Lemma handle_result_ends res n start t audio :
  ends (handle_result env cfg free_pool fuel res n start t audio).
Proof using Hput Hfuel H0.
  assert (∀ v, ends ((if has_timing cfg
        then add_items n ;! add_time t ;!
             (let! a := of_res (extract_audio_duration (PyList v)) in
              let! b := of_res (truthy a) in
              add_audio (Ok (if b : bool then a else audio))) ;!
             write_timing_10 cfg
        else ret tt) ;!
       if has_out cfg then emit_all env cfg free_pool fuel (valid_items v) else ret tt)) as Hv.
  { intros v. apply ends_bind; [|intros []; case_match; auto with pipe].
    case_match; [|apply ends_ret].
    apply ends_bind; [auto with pipe|]. intros []. apply ends_bind; [auto with pipe|]. intros [].
    apply ends_bind; [|auto with pipe]. apply ends_bind; [apply ends_of_res, extract_ends|]. intros a.
    apply ends_bind; [apply ends_of_res, truthy_ends|]. intros b. by apply add_audio_ends. }
  unfold handle_result. destruct res as [g|v].
  - apply ends_bind; [apply emit_generator_ends|]. intros []. case_match; [|apply ends_ret].
    apply ends_bind; [auto with pipe|]. intros []. apply ends_bind; [auto with pipe|]. intros [].
    apply ends_bind; [by apply add_audio_ends|]. auto with pipe.
  - destruct v; try apply ends_ret; apply (Hv _).
Qed.

(** Nothing more comes in, and the stage is done upstream. *)
Context (Hin : ∀ t, e_in env t = Raise Empty) (Hdone : ∀ t, e_upstream_done env t = true).
Context (Hup : has_upstream cfg = true) (Hpark : has_park cfg = false).
Context (Hroot : is_root cfg = false) (Hbatch : (batch_size cfg ≤ 0)%Z).
Context (Hcall : ∀ x u, (st_call st (Some x) u).1 ≠ Spin).

Definition buffer_view (l : locals) : in_buf * Z := (l_in l, l_empty l).
Local Abbreviation buffer := (view (U:=U) (λ _, @None unit) buffer_view).

Definition waiting (s : WL) : Prop :=
  ∃ b, l_in s.2 = Deque b ∧ WorkerStop ∉ b ∧ (0 ≤ l_empty s.2)%Z.

(** How many more turns there are. *)
Definition turns_left (s : WL) : nat :=
  match buf_items (l_in s.2) with
  | [] => Z.to_nat (empty_threshold cfg - l_empty s.2)
  | b => length b + Z.to_nat (empty_threshold cfg)
  end.

Lemma waiting_view s s' : buffer s' = buffer s → waiting s → waiting s' ∧ turns_left s' = turns_left s.
Proof.
  unfold view, buffer_view. intros E (b & Hb & Hw & He). injection E as _ Hl Hem.
  unfold waiting, turns_left. rewrite Hl, Hem. eauto.
Qed.

(** A turn came to an end, with fewer turns left if there is another one. *)
Definition progress (s : WL) (r : res turn) (s' : WL) : Prop :=
  r ≠ Spin ∧ (r = Ok Break ∨ waiting s' ∧ (turns_left s' < turns_left s)%nat) ∧ r ≠ Ok Return.

Lemma stage_item_drains x (s : WL) :
  x ≠ WorkerStop →
  (stage_item env cfg st free_pool fuel x s).1 ≠ Spin ∧
  (∀ t, (stage_item env cfg st free_pool fuel x s).1 = Ok t → t = Continue) ∧
  buffer (stage_item env cfg st free_pool fuel x s).2 = buffer s.
Proof using Hput Hfuel H0 Hbatch Hcall.
  intros Hx. unfold stage_item.
  assert (_is_worker_stop x = false) as -> by (by destruct x as [|[]| | | | | | | |]).
  destruct (_is_end x); [split_and!; [done|by intros t [=]|done]|].
  rewrite (proj2 (Z.ltb_ge 0 (batch_size cfg)) Hbatch).
  assert (ends (in_world (_timed_call env (has_busy cfg) (st_call st) (Some x)) : P result)) as Hc.
  { intros [w l]. unfold in_world, lift, _timed_call.
    specialize (Hcall x (user w)). destruct (has_busy cfg);
      unfold bind, try_finally, on_user; simpl;
      destruct (st_call st (Some x) (user w)) as [[]]; simpl in *; done. }
  assert (keeps buffer (in_world (_timed_call env (has_busy cfg) (st_call st) (Some x)))) as Hk.
  { apply in_world_view. intros w. unfold seen.
    enough (∀ tr : list action, omap (λ _, @None unit) tr = []) as Hn by (by rewrite !Hn).
    intros tr. by induction tr. }
  split_and!.
  - apply ends_bind; [auto with pipe|]. intros t. apply ends_bind; [done|]. intros res.
    apply ends_bind; [auto with pipe|]. intros t'.
    apply ends_bind; [apply ends_of_res, extract_ends|]. intros a.
    apply ends_bind; [apply handle_result_ends|]. intros []. apply ends_ret.
  - intros t. unfold bind, ret. repeat (case_match; try done); by intros [=].
  - apply keeps_bind; [apply now_view|]. intros t. apply keeps_bind; [done|]. intros res.
    apply keeps_bind; [apply now_view|]. intros t'. apply keeps_bind; [apply keeps_of_res|].
    intros a. apply keeps_bind; [by apply handle_result_view|]. intros; apply keeps_ret.
Qed.

Lemma stage_turn_drains (s : WL) : waiting s → wp (stage_turn env cfg st free_pool fuel) (progress s) s.
Proof using Hput Hfuel H0 Hin Hdone Hup Hbatch Hcall.
  intros (b & Hb & Hws & He). destruct s as [w [i o fl ipc it ti au em]]. simpl in *. subst i.
  unfold stage_turn. apply wp_bind. destruct b as [|x b].
  - unfold wp at 1, next_item, try_except, bind, on_in, zoom, ic_get, ic_receive, get_obj, lift. simpl.
    unfold answer, bind, observe, of_res. simpl. rewrite Hin. simpl. rewrite Hup. simpl. rewrite Hdone.
    simpl. apply wp_ret. split; [by case_match|]. split; [|by case_match].
    destruct (_ <=? _)%Z eqn:Hle; boolify; [by left|right].
    split; [exists []; simpl; split_and!; [done..|lia]|]. unfold turns_left. simpl. lia.
  - apply not_elem_of_cons in Hws as [Hx Hws].
    unfold wp at 1, next_item, try_except, bind, on_in, zoom, ic_get, ic_receive, get_obj, lift. simpl.
    set (s1 := (w, Locals (Deque b) o fl ipc it ti au 0) : WL).
    destruct (stage_item_drains x s1) as (Hsp & Hok & Hv); [congruence|].
    change (progress (w, Locals (Deque (x :: b)) o fl ipc it ti au em)
      (stage_item env cfg st free_pool fuel x s1).1 (stage_item env cfg st free_pool fuel x s1).2).
    destruct (stage_item env cfg st free_pool fuel x s1) as [r s2]. simpl in *.
    assert (waiting s1) as Hw1 by (exists b; by split_and!).
    destruct (waiting_view s1 s2 Hv Hw1) as [Hw2 Ht]. split; [done|]. split.
    + right. split; [done|]. rewrite Ht. unfold turns_left, s1. simpl. destruct b; simpl; lia.
    + intros ->. by specialize (Hok _ eq_refl).
Qed.

Lemma worker_turn_drains (s : WL) :
  waiting s →
  wp (worker_turn env cfg st free_pool fuel)
     (λ r s', r ≠ Spin ∧ (r = Ok Continue → waiting s' ∧ (turns_left s' < turns_left s)%nat)) s.
Proof using Hput Hfuel H0 Hin Hdone Hup Hbatch Hcall Hpark Hroot.
  intros Hw. unfold worker_turn. apply wp_bind.
  set (c := if has_out cfg then _ else _).
  assert (ends c ∧ keeps buffer c) as [He Hk].
  { unfold c. destruct (has_out cfg); [|by split].
    split; [apply out_maybe_flush_ends|by apply out_maybe_flush_view]. }
  clearbody c. unfold wp at 1. specialize (He s). specialize (Hk s).
  destruct (c s) as [[[]|e|] s1]; simpl in *; [|done..].
  destruct (waiting_view s s1 Hk Hw) as [Hw1 <-]. clear Hk Hw s.
  apply wp_try. apply (wp_mono _ (progress s1)).
  2: { intros r s2 (Hs & Hp & Hr). destruct r as [t|e|]; [|clear Hr|done].
       - split; [done|]. intros [= ->]. by destruct Hp.
       - destruct Hp as [|Hp]; [done|]. destruct s2 as [w2 l2].
         case_match; [by unfold wp; simpl|]. by repeat case_match; unfold wp; simpl. }
  destruct s1 as [w l]. apply wp_bind, wp_look. simpl.
  case_match; [apply wp_ret; split_and!; [done|by left|done]|].
  unfold _maybe_park. rewrite Hpark, Hroot. simpl. apply wp_bind, wp_ret. simpl.
  set (w1 := World _ _ _).
  assert (∀ w', waiting (w', l) ∧ turns_left (w', l) = turns_left (w, l)) as Hlook.
  { intros w'. split; [exact Hw1|done]. }
  apply wp_bind. destruct (negb (drain cfg) && has_drain_event cfg).
  - apply wp_look. case_match; [apply wp_ret; split_and!; [done|by left|done]|].
    unfold progress. rewrite <-(proj2 (Hlook (World (S (tick w1)) (trace w1) (user w1)))).
    apply stage_turn_drains, Hlook.
  - apply wp_ret. unfold progress. rewrite <-(proj2 (Hlook w1)). apply stage_turn_drains, Hlook.
Qed.

Lemma main_loop_drains turns (s : WL) :
  waiting s → (turns_left s < turns)%nat → (main_loop env cfg st free_pool fuel turns s).1 ≠ Spin.
Proof using Hput Hfuel H0 Hin Hdone Hup Hbatch Hcall Hpark Hroot.
  apply (loop_terminates (λ _, waiting) (λ _, turns_left)).
  clear s. intros _ [w l] Hw.
  enough (wp (let! s := stopping env in
    if s : bool then ret (inr Break)
    else let! t := worker_turn env cfg st free_pool fuel in
         ret (match t with Continue => inl tt | t => inr t end))
    (λ r s1, r ≠ Spin ∧ (r = Ok (inl tt) → waiting s1 ∧ (turns_left s1 < turns_left (w, l))%nat))
    (w, l)) as [Hs Hn].
  { split; [exact Hs|]. intros [] s1 E. rewrite E in Hn. by apply Hn. }
  unfold stopping. apply wp_bind, wp_bind, wp_look, wp_ret. simpl.
  case_match; [by apply wp_ret|]. set (w1 := World _ _ _).
  apply wp_bind. eapply wp_mono; [by apply worker_turn_drains|].
  intros [[]|e|] s1 [Hs Hn]; try (by apply wp_ret); try done.
  apply wp_ret. split; [done|]. intros _. by apply Hn.
Qed.
End drained.

(** ** Properties *)


(** C14: a parking worker gives its GPU up only when nothing is left in flight.
    With a downstream queue that takes what it is given, [_maybe_park]'s
    release ends in one of three ways: acknowledged (park = 2, as its last
    action) after every item [on_park] handed back was put and the output
    channel is empty; refused (park = 3) when [on_park] raised, with nothing
    emitted; or not answered, the park flag untouched. *)
Theorem park_delivers_before_release {U} (env : environment) (cfg : config)
    (st : stage U) (free_pool : prog U unit) (fuel : nat) (s : world U * locals) :
  puts_ok env → calm free_pool → has_out cfg = true →
  oc_bounded (out_chunk cfg) (l_out s.2) →
  let '(r, s') := park_release env cfg st free_pool fuel s in
  park_outcome (on_park_result st (user s.1)) s r s'.
Proof.
  intros Hputs Hfree Hout Hb.
  pose proof (park_release_spec env cfg st free_pool fuel Hputs Hfree Hout s Hb) as Hp.
  unfold wp in Hp. by destruct (park_release _ _ _ _ _ s).
Qed.

(** A held worker loses no message. While it waits for its GPU a
    scavenging worker may look into the input queue to tell whether the stream
    has ended: every message it takes but the [End] sentinels goes back on
    the queue, it neither runs the stage nor emits, and it stops waiting only
    when the hold is released, or told to stop, or, upstream being done, when it
    has read that all but one of the stage's workers have finished. *)
Theorem hold_wait_puts_back {U} (env : environment) (cfg : config) (fuel : nat)
    (s : world U * locals) :
  let '(r, s') := _scavenge_hold_wait env cfg fuel s in
  match r with Ok b => only_peeked s s' ∧ hold_end env cfg b | _ => True end.
Proof.
  pose proof (hold_wait_spec env cfg fuel s) as Hh. unfold wp in Hh.
  by destruct (_scavenge_hold_wait env cfg fuel s).
Qed.


(** What [on_park] hands back at the end of the run is put behind the
    sentinels. For the last worker of a stage that owns a GPU, the items
    [_park_release_gpu] forwards after [_finish_worker] follow the [End]s; on
    the final stage a [PipeIterator], which stops at its [End], never gets
    them. *)
Theorem park_items_follow_the_sentinels {U} (env : environment) (cfg : config)
    (st : stage U) (free_pool : prog U unit) (fuel : nat) (s : world U * locals)
    (on_park : prog U (list py)) (items : list py) :
  (∀ t, e_out_put env t = Ok tt) → calm free_pool → has_out cfg = true → has_counters cfg = true →
  (∀ t t', e_count env t ≤ e_finished env t')%Z →
  (∀ t, e_torch env t = true) → (∀ t, e_cuda env t = true) →
  st_on_park st = Some on_park → (on_park (user s.1)).1 = Ok items → oc_pending (l_out s.2) = [] →
  let '(r, s') := (_finish_worker env cfg ;! _park_release_gpu env cfg st free_pool fuel) s in
  r ≠ Spin →
  r = Ok tt ∧
  carried (omap out_msg (trace s'.1)) =
    carried (omap out_msg (trace s.1)) ++ replicate (n_ends cfg) End ++ valid_items items.
Proof.
  intros Hput Hfree Hout Hcnt Hlast Htorch Hcuda Hpark Hitems Hpend. unfold bind at 1.
  pose proof (finish_spec env cfg s) as Hf. unfold wp in Hf. rewrite Hcnt in Hf.
  destruct (_finish_worker env cfg s) as [r [w1 l1]]; simpl in *.
  destruct Hf as (-> & Hu & k & done & _ & Ht & Hd & Hall).
  destruct (Hall Hput Hout) as [-> ->]; [by apply Z.leb_le|]. rewrite Hd in Ht by done.
  rewrite (proj2 (Z.leb_le _ _) (Hlast _ _)) in Ht.
  assert (puts_ok env) as Hputs by (intros t; left; apply Hput).
  assert (cuda_ready env w1 = (Ok true, World (S (S (tick w1))) (trace w1) (user w1))) as Hready.
  { unfold cuda_ready, bind, observe. simpl. by rewrite Htorch, Hcuda. }
  unfold _park_release_gpu, in_world, lift, bind at 1. rewrite Hready. simpl. rewrite Hpark.
  unfold bind at 1, try_except, on_user. simpl.
  rewrite Hu. destruct (on_park (user s.1)) as [r0 u]; simpl in *. subst r0.
  assert (oc_bounded (out_chunk cfg) (l_out s.2)) as Hb by (by apply oc_bounded_nil).
  assert (carried (omap out_msg (trace w1)) =
    carried (omap out_msg (trace s.1)) ++ replicate (n_ends cfg) End) as Hends.
  { rewrite Ht. unfold finish_actions. rewrite omap_app, carried_app. f_equal.
    change (carried (omap out_msg (replicate (n_ends cfg) (PutOut (Bare End)) ++ [SetDone])) =
      replicate (n_ends cfg) End).
    rewrite omap_app, carried_app, carried_ends. by rewrite app_nil_r. }
  destruct items as [|x items].
  { simpl. intros _. split; [done|]. by rewrite app_nil_r, <-Hends. }
  set (w2 := World _ _ u).
  pose proof (deliver_spec env cfg free_pool fuel Hputs Hfree Hout (valid_items (x :: items)) (w2, s.2) Hb) as Hdel.
  unfold wp in Hdel.
  match goal with |- let '(r, s') := ?c in _ =>
    change c with ((emit_all env cfg free_pool fuel (valid_items (x :: items)) ;!
      if has_out cfg then out_flush env free_pool fuel else ret tt) (w2, s.2)) end.
  destruct ((emit_all _ _ _ _ _ ;! _) (w2, s.2)) as [r [w3 l3]]; simpl in *. intros Hr.
  destruct Hdel as [Hdel _]. destruct r as [[]|e|]; [|done..]. split; [done|].
  destruct Hdel as [(_ & He & _) Hp]. unfold emitted in He. simpl in *.
  rewrite Hp, Hpend, !app_nil_r in He. rewrite He, Hends. by rewrite <-app_assoc.
Qed.

(** *** Runs to look at *)

Module ExitDemo.
(** The queue is dry, upstream is done, the GPU is initialised. *)
Definition env : environment := {|
  e_clock n := Z.of_nat n * 1000;
  e_should_stop _ := 0; e_upstream_done _ := true; e_drain _ := false;
  e_park _ := 1; e_hold _ := 0; e_in _ := Raise Empty; e_in_put _ := Ok tt;
  e_out_put _ := Ok tt; e_torch _ := true; e_cuda _ := true; e_finished _ := 1; e_count _ := 1;
|}%Z.

(** [on_park] hands back what the stage object still holds. *)
Definition st : stage (list py) := {|
  st_call arg := λ u, (Ok (RVal PyNone), match arg with Some x => u ++ [x] | None => u end);
  st_load := None; st_flush := None; st_on_park := Some (λ u, (Ok u, [])); st_on_unpark := None;
|}.

Definition start : world (list py) * locals :=
  (World 0 [] [PyNum 7; PyNone; PyNum 8],
   set_in (Deque [PyNum 1; PyNum 2]) (init_locals (Demo.cfg 0))).

#[global] Instance no_objects_end : ObjEnds (H:=Demo.no_objects).
Proof. by split. Defined.
End ExitDemo.

Lemma park_delivers_before_release_witness :
  (park_release ExitDemo.env (Demo.cfg 0) ExitDemo.st (ret tt) 9 ExitDemo.start).1 = Ok true ∧
  let '(r, s') := park_release ExitDemo.env (Demo.cfg 0) ExitDemo.st (ret tt) 9 ExitDemo.start in
  park_outcome (on_park_result ExitDemo.st (user ExitDemo.start.1)) ExitDemo.start r s'.
Proof.
  split; [vm_compute; reflexivity|].
  assert (calm (W:=list py) (ret tt)) as Hfree by done.
  assert (oc_bounded (out_chunk (Demo.cfg 0)) (l_out ExitDemo.start.2)) as Hb.
  { unfold oc_bounded. simpl. lia. }
  pose proof (park_delivers_before_release ExitDemo.env (Demo.cfg 0) ExitDemo.st
    (ret tt) 9 ExitDemo.start (λ _, or_introl eq_refl) Hfree eq_refl Hb) as Hp.
  exact Hp.
Defined.


Lemma park_items_follow_the_sentinels_witness :
  carried (omap out_msg (trace
    ((_finish_worker ExitDemo.env (Demo.cfg 0) ;!
      _park_release_gpu ExitDemo.env (Demo.cfg 0) ExitDemo.st (ret tt) 9) ExitDemo.start).2.1)) =
    [End; End; PyNum 7; PyNum 8] ∧
  let '(r, s') := (_finish_worker ExitDemo.env (Demo.cfg 0) ;!
      _park_release_gpu ExitDemo.env (Demo.cfg 0) ExitDemo.st (ret tt) 9) ExitDemo.start in
  r ≠ Spin →
  r = Ok tt ∧
  carried (omap out_msg (trace s'.1)) =
    carried (omap out_msg (trace ExitDemo.start.1)) ++ replicate (n_ends (Demo.cfg 0)) End ++
    valid_items [PyNum 7; PyNone; PyNum 8].
Proof.
  split; [vm_compute; reflexivity|].
  assert (calm (W:=list py) (ret tt)) as Hfree by done.
  assert (∀ t t', e_count ExitDemo.env t ≤ e_finished ExitDemo.env t')%Z as Hl by done.
  pose proof (park_items_follow_the_sentinels ExitDemo.env (Demo.cfg 0) ExitDemo.st
    (ret tt) 9 ExitDemo.start (λ u, (Ok u, [])) [PyNum 7; PyNone; PyNum 8]
    (λ _, eq_refl) Hfree eq_refl eq_refl Hl (λ _, eq_refl) (λ _, eq_refl) eq_refl eq_refl eq_refl) as Hp.
  exact Hp.
Defined.
