(* ===== verification/Threads.v ===== *)
(** * The threaded worker (workers.py: _threaded_worker_run)

    A stage with [thread=True] runs [num_threads] copies of one loop in one
    process, over one stage object and with channels of their own. Section
    [thread] is that loop, and shares the code it has in common with
    [_worker_run] with [Worker]; Section [process] is the main thread. Then
    the threads and the main thread are interleaved: what their puts on the
    output queue look like to the next stage. *)
From S2P Require Import Prelude Types Queues Channels World Source Worker WorkerSpec.

(** [should_stop.value or thread_stop.is_set()], where the code reads both. *)
Definition with_thread_stop (env : environment) (thread_stop : nat → bool) : environment :=
  Environment (e_clock env)
    (λ t, if (e_should_stop env t =? 0)%Z then (if thread_stop t then 1 else 0)%Z else e_should_stop env t)
    (e_upstream_done env) (e_drain env) (e_park env) (e_hold env) (e_in env) (e_in_put env)
    (e_out_put env) (e_torch env) (e_cuda env) (e_finished env) (e_count env).

(** [_threaded_worker_run] takes neither a hold nor a park, ipc or busy cell. *)
Definition threaded (cfg : config) : config := {|
  is_root := is_root cfg; has_out := has_out cfg; has_upstream := has_upstream cfg;
  has_drain_event := has_drain_event cfg; has_timing := has_timing cfg;
  has_counters := has_counters cfg; has_park := false; has_ipc := false; has_hold := false;
  has_busy := false; raise_errors := raise_errors cfg; drain := drain cfg;
  batch_size := batch_size cfg; out_chunk := out_chunk cfg; out_chunk_ms := out_chunk_ms cfg;
  is_final_stage := is_final_stage cfg; expected_consumers := expected_consumers cfg;
  retry_base := retry_base cfg; empty_threshold := empty_threshold cfg;
  start_wall_time := start_wall_time cfg;
|}.

(** A turn of [_thread_loop] goes on, or returns, having set [thread_stop] or
    not. *)
Inductive after := Again | Leave (stop_all : bool).

Section thread.
Context `{ObjOps} {U : Type} (env : environment) (cfg : config) (st : stage U).
Context (free_pool : prog U unit) (fuel : nat) (thread_stop : nat → bool).
Local Abbreviation W := (world U).
Local Abbreviation P X := (prog (W * locals) X).
Local Abbreviation envt := (with_thread_stop env thread_stop).
Local Abbreviation cfgt := (threaded cfg).
#[local] Instance thread_runtime : Runtime W := world_runtime envt.
#[local] Instance thread_locals_runtime : Runtime (W * locals) := locals_runtime envt.

(** *** The root branch *)

Definition thread_generator (g : generator) (start : Z) : P after :=
  let! (raised, sent) :=
    _drain_source_generator (raise_errors cfg) (source_stopping envt cfgt) (count_item cfgt)
      (emit_opt envt cfgt free_pool fuel) g in
  if raised : bool then
    on_backoff (backoff_wait fuel (retry_base cfg) (0 <? sent)%Z (source_stopping envt cfgt)) ;!
    ret Again
  else
    (if has_timing cfg then
       let! t := in_world now in add_time (t - start) ;! write_timing cfgt
     else ret tt) ;!
    ret (Leave true).

(** Unlike [_worker_run] it does not publish the statistics. *)
Definition thread_values (v : py) (process_time : Z) : P after :=
  if _is_end v then ret (Leave true)
  else
    let result := as_list v in
    let has_end := existsb _is_end result in
    let valid := valid_items result in
    (if has_timing cfg && negb (bool_decide (valid = [])) then
       add_items (Z.of_nat (length valid)) ;!
       add_time process_time ;!
       add_audio (extract_audio_duration (PyList valid))
     else ret tt) ;!
    (if has_out cfg then emit_all envt cfgt free_pool fuel valid else ret tt) ;!
    ret (if has_end then Leave true else Again).

Definition thread_root : P after :=
  let! start := in_world now in
  let! result := in_world (act (Called None) ;! on_user (st_call st None)) in
  let! t := in_world now in
  match result with
  | RVal PyNone => ret Again
  | RGen g => thread_generator g start
  | RVal v => thread_values v (t - start)
  end.

(** *** The middle branch *)

(** After the sentinels the item, or its batch, is dealt with by the code of
    [_worker_run] ([stage_item]), which goes on with the next turn. *)
Definition thread_item (item : py) : P after :=
  let! stop := in_world (observe env e_should_stop) in
  if negb (stop =? 0)%Z then
    try_except (in_world (q_put (in_queue envt) None (Bare item)))
      (λ e, match e with Full => ret tt | e => raise e end) ;!
    on_in (ic_requeue_buffered (in_queue envt) fuel) ;!
    ret (Leave false)
  else if _is_worker_stop item then
    on_in (ic_requeue_buffered (in_queue envt) fuel) ;!
    ret (Leave false)
  else
    stage_item envt cfgt st free_pool fuel item ;!
    ret Again.

Definition thread_middle : P after :=
  let! next := next_item envt cfgt in
  match next with
  | inl item => thread_item item
  | inr Continue => ret Again
  | inr _ => ret (Leave false)
  end.

(** *** The loop *)

Definition thread_turn : P after :=
  (if has_out cfg then out_maybe_flush envt cfgt free_pool fuel else ret tt) ;!
  try_except
    (let! draining :=
       if negb (drain cfg) && has_drain_event cfg then look envt e_drain else ret false in
     if draining : bool then ret (Leave false)
     else if is_root cfg then thread_root else thread_middle)
    (λ e, if is_connection_error e then in_world (act (SetStop 2)) ;! ret (Leave false)
          else if negb (is_exception e) then raise e
          else if raise_errors cfg then raise e
          else ret Again).

(** The result: whether it has set [thread_stop]. *)
Definition _thread_loop (turns : nat) : P bool :=
  loop turns (λ _ : unit,
    let! s := stopping envt in
    if s : bool then ret (inr false)
    else
      let! a := thread_turn in
      ret (match a with Again => inl tt | Leave stop_all => inr stop_all end)) tt.

Definition thread_fn (turns : nat) : P bool :=
  try_finally (_thread_loop turns)
    (if has_out cfg then out_flush envt free_pool fuel else ret tt).
End thread.

(** ** The main thread *)

Section process.
Context `{ObjOps} {U : Type} (env : environment) (cfg : config) (st : stage U).
Context (free_pool : prog U unit) (fuel : nat).
(** [thread_stop], and whether all the futures are done. *)
Context (thread_stop all_done : nat → bool).
Local Abbreviation W := (world U).
Local Abbreviation P X := (prog (W * locals) X).
Local Abbreviation envt := (with_thread_stop env thread_stop).
Local Abbreviation cfgt := (threaded cfg).
#[local] Instance main_runtime : Runtime W := world_runtime env.

(** The [while] loop over the futures. *)
Definition wait_futures : P unit :=
  loop fuel (λ _ : unit,
    let! s := stopping envt in
    if s : bool then ret (inr tt)
    else
      let! all := look env (λ env, all_done) in
      if all : bool then ret (inr tt)
      else in_world (sleep (millis 10)) ;! ret (inl tt)) tt.

(** [worker.flush()]: its items go straight onto the output queue, [None]
    included. *)
Definition thread_flush : P unit :=
  match st_flush st with
  | Some f =>
      if has_out cfg then
        try_except
          (let! g := in_world (on_user f) in
           for_each (gen_yields g) (λ item, in_world (q_put (out_queue env) (Some (seconds 1)) (Bare item))) ;!
           match gen_raises g with Some e => raise e | None => ret tt end)
          (λ e, if is_exception e then ret tt else raise e)
      else ret tt
  | None => ret tt
  end.

(** [_park_release_gpu] without [emit]: what [on_park] returns is discarded. *)
Definition park_discard : P unit :=
  let! ready := in_world (cuda_ready env) in
  if negb ready then ret tt
  else
    match st_on_park st with
    | None => ret tt
    | Some f =>
        try_except (in_world (on_user f) ;! ret tt) (λ e, if is_exception e then ret tt else raise e)
    end.

(** The main thread from the submission of the threads to its end. The threads
    may still be running if it was a stop that ended the wait: [shutdown] does
    not wait for them and [cancel] does not touch a running future. *)
Definition threaded_main : P unit :=
  try_finally wait_futures (thread_flush ;! _finish_worker env cfgt) ;!
  park_discard ;!
  _free_cuda_pool env free_pool ;!
  stay_alive env fuel tt.

(** A stage with a custom [run()], user code that may call [thread_pull] and
    [_put]. *)
Definition threaded_custom (run : P unit) : P unit :=
  run ;!
  (if has_out cfg then out_flush env free_pool fuel else ret tt) ;!
  _finish_worker env cfgt ;!
  stay_alive env fuel tt.

(** [_threaded_worker_run] from the loading of the stage on; [run] is the
    stage's own [run()] if it has one. *)
Definition _threaded_worker_run (run : option (P unit)) : P unit :=
  in_world (match st_load st with Some f => on_user f | None => ret tt end) ;!
  match (if is_root cfg then None else run) with
  | Some run => threaded_custom run
  | None => threaded_main
  end.

Definition thread_pull (n : Z) : P (list py) :=
  let! items := pull_items envt cfgt fuel n in
  ret (default [] items).
End process.

(** ** What a thread puts and takes *)

Section middle_thread.
Context `{ObjOps} {U : Type} (env : environment) (cfg : config) (st : stage U).
Context (free_pool : prog U unit) (fuel : nat) (thread_stop : nat → bool).
Local Abbreviation WL := (world U * locals)%type.
Local Abbreviation envt := (with_thread_stop env thread_stop).
Local Abbreviation cfgt := (threaded cfg).
#[local] Instance middle_runtime : Runtime (world U) := world_runtime envt.
Context (f : py → res result) (Hf : computes st f) (Hnum : numeric cfgt f).
Context (Hputs : puts_ok env) (Hreads : reads_ok env) (Hfree : calm free_pool).
Context (Hstop : ∀ t, e_should_stop env t = 0%Z) (Hthread : ∀ t, thread_stop t = false).
Context (Hout : has_out cfg = true) (Hmiddle : is_root cfg = false).

Lemma envt_never_stops t : e_should_stop envt t = 0%Z.
Proof. simpl. by rewrite Hstop, Hthread. Qed.

(** What was taken was handed over, and what the calls returned was emitted. *)
Definition in_step {Y} (ok : Y → Prop) (r : res Y) (s : WL) : Prop :=
  match r with
  | Ok y => ok y ∧ balanced (batch_size cfg) s ∧ mapped cfgt f [] s
  | Raise _ => balanced (batch_size cfg) s ∧ mapped cfgt f [] s
  | Spin => True
  end.

Lemma in_step_skip n (w : world U) l :
  in_step (λ _ : unit, True) (Ok tt) (w, l) →
  balanced (batch_size cfg) (World n (trace w) (user w), l) ∧ mapped cfgt f [] (World n (trace w) (user w), l).
Proof. intros (_ & Hb & Hm). split; [by eapply balanced_view; [|exact Hb]|by eapply mapped_view; [|exact Hm]]. Qed.

Lemma thread_item_in_step item (w : world U) l :
  item ≠ WorkerStop → taken_from (batch_size cfg) [item] (w, l) → mapped cfgt f [] (w, l) →
  wp (thread_item env cfg st free_pool fuel thread_stop item) (in_step (λ a, a = Again)) (w, l).
Proof using Hf Hputs Hfree Hout Hstop Hthread Hnum Hreads.
  intros Hws Ht Hm. unfold thread_item. apply wp_bind. unfold wp at 1. simpl. rewrite Hstop. simpl.
  assert (_is_worker_stop item = false) as -> by (by destruct item as [|[]| | | | | | | |]).
  set (w1 := World (S (tick w)) (trace w) (user w)).
  assert (taken_from (batch_size cfg) [item] (w1, l)) as Ht1 by (by eapply taken_view; [|exact Ht]).
  assert (mapped cfgt f [] (w1, l)) as Hm1 by (by eapply mapped_view; [|exact Hm]).
  apply wp_bind.
  pose proof (stage_item_paid envt cfgt st free_pool fuel f Hf Hnum Hputs envt_never_stops Hfree Hout
                item (w1, l) Hws Hm1) as H1.
  pose proof (stage_item_settled envt cfgt st free_pool fuel Hreads item (w1, l) Hws Ht1) as H2.
  unfold wp in *. destruct (stage_item _ _ _ _ _ _ _) as [[t|e|] s2]; simpl in *; [|done..].
  split; [done|]. by destruct H2.
Qed.

Lemma thread_middle_in_step s :
  balanced (batch_size cfg) s → mapped cfgt f [] s →
  wp (thread_middle env cfg st free_pool fuel thread_stop) (in_step (λ a, a ≠ Leave true)) s.
Proof using Hf Hputs Hfree Hout Hstop Hthread Hnum Hreads.
  intros Hb Hm. apply wp_bind.
  pose proof (next_item_spec envt cfgt Hreads _ s Hb) as Hi. unfold wp in *.
  pose proof (next_item_kept envt cfgt s) as Hk.
  destruct (next_item envt cfgt s) as [[[v|t]|e|] [w1 l1]]; simpl in Hi, Hk; [| |done..].
  - destruct Hi as [Hv Ht].
    eapply wp_mono; [apply (thread_item_in_step v w1 l1 Hv Ht); by eapply mapped_view|].
    intros [a|e|] s2 H1; [|exact H1|done]. by destruct H1 as [-> ?].
  - destruct Hi as (Hb1 & _). assert (mapped cfgt f [] (w1, l1)) by (by eapply mapped_view).
    by destruct t.
Qed.

Lemma thread_turn_in_step s :
  balanced (batch_size cfg) s → mapped cfgt f [] s →
  wp (thread_turn env cfg st free_pool fuel thread_stop) (in_step (λ a, a ≠ Leave true)) s.
Proof using Hf Hputs Hfree Hout Hstop Hthread Hnum Hreads Hmiddle.
  intros Hb Hm. unfold thread_turn. rewrite Hout, Hmiddle. apply wp_bind.
  pose proof (out_maybe_flush_mapped envt cfgt free_pool fuel f Hputs Hfree s Hm) as H1.
  pose proof (level_maybe_flush envt cfgt free_pool fuel s) as Hl. unfold wp in *.
  destruct (out_maybe_flush envt cfgt free_pool fuel s) as [[[]|e|] [w1 l1]]; simpl in H1; [|done..].
  assert (balanced (batch_size cfg) (w1, l1)) as Hb1 by (by eapply balanced_view).
  apply wp_try. apply (wp_mono _ (in_step (λ a, a ≠ Leave true))).
  2: { intros [a|e|] [w2 l2] Hp; [done| |done]. destruct Hp as [Hp1 Hp2].
       destruct (is_connection_error e).
       - apply wp_bind. unfold wp. simpl. split; [done|]. split.
         + by eapply balanced_view; [exact (level_act (SetStop 2) eq_refl (w2, l2))|].
         + by eapply mapped_view; [exact (in_world_view output_of output_locals (act (SetStop 2)) (act_view output_of (SetStop 2) eq_refl) (w2, l2))|].
       - destruct (is_exception e); [destruct (raise_errors cfg)|]; unfold wp; simpl; by split_and?. }
  apply wp_bind. destruct (negb (drain cfg) && has_drain_event cfg).
  - apply wp_look. destruct (in_step_skip (S (tick w1)) w1 l1) as [Hb2 Hm2]; [done|].
    destruct (e_drain envt (tick w1)); [by apply wp_ret|]. by apply thread_middle_in_step.
  - apply wp_ret. by apply thread_middle_in_step.
Qed.

Lemma thread_loop_in_step turns s :
  balanced (batch_size cfg) s → mapped cfgt f [] s →
  wp (_thread_loop env cfg st free_pool fuel thread_stop turns) (in_step (λ stop_all, stop_all = false)) s.
Proof using Hf Hputs Hfree Hout Hstop Hthread Hnum Hreads Hmiddle.
  intros Hb Hm. apply (wp_loop (λ _ s, balanced (batch_size cfg) s ∧ mapped cfgt f [] s)); [done|done|].
  clear s Hb Hm. intros _ [w l] [Hb Hm]. unfold stopping.
  apply wp_bind, wp_bind, wp_look, wp_ret. rewrite envt_never_stops. simpl.
  destruct (in_step_skip (S (tick w)) w l) as [Hb1 Hm1]; [done|].
  apply wp_bind. pose proof (thread_turn_in_step _ Hb1 Hm1) as H1.
  unfold wp in *. destruct (thread_turn _ _ _ _ _ _ _) as [[[|[]]|e|] s2]; simpl in *; try done; tauto.
Qed.

Lemma flush_in_step s :
  balanced (batch_size cfg) s → mapped cfgt f [] s →
  wp (out_flush envt free_pool fuel)
     (λ r s', r = Spin ∨ r = Ok tt ∧ balanced (batch_size cfg) s' ∧ mapped cfgt f [] s' ∧ oc_pending (l_out s'.2) = []) s.
Proof using Hputs Hfree.
  intros Hb Hm. pose proof (out_flush_mapped envt cfgt free_pool fuel f Hputs Hfree s Hm) as Hf1.
  pose proof (level_flush envt free_pool fuel s) as Hl. unfold wp in *.
  destruct (out_flush envt free_pool fuel s) as [[[]|e'|] s']; destruct Hf1 as [Hl1 Hp]; simpl in Hl, Hl1;
    [right|done|by left].
  split_and!; [done| |done..]. by eapply balanced_view.
Qed.

(** Whatever way it ends, nothing is left pending. *)
Lemma thread_fn_in_step turns s :
  balanced (batch_size cfg) s → mapped cfgt f [] s →
  wp (thread_fn env cfg st free_pool fuel thread_stop turns)
     (λ r s', in_step (λ stop_all, stop_all = false) r s' ∧ (r ≠ Spin → oc_pending (l_out s'.2) = [])) s.
Proof using Hf Hputs Hfree Hout Hstop Hthread Hnum Hreads Hmiddle.
  intros Hb Hm. pose proof (thread_loop_in_step turns s Hb Hm) as H1.
  unfold thread_fn, try_finally, wp in *. rewrite Hout.
  destruct (_thread_loop _ _ _ _ _ _ _ _) as [r s1].
  assert (r ≠ Spin → balanced (batch_size cfg) s1 ∧ mapped cfgt f [] s1) as H2 by (destruct r; simpl in *; tauto).
  destruct r as [stop_all|e|]; [| |done]; destruct H2 as [Hb1 Hm1]; [done| |done|];
    pose proof (flush_in_step s1 Hb1 Hm1) as H3; unfold wp in H3;
    destruct (out_flush envt free_pool fuel s1) as [[[]|e'|] s2];
    simpl in *; destruct H3 as [?|(? & ? & ? & ?)]; try done; split; tauto.
Qed.
End middle_thread.

(** ** The threads and the main thread together *)

(** What the next stage can tell of a thread, or of the main thread. *)
Inductive event :=
  | EPut (m : msg)                (* on the output queue *)
  | EStop                         (* thread_stop.set() *)
  | EReturn                       (* the future is done *)
  | ELeave.                       (* the main thread leaves its wait *)

(** The process: which futures are done, [thread_stop], whether the main
    thread has left its wait, and who has put what; [None] is the main
    thread. *)
Record crew := Crew {
  w_done : list bool;
  w_stop : bool;
  w_left : bool;
  w_log : list (option nat * msg);
}.

Definition hired (n : nat) : crew := Crew (replicate n false) false false [].

(** One step of one of them. The signal handler stops the threads from the
    main thread. *)
Definition crew_step (c : crew) (x : option nat * event) : option crew :=
  match x with
  | (Some i, e) =>
      match w_done c !! i, e with
      | Some false, EPut m => Some (Crew (w_done c) (w_stop c) (w_left c) (w_log c ++ [(Some i, m)]))
      | Some false, EStop => Some (Crew (w_done c) true (w_left c) (w_log c))
      | Some false, EReturn => Some (Crew (<[i := true]> (w_done c)) (w_stop c) (w_left c) (w_log c))
      | _, _ => None
      end
  | (None, EPut m) =>
      if w_left c then Some (Crew (w_done c) (w_stop c) true (w_log c ++ [(None, m)])) else None
  | (None, EStop) => Some (Crew (w_done c) true (w_left c) (w_log c))
  | (None, ELeave) =>
      if negb (w_left c) && (w_stop c || forallb id (w_done c))
      then Some (Crew (w_done c) (w_stop c) true (w_log c)) else None
  | (None, EReturn) => None
  end.

Fixpoint crew_run (c : crew) (xs : list (option nat * event)) : option crew :=
  match xs with
  | [] => Some c
  | x :: xs => match crew_step c x with Some c => crew_run c xs | None => None end
  end.

(** The part of [i] in a schedule and in the log. *)
Definition part {X} (i : option nat) (xs : list (option nat * X)) : list X :=
  omap (λ x, if decide (x.1 = i) then Some x.2 else None) xs.

Definition event_msg (e : event) : option msg := match e with EPut m => Some m | _ => None end.

(** The puts so far, and those between two states. *)
Definition puts {U} (s : world U * locals) : list msg := omap out_msg (trace s.1).
Definition puts_between {U} (s s' : world U * locals) : list msg := drop (length (puts s)) (puts s').

Section crew.
Context `{ObjOps} {U : Type} (cfg : config) (st : stage U) (free_pool : prog U unit) (fuel : nat).

(** A run of [thread_fn]: what it is told, its turns, and where it starts. *)
Record thread_run := ThreadRun {
  tr_env : environment;
  tr_stop : nat → bool;
  tr_turns : nat;
  tr_tick : nat;
  tr_user : U;
}.
Definition tr_start (r : thread_run) : world U * locals :=
  (World (tr_tick r) [] (tr_user r), init_locals (threaded cfg)).
Definition tr_end (r : thread_run) : res bool * (world U * locals) :=
  thread_fn (tr_env r) cfg st free_pool fuel (tr_stop r) (tr_turns r) (tr_start r).

(** Its events: the puts of the loop, [thread_stop] if it sets it, the puts of
    the last flush, and its end. *)
Definition thread_events (r : thread_run) : list event :=
  let '(stop_all, s1) := _thread_loop (tr_env r) cfg st free_pool fuel (tr_stop r) (tr_turns r) (tr_start r) in
  let '(ended, s2) := tr_end r in
  (EPut <$> puts_between (tr_start r) s1) ++
  (if stop_all is Ok true then [EStop] else []) ++
  (EPut <$> puts_between s1 s2) ++
  (if ended is Spin then [] else [EReturn]).
End crew.

(** *** What a schedule keeps *)

Lemma part_app {X} i (xs ys : list (option nat * X)) : part i (xs ++ ys) = part i xs ++ part i ys.
Proof. apply omap_app. Qed.

(** What the log and the flags say of an actor. *)
Lemma crew_step_part c x c' i :
  crew_step c x = Some c' →
  part i (w_log c') = part i (w_log c) ++ omap event_msg (part i [x]).
Proof.
  destruct x as [[k|] []]; simpl; intros Hs; repeat case_match; simplify_eq/=;
    rewrite ?part_app, ?app_nil_r; unfold part; simpl; repeat case_decide; simplify_eq/=; by rewrite ?app_nil_r.
Qed.

Lemma crew_run_part c xs c' i :
  crew_run c xs = Some c' → part i (w_log c') = part i (w_log c) ++ omap event_msg (part i xs).
Proof.
  revert c. induction xs as [|x xs IH]; intros c; cbn [crew_run]; [intros [= ->]; by rewrite app_nil_r|].
  destruct (crew_step c x) as [c1|] eqn:E; [|done]. intros Hr. rewrite (IH _ Hr), (crew_step_part _ _ _ i E).
  change (x :: xs) with ([x] ++ xs). by rewrite part_app, omap_app, app_assoc.
Qed.

Lemma crew_run_done c xs c' i :
  crew_run c xs = Some c' → w_done c' !! i = Some true →
  w_done c !! i = Some true ∨ (Some i, EReturn) ∈ xs.
Proof.
  revert c. induction xs as [|x xs IH]; intros c; simpl; [intros [= ->]; auto|].
  destruct (crew_step c x) as [c1|] eqn:E; [|done]. intros Hr Hd. destruct (IH _ Hr Hd) as [H1|H1]; [|right; by right].
  destruct x as [[k|] []]; simpl in E; repeat case_match; simplify_eq/=; auto.
  destruct (decide (i = k)) as [->|]; [right; by left|]. rewrite list_lookup_insert_ne in H1 by done. auto.
Qed.

(** Without a stop the main thread comes last. *)
Definition in_turn (c : crew) : Prop :=
  w_stop c = false ∧ (w_left c = true → Forall (λ b, b = true) (w_done c)) ∧
  ∃ l1 l2, w_log c = l1 ++ l2 ∧ Forall (λ x, x.1 ≠ None) l1 ∧ Forall (λ x, x.1 = None) l2 ∧
    (w_left c = false → l2 = []).

Lemma crew_step_in_turn c x c' :
  x.2 ≠ EStop → crew_step c x = Some c' → in_turn c → in_turn c'.
Proof.
  intros Hx Hs (Hstop & Hleft & l1 & l2 & Hlog & H1 & H2 & Hnil).
  assert (∀ i, w_done c !! i = Some false → w_left c = false) as Hrunning.
  { intros i Hi. destruct (w_left c); [|done]. apply (Forall_lookup_1 _ _ _ _ (Hleft eq_refl)) in Hi. done. }
  destruct x as [[k|] []]; simpl in Hs; repeat case_match; simplify_eq/=; try done.
  - specialize (Hrunning _ H). split_and!; [done|by rewrite Hrunning|]. rewrite Hnil, app_nil_r in Hlog by done.
    exists (l1 ++ [(Some k, m)]), []. rewrite Hlog, app_nil_r. split_and!; [done| |done|done].
    apply Forall_app_2; [done|by constructor].
  - specialize (Hrunning _ H). split_and!; [done|by rewrite Hrunning|]. by exists l1, l2.
  - split_and!; [done|by apply Hleft|]. exists l1, (l2 ++ [(None, m)]). rewrite Hlog, app_assoc.
    split_and!; [done|done| |done]. apply Forall_app_2; [done|by constructor].
  - apply andb_true_iff in H as [Hl Hall]. rewrite Hstop in Hall. split_and!; [done| |].
    + intros _. cbn in Hall. apply Forall_forall. intros b Hb. rewrite forallb_forall in Hall.
      apply Hall. by apply list_elem_of_In.
    + exists l1, l2. by split_and!.
Qed.

Lemma crew_run_in_turn c xs c' :
  (∀ i, (i, EStop) ∉ xs) → crew_run c xs = Some c' → in_turn c → in_turn c'.
Proof.
  revert c. induction xs as [|x xs IH]; intros c Hx; simpl; [by intros [= ->]|].
  destruct (crew_step c x) as [c1|] eqn:E; [|done]. intros Hr Hc. apply (IH c1).
  - intros i Hi. apply (Hx i). by right.
  - done.
  - eapply crew_step_in_turn; [|done|done]. intros He. apply (Hx x.1). destruct x. simpl in *. subst. by left.
Qed.

Lemma hired_in_turn n : in_turn (hired n).
Proof. split_and!; [done|done|]. by exists [], []. Qed.

Section flush.
Context {U : Type} (env : environment) (free_pool : prog U unit) (fuel : nat).
#[local] Instance flush_runtime : Runtime (world U) := world_runtime env.

Lemma flush_extends s : ∃ ms, puts (out_flush env free_pool fuel s).2 = puts s ++ ms.
Proof.
  destruct s as [w l]. unfold out_flush, on_out, zoom. simpl.
  pose proof (oc_flush_spec (out_queue env) (Some (_release_pool_on_stall env free_pool)) fuel
    (stall_hook_quiet env free_pool) w (l_out l)) as Hf.
  unfold wp in Hf. destruct (oc_flush _ _ _ _) as [r [w2 ch2]]. destruct Hf as [_ [Hs _]].
  eexists. exact Hs.
Qed.
End flush.

Section delivered.
Context `{ObjOps} {U : Type} (cfg : config) (st : stage U) (free_pool : prog U unit) (fuel : nat).
Context (f : py → res result) (Hf : computes st f) (Hnum : numeric (threaded cfg) f).
Context (Hfree : calm free_pool) (Hout : has_out cfg = true) (Hmiddle : is_root cfg = false).

(** A thread nobody stops, with queues that answer. *)
Definition undisturbed (r : thread_run (U:=U)) : Prop :=
  puts_ok (tr_env r) ∧ reads_ok (tr_env r) ∧
  (∀ t, e_should_stop (tr_env r) t = 0%Z) ∧ ∀ t, tr_stop r t = false.

Lemma tr_start_in_step (r : thread_run (U:=U)) :
  balanced (batch_size cfg) (tr_start cfg r) ∧ mapped (threaded cfg) f [] (tr_start cfg r).
Proof.
  split.
  - exists []. split_and!; [done|apply not_elem_of_nil|done].
  - split_and!; [by apply oc_bounded_nil|by eexists|done].
Qed.

(** Its events: puts that carry everything the stage returned, then its end. *)
Lemma thread_events_delivered r :
  undisturbed r →
  ∃ ms ended, thread_events cfg st free_pool fuel r = (EPut <$> ms) ++ ended ∧
    (ended = [] ∨ ended = [EReturn] ∧
       carried ms = calls (trace (tr_end cfg st free_pool fuel r).2.1) ≫= λ x, result_items (f x)).
Proof using Hf Hnum Hfree Hout Hmiddle.
  intros (Hp & Hr & Hs & Hts). destruct (tr_start_in_step r) as [Hb Hm].
  pose proof (thread_loop_in_step (tr_env r) cfg st free_pool fuel (tr_stop r) f Hf Hnum Hp Hr Hfree Hs Hts
    Hout Hmiddle (tr_turns r) _ Hb Hm) as H1.
  pose proof (thread_fn_in_step (tr_env r) cfg st free_pool fuel (tr_stop r) f Hf Hnum Hp Hr Hfree Hs Hts
    Hout Hmiddle (tr_turns r) _ Hb Hm) as H2.
  unfold thread_events, tr_end in *. unfold wp in H1, H2.
  assert (∃ ms, puts (thread_fn (tr_env r) cfg st free_pool fuel (tr_stop r) (tr_turns r) (tr_start cfg r)).2 =
    puts (_thread_loop (tr_env r) cfg st free_pool fuel (tr_stop r) (tr_turns r) (tr_start cfg r)).2 ++ ms) as [ms Hms].
  { unfold thread_fn, try_finally. rewrite Hout. destruct (_thread_loop _ _ _ _ _ _ _ _) as [x s1].
    pose proof (flush_extends (with_thread_stop (tr_env r) (tr_stop r)) free_pool fuel s1) as Hfl.
    destruct x; simpl; [| |exists []; by rewrite app_nil_r];
      by destruct (out_flush _ _ _ s1) as [[[]|?|] s2]. }
  destruct (_thread_loop _ _ _ _ _ _ _ _) as [x s1]. destruct (thread_fn _ _ _ _ _ _ _ _) as [y s2].
  simpl in Hms. destruct H2 as [H2 Hpend].
  exists (puts s2), (match y with Spin => [] | _ => [EReturn] end). split.
  - unfold puts_between. rewrite Hms, drop_app_length, fmap_app. change (puts (tr_start cfg r)) with (@nil msg).
    rewrite <-!app_assoc. f_equal. destruct x as [[|]|e|]; [by destruct H1|..]; by destruct y.
  - assert (y = Spin ∨ y ≠ Spin) as [->|Hy] by (destruct y; auto); [by left|right].
    split; [by destruct y|]. assert (mapped (threaded cfg) f [] s2) as (_ & _ & He) by (destruct y; simpl in H2; tauto).
    rewrite app_nil_r in He. cbn [snd] in *. rewrite <-He. unfold emitted. by rewrite Hpend, app_nil_r.
Qed.
End delivered.

Lemma crew_run_length c xs c' : crew_run c xs = Some c' → length (w_done c') = length (w_done c).
Proof.
  revert c. induction xs as [|x xs IH]; intros c; cbn [crew_run]; [by intros [= ->]|].
  destruct (crew_step c x) as [c1|] eqn:E; [|done]. intros Hr. rewrite (IH _ Hr).
  destruct x as [[k|] []]; simpl in E; repeat case_match; simplify_eq/=; by rewrite ?length_insert.
Qed.

(** Only the threads there are take steps. *)
Lemma crew_run_member c xs c' k e :
  crew_run c xs = Some c' → (Some k, e) ∈ xs → (k < length (w_done c))%nat.
Proof.
  revert c. induction xs as [|x xs IH]; intros c; cbn [crew_run]; [by rewrite elem_of_nil|].
  destruct (crew_step c x) as [c1|] eqn:E; [|done]. intros Hr [<-|Hin]%elem_of_cons.
  - simpl in E. destruct (w_done c !! k) eqn:Hk; [|done]. by eapply lookup_lt_Some.
  - rewrite <-(crew_run_length c [x] c1); [by apply IH|]. cbn [crew_run]. by rewrite E.
Qed.

Lemma elem_of_part {X} i (x : X) xs : x ∈ part i xs ↔ (i, x) ∈ xs.
Proof.
  unfold part. rewrite list_elem_of_omap. split.
  - intros ([j y] & Hin & He). simpl in He. case_decide; by simplify_eq.
  - intros Hin. exists (i, x). split; [done|]. simpl. by rewrite decide_True.
Qed.

Lemma event_msgs (ms : list msg) : omap event_msg (EPut <$> ms) = ms.
Proof. induction ms as [|m ms IH]; [done|]. exact (f_equal (cons m) IH). Qed.

Lemma puts_then_return ms (ended l : list event) :
  ended = [] ∨ ended = [EReturn] → l `prefix_of` (EPut <$> ms) ++ ended →
  EStop ∉ l ∧ (EReturn ∈ l → ended = [EReturn] ∧ omap event_msg l = ms).
Proof.
  assert (∀ e, e ∈ EPut <$> ms → e ≠ EStop ∧ e ≠ EReturn) as Hput.
  { intros e (m & -> & _)%list_elem_of_fmap. done. }
  intros Hend [k Hk]. split.
  - intros Hl. assert (EStop ∈ (EPut <$> ms) ++ ended) as Hin by (rewrite Hk; apply elem_of_app; by left).
    apply elem_of_app in Hin as [[Hin _]%Hput|Hin]; [done|].
    destruct Hend as [->| ->]; [by apply elem_of_nil in Hin|by apply list_elem_of_singleton in Hin].
  - intros Hl. destruct Hend as [->| ->].
    + rewrite app_nil_r in Hk. assert (EReturn ∈ EPut <$> ms) as [_ []]%Hput; [|done].
      rewrite Hk. apply elem_of_app. by left.
    + split; [done|]. destruct k as [|e k _] using rev_ind.
      * rewrite app_nil_r in Hk. rewrite <-Hk, omap_app, event_msgs. apply app_nil_r.
      * rewrite app_assoc in Hk. apply app_inj_tail in Hk as [Hk _].
        assert (EReturn ∈ EPut <$> ms) as [_ []]%Hput; [|done]. rewrite Hk. apply elem_of_app. by left.
Qed.

(** C11: the End sentinels of a threaded middle stage come last. Take any number
    of threads, whatever the broker and the clock tell each, that nobody
    stops, and any interleaving of what they do with what the main thread
    does. The main thread puts (items of [flush()], sentinels) only after
    the last put of the last thread; and once it has left its wait every
    thread has put, in order, all the valid items the stage returned to it,
    its last partial chunk included. *)
Theorem threads_end_last `{ObjOps} {U} (cfg : config) (st : stage U) (free_pool : prog U unit) (fuel : nat)
    (f : py → res result) (runs : list (thread_run (U:=U))) (xs : list (option nat * event)) (c : crew) :
  computes st f → numeric (threaded cfg) f → calm free_pool → has_out cfg = true → is_root cfg = false →
  Forall undisturbed runs →
  (∀ i r, runs !! i = Some r → part (Some i) xs `prefix_of` thread_events cfg st free_pool fuel r) →
  (None, EStop) ∉ xs →
  crew_run (hired (length runs)) xs = Some c →
  (∃ l1 l2, w_log c = l1 ++ l2 ∧ Forall (λ x, x.1 ≠ None) l1 ∧ Forall (λ x, x.1 = None) l2) ∧
  (w_left c = true → ∀ i r, runs !! i = Some r →
     carried (part (Some i) (w_log c)) =
       calls (trace (tr_end cfg st free_pool fuel r).2.1) ≫= λ x, result_items (f x)).
Proof.
  intros Hf Hnum Hfree Hout Hmiddle Hruns Hparts Hmain Hrun.
  assert (∀ i r, runs !! i = Some r → EStop ∉ part (Some i) xs ∧ (EReturn ∈ part (Some i) xs →
    carried (omap event_msg (part (Some i) xs)) =
      calls (trace (tr_end cfg st free_pool fuel r).2.1) ≫= λ x, result_items (f x))) as Hthreads.
  { intros i r Hi. destruct (thread_events_delivered cfg st free_pool fuel f Hf Hnum Hfree Hout Hmiddle r)
      as (ms & ended & He & Hended); [by eapply Forall_lookup_1|].
    destruct (puts_then_return ms ended (part (Some i) xs)) as [Hns Hret]; [tauto|rewrite <-He; by apply Hparts|].
    split; [done|]. intros [-> ->]%Hret. by destruct Hended as [?|[_ ?]]. }
  assert (in_turn c) as (_ & Hleft & l1 & l2 & Hlog & H1 & H2 & _).
  { apply (crew_run_in_turn (hired (length runs)) xs); [|done|apply hired_in_turn].
    intros [k|] Hin; [|done]. pose proof (crew_run_member _ _ _ _ _ Hrun Hin) as Hk.
    unfold hired in Hk. simpl in Hk. rewrite length_replicate in Hk. apply lookup_lt_is_Some in Hk as [r Hr].
    apply (proj1 (Hthreads k r Hr)). by apply elem_of_part. }
  split; [by exists l1, l2|]. intros Hl i r Hi.
  rewrite (crew_run_part _ _ _ (Some i) Hrun). simpl. apply (Hthreads i r Hi), elem_of_part.
  assert (i < length (w_done c))%nat as [b Hb]%lookup_lt_is_Some.
  { rewrite (crew_run_length _ _ _ Hrun). simpl. rewrite length_replicate. by eapply lookup_lt_Some. }
  pose proof (Forall_lookup_1 _ _ _ _ (Hleft Hl) Hb) as ->.
  destruct (crew_run_done _ _ _ i Hrun Hb) as [Hd|]; [|done]. simpl in Hd.
  by apply lookup_replicate in Hd as [? _].
Qed.

(** ** Runs to look at *)

Module ThreadsDemo.
Definition run : thread_run (U:=nat) := ThreadRun Demo.env (λ _, false) 50 0 0.
Definition late : thread_run (U:=nat) := ThreadRun Demo.env (λ _, false) 50 57 0.
Definition events (r : thread_run (U:=nat)) : list event :=
  thread_events (H:=Demo.no_objects) (Demo.cfg 2) Demo.st (ret tt) 20 r.
Definition by_actor (i : option nat) (es : list event) : list (option nat * event) := pair i <$> es.
Definition main : list event := [ELeave; EPut (Bare End); EPut (Bare End)].
Definition schedule : list (option nat * event) :=
  by_actor (Some 0) (take 1 (events run)) ++ by_actor (Some 1) (events late) ++
  by_actor (Some 0) (drop 1 (events run)) ++ by_actor None main.

(** A source that ends with a list, on a chunked edge, in one thread. *)
Definition source : stage nat := {|
  st_call arg := ret (RVal (PyList [PyNum 7; End]));
  st_load := None; st_flush := None; st_on_park := None; st_on_unpark := None;
|}.
Definition source_cfg : config := {|
  is_root := true; has_out := true; has_upstream := false; has_drain_event := true;
  has_timing := true; has_counters := true; has_park := false; has_ipc := false;
  has_hold := false; has_busy := false; raise_errors := false; drain := false;
  batch_size := 0; out_chunk := 2; out_chunk_ms := 10000000; is_final_stage := false;
  expected_consumers := 1; retry_base := 1000; empty_threshold := 3; start_wall_time := 0;
|}.
Definition source_events : list event :=
  thread_events (H:=Demo.no_objects) source_cfg source (ret tt) 20 run.
(** What the main thread puts once it has left its wait. *)
Definition main_puts : list msg :=
  puts ((thread_flush (U:=nat) Demo.env source_cfg source ;! _finish_worker Demo.env (threaded source_cfg))
          (World 0 [] 0, init_locals source_cfg)).2.
End ThreadsDemo.

(** a threaded source may be overtaken by its own End sentinel. When a
    source returns its last items with [End], its thread sets [thread_stop]
    before the [finally] of [thread_fn] flushes the partial chunk. That is
    enough for the main thread to leave its wait, put the sentinel and declare
    the stage done: here is such an interleaving of what the code of the two
    does, in which the item comes after [End]. *)
Theorem source_end_overtakes :
  ∃ xs c, crew_run (hired 1) xs = Some c ∧
    part (Some 0) xs = ThreadsDemo.source_events ∧
    part None xs = ELeave :: (EPut <$> ThreadsDemo.main_puts) ∧
    w_log c = [(None, Bare End); (Some 0, Chunk [PyNum 7])].
Proof.
  exists [(Some 0, EStop); (None, ELeave); (None, EPut (Bare End)); (Some 0, EPut (Chunk [PyNum 7])); (Some 0, EReturn)].
  eexists. split_and!; vm_compute; reflexivity.
Qed.

Lemma threads_end_last_witness :
  (match crew_run (hired 2) ThreadsDemo.schedule with Some c => w_left c = true ∧ length (w_log c) = 5%nat | None => False end) ∧
  ∀ c, crew_run (hired 2) ThreadsDemo.schedule = Some c →
    (∃ l1 l2, w_log c = l1 ++ l2 ∧ Forall (λ x, x.1 ≠ None) l1 ∧ Forall (λ x, x.1 = None) l2) ∧
    (w_left c = true → ∀ i r, [ThreadsDemo.run; ThreadsDemo.late] !! i = Some r →
       carried (part (Some i) (w_log c)) =
         calls (trace (tr_end (H:=Demo.no_objects) (Demo.cfg 2) Demo.st (ret tt) 20 r).2.1) ≫=
           λ x, result_items (Demo.f x)).
Proof.
  split; [vm_compute; split; reflexivity|]. intros c Hc.
  assert (Forall (undisturbed (U:=nat)) [ThreadsDemo.run; ThreadsDemo.late]) as Hruns.
  { repeat (constructor; [split_and!; [apply Demo.puts|apply Demo.reads|done..]|]). constructor. }
  pose proof (threads_end_last (H:=Demo.no_objects) (Demo.cfg 2) Demo.st (ret tt) 20 Demo.f
    [ThreadsDemo.run; ThreadsDemo.late] ThreadsDemo.schedule c Demo.computes_f Demo.numeric_f ltac:(done) eq_refl eq_refl Hruns) as Hs.
  apply Hs; [| |exact Hc].
  - intros [|[|i]] r Hr; [injection Hr as <-|injection Hr as <-|done]; exists []; vm_compute; reflexivity.
  - intros Hin. assert (forallb (λ x, if x is (None, EStop) then false else true) ThreadsDemo.schedule = true) as Hall
      by (vm_compute; reflexivity).
    rewrite forallb_forall in Hall. by apply list_elem_of_In, Hall in Hin.
Defined.
