(* ===== verification/Placement.v ===== *)
(** * Where a worker runs (workers.py, scavenge.py)

    The CPU slice of a worker ([_cpu_chunk]), what [_setup_cpu] makes of it,
    and the physical GPU behind a logical index ([_resolve_physical_gpu],
    [scavenge.physical_gpu]). *)
From S2P Require Import Prelude Types Text.

(** ** CPUs *)

Definition chunk_start (base rem worker_idx : Z) : Z := worker_idx * base + Z.min worker_idx rem.
Definition chunk_size (base rem worker_idx : Z) : Z := base + (if (worker_idx <? rem)%Z then 1 else 0).

(** [_cpu_chunk(cpu_pool, worker_idx, num_workers)]. *)
Definition _cpu_chunk (cpu_pool : option (list Z)) (worker_idx num_workers : Z) : res (option (list Z)) :=
  match cpu_pool with
  | None | Some [] => Ok None
  | Some pool =>
      let n := Z.of_nat (length pool) in
      if (n <=? num_workers)%Z then
        match pool !! Z.to_nat (worker_idx mod n) with
        | Some c => Ok (Some [c])
        | None => Raise IndexError
        end
      else if (num_workers =? 0)%Z then Raise ZeroDivisionError
      else
        let base := (n / num_workers)%Z in
        let rem := (n mod num_workers)%Z in
        let start := chunk_start base rem worker_idx in
        Ok (Some (slice pool start (start + chunk_size base rem worker_idx)))
  end.

(** What [_setup_cpu] leaves behind: the affinity it set, torch's thread count
    and the three environment variables. *)
Record cpu_setup := CpuSetup {
  affinity : option (list Z);
  torch_threads : option Z;
  omp_num_threads : string;
  mkl_num_threads : string;
  openblas_num_threads : string;
}.

(** How many threads a worker gets: [cpu_threads], else its slice, else 2. *)
Definition thread_count (cpu_affinity : option (list Z)) (cpu_threads : option Z) : Z :=
  match cpu_threads with
  | Some n => if (n =? 0)%Z then
                match cpu_affinity with Some ((_ :: _) as l) => Z.of_nat (length l) | _ => 2 end
              else n
  | None => match cpu_affinity with Some ((_ :: _) as l) => Z.of_nat (length l) | _ => 2 end
  end.

(** [_setup_cpu(cpu_affinity, cpu_threads, worker_desc)]; [setaffinity] is
    [os.sched_setaffinity], if the platform has it, and [torch] says whether
    torch is loaded. *)
Definition _setup_cpu (setaffinity : option (list Z → res unit)) (torch : bool)
    (cpu_affinity : option (list Z)) (cpu_threads : option Z) : res cpu_setup :=
  let pinned :=
    match cpu_affinity with
    | Some ((_ :: _) as l) =>
        match setaffinity with
        | Some f => match f l with
                    | Ok _ => Ok (Some l)
                    | Raise e => if is_os_error e then Ok None else Raise e
                    | Spin => Spin
                    end
        | None => Ok None
        end
    | _ => Ok None
    end in
  match pinned with
  | Ok a =>
      let n := thread_count cpu_affinity cpu_threads in
      let s := str_of_Z n in
      Ok (CpuSetup a (if torch then Some n else None) s s s)
  | Raise e => Raise e
  | Spin => Spin
  end.

(** ** GPUs *)

(** [[d.strip() for d in inherited.split(",") if d.strip()]]. *)
Definition visible_devices (cvd : string) : list string :=
  filter (λ d, d ≠ EmptyString) (strip <$> split_commas cvd).

(** [_resolve_physical_gpu(gpu_id, inherited_cvd)]. *)
Definition _resolve_physical_gpu (gpu_id : Z) (inherited_cvd : option string) : string :=
  let inherited := strip (default EmptyString inherited_cvd) in
  if decide (inherited = EmptyString) then str_of_Z gpu_id
  else
    let visible := visible_devices inherited in
    if ((0 <=? gpu_id) && (gpu_id <? Z.of_nat (length visible)))%Z then
      default (str_of_Z gpu_id) (visible !! Z.to_nat gpu_id)
    else str_of_Z gpu_id.

(** The first GPU whose uuid and [entry] agree on the shorter of the two. *)
Fixpoint uuid_index (entry : string) (uuid_map : list (string * Z)) : option Z :=
  match uuid_map with
  | [] => None
  | (uuid, idx) :: uuid_map =>
      if startswith entry uuid || startswith uuid entry then Some idx
      else uuid_index entry uuid_map
  end.

(** [scavenge.physical_gpu(logical_id)], given [CUDA_VISIBLE_DEVICES] and what
    [_uuid_to_index()] answers (no rows when nvidia-smi is unavailable). *)
Definition physical_gpu (logical_id : Z) (cvd : option string) (uuid_map : list (string * Z)) : Z :=
  match cvd with
  | None => logical_id
  | Some cvd =>
      if decide (cvd = EmptyString) then logical_id
      else
        let visible := visible_devices cvd in
        if ((0 <=? logical_id) && (logical_id <? Z.of_nat (length visible)))%Z then
          let entry := default EmptyString (visible !! Z.to_nat logical_id) in
          match int_of_str entry with
          | Ok n => n
          | _ => default logical_id (uuid_index entry uuid_map)
          end
        else logical_id
  end.

(** ** The slices of a pool *)

Section cpu_chunks.
Context (pool : list Z) (num_workers : Z).
Local Abbreviation n := (Z.of_nat (length pool)).
Local Abbreviation base := (n / num_workers)%Z.
Local Abbreviation rem := (n mod num_workers)%Z.

Lemma chunk_start_next i :
  chunk_start base rem (i + 1) = (chunk_start base rem i + chunk_size base rem i)%Z.
Proof. unfold chunk_start, chunk_size. case_match; boolify; lia. Qed.

Context (Hpos : (0 < num_workers)%Z) (Hlt : (num_workers < n)%Z).

Lemma base_rem : (n = num_workers * base + rem)%Z ∧ (0 ≤ rem < num_workers)%Z ∧ (1 ≤ base)%Z.
Proof using Hpos Hlt.
  split; [apply Z.div_mod; lia|]. split; [by apply Z.mod_pos_bound|].
  apply Z.div_le_lower_bound; lia.
Qed.

Lemma chunk_start_nonneg i : (0 ≤ i)%Z → (0 ≤ chunk_start base rem i)%Z.
Proof using Hpos Hlt. destruct base_rem as (_ & ? & ?). unfold chunk_start. nia. Qed.

Lemma chunk_start_last : chunk_start base rem num_workers = n.
Proof using Hpos Hlt. destruct base_rem as (? & ? & ?). unfold chunk_start. lia. Qed.

Lemma cpu_chunk_slice i :
  _cpu_chunk (Some pool) i num_workers =
    Ok (Some (slice pool (chunk_start base rem i) (chunk_start base rem i + chunk_size base rem i))).
Proof using Hpos Hlt.
  unfold _cpu_chunk. destruct pool as [|c l] eqn:E; [simpl in Hlt; lia|]. rewrite <-E in *.
  rewrite (proj2 (Z.leb_gt _ _)) by done. by rewrite (proj2 (Z.eqb_neq _ _)) by lia.
Qed.

(** The slices of the first [k] workers, one after the other. *)
Lemma slices_prefix (k : nat) :
  (Z.of_nat k ≤ num_workers)%Z →
  concat ((λ i, slice pool (chunk_start base rem i)
                  (chunk_start base rem i + chunk_size base rem i)) <$> range (Z.of_nat k)) =
  take (Z.to_nat (chunk_start base rem (Z.of_nat k))) pool.
Proof using Hpos Hlt.
  unfold range. induction k as [|k IH]; intros Hk.
  - simpl. unfold chunk_start. by rewrite Z.min_l by (destruct base_rem; lia).
  - rewrite seqZ_S, fmap_app, concat_app, IH by lia. simpl. rewrite app_nil_r, Z.add_0_l.
    replace (Z.of_nat (S k)) with (Z.of_nat k + 1)%Z by lia. rewrite chunk_start_next.
    pose proof (chunk_start_nonneg (Z.of_nat k)). destruct base_rem as (_ & _ & ?).
    unfold slice. replace (_ + _ - _)%Z with (chunk_size base rem (Z.of_nat k)) by lia.
    assert (0 ≤ chunk_size base rem (Z.of_nat k))%Z by (unfold chunk_size; case_match; lia).
    rewrite Z2Nat.inj_add by lia. by rewrite take_take_drop.
Qed.

(** Each slice lies within the pool. *)
Lemma slice_length i :
  (0 ≤ i < num_workers)%Z →
  Z.of_nat (length (slice pool (chunk_start base rem i)
                      (chunk_start base rem i + chunk_size base rem i))) = chunk_size base rem i.
Proof using Hpos Hlt.
  intros Hi. unfold slice. rewrite length_take, length_drop.
  assert (0 ≤ chunk_start base rem i)%Z by (apply chunk_start_nonneg; lia).
  destruct base_rem as (Hn & Hr & Hb).
  assert (0 ≤ chunk_size base rem i)%Z by (unfold chunk_size; case_match; lia).
  enough (chunk_start base rem i + chunk_size base rem i ≤ n)%Z by lia.
  enough (chunk_start base rem i + chunk_size base rem i ≤ n)%Z by lia.
  rewrite <-chunk_start_next. pose proof chunk_start_last as Hlast. unfold chunk_start in *.
  assert ((i + 1) * base ≤ num_workers * base)%Z by (apply Z.mul_le_mono_nonneg_r; lia). lia.
Qed.
End cpu_chunks.

(** ** Device lists *)

(** [",".join(ws)], and the entries a [CUDA_VISIBLE_DEVICES] may have. *)
Definition device_list (ws : list string) : string := text (join_commas (chars <$> ws)).
Definition device (w : string) : Prop := word (chars w).

Lemma join_solid ws : Forall word ws → Forall (λ c, is_space c = false) (join_commas ws).
Proof.
  induction 1 as [|w ws Hw Hws IH]; [constructor|].
  destruct ws as [|w' ws]; [by apply word_solid|].
  change (join_commas (w :: w' :: ws)) with (w ++ ","%char :: join_commas (w' :: ws)).
  apply Forall_app. split; [by apply word_solid|]. by constructor.
Qed.

Lemma strip_device_list ws : Forall device ws → strip (device_list ws) = device_list ws.
Proof.
  intros Hws. unfold strip, device_list. rewrite chars_text, strip_solid; [done|].
  apply join_solid. by apply Forall_fmap.
Qed.

Lemma visible_device_list ws :
  ws ≠ [] → Forall device ws → visible_devices (device_list ws) = ws.
Proof.
  intros Hne Hws. unfold visible_devices, split_commas, device_list. rewrite chars_text, split_join.
  2: { by destruct ws. }
  2: { by apply Forall_fmap. }
  assert (strip <$> (text <$> (chars <$> ws)) = ws) as ->.
  { induction Hws as [|w ws Hw Hws IH]; [done|]. simpl. f_equal.
    - unfold strip. rewrite text_chars, strip_solid by (by apply word_solid). apply text_chars.
    - destruct ws; [done|]. by apply IH. }
  apply filter_all. eapply Forall_impl; [exact Hws|]. intros w [Hw _] ->. by apply Hw.
Qed.

Lemma device_list_nonempty ws : ws ≠ [] → Forall device ws → device_list ws ≠ EmptyString.
Proof.
  intros Hne Hws He. pose proof (visible_device_list ws Hne Hws) as Hv. rewrite He in Hv.
  destruct ws; [done|]. by compute in Hv.
Qed.

(** ** Properties *)

(** [cpus=] reserves every core of the pool for exactly one worker. With
    fewer workers than cores the slices of workers 0, 1, ..., laid end to end,
    are the pool, each slice has one core more than the smallest at most, and
    no worker goes without; with as many workers as cores or more, each gets
    one core of the pool, round robin. *)
Theorem cpu_chunk_partition (pool : list Z) (num_workers : Z) :
  pool ≠ [] → (0 < num_workers)%Z →
  let chunk i := match _cpu_chunk (Some pool) i num_workers with Ok (Some l) => l | _ => [] end in
  ((num_workers < Z.of_nat (length pool))%Z →
     concat (chunk <$> range num_workers) = pool ∧
     ∀ i, (0 ≤ i < num_workers)%Z →
       let size := Z.of_nat (length (chunk i)) in
       (1 ≤ Z.of_nat (length pool) / num_workers ≤ size)%Z ∧
       (size ≤ Z.of_nat (length pool) / num_workers + 1)%Z) ∧
  ((Z.of_nat (length pool) ≤ num_workers)%Z →
     ∀ i, (0 ≤ i)%Z → ∃ c, chunk i = [c] ∧ pool !! Z.to_nat (i mod Z.of_nat (length pool)) = Some c).
Proof.
  intros Hne Hpos chunk. split.
  - intros Hlt.
    set (base := (Z.of_nat (length pool) / num_workers)%Z).
    set (rem := (Z.of_nat (length pool) mod num_workers)%Z).
    assert (∀ i, chunk i = slice pool (chunk_start base rem i)
              (chunk_start base rem i + chunk_size base rem i)) as Hc.
    { intros i. unfold chunk. by rewrite (cpu_chunk_slice pool num_workers Hpos Hlt). }
    split.
    + rewrite (list_fmap_ext chunk _ _ (λ _ i _, Hc i)).
      pose proof (slices_prefix pool num_workers Hpos Hlt (Z.to_nat num_workers)) as Hs.
      rewrite Z2Nat.id in Hs by lia. fold base rem in Hs. rewrite Hs by lia.
      unfold base, rem. rewrite chunk_start_last by done. rewrite Nat2Z.id. by apply firstn_all.
    + intros i Hi size. unfold size. rewrite Hc. unfold base, rem. rewrite slice_length by done.
      destruct (base_rem pool num_workers Hpos Hlt) as (_ & _ & ?).
      unfold chunk_size. case_match; lia.
  - intros Hle i Hi. unfold chunk, _cpu_chunk. destruct pool as [|c0 l] eqn:E; [done|]. rewrite <-E in *.
    rewrite (proj2 (Z.leb_le _ _)) by done.
    assert (0 < Z.of_nat (length pool))%Z by (subst; simpl; lia).
    pose proof (Z.mod_pos_bound i (Z.of_nat (length pool))).
    destruct (lookup_lt_is_Some_2 pool (Z.to_nat (i mod Z.of_nat (length pool)))) as [c Hc]; [lia|].
    exists c. by rewrite Hc.
Qed.

Lemma cpu_chunk_partition_witness :
  let chunk i := match _cpu_chunk (Some [8; 9; 10; 11; 12]%Z) i 2 with Ok (Some l) => l | _ => [] end in
  (chunk 0%Z = [8; 9; 10]%Z ∧ chunk 1%Z = [11; 12]%Z) ∧
  ((2 < Z.of_nat (length [8; 9; 10; 11; 12]%Z))%Z →
     concat (chunk <$> range 2) = [8; 9; 10; 11; 12]%Z ∧
     ∀ i, (0 ≤ i < 2)%Z →
       let size := Z.of_nat (length (chunk i)) in
       (1 ≤ Z.of_nat (length [8; 9; 10; 11; 12]%Z) / 2 ≤ size)%Z ∧
       (size ≤ Z.of_nat (length [8; 9; 10; 11; 12]%Z) / 2 + 1)%Z) ∧
  ((Z.of_nat (length [8; 9; 10; 11; 12]%Z) ≤ 2)%Z →
     ∀ i, (0 ≤ i)%Z → ∃ c, chunk i = [c] ∧
       [8; 9; 10; 11; 12]%Z !! Z.to_nat (i mod Z.of_nat (length [8; 9; 10; 11; 12]%Z)) = Some c).
Proof.
  intros chunk. split; [by split|].
  apply (cpu_chunk_partition [8; 9; 10; 11; 12]%Z 2); [done|lia].
Defined.

(** A logical GPU index names an entry of the device list the pipeline was
    launched with. Under [CUDA_VISIBLE_DEVICES=w0,w1,...] worker GPU [i] is
    pinned to [wi], so that pools of different indices land on different
    devices; without a restriction it is [i] itself, and an index past the
    list falls back to its own number. The scavenger's [physical_gpu] follows
    the same convention when the entries are indices. *)
Theorem physical_gpu_composes (ws : list string) (uuid_map : list (string * Z)) (i : Z) :
  ws ≠ [] → Forall device ws → (0 ≤ i)%Z →
  _resolve_physical_gpu i None = str_of_Z i ∧ physical_gpu i None uuid_map = i ∧
  _resolve_physical_gpu i (Some (device_list ws)) = default (str_of_Z i) (ws !! Z.to_nat i) ∧
  (∀ n, ws !! Z.to_nat i = Some (str_of_Z n) → (0 ≤ n)%Z →
     physical_gpu i (Some (device_list ws)) uuid_map = n) ∧
  (ws !! Z.to_nat i = None → physical_gpu i (Some (device_list ws)) uuid_map = i).
Proof.
  intros Hne Hws Hi. split; [done|]. split; [done|].
  unfold _resolve_physical_gpu, physical_gpu. simpl. rewrite strip_device_list by done.
  rewrite !decide_False by (by apply device_list_nonempty). rewrite visible_device_list by done.
  rewrite (proj2 (Z.leb_le 0 i)) by done. simpl.
  destruct (ws !! Z.to_nat i) as [w|] eqn:E.
  - apply lookup_lt_Some in E as Hlt. rewrite (proj2 (Z.ltb_lt _ _)) by lia.
    split_and!; [done| |done]. intros n [= ->] Hn. simpl. by rewrite int_of_str_of_Z.
  - apply lookup_ge_None in E. rewrite (proj2 (Z.ltb_ge _ _)) by lia. done.
Qed.

Lemma physical_gpu_composes_witness :
  (_resolve_physical_gpu 1 (Some " 4, 5 ,6,"%string) = "5"%string ∧
   physical_gpu 1 (Some "4,GPU-ab12"%string) [("GPU-ab12cd"%string, 7%Z)] = 7%Z) ∧
  _resolve_physical_gpu 1 None = str_of_Z 1 ∧ physical_gpu 1 None [] = 1%Z ∧
  _resolve_physical_gpu 1 (Some (device_list ["4"; "5"]%string)) =
    default (str_of_Z 1) (["4"; "5"]%string !! Z.to_nat 1) ∧
  (∀ n, ["4"; "5"]%string !! Z.to_nat 1 = Some (str_of_Z n) → (0 ≤ n)%Z →
     physical_gpu 1 (Some (device_list ["4"; "5"]%string)) [] = n) ∧
  (["4"; "5"]%string !! Z.to_nat 1 = None → physical_gpu 1 (Some (device_list ["4"; "5"]%string)) [] = 1%Z).
Proof.
  split; [split; vm_compute; reflexivity|].
  apply (physical_gpu_composes ["4"; "5"]%string [] 1); [done| |lia].
  repeat constructor; try done; by intros ?.
Defined.

(** A worker's thread count. An explicit [cpu_threads] wins over the size
    of the slice the worker is pinned to, which wins over the default of 2;
    torch, when loaded, and the three BLAS variables all get that number, and
    a platform that refuses the affinity never stops the worker from getting
    them. *)
Theorem setup_cpu_threads (setaffinity : option (list Z → res unit)) (torch : bool)
    (slice : list Z) (cpu_threads : option Z) :
  (∀ f, setaffinity = Some f → f slice = Ok tt ∨ ∃ e, f slice = Raise e ∧ is_os_error e = true) →
  (∀ n, cpu_threads = Some n → (0 < n)%Z) → slice ≠ [] →
  ∃ s, _setup_cpu setaffinity torch (Some slice) cpu_threads = Ok s ∧
    (affinity s = Some slice ↔ ∃ f, setaffinity = Some f ∧ f slice = Ok tt) ∧
    let n := default (Z.of_nat (length slice)) cpu_threads in
    torch_threads s = (if torch then Some n else None) ∧
    omp_num_threads s = str_of_Z n ∧ mkl_num_threads s = str_of_Z n ∧
    openblas_num_threads s = str_of_Z n.
Proof.
  intros Hf Hn Hne. unfold _setup_cpu. destruct slice as [|c l]; [done|].
  assert (thread_count (Some (c :: l)) cpu_threads =
    default (Z.of_nat (length (c :: l))) cpu_threads) as ->.
  { unfold thread_count. destruct cpu_threads as [n|]; [|done]. specialize (Hn n eq_refl).
    by rewrite (proj2 (Z.eqb_neq _ _)) by lia. }
  destruct setaffinity as [f|].
  - destruct (Hf f eq_refl) as [E|(e & E & He)]; rewrite E; [|rewrite He].
    + eexists. split; [reflexivity|]. split; [|by destruct cpu_threads].
      split; [intros _; by exists f|done].
    + eexists. split; [reflexivity|]. split; [|by destruct cpu_threads].
      split; [done|]. intros (f' & [= <-] & E'). congruence.
  - eexists. split; [reflexivity|]. split; [|by destruct cpu_threads].
    split; [done|]. by intros (f' & ? & _).
Qed.

Lemma setup_cpu_threads_witness :
  ∃ s, _setup_cpu (Some (λ _, Raise OSError)) true (Some [3; 4; 5]%Z) None = Ok s ∧
    (affinity s = Some [3; 4; 5]%Z ↔
       ∃ f, Some (λ _ : list Z, Raise (X:=unit) OSError) = Some f ∧ f [3; 4; 5]%Z = Ok tt) ∧
    let n := default (Z.of_nat (length [3; 4; 5]%Z)) None in
    torch_threads s = (if true then Some n else None) ∧
    omp_num_threads s = str_of_Z n ∧ mkl_num_threads s = str_of_Z n ∧
    openblas_num_threads s = str_of_Z n.
Proof.
  apply (setup_cpu_threads (Some (λ _, Raise OSError)) true [3; 4; 5]%Z None); [|done|done].
  intros f [= <-]. right. by exists OSError.
Defined.
