(* ===== verification/Boot.v ===== *)
(** * How a worker process begins (workers.py)

    What [_worker_run] and [_threaded_worker_run] do before anything else: watch
    the parent, pin and size the threads, raise the limit of open files, choose
    the GPU, set the signals. The stage's own code begins after that. *)
From S2P Require Import Prelude Types Text Placement.

(** What a signal does to the process. *)
Inductive disposition :=
  | Default
  | Ignored
  | StopGracefully.     (* handle_signal: should_stop.value = 1 *)

(** The process: what it has of its own, and what it has printed a warning
    about. *)
Record proc := Proc {
  p_parent : bool;                  (* multiprocessing.parent_process() is not None *)
  p_watched : bool;                 (* the pipe-parent-watch thread runs *)
  p_cpu : option cpu_setup;
  p_fds : Z * Z;                    (* the soft and the hard limit of open files *)
  p_cvd : option string;            (* os.environ["CUDA_VISIBLE_DEVICES"] *)
  p_torch : bool;                   (* torch is imported *)
  p_contexts : list string;         (* the GPUs it has a CUDA context on *)
  p_sigterm : disposition;
  p_sigint : disposition;
  p_warned : list exn;
}.

Definition set_watched (p : proc) : proc :=
  Proc (p_parent p) true (p_cpu p) (p_fds p) (p_cvd p) (p_torch p) (p_contexts p) (p_sigterm p) (p_sigint p) (p_warned p).
Definition set_cpu (c : cpu_setup) (p : proc) : proc :=
  Proc (p_parent p) (p_watched p) (Some c) (p_fds p) (p_cvd p) (p_torch p) (p_contexts p) (p_sigterm p) (p_sigint p) (p_warned p).
Definition set_fds (l : Z * Z) (p : proc) : proc :=
  Proc (p_parent p) (p_watched p) (p_cpu p) l (p_cvd p) (p_torch p) (p_contexts p) (p_sigterm p) (p_sigint p) (p_warned p).
Definition set_cvd (s : string) (p : proc) : proc :=
  Proc (p_parent p) (p_watched p) (p_cpu p) (p_fds p) (Some s) (p_torch p) (p_contexts p) (p_sigterm p) (p_sigint p) (p_warned p).
Definition set_torch (b : bool) (p : proc) : proc :=
  Proc (p_parent p) (p_watched p) (p_cpu p) (p_fds p) (p_cvd p) b (p_contexts p) (p_sigterm p) (p_sigint p) (p_warned p).
Definition add_context (d : string) (p : proc) : proc :=
  Proc (p_parent p) (p_watched p) (p_cpu p) (p_fds p) (p_cvd p) (p_torch p) (p_contexts p ++ [d]) (p_sigterm p) (p_sigint p) (p_warned p).
Definition set_signals (p : proc) : proc :=
  Proc (p_parent p) (p_watched p) (p_cpu p) (p_fds p) (p_cvd p) (p_torch p) (p_contexts p) StopGracefully Ignored (p_warned p).
Definition warn (e : exn) (p : proc) : proc :=
  Proc (p_parent p) (p_watched p) (p_cpu p) (p_fds p) (p_cvd p) (p_torch p) (p_contexts p) (p_sigterm p) (p_sigint p) (p_warned p ++ [e]).

Section boot.
(** The platform: [os.sched_setaffinity], [resource.setrlimit], whether torch is
    installed, and [torch.cuda.set_device(i)] in a process without a context
    and with this CUDA_VISIBLE_DEVICES: the GPU it makes a context on. *)
Context (setaffinity : option (list Z → res unit)) (setrlimit : Z → res unit).
Context (installed : bool) (cuda_device : option string → Z → res string).

Definition get_proc : prog proc proc := λ p, (Ok p, p).
Definition update (f : proc → proc) : prog proc unit := λ p, (Ok tt, f p).

(** [_exit_with_parent]. *)
Definition _exit_with_parent (p : proc) : proc := if p_parent p then set_watched p else p.
(** [watch]: the exit status of the process when its parent dies. *)
Definition parent_dies (p : proc) : option Z := if p_watched p then Some 1%Z else None.

(** [_increase_fd_limit]. *)
Definition _increase_fd_limit (p : proc) : proc :=
  let '(soft, hard) := p_fds p in
  if (hard <=? soft)%Z then p
  else match setrlimit hard with
       | Ok _ => set_fds (hard, hard) p
       | Raise e => warn e p
       | Spin => p
       end.

(** [torch.cuda.set_device(i)]. *)
Definition set_device (i : Z) : prog proc unit := λ p,
  match cuda_device (p_cvd p) i with
  | Ok d => (Ok tt, add_context d p)
  | Raise e => (Raise e, p)
  | Spin => (Spin, p)
  end.

(** [_torch.available()]. *)
Definition torch_available : prog proc bool := λ p,
  if installed then (Ok true, set_torch true p) else (Ok false, p).

(** The GPU of a worker process: [hold] is [scavenge_hold.value], if it has
    one. *)
Definition worker_gpu (gpu_id hold : option Z) : prog proc unit :=
  match gpu_id with
  | None => ret tt
  | Some g =>
      try_except
        (let! p := get_proc in
         let physical := _resolve_physical_gpu g (p_cvd p) in
         update (set_cvd physical) ;!
         let! p := get_proc in
         if p_torch p && match hold with None => true | Some v => (v =? 0)%Z end then set_device 0 else ret tt)
        (λ e, update (warn e))
  end.

(** The GPU of a threaded worker. *)
Definition threaded_gpu (gpu_id : option Z) : prog proc unit :=
  match gpu_id with
  | None => ret tt
  | Some g =>
      try_except (let! ok := torch_available in if ok then set_device g else ret tt)
        (λ e, update (warn e))
  end.

(** [_setup_cpu(cpu_affinity, cpu_threads, ...)], in the process. *)
Definition setup_cpu (cpu_affinity : option (list Z)) (cpu_threads : option Z) : prog proc unit :=
  let! p := get_proc in
  let! c := of_res (_setup_cpu setaffinity (p_torch p) cpu_affinity cpu_threads) in
  update (set_cpu c).

(** The beginning of [_worker_run]. *)
Definition boot_worker (gpu_id hold : option Z) (cpu_affinity : option (list Z)) (cpu_threads : option Z) : prog proc unit :=
  update _exit_with_parent ;!
  setup_cpu cpu_affinity cpu_threads ;!
  update _increase_fd_limit ;!
  worker_gpu gpu_id hold ;!
  update set_signals.

(** The beginning of [_threaded_worker_run]. *)
Definition boot_threaded (gpu_id : option Z) (cpu_affinity : option (list Z)) (cpu_threads : option Z) : prog proc unit :=
  update _exit_with_parent ;!
  setup_cpu cpu_affinity cpu_threads ;!
  update _increase_fd_limit ;!
  threaded_gpu gpu_id ;!
  update set_signals.
End boot.

(** ** What the stage finds *)

Section boot_spec.
Context (setaffinity : option (list Z → res unit)) (setrlimit : Z → res unit).
Context (installed : bool) (cuda_device : option string → Z → res string).
(** Pinning fails with an OSError or not at all, and the calls return. *)
Context (Haff : ∀ f l, setaffinity = Some f → f l = Ok tt ∨ ∃ e, f l = Raise e ∧ is_os_error e = true).
(** With one GPU visible, device 0 is that one. *)
Context (Hcuda : ∀ d d', cuda_device (Some d) 0 = Ok d' → d' = d) (Hret : ∀ v i, cuda_device v i ≠ Spin).

Lemma setup_cpu_ok torch cpus n : ∃ c, _setup_cpu setaffinity torch cpus n = Ok c.
Proof using Haff.
  unfold _setup_cpu. destruct cpus as [[|c cpus]|]; try by eexists.
  destruct setaffinity as [f|] eqn:Hf; [|by eexists].
  destruct (Haff f (c :: cpus) eq_refl) as [->|(e & -> & ->)]; by eexists.
Qed.

Lemma fd_limit_keeps p :
  let p' := _increase_fd_limit setrlimit p in
  p_cvd p' = p_cvd p ∧ p_torch p' = p_torch p ∧ p_contexts p' = p_contexts p ∧ p_watched p' = p_watched p ∧
  (p_fds p' = p_fds p ∨ p_fds p' = ((p_fds p).2, (p_fds p).2)).
Proof.
  unfold _increase_fd_limit. destruct (p_fds p) as [soft hard] eqn:Hl. destruct (hard <=? soft)%Z; [rewrite ?Hl; tauto|].
  destruct (setrlimit hard); simpl; rewrite ?Hl; tauto.
Qed.


(** A threaded worker sees every GPU, and has its context on its own. *)
Theorem threaded_boot_pinned gpu_id cpus threads p :
  p_contexts p = [] →
  let '(r, p') := boot_threaded setaffinity setrlimit installed cuda_device gpu_id cpus threads p in
  r = Ok tt ∧ p_sigterm p' = StopGracefully ∧ p_sigint p' = Ignored ∧ p_cvd p' = p_cvd p ∧
  match gpu_id with
  | None => p_contexts p' = [] ∧ p_torch p' = p_torch p
  | Some g => p_contexts p' = [] ∨ ∃ d, cuda_device (p_cvd p) g = Ok d ∧ p_contexts p' = [d]
  end.
Proof using Haff Hret.
  intros Hctx. unfold boot_threaded, setup_cpu, update, get_proc, bind, of_res.
  destruct (setup_cpu_ok (p_torch (_exit_with_parent p)) cpus threads) as [c ->].
  set (q := set_cpu c (_exit_with_parent p)).
  assert (p_cvd q = p_cvd p ∧ p_torch q = p_torch p ∧ p_contexts q = []) as (Hqv & Hqt & Hqc).
  { unfold q, _exit_with_parent. by destruct (p_parent p). }
  destruct (fd_limit_keeps q) as (Hv & Ht & Hc & _ & _). revert Hv Ht Hc.
  generalize (_increase_fd_limit setrlimit q) as q'. intros q' Hv Ht Hc.
  rewrite Hqv in Hv. rewrite Hqt in Ht. rewrite Hqc in Hc.
  unfold threaded_gpu, try_except, bind, torch_available, update, set_device, ret.
  destruct gpu_id as [g|]; simpl; [|done]. destruct installed; simpl; [|rewrite ?Hv, ?Hc; split_and!; auto].
  rewrite Hv. destruct (cuda_device (p_cvd p) g) as [d|e|] eqn:Hd; simpl; rewrite ?Hv, ?Hc;
    [|split_and!; auto|by destruct (Hret _ _ Hd)].
  split_and!; try done. right. by exists d.
Qed.
End boot_spec.

(** ** A held worker on the second of two visible GPUs *)

Module BootDemo.
Definition p0 : proc := Proc true false None (1024, 4096)%Z (Some "4,5"%string) true [] Default Default [].
Definition cuda (cvd : option string) (i : Z) : res string :=
  match visible_devices (default EmptyString cvd) !! Z.to_nat i with Some d => Ok d | None => Raise RuntimeError end.
Definition one_gpu (cvd : option string) (i : Z) : res string :=
  match cvd with Some d => Ok d | None => cuda None i end.

End BootDemo.
