(* ===== verification/Sequential.v ===== *)
(** * Sequential execution (sequential.py)

    [_sequential_run] runs all stages in one process over one list of pending
    [(stage, item)] pairs. User code runs on its own state [U] and, through
    [push], on that list. *)
From S2P Require Import Prelude Types.

(** ** Stages *)

(** What user code can reach: its own objects and the list of pending items. *)
Definition seq_state (U : Type) : Type := U * list (Z * py).

(** A generator runs up to its next [yield] each time it is asked for an item;
    [sg_end] is what it does after the last one. *)
Record seq_generator (U : Type) := SeqGenerator {
  sg_steps : list (prog (seq_state U) py);
  sg_end : prog (seq_state U) unit;
}.
Arguments SeqGenerator {_} _ _.
Arguments sg_steps {_} _.
Arguments sg_end {_} _.

Inductive seq_result (U : Type) :=
  | SeqGen (g : seq_generator U)
  | SeqVal (v : py).
Arguments SeqGen {_} _.
Arguments SeqVal {_} _.

(** The [pull(n)] and [put(item)] a custom [run()] is given; it reads from a
    buffer of its own. *)
Definition run_state (U : Type) : Type := seq_state U * list py.

Record seq_worker (U : Type) := SeqWorker {
  sw_name : string;
  sw_call : option py → prog (seq_state U) (seq_result U);
  sw_load : option (prog (seq_state U) unit);
  sw_flush : option (prog (seq_state U) (seq_generator U));
  sw_run : option ((option Z → prog (run_state U) (list py)) →
                   (py → prog (run_state U) unit) → prog (run_state U) unit);
  sw_batch : option Z;              (* job.get("batch") *)
}.
Arguments SeqWorker {_} _ _ _ _ _ _.
Arguments sw_name {_} _.
Arguments sw_call {_} _ _.
Arguments sw_load {_} _.
Arguments sw_flush {_} _.
Arguments sw_run {_} _.
Arguments sw_batch {_} _.

(** [l[:n]] and [l[n:]], also for a negative [n]. *)
Definition cut {A} (n : Z) (l : list A) : nat :=
  Z.to_nat (if (n <? 0)%Z then Z.of_nat (length l) + n else n).

(** [l.index(x)]. *)
Fixpoint index_of (s : string) (l : list string) (i : Z) : res Z :=
  match l with
  | [] => Raise ValueError
  | s' :: l => if decide (s = s') then Ok i else index_of s l (i + 1)
  end.

Section sequential.
Context {U : Type} (workers : list (seq_worker U)) (raise_errors : bool).
Local Abbreviation S := (seq_state U).

(** [pending_items.append((stage, item))]. *)
Definition add_pending (stage : Z) (item : py) : prog S unit := λ '(u, p),
  (Ok tt, (u, p ++ [(stage, item)])).

Definition is_run_stage (i : Z) (w : seq_worker U) : bool :=
  (0 <? i)%Z && match sw_run w with Some _ => true | None => false end.

(** [_seq_push(stage, item)]. *)
Definition _seq_push (stage : push_target) (item : py) : prog S bool :=
  if is_None item then ret false
  else
    let! idx := of_res match stage with
                       | StageBool _ => Raise TypeError
                       | StageIndex i => Ok i
                       | StageName s => index_of s (sw_name <$> workers) 0
                       end in
    if ((idx <=? 0) || (Z.of_nat (length workers) <=? idx))%Z then raise ValueError
    else add_pending idx item ;! ret true.

(** Add what is neither [None] nor [End]. *)
Definition add_valid (stage : Z) (item : py) : prog S unit :=
  if is_valid item then add_pending stage item else ret tt.

Definition add_yields (stage : Z) (g : seq_generator U) : prog S unit :=
  for_each (sg_steps g) (λ step, let! v := step in add_valid stage v) ;!
  sg_end g.

(** [_add_result(result, next_stage)]. *)
Definition _add_result (result : seq_result U) (next_stage : Z) : prog S unit :=
  match result with
  | SeqVal PyNone => ret tt
  | SeqGen g => add_yields next_stage g
  | SeqVal v =>
      if _is_end v then ret tt
      else match v with
           | PyList l => for_each l (add_valid next_stage)
           | v => add_pending next_stage v
           end
  end.

(** The items at the head of the list that go into the same batch. *)
Fixpoint collect_batch (stage size : Z) (batch : list py) (p : list (Z * py))
    : list py * list (Z * py) :=
  match p with
  | (s, x) :: p' =>
      if ((Z.of_nat (length batch) <? size) && (s =? stage))%Z
      then collect_batch stage size (batch ++ [x]) p'
      else (batch, p)
  | [] => (batch, [])
  end.

(** [_process_callable(worker, stage_idx, item)]. *)
Definition _process_callable (w : seq_worker U) (stage : Z) (item : py) : prog S unit :=
  let batch_sz := default 0%Z (sw_batch w) in
  let! result :=
    if (0 <? batch_sz)%Z then
      let! batch := (λ '(u, p), let '(b, p') := collect_batch stage batch_sz [item] p in
                                (Ok b, (u, p')))%type in
      sw_call w (Some (PyList batch))
    else sw_call w (Some item) in
  _add_result result (stage + 1).

(** A [run()] stage takes everything that is pending for it. *)
Definition take_stage (stage : Z) (item : py) : prog S (list py) := λ '(u, p),
  (Ok (item :: (filter (λ x : Z * py, x.1 = stage) p).*2),
   (u, filter (λ x : Z * py, x.1 ≠ stage) p)).

Definition run_pull (bs : Z) (n : option Z) : prog (run_state U) (list py) :=
  let! buf := get_obj in
  let k := cut (default bs n) buf in
  put_obj (drop k buf) ;!
  ret (take k buf).

Definition run_put (next_stage : Z) (item : py) : prog (run_state U) unit :=
  if is_None item then ret tt else lift (add_pending next_stage item).

Definition run_stage (w : seq_worker U) (stage : Z) (item : py)
    (run : (option Z → prog (run_state U) (list py)) →
           (py → prog (run_state U) unit) → prog (run_state U) unit) : prog S unit :=
  let! buffer := take_stage stage item in
  let bs := match sw_batch w with Some 0%Z | None => 1%Z | Some n => n end in
  λ s, let '(r, (s', _)) := run (run_pull bs) (run_put (stage + 1)) (s, buffer) in (r, s').

(** [except Exception]: with [raise_errors] it propagates, otherwise the item
    is dropped. *)
Definition tolerate (c : prog S unit) : prog S unit :=
  try_except c (λ e, if negb (is_exception e) || raise_errors then raise e else ret tt).

(** The state of [_sequential_run] with what it has yielded so far. *)
Local Abbreviation SO := (seq_state U * list py)%type.

Definition yield_item (item : py) : prog SO unit := λ '(s, out), (Ok tt, (s, out ++ [item])).

(** [pending_items.pop(0)], if there is one. *)
Definition pop_pending : prog S (option (Z * py)) := λ '(u, p),
  match p with
  | [] => (Ok None, (u, []))
  | x :: p => (Ok (Some x), (u, p))
  end.

Definition has_pending : prog S bool := λ '(u, p),
  (Ok (negb (bool_decide (length p = 0%nat))), (u, p)).

(** Give an item that came out of the last stage to the consumer, any other
    to its stage. [runs] says whether [run()] stages are recognised. *)
Definition process_item (runs : bool) (x : Z * py) : prog SO unit :=
  let '(stage, item) := x in
  match workers !! Z.to_nat stage with
  | None => yield_item item
  | Some w =>
      match sw_run w with
      | Some run =>
          if runs && is_run_stage stage w then lift (tolerate (run_stage w stage item run))
          else lift (tolerate (_process_callable w stage item))
      | None => lift (tolerate (_process_callable w stage item))
      end
  end.

(** One call of the root stage: whether the root has ended. *)
Definition root_step (root : seq_worker U) : prog S bool :=
  let! result := sw_call root None in
  match result with
  | SeqGen g => add_yields 1 g ;! ret true
  | SeqVal PyNone => ret false
  | SeqVal v =>
      if _is_end v then ret true
      else match v with
           | PyList l =>
               (fix add (l : list py) : prog S bool :=
                  match l with
                  | [] => ret false
                  | x :: l => if _is_end x then ret true
                              else (if is_None x then ret tt else add_pending 1 x) ;! add l
                  end) l
           | v => add_pending 1 v ;! ret false
           end
  end.

(** One turn of [while not root_ended or pending_items]. *)
Definition seq_turn (root : seq_worker U) (root_ended : bool) : prog SO (bool + unit) :=
  let! pending := lift has_pending in
  if root_ended && negb pending then ret (inr tt)
  else
    let! root_ended := lift (if root_ended then ret true else root_step root) in
    let! x := lift pop_pending in
    match x with
    | None => ret tt
    | Some x => process_item true x
    end ;!
    ret (inl root_ended).

(** Every stage but the root and the [run()] stages is flushed, and what it
    yields is queued for the next stage. *)
Fixpoint flush_stages (i : Z) (ws : list (seq_worker U)) : prog S unit :=
  match ws with
  | [] => ret tt
  | w :: ws =>
      (if is_run_stage i w then ret tt
       else match sw_flush w with
            | Some f =>
                let! g := f in
                for_each (sg_steps g)
                  (λ step, let! v := step in
                           if is_None v then ret tt else add_pending (i + 1) v) ;!
                sg_end g
            | None => ret tt
            end) ;!
      flush_stages (i + 1) ws
  end.

(** The second loop: what the flush left pending. *)
Definition drain_turn : prog SO (unit + unit) :=
  let! x := lift pop_pending in
  match x with
  | None => ret (inr tt)
  | Some x => process_item false x ;! ret (inl tt)
  end.

(** [_sequential_run], with the fuel of its two loops. *)
Definition _sequential_run (fuel : nat) : prog SO unit :=
  match workers with
  | [] => ret tt
  | root :: rest =>
      for_each workers (λ w, lift (match sw_load w with Some f => f | None => ret tt end)) ;!
      loop fuel (seq_turn root) false ;!
      lift (flush_stages 1 rest) ;!
      loop fuel (λ _, drain_turn) tt
  end.
End sequential.

(** ** The reference: one stage after the other *)

(** A stage as a function of its item, and the items of a whole stream after
    the stages [fs]. *)
Fixpoint pipeline (fs : list (py → res result)) (xs : list py) : list py :=
  match fs with
  | [] => xs
  | f :: fs => pipeline fs (xs ≫= λ x, result_items (f x))
  end.

(** The items a root stage produces by its results: up to the first [End], or
    to the end of its first generator. *)
Fixpoint until_end (l : list py) : list py :=
  match l with
  | [] => []
  | x :: l => if _is_end x then [] else if is_None x then until_end l else x :: until_end l
  end.
Definition has_end (l : list py) : bool := existsb _is_end l.

Fixpoint root_items (rs : list result) : list py :=
  match rs with
  | [] => []
  | RGen g :: _ => valid_items (gen_yields g)
  | RVal v :: rs => until_end (as_list v) ++ if has_end (as_list v) then [] else root_items rs
  end.

Lemma pipeline_nil fs : pipeline fs [] = [].
Proof. by induction fs. Qed.

Lemma pipeline_app fs l l' : pipeline fs (l ++ l') = pipeline fs l ++ pipeline fs l'.
Proof. revert l l'. induction fs as [|f fs IH]; intros l l'; simpl; [done|]. by rewrite bind_app, IH. Qed.

(** ** What is pending, in the order it will be delivered *)

Definition at_stage (k : Z) (p : list (Z * py)) : list py :=
  (filter (λ x : Z * py, x.1 = k) p).*2.

Fixpoint deliver (k : Z) (fs : list (py → res result)) (p : list (Z * py)) : list py :=
  match fs with
  | [] => at_stage k p
  | f :: fs' => deliver (k + 1) fs' p ++ pipeline fs (at_stage k p)
  end.

Definition queued (k : Z) (ys : list py) : list (Z * py) := (λ y, (k, y)) <$> ys.

Lemma at_stage_app k p p' : at_stage k (p ++ p') = at_stage k p ++ at_stage k p'.
Proof. unfold at_stage. by rewrite filter_app, fmap_app. Qed.

Lemma at_stage_queued k ys : at_stage k (queued k ys) = ys.
Proof.
  unfold at_stage, queued. rewrite filter_all by (by apply Forall_fmap, Forall_true).
  rewrite <-list_fmap_compose. apply list_fmap_id.
Qed.

Lemma at_stage_other k k' ys : k ≠ k' → at_stage k (queued k' ys) = [].
Proof.
  intros Hk. unfold at_stage, queued. rewrite filter_none; [done|].
  apply Forall_fmap, Forall_true. simpl. congruence.
Qed.

Lemma deliver_nil k fs : deliver k fs [] = [].
Proof. revert k. induction fs as [|f fs IH]; intros k; simpl; [done|]. rewrite IH. apply pipeline_nil. Qed.

(** Items queued before the first stage of [fs] do not count. *)
Lemma deliver_earlier k k' fs p ys : (k' < k)%Z → deliver k fs (p ++ queued k' ys) = deliver k fs p.
Proof.
  revert k. induction fs as [|f fs IH]; intros k Hk; simpl; rewrite at_stage_app, at_stage_other, app_nil_r by lia;
    [done|]. by rewrite IH by lia.
Qed.

(** Items queued for the first stage of [fs] come out last. *)
Lemma deliver_queued k fs p ys :
  deliver k fs (p ++ queued k ys) = deliver k fs p ++ pipeline fs ys.
Proof.
  destruct fs as [|f fs]; simpl; rewrite at_stage_app, at_stage_queued; [done|].
  rewrite deliver_earlier by lia. by rewrite bind_app, pipeline_app, app_assoc.
Qed.

(** Processing the first pending item does not change what is delivered. *)
Lemma deliver_process k fs (i : nat) f x p :
  fs !! i = Some f →
  deliver k fs ((k + Z.of_nat i, x)%Z :: p) =
  deliver k fs (p ++ queued (k + Z.of_nat i + 1) (result_items (f x))).
Proof.
  revert k i. induction fs as [|g fs IH]; intros k i Hi; [done|].
  destruct i as [|i]; simpl in Hi.
  - injection Hi as ->. rewrite Z.add_0_r. simpl.
    rewrite at_stage_app, at_stage_other, app_nil_r by lia. rewrite deliver_queued.
    change ((k, x) :: p) with ([] ++ queued k [x] ++ p).
    assert (∀ fs, deliver (k + 1) fs ([] ++ queued k [x] ++ p) = deliver (k + 1) fs p) as ->.
    { intros fs'. cut (∀ k', (k < k')%Z → deliver k' fs' ([] ++ queued k [x] ++ p) = deliver k' fs' p).
      { intros Hd. apply Hd. lia. }
      clear. induction fs' as [|h fs' IH]; intros k' Hk; simpl.
      - unfold at_stage. by rewrite filter_cons_False by (simpl; lia).
      - simpl in IH. rewrite IH by lia. unfold at_stage. by rewrite filter_cons_False by (simpl; lia). }
    rewrite <-app_assoc. f_equal. unfold at_stage. simpl. rewrite filter_cons_True by done.
    simpl. by rewrite pipeline_app.
  - simpl. replace (k + Z.of_nat (S i))%Z with (k + 1 + Z.of_nat i)%Z by lia.
    rewrite IH by done. f_equal. rewrite at_stage_app, at_stage_other, app_nil_r by lia.
    unfold at_stage. by rewrite filter_cons_False by (simpl; lia).
Qed.

(** An item past the last stage is the next to come out. *)
Lemma deliver_yield k fs x p :
  deliver k fs ((k + Z.of_nat (length fs), x)%Z :: p) = x :: deliver k fs p.
Proof.
  revert k. induction fs as [|g fs IH]; intros k; simpl.
  - rewrite Z.add_0_r. unfold at_stage. by rewrite filter_cons_True.
  - replace (k + Z.of_nat (S (length fs)))%Z with (k + 1 + Z.of_nat (length fs))%Z by lia.
    rewrite IH. simpl. f_equal. unfold at_stage. by rewrite filter_cons_False by (simpl; lia).
Qed.

(** ** Turns still to come *)

Fixpoint weight (fs : list (py → res result)) (x : py) : nat :=
  match fs with
  | [] => 1
  | f :: fs => S (sum_list_with (weight fs) (result_items (f x)))
  end.

(** The turns the pending items take. *)
Definition work (fs : list (py → res result)) (p : list (Z * py)) : nat :=
  sum_list_with (λ x : Z * py, weight (drop (Z.to_nat (x.1 - 1)) fs) x.2) p.

Lemma work_queued fs k ys :
  work fs (queued k ys) = sum_list_with (weight (drop (Z.to_nat (k - 1)) fs)) ys.
Proof. unfold work, queued. induction ys as [|y ys IH]; simpl; [done|]. f_equal. exact IH. Qed.

Lemma work_process fs (i : nat) f x p :
  fs !! i = Some f →
  work fs ((1 + Z.of_nat i, x)%Z :: p) =
  S (work fs (p ++ queued (1 + Z.of_nat i + 1) (result_items (f x)))).
Proof.
  intros Hi. unfold work at 2. rewrite sum_list_with_app. fold (work fs p).
  fold (work fs (queued (1 + Z.of_nat i + 1) (result_items (f x)))).
  rewrite work_queued. unfold work at 1. simpl. fold (work fs p).
  replace (Z.to_nat (1 + Z.of_nat i - 1)) with i by lia.
  replace (Z.to_nat (1 + Z.of_nat i + 1 - 1)) with (S i) by lia.
  rewrite (drop_S fs f i Hi). simpl. lia.
Qed.

Lemma work_yield fs x p : work fs ((1 + Z.of_nat (length fs), x)%Z :: p) = S (work fs p).
Proof.
  unfold work at 1. simpl. fold (work fs p). rewrite drop_ge by lia. done.
Qed.

(** ** Pipelines of functions *)

(** A result whose generator, if it is one, only yields. *)
Definition as_seq {U} (r : result) : seq_result U :=
  match r with
  | RVal v => SeqVal v
  | RGen g => SeqGen (SeqGenerator (ret <$> gen_yields g)
                        (match gen_raises g with None => ret tt | Some e => raise e end))
  end.

Definition as_call {U} (r : res result) : prog (seq_state U) (seq_result U) :=
  match r with
  | Ok r => ret (as_seq r)
  | Raise e => raise e
  | Spin => λ s, (Spin, s)
  end.

(** The stage [w] computes [f] and has no [load], [run], [flush] or batch. *)
Definition stage_of {U} (w : seq_worker U) (f : py → res result) : Prop :=
  (∀ x, sw_call w (Some x) = as_call (f x)) ∧
  (∀ x, match f x with
        | Ok (RGen g) => ∀ e, gen_raises g = Some e → is_exception e = true
        | Ok _ => True
        | Raise e => is_exception e = true
        | Spin => False
        end) ∧
  sw_load w = None ∧ sw_run w = None ∧ sw_flush w = None ∧ (default 0 (sw_batch w) ≤ 0)%Z.

(** A root stage that gives one result of the list after the other. *)
Definition scripted_root (w : seq_worker (list result)) : Prop :=
  (∀ rs p, sw_call w None (rs, p) =
     match rs with
     | [] => (Ok (SeqVal End), ([], p))
     | r :: rs => (Ok (as_seq r), (rs, p))
     end) ∧ sw_load w = None ∧ sw_run w = None.

Definition quiet_generators (rs : list result) : Prop :=
  Forall (λ r, match r with RGen g => gen_raises g = None | RVal _ => True end) rs.

Section pure.
Context (root : seq_worker (list result)) (rest : list (seq_worker (list result))).
Context (fs : list (py → res result)).
Context (Hroot : scripted_root root) (Hrest : Forall2 stage_of rest fs).
Local Abbreviation S := (seq_state (list result)).
Local Abbreviation SO := (S * list py)%type.

Lemma add_valid_all k l (rs : list result) p :
  for_each l (add_valid k) (rs, p) = (Ok tt, (rs, p ++ queued k (valid_items l))).
Proof.
  revert p. induction l as [|x l IH]; intros p; simpl; [by rewrite app_nil_r|].
  unfold bind, add_valid, valid_items. rewrite filter_cons.
  destruct (is_valid x) eqn:Hx; simpl; rewrite IH; [|done]. by rewrite <-app_assoc.
Qed.

Lemma add_yields_all k g (rs : list result) p :
  add_yields k (SeqGenerator (ret <$> gen_yields g)
     (match gen_raises g with None => ret tt | Some e => raise e end)) (rs, p) =
  (match gen_raises g with None => Ok tt | Some e => Raise e end,
   (rs, p ++ queued k (valid_items (gen_yields g)))).
Proof.
  unfold add_yields. simpl. unfold bind at 1.
  assert (for_each (ret <$> gen_yields g) (λ step, let! v := step in add_valid k v) (rs, p) =
          for_each (gen_yields g) (add_valid k) (rs, p)) as ->.
  { revert p. induction (gen_yields g) as [|y ys IH]; intros p; simpl; [done|].
    unfold bind in *. simpl. destruct (add_valid k y (rs, p)) as [[[]|e|] [rs' p']] eqn:E; [|done..].
    revert E. unfold add_valid, add_pending, ret. case_match; intros; simplify_eq; apply IH. }
  rewrite add_valid_all. by destruct (gen_raises g).
Qed.

Lemma valid_list v : valid_items (as_list v) =
  match v with
  | PyNone | PySent END => []
  | PyList l => valid_items l
  | v => [v]
  end.
Proof. by destruct v as [|[]| | | | | | | |]. Qed.

(** One item at one of the stages: its result is queued for the next one. *)
Lemma process_stage w f k x (rs : list result) p :
  stage_of w f →
  tolerate false (_process_callable w k x) (rs, p) =
  (Ok tt, (rs, p ++ queued (k + 1) (result_items (f x)))).
Proof.
  intros (Hcall & Hexn & _ & _ & _ & Hbatch). unfold tolerate, try_except, _process_callable.
  rewrite (proj2 (Z.ltb_ge _ _) Hbatch). unfold bind. rewrite Hcall. specialize (Hexn x).
  destruct (f x) as [[g|v]|e|]; simpl.
  - rewrite add_yields_all. destruct (gen_raises g) as [e|]; simpl; [|done].
    by rewrite (Hexn e).
  - rewrite valid_list.
    destruct v as [|[]| | |l| | | | |]; simpl; rewrite ?app_nil_r; try done. by rewrite add_valid_all.
  - rewrite Hexn. simpl. by rewrite app_nil_r.
  - done.
Qed.

(** What is pending belongs to a stage or to the consumer. *)
Definition in_range (p : list (Z * py)) : Prop :=
  Forall (λ x : Z * py, 1 ≤ x.1 ≤ 1 + Z.of_nat (length fs))%Z p.

Lemma in_range_queued k ys : (1 ≤ k ≤ 1 + Z.of_nat (length fs))%Z → in_range (queued k ys).
Proof. intros Hk. by apply Forall_fmap, Forall_true. Qed.

Lemma rest_length : length rest = length fs.
Proof using Hrest. by eapply Forall2_length. Qed.

(** Processing the head of the list. *)
Lemma process_head runs s x rs p out :
  in_range ((s, x) :: p) →
  ∃ p' out', process_item (root :: rest) false runs (s, x) ((rs, p), out) = (Ok tt, ((rs, p'), out')) ∧
    in_range p' ∧ out' ++ deliver 1 fs p' = out ++ deliver 1 fs ((s, x) :: p) ∧
    work fs ((s, x) :: p) = Datatypes.S (work fs p').
Proof using Hrest.
  intros Hr. inversion Hr as [|? ? Hs Hp]; subst. simpl in Hs. unfold process_item.
  destruct (decide (s = 1 + Z.of_nat (length fs))%Z) as [->|Hne].
  - rewrite lookup_ge_None_2 by (simpl; rewrite rest_length; lia). simpl.
    exists p, (out ++ [x]). split_and!; [done|done| |apply work_yield].
    rewrite deliver_yield. by rewrite <-app_assoc.
  - assert (∃ i, s = 1 + Z.of_nat i)%Z as [i ->] by (exists (Z.to_nat (s - 1)); lia).
    replace (Z.to_nat (1 + Z.of_nat i)) with (Datatypes.S i) by lia. simpl.
    destruct (lookup_lt_is_Some_2 fs i) as [f Hf]; [lia|].
    destruct (Forall2_lookup_r _ _ _ _ _ Hrest Hf) as (w & Hw & Hst). rewrite Hw.
    pose proof Hst as (_ & _ & _ & Hrun & _). rewrite Hrun. unfold lift.
    rewrite (process_stage w f) by done.
    eexists _, out. split; [done|]. split_and!.
    + apply Forall_app. split; [done|]. apply in_range_queued. lia.
    + by rewrite (deliver_process 1 fs i f x p Hf).
    + by apply work_process.
Qed.

(** One call of the root. *)
Lemma root_step_spec rs p :
  quiet_generators rs →
  ∃ ended ys, root_step root (rs, p) = (Ok ended, (tail rs, p ++ queued 1 ys)) ∧
    root_items rs = ys ++ (if ended then [] else root_items (tail rs)) ∧
    (ended = false → rs ≠ []).
Proof using Hroot.
  intros Hq. destruct Hroot as [Hcall _]. unfold root_step, bind. rewrite Hcall.
  destruct rs as [|[g|v] rs]; simpl.
  - exists true, []. simpl. by rewrite app_nil_r.
  - inversion Hq as [|? ? Hg _]; subst. rewrite add_yields_all. unfold quiet_generators in *.
    simpl in Hg. rewrite Hg. simpl. exists true, (valid_items (gen_yields g)).
    split_and!; [done|by rewrite app_nil_r|done].
  - assert (∀ l p, (fix add (l : list py) : prog S bool :=
               match l with
               | [] => ret false
               | x :: l => if _is_end x then ret true
                           else (if is_None x then ret tt else add_pending 1 x) ;! add l
               end) l (rs, p) = (Ok (has_end l), (rs, p ++ queued 1 (until_end l)))) as Hlist.
    { induction l as [|x l IH]; intros p'; simpl; [by rewrite app_nil_r|].
      destruct (_is_end x) eqn:Hx; simpl; [by rewrite app_nil_r|].
      unfold bind. destruct (is_None x); simpl; rewrite IH; [done|]. by rewrite <-app_assoc. }
    assert (∀ x, is_valid x = true → as_list x = [x] →
      until_end (as_list x) = [x] ∧ has_end (as_list x) = false) as Hone.
    { intros x Hx ->. unfold is_valid in Hx. simpl.
      destruct (is_None x), (_is_end x); done. }
    destruct v as [|[]| | |l| | | | |]; simpl;
      try (eexists false, [_]; split_and!; [done|done|done]).
    + exists false, []. simpl. by rewrite app_nil_r.
    + exists true, []. simpl. by rewrite app_nil_r.
    + rewrite Hlist. exists (has_end l), (until_end l). split_and!; [done|done|done].
Qed.

Definition root_work (ended : bool) (rs : list result) : nat :=
  if ended then 0 else Datatypes.S (length rs + sum_list_with (weight fs) (root_items rs)).

(** What the run will have yielded at its end. *)
Definition total (ended : bool) (s : SO) : list py :=
  s.2 ++ deliver 1 fs s.1.2 ++ (if ended then [] else pipeline fs (root_items s.1.1)).

Definition running (ended : bool) (s : SO) : Prop :=
  in_range s.1.2 ∧ (ended = false → quiet_generators s.1.1).

Definition turns (ended : bool) (s : SO) : nat := work fs s.1.2 + root_work ended s.1.1.

Lemma root_turn_spec ended rs p out :
  running ended ((rs, p), out) →
  ∃ ended' rs' p',
    (if ended then ret true else root_step root) (rs, p) = (Ok ended', (rs', p')) ∧
    running ended' ((rs', p'), out) ∧ total ended' ((rs', p'), out) = total ended ((rs, p), out) ∧
    (turns ended' ((rs', p'), out) + (if ended then 0 else 1) ≤ turns ended ((rs, p), out))%nat ∧
    (p' = [] → ended = true → p = []) ∧ (ended = true → ended' = true ∧ p' = p).
Proof using Hroot.
  intros [Hr Hq]. simpl in *. destruct ended.
  - exists true, rs, p. split_and!; [done|by split|done|lia|done|done].
  - destruct (root_step_spec rs p (Hq eq_refl)) as (ended & ys & E & Hit & Hne).
    rewrite E. exists ended, (tail rs), (p ++ queued 1 ys).
    split_and!; [done| | | |done|done].
    + split; simpl.
      * apply Forall_app. split; [done|]. apply in_range_queued. lia.
      * intros _. specialize (Hq eq_refl). destruct rs; [done|]. by inversion Hq.
    + unfold total. simpl. rewrite deliver_queued, Hit, pipeline_app, <-!app_assoc. do 3 f_equal.
      by destruct ended; [rewrite pipeline_nil|].
    + unfold turns, root_work. simpl. rewrite Hit.
      unfold work at 1. rewrite !sum_list_with_app. fold (work fs p). fold (work fs (queued 1 ys)).
      rewrite work_queued. change (drop (Z.to_nat (1 - 1)) fs) with fs.
      destruct ended; simpl; [lia|]. destruct rs; [by specialize (Hne eq_refl)|]. simpl. lia.
Qed.

(** A turn of the main loop. *)
Lemma seq_turn_spec ended s :
  running ended s →
  wp (seq_turn (root :: rest) false root ended)
     (λ r s', match r with
              | Ok (inl ended') => running ended' s' ∧ total ended' s' = total ended s ∧
                                   (turns ended' s' < turns ended s)%nat
              | Ok (inr _) => s' = s ∧ ended = true ∧ s.1.2 = []
              | _ => False
              end) s.
Proof using Hroot Hrest.
  destruct s as [[rs p] out]. intros Hrun.
  destruct (ended && negb (negb (bool_decide (length p = 0%nat)))) eqn:Hdone.
  { assert (seq_turn (root :: rest) false root ended ((rs, p), out) = (Ok (inr tt), ((rs, p), out))) as Et.
    { unfold seq_turn, bind. simpl. by rewrite Hdone. }
    apply (wp_eq _ _ _ _ _ Et). simpl. apply andb_true_iff in Hdone as [-> Hp]. rewrite negb_involutive in Hp.
    apply bool_decide_eq_true in Hp. by apply nil_length_inv in Hp as ->. }
  destruct (root_turn_spec ended rs p out Hrun) as (ended' & rs' & p' & E & Hrun' & Htot & Hturns & _ & Hsame).
  destruct p' as [|[k x] p'].
  - assert (seq_turn (root :: rest) false root ended ((rs, p), out) = (Ok (inl ended'), ((rs', []), out))) as Et.
    { unfold seq_turn, bind. simpl. rewrite Hdone. simpl. by rewrite E. }
    apply (wp_eq _ _ _ _ _ Et). split; [done|]. split; [done|]. destruct ended; [|unfold turns in *; simpl in *; lia].
    destruct (Hsame eq_refl) as [-> <-]. by simpl in Hdone.
  - destruct Hrun' as [Hr Hq]. simpl in Hr, Hq.
    destruct (process_head true k x rs' p' out Hr) as (p2 & out2 & E2 & Hr2 & Ht2 & Hw2).
    assert (seq_turn (root :: rest) false root ended ((rs, p), out) = (Ok (inl ended'), ((rs', p2), out2))) as Et.
    { unfold seq_turn. set (step := process_item (root :: rest) false true) in *. clearbody step.
      unfold bind. simpl. rewrite Hdone. simpl. rewrite E. simpl.
      unfold seq_state in *. by rewrite E2. }
    apply (wp_eq _ _ _ _ _ Et). split_and!.
    + by split.
    + unfold total in *. simpl in *. rewrite app_assoc, Ht2, <-app_assoc. exact Htot.
    + unfold turns in *. simpl in *. rewrite Hw2 in Hturns. lia.
Qed.

(** The main loop delivers everything, within the turns there are. *)
Lemma main_loop_spec fuel ended s :
  running ended s → (turns ended s < fuel)%nat →
  ∃ s', loop fuel (seq_turn (root :: rest) false root) ended s = (Ok tt, s') ∧
    s'.2 = total ended s ∧ s'.1.2 = [].
Proof using Hroot Hrest.
  revert ended s. induction fuel as [|fuel IH]; intros ended s Hrun Hlt; [lia|].
  pose proof (seq_turn_spec ended s Hrun) as Ht. unfold wp in Ht. simpl. unfold bind.
  destruct (seq_turn (root :: rest) false root ended s) as [[[ended'|[]]|e|] s1]; simpl in *; try done.
  - destruct Ht as (Hrun' & <- & Hlt'). apply IH; [done|lia].
  - destruct Ht as (-> & -> & Hp). exists s. split_and!; [done| |done].
    unfold total. rewrite Hp, deliver_nil. by rewrite !app_nil_r.
Qed.
End pure.

Lemma sequential_run_yields (root : seq_worker (list result))
    (rest : list (seq_worker (list result))) (fs : list (py → res result))
    (rs : list result) (fuel : nat) :
  scripted_root root → Forall2 stage_of rest fs → quiet_generators rs →
  (turns fs false ((rs, []), []) < fuel)%nat →
  ∃ s, _sequential_run (root :: rest) false fuel ((rs, []), []) = (Ok tt, s) ∧
    s.2 = pipeline fs (root_items rs) ∧ s.1.2 = [].
Proof.
  intros Hroot Hrest Hq Hfuel. unfold _sequential_run.
  assert (∀ ws s, Forall (λ w : seq_worker (list result), sw_load w = None) ws →
    for_each ws (λ w, lift (match sw_load w with Some f => f | None => ret tt end)) s =
    (Ok tt, s : seq_state (list result) * list py)) as Hload.
  { intros ws [s o] Hws. induction Hws as [|w ws Hw Hws IH]; [done|].
    simpl. unfold bind. rewrite Hw. simpl. exact IH. }
  unfold bind at 1. rewrite Hload.
  2: { constructor; [apply Hroot|]. eapply Forall2_Forall_l; [exact Hrest|].
       apply Forall_true. intros f w (_ & _ & ? & _). done. }
  destruct (main_loop_spec root rest fs Hroot Hrest fuel false ((rs, []), [])) as ([[rs1 p1] out1] & E & Ho & Hp).
  { by split; [constructor|]. }
  { done. }
  unfold bind at 1. rewrite E. simpl in Ho, Hp. subst p1.
  assert (∀ i ws s, Forall (λ w : seq_worker (list result), sw_flush w = None) ws →
    flush_stages i ws s = (Ok tt, s)) as Hflush.
  { intros i ws s Hws. revert i. induction Hws as [|w ws Hw Hws IH]; intros i; [done|].
    simpl. unfold bind. rewrite Hw. destruct (is_run_stage i w); simpl; apply IH. }
  unfold bind, lift at 1. rewrite Hflush.
  2: { eapply Forall2_Forall_l; [exact Hrest|]. apply Forall_true.
       intros f w (_ & _ & _ & _ & ? & _). done. }
  destruct fuel as [|fuel]; [lia|]. simpl. eexists. split; [reflexivity|]. split; [|done].
  simpl. rewrite Ho. unfold total. simpl. by rewrite deliver_nil.
Qed.

(** ** Properties *)

(** Sequential mode computes the composition of the stages. For a root
    stage that gives any sequence of results (values, lists, generators, with
    [None]s and an [End]) and stages that compute functions (of values, lists,
    generators or exceptions), [_sequential_run] ends, having yielded exactly
    the items of the root taken through the stages one after the other, in
    order, however the two interleave. Its loop takes as many turns as there
    are calls to make, which the fuel has to cover. *)
Theorem sequential_run_composes (root : seq_worker (list result))
    (rest : list (seq_worker (list result))) (fs : list (py → res result))
    (rs : list result) (fuel : nat) :
  scripted_root root → Forall2 stage_of rest fs → quiet_generators rs →
  (turns fs false ((rs, []), []) < fuel)%nat →
  ∃ s, _sequential_run (root :: rest) false fuel ((rs, []), []) = (Ok tt, s) ∧
    s.2 = pipeline fs (root_items rs) ∧ s.1.2 = [].
Proof. apply sequential_run_yields. Qed.

Module SeqDemo.
Definition double (x : py) : res result :=
  match x with
  | PyNum n => Ok (RVal (PyList [PyNum (n + n); PyNone; PyNum n]))
  | _ => Raise TypeError
  end.
Definition count_up (x : py) : res result :=
  match x with
  | PyNum n => Ok (RGen (Generator [PyNum n; End; PyNum (n + 1)] (Some ValueError)))
  | _ => Raise TypeError
  end.
Definition worker (f : py → res result) : seq_worker (list result) :=
  SeqWorker "stage" (λ arg, match arg with Some x => as_call (f x) | None => ret (SeqVal PyNone) end)
    None None None (Some 0%Z).
Definition root : seq_worker (list result) :=
  SeqWorker "root" (λ arg '(rs, p), match rs with
                           | [] => (Ok (SeqVal End), ([], p))
                           | r :: rs => (Ok (as_seq r), (rs, p))
                           end) None None None None.
Definition script : list result :=
  [RVal PyNone; RVal (PyNum 1); RVal (PyList [PyNum 2; PyStr "x"; PyNone; End; PyNum 3]); RVal (PyNum 4)].

Lemma stage_ok f : (∀ x, match f x with
      | Ok (RGen g) => ∀ e, gen_raises g = Some e → is_exception e = true
      | Ok _ => True
      | Raise e => is_exception e = true
      | Spin => False
      end) → stage_of (worker f) f.
Proof. intros Hf. by split_and!. Defined.
End SeqDemo.

Lemma sequential_run_composes_witness :
  (pipeline [SeqDemo.double; SeqDemo.count_up] (root_items SeqDemo.script) =
     (PyNum <$> [2; 3; 1; 2; 4; 5; 2; 3])%Z) ∧
  ∃ s, _sequential_run [SeqDemo.root; SeqDemo.worker SeqDemo.double; SeqDemo.worker SeqDemo.count_up]
         false 40 ((SeqDemo.script, []), []) = (Ok tt, s) ∧
    s.2 = pipeline [SeqDemo.double; SeqDemo.count_up] (root_items SeqDemo.script) ∧ s.1.2 = [].
Proof.
  split; [vm_compute; reflexivity|].
  apply (sequential_run_composes SeqDemo.root
    [SeqDemo.worker SeqDemo.double; SeqDemo.worker SeqDemo.count_up]
    [SeqDemo.double; SeqDemo.count_up] SeqDemo.script 40).
  - done.
  - repeat constructor; apply SeqDemo.stage_ok; intros []; simpl; try done; by intros ? [= <-].
  - repeat constructor.
  - vm_compute. lia.
Defined.
