(* ===== verification/Push.v ===== *)
(** * Back edges (workers._make_push)

    [worker.push(stage, item)] sends an item back to the input queue of an
    earlier stage; [_seq_push] of [Sequential] is its single-process twin. *)
From S2P Require Import Prelude Types Queues Sequential.

Section push.
Context {W : Type} `{Runtime W}.
(** [all_queues], [stage_names] and the stop flag, if there is one. *)
Context (all_queues : list (queue W msg)) (stage_names : option (list string)).
Context (should_stop : option (prog W Z)).

(** [name_to_idx]: the first stage of each name. *)
Fixpoint number_names (i : Z) (names : list string) (m : gmap string Z) : gmap string Z :=
  match names with
  | [] => m
  | nm :: names =>
      number_names (i + 1) names
        (match m !! nm with Some _ => m | None => <[nm := i]> m end)
  end.
Definition name_to_idx : gmap string Z :=
  match stage_names with Some names => number_names 0 names ∅ | None => ∅ end.

(** The index a push is for, and whether that stage has an input queue. *)
Definition push_index (stage : push_target) : res Z :=
  match
    match stage with
    | StageBool _ => Raise TypeError
    | StageIndex i => Ok i
    | StageName s => match name_to_idx !! s with Some i => Ok i | None => Raise ValueError end
    end
  with
  | Ok idx =>
      if ((idx <=? 0) || (Z.of_nat (length all_queues) + 1 <=? idx))%Z then Raise ValueError
      else Ok idx
  | r => r
  end.

Definition stop_requested : prog W bool :=
  match should_stop with
  | Some c => let! v := c in ret (negb (v =? 0)%Z)
  | None => ret false
  end.

(** One turn of the blocking push. *)
Definition push_turn (put : Z → prog W unit) (deadline : option Z) : prog W (unit + bool) :=
  let! stop := stop_requested in
  if stop : bool then ret (inr false)
  else
    try_except (put (millis 100) ;! ret (inr true))
      (λ e, match e with
            | Full =>
                let! late := match deadline with
                             | Some d => let! n := now in ret (d <=? n)%Z
                             | None => ret false
                             end in
                if late : bool then ret (inr false)
                else sleep (millis 10) ;! ret (inl tt)
            | e => raise e
            end).

(** [_push(stage, item, block, timeout)]. *)
Definition _push (fuel : nat) (stage : push_target) (item : py) (block : bool) (timeout : option Z)
    : prog W bool :=
  if is_None item then ret false
  else
    let! idx := of_res (push_index stage) in
    match all_queues !! Z.to_nat (idx - 1) with
    | None => raise IndexError
    | Some target =>
        if block then
          let! deadline := match timeout with
                           | Some t => let! n := now in ret (Some (n + t)%Z)
                           | None => ret None
                           end in
          let! put := putter target (Bare item) in
          loop fuel (λ _ : unit, push_turn put deadline) tt
        else
          try_except (q_put_nowait target (Bare item) ;! ret true)
            (λ e, match e with Full => ret false | e => raise e end)
    end.
End push.

(** ** What a push leaves *)

Lemma number_names_lookup i names m s :
  number_names i names m !! s =
  match m !! s with
  | Some k => Some k
  | None => match index_of s names i with Ok k => Some k | _ => None end
  end.
Proof.
  revert i m. induction names as [|nm names IH]; intros i m; simpl; [by destruct (m !! s)|].
  rewrite IH. destruct (decide (s = nm)) as [->|Hne].
  - destruct (m !! nm) as [k|] eqn:E; [by rewrite E|]. by rewrite lookup_insert_eq.
  - destruct (m !! nm) eqn:E; [done|]. by rewrite lookup_insert_ne by done.
Qed.

(** An index that passes the check names a queue. *)
Lemma push_index_queue {W} (qs : list (queue W msg)) names stage idx :
  push_index qs names stage = Ok idx → ∃ q, qs !! Z.to_nat (idx - 1) = Some q.
Proof.
  unfold push_index.
  destruct (match stage with StageBool _ => _ | StageIndex i => _ | StageName s => _ end) as [i|e|];
    [|done..].
  destruct (_ || _) eqn:Hb; [done|]. intros [= ->]. boolify.
  apply lookup_lt_is_Some_2. lia.
Qed.

Section push_spec.
Context {W : Type} `{Runtime W} (q : queue W msg) `{!LawfulQueue q}.
Context (should_stop : option (prog W Z)).
Context (stop_quiet : ∀ c, should_stop = Some c → keeps (q_log q) c).

Lemma push_turn_spec put item deadline w :
  (∀ t, puts q (Bare item) (put t)) →
  wp (push_turn should_stop put deadline)
     (λ r w', match r with
              | Ok (inr true) => q_sent q w' = q_sent q w ++ [Bare item] ∧ q_recv q w' = q_recv q w
              | _ => q_log q w' = q_log q w
              end) w.
Proof using stop_quiet LawfulQueue0.
  intros Hput. apply (wp_bind_keeps (q_log q)).
  - unfold stop_requested. destruct should_stop as [c|] eqn:E; [|apply keeps_ret].
    apply keeps_bind; [by apply stop_quiet|]. intros; apply keeps_ret.
  - done.
  - intros [] w1 Hw1; [by apply wp_ret|].
    assert (q_sent q w1 = q_sent q w ∧ q_recv q w1 = q_recv q w) as [Hs1 Hr1].
    { unfold q_log in Hw1. by simplify_eq/=. }
    apply wp_try, wp_bind. unfold wp at 1. destruct (Hput (millis 100) w1) as [Hs Hr].
    destruct (put (millis 100) w1) as [[[]|e|] w2]; simpl in *.
    + apply wp_ret. rewrite Hs, Hr, Hs1. done.
    + rewrite app_nil_r in Hs. assert (q_log q w2 = q_log q w) as Hw2 by (unfold q_log; congruence).
      destruct e; try done.
      apply (wp_bind_keeps (q_log q)); [|intros w3 Hw3; split; [intros|]; congruence|].
      { destruct deadline; [|apply keeps_ret]. apply keeps_bind; [apply lawful_now|].
        intros; apply keeps_ret. }
      intros [] w3 Hw3; [apply wp_ret; congruence|].
      apply (wp_bind_keeps (q_log q)); [apply lawful_sleep|intros w4 Hw4; split; [intros|]; congruence|].
      intros [] w4 Hw4. apply wp_ret. congruence.
    + unfold q_log. rewrite Hs, Hr, app_nil_r. congruence.
Qed.

Lemma blocking_push_spec fuel put item deadline w :
  (∀ t, puts q (Bare item) (put t)) →
  wp (loop fuel (λ _ : unit, push_turn should_stop put deadline) tt)
     (λ r w', match r with
              | Ok true => q_sent q w' = q_sent q w ++ [Bare item] ∧ q_recv q w' = q_recv q w
              | _ => q_log q w' = q_log q w
              end) w.
Proof using stop_quiet LawfulQueue0.
  intros Hput. apply (wp_loop (λ _ w', q_log q w' = q_log q w)); [done|done|].
  intros _ w1 Hw1. eapply wp_mono; [by apply (push_turn_spec put item)|].
  assert (q_sent q w1 = q_sent q w ∧ q_recv q w1 = q_recv q w) as [Hs1 Hr1].
  { unfold q_log in Hw1. by simplify_eq/=. }
  intros [[[]|[]]|e|] w2 Hw2; try congruence; by rewrite Hs1, Hr1 in Hw2.
Qed.
End push_spec.

(** ** Properties *)

(** C38: a push lands exactly once or not at all, and says which. On queues
    that keep their promises, for whatever target, blocking or not, with or
    without a timeout: when [_push] returns [True] the item is on the queue in
    front of the stage named and nothing else happened to that queue; when it
    returns [False] or raises, nothing was put. A target that is not a stage
    with an input queue raises before anything is put. *)
Theorem push_exactly_once {W} `{Runtime W} (qs : list (queue W msg)) (names : option (list string))
    (should_stop : option (prog W Z)) (fuel : nat) (stage : push_target) (item : py)
    (block : bool) (timeout : option Z) (w : W) :
  Forall (λ q, LawfulQueue q ∧ ∀ c, should_stop = Some c → keeps (q_log q) c) qs →
  let '(r, w') := _push qs names should_stop fuel stage item block timeout w in
  match push_index qs names stage with
  | Ok idx =>
      ∃ q, qs !! Z.to_nat (idx - 1) = Some q ∧
        q_recv q w' = q_recv q w ∧
        q_sent q w' = q_sent q w ++ match r with Ok true => [Bare item] | _ => [] end
  | Raise e => if is_None item then r = Ok false ∧ w' = w else r = Raise e ∧ w' = w
  | Spin => False
  end.
Proof.
  intros Hqs. unfold _push.
  destruct (push_index qs names stage) as [idx|e|] eqn:Hi.
  - destruct (push_index_queue qs names stage idx Hi) as [q Hq]. rewrite Hq.
    destruct (Forall_lookup_1 _ _ _ _ Hqs Hq) as [Hlaw Hstop].
    destruct (is_None item).
    { exists q. simpl. by rewrite app_nil_r. }
    unfold bind at 1. simpl.
    assert (∀ c : prog W bool, wp c (λ r w', match r with
        | Ok true => q_sent q w' = q_sent q w ++ [Bare item] ∧ q_recv q w' = q_recv q w
        | _ => q_log q w' = q_log q w end) w →
      let '(r, w') := c w in ∃ q0, Some q = Some q0 ∧ q_recv q0 w' = q_recv q0 w ∧
        q_sent q0 w' = q_sent q0 w ++ match r with Ok true => [Bare item] | _ => [] end) as Hwp.
    { intros c Hc. unfold wp in Hc. destruct (c w) as [[[]|e|] w']; exists q; unfold q_log in Hc;
        simplify_eq/=; rewrite ?app_nil_r; naive_solver. }
    rewrite Hq. destruct block; apply Hwp; clear Hwp.
    + apply (wp_bind_keeps (q_log q)); [|done|].
      { destruct timeout; [|apply keeps_ret]. apply keeps_bind; [apply lawful_now|].
        intros; apply keeps_ret. }
      intros deadline w1 Hw1. apply wp_bind. unfold wp at 1.
      destruct (putter_spec q (Bare item) w1) as [Hlog Hput].
      assert (q_sent q w1 = q_sent q w ∧ q_recv q w1 = q_recv q w) as [Hs1 Hr1].
      { unfold q_log in Hw1. by simplify_eq/=. }
      destruct (putter q (Bare item) w1) as [[put|e|] w2]; simpl in *; [|congruence..].
      eapply wp_mono; [apply (blocking_push_spec q should_stop Hstop fuel put item)|].
      { intros t. by apply Hput. }
      unfold q_log in *. intros [[]|e|] w3; simplify_eq/=; intros; destruct_and?; split || idtac; congruence.
    + apply wp_try, wp_bind. unfold wp at 1. destruct (lawful_put_nowait (q:=q) (Bare item) w) as [Hs Hr].
      destruct (q_put_nowait q (Bare item) w) as [[[]|e|] w1]; simpl in *; [by apply wp_ret| |].
      * rewrite app_nil_r in Hs. assert (q_log q w1 = q_log q w) by (unfold q_log; congruence).
        by destruct e.
      * rewrite app_nil_r in Hs. unfold q_log. congruence.
  - destruct (is_None item); [done|]. done.
  - unfold push_index in Hi. destruct stage; simpl in Hi; repeat case_match; done.
Qed.

Module PushDemo.
Definition q0 : queue (Fifo.fifo msg) msg := Fifo.as_queue.
Definition names : option (list string) := Some ["root"; "mel"; "asr"; "mel"].
Definition w : Fifo.fifo msg := Fifo.MkFifo [] [Bare (PyNum 1)] 2 0.
End PushDemo.

Lemma push_exactly_once_witness :
  (_push [PushDemo.q0; PushDemo.q0; PushDemo.q0; PushDemo.q0] PushDemo.names None 2
     (StageName "mel") (PyNum 7) true (Some (millis 5)) PushDemo.w).1 = Ok true ∧
  push_index [PushDemo.q0; PushDemo.q0; PushDemo.q0; PushDemo.q0] PushDemo.names (StageName "mel") = Ok 1%Z ∧
  let '(r, w') := _push [PushDemo.q0; PushDemo.q0; PushDemo.q0; PushDemo.q0] PushDemo.names None 2
     (StageName "mel") (PyNum 7) true (Some (millis 5)) PushDemo.w in
  match push_index [PushDemo.q0; PushDemo.q0; PushDemo.q0; PushDemo.q0] PushDemo.names (StageName "mel") with
  | Ok idx =>
      ∃ q, [PushDemo.q0; PushDemo.q0; PushDemo.q0; PushDemo.q0] !! Z.to_nat (idx - 1) = Some q ∧
        q_recv q w' = q_recv q PushDemo.w ∧
        q_sent q w' = q_sent q PushDemo.w ++ match r with Ok true => [Bare (PyNum 7)] | _ => [] end
  | Raise e => if is_None (PyNum 7) then r = Ok false ∧ w' = PushDemo.w else r = Raise e ∧ w' = PushDemo.w
  | Spin => False
  end.
Proof.
  split; [vm_compute; reflexivity|]. split; [vm_compute; reflexivity|].
  apply (push_exactly_once [PushDemo.q0; PushDemo.q0; PushDemo.q0; PushDemo.q0] PushDemo.names None 2
           (StageName "mel") (PyNum 7) true (Some (millis 5)) PushDemo.w).
  repeat constructor; try apply Fifo.lawful; done.
Defined.

Lemma name_to_idx_index_of names s i :
  name_to_idx (Some names) !! s = Some i ↔ index_of s names 0 = Ok i.
Proof.
  unfold name_to_idx. rewrite number_names_lookup, lookup_empty.
  destruct (index_of s names 0); naive_solver.
Qed.

(** Pushes to a stage of the pipeline go to the same stage in both modes;
    one past the last stage they differ. With one queue per stage, as [start]
    makes them, the parallel [_push] resolves every index or name that the
    sequential [_seq_push] accepts to the same stage, and also accepts the
    number of stages itself, which is the queue of the final results, where
    [_seq_push] raises [ValueError]. It accepts nothing else. *)
Theorem push_modes_agree {W U} (qs : list (queue W msg)) (ws : list (seq_worker U))
    (stage : push_target) (item : py) (u : U) (p : list (Z * py)) :
  length qs = length ws → is_None item = false →
  match push_index qs (Some (sw_name <$> ws)) stage with
  | Ok idx =>
      _seq_push ws stage item (u, p) =
      if decide (idx = Z.of_nat (length ws)) then (Raise ValueError, (u, p))
      else (Ok true, (u, p ++ [(idx, item)]))
  | Raise e => _seq_push ws stage item (u, p) = (Raise e, (u, p))
  | Spin => False
  end.
Proof.
  intros Hlen Hitem. unfold push_index, _seq_push. rewrite Hitem, Hlen.
  assert (∀ idx : Z, match (if ((idx <=? 0) || (Z.of_nat (length ws) + 1 <=? idx))%Z then Raise ValueError
                        else Ok idx) with
    | Ok idx => (if ((idx <=? 0) || (Z.of_nat (length ws) <=? idx))%Z then raise ValueError
                 else add_pending idx item ;! ret true) (u, p) =
                if decide (idx = Z.of_nat (length ws)) then (Raise ValueError, (u, p))
                else (Ok true, (u, p ++ [(idx, item)]))
    | Raise e => (if ((idx <=? 0) || (Z.of_nat (length ws) <=? idx))%Z then raise ValueError
                 else add_pending idx item ;! ret true) (u, p) = (Raise e, (u, p))
    | Spin => False end) as Hidx.
  { intros idx. destruct (_ || (_ + 1 <=? _)%Z) eqn:E1; destruct (_ || (Z.of_nat (length ws) <=? idx)%Z) eqn:E2;
      boolify; try lia; [done|..]; destruct (decide _); try done; lia. }
  unfold bind at 1, of_res; destruct stage as [b|i|s]; cbv beta iota; [done| |].
  { specialize (Hidx i). destruct (_ || (_ + 1 <=? _)%Z); exact Hidx. }
  destruct (index_of s (sw_name <$> ws) 0) as [i|e|] eqn:E.
  - rewrite (proj2 (name_to_idx_index_of _ _ _) E). specialize (Hidx i).
    destruct (_ || (_ + 1 <=? _)%Z); exact Hidx.
  - assert (name_to_idx (Some (sw_name <$> ws)) !! s = None) as ->.
    { apply eq_None_not_Some. intros [i Hi]. by rewrite name_to_idx_index_of, E in Hi. }
    assert (∀ l j, match index_of s l j with Raise e => e = ValueError | Spin => False | _ => True end) as Hv.
    { induction l as [|x l IH]; intros j; simpl; [done|]. destruct (decide (s = x)); [done|apply IH]. }
    specialize (Hv (sw_name <$> ws) 0%Z). rewrite E in Hv. by subst.
  - exfalso. clear -E. revert E. generalize 0%Z. induction (sw_name <$> ws) as [|x l IH]; intros j; simpl; [done|].
    destruct (decide _); [done|apply IH].
Qed.

Lemma push_modes_agree_witness :
  _seq_push [SeqDemo.root; SeqDemo.worker SeqDemo.double] (StageIndex 2) (PyNum 5) ([], []) =
    (Raise ValueError, ([], [])) ∧
  match push_index [PushDemo.q0; PushDemo.q0] (Some (sw_name <$> [SeqDemo.root; SeqDemo.worker SeqDemo.double])) (StageIndex 2) with
  | Ok idx =>
      _seq_push [SeqDemo.root; SeqDemo.worker SeqDemo.double] (StageIndex 2) (PyNum 5) ([], []) =
      if decide (idx = Z.of_nat (length [SeqDemo.root; SeqDemo.worker SeqDemo.double])) then (Raise ValueError, ([], []))
      else (Ok true, ([], [] ++ [(idx, PyNum 5)]))
  | Raise e => _seq_push [SeqDemo.root; SeqDemo.worker SeqDemo.double] (StageIndex 2) (PyNum 5) ([], []) = (Raise e, ([], []))
  | Spin => False
  end.
Proof.
  split; [vm_compute; reflexivity|].
  apply (push_modes_agree [PushDemo.q0; PushDemo.q0] [SeqDemo.root; SeqDemo.worker SeqDemo.double]
           (StageIndex 2) (PyNum 5) [] []); reflexivity.
Defined.
