(* ===== verification/Jobs.v ===== *)
(** * Building a pipeline (pipe.py: Pipe.add, gpus, _get_gpu_count)

    The list of jobs a pipeline is made of and what [add] accepts, refuses and
    resolves: the GPU pool, the CPU pool, the number of workers. *)
From S2P Require Import Prelude Types Text Placement.

(** ** Jobs *)

(** A stage as [add] and [start] look at it: [__name__] if it has one, the
    name of its class, whether it has an [on_park] method. *)
Record stage_func := StageFunc {
  f_tag : Z;
  f_dunder_name : option string;
  f_class_name : string;
  f_on_park : bool;
}.

(** An argument that ought to be an [int]. *)
Inductive int_arg :=
  | ArgBool (b : bool)
  | ArgInt (n : Z)
  | ArgOther.

(** One entry of [self.jobs]; [j_chunk_eff] is the key [start] adds. *)
Record job := Job {
  j_func : stage_func;
  j_name : string;
  j_outqn : option Z;
  j_num_workers : Z;
  j_pergpu : bool;
  j_thread : bool;
  j_gpu_id : option Z;
  j_gpus : option (list Z);
  j_cpus : option (list Z);
  j_cpu_threads : option int_arg;
  j_is_gpu_stage : bool;
  j_scavenge : bool;
  j_hang_timeout : option Z;
  j_batch : Z;
  j_drain : bool;
  j_chunk : option Z;
  j_chunk_ms : Z;
  j_chunk_eff : option Z;
}.

(** The arguments of [add]. *)
Record add_args := AddArgs {
  a_workers : Z;
  a_outqn : option Z;
  a_pergpu : bool;
  a_thread : bool;
  a_gpu_id : option Z;
  a_gpus : option (list Z);
  a_cpus : option (list Z);
  a_cpu_threads : option int_arg;
  a_batch : Z;
  a_drain : bool;
  a_chunk : option Z;
  a_chunk_ms : Z;
  a_scavenge : bool;
  a_hang_timeout : option Z;
}.

(** The defaults of [add]. *)
Definition default_args : add_args :=
  AddArgs 1 None false false None None None None 0 true None 10000 false None.

(** ** Counting GPUs *)

(** What [_get_gpu_count] asks the machine: torch, if it can be imported, with
    the answers of [is_available] and [device_count]; the exit code and the
    output of nvidia-smi; [CUDA_VISIBLE_DEVICES]. *)
Record gpu_probe := GpuProbe {
  gp_torch : res (option (res bool * res Z));
  gp_smi : res (Z * string);
  gp_cvd : option string;
}.

(** [len(s.split())]: the words between blanks. *)
Fixpoint count_words (in_word : bool) (cs : list ascii) : Z :=
  match cs with
  | [] => 0
  | c :: cs =>
      if is_space c then count_words false cs
      else (if in_word then 0 else 1) + count_words true cs
  end.

(** The body of the [try] of [_get_gpu_count]. *)
Definition probe_gpus (torch : option (res bool * res Z)) (p : gpu_probe) : res Z :=
  match torch with
  | Some (Ok true, count) => count
  | Some (Ok false, _) => Ok 0%Z
  | Some (Raise e, _) => Raise e
  | Some (Spin, _) => Spin
  | None =>
      match gp_smi p with
      | Ok (returncode, stdout) =>
          let n := if (returncode =? 0)%Z then count_words false (chars stdout) else 0%Z in
          Ok (match gp_cvd p with
              | Some visible => Z.min n (Z.of_nat (length (visible_devices visible)))
              | None => n
              end)
      | Raise e => Raise e
      | Spin => Spin
      end
  end.

Definition _get_gpu_count (p : gpu_probe) : res Z :=
  match gp_torch p with
  | Ok torch =>
      match probe_gpus torch p with
      | Raise e => if is_exception e then Ok 0%Z else Raise e
      | r => r
      end
  | Raise e => Raise e
  | Spin => Spin
  end.

(** ** add *)

(** What [add] reads and writes of the pipeline. *)
Record builder := Builder {
  jobs : list job;
  gpu_cache : option Z;           (* self._gpus *)
}.

(** What it asks: the GPUs, [os.cpu_count()], and pickling the stage. *)
Record machine := Machine {
  m_gpus : gpu_probe;
  m_cpu_count : option Z;
  m_dumps : stage_func → res unit;
}.

Section add.
Context (mach : machine).

(** The property [gpus]: counted once. *)
Definition gpus : prog builder Z := λ b,
  match gpu_cache b with
  | Some n => (Ok n, b)
  | None => match _get_gpu_count (m_gpus mach) with
            | Ok n => (Ok n, Builder (jobs b) (Some n))
            | Raise e => (Raise e, b)
            | Spin => (Spin, b)
            end
  end.

(** [_check_picklable]: it only ever warns. *)
Definition _check_picklable (func : stage_func) (is_thread : bool) : res unit :=
  if is_thread then Ok tt
  else match m_dumps mach func with
       | Raise e => if is_exception e then Ok tt else Raise e
       | r => r
       end.

Definition stage_name (func : stage_func) : string :=
  default (f_class_name func) (f_dunder_name func).

(** The checks of [scavenge=True] and [hang_timeout=]. *)
Definition check_scavenge (is_root_stage : bool) (a : add_args) : res unit :=
  if a_scavenge a && (a_thread a || is_root_stage) then Raise ValueError else Ok tt.
Definition check_hang (is_root_stage : bool) (a : add_args) : res unit :=
  match a_hang_timeout a with
  | Some t => if a_thread a || is_root_stage || (t <=? 0)%Z then Raise ValueError else Ok tt
  | None => Ok tt
  end.

(** [gpu_list]; [pergpu] is the flag after the root clamp. *)
Definition resolve_pool (a : add_args) (pergpu : bool) (gpu_count : Z) : res (option (list Z)) :=
  match a_gpus a with
  | Some [] => Raise ValueError
  | Some l => Ok (Some l)
  | None =>
      if pergpu then Ok (if (0 <? gpu_count)%Z then Some (range gpu_count) else None)
      else Ok (match a_gpu_id a with Some g => Some [g] | None => None end)
  end.

(** [bad = sorted({x for x in l if x < 0 or x >= n})] is not empty. *)
Definition any_bad (n : Z) (l : list Z) : bool := existsb (λ x, (x <? 0) || (n <=? x))%Z l.

Definition check_pool (pool : option (list Z)) (gpu_count : Z) : res unit :=
  match pool with
  | Some l => if any_bad gpu_count l then Raise ValueError else Ok tt
  | None => Ok tt
  end.

(** [cpu_list]. *)
Definition resolve_cpus (a : add_args) : res (option (list Z)) :=
  match a_cpus a with
  | Some [] => Raise ValueError
  | Some l => if any_bad (default 0%Z (m_cpu_count mach)) l then Raise ValueError else Ok (Some l)
  | None => Ok None
  end.

Definition check_cpu_threads (a : add_args) : res unit :=
  match a_cpu_threads a with
  | Some (ArgInt n) => if (n <? 1)%Z then Raise ValueError else Ok tt
  | Some _ => Raise ValueError
  | None => Ok tt
  end.

(** A root stage that asks for several workers gets one. *)
Definition clamped (is_root_stage : bool) (a : add_args) : bool :=
  is_root_stage && ((1 <? a_workers a)%Z || a_pergpu a).

Definition add (func : stage_func) (a : add_args) : prog builder unit :=
  let! _ := of_res (_check_picklable func (a_thread a)) in
  let! is_root_stage := (λ b, (Ok (bool_decide (jobs b = [])), b)) in
  let clamp := clamped is_root_stage a in
  let workers := if clamp then 1%Z else a_workers a in
  let pergpu := if clamp then false else a_pergpu a in
  of_res (check_scavenge is_root_stage a) ;!
  of_res (check_hang is_root_stage a) ;!
  let! gpu_count :=
    (if bool_decide (a_gpus a ≠ None) || pergpu || bool_decide (a_gpu_id a ≠ None)
     then gpus else ret 0%Z) in
  let! gpu_list := of_res (resolve_pool a pergpu gpu_count) in
  of_res (check_pool gpu_list gpu_count) ;!
  let scavenge := a_scavenge a && bool_decide (gpu_list ≠ None) in
  let actual_workers := match gpu_list with
                        | Some l => (workers * Z.of_nat (length l))%Z
                        | None => workers
                        end in
  let! cpu_list := of_res (resolve_cpus a) in
  of_res (check_cpu_threads a) ;!
  (λ b, (Ok tt, Builder (jobs b ++ [{|
    j_func := func; j_name := stage_name func; j_outqn := a_outqn a;
    j_num_workers := actual_workers; j_pergpu := pergpu; j_thread := a_thread a;
    j_gpu_id := a_gpu_id a; j_gpus := gpu_list; j_cpus := cpu_list;
    j_cpu_threads := a_cpu_threads a; j_is_gpu_stage := bool_decide (gpu_list ≠ None);
    j_scavenge := scavenge; j_hang_timeout := a_hang_timeout a; j_batch := a_batch a;
    j_drain := a_drain a; j_chunk := a_chunk a; j_chunk_ms := a_chunk_ms a;
    j_chunk_eff := None |}]) (gpu_cache b))).
End add.

(** ** What a request has to satisfy *)

Definition in_range (n : Z) (l : list Z) : Prop := Forall (λ x, 0 ≤ x < n)%Z l.

(** The GPUs a request names explicitly: it gets these or none at all. *)
Definition named_pool (first : bool) (a : add_args) : option (list Z) :=
  match a_gpus a with
  | Some l => Some l
  | None => if a_pergpu a && negb (clamped first a) then None
            else match a_gpu_id a with Some g => Some [g] | None => None end
  end.

(** What [add] accepts; [first] says that the stage is the root. *)
Record acceptable (first : bool) (gpu_count cpu_count : Z) (a : add_args) : Prop := {
  acc_scavenge : a_scavenge a = true → a_thread a = false ∧ first = false;
  acc_hang t : a_hang_timeout a = Some t → a_thread a = false ∧ first = false ∧ (0 < t)%Z;
  acc_gpus l : named_pool first a = Some l → l ≠ [] ∧ in_range gpu_count l;
  acc_cpus l : a_cpus a = Some l → l ≠ [] ∧ in_range cpu_count l;
  acc_threads x : a_cpu_threads a = Some x → ∃ n, x = ArgInt n ∧ (1 ≤ n)%Z;
}.

(** What a job that [add] appends is like. *)
Record job_ok (first : bool) (gpu_count cpu_count : Z) (f : stage_func) (a : add_args) (j : job) : Prop := {
  ok_name : j_func j = f ∧ j_name j = stage_name f;
  ok_pool l : j_gpus j = Some l → l ≠ [] ∧ in_range gpu_count l;
  ok_named l : named_pool first a = Some l → j_gpus j = Some l;
  ok_workers : j_num_workers j = ((if clamped first a then 1 else a_workers a) *
                 match j_gpus j with Some l => Z.of_nat (length l) | None => 1 end)%Z;
  ok_scavenge : j_scavenge j = true → j_gpus j ≠ None ∧ j_thread j = false ∧ first = false;
  ok_hang t : j_hang_timeout j = Some t → (0 < t)%Z ∧ j_thread j = false ∧ first = false;
  ok_cpus l : j_cpus j = Some l → l ≠ [] ∧ in_range cpu_count l;
  ok_threads x : j_cpu_threads j = Some x → ∃ n, x = ArgInt n ∧ (1 ≤ n)%Z;
}.

Lemma any_bad_spec n l : any_bad n l = false ↔ in_range n l.
Proof.
  unfold any_bad, in_range. induction l as [|x l IH]; simpl; [by split|].
  rewrite orb_false_iff, IH, Forall_cons. boolify. intuition lia.
Qed.

Lemma any_bad_false n l : any_bad n l = true ↔ ¬ in_range n l.
Proof. rewrite <-any_bad_spec. by destruct (any_bad n l). Qed.

(** The pool of a GPU stage, and when there is none to be had. *)
Lemma resolve_pool_spec first a count :
  let pergpu := if clamped first a then false else a_pergpu a in
  match resolve_pool a pergpu count with
  | Ok pool =>
      match check_pool pool count with
      | Ok _ => (∀ l, named_pool first a = Some l → pool = Some l) ∧
                (∀ l, pool = Some l → l ≠ [] ∧ in_range count l)
      | Raise e => e = ValueError ∧ ∃ l, named_pool first a = Some l ∧ ¬ in_range count l
      | Spin => False
      end
  | Raise e => e = ValueError ∧ named_pool first a = Some []
  | Spin => False
  end.
Proof.
  assert (∀ l, l ≠ [] → match check_pool (Some l) count with
     | Ok _ => l ≠ [] ∧ in_range count l
     | Raise e => e = ValueError ∧ ¬ in_range count l
     | Spin => False end) as Hcheck.
  { intros l Hl. unfold check_pool. destruct (any_bad count l) eqn:E; [by apply any_bad_false in E|].
    by apply any_bad_spec in E. }
  assert (∀ l, l ≠ [] → match check_pool (Some l) count with
     | Ok _ => (∀ l', Some l = Some l' → Some l = Some l') ∧ (∀ l', Some l = Some l' → l' ≠ [] ∧ in_range count l')
     | Raise e => e = ValueError ∧ ∃ l', Some l = Some l' ∧ ¬ in_range count l'
     | Spin => False end) as Hnamed.
  { intros l Hl. specialize (Hcheck l Hl). destruct (check_pool _ _); naive_solver. }
  unfold resolve_pool, named_pool. destruct (a_gpus a) as [[|g l]|]; [done|by apply Hnamed|].
  assert (match check_pool (if (0 <? count)%Z then Some (range count) else None) count with
     | Ok _ => (∀ l' : list Z, None = Some l' → (if (0 <? count)%Z then Some (range count) else None) = Some l') ∧
               ∀ l', (if (0 <? count)%Z then Some (range count) else None) = Some l' → l' ≠ [] ∧ in_range count l'
     | Raise _ | Spin => False end) as Hall.
  { destruct (0 <? count)%Z eqn:E; boolify; [|done].
    assert (in_range count (range count)) as Hr.
    { apply Forall_forall. intros x Hx. unfold range in Hx. apply elem_of_seqZ in Hx. lia. }
    assert (range count ≠ []) as Hne.
    { intros He. apply (f_equal length) in He. unfold range in He. rewrite length_seqZ in He. simpl in He. lia. }
    specialize (Hcheck _ Hne). destruct (check_pool _ _); naive_solver. }
  destruct (clamped first a), (a_pergpu a), (a_gpu_id a) as [g|]; cbn [andb negb];
    try (by apply Hnamed); try (simpl; split; naive_solver);
    destruct (check_pool _ count); naive_solver.
Qed.

Section add_spec.
Context (mach : machine) (count : Z).
Context (Hcount : _get_gpu_count (m_gpus mach) = Ok count).
Context (Hdumps : ∀ f, m_dumps mach f = Ok tt ∨ ∃ e, m_dumps mach f = Raise e ∧ is_exception e = true).

Definition counted (b : builder) : Prop := gpu_cache b = None ∨ gpu_cache b = Some count.

Lemma gpus_spec b : counted b →
  ∃ b', gpus mach b = (Ok count, b') ∧ jobs b' = jobs b ∧ counted b'.
Proof using Hcount.
  unfold counted, gpus. intros [E|E]; rewrite E; [rewrite Hcount|]; eexists; split; eauto.
Qed.

Lemma check_picklable_warns f t : _check_picklable mach f t = Ok tt.
Proof using Hdumps.
  unfold _check_picklable. destruct t; [done|].
  destruct (Hdumps f) as [->|(e & -> & ->)]; done.
Qed.

(** [gpu_count] when no GPU is asked for is zero, and does not matter. *)
Lemma gpu_count_irrelevant a pergpu n :
  bool_decide (a_gpus a ≠ None) || pergpu || bool_decide (a_gpu_id a ≠ None) = false →
  resolve_pool a pergpu n = Ok None.
Proof.
  rewrite !orb_false_iff, !bool_decide_eq_false. intros [[H1 ->] H2].
  assert (a_gpus a = None) as E1 by (destruct (a_gpus a); [by exfalso; apply H1|done]).
  assert (a_gpu_id a = None) as E2 by (destruct (a_gpu_id a); [by exfalso; apply H2|done]).
  unfold resolve_pool. by rewrite E1, E2.
Qed.

Local Abbreviation ncpu := (default 0%Z (m_cpu_count mach)).

(** The checks that come after the pool. *)
Lemma resolve_cpus_spec a :
  match resolve_cpus mach a with
  | Ok cpus => cpus = a_cpus a ∧ ∀ l, a_cpus a = Some l → l ≠ [] ∧ in_range ncpu l
  | Raise e => e = ValueError ∧ ∃ l, a_cpus a = Some l ∧ ¬ (l ≠ [] ∧ in_range ncpu l)
  | Spin => False
  end.
Proof.
  unfold resolve_cpus. destruct (a_cpus a) as [[|c l]|]; [naive_solver| |naive_solver].
  destruct (any_bad ncpu (c :: l)) eqn:E.
  - apply any_bad_false in E. naive_solver.
  - apply any_bad_spec in E. naive_solver.
Qed.

Lemma check_cpu_threads_spec a :
  match check_cpu_threads a with
  | Ok _ => ∀ x, a_cpu_threads a = Some x → ∃ n, x = ArgInt n ∧ (1 ≤ n)%Z
  | Raise e => e = ValueError ∧ ∃ x, a_cpu_threads a = Some x ∧ ¬ ∃ n, x = ArgInt n ∧ (1 ≤ n)%Z
  | Spin => False
  end.
Proof.
  unfold check_cpu_threads. destruct (a_cpu_threads a) as [[b|n|]|]; [naive_solver| |naive_solver..].
  destruct (n <? 1)%Z eqn:E; boolify.
  - split; [done|]. eexists. split; [done|]. intros (m & [= <-] & ?). lia.
  - intros x [= <-]. eauto.
Qed.

Lemma check_scavenge_spec first a :
  match check_scavenge first a with
  | Ok _ => a_scavenge a = true → a_thread a = false ∧ first = false
  | Raise e => e = ValueError ∧ ¬ (a_scavenge a = true → a_thread a = false ∧ first = false)
  | Spin => False
  end.
Proof. unfold check_scavenge. destruct (a_scavenge a), (a_thread a), first; naive_solver. Qed.

Lemma check_hang_spec first a :
  match check_hang first a with
  | Ok _ => ∀ t, a_hang_timeout a = Some t → a_thread a = false ∧ first = false ∧ (0 < t)%Z
  | Raise e => e = ValueError ∧
      ¬ ∀ t, a_hang_timeout a = Some t → a_thread a = false ∧ first = false ∧ (0 < t)%Z
  | Spin => False
  end.
Proof.
  unfold check_hang. destruct (a_hang_timeout a) as [t|]; [|naive_solver].
  destruct (a_thread a), first; simpl; try naive_solver.
  destruct (t <=? 0)%Z eqn:E; boolify; [|naive_solver].
  split; [done|]. intros Ht. destruct (Ht t eq_refl). lia.
Qed.
End add_spec.

(** ** Properties *)

(** C37: [add] appends one well-formed job or changes nothing. On a machine
    whose GPUs can be counted, an acceptable request appends exactly one job:
    a pool of existing devices (the ones named, never fewer), as many workers
    per device as asked for, scavenging only with a pool, outside threads and
    behind the root, existing cores, a positive thread count and time limit.
    Any other request raises [ValueError] and leaves the jobs alone. *)
Theorem add_accepts_or_refuses (mach : machine) (count : Z) (f : stage_func) (a : add_args) (b : builder) :
  _get_gpu_count (m_gpus mach) = Ok count →
  (∀ f, m_dumps mach f = Ok tt ∨ ∃ e, m_dumps mach f = Raise e ∧ is_exception e = true) →
  counted count b →
  let first := bool_decide (jobs b = []) in
  let ncpu := default 0%Z (m_cpu_count mach) in
  let '(r, b') := add mach f a b in
  counted count b' ∧
  (acceptable first count ncpu a → r = Ok tt ∧
     ∃ j, jobs b' = jobs b ++ [j] ∧ job_ok first count ncpu f a j) ∧
  (¬ acceptable first count ncpu a → r = Raise ValueError ∧ jobs b' = jobs b).
Proof.
  intros Hcount Hdumps Hb first ncpu. unfold add, bind at 1 2.
  rewrite (check_picklable_warns mach Hdumps). cbn [of_res]. fold first.
  set (pergpu := if clamped first a then false else a_pergpu a).
  pose proof (check_scavenge_spec first a) as H1. unfold bind at 1, of_res at 1.
  destruct (check_scavenge first a) as [[]|e|]; [|destruct H1 as [-> H1]|done].
  2: { split_and!; [done|intros Ha; destruct H1; apply (acc_scavenge _ _ _ _ Ha)|done]. }
  pose proof (check_hang_spec first a) as H2. unfold bind at 1, of_res at 1.
  destruct (check_hang first a) as [[]|e|]; [|destruct H2 as [-> H2]|done].
  2: { split_and!; [done|intros Ha; destruct H2; apply (acc_hang _ _ _ _ Ha)|done]. }
  assert (∃ n b1, (if bool_decide (a_gpus a ≠ None) || pergpu || bool_decide (a_gpu_id a ≠ None)
     then gpus mach else ret 0%Z) b = (Ok n, b1) ∧ jobs b1 = jobs b ∧ counted count b1 ∧
     resolve_pool a pergpu n = resolve_pool a pergpu count ∧
     ∀ pool, resolve_pool a pergpu count = Ok pool → check_pool pool n = check_pool pool count)
    as (n & b1 & Hg & Hj & Hc & Hp & Hcp).
  { destruct (_ || bool_decide (a_gpu_id a ≠ None)) eqn:E.
    - destruct (gpus_spec mach count Hcount b Hb) as (b1 & ? & ? & ?). exists count, b1. by split_and!.
    - exists 0%Z, b. split_and!; try done.
      + by rewrite !(gpu_count_irrelevant _ _ _ E).
      + intros pool. rewrite (gpu_count_irrelevant _ _ _ E). by intros [= <-]. }
  unfold bind at 1. rewrite Hg. unfold bind at 1, of_res at 1. rewrite Hp.
  pose proof (resolve_pool_spec first a count) as H3. fold pergpu in H3. cbv zeta in H3.
  destruct (resolve_pool a pergpu count) as [pool|e|]; [|destruct H3 as [-> H3]|done].
  2: { split_and!; [done|intros []; naive_solver|done]. }
  unfold bind at 1, of_res at 1. rewrite (Hcp _ eq_refl).
  destruct (check_pool pool count) as [[]|e|]; [|destruct H3 as [-> (l & ? & ?)]|done].
  2: { split_and!; [done|intros []; naive_solver|done]. }
  pose proof (resolve_cpus_spec mach a) as H4. unfold bind at 1, of_res at 1.
  destruct (resolve_cpus mach a) as [cpus|e|]; [|destruct H4 as [-> (l & ? & ?)]|done].
  2: { split_and!; [done|intros []; naive_solver|done]. }
  pose proof (check_cpu_threads_spec a) as H5. unfold bind at 1, of_res at 1.
  destruct (check_cpu_threads a) as [[]|e|]; [|destruct H5 as [-> (x & ? & ?)]|done].
  2: { split_and!; [done|intros []; naive_solver|done]. }
  destruct H3 as [H3 H3'], H4 as [-> H4]. split_and!; [done| |].
  - intros _. split; [done|]. eexists. simpl. rewrite Hj. split; [reflexivity|].
    constructor; simpl; try done.
    + destruct pool; lia.
    + rewrite andb_true_iff, bool_decide_eq_true. intros [Hs Hne]. split; [done|]. by apply H1.
    + intros t Ht. destruct (H2 t Ht) as (? & ? & ?). done.
  - intros Hn. exfalso. apply Hn. constructor; try done. intros l Hl. apply H3'. by apply H3.
Qed.

(** How many workers a root stage gets. Without a list of GPUs [add]
    clamps a root stage to one worker, and [add(root, gpus=l)] starts one root
    worker per GPU of [l], although every root worker runs the source by
    itself and duplicates the stream. *)
Theorem root_workers (mach : machine) (count : Z) (f : stage_func) (a : add_args) (b : builder) :
  _get_gpu_count (m_gpus mach) = Ok count →
  (∀ f, m_dumps mach f = Ok tt ∨ ∃ e, m_dumps mach f = Raise e ∧ is_exception e = true) →
  jobs b = [] → counted count b → (1 ≤ a_workers a)%Z →
  let '(r, b') := add mach f a b in
  match r with
  | Ok _ => ∃ j, jobs b' = [j] ∧
      j_num_workers j = match a_gpus a with Some l => Z.of_nat (length l) | None => 1%Z end
  | _ => True
  end.
Proof.
  intros Hcount Hdumps Hjobs Hb Hw.
  destruct (add mach f a b) as [r b'] eqn:E. destruct r as [[]|e|]; [|done..].
  revert E. unfold add, bind, of_res, ret. rewrite Hjobs, bool_decide_true by done.
  destruct (_check_picklable mach f (a_thread a)) as [[]|e|]; [|done..].
  destruct (check_scavenge true a) as [[]|e|]; [|done..].
  destruct (check_hang true a) as [[]|e|]; [|done..].
  assert (∀ c b1, counted count b1 → jobs b1 = [] → ∃ n b2,
     (if c : bool then gpus mach else λ w, (Ok 0%Z, w)) b1 = (Ok n, b2) ∧ jobs b2 = []) as Hn.
  { intros [] b1 Hb1 Hj1; [|by eauto].
    destruct (gpus_spec mach count Hcount b1 Hb1) as (b2 & -> & ? & _). exists count, b2. split; congruence. }
  edestruct Hn as (n & b2 & -> & Hb2); [done..|].
  set (pergpu := if clamped true a then false else a_pergpu a).
  destruct (resolve_pool a pergpu n) as [pool|e|] eqn:Hpool; [|done..].
  destruct (check_pool pool n) as [[]|e|]; [|done..].
  destruct (resolve_cpus mach a) as [cpus|e|]; [|done..].
  destruct (check_cpu_threads a) as [[]|e|]; [|done..].
  intros [= <-]. eexists. simpl. rewrite Hb2. split; [reflexivity|]. simpl.
  assert ((if (1 <? a_workers a) || a_pergpu a then 1 else a_workers a) = 1)%Z as Hone.
  { destruct (1 <? a_workers a)%Z eqn:E1, (a_pergpu a); simpl; try done; boolify; lia. }
  assert (pergpu = false) as Hp.
  { unfold pergpu, clamped. simpl. destruct (1 <? a_workers a)%Z, (a_pergpu a); done. }
  revert Hpool. unfold resolve_pool. rewrite Hp.
  destruct (a_gpus a) as [[|g l]|]; [done|intros [= <-]; cbv iota; rewrite Hone; simpl; lia|].
  intros [= <-]. destruct (a_gpu_id a); cbv iota; rewrite Hone; simpl; lia.
Qed.

Module JobsDemo.
(** A machine with four GPUs under [CUDA_VISIBLE_DEVICES=4,5] and 8 cores. *)
Definition smi : string := "0
1
2
3
".
Definition mach : machine :=
  Machine (GpuProbe (Ok None) (Ok (0%Z, smi)) (Some "4,5"%string)) (Some 8%Z) (λ _, Raise TypeError).
Definition root : stage_func := StageFunc 0 (Some "read"%string) "function" false.
Definition asr : stage_func := StageFunc 1 None "Asr" true.
Definition scavenging : add_args :=
  AddArgs 3 (Some 16%Z) false false None (Some [1; 0]%Z) (Some [0; 7]%Z) (Some (ArgInt 2)) 8 true None 10000 true (Some 60%Z).
Definition with_root : builder :=
  (add mach root default_args (Builder [] None)).2.
Definition two_gpus : add_args :=
  AddArgs 1 None false false None (Some [0; 1]%Z) None None 0 true None 10000 false None.
End JobsDemo.

Lemma add_accepts_or_refuses_witness :
  _get_gpu_count (m_gpus JobsDemo.mach) = Ok 2%Z ∧
  (j_num_workers <$> jobs (add JobsDemo.mach JobsDemo.asr JobsDemo.scavenging JobsDemo.with_root).2) = [1; 6]%Z ∧
  acceptable false 2 8 JobsDemo.scavenging ∧
  let '(r, b') := add JobsDemo.mach JobsDemo.asr JobsDemo.scavenging JobsDemo.with_root in
  counted 2 b' ∧
  (acceptable false 2 8 JobsDemo.scavenging → r = Ok tt ∧
     ∃ j, jobs b' = jobs JobsDemo.with_root ++ [j] ∧ job_ok false 2 8 JobsDemo.asr JobsDemo.scavenging j) ∧
  (¬ acceptable false 2 8 JobsDemo.scavenging → r = Raise ValueError ∧ jobs b' = jobs JobsDemo.with_root).
Proof.
  split; [vm_compute; reflexivity|]. split; [vm_compute; reflexivity|]. split.
  - constructor; [done|by intros ? [= <-]|..].
    + intros l [= <-]. split; [done|]. repeat (constructor; [lia|]). constructor.
    + intros l [= <-]. split; [done|]. repeat (constructor; [lia|]). constructor.
    + intros x [= <-]. exists 2%Z. split; [done|lia].
  - apply (add_accepts_or_refuses JobsDemo.mach 2 JobsDemo.asr JobsDemo.scavenging JobsDemo.with_root).
    + vm_compute. reflexivity.
    + intros f. right. by exists TypeError.
    + by left.
Defined.

Lemma root_workers_witness :
  let '(r, b') := add JobsDemo.mach JobsDemo.root JobsDemo.two_gpus (Builder [] None) in
  r = Ok tt ∧
  match r with
  | Ok _ => ∃ j, jobs b' = [j] ∧
      j_num_workers j = match a_gpus JobsDemo.two_gpus with Some l => Z.of_nat (length l) | None => 1%Z end
  | _ => True
  end.
Proof.
  assert (add JobsDemo.mach JobsDemo.root JobsDemo.two_gpus (Builder [] None) =
    (Ok tt, (add JobsDemo.mach JobsDemo.root JobsDemo.two_gpus (Builder [] None)).2)) as E by reflexivity.
  pose proof (root_workers JobsDemo.mach 2 JobsDemo.root JobsDemo.two_gpus (Builder [] None)) as H.
  rewrite E in H |- *. split; [done|]. apply H; try done; [|by left].
  intros f. right. by exists TypeError.
Defined.
