(* ===== verification/Lifecycle.v ===== *)
(** * Starting a pipeline (lifecycle.py: start, _spawn_and_register)

    The shared objects of a running pipeline, which worker gets which of them,
    and the processes and monitor threads [start] launches. Objects live in a
    store of their own ([p_heap]) and are named by numbers, so that "the same
    queue" or "a stale event" is a statement about equality of names. *)
From S2P Require Import Prelude Types Text Placement Jobs.

(** ** State *)

Inductive run_target := RunWorker | RunThreaded.

(** The keyword arguments of [_worker_run] and [_threaded_worker_run]; what is
    the same for all workers of all stages ([should_stop], [drain_event],
    [raise_errors], ...) is left out. *)
Record kwargs := Kwargs {
  k_worker : stage_func;
  k_in_queue : option nat;
  k_out_queue : option nat;
  k_stage_end_counter : nat;
  k_stage_worker_count : nat;
  k_stage_idx : nat;
  k_stage_name : string;
  k_is_final_stage : bool;
  k_upstream_done : option nat;
  k_stage_done : nat;
  k_timing_dict : option nat;
  k_batch_size : Z;
  k_drain : bool;
  k_all_queues : list nat;
  k_stage_names : list string;
  k_cpu_threads : option int_arg;
  k_out_chunk : Z;
  k_out_chunk_ms : Z;
  k_gpu_id : option Z;
  k_num_threads : Z;
  k_worker_id : string;
  k_cpu_affinity : option (list Z);
  k_scavenge_hold : option nat;
  k_scavenge_park : option nat;
  k_scavenge_ipc : option nat;
  k_busy_since : option nat;
}.

(** What a name stands for; a queue remembers its [maxsize], a
    process the call it runs. *)
Inductive obj :=
  | OQueue (maxsize : Z)
  | OValue (v : Z)
  | OEvent (set : bool)
  | OStore
  | OManager
  | OProcess (target : run_target) (k : kwargs)
  | OThread.

Record worker_config := WorkerConfig {
  wc_target : run_target;
  wc_kwargs : kwargs;
  wc_stage_name : string;
}.

(** A slot of [scavenge_slots]. *)
Record slot := Slot {
  s_stage_name : string;
  s_worker_id : string;
  s_gpu : Z;
  s_physical : Z;
  s_hold : nat;
  s_park : option nat;
  s_supports_park : bool;
  s_ipc : nat;
  s_parked : bool;
  s_frozen : bool;
  s_frozen_mib : Z;
  s_hazard_logged : bool;
}.

(** The attributes of a [Pipe] that its lifecycle uses. *)
Record pipe := Pipe {
  p_jobs : list job;
  p_started : bool;
  p_queues : list nat;
  p_store : option nat;
  p_processes : list nat;
  p_worker_info : list (nat * string * string);
  p_worker_configs : list (string * worker_config);
  p_should_stop : Z;
  p_drain_event : bool;
  p_health_thread : option nat;
  p_health_stop : bool;
  p_stats_thread : option nat;
  p_stats_stop : bool;
  p_scavenger_thread : option nat;
  p_scavenger_stop : bool;
  p_scavenge_slots : list slot;
  p_hang_watch : list (string * (nat * Z));
  p_manager : option nat;         (* with timing_dict, its dict *)
  p_end_counters : list nat;
  p_worker_counts : list nat;
  p_done_events : list nat;
  p_heap : gmap nat obj;
  p_next : nat;                   (* the next unused name *)
}.

(** The settings a [Pipe] is constructed with. *)
Record settings := Settings {
  c_sequential : bool;
  c_stats : bool;                 (* stats_interval > 0 *)
  c_stats_external : bool;        (* stats_mode == "external" *)
  c_health : bool;                (* health_check_interval > 0 *)
}.

(** What [start] asks the machine: the GPUs foreign processes use, the
    physical index of a logical one, and whether there is a payload store. *)
Record surroundings := Surroundings {
  r_busy_gpus : list Z;
  r_physical : Z → Z;
  r_has_store : bool;
}.

(** *** Field updates *)

Definition set_jobs (v : list job) (p : pipe) : pipe :=
  Pipe v (p_started p) (p_queues p) (p_store p) (p_processes p) (p_worker_info p) (p_worker_configs
    p) (p_should_stop p) (p_drain_event p) (p_health_thread p) (p_health_stop p) (p_stats_thread p)
    (p_stats_stop p) (p_scavenger_thread p) (p_scavenger_stop p) (p_scavenge_slots p) (p_hang_watch
    p) (p_manager p) (p_end_counters p) (p_worker_counts p) (p_done_events p) (p_heap p) (p_next p).
Definition set_started (v : bool) (p : pipe) : pipe :=
  Pipe (p_jobs p) v (p_queues p) (p_store p) (p_processes p) (p_worker_info p) (p_worker_configs p)
    (p_should_stop p) (p_drain_event p) (p_health_thread p) (p_health_stop p) (p_stats_thread p)
    (p_stats_stop p) (p_scavenger_thread p) (p_scavenger_stop p) (p_scavenge_slots p) (p_hang_watch
    p) (p_manager p) (p_end_counters p) (p_worker_counts p) (p_done_events p) (p_heap p) (p_next p).
Definition set_queues (v : list nat) (p : pipe) : pipe :=
  Pipe (p_jobs p) (p_started p) v (p_store p) (p_processes p) (p_worker_info p) (p_worker_configs p)
    (p_should_stop p) (p_drain_event p) (p_health_thread p) (p_health_stop p) (p_stats_thread p)
    (p_stats_stop p) (p_scavenger_thread p) (p_scavenger_stop p) (p_scavenge_slots p) (p_hang_watch
    p) (p_manager p) (p_end_counters p) (p_worker_counts p) (p_done_events p) (p_heap p) (p_next p).
Definition set_store (v : option nat) (p : pipe) : pipe :=
  Pipe (p_jobs p) (p_started p) (p_queues p) v (p_processes p) (p_worker_info p) (p_worker_configs
    p) (p_should_stop p) (p_drain_event p) (p_health_thread p) (p_health_stop p) (p_stats_thread p)
    (p_stats_stop p) (p_scavenger_thread p) (p_scavenger_stop p) (p_scavenge_slots p) (p_hang_watch
    p) (p_manager p) (p_end_counters p) (p_worker_counts p) (p_done_events p) (p_heap p) (p_next p).
Definition set_processes (v : list nat) (p : pipe) : pipe :=
  Pipe (p_jobs p) (p_started p) (p_queues p) (p_store p) v (p_worker_info p) (p_worker_configs p)
    (p_should_stop p) (p_drain_event p) (p_health_thread p) (p_health_stop p) (p_stats_thread p)
    (p_stats_stop p) (p_scavenger_thread p) (p_scavenger_stop p) (p_scavenge_slots p) (p_hang_watch
    p) (p_manager p) (p_end_counters p) (p_worker_counts p) (p_done_events p) (p_heap p) (p_next p).
Definition set_worker_info (v : list (nat * string * string)) (p : pipe) : pipe :=
  Pipe (p_jobs p) (p_started p) (p_queues p) (p_store p) (p_processes p) v (p_worker_configs p)
    (p_should_stop p) (p_drain_event p) (p_health_thread p) (p_health_stop p) (p_stats_thread p)
    (p_stats_stop p) (p_scavenger_thread p) (p_scavenger_stop p) (p_scavenge_slots p) (p_hang_watch
    p) (p_manager p) (p_end_counters p) (p_worker_counts p) (p_done_events p) (p_heap p) (p_next p).
Definition set_worker_configs (v : list (string * worker_config)) (p : pipe) : pipe :=
  Pipe (p_jobs p) (p_started p) (p_queues p) (p_store p) (p_processes p) (p_worker_info p) v
    (p_should_stop p) (p_drain_event p) (p_health_thread p) (p_health_stop p) (p_stats_thread p)
    (p_stats_stop p) (p_scavenger_thread p) (p_scavenger_stop p) (p_scavenge_slots p) (p_hang_watch
    p) (p_manager p) (p_end_counters p) (p_worker_counts p) (p_done_events p) (p_heap p) (p_next p).
Definition set_should_stop (v : Z) (p : pipe) : pipe :=
  Pipe (p_jobs p) (p_started p) (p_queues p) (p_store p) (p_processes p) (p_worker_info p)
    (p_worker_configs p) v (p_drain_event p) (p_health_thread p) (p_health_stop p) (p_stats_thread
    p) (p_stats_stop p) (p_scavenger_thread p) (p_scavenger_stop p) (p_scavenge_slots p)
    (p_hang_watch p) (p_manager p) (p_end_counters p) (p_worker_counts p) (p_done_events p) (p_heap
    p) (p_next p).
Definition set_drain_event (v : bool) (p : pipe) : pipe :=
  Pipe (p_jobs p) (p_started p) (p_queues p) (p_store p) (p_processes p) (p_worker_info p)
    (p_worker_configs p) (p_should_stop p) v (p_health_thread p) (p_health_stop p) (p_stats_thread
    p) (p_stats_stop p) (p_scavenger_thread p) (p_scavenger_stop p) (p_scavenge_slots p)
    (p_hang_watch p) (p_manager p) (p_end_counters p) (p_worker_counts p) (p_done_events p) (p_heap
    p) (p_next p).
Definition set_health_thread (v : option nat) (p : pipe) : pipe :=
  Pipe (p_jobs p) (p_started p) (p_queues p) (p_store p) (p_processes p) (p_worker_info p)
    (p_worker_configs p) (p_should_stop p) (p_drain_event p) v (p_health_stop p) (p_stats_thread p)
    (p_stats_stop p) (p_scavenger_thread p) (p_scavenger_stop p) (p_scavenge_slots p) (p_hang_watch
    p) (p_manager p) (p_end_counters p) (p_worker_counts p) (p_done_events p) (p_heap p) (p_next p).
Definition set_health_stop (v : bool) (p : pipe) : pipe :=
  Pipe (p_jobs p) (p_started p) (p_queues p) (p_store p) (p_processes p) (p_worker_info p)
    (p_worker_configs p) (p_should_stop p) (p_drain_event p) (p_health_thread p) v (p_stats_thread
    p) (p_stats_stop p) (p_scavenger_thread p) (p_scavenger_stop p) (p_scavenge_slots p)
    (p_hang_watch p) (p_manager p) (p_end_counters p) (p_worker_counts p) (p_done_events p) (p_heap
    p) (p_next p).
Definition set_stats_thread (v : option nat) (p : pipe) : pipe :=
  Pipe (p_jobs p) (p_started p) (p_queues p) (p_store p) (p_processes p) (p_worker_info p)
    (p_worker_configs p) (p_should_stop p) (p_drain_event p) (p_health_thread p) (p_health_stop p) v
    (p_stats_stop p) (p_scavenger_thread p) (p_scavenger_stop p) (p_scavenge_slots p) (p_hang_watch
    p) (p_manager p) (p_end_counters p) (p_worker_counts p) (p_done_events p) (p_heap p) (p_next p).
Definition set_stats_stop (v : bool) (p : pipe) : pipe :=
  Pipe (p_jobs p) (p_started p) (p_queues p) (p_store p) (p_processes p) (p_worker_info p)
    (p_worker_configs p) (p_should_stop p) (p_drain_event p) (p_health_thread p) (p_health_stop p)
    (p_stats_thread p) v (p_scavenger_thread p) (p_scavenger_stop p) (p_scavenge_slots p)
    (p_hang_watch p) (p_manager p) (p_end_counters p) (p_worker_counts p) (p_done_events p) (p_heap
    p) (p_next p).
Definition set_scavenger_thread (v : option nat) (p : pipe) : pipe :=
  Pipe (p_jobs p) (p_started p) (p_queues p) (p_store p) (p_processes p) (p_worker_info p)
    (p_worker_configs p) (p_should_stop p) (p_drain_event p) (p_health_thread p) (p_health_stop p)
    (p_stats_thread p) (p_stats_stop p) v (p_scavenger_stop p) (p_scavenge_slots p) (p_hang_watch p)
    (p_manager p) (p_end_counters p) (p_worker_counts p) (p_done_events p) (p_heap p) (p_next p).
Definition set_scavenger_stop (v : bool) (p : pipe) : pipe :=
  Pipe (p_jobs p) (p_started p) (p_queues p) (p_store p) (p_processes p) (p_worker_info p)
    (p_worker_configs p) (p_should_stop p) (p_drain_event p) (p_health_thread p) (p_health_stop p)
    (p_stats_thread p) (p_stats_stop p) (p_scavenger_thread p) v (p_scavenge_slots p) (p_hang_watch
    p) (p_manager p) (p_end_counters p) (p_worker_counts p) (p_done_events p) (p_heap p) (p_next p).
Definition set_scavenge_slots (v : list slot) (p : pipe) : pipe :=
  Pipe (p_jobs p) (p_started p) (p_queues p) (p_store p) (p_processes p) (p_worker_info p)
    (p_worker_configs p) (p_should_stop p) (p_drain_event p) (p_health_thread p) (p_health_stop p)
    (p_stats_thread p) (p_stats_stop p) (p_scavenger_thread p) (p_scavenger_stop p) v (p_hang_watch
    p) (p_manager p) (p_end_counters p) (p_worker_counts p) (p_done_events p) (p_heap p) (p_next p).
Definition set_hang_watch (v : list (string * (nat * Z))) (p : pipe) : pipe :=
  Pipe (p_jobs p) (p_started p) (p_queues p) (p_store p) (p_processes p) (p_worker_info p)
    (p_worker_configs p) (p_should_stop p) (p_drain_event p) (p_health_thread p) (p_health_stop p)
    (p_stats_thread p) (p_stats_stop p) (p_scavenger_thread p) (p_scavenger_stop p)
    (p_scavenge_slots p) v (p_manager p) (p_end_counters p) (p_worker_counts p) (p_done_events p)
    (p_heap p) (p_next p).
Definition set_manager (v : option nat) (p : pipe) : pipe :=
  Pipe (p_jobs p) (p_started p) (p_queues p) (p_store p) (p_processes p) (p_worker_info p)
    (p_worker_configs p) (p_should_stop p) (p_drain_event p) (p_health_thread p) (p_health_stop p)
    (p_stats_thread p) (p_stats_stop p) (p_scavenger_thread p) (p_scavenger_stop p)
    (p_scavenge_slots p) (p_hang_watch p) v (p_end_counters p) (p_worker_counts p) (p_done_events p)
    (p_heap p) (p_next p).
Definition set_end_counters (v : list nat) (p : pipe) : pipe :=
  Pipe (p_jobs p) (p_started p) (p_queues p) (p_store p) (p_processes p) (p_worker_info p)
    (p_worker_configs p) (p_should_stop p) (p_drain_event p) (p_health_thread p) (p_health_stop p)
    (p_stats_thread p) (p_stats_stop p) (p_scavenger_thread p) (p_scavenger_stop p)
    (p_scavenge_slots p) (p_hang_watch p) (p_manager p) v (p_worker_counts p) (p_done_events p)
    (p_heap p) (p_next p).
Definition set_worker_counts (v : list nat) (p : pipe) : pipe :=
  Pipe (p_jobs p) (p_started p) (p_queues p) (p_store p) (p_processes p) (p_worker_info p)
    (p_worker_configs p) (p_should_stop p) (p_drain_event p) (p_health_thread p) (p_health_stop p)
    (p_stats_thread p) (p_stats_stop p) (p_scavenger_thread p) (p_scavenger_stop p)
    (p_scavenge_slots p) (p_hang_watch p) (p_manager p) (p_end_counters p) v (p_done_events p)
    (p_heap p) (p_next p).
Definition set_done_events (v : list nat) (p : pipe) : pipe :=
  Pipe (p_jobs p) (p_started p) (p_queues p) (p_store p) (p_processes p) (p_worker_info p)
    (p_worker_configs p) (p_should_stop p) (p_drain_event p) (p_health_thread p) (p_health_stop p)
    (p_stats_thread p) (p_stats_stop p) (p_scavenger_thread p) (p_scavenger_stop p)
    (p_scavenge_slots p) (p_hang_watch p) (p_manager p) (p_end_counters p) (p_worker_counts p) v
    (p_heap p) (p_next p).
Definition set_heap (v : gmap nat obj) (p : pipe) : pipe :=
  Pipe (p_jobs p) (p_started p) (p_queues p) (p_store p) (p_processes p) (p_worker_info p)
    (p_worker_configs p) (p_should_stop p) (p_drain_event p) (p_health_thread p) (p_health_stop p)
    (p_stats_thread p) (p_stats_stop p) (p_scavenger_thread p) (p_scavenger_stop p)
    (p_scavenge_slots p) (p_hang_watch p) (p_manager p) (p_end_counters p) (p_worker_counts p)
    (p_done_events p) v (p_next p).
Definition set_next (v : nat) (p : pipe) : pipe :=
  Pipe (p_jobs p) (p_started p) (p_queues p) (p_store p) (p_processes p) (p_worker_info p)
    (p_worker_configs p) (p_should_stop p) (p_drain_event p) (p_health_thread p) (p_health_stop p)
    (p_stats_thread p) (p_stats_stop p) (p_scavenger_thread p) (p_scavenger_stop p)
    (p_scavenge_slots p) (p_hang_watch p) (p_manager p) (p_end_counters p) (p_worker_counts p)
    (p_done_events p) (p_heap p) v.

(** ** Allocation *)

(** Make a new object; its name is [p_next]. *)
Definition alloc (o : obj) (p : pipe) : nat * pipe :=
  (p_next p, set_next (S (p_next p)) (set_heap (<[p_next p := o]> (p_heap p)) p)).

(** [x.value], [x.value = v], [e.set()], [e.clear()]. *)
Definition value_of (p : pipe) (x : nat) : Z :=
  match p_heap p !! x with Some (OValue v) => v | _ => 0 end.
Definition store_value (x : nat) (v : Z) (p : pipe) : pipe :=
  set_heap (<[x := OValue v]> (p_heap p)) p.
Definition event_set (p : pipe) (x : nat) : bool :=
  match p_heap p !! x with Some (OEvent b) => b | _ => false end.
Definition store_event (x : nat) (b : bool) (p : pipe) : pipe :=
  set_heap (<[x := OEvent b]> (p_heap p)) p.

(** ** Settings of the stages *)

(** The drain check: stages that stop at a drain come first. *)
Fixpoint check_drain (seen_drain : bool) (js : list job) : res unit :=
  match js with
  | [] => Ok tt
  | j :: js =>
      if j_drain j then check_drain true js
      else if seen_drain then Raise ValueError
      else check_drain false js
  end.

Definition with_drain (b : bool) (j : job) : job :=
  Job (j_func j) (j_name j) (j_outqn j) (j_num_workers j) (j_pergpu j) (j_thread j) (j_gpu_id j)
    (j_gpus j) (j_cpus j) (j_cpu_threads j) (j_is_gpu_stage j) (j_scavenge j) (j_hang_timeout j)
    (j_batch j) b (j_chunk j) (j_chunk_ms j) (j_chunk_eff j).
Definition with_chunk_eff (c : Z) (j : job) : job :=
  Job (j_func j) (j_name j) (j_outqn j) (j_num_workers j) (j_pergpu j) (j_thread j) (j_gpu_id j)
    (j_gpus j) (j_cpus j) (j_cpu_threads j) (j_is_gpu_stage j) (j_scavenge j) (j_hang_timeout j)
    (j_batch j) (j_drain j) (j_chunk j) (j_chunk_ms j) (Some c).

(** [job["chunk_eff"]]: an explicit [chunk], else the batch of the next stage. *)
Definition chunk_eff (j : job) (next : option job) : Z :=
  match j_chunk j with
  | Some c => Z.max 0 c
  | None => match next with
            | Some n => if (1 <? j_batch n)%Z then j_batch n else 0
            | None => 0
            end
  end.

(** The [maxsize] of the output queue, in messages. *)
Definition outq_size (outqn : option Z) (chunk : Z) : Z :=
  let size := default 0%Z outqn in
  if negb (size =? 0)%Z && (1 <? chunk)%Z then Z.max 1 (size / chunk) else size.

(** [not job.get("gpus")] and the number of processes of a stage. *)
Definition no_pool (j : job) : bool :=
  match j_gpus j with None | Some [] => true | _ => false end.
Definition worker_count (j : job) : Z :=
  if j_thread j && no_pool j then 1 else j_num_workers j.

(** ** Setting up the stages *)

Definition setup_stage (i : nat) (p : pipe) : pipe :=
  match p_jobs p !! i with
  | None => p
  | Some j =>
      let c := chunk_eff j (p_jobs p !! S i) in
      let p := set_jobs (<[i := with_chunk_eff c j]> (p_jobs p)) p in
      let '(q, p) := alloc (OQueue (outq_size (j_outqn j) c)) p in
      let p := set_queues (p_queues p ++ [q]) p in
      let '(counter, p) := alloc (OValue 0) p in
      let p := set_end_counters (p_end_counters p ++ [counter]) p in
      let '(done_event, p) := alloc (OEvent false) p in
      let p := set_done_events (p_done_events p ++ [done_event]) p in
      let '(count, p) := alloc (OValue (worker_count j)) p in
      set_worker_counts (p_worker_counts p ++ [count]) p
  end.

Definition setup_stages (p : pipe) : pipe :=
  foldl (λ p i, setup_stage i p) p (seq 0 (length (p_jobs p))).

(** ** Spawning *)

(** [d[k] = v] on an insertion-ordered dict. *)
Fixpoint dict_set {V} (k : string) (v : V) (d : list (string * V)) : list (string * V) :=
  match d with
  | [] => [(k, v)]
  | (k', v') :: d => if decide (k = k') then (k, v) :: d else (k', v') :: dict_set k v d
  end.
Fixpoint dict_lookup {V} (k : string) (d : list (string * V)) : option V :=
  match d with
  | [] => None
  | (k', v) :: d => if decide (k = k') then Some v else dict_lookup k d
  end.

(** [_spawn_and_register(target, kwargs)]. *)
Definition _spawn_and_register (target : run_target) (k : kwargs) (p : pipe) : pipe :=
  let p := set_worker_configs (dict_set (k_worker_id k) (WorkerConfig target k (k_stage_name k))
                                 (p_worker_configs p)) p in
  let '(pid, p) := alloc (OProcess target k) p in
  let p := set_processes (p_processes p ++ [pid]) p in
  set_worker_info (p_worker_info p ++ [(pid, k_worker_id k, k_stage_name k)]) p.

Section start.
Context (cfg : settings) (env : surroundings).

(** [common]: what all workers of stage [i] get. The four lists are as long as
    the list of jobs. *)
Definition common (i : nat) (j : job) (p : pipe) : kwargs := {|
  k_worker := j_func j;
  k_in_queue := match i with O => None | S i' => p_queues p !! i' end;
  k_out_queue := p_queues p !! i;
  k_stage_end_counter := default 0%nat (p_end_counters p !! i);
  k_stage_worker_count := default 0%nat (p_worker_counts p !! i);
  k_stage_idx := i;
  k_stage_name := j_name j;
  k_is_final_stage := bool_decide (i = (length (p_jobs p) - 1)%nat);
  k_upstream_done := match i with O => None | S i' => p_done_events p !! i' end;
  k_stage_done := default 0%nat (p_done_events p !! i);
  k_timing_dict := p_manager p;
  k_batch_size := j_batch j;
  k_drain := j_drain j;
  k_all_queues := p_queues p;
  k_stage_names := j_name <$> p_jobs p;
  k_cpu_threads := j_cpu_threads j;
  k_out_chunk := default 0%Z (j_chunk_eff j);
  k_out_chunk_ms := j_chunk_ms j;
  k_gpu_id := None;
  k_num_threads := 1;
  k_worker_id := EmptyString;
  k_cpu_affinity := None;
  k_scavenge_hold := None;
  k_scavenge_park := None;
  k_scavenge_ipc := None;
  k_busy_since := None;
|}.

(** [dict(common, gpu_id=..., worker_id=..., ...)]. *)
Definition with_worker (gpu_id : option Z) (num_threads : Z) (worker_id : string)
    (cpus : option (list Z)) (hold park ipc busy : option nat) (k : kwargs) : kwargs :=
  Kwargs (k_worker k) (k_in_queue k) (k_out_queue k) (k_stage_end_counter k)
    (k_stage_worker_count k) (k_stage_idx k) (k_stage_name k) (k_is_final_stage k)
    (k_upstream_done k) (k_stage_done k) (k_timing_dict k) (k_batch_size k) (k_drain k)
    (k_all_queues k) (k_stage_names k) (k_cpu_threads k) (k_out_chunk k) (k_out_chunk_ms k)
    gpu_id num_threads worker_id cpus hold park ipc busy.

(** [_cpu_chunk(job.get("cpus"), worker_idx, job["num_workers"])]; it does not
    raise for a worker of the stage. *)
Definition slice_of (j : job) (worker_idx : nat) : option (list Z) :=
  match _cpu_chunk (j_cpus j) (Z.of_nat worker_idx) (j_num_workers j) with
  | Ok l => l
  | _ => None
  end.

(** [gpu_pool[worker_idx % len(gpu_pool)]]. *)
Definition gpu_of (j : job) (worker_idx : nat) : option Z :=
  match j_gpus j with
  | Some ((_ :: _) as l) => l !! (worker_idx mod length l)%nat
  | _ => None
  end.

(** The worker ids. *)
Definition str_of_nat (n : nat) : string := str_of_Z (Z.of_nat n).
Definition gpu_suffix (gpu_id : option Z) : string :=
  match gpu_id with Some g => "_gpu_" +:+ str_of_Z g | None => "" end.
Definition process_id (i worker_idx : nat) (gpu_id : option Z) : string :=
  "stage_" +:+ str_of_nat i +:+ "_worker_" +:+ str_of_nat worker_idx +:+ gpu_suffix gpu_id.
Definition threaded_gpu_id (i worker_idx : nat) (gpu_id : option Z) : string :=
  "stage_" +:+ str_of_nat i +:+ "_threaded_worker_" +:+ str_of_nat worker_idx +:+ gpu_suffix gpu_id.
Definition threaded_id (i : nat) (num_threads : Z) : string :=
  "stage_" +:+ str_of_nat i +:+ "_threaded_" +:+ str_of_Z num_threads +:+ "threads".

(** A threaded stage with a GPU pool: one process per worker. *)
Definition spawn_threaded_gpu (i : nat) (j : job) (p : pipe) (worker_idx : nat) : pipe :=
  let gpu_id := gpu_of j worker_idx in
  _spawn_and_register RunThreaded
    (with_worker gpu_id 1 (threaded_gpu_id i worker_idx gpu_id) (slice_of j worker_idx)
       None None None None (common i j p)) p.

(** A threaded stage without one: a single process. *)
Definition spawn_threaded (i : nat) (j : job) (p : pipe) : pipe :=
  _spawn_and_register RunThreaded
    (with_worker None (j_num_workers j) (threaded_id i (j_num_workers j)) (j_cpus j)
       None None None None (common i j p)) p.

(** The hold, park and IPC flags of a scavenging worker, and its slot. *)
Definition make_slot (j : job) (worker_id : string) (gpu_id : Z) (p : pipe)
    : (option nat * option nat * option nat) * pipe :=
  let phys := r_physical env gpu_id in
  let '(hold, p) := alloc (OValue (if bool_decide (phys ∈ r_busy_gpus env) then 1 else 0)) p in
  let supports_park := f_on_park (j_func j) in
  let '(park, p) :=
    if supports_park then let '(x, p) := alloc (OValue 0) p in (Some x, p) else (None, p) in
  let '(ipc, p) := alloc (OValue 0) p in
  ((Some hold, park, Some ipc),
   set_scavenge_slots (p_scavenge_slots p ++
     [Slot (j_name j) worker_id gpu_id phys hold park supports_park ipc false false 0 false]) p).

(** One worker process of an ordinary stage. *)
Definition spawn_process (i : nat) (j : job) (p : pipe) (worker_idx : nat) : pipe :=
  let gpu_id := gpu_of j worker_idx in
  let worker_id := process_id i worker_idx gpu_id in
  let '((hold, park, ipc), p) :=
    match gpu_id with
    | Some g => if j_scavenge j then make_slot j worker_id g p else ((None, None, None), p)
    | None => ((None, None, None), p)
    end in
  let '(busy, p) :=
    match j_hang_timeout j with
    | Some t =>
        if (t =? 0)%Z then (None, p)
        else let '(x, p) := alloc (OValue 0) p in
             (Some x, set_hang_watch (dict_set worker_id (x, t) (p_hang_watch p)) p)
    | None => (None, p)
    end in
  _spawn_and_register RunWorker
    (with_worker gpu_id 1 worker_id (slice_of j worker_idx) hold park ipc busy (common i j p)) p.

(** All workers of stage [i]. *)
Definition spawn_stage (p : pipe) (i : nat) : pipe :=
  match p_jobs p !! i with
  | None => p
  | Some j =>
      let workers := seq 0 (Z.to_nat (j_num_workers j)) in
      if j_thread j then
        if no_pool j then spawn_threaded i j p
        else foldl (spawn_threaded_gpu i j) p workers
      else foldl (spawn_process i j) p workers
  end.

Definition spawn_stages (p : pipe) : pipe :=
  foldl spawn_stage p (seq 0 (length (p_jobs p))).

(** ** start *)

(** The health, scavenger and stats threads. The events of the first two are
    cleared; the one of the stats monitor is not. *)
Definition start_monitors (p : pipe) : pipe :=
  let p := if c_health cfg then
             let p := set_health_stop false p in
             let '(t, p) := alloc OThread p in set_health_thread (Some t) p
           else p in
  let p := if bool_decide (p_scavenge_slots p ≠ []) then
             let p := set_scavenger_stop false p in
             let '(t, p) := alloc OThread p in set_scavenger_thread (Some t) p
           else p in
  if c_stats cfg && negb (c_stats_external cfg) then
    let '(t, p) := alloc OThread p in set_stats_thread (Some t) p
  else p.

(** The manager, kept if there is one, and the payload store. *)
Definition make_shared (p : pipe) : pipe :=
  let p := match p_manager p with
           | None => if c_stats cfg then let '(m, p) := alloc OManager p in set_manager (Some m) p else p
           | Some _ => p
           end in
  if r_has_store env then let '(s, p) := alloc OStore p in set_store (Some s) p
  else set_store None p.

Definition clear_sync (p : pipe) : pipe :=
  set_end_counters [] (set_worker_counts [] (set_done_events [] p)).
Definition clear_slots (p : pipe) : pipe := set_hang_watch [] (set_scavenge_slots [] p).

(** Stage 0 always stops on a drain. *)
Definition root_stops (p : pipe) : pipe :=
  match p_jobs p with
  | [] => p
  | j :: js => set_jobs (with_drain false j :: js) p
  end.

Definition launch (p : pipe) : pipe :=
  start_monitors (spawn_stages (clear_slots (setup_stages (clear_sync (make_shared p))))).

Definition start : prog pipe unit := λ p,
  let p := set_started true p in
  match p_jobs p with
  | [] => (Raise ValueError, p)
  | _ =>
      let p := root_stops p in
      match check_drain false (p_jobs p) with
      | Ok _ => (Ok tt, if c_sequential cfg then p else launch p)
      | Raise e => (Raise e, p)
      | Spin => (Spin, p)
      end
  end.
End start.

(** ** What spawning changes *)

(** [p'] has the wiring of [p], and its objects. *)
Record frame (p p' : pipe) : Prop := {
  fr_jobs : p_jobs p' = p_jobs p;
  fr_queues : p_queues p' = p_queues p;
  fr_end_counters : p_end_counters p' = p_end_counters p;
  fr_worker_counts : p_worker_counts p' = p_worker_counts p;
  fr_done_events : p_done_events p' = p_done_events p;
  fr_manager : p_manager p' = p_manager p;
  fr_next : (p_next p ≤ p_next p')%nat;
  fr_heap x : (x < p_next p)%nat → p_heap p' !! x = p_heap p !! x;
}.

#[export] Instance frame_preorder : PreOrder frame.
Proof.
  split; [intros p; by constructor|]. intros p1 p2 p3 [] []. constructor; try congruence; [lia|].
  intros x Hx. transitivity (p_heap p2 !! x); auto with lia.
Qed.

Lemma frame_alloc o p : frame p (alloc o p).2.
Proof.
  constructor; try done; simpl; [lia|]. intros x Hx. by rewrite lookup_insert_ne by lia.
Qed.

Lemma common_frame i j p p' : frame p p' → common i j p' = common i j p.
Proof. intros [E1 E2 E3 E4 E5 E6 _ _]. unfold common. by rewrite E1, E2, E3, E4, E5, E6. Qed.

Definition register (d : list (string * worker_config)) (c : run_target * kwargs)
    : list (string * worker_config) :=
  dict_set (k_worker_id c.2) (WorkerConfig c.1 c.2 (k_stage_name c.2)) d.

(** The entry [e] of [worker_info] belongs to a process that runs [c]. *)
Definition runs (p : pipe) (e : nat * string * string) (c : run_target * kwargs) : Prop :=
  p_heap p !! e.1.1 = Some (OProcess c.1 c.2) ∧ (e.1.1 < p_next p)%nat ∧
  e.1.2 = k_worker_id c.2 ∧ e.2 = k_stage_name c.2.

Lemma runs_frame p p' e c : frame p p' → runs p e c → runs p' e c.
Proof. intros Hf (? & ? & ? & ?). pose proof (fr_next _ _ Hf). split_and!; [by rewrite (fr_heap _ _ Hf)|lia|done..]. Qed.

(** From [p] to [p'] the processes [cs] were spawned, and nothing else. *)
Definition spawns (p p' : pipe) (cs : list (run_target * kwargs)) : Prop :=
  frame p p' ∧ ∃ new, Forall2 (runs p') new cs ∧
    p_worker_info p' = p_worker_info p ++ new ∧
    p_processes p' = p_processes p ++ new.*1.*1 ∧
    p_worker_configs p' = foldl register (p_worker_configs p) cs.

Lemma spawns_nil p p' :
  frame p p' → p_worker_info p' = p_worker_info p → p_processes p' = p_processes p →
  p_worker_configs p' = p_worker_configs p → spawns p p' [].
Proof. intros Hf H1 H2 H3. split; [done|]. exists []. rewrite !app_nil_r. by split_and!. Qed.

Lemma spawns_trans p1 p2 p3 cs cs' :
  spawns p1 p2 cs → spawns p2 p3 cs' → spawns p1 p3 (cs ++ cs').
Proof.
  intros (Hf & new & Hr & Hi & Hp & Hc) (Hf' & new' & Hr' & Hi' & Hp' & Hc').
  split; [by transitivity p2|]. exists (new ++ new'). split_and!.
  - apply Forall2_app; [|done]. eapply Forall2_impl; [done|]. intros. by eapply runs_frame.
  - by rewrite Hi', Hi, app_assoc.
  - by rewrite Hp', Hp, !fmap_app, app_assoc.
  - by rewrite Hc', Hc, foldl_app.
Qed.

Lemma spawns_one t k p : spawns p (_spawn_and_register t k p) [(t, k)].
Proof.
  split.
  - constructor; try done; simpl; [lia|]. intros x Hx. by rewrite lookup_insert_ne by lia.
  - exists [(p_next p, k_worker_id k, k_stage_name k)]. split_and!; [|done..].
    constructor; [|constructor]. split_and!; simpl; [by rewrite lookup_insert_eq|lia|done..].
Qed.

(** Spawning after some allocation. *)
Lemma spawns_after p p1 t k :
  frame p p1 → p_worker_info p1 = p_worker_info p → p_processes p1 = p_processes p →
  p_worker_configs p1 = p_worker_configs p →
  spawns p (_spawn_and_register t k p1) [(t, k)].
Proof. intros. apply (spawns_trans p p1 _ []); [by apply spawns_nil|apply spawns_one]. Qed.

(** The arguments of a worker of stage [i]. *)
Definition for_stage (p : pipe) (i : nat) (j : job) (k : kwargs) : Prop :=
  ∃ gpu_id num_threads worker_id cpus hold park ipc busy,
    k = with_worker gpu_id num_threads worker_id cpus hold park ipc busy (common i j p).

(** The worker ids of a stage. *)
Definition stage_ids (i : nat) (j : job) : list string :=
  let workers := seq 0 (Z.to_nat (j_num_workers j)) in
  if j_thread j then
    if no_pool j then [threaded_id i (j_num_workers j)]
    else (λ w, threaded_gpu_id i w (gpu_of j w)) <$> workers
  else (λ w, process_id i w (gpu_of j w)) <$> workers.

Lemma spawns_foldl {A} (f : pipe → A → pipe) (Q : A → run_target * kwargs → Prop) p0 l :
  (∀ p x, frame p0 p → ∃ c, spawns p (f p x) [c] ∧ Q x c) →
  ∀ p, frame p0 p → ∃ cs, spawns p (foldl f p l) cs ∧ Forall2 Q l cs.
Proof.
  intros Hf. induction l as [|x l IH]; intros p Hp; simpl.
  - exists []. split; [by apply spawns_nil|constructor].
  - destruct (Hf p x Hp) as (c & Hc & HQ).
    destruct (IH (f p x)) as (cs & Hcs & HQs); [transitivity p; [done|apply Hc]|].
    exists (c :: cs). split; [by apply (spawns_trans p (f p x) _ [c])|by constructor].
Qed.

Section start_spec.
Context (cfg : settings) (env : surroundings).

Lemma make_slot_frame j w g p :
  frame p (make_slot env j w g p).2 ∧
  p_worker_info (make_slot env j w g p).2 = p_worker_info p ∧
  p_processes (make_slot env j w g p).2 = p_processes p ∧
  p_worker_configs (make_slot env j w g p).2 = p_worker_configs p.
Proof.
  unfold make_slot, alloc. destruct (f_on_park (j_func j)); simpl; split_and!; try done;
    constructor; try done; simpl; try lia; intros x Hx; by rewrite !lookup_insert_ne by lia.
Qed.

Lemma spawn_process_spec i j p w :
  ∃ k, spawns p (spawn_process env i j p w) [(RunWorker, k)] ∧ for_stage p i j k ∧
       k_worker_id k = process_id i w (gpu_of j w).
Proof.
  unfold spawn_process. set (wid := process_id i w (gpu_of j w)). clearbody wid.
  assert (∃ h pk ipc p1,
    match gpu_of j w with
    | Some g => if j_scavenge j then make_slot env j wid g p else ((None, None, None), p)
    | None => ((None, None, None), p)
    end = ((h, pk, ipc), p1) ∧ frame p p1 ∧ p_worker_info p1 = p_worker_info p ∧
    p_processes p1 = p_processes p ∧ p_worker_configs p1 = p_worker_configs p)
    as (h & pk & ipc & p1 & -> & Hf1 & Hi1 & Hp1 & Hc1).
  { destruct (gpu_of j w) as [g|]; [destruct (j_scavenge j)|]; try (do 4 eexists; by split_and!).
    pose proof (make_slot_frame j wid g p) as Hm.
    destruct (make_slot env j wid g p) as [[[h pk] ipc] p1]. by exists h, pk, ipc, p1. }
  assert (∃ b p2,
    match j_hang_timeout j with
    | Some t =>
        if (t =? 0)%Z then (None, p1)
        else let '(x, p) := alloc (OValue 0) p1 in
             (Some x, set_hang_watch (dict_set wid (x, t) (p_hang_watch p)) p)
    | None => (None, p1)
    end = (b, p2) ∧ frame p1 p2 ∧ p_worker_info p2 = p_worker_info p1 ∧
    p_processes p2 = p_processes p1 ∧ p_worker_configs p2 = p_worker_configs p1)
    as (b & p2 & -> & Hf2 & Hi2 & Hp2 & Hc2).
  { destruct (j_hang_timeout j) as [t|]; [destruct (t =? 0)%Z|]; try (do 2 eexists; by split_and!).
    do 2 eexists. split; [reflexivity|]. split_and!; try done.
    destruct (frame_alloc (OValue 0) p1). by constructor. }
  assert (frame p p2) by (by transitivity p1).
  eexists. split; [|split].
  - apply spawns_after; [done|congruence..].
  - do 8 eexists. by rewrite (common_frame i j p p2).
  - done.
Qed.

Lemma for_stage_frame p p' i j k : frame p p' → for_stage p' i j k → for_stage p i j k.
Proof. intros Hf (g & n & w & c & h & pk & ipc & b & ->). do 8 eexists. by rewrite (common_frame i j p p'). Qed.

(** A worker of stage [i] with a known id. *)
Local Abbreviation worker_of p i j w c :=
  (for_stage p i j (snd c) ∧ k_worker_id (snd c) = w).

Lemma spawn_stage_spec p i j :
  p_jobs p !! i = Some j →
  ∃ cs, spawns p (spawn_stage env p i) cs ∧
    Forall2 (λ w c, worker_of p i j w c) (stage_ids i j) cs.
Proof.
  intros Hj. unfold spawn_stage, stage_ids. rewrite Hj.
  destruct (j_thread j); [destruct (no_pool j)|].
  - eexists. split; [apply spawns_one|]. constructor; [|constructor]. split; [|done]. by do 8 eexists.
  - destruct (spawns_foldl (spawn_threaded_gpu i j)
      (λ w c, worker_of p i j (threaded_gpu_id i w (gpu_of j w)) c) p (seq 0 (Z.to_nat (j_num_workers j))))
      with (p := p) as (cs & Hcs & HQ); [|done|].
    + intros p' w Hf. eexists. split; [apply spawns_one|]. split; [|done].
      apply (for_stage_frame p p'); [done|]. by do 8 eexists.
    + exists cs. split; [done|]. by apply Forall2_fmap_l.
  - destruct (spawns_foldl (spawn_process env i j)
      (λ w c, worker_of p i j (process_id i w (gpu_of j w)) c) p (seq 0 (Z.to_nat (j_num_workers j))))
      with (p := p) as (cs & Hcs & HQ); [|done|].
    + intros p' w Hf. destruct (spawn_process_spec i j p' w) as (k & Hk & Hs & Hw).
      exists (RunWorker, k). split; [done|]. split; [|done]. by apply (for_stage_frame p p').
    + exists cs. split; [done|]. by apply Forall2_fmap_l.
Qed.

(** A stage and the processes spawned for it. *)
Definition stage_workers (p : pipe) (i : nat) (cs : list (run_target * kwargs)) : Prop :=
  ∃ j, p_jobs p !! i = Some j ∧ Forall2 (λ w c, worker_of p i j w c) (stage_ids i j) cs.

Lemma spawn_stages_from p0 l p :
  Forall (λ i, i < length (p_jobs p0))%nat l → frame p0 p →
  ∃ css, spawns p (foldl (spawn_stage env) p l) (concat css) ∧ Forall2 (stage_workers p0) l css.
Proof.
  intros Hl. revert p. induction Hl as [|i l Hi Hl IH]; intros p Hp; simpl.
  - exists []. split; [by apply spawns_nil|constructor].
  - destruct (lookup_lt_is_Some_2 (p_jobs p0) i Hi) as [j Hj].
    destruct (spawn_stage_spec p i j) as (cs & Hcs & HQ); [by rewrite (fr_jobs _ _ Hp)|].
    destruct (IH (spawn_stage env p i)) as (css & Hcss & HQs); [transitivity p; [done|apply Hcs]|].
    exists (cs :: css). split; [by eapply spawns_trans|]. constructor; [|done].
    exists j. split; [done|]. eapply Forall2_impl; [done|]. intros w c [Hs Hw].
    split; [|done]. by apply (for_stage_frame p0 p).
Qed.

Lemma spawn_stages_spec p :
  ∃ css, spawns p (spawn_stages env p) (concat css) ∧
    Forall2 (stage_workers p) (seq 0 (length (p_jobs p))) css.
Proof.
  apply spawn_stages_from; [|done]. apply Forall_forall. intros i Hi. apply elem_of_seq in Hi. lia.
Qed.

(** The monitors change nothing that matters to a worker. *)
Lemma start_monitors_spawns p : spawns p (start_monitors cfg p) [].
Proof.
  apply spawns_nil;
    unfold start_monitors, alloc;
    destruct (c_health cfg), (c_stats cfg && negb (c_stats_external cfg)); simpl;
    destruct (bool_decide (p_scavenge_slots p ≠ [])); simpl; try done;
    constructor; try done; simpl; try lia; intros x Hx; by rewrite !lookup_insert_ne by lia.
Qed.
End start_spec.

(** ** What setting up the stages leaves *)

(** Job [i] once its chunking is resolved. *)
Definition resolved (js : list job) (i : nat) : option job :=
  match js !! i with
  | Some j => Some (with_chunk_eff (chunk_eff j (js !! S i)) j)
  | None => None
  end.

(** The names stage [i] gets, from the first name [b]. *)
Definition stage_names_from (b k offset : nat) : list nat :=
  (λ i, b + 4 * i + offset)%nat <$> seq 0 k.

(** The objects of a stage as it is set up. *)
Definition stage_objects (b : nat) (js : list job) (i : nat) (j : job) (h : gmap nat obj) : Prop :=
  h !! (b + 4 * i + 0)%nat = Some (OQueue (outq_size (j_outqn j) (chunk_eff j (js !! S i)))) ∧
  h !! (b + 4 * i + 1)%nat = Some (OValue 0) ∧
  h !! (b + 4 * i + 2)%nat = Some (OEvent false) ∧
  h !! (b + 4 * i + 3)%nat = Some (OValue (worker_count j)).

(** The first [k] stages of [js] are set up, from [p0]. *)
Record set_up (p0 : pipe) (js : list job) (k : nat) (p : pipe) : Prop := {
  su_length : length (p_jobs p) = length js;
  su_done i : (i < k)%nat → p_jobs p !! i = resolved js i;
  su_todo i : (k ≤ i)%nat → p_jobs p !! i = js !! i;
  su_queues : p_queues p = stage_names_from (p_next p0) k 0;
  su_counters : p_end_counters p = stage_names_from (p_next p0) k 1;
  su_events : p_done_events p = stage_names_from (p_next p0) k 2;
  su_counts : p_worker_counts p = stage_names_from (p_next p0) k 3;
  su_next : p_next p = (p_next p0 + 4 * k)%nat;
  su_heap i j : (i < k)%nat → js !! i = Some j → stage_objects (p_next p0) js i j (p_heap p);
  su_old x : (x < p_next p0)%nat → p_heap p !! x = p_heap p0 !! x;
  su_rest : p_worker_info p = p_worker_info p0 ∧ p_processes p = p_processes p0 ∧
            p_worker_configs p = p_worker_configs p0 ∧ p_manager p = p_manager p0;
}.

Lemma stage_names_S b k o :
  stage_names_from b (S k) o = stage_names_from b k o ++ [(b + 4 * k + o)%nat].
Proof. unfold stage_names_from. by rewrite seq_S, fmap_app. Qed.

Lemma stage_names_lookup b k o i :
  stage_names_from b k o !! i = if decide (i < k)%nat then Some (b + 4 * i + o)%nat else None.
Proof.
  unfold stage_names_from. rewrite list_lookup_fmap. case_decide.
  - by rewrite lookup_seq_lt.
  - by rewrite lookup_seq_ge by lia.
Qed.

Lemma setup_stage_spec p0 js k p j :
  js !! k = Some j → set_up p0 js k p → set_up p0 js (S k) (setup_stage k p).
Proof.
  intros Hj []. unfold setup_stage. rewrite su_todo0, Hj by lia.
  rewrite (su_todo0 (S k)) by lia. cbn -[outq_size worker_count chunk_eff Nat.mul stage_names_from].
  constructor; cbn -[outq_size worker_count chunk_eff Nat.mul stage_names_from].
  - by rewrite length_insert.
  - intros i Hi. destruct (decide (i = k)) as [->|Hne].
    + rewrite list_lookup_insert_eq by (rewrite su_length0; by eapply lookup_lt_Some).
      unfold resolved. by rewrite Hj.
    + rewrite list_lookup_insert_ne by done. apply su_done0. lia.
  - intros i Hi. rewrite list_lookup_insert_ne by lia. apply su_todo0. lia.
  - rewrite su_queues0, su_next0, stage_names_S. do 2 f_equal. lia.
  - rewrite su_counters0, su_next0, stage_names_S. do 2 f_equal. lia.
  - rewrite su_events0, su_next0, stage_names_S. do 2 f_equal. lia.
  - rewrite su_counts0, su_next0, stage_names_S. do 2 f_equal. lia.
  - rewrite su_next0. lia.
  - intros i j' Hi Hj'. unfold stage_objects. rewrite su_next0. destruct (decide (i = k)) as [->|Hne].
    + rewrite Hj in Hj'. injection Hj' as <-.
      split_and!; rewrite !lookup_insert; repeat (rewrite decide_False by lia); by rewrite decide_True by lia.
    + destruct (su_heap0 i j' ltac:(lia) Hj') as (? & ? & ? & ?).
      split_and!; rewrite !lookup_insert_ne by lia; done.
  - intros x Hx. rewrite !lookup_insert_ne by lia. by apply su_old0.
  - done.
Qed.

Lemma setup_stages_spec p :
  p_queues p = [] → p_end_counters p = [] → p_worker_counts p = [] → p_done_events p = [] →
  set_up p (p_jobs p) (length (p_jobs p)) (setup_stages p).
Proof.
  intros Hq Hc Hw Hd. unfold setup_stages. set (js := p_jobs p).
  assert (∀ k, (k ≤ length js)%nat → set_up p js k (foldl (λ p i, setup_stage i p) p (seq 0 k))) as Hk.
  { induction k as [|k IH]; intros Hle.
    - constructor; try done; simpl; try lia; intros; lia.
    - rewrite seq_S, foldl_app. simpl.
      destruct (lookup_lt_is_Some_2 js k) as [j Hj]; [lia|].
      eapply setup_stage_spec; [exact Hj|]. apply IH. lia. }
  by apply Hk.
Qed.

(** ** Wiring *)

(** A worker reads the queue the stage before it writes, watches that stage's
    completion event, and shares its own stage's queue, counters and event
    with its siblings. *)
Record wired (p : pipe) (k : kwargs) : Prop := {
  wd_stage : (k_stage_idx k < length (p_jobs p))%nat;
  wd_out : p_queues p !! k_stage_idx k = k_out_queue k ∧ is_Some (k_out_queue k);
  wd_in : match k_stage_idx k with
          | O => k_in_queue k = None
          | S i => p_queues p !! i = k_in_queue k ∧ is_Some (k_in_queue k)
          end;
  wd_upstream : match k_stage_idx k with
                | O => k_upstream_done k = None
                | S i => p_done_events p !! i = k_upstream_done k ∧ is_Some (k_upstream_done k)
                end;
  wd_done : p_done_events p !! k_stage_idx k = Some (k_stage_done k);
  wd_counter : p_end_counters p !! k_stage_idx k = Some (k_stage_end_counter k);
  wd_count : p_worker_counts p !! k_stage_idx k = Some (k_stage_worker_count k);
  wd_final : k_is_final_stage k = bool_decide (S (k_stage_idx k) = length (p_jobs p));
}.

(** All stages have their objects. *)
Definition complete (p : pipe) : Prop :=
  length (p_queues p) = length (p_jobs p) ∧ length (p_end_counters p) = length (p_jobs p) ∧
  length (p_worker_counts p) = length (p_jobs p) ∧ length (p_done_events p) = length (p_jobs p).

Lemma for_stage_wired p i j k :
  complete p → (i < length (p_jobs p))%nat → for_stage p i j k → wired p k.
Proof.
  intros (Hq & Hc & Hw & Hd) Hi (g & n & w & c & h & pk & ipc & b & ->).
  destruct (lookup_lt_is_Some_2 (p_end_counters p) i) as [x1 E1]; [lia|].
  destruct (lookup_lt_is_Some_2 (p_worker_counts p) i) as [x2 E2]; [lia|].
  destruct (lookup_lt_is_Some_2 (p_done_events p) i) as [x3 E3]; [lia|].
  constructor; simpl; rewrite ?E1, ?E2, ?E3; try done.
  - split; [done|]. apply lookup_lt_is_Some_2. lia.
  - destruct i; [done|]. split; [done|]. apply lookup_lt_is_Some_2. lia.
  - destruct i; [done|]. split; [done|]. apply lookup_lt_is_Some_2. lia.
  - apply bool_decide_ext. lia.
Qed.

Lemma wired_frame p p' k : frame p p' → wired p k → wired p' k.
Proof. intros [E1 E2 E3 E4 E5 _ _ _] []. constructor; by rewrite ?E1, ?E2, ?E3, ?E4, ?E5. Qed.

(** The stage whose worker an entry of [worker_info] is. *)
Definition stage_of (p : pipe) (e : nat * string * string) : option nat :=
  match p_heap p !! e.1.1 with Some (OProcess _ k) => Some (k_stage_idx k) | _ => None end.

Lemma for_stage_idx p i j k : for_stage p i j k → k_stage_idx k = i.
Proof. by intros (g & n & w & c & h & pk & ipc & b & ->). Qed.

Lemma stage_workers_idx p i cs : stage_workers p i cs → Forall (λ c, k_stage_idx c.2 = i) cs.
Proof.
  intros (j & _ & H). eapply Forall2_Forall_r; [exact H|]. apply Forall_true.
  intros w c [Hs _]. by eapply for_stage_idx.
Qed.

(** Whatever the stages spawn is wired. *)
Lemma stage_workers_wired p l css :
  complete p → Forall2 (stage_workers p) l css →
  Forall (λ c : run_target * kwargs, wired p c.2) (concat css).
Proof.
  intros Hc Hcss. apply Forall_concat. eapply Forall2_Forall_r; [exact Hcss|].
  apply Forall_true. intros i cs (j & Hj & H). eapply Forall2_Forall_r; [exact H|].
  apply Forall_true. intros w c [Hs _]. apply (for_stage_wired _ i j); [done| |done].
  by eapply lookup_lt_Some.
Qed.

(** The workers of one stage among all of them. *)
Lemma stage_workers_filter p l css n i cs :
  Forall2 (stage_workers p) l css → NoDup l → l !! n = Some i → css !! n = Some cs →
  filter (λ c : run_target * kwargs, k_stage_idx c.2 = i) (concat css) = cs.
Proof.
  intros H. revert n. induction H as [|i' cs' l css Hi' Htail IH]; intros n Hnd Hl Hc; [done|].
  inversion Hnd as [|? ? Hnot Hnd']; subst. simpl. rewrite filter_app.
  apply stage_workers_idx in Hi' as Hidx. destruct n as [|n]; simplify_eq/=.
  - rewrite filter_all by done. rewrite filter_none; [by rewrite app_nil_r|]. clear IH Hidx Hi' Hnd.
    rewrite Forall_concat. apply Forall_forall. intros cs' Hcs'.
    apply list_elem_of_lookup in Hcs' as [m Hm].
    assert (∃ i', l !! m = Some i' ∧ stage_workers p i' cs') as (i' & Hi' & Hs).
    { exact (Forall2_lookup_r _ _ _ _ _ Htail Hm). }
    apply stage_workers_idx in Hs. eapply Forall_impl; [exact Hs|]. intros c <- <-.
    apply Hnot. by eapply list_elem_of_lookup_2.
  - rewrite filter_none; [by apply (IH n)|].
    eapply Forall_impl; [exact Hidx|]. intros c <- Heq. apply Hnot. rewrite Heq.
    by eapply list_elem_of_lookup_2.
Qed.

(** A pipeline without processes or queues: new, or stopped. *)
Definition idle (p : pipe) : Prop :=
  p_queues p = [] ∧ p_worker_info p = [] ∧ p_processes p = [] ∧ p_worker_configs p = [].

Lemma idle_but_queues v p : idle (set_queues v p) →
  p_worker_info p = [] ∧ p_processes p = [] ∧ p_worker_configs p = [].
Proof. by intros (_ & H). Qed.

Section launch_spec.
Context (cfg : settings) (env : surroundings).

(** The state right before the first worker is spawned. *)
Definition prepared (p : pipe) : pipe :=
  clear_slots (setup_stages (clear_sync (make_shared cfg env p))).

Lemma make_shared_spec p :
  p_jobs (make_shared cfg env p) = p_jobs p ∧ p_queues (make_shared cfg env p) = p_queues p ∧
  p_worker_info (make_shared cfg env p) = p_worker_info p ∧
  p_processes (make_shared cfg env p) = p_processes p ∧
  p_worker_configs (make_shared cfg env p) = p_worker_configs p ∧
  (p_next p ≤ p_next (make_shared cfg env p))%nat.
Proof.
  unfold make_shared, alloc. destruct (p_manager p), (c_stats cfg), (r_has_store env);
    simpl; split_and!; try done; lia.
Qed.

Lemma prepared_spec p :
  idle p →
  idle (set_queues [] (prepared p)) ∧ length (p_jobs (prepared p)) = length (p_jobs p) ∧
  set_up (clear_sync (make_shared cfg env p)) (p_jobs p) (length (p_jobs p)) (setup_stages (clear_sync (make_shared cfg env p))).
Proof.
  intros (Hq & Hw & Hp & Hc). destruct (make_shared_spec p) as (E1 & E2 & E3 & E4 & E5 & _).
  pose proof (setup_stages_spec (clear_sync (make_shared cfg env p))) as Hs. simpl in Hs.
  rewrite E1, E2 in Hs. specialize (Hs Hq eq_refl eq_refl eq_refl).
  split; [|split; [|done]].
  - destruct (su_rest _ _ _ _ Hs) as (R1 & R2 & R3 & _). simpl in *.
    unfold prepared, idle. simpl. rewrite R1, R2, R3, E3, E4, E5. done.
  - by rewrite <-(su_length _ _ _ _ Hs).
Qed.

Lemma prepared_complete p : idle p → complete (prepared p).
Proof.
  intros Hi. destruct (prepared_spec p Hi) as (_ & Hl & Hs). unfold complete, prepared in *. simpl in *.
  rewrite (su_queues _ _ _ _ Hs), (su_counters _ _ _ _ Hs), (su_events _ _ _ _ Hs), (su_counts _ _ _ _ Hs).
  unfold stage_names_from. rewrite !length_fmap, !length_seq, Hl. done.
Qed.

Lemma launch_spawns p :
  ∃ css, spawns (prepared p) (launch cfg env p) (concat css) ∧
    Forall2 (stage_workers (prepared p)) (seq 0 (length (p_jobs (prepared p)))) css.
Proof.
  unfold launch. fold (prepared p).
  destruct (spawn_stages_spec env (prepared p)) as (css & Hs & Hw). exists css. split; [|done].
  rewrite <-(app_nil_r (concat css)). eapply spawns_trans; [exact Hs|]. apply start_monitors_spawns.
Qed.

(** The objects of the four lists are different objects. *)
Lemma prepared_distinct p :
  idle p →
  NoDup (p_queues (prepared p) ++ p_end_counters (prepared p) ++ p_worker_counts (prepared p) ++
         p_done_events (prepared p)).
Proof.
  intros Hi. destruct (prepared_spec p Hi) as (_ & _ & Hs). unfold prepared. simpl.
  rewrite (su_queues _ _ _ _ Hs), (su_counters _ _ _ _ Hs), (su_events _ _ _ _ Hs), (su_counts _ _ _ _ Hs).
  assert (∀ b k o, NoDup (stage_names_from b k o)) as Hn.
  { intros. unfold stage_names_from. apply NoDup_fmap_2_strong; [|apply NoDup_seq]. intros. lia. }
  assert (∀ b k o x, x ∈ stage_names_from b k o ↔ ∃ i, x = b + 4 * i + o ∧ i < k)%nat as He.
  { intros b k o x. unfold stage_names_from. rewrite list_elem_of_fmap. setoid_rewrite elem_of_seq.
    split; intros (i & -> & ?); exists i; split; [done|lia|done|lia]. }
  rewrite !NoDup_app. split_and!; try apply Hn; intros x; rewrite ?elem_of_app, ?He;
    intros (i & -> & _) Hx; destruct_or?; destruct Hx as (i' & ? & _); lia.
Qed.
End launch_spec.

(** A start from an idle state. *)
Lemma start_wires (cfg : settings) (env : surroundings) (p : pipe) :
  p_jobs p ≠ [] → check_drain false (p_jobs (root_stops p)) = Ok tt → c_sequential cfg = false →
  idle p → Forall (λ j, 0 ≤ j_num_workers j)%Z (p_jobs p) →
  let '(r, p') := start cfg env p in
  r = Ok tt ∧ complete p' ∧ length (p_jobs p') = length (p_jobs p) ∧
  NoDup (p_queues p' ++ p_end_counters p' ++ p_worker_counts p' ++ p_done_events p') ∧
  (∀ e, e ∈ p_worker_info p' → ∃ c, runs p' e c ∧ wired p' c.2) ∧
  (∀ i, (i < length (p_jobs p))%nat →
     ∃ counter count event,
       p_end_counters p' !! i = Some counter ∧ value_of p' counter = 0%Z ∧
       p_done_events p' !! i = Some event ∧ event_set p' event = false ∧
       p_worker_counts p' !! i = Some count ∧
       value_of p' count = Z.of_nat (length (filter (λ e, stage_of p' e = Some i) (p_worker_info p')))) ∧
  (p_next p ≤ p_next p')%nat ∧
  (∀ x, x ∈ p_queues p' ++ p_end_counters p' ++ p_worker_counts p' ++ p_done_events p' → (p_next p ≤ x)%nat).
Proof.
  intros Hne Hdrain Hseq Hidle Hpos. unfold start. simpl.
  set (p1 := root_stops (set_started true p)).
  assert (p_jobs p1 = p_jobs (root_stops p) ∧ length (p_jobs p1) = length (p_jobs p) ∧ idle p1 ∧
          Forall (λ j, 0 ≤ j_num_workers j)%Z (p_jobs p1)) as (Hj1 & Hl1 & Hi1 & Hp1).
  { unfold p1, root_stops. simpl. destruct (p_jobs p) as [|j js] eqn:E; [done|].
    split_and!; [done|done|done|]. inversion Hpos; subst. by constructor. }
  destruct (p_jobs p) as [|j0 js0] eqn:Ejobs; [done|].
  rewrite Hj1, Hdrain, Hseq. rewrite <-Ejobs in *. clear Hne Hdrain Hseq Hpos.
  destruct (prepared_spec cfg env p1 Hi1) as (Hidle' & Hlen & Hsu).
  destruct (idle_but_queues _ _ Hidle') as (Hw & _). clear Hidle'.
  pose proof (prepared_complete cfg env p1 Hi1) as Hcomp.
  pose proof (prepared_distinct cfg env p1 Hi1) as Hdist.
  destruct (launch_spawns cfg env p1) as (css & (Hf & new & Hruns & Hinfo & _ & _) & Hcss).
  assert (set_up (clear_sync (make_shared cfg env p1)) (p_jobs p1) (length (p_jobs p1)) (prepared cfg env p1)) as Hsu'.
  { destruct Hsu. by constructor. }
  clear Hsu. generalize dependent (launch cfg env p1). intros p' Hf Hruns Hinfo.
  pose proof Hf as [E1 E2 E3 E4 E5 _ Hnext Hheap].
  rewrite Hw in Hinfo. simpl in Hinfo.
  assert (∀ x, x ∈ p_queues p' ++ p_end_counters p' ++ p_worker_counts p' ++ p_done_events p' →
    (p_next p1 ≤ x)%nat) as Hfresh.
  { intros x. destruct (make_shared_spec cfg env p1) as (_ & _ & _ & _ & _ & Hn).
    rewrite E2, E3, E4, E5, (su_queues _ _ _ _ Hsu'), (su_counters _ _ _ _ Hsu'),
      (su_events _ _ _ _ Hsu'), (su_counts _ _ _ _ Hsu'), !elem_of_app.
    unfold stage_names_from. rewrite !list_elem_of_fmap. simpl in *.
    intros Hx. destruct_or?; destruct Hx as (i & -> & _); lia. }
  assert (p_next p1 ≤ p_next p')%nat as Hmono.
  { pose proof (su_next _ _ _ _ Hsu') as Hn.
    destruct (make_shared_spec cfg env p1) as (_ & _ & _ & _ & _ & Hn'). simpl in *. lia. }
  assert (p_next p1 = p_next p) as Hnp.
  { unfold p1, root_stops. simpl. by destruct (p_jobs p). }
  rewrite <-Hnp. split; [done|]. rewrite <-Hl1, <-Hlen. split_and!; [..|done|done].
  - unfold complete in *. by rewrite E1, E2, E3, E4, E5.
  - by rewrite E1.
  - by rewrite E2, E3, E4, E5.
  - intros e He. rewrite Hinfo in He. apply list_elem_of_lookup in He as [n Hn].
    destruct (Forall2_lookup_l _ _ _ _ _ Hruns Hn) as (c & Hc & Hr). exists c. split; [done|].
    apply (wired_frame (prepared cfg env p1)); [done|].
    apply (Forall_lookup_1 _ _ _ _ (stage_workers_wired _ _ _ Hcomp Hcss) Hc).
  - intros i Hi. rewrite Hlen in Hi.
    destruct (lookup_lt_is_Some_2 (p_jobs p1) i Hi) as [j Hj].
    destruct (su_heap _ _ _ _ Hsu' i j Hi Hj) as (_ & H1 & H2 & H3).
    rewrite E3, E4, E5, (su_counters _ _ _ _ Hsu'), (su_counts _ _ _ _ Hsu'), (su_events _ _ _ _ Hsu').
    rewrite !stage_names_lookup, !decide_True by done.
    assert (∀ o, o ≤ 3 → p_next (clear_sync (make_shared cfg env p1)) + 4 * i + o < p_next (prepared cfg env p1))%nat as Hlt.
    { intros o Ho. rewrite (su_next _ _ _ _ Hsu'). lia. }
    do 3 eexists. split; [reflexivity|]. unfold value_of, event_set.
    rewrite Hheap, H1 by (apply Hlt; lia). split; [done|]. split; [reflexivity|].
    rewrite Hheap, H2 by (apply Hlt; lia). split; [done|]. split; [reflexivity|].
    rewrite Hheap, H3 by (apply Hlt; lia).
    rewrite Hinfo.
    assert (length (filter (λ e, stage_of p' e = Some i) new) =
            length (filter (λ c : run_target * kwargs, k_stage_idx c.2 = i) (concat css))) as ->.
    { clear -Hruns. induction Hruns as [|e c new cs (Hr & _) _ IH]; [done|]. rewrite !filter_cons.
      assert (stage_of p' e = Some (k_stage_idx c.2)) as -> by (unfold stage_of; by rewrite Hr).
      destruct (decide (k_stage_idx c.2 = i)) as [->|Hne].
      - rewrite decide_True by done. simpl. by rewrite IH.
      - rewrite decide_False by (intros [= ?]; done). done. }
    destruct (lookup_lt_is_Some_2 css i) as [cs Hcs].
    { rewrite <-(Forall2_length _ _ _ Hcss), length_seq. lia. }
    rewrite (stage_workers_filter _ _ _ i i cs Hcss (NoDup_seq _ _)) by (rewrite ?lookup_seq_lt by lia; done).
    destruct (Forall2_lookup_r _ _ _ _ _ Hcss Hcs) as (i' & Hi' & j' & Hj' & Hids).
    rewrite lookup_seq_lt in Hi' by lia. injection Hi' as <-. simpl in Hj'.
    rewrite (su_done _ _ _ _ Hsu') in Hj' by done. unfold resolved in Hj'. rewrite Hj in Hj'. injection Hj' as <-.
    rewrite <-(Forall2_length _ _ _ Hids). apply (Forall_lookup_1 _ _ _ _ Hp1) in Hj.
    unfold worker_count, stage_ids, no_pool. simpl.
    destruct (j_thread j), (match j_gpus j with None | Some [] => true | _ => false end); simpl;
      rewrite ?length_fmap, ?length_seq; lia.
Qed.


(** ** Properties *)

(** C33: [start] wires the stages into a pipeline. Started from an idle state
    it gives each stage its own queue, counters and completion event, all
    different objects, and every process it launches is a worker of one stage
    that writes this stage's queue, reads the one before, watches the
    completion event before and sets its own; the counter of finished workers
    starts at zero and the worker count is the number of processes the stage
    got, which is what the last one to finish is recognised by. *)
Theorem start_wires_pipeline (cfg : settings) (env : surroundings) (p : pipe) :
  p_jobs p ≠ [] → check_drain false (p_jobs (root_stops p)) = Ok tt → c_sequential cfg = false →
  idle p → Forall (λ j, 0 ≤ j_num_workers j)%Z (p_jobs p) →
  let '(r, p') := start cfg env p in
  r = Ok tt ∧ complete p' ∧ length (p_jobs p') = length (p_jobs p) ∧
  NoDup (p_queues p' ++ p_end_counters p' ++ p_worker_counts p' ++ p_done_events p') ∧
  (∀ e, e ∈ p_worker_info p' → ∃ c, runs p' e c ∧ wired p' c.2) ∧
  (∀ i, (i < length (p_jobs p))%nat →
     ∃ counter count event,
       p_end_counters p' !! i = Some counter ∧ value_of p' counter = 0%Z ∧
       p_done_events p' !! i = Some event ∧ event_set p' event = false ∧
       p_worker_counts p' !! i = Some count ∧
       value_of p' count = Z.of_nat (length (filter (λ e, stage_of p' e = Some i) (p_worker_info p')))).
Proof.
  intros. pose proof (start_wires cfg env p) as H'. destruct (start cfg env p) as [r p'].
  destruct H' as (? & ? & ? & ? & ? & ? & _); [done..|]. done.
Qed.

(** [drain=False] stages form a prefix. [start] refuses, with
    [ValueError] and before anything is launched, exactly the pipelines
    without stages and those where, the root counted as [drain=False], a stage
    that stops on a drain comes after one that keeps going. *)
Theorem start_refuses (cfg : settings) (env : surroundings) (p : pipe) :
  let '(r, p') := start cfg env p in
  (r = Ok tt ↔ ∃ root a b, p_jobs p = root :: a ++ b ∧
     Forall (λ j, j_drain j = false) a ∧ Forall (λ j, j_drain j = true) b) ∧
  (r = Ok tt ∨ r = Raise ValueError ∧ p_processes p' = p_processes p ∧ p_heap p' = p_heap p).
Proof.
  assert (∀ js, match check_drain true js with
                | Ok _ => Forall (λ j, j_drain j = true) js
                | Raise e => e = ValueError ∧ ¬ Forall (λ j, j_drain j = true) js
                | Spin => False end) as Htrue.
  { induction js as [|j js IH]; simpl; [constructor|]. destruct (j_drain j) eqn:E.
    - destruct (check_drain true js); [by constructor| |done].
      destruct IH as [-> IH]. split; [done|]. by inversion 1.
    - split; [done|]. inversion 1. congruence. }
  assert (∀ js, match check_drain false js with
                | Ok _ => ∃ a b, js = a ++ b ∧ Forall (λ j, j_drain j = false) a ∧ Forall (λ j, j_drain j = true) b
                | Raise e => e = ValueError ∧ ¬ ∃ a b, js = a ++ b ∧ Forall (λ j, j_drain j = false) a ∧
                               Forall (λ j, j_drain j = true) b
                | Spin => False end) as Hfalse.
  { induction js as [|j js IH]; simpl; [by exists [], []|]. destruct (j_drain j) eqn:E.
    - specialize (Htrue js). destruct (check_drain true js) as [[]|e|]; [| |done].
      + exists [], (j :: js). split_and!; [done|constructor|by constructor].
      + destruct Htrue as [-> Hn]. split; [done|]. intros ([|j' a] & b & Heq & Ha & Hb); simplify_eq/=.
        * inversion Hb. done.
        * inversion Ha. congruence.
    - destruct (check_drain false js) as [[]|e|]; [| |done].
      + destruct IH as (a & b & -> & Ha & Hb). exists (j :: a), b. split_and!; [done|by constructor|done].
      + destruct IH as [-> Hn]. split; [done|]. intros ([|j' a] & b & Heq & Ha & Hb); simplify_eq/=.
        * inversion Hb. congruence.
        * apply Hn. exists a, b. inversion Ha. done. }
  unfold start. simpl. destruct (p_jobs p) as [|j js] eqn:E.
  { split; [|by right]. split; [done|]. by intros (? & ? & ? & ? & _). }
  assert (root_stops (set_started true p) = set_jobs (with_drain false j :: js) (set_started true p)) as ->.
  { unfold root_stops. simpl. by rewrite E. }
  simpl. specialize (Hfalse js). destruct (check_drain false js) as [[]|e|]; [| |done].
  - destruct Hfalse as (a & b & -> & Ha & Hb). split; [|by left]. split; [|done]. intros _. by exists j, a, b.
  - destruct Hfalse as [-> Hn]. split; [|by right]. split; [done|].
    intros (r & a & b & [= -> ->] & Ha & Hb). destruct Hn. by exists a, b.
Qed.

(** Chunking keeps the capacity of a queue. [outqn] counts items: with
    chunks of [c] items the queue holds as many messages as make up [outqn]
    items, short of a chunk at most, and never less than one message; a queue
    without a bound stays unbounded. *)
Theorem outq_size_capacity (n c : Z) :
  (0 ≤ n)%Z →
  let size := outq_size (Some n) c in
  let items := (size * Z.max 1 c)%Z in
  (size = 0 ↔ n = 0)%Z ∧ outq_size None c = 0%Z ∧
  (items ≤ Z.max n c)%Z ∧ (n - Z.max 1 c < items)%Z.
Proof.
  intros Hn size items.
  assert (size = if negb (n =? 0)%Z && (1 <? c)%Z then Z.max 1 (n / c) else n) as Hs by done.
  split; [|split; [done|]].
  - rewrite Hs. destruct (n =? 0)%Z eqn:E1, (1 <? c)%Z eqn:E2; simpl; boolify; lia.
  - unfold items. rewrite Hs. destruct (n =? 0)%Z eqn:E1, (1 <? c)%Z eqn:E2; simpl; boolify; try lia.
    assert (n = c * (n / c) + n mod c)%Z by (apply Z.div_mod; lia).
    pose proof (Z.mod_pos_bound n c ltac:(lia)).
    destruct (Z.max_spec 1 (n / c)) as [[? ->]|[? ->]]; rewrite Z.max_r by lia; nia.
Qed.

Lemma outq_size_capacity_witness :
  outq_size (Some 100%Z) 32 = 3%Z ∧
  let size := outq_size (Some 100%Z) 32 in
  let items := (size * Z.max 1 32)%Z in
  (size = 0 ↔ 100 = 0)%Z ∧ outq_size None 32 = 0%Z ∧
  (items ≤ Z.max 100 32)%Z ∧ (100 - Z.max 1 32 < items)%Z.
Proof. split; [reflexivity|]. apply (outq_size_capacity 100 32). lia. Defined.

Module LifeDemo.
Definition new_pipe (js : list job) : pipe :=
  Pipe js false [] None [] [] [] 0 false None false None false None false [] [] None [] [] [] ∅ 0.
Definition stage_job (name : string) (workers : Z) (thread : bool) (pool : option (list Z)) (batch : Z) : job :=
  Job (StageFunc 0 (Some name) "function" true) name (Some 64%Z) workers false thread None pool None None
    (bool_decide (pool ≠ None)) (bool_decide (pool ≠ None) && negb thread) None batch true None 10000 None.
Definition demo : pipe :=
  new_pipe [stage_job "read" 1 false None 0; stage_job "mel" 3 true None 0;
            stage_job "asr" 4 false (Some [0; 1]%Z) 16; stage_job "save" 2 true (Some [1]%Z) 0].
Definition cfg : settings := Settings false true false true.
Definition env : surroundings := Surroundings [1]%Z (λ g, g) true.
Definition started : pipe := (start cfg env demo).2.
End LifeDemo.

Lemma start_wires_pipeline_witness :
  (p_worker_info LifeDemo.started).*1.*2 =
    ["stage_0_worker_0"; "stage_1_threaded_3threads"; "stage_2_worker_0_gpu_0";
     "stage_2_worker_1_gpu_1"; "stage_2_worker_2_gpu_0"; "stage_2_worker_3_gpu_1";
     "stage_3_threaded_worker_0_gpu_1"; "stage_3_threaded_worker_1_gpu_1"]%string ∧
  let '(r, p') := start LifeDemo.cfg LifeDemo.env LifeDemo.demo in
  r = Ok tt ∧ complete p' ∧ length (p_jobs p') = length (p_jobs LifeDemo.demo) ∧
  NoDup (p_queues p' ++ p_end_counters p' ++ p_worker_counts p' ++ p_done_events p') ∧
  (∀ e, e ∈ p_worker_info p' → ∃ c, runs p' e c ∧ wired p' c.2) ∧
  (∀ i, (i < length (p_jobs LifeDemo.demo))%nat →
     ∃ counter count event,
       p_end_counters p' !! i = Some counter ∧ value_of p' counter = 0%Z ∧
       p_done_events p' !! i = Some event ∧ event_set p' event = false ∧
       p_worker_counts p' !! i = Some count ∧
       value_of p' count = Z.of_nat (length (filter (λ e, stage_of p' e = Some i) (p_worker_info p')))).
Proof.
  split; [vm_compute; reflexivity|].
  pose proof (start_wires_pipeline LifeDemo.cfg LifeDemo.env LifeDemo.demo) as H.
  apply H; [done|reflexivity|reflexivity|by split_and!|]. repeat (constructor; [simpl; lia|]). constructor.
Defined.
