(* ===== verification/WorkerIds.v ===== *)
(** * Worker ids (lifecycle.py, monitors.py)

    [worker_configs] and [hang_watch] are keyed by worker ids, and the stats
    monitor reads the stage of a worker off its id ([stage_of_id], the
    [re.match] of [_collect_stats]). Both rely on the ids [start] makes up. *)
From S2P Require Import Prelude Types Text Placement Jobs Lifecycle.
From Stdlib Require Import DecimalString.

(** ** Reading an id *)

(** [\d] on ASCII. *)
Definition dec_digit (c : ascii) : bool :=
  let n := nat_of_ascii c in ((48 <=? n) && (n <=? 57))%nat.

Fixpoint take_digits (cs : list ascii) : list ascii :=
  match cs with
  | c :: cs => if dec_digit c then c :: take_digits cs else []
  | [] => []
  end.

(** [m = re.match(r"stage_(\d+)", worker_id)], then [int(m.group(1)) if m else -1]. *)
Definition stage_of_id (worker_id : string) : Z :=
  if startswith "stage_" worker_id then
    match take_digits (drop 6 (chars worker_id)) with
    | [] => -1
    | ds => match int_of_str (text ds) with Ok n => n | _ => -1 end
    end
  else -1.

(** ** Strings of digits *)

Lemma uint_dec_digits d : Forall (λ c, dec_digit c = true) (chars (NilEmpty.string_of_uint d)).
Proof. induction d; simpl; constructor; auto. Qed.

Lemma str_dec_digits n : Forall (λ c, dec_digit c = true) (chars (str_of_nat n)).
Proof.
  unfold str_of_nat. destruct (nonneg_digits (Z.of_nat n)) as (d & _ & -> & _); [lia|].
  apply uint_dec_digits.
Qed.

Lemma chars_app a b : chars (a +:+ b) = chars a ++ chars b.
Proof. induction a as [|c a IH]; [done|]. simpl. by rewrite <-IH. Qed.

Lemma str_of_nat_inj m n : chars (str_of_nat m) = chars (str_of_nat n) → m = n.
Proof.
  intros H. apply (f_equal text) in H. rewrite !text_chars in H.
  assert (int_of_str (str_of_nat m) = int_of_str (str_of_nat n)) as Hi by congruence.
  unfold str_of_nat in Hi. rewrite !int_of_str_of_Z in Hi by lia. injection Hi. lia.
Qed.

(** A tail that does not begin with a digit. *)
Definition stops (s : list ascii) : Prop := match s with c :: _ => dec_digit c = false | [] => True end.

Lemma take_digits_app a s :
  Forall (λ c, dec_digit c = true) a → stops s → take_digits (a ++ s) = a.
Proof.
  induction 1 as [|c a Hc Ha IH]; intros Hs; simpl.
  - destruct s as [|c s]; [done|]. simpl in *. by rewrite Hs.
  - rewrite Hc. f_equal. by apply IH.
Qed.

(** A number is cut off where the digits end. *)
Lemma number_cut m n s s' :
  stops s → stops s' → chars (str_of_nat m) ++ s = chars (str_of_nat n) ++ s' → m = n ∧ s = s'.
Proof.
  intros Hs Hs' H. assert (chars (str_of_nat m) = chars (str_of_nat n)) as E.
  { rewrite <-(take_digits_app _ s (str_dec_digits m) Hs), H.
    by rewrite (take_digits_app _ s' (str_dec_digits n) Hs'). }
  split; [by apply str_of_nat_inj|]. rewrite E in H. by simplify_list_eq.
Qed.

(** ** The ids of a stage *)

(** All ids of stage [i] read "stage_i_" and more. *)
Lemma stage_ids_prefix i j w :
  w ∈ stage_ids i j → ∃ s, chars w = chars "stage_" ++ chars (str_of_nat i) ++ "_"%char :: s.
Proof.
  unfold stage_ids. destruct (j_thread j); [destruct (no_pool j)|]; rewrite ?list_elem_of_singleton, ?list_elem_of_fmap.
  - intros ->. unfold threaded_id. rewrite !chars_app. eauto.
  - intros (n & -> & _). unfold threaded_gpu_id. rewrite !chars_app. eauto.
  - intros (n & -> & _). unfold process_id. rewrite !chars_app. eauto.
Qed.

Lemma stage_of_id_spec i j w : w ∈ stage_ids i j → stage_of_id w = Z.of_nat i.
Proof.
  intros Hw. destruct (stage_ids_prefix i j w Hw) as [s Hs]. unfold stage_of_id, startswith.
  rewrite bool_decide_true.
  2: { rewrite Hs. by apply prefix_app_r. }
  rewrite Hs, drop_app_length' by done.
  rewrite take_digits_app by (apply str_dec_digits || done).
  destruct (chars (str_of_nat i)) eqn:E.
  - exfalso. apply (str_nonempty (Z.of_nat i)); [lia|exact E].
  - rewrite <-E, text_chars. unfold str_of_nat. by rewrite int_of_str_of_Z by lia.
Qed.

Lemma gpu_suffix_stops g : stops (chars (gpu_suffix g)).
Proof. by destruct g. Qed.

Lemma stage_ids_nodup i j : NoDup (stage_ids i j).
Proof.
  unfold stage_ids.
  assert (∀ (f : nat → string) l, (∀ m n, f m = f n → m = n) → NoDup l → NoDup (f <$> l)) as Hf.
  { intros f l Hinj Hl. by apply NoDup_fmap_2_strong; [intros; apply Hinj|]. }
  destruct (j_thread j); [destruct (no_pool j)|].
  - apply NoDup_singleton.
  - apply Hf; [|apply NoDup_seq]. intros m n H. apply (f_equal chars) in H. unfold threaded_gpu_id in H.
    rewrite !chars_app in H. simplify_list_eq. by apply number_cut in H as [-> _]; [|apply gpu_suffix_stops..].
  - apply Hf; [|apply NoDup_seq]. intros m n H. apply (f_equal chars) in H. unfold process_id in H.
    rewrite !chars_app in H. simplify_list_eq. by apply number_cut in H as [-> _]; [|apply gpu_suffix_stops..].
Qed.

(** ** The ids of a pipeline *)

Definition ids (cs : list (run_target * kwargs)) : list string := k_worker_id ∘ snd <$> cs.

Lemma stage_workers_ids p i cs :
  stage_workers p i cs → NoDup (ids cs) ∧ ∀ w, w ∈ ids cs → stage_of_id w = Z.of_nat i.
Proof.
  intros (j & _ & H). assert (ids cs = stage_ids i j) as ->.
  { unfold ids. induction H as [|w c ws cs [_ Hw] _ IH]; [done|]. simpl. f_equal; [exact Hw|exact IH]. }
  split; [apply stage_ids_nodup|]. intros w. apply stage_of_id_spec.
Qed.

Lemma pipeline_ids p l css :
  Forall2 (stage_workers p) l css → NoDup l →
  NoDup (ids (concat css)) ∧ ∀ w, w ∈ ids (concat css) → ∃ i, i ∈ l ∧ stage_of_id w = Z.of_nat i.
Proof.
  induction 1 as [|i cs l css Hi Hl IH]; intros Hnd; [split; [constructor|by intros w ?%not_elem_of_nil]|].
  inversion Hnd as [|? ? Hnot Hnd']; subst. destruct (IH Hnd') as [IH1 IH2].
  destruct (stage_workers_ids p i cs Hi) as [H1 H2]. unfold ids in *. simpl. rewrite fmap_app. split.
  - apply NoDup_app. split_and!; [done| |done]. intros w Hw Hw'.
    destruct (IH2 w Hw') as (i' & Hi' & E). apply H2 in Hw. assert (i = i') as -> by lia. done.
  - intros w [Hw|Hw]%elem_of_app.
    + exists i. split; [by left|by apply H2].
    + destruct (IH2 w Hw) as (i' & ? & ?). exists i'. split; [by right|done].
Qed.

(** ** Configurations *)

Lemma dict_set_fresh {V} k (v : V) d : k ∉ d.*1 → dict_set k v d = d ++ [(k, v)].
Proof.
  induction d as [|[k' v'] d IH]; simpl; [done|]. rewrite not_elem_of_cons. intros [Hne Hk].
  rewrite decide_False by done. by rewrite IH.
Qed.

Lemma dict_lookup_app {V} k (d d' : list (string * V)) :
  dict_lookup k (d ++ d') = match dict_lookup k d with Some v => Some v | None => dict_lookup k d' end.
Proof. induction d as [|[k' v'] d IH]; [done|]. simpl. by case_decide. Qed.

Definition config_entry (c : run_target * kwargs) : string * worker_config :=
  (k_worker_id c.2, WorkerConfig c.1 c.2 (k_stage_name c.2)).

Lemma register_all d cs :
  NoDup (d.*1 ++ ids cs) → foldl register d cs = d ++ (config_entry <$> cs).
Proof.
  revert d. induction cs as [|c cs IH]; intros d Hnd; simpl; [by rewrite app_nil_r|].
  assert (k_worker_id c.2 ∉ d.*1) as Hc.
  { intros Hin. apply NoDup_app in Hnd as (_ & Hd & _). apply (Hd _ Hin). left. }
  unfold register at 2. rewrite dict_set_fresh by done. rewrite IH.
  - by rewrite <-app_assoc.
  - rewrite fmap_app, <-app_assoc. exact Hnd.
Qed.

Lemma config_lookup cs c :
  NoDup (ids cs) → c ∈ cs →
  dict_lookup (k_worker_id c.2) (config_entry <$> cs) = Some (WorkerConfig c.1 c.2 (k_stage_name c.2)).
Proof.
  induction cs as [|c' cs IH]; [by intros _ ?%not_elem_of_nil|].
  intros Hnd [->|Hc]%elem_of_cons; simpl; [by rewrite decide_True|].
  inversion Hnd as [|? ? Hnot Hnd']; subst. rewrite decide_False; [by apply IH|].
  intros E. apply Hnot. change ((k_worker_id ∘ snd) c' ∈ ids cs). simpl. rewrite <-E.
  apply list_elem_of_fmap. by exists c.
Qed.

(** ** Properties *)

(** Worker ids are unique and say the stage. After [start] from an idle
    state no two workers share an id, every running worker's id finds the
    configuration it was started from (what a restart spawns again), and the
    stage the stats monitor reads off the id is the worker's. *)
Theorem worker_ids_unique (cfg : settings) (env : surroundings) (p : pipe) :
  idle p → c_sequential cfg = false →
  let '(r, p') := start cfg env p in
  r = Ok tt →
  NoDup (p_worker_info p').*1.*2 ∧
  ∀ pid id name, (pid, id, name) ∈ p_worker_info p' →
    ∃ t k, p_heap p' !! pid = Some (OProcess t k) ∧ k_worker_id k = id ∧ k_stage_name k = name ∧
      dict_lookup id (p_worker_configs p') = Some (WorkerConfig t k name) ∧
      stage_of_id id = Z.of_nat (k_stage_idx k).
Proof.
  intros Hidle Hseq. unfold start. simpl. destruct (p_jobs p) as [|j js] eqn:E; [done|].
  set (p1 := root_stops (set_started true p)).
  assert (idle p1) as Hi1.
  { unfold p1, root_stops. simpl. by rewrite E. }
  destruct (check_drain false (p_jobs p1)) as [[]|e|]; [|done..]. rewrite Hseq. intros _.
  destruct (prepared_spec cfg env p1 Hi1) as (Hidle' & _ & _).
  destruct (idle_but_queues _ _ Hidle') as (Hw & _ & Hc).
  destruct (launch_spawns cfg env p1) as (css & (_ & new & Hruns & Hinfo & _ & Hconf) & Hcss).
  destruct (pipeline_ids _ _ _ Hcss (NoDup_seq _ _)) as [Hnd _].
  rewrite Hw in Hinfo. rewrite Hc, register_all in Hconf by done. simpl in Hinfo, Hconf.
  rewrite Hinfo, Hconf.
  assert (new.*1.*2 = ids (concat css)) as Hids.
  { clear -Hruns. unfold ids. induction Hruns as [|e c new cs (_ & _ & Hw & _) _ IH]; [done|].
    simpl. f_equal; [exact Hw|exact IH]. }
  split; [by rewrite Hids|]. intros pid id name He. apply list_elem_of_lookup in He as [n Hn].
  destruct (Forall2_lookup_l _ _ _ _ _ Hruns Hn) as ([t k] & Hk & Hp & _ & Hid & Hname). simpl in *.
  apply list_elem_of_lookup_2 in Hk as Hin. subst id name. exists t, k. split_and!; [done..| |].
  - by apply (config_lookup (concat css) (t, k)).
  - assert (Forall (λ c : run_target * kwargs, stage_of_id (k_worker_id c.2) = Z.of_nat (k_stage_idx c.2)) (concat css)) as Hall.
    { apply Forall_concat. eapply Forall2_Forall_r; [exact Hcss|]. apply Forall_true.
      intros i cs Hcs. destruct (stage_workers_ids _ _ _ Hcs) as [_ Hs].
      pose proof (stage_workers_idx _ _ _ Hcs) as Hidx. apply Forall_forall. intros c Hc'.
      rewrite Forall_forall in Hidx. rewrite (Hidx c Hc'). apply Hs. apply list_elem_of_fmap. by exists c. }
    rewrite Forall_forall in Hall. by apply (Hall (t, k)).
Qed.

Lemma worker_ids_unique_witness :
  let '(r, p') := start LifeDemo.cfg LifeDemo.env LifeDemo.demo in
  r = Ok tt ∧ NoDup (p_worker_info p').*1.*2 ∧
  ∀ pid id name, (pid, id, name) ∈ p_worker_info p' →
    ∃ t k, p_heap p' !! pid = Some (OProcess t k) ∧ k_worker_id k = id ∧ k_stage_name k = name ∧
      dict_lookup id (p_worker_configs p') = Some (WorkerConfig t k name) ∧
      stage_of_id id = Z.of_nat (k_stage_idx k).
Proof.
  split; [vm_compute; reflexivity|].
  apply (worker_ids_unique LifeDemo.cfg LifeDemo.env LifeDemo.demo); [by split_and!|reflexivity|].
  vm_compute. reflexivity.
Defined.
