(* ===== verification/Shutdown.v ===== *)
(** * Stopping and restarting (lifecycle.py: _stop, restart, _restart_worker)

    Both run in the process of the pipeline, or on its health monitor thread,
    and act on processes, threads and queues that may be dead or stuck: what
    these answer is a parameter, what was done to them is recorded. *)
From S2P Require Import Prelude Types Text Placement Jobs Lifecycle WorkerIds.

(** ** What is done to the outside *)

Inductive os_action :=
  | Joined (x : nat)              (* a process or thread, with a timeout *)
  | Terminated (pid : nat)
  | Killed (pid : nat)
  | PutEnd (q : nat)
  | Slept (d : Z)
  | QueueClosed (q : nat)
  | StoreClosed (s : nat)
  | ManagerDown (m : nat)
  | IpcCollected.

Definition host : Type := pipe * list os_action.

(** What the outside answers. [o_alive log x]: whether process or thread [x]
    is alive after [log]; the others are the outcome of the call. *)
Record outside := Outside {
  o_alive : list os_action → nat → bool;
  o_current_thread : option nat;
  o_join : nat → res unit;        (* Process.join *)
  o_put_end : nat → res unit;     (* q.put(End, timeout=1) *)
  o_ipc_collect : option (res unit);  (* torch is loaded and has CUDA *)
  o_shutdown : res unit;          (* manager.shutdown *)
  o_close_queue : nat → res unit;
  o_close_store : res unit;
}.

Section shutdown.
Context (cfg : settings) (env : surroundings) (out : outside).
Local Abbreviation P X := (prog host X).

Definition act (a : os_action) : P unit := λ '(p, log), (Ok tt, (p, log ++ [a])).
Definition the_pipe : P pipe := λ '(p, log), (Ok p, (p, log)).
Definition update (f : pipe → pipe) : P unit := λ '(p, log), (Ok tt, (f p, log)).
Definition is_alive (x : nat) : P bool := λ '(p, log), (Ok (o_alive out log x), (p, log)).

(** [except Exception: print(...)]. *)
Definition reported (c : P unit) : P unit :=
  try_except c (λ e, if is_exception e then ret tt else raise e).

(** [thread.join(timeout=2)]: a thread cannot join itself. *)
Definition join_thread (t : nat) : P unit :=
  if bool_decide (o_current_thread out = Some t) then raise RuntimeError else act (Joined t).
Definition join_process (pid : nat) : P unit := of_res (o_join out pid) ;! act (Joined pid).

(** Stop a monitor thread, if it is there and alive. *)
Definition stop_monitor (thread : pipe → option nat) (set_stop : pipe → pipe)
    (forget : pipe → pipe) (guard : P unit → P unit) : P unit :=
  let! p := the_pipe in
  match thread p with
  | None => ret tt
  | Some t =>
      let! alive := is_alive t in
      if alive : bool then guard (update set_stop ;! join_thread t) ;! update forget else ret tt
  end.

Definition stop_monitors : P unit :=
  stop_monitor p_health_thread (set_health_stop true) (set_health_thread None) reported ;!
  stop_monitor p_stats_thread (set_stats_stop true) (set_stats_thread None) id ;!
  stop_monitor p_scavenger_thread (set_scavenger_stop true) (set_scavenger_thread None) id.

Definition terminate_if_alive (pid : nat) : P unit :=
  let! alive := is_alive pid in if alive : bool then act (Terminated pid) else ret tt.
Definition kill_if_alive (pid : nat) : P unit :=
  let! alive := is_alive pid in if alive : bool then act (Killed pid) else ret tt.

(** [force=True]. *)
Definition stop_forced (pids : list nat) : P unit :=
  for_each pids terminate_if_alive ;!
  act (Slept (millis 100)) ;!
  for_each pids kill_if_alive ;!
  match o_ipc_collect out with
  | Some r => of_res r ;! act IpcCollected
  | None => ret tt
  end.

(** [force=False]: an [End] on every queue, then time to finish. *)
Definition put_end (q : nat) : P unit :=
  try_except (of_res (o_put_end out q) ;! act (PutEnd q))
    (λ e, match e with Full => ret tt | e => raise e end).
Definition join_or_terminate (pid : nat) : P unit :=
  try_except (join_process pid ;! terminate_if_alive pid)
    (λ e, match e with KeyboardInterrupt => terminate_if_alive pid | _ => ret tt end).
Definition stop_gracefully (queues pids : list nat) : P unit :=
  for_each queues put_end ;! for_each pids join_or_terminate.

Definition last_join (pid : nat) : P unit :=
  reported (let! alive := is_alive pid in if alive : bool then join_process pid else ret tt).

Definition stop_manager : P unit :=
  let! p := the_pipe in
  match p_manager p with
  | None => ret tt
  | Some m => reported (of_res (o_shutdown out) ;! act (ManagerDown m) ;! update (set_manager None))
  end.

Definition close_queue (q : nat) : P unit :=
  reported (of_res (o_close_queue out q) ;! act (QueueClosed q)).

Definition close_store : P unit :=
  let! p := the_pipe in
  match p_store p with
  | None => ret tt
  | Some s => of_res (o_close_store out) ;! act (StoreClosed s) ;! update (set_store None)
  end.

(** The attributes a new run starts from. *)
Definition forget_run (p : pipe) : pipe :=
  set_drain_event false (set_should_stop 0 (set_worker_configs [] (set_worker_info []
    (set_queues [] (set_processes [] p))))).
Definition reset_sync (p : pipe) : pipe :=
  foldl (λ p e, store_event e false p)
    (foldl (λ p c, store_value c 0 p) p (p_end_counters p)) (p_done_events p).

(** [_stop(force)]. *)
Definition _stop (force : bool) : P unit :=
  update (set_should_stop 1) ;!
  stop_monitors ;!
  let! p := the_pipe in
  (if force then stop_forced (p_processes p) else stop_gracefully (p_queues p) (p_processes p)) ;!
  for_each (p_processes p) last_join ;!
  stop_manager ;!
  for_each (p_queues p) close_queue ;!
  close_store ;!
  update (λ p, reset_sync (forget_run p)).

(** [restart(reason)]: a drain survives it. *)
Definition restart : P unit :=
  let! p := the_pipe in
  let draining := p_drain_event p in
  _stop true ;!
  (λ '(p, log), let '(r, p') := start cfg env p in (r, (p', log))) ;!
  if draining then update (set_drain_event true) else ret tt.

(** [_restart_worker(worker_idx, worker_id)]. *)
Fixpoint replace_first (old new : nat) (l : list nat) : list nat :=
  match l with
  | [] => []
  | x :: l => if decide (x = old) then new :: l else x :: replace_first old new l
  end.

Definition _restart_worker (worker_idx : nat) (worker_id : string) : P unit :=
  let! p := the_pipe in
  match dict_lookup worker_id (p_worker_configs p) with
  | None => raise ValueError
  | Some c =>
      match p_worker_info p !! worker_idx with
      | None => raise IndexError
      | Some (old_proc, _, _) =>
          reported (join_process old_proc) ;!
          update (λ p,
            let '(pid, p) := alloc (OProcess (wc_target c) (wc_kwargs c)) p in
            set_processes (replace_first old_proc pid (p_processes p))
              (set_worker_info (<[worker_idx := (pid, worker_id, wc_stage_name c)]> (p_worker_info p)) p))
      end
  end.
End shutdown.

(** ** What stopping leaves alone *)

(** The pipeline up to what stopping the monitors, the manager and the store
    changes. *)
Definition norm (p : pipe) : pipe :=
  set_health_thread None (set_health_stop false (set_stats_thread None (set_stats_stop false
    (set_scavenger_thread None (set_scavenger_stop false (set_manager None (set_store None
      (set_should_stop 0 p)))))))).

(** ... and up to what stopping the manager and the store changes. *)
Definition norm_shared (p : pipe) : pipe := set_manager None (set_store None p).

Definition watch (f : pipe → pipe) (s : host) : pipe := f s.1.
Local Abbreviation core := (watch norm_shared).

Ltac keeps_core :=
  lazymatch goal with
  | |- keeps _ (bind _ _) => apply keeps_bind; [keeps_core|intros; keeps_core]
  | |- keeps _ (try_except _ _) => apply keeps_try; [keeps_core|intros; keeps_core]
  | |- keeps _ (for_each _ _) => apply keeps_for_each; intros; keeps_core
  | |- keeps _ (ret _) => apply keeps_ret
  | |- keeps _ (raise _) => apply keeps_raise
  | |- keeps _ (of_res _) => apply keeps_of_res
  | |- keeps _ (match ?x with _ => _ end) => destruct x; keeps_core
  | |- _ => eauto 2 with pipe
  end.

Lemma act_keeps f a : keeps (watch f) (act a).
Proof. by intros [p log]. Qed.
Lemma the_pipe_keeps f : keeps (watch f) the_pipe.
Proof. by intros [p log]. Qed.
Lemma update_keeps n f : (∀ p, n (f p) = n p) → keeps (watch n) (update f).
Proof. intros Hf [p log]. apply Hf. Qed.
#[export] Hint Resolve act_keeps the_pipe_keeps : pipe.

Section shutdown_spec.
Context (cfg : settings) (env : surroundings) (out : outside).

Lemma is_alive_keeps f x : keeps (watch f) (is_alive out x).
Proof. by intros [p log]. Qed.
Hint Resolve is_alive_keeps : pipe.

Lemma stop_monitor_keeps thread set_stop forget guard :
  (∀ p, norm (set_stop p) = norm p) → (∀ p, norm (forget p) = norm p) →
  (∀ c, keeps (watch norm) c → keeps (watch norm) (guard c)) →
  keeps (watch norm) (stop_monitor out thread set_stop forget guard).
Proof.
  intros Hs Hf Hg. unfold stop_monitor. apply keeps_bind; [auto with pipe|]. intros p.
  destruct (thread p); [|auto with pipe]. apply keeps_bind; [auto with pipe|].
  intros []; [|auto with pipe]. apply keeps_bind; [|intros; by apply update_keeps].
  apply Hg, keeps_bind; [by apply update_keeps|]. intros. unfold join_thread. case_bool_decide; auto with pipe.
Qed.

Lemma reported_keeps f c : keeps (watch f) c → keeps (watch f) (reported c).
Proof. intros Hc. apply keeps_try; [done|]. intros e. destruct (is_exception e); auto with pipe. Qed.

Lemma stop_monitors_keeps : keeps (watch norm) (stop_monitors out).
Proof.
  unfold stop_monitors. apply keeps_bind; [|intros; apply keeps_bind; [|intros]];
    apply stop_monitor_keeps; try (by intros []); intros; [by apply reported_keeps|done..].
Qed.

Lemma terminate_keeps pid : keeps core (terminate_if_alive out pid).
Proof. apply keeps_bind; [auto with pipe|]. intros []; auto with pipe. Qed.
Lemma kill_keeps pid : keeps core (kill_if_alive out pid).
Proof. apply keeps_bind; [auto with pipe|]. intros []; auto with pipe. Qed.
Hint Resolve terminate_keeps kill_keeps : pipe.

Lemma stop_forced_keeps pids : keeps core (stop_forced out pids).
Proof. unfold stop_forced. keeps_core. Qed.

Lemma stop_gracefully_keeps qs pids : keeps core (stop_gracefully out qs pids).
Proof.
  unfold stop_gracefully, put_end, join_or_terminate, join_process. keeps_core.
Qed.

Lemma last_join_keeps pid : keeps core (last_join out pid).
Proof. apply reported_keeps. unfold join_process. keeps_core. Qed.

Lemma stop_manager_keeps : keeps core (stop_manager out).
Proof.
  apply keeps_bind; [auto with pipe|]. intros p. destruct (p_manager p); [|auto with pipe].
  apply reported_keeps, keeps_bind; [auto with pipe|]. intros.
  apply keeps_bind; [auto with pipe|]. intros. by apply update_keeps.
Qed.

Lemma close_queue_keeps q : keeps core (close_queue out q).
Proof. apply reported_keeps. keeps_core. Qed.

Lemma close_store_keeps : keeps core (close_store out).
Proof.
  apply keeps_bind; [auto with pipe|]. intros p. destruct (p_store p); [|auto with pipe].
  apply keeps_bind; [auto with pipe|]. intros.
  apply keeps_bind; [auto with pipe|]. intros. by apply update_keeps.
Qed.

(** *** Stopping succeeds *)

(** The calls on the outside fail only in the ways [_stop] provides for. *)
Record polite : Prop := {
  pol_put q : o_put_end out q = Ok tt ∨ o_put_end out q = Raise Full;
  pol_join pid : o_join out pid = Ok tt ∨ ∃ e, o_join out pid = Raise e ∧ is_exception e = true;
  pol_ipc r : o_ipc_collect out = Some r → r = Ok tt;
  pol_shutdown : o_shutdown out = Ok tt ∨ ∃ e, o_shutdown out = Raise e ∧ is_exception e = true;
  pol_close q : o_close_queue out q = Ok tt ∨ ∃ e, o_close_queue out q = Raise e ∧ is_exception e = true;
  pol_store : o_close_store out = Ok tt;
}.

(** [c] returns, only adds to the log, and leaves a log in [R]. *)
Definition leaves {X} (c : prog host X) (R : list os_action → Prop) : Prop :=
  ∀ s, ∃ x s', c s = (Ok x, s') ∧ s.2 `prefix_of` s'.2 ∧ R s'.2.
Definition returns {X} (c : prog host X) : Prop := leaves c (λ _, True).
Definition lasting (R : list os_action → Prop) : Prop :=
  ∀ l l', l `prefix_of` l' → R l → R l'.

Lemma leaves_bind {X Y} (c : prog host X) (k : X → prog host Y) R R' :
  lasting R → leaves c R → (∀ x, leaves (k x) R') → leaves (bind c k) (λ l, R l ∧ R' l).
Proof.
  intros Hl Hc Hk s. destruct (Hc s) as (x & s1 & E1 & Hp1 & HR). destruct (Hk x s1) as (y & s2 & E2 & Hp2 & HR').
  exists y, s2. unfold bind. rewrite E1. split_and!; [done|by transitivity s1.2|by eapply Hl|done].
Qed.

Lemma leaves_mono {X} (c : prog host X) (R R' : list os_action → Prop) :
  leaves c R → (∀ l, R l → R' l) → leaves c R'.
Proof. intros Hc HR s. destruct (Hc s) as (x & s' & ? & ? & ?). exists x, s'. auto. Qed.

Lemma returns_bind {X Y} (c : prog host X) (k : X → prog host Y) :
  returns c → (∀ x, returns (k x)) → returns (bind c k).
Proof. intros Hc Hk. eapply leaves_mono; [by apply leaves_bind; [|apply Hc|apply Hk]|done]. Qed.

(** What follows does not matter to a lasting property, nor what came before. *)
Lemma leaves_then {X Y} (c : prog host X) (k : X → prog host Y) R :
  lasting R → leaves c R → (∀ x, returns (k x)) → leaves (bind c k) R.
Proof. intros Hl Hc Hk. eapply leaves_mono; [by apply leaves_bind; [exact Hl|apply Hc|apply Hk]|naive_solver]. Qed.
Lemma leaves_after {X Y} (c : prog host X) (k : X → prog host Y) R :
  returns c → (∀ x, leaves (k x) R) → leaves (bind c k) R.
Proof. intros Hc Hk. eapply leaves_mono; [by apply leaves_bind; [|apply Hc|apply Hk]|naive_solver]. Qed.

Lemma leaves_for_each {X} (xs : list X) body (R : X → list os_action → Prop) :
  (∀ x, lasting (R x)) → (∀ x, leaves (body x) (R x)) →
  leaves (for_each xs body) (λ l, ∀ x, x ∈ xs → R x l).
Proof.
  intros Hl Hb. induction xs as [|x xs IH]; simpl.
  - intros s. exists tt, s. split_and!; [done|done|]. by intros x ?%not_elem_of_nil.
  - eapply leaves_mono; [apply leaves_bind; [apply Hl|apply Hb|intros; apply IH]|].
    intros l [H1 H2] y [->|Hy]%elem_of_cons; auto.
Qed.

Lemma returns_for_each {X} (xs : list X) body :
  (∀ x, returns (body x)) → returns (for_each xs body).
Proof. intros Hb. eapply leaves_mono; [by apply (leaves_for_each xs body (λ _ _, True))|done]. Qed.

Lemma returns_ret {X} (x : X) : returns (ret x).
Proof. intros s. by exists x, s. Qed.
Lemma returns_act a : returns (act a).
Proof. intros [p l]. exists tt, (p, l ++ [a]). split_and!; [done|by apply prefix_app_r|done]. Qed.
Lemma returns_update f : returns (update f).
Proof. intros [p l]. by exists tt, (f p, l). Qed.
Lemma returns_pipe : returns the_pipe.
Proof. intros [p l]. by exists p, (p, l). Qed.
Lemma returns_alive x : returns (is_alive out x).
Proof. intros [p l]. by eexists _, (p, l). Qed.
Hint Resolve returns_ret returns_act returns_update returns_pipe returns_alive : pipe.

(** Under [except Exception] all that matters is that no [KeyboardInterrupt]
    and no endless loop comes out. *)
Definition tame {X} (c : prog host X) : Prop :=
  ∀ s, ∃ r s', c s = (r, s') ∧ s.2 `prefix_of` s'.2 ∧
    ((∃ x, r = Ok x) ∨ ∃ e, r = Raise e ∧ is_exception e = true).

Lemma returns_reported c : tame c → returns (reported c).
Proof.
  intros Hc s. unfold reported, try_except. destruct (Hc s) as (r & s' & -> & Hp & [[x ->]|(e & -> & He)]).
  - by exists x, s'.
  - rewrite He. by exists tt, s'.
Qed.

Lemma tame_returns {X} (c : prog host X) : returns c → tame c.
Proof. intros Hc s. destruct (Hc s) as (x & s' & E & Hp & _). exists (Ok x), s'. split_and!; [done|done|]. left. eauto. Qed.

Lemma tame_bind {X Y} (c : prog host X) (k : X → prog host Y) :
  tame c → (∀ x, tame (k x)) → tame (bind c k).
Proof.
  intros Hc Hk s. unfold bind. destruct (Hc s) as (r & s1 & -> & Hp & [[x ->]|(e & -> & He)]).
  - destruct (Hk x s1) as (r' & s2 & -> & Hp2 & Hr). exists r', s2. split_and!; [done|by transitivity s1.2|done].
  - exists (Raise e), s1. split_and!; [done|done|]. right. eauto.
Qed.

Lemma tame_of_res (r : res unit) :
  r = Ok tt ∨ (∃ e, r = Raise e ∧ is_exception e = true) → tame (of_res r).
Proof. intros Hr s. exists r, s. split_and!; [done..|]. destruct Hr as [->|(e & -> & He)]; eauto. Qed.

Lemma tame_join_thread t : tame (join_thread out t).
Proof.
  unfold join_thread. case_bool_decide; [|by apply tame_returns, returns_act].
  intros s. exists (Raise RuntimeError), s. split_and!; [done|done|]. right. eauto.
Qed.

(** The stats and the scavenger thread never stop the pipeline themselves. *)
Definition not_current (t : option nat) : Prop := ∀ x, t = Some x → o_current_thread out ≠ Some x.

Lemma returns_stop_health :
  returns (stop_monitor out p_health_thread (set_health_stop true) (set_health_thread None) reported).
Proof.
  apply returns_bind; [auto with pipe|]. intros p. destruct (p_health_thread p); [|auto with pipe].
  apply returns_bind; [auto with pipe|]. intros []; [|auto with pipe].
  apply returns_bind; [|intros; apply returns_update]. apply returns_reported, tame_bind.
  - apply tame_returns, returns_update.
  - intros. apply tame_join_thread.
Qed.

Lemma stop_other_returns thread set_stop forget s :
  not_current (thread s.1) →
  ∃ s', stop_monitor out thread set_stop forget id s = (Ok tt, s') ∧ s.2 `prefix_of` s'.2.
Proof.
  intros Hn. destruct s as [p l]. unfold stop_monitor, bind. simpl. simpl in Hn.
  destruct (thread p) as [t|]; [|eexists; by split].
  simpl. destruct (o_alive out l t); simpl; [|eexists; split; [reflexivity|done]].
   unfold join_thread. rewrite bool_decide_false by (by apply Hn).
  eexists. split; [reflexivity|]. simpl. by apply prefix_app_r.
Qed.

Lemma returns_stop_monitors s :
  polite → not_current (p_stats_thread s.1) → not_current (p_scavenger_thread s.1) →
  ∃ s', stop_monitors out s = (Ok tt, s') ∧ s.2 `prefix_of` s'.2.
Proof.
  intros _ Hst Hsc. unfold stop_monitors.
  destruct (returns_stop_health s) as ([] & s1 & E1 & Hp1 & _).
  assert (p_stats_thread s1.1 = p_stats_thread s.1 ∧ p_scavenger_thread s1.1 = p_scavenger_thread s.1) as [Ht1 Ht2].
  { clear -E1. destruct s as [p l]. revert E1. unfold stop_monitor, reported, try_except, bind, ret, join_thread. simpl.
    destruct (p_health_thread p); [|by intros; simplify_eq/=]. simpl. destruct (o_alive out l n); simpl; [|by intros; simplify_eq/=].
    case_bool_decide; simpl; by intros; simplify_eq/=. }
  destruct (stop_other_returns p_stats_thread (set_stats_stop true) (set_stats_thread None) s1) as (s2 & E2 & Hp2).
  { by rewrite Ht1. }
  assert (p_scavenger_thread s2.1 = p_scavenger_thread s1.1) as Ht3.
  { clear -E2. destruct s1 as [p l]. revert E2. unfold stop_monitor, bind, ret, join_thread. simpl.
    destruct (p_stats_thread p); [|by intros; simplify_eq/=]. simpl. destruct (o_alive out l n); simpl; [|by intros; simplify_eq/=].
    case_bool_decide; simpl; by intros; simplify_eq/=. }
  destruct (stop_other_returns p_scavenger_thread (set_scavenger_stop true) (set_scavenger_thread None) s2)
    as (s3 & E3 & Hp3).
  { by rewrite Ht3, Ht2. }
  exists s3. split; [|by do 2 (etransitivity; [eassumption|])].
  unfold bind. rewrite E1, E2. exact E3.
Qed.

(** A process that was found dead or told to terminate. *)
Definition let_go (pid : nat) (l : list os_action) : Prop :=
  (∃ l0, l0 `prefix_of` l ∧ o_alive out l0 pid = false) ∨ Terminated pid ∈ l.
(** ... and, if it survived that, killed. *)
Definition put_down (pid : nat) (l : list os_action) : Prop :=
  (∃ l0, l0 `prefix_of` l ∧ o_alive out l0 pid = false) ∨ Killed pid ∈ l.

Lemma prefix_elem {A} (x : A) l l' : l `prefix_of` l' → x ∈ l → x ∈ l'.
Proof. intros [k ->] Hx. apply elem_of_app. by left. Qed.

Lemma let_go_lasting pid : lasting (let_go pid).
Proof.
  intros l l' Hp [(l0 & H0 & Ha)|Ht]; [left; exists l0; split; [by transitivity l|done]|right; by eapply prefix_elem].
Qed.
Lemma put_down_lasting pid : lasting (put_down pid).
Proof.
  intros l l' Hp [(l0 & H0 & Ha)|Ht]; [left; exists l0; split; [by transitivity l|done]|right; by eapply prefix_elem].
Qed.

Lemma terminate_leaves pid : leaves (terminate_if_alive out pid) (let_go pid).
Proof.
  intros [p l]. unfold terminate_if_alive, bind. simpl. destruct (o_alive out l pid) eqn:E.
  - exists tt, (p, l ++ [Terminated pid]). split_and!; [done|by apply prefix_app_r|].
    right. apply elem_of_app. right. by left.
  - exists tt, (p, l). split_and!; [done|done|]. left. by exists l.
Qed.

Lemma kill_leaves pid : leaves (kill_if_alive out pid) (put_down pid).
Proof.
  intros [p l]. unfold kill_if_alive, bind. simpl. destruct (o_alive out l pid) eqn:E.
  - exists tt, (p, l ++ [Killed pid]). split_and!; [done|by apply prefix_app_r|].
    right. apply elem_of_app. right. by left.
  - exists tt, (p, l). split_and!; [done|done|]. left. by exists l.
Qed.

(** How each process ends, depending on [force]. *)
Definition ended (force : bool) (pid : nat) (l : list os_action) : Prop :=
  if force then let_go pid l ∧ put_down pid l
  else let_go pid l ∨ ∃ e, o_join out pid = Raise e.

Lemma ended_lasting force pid : lasting (ended force pid).
Proof.
  intros l l' Hp. pose proof (let_go_lasting pid l l' Hp). pose proof (put_down_lasting pid l l' Hp).
  destruct force; simpl; naive_solver.
Qed.

Lemma lasting_all {X} (xs : list X) (R : X → list os_action → Prop) :
  (∀ x, lasting (R x)) → lasting (λ l, ∀ x, x ∈ xs → R x l).
Proof. intros HR l l' Hp H x Hx. by eapply HR, H. Qed.

Lemma stop_forced_leaves pids :
  polite → leaves (stop_forced out pids) (λ l, ∀ pid, pid ∈ pids → ended true pid l).
Proof.
  intros Hpol. unfold stop_forced.
  assert (returns match o_ipc_collect out with
                  | Some r => of_res r ;! act IpcCollected
                  | None => ret tt
                  end) as Hipc.
  { destruct (o_ipc_collect out) as [r|] eqn:E; [|apply returns_ret].
    rewrite (pol_ipc Hpol r E). apply returns_bind; [by intros s; exists tt, s|]. intros. apply returns_act. }
  pose proof (leaves_for_each pids _ let_go let_go_lasting terminate_leaves) as H1.
  pose proof (leaves_for_each pids _ put_down put_down_lasting kill_leaves) as H2.
  eapply leaves_mono.
  - apply leaves_bind; [exact (lasting_all pids _ let_go_lasting)|exact H1|]. intros _.
    apply leaves_after; [apply returns_act|]. intros _.
    apply leaves_then; [exact (lasting_all pids _ put_down_lasting)|exact H2|]. intros _. exact Hipc.
  - intros l [Hl Hd] pid Hpid. split; auto.
Qed.

Lemma returns_put_end q : polite → returns (put_end out q).
Proof.
  intros Hpol [p l]. unfold put_end, try_except, bind, of_res.
  destruct (pol_put Hpol q) as [-> | ->]; simpl.
  - exists tt, (p, l ++ [PutEnd q]). split_and!; [done|by apply prefix_app_r|done].
  - by exists tt, (p, l).
Qed.

Lemma join_or_terminate_leaves pid :
  polite → leaves (join_or_terminate out pid) (ended false pid).
Proof.
  intros Hpol [p l]. unfold join_or_terminate, try_except, join_process, bind, of_res.
  destruct (pol_join Hpol pid) as [E|(e & E & He)]; rewrite E.
  - simpl. destruct (terminate_leaves pid (p, l ++ [Joined pid])) as (x & s' & E' & Hp & Hl).
    rewrite E'. exists x, s'. split_and!; [done| |by left]. etransitivity; [|exact Hp]. by apply prefix_app_r.
  - assert (e ≠ KeyboardInterrupt) by (by intros ->).
    exists tt, (p, l). split_and!; [by destruct e|done|]. right. by exists e.
Qed.

Lemma stop_gracefully_leaves qs pids :
  polite → leaves (stop_gracefully out qs pids) (λ l, ∀ pid, pid ∈ pids → ended false pid l).
Proof.
  intros Hpol. apply leaves_after.
  - apply returns_for_each. intros. by apply returns_put_end.
  - intros _. apply leaves_for_each; [apply (ended_lasting false)|]. intros. by apply join_or_terminate_leaves.
Qed.

(** The part of [_stop] behind the monitors and the processes. *)
Lemma returns_cleanup pids qs :
  polite →
  returns (for_each pids (last_join out) ;! stop_manager out ;!
           for_each qs (close_queue out) ;! close_store out).
Proof.
  intros Hpol. apply returns_bind; [|intros _; apply returns_bind; [|intros _; apply returns_bind; [|intros _]]].
  - apply returns_for_each. intros pid. apply returns_reported, tame_bind; [by apply tame_returns, returns_alive|].
    intros []; [|by apply tame_returns, returns_ret]. apply tame_bind; [by apply tame_of_res, pol_join|].
    intros. by apply tame_returns, returns_act.
  - apply returns_bind; [apply returns_pipe|]. intros p. destruct (p_manager p); [|apply returns_ret].
    apply returns_reported, tame_bind; [by apply tame_of_res, pol_shutdown|]. intros.
    apply tame_returns, returns_bind; intros; [apply returns_act|apply returns_update].
  - apply returns_for_each. intros q. apply returns_reported, tame_bind; [by apply tame_of_res, pol_close|].
    intros. by apply tame_returns, returns_act.
  - apply returns_bind; [apply returns_pipe|]. intros p. destruct (p_store p); [|apply returns_ret].
    rewrite (pol_store Hpol). apply returns_bind; [by intros s; exists tt, s|]. intros.
    apply returns_bind; intros; [apply returns_act|apply returns_update].
Qed.

(** All of [_stop]. *)
Lemma stop_spec force p l :
  polite → not_current (p_stats_thread p) → not_current (p_scavenger_thread p) →
  ∃ p1 l1 p2 l2, stop_monitors out (set_should_stop 1 p, l) = (Ok tt, (p1, l1)) ∧
    _stop out force (p, l) = (Ok tt, (reset_sync (forget_run p2), l2)) ∧
    norm_shared p2 = norm_shared p1 ∧ norm p2 = norm p ∧ l `prefix_of` l2 ∧
    ∀ pid, pid ∈ p_processes p → ended force pid l2.
Proof.
  intros Hpol Hst Hsc. unfold _stop, bind at 1. simpl.
  destruct (returns_stop_monitors (set_should_stop 1 p, l) Hpol Hst Hsc) as ([p1 l1] & E1 & Hp1).
  unfold bind at 1. rewrite E1. unfold bind at 1. simpl.
  assert (norm p1 = norm p) as Hn1.
  { pose proof (stop_monitors_keeps (set_should_stop 1 p, l)) as Hk. rewrite E1 in Hk. exact Hk. }
  assert (p_processes p1 = p_processes p) as Hproc by (apply (f_equal p_processes) in Hn1; exact Hn1).
  set (kill := if force then _ else _).
  assert (keeps core kill) as Hkk.
  { unfold kill. destruct force; [apply stop_forced_keeps|apply stop_gracefully_keeps]. }
  assert (leaves kill (λ l, ∀ pid, pid ∈ p_processes p1 → ended force pid l)) as Hkl.
  { unfold kill. destruct force; [by apply stop_forced_leaves|by apply stop_gracefully_leaves]. }
  clearbody kill. destruct (Hkl (p1, l1)) as ([] & s2 & E2 & Hp2 & He2).
  unfold bind at 1. rewrite E2.
  pose proof (returns_cleanup (p_processes p1) (p_queues p1) Hpol s2) as (x & [p3 l3] & E3 & Hp3 & _).
  assert (norm_shared p3 = norm_shared p1) as Hn3.
  { change (norm_shared p1) with (core (p1, l1)). rewrite <-(Hkk (p1, l1)), E2.
    change (norm_shared p3) with (core (p3, l3)).
    assert (keeps core (for_each (p_processes p1) (last_join out) ;! stop_manager out ;!
           for_each (p_queues p1) (close_queue out) ;! close_store out)) as Hkc.
    { apply keeps_bind; [|intros; apply keeps_bind; [|intros; apply keeps_bind; [|intros]]].
      - apply keeps_for_each. apply last_join_keeps.
      - apply stop_manager_keeps.
      - apply keeps_for_each. apply close_queue_keeps.
      - apply close_store_keeps. }
    specialize (Hkc s2). rewrite E3 in Hkc. exact Hkc. }
  exists p1, l1, p3, l3. split_and!; [done| |done| | |].
  - clear -E3. revert E3. unfold bind.
    destruct (for_each (p_processes p1) (last_join out) s2) as [[[]|e|] s4]; [|done..].
    destruct (stop_manager out s4) as [[[]|e|] s5]; [|done..].
    destruct (for_each (p_queues p1) (close_queue out) s5) as [[[]|e|] s6]; [|done..].
    intros E. rewrite E. by destruct x.
  - rewrite <-Hn1. change (norm (norm_shared p3) = norm (norm_shared p1)). by rewrite Hn3.
  - transitivity l1; [done|]. by transitivity s2.2.
  - intros pid Hpid. rewrite <-Hproc in Hpid. eapply ended_lasting; [exact Hp3|]. by apply He2.
Qed.
End shutdown_spec.

(** ** The state after a stop *)

Lemma foldl_keeps {A X O} (obs : A → O) (f : A → X → A) l a :
  (∀ a x, obs (f a x) = obs a) → obs (foldl f a l) = obs a.
Proof. intros Hf. revert a. induction l as [|x l IH]; intros a; simpl; [done|]. by rewrite IH. Qed.

(** Everything but the values of the objects. *)
Definition but_heap (p : pipe) : pipe := set_heap ∅ p.

Lemma reset_sync_but_heap p : but_heap (reset_sync p) = but_heap p.
Proof.
  unfold reset_sync. rewrite (foldl_keeps but_heap) by done. by rewrite (foldl_keeps but_heap).
Qed.

Lemma store_values_lookup cs p x :
  p_heap (foldl (λ p c, store_value c 0 p) p cs) !! x = if decide (x ∈ cs) then Some (OValue 0) else p_heap p !! x.
Proof.
  revert p. induction cs as [|c cs IH]; intros p; simpl; [done|]. rewrite IH. simpl.
  destruct (decide (x ∈ cs)) as [Hx|Hx]; [by rewrite decide_True by (by right)|].
  destruct (decide (x = c)) as [->|Hne].
  - rewrite lookup_insert_eq, decide_True by (by left). done.
  - rewrite lookup_insert_ne by done. rewrite decide_False; [done|]. by intros [?|?]%elem_of_cons.
Qed.

Lemma store_events_lookup es p x :
  p_heap (foldl (λ p e, store_event e false p) p es) !! x =
  if decide (x ∈ es) then Some (OEvent false) else p_heap p !! x.
Proof.
  revert p. induction es as [|c cs IH]; intros p; simpl; [done|]. rewrite IH. simpl.
  destruct (decide (x ∈ cs)) as [Hx|Hx]; [by rewrite decide_True by (by right)|].
  destruct (decide (x = c)) as [->|Hne].
  - rewrite lookup_insert_eq, decide_True by (by left). done.
  - rewrite lookup_insert_ne by done. rewrite decide_False; [done|]. by intros [?|?]%elem_of_cons.
Qed.

Lemma reset_sync_heap p x :
  p_heap (reset_sync p) !! x =
  if decide (x ∈ p_done_events p) then Some (OEvent false)
  else if decide (x ∈ p_end_counters p) then Some (OValue 0) else p_heap p !! x.
Proof. unfold reset_sync. by rewrite store_events_lookup, store_values_lookup. Qed.

(** What [_stop] leaves of the pipeline it found. *)
Record stopped (p p' : pipe) : Prop := {
  sd_idle : idle p';
  sd_jobs : p_jobs p' = p_jobs p;
  sd_should_stop : p_should_stop p' = 0%Z;
  sd_drain : p_drain_event p' = false;
  sd_next : p_next p' = p_next p;
  sd_counters c : c ∈ p_end_counters p → c ∉ p_done_events p → value_of p' c = 0%Z;
  sd_events e : e ∈ p_done_events p → event_set p' e = false;
}.

Lemma stop_stopped p p2 : norm p2 = norm p → stopped p (reset_sync (forget_run p2)).
Proof.
  intros Hn. pose proof (reset_sync_but_heap (forget_run p2)) as Hb.
  assert (∀ {X} (f : pipe → X), (∀ q, f (but_heap q) = f q) → f (reset_sync (forget_run p2)) = f (forget_run p2)) as Hf.
  { intros X f Hf. by rewrite <-Hf, Hb, Hf. }
  assert (∀ {X} (f : pipe → X), (∀ q, f (norm q) = f q) → f p2 = f p) as Hg.
  { intros X f Hf'. by rewrite <-Hf', Hn, Hf'. }
  constructor.
  - unfold idle. rewrite !Hf by done. done.
  - rewrite Hf by done. by apply (Hg _ p_jobs).
  - by rewrite Hf.
  - by rewrite Hf.
  - rewrite Hf by done. by apply (Hg _ p_next).
  - intros c Hc Hne. unfold value_of. rewrite reset_sync_heap. simpl.
    rewrite (Hg _ p_done_events), (Hg _ p_end_counters) by done.
    by rewrite decide_False, decide_True.
  - intros e He. unfold event_set. rewrite reset_sync_heap. simpl.
    rewrite (Hg _ p_done_events) by done. by rewrite decide_True.
Qed.

(** ** The flags during a start *)

(** [should_stop], the drain event and the stop events of the health and the
    stats monitor. *)
Definition flags (p : pipe) : Z * bool * bool * bool :=
  (p_should_stop p, p_drain_event p, p_health_stop p, p_stats_stop p).

Lemma spawn_and_register_flags t k p : flags (_spawn_and_register t k p) = flags p.
Proof. done. Qed.

Lemma make_slot_flags env j w g p : flags (make_slot env j w g p).2 = flags p.
Proof. unfold make_slot, alloc. by destruct (f_on_park (j_func j)). Qed.

Lemma spawn_process_flags env i j p w : flags (spawn_process env i j p w) = flags p.
Proof.
  unfold spawn_process. set (wid := process_id i w (gpu_of j w)).
  destruct (match gpu_of j w with
    | Some g => if j_scavenge j then make_slot env j wid g p else ((None, None, None), p)
    | None => ((None, None, None), p) end) as [[[h pk] ipc] p1] eqn:E.
  assert (flags p1 = flags p) as Hp1.
  { destruct (gpu_of j w) as [g|]; [destruct (j_scavenge j)|]; try (by simplify_eq).
    pose proof (make_slot_flags env j wid g p) as Hm. by rewrite E in Hm. }
  destruct (j_hang_timeout j) as [t|]; [destruct (t =? 0)%Z|]; exact Hp1.
Qed.

Lemma spawn_stage_flags env p i : flags (spawn_stage env p i) = flags p.
Proof.
  unfold spawn_stage. destruct (p_jobs p !! i) as [j|]; [|done].
  destruct (j_thread j); [destruct (no_pool j)|]; [done|..]; apply foldl_keeps; intros; [done|].
  apply spawn_process_flags.
Qed.

Lemma setup_stage_flags i p : flags (setup_stage i p) = flags p.
Proof. unfold setup_stage. by destruct (p_jobs p !! i). Qed.

Lemma spawned_flags cfg env p :
  flags (spawn_stages env (prepared cfg env p)) = flags p.
Proof.
  unfold spawn_stages. rewrite (foldl_keeps flags) by apply spawn_stage_flags.
  unfold prepared. change (flags (setup_stages (clear_sync (make_shared cfg env p))) = flags p).
  unfold setup_stages. rewrite (foldl_keeps flags) by (intros; apply setup_stage_flags).
  unfold make_shared, alloc. by destruct (p_manager p), (c_stats cfg), (r_has_store env).
Qed.

Lemma reset_sync_stats p : p_stats_stop (reset_sync (forget_run p)) = p_stats_stop p.
Proof.
  assert (∀ q, p_stats_stop (but_heap q) = p_stats_stop q) as Hb by done.
  rewrite <-Hb, reset_sync_but_heap. by rewrite Hb.
Qed.

Lemma norm_shared_stats p q : norm_shared p = norm_shared q → p_stats_stop p = p_stats_stop q.
Proof.
  assert (∀ q, p_stats_stop (norm_shared q) = p_stats_stop q) as Hb by done.
  intros Hn. by rewrite <-Hb, Hn, Hb.
Qed.

(** A live stats monitor is told to stop. *)
Lemma stop_monitors_stats out p l s p1 l1 :
  stop_monitors out (p, l) = (Ok tt, (p1, l1)) → p_stats_thread p = Some s →
  (∀ l, o_alive out l s = true) → p_stats_stop p1 = true.
Proof.
  intros E Hs Ha. revert E. unfold stop_monitors. generalize (p_health_thread p). intros _.
  unfold bind at 1. destruct (stop_monitor out p_health_thread _ _ reported (p, l)) as [[[]|e|] [q m]] eqn:E1; [|done..].
  assert (p_stats_thread q = Some s) as Hq.
  { rewrite <-Hs. revert E1. unfold stop_monitor, reported, try_except, bind, ret, join_thread. simpl.
    destruct (p_health_thread p) as [h|]; [|by intros; simplify_eq/=].
    simpl. destruct (o_alive out l h); simpl; [|by intros; simplify_eq/=].
    case_bool_decide; simpl; intros; by simplify_eq/=. }
  unfold bind at 1. unfold stop_monitor at 1, bind at 1. simpl. rewrite Hq. unfold bind at 1. simpl. rewrite Ha.
  unfold id, join_thread. unfold bind at 1 2. simpl. case_bool_decide; [done|]. simpl.
  unfold stop_monitor, bind. simpl. destruct (p_scavenger_thread q) as [t|]; [|by intros [= <- _]].
  simpl. destruct (o_alive out _ t); simpl; [|by intros [= <- _]].
  unfold join_thread. case_bool_decide; simpl; [done|by intros [= <- _]].
Qed.

(** Where the monitor threads of a new run come from. *)
Lemma start_monitors_spec cfg p :
  (c_health cfg = true → ∃ t, p_health_thread (start_monitors cfg p) = Some t ∧ (p_next p ≤ t)%nat ∧
     p_health_stop (start_monitors cfg p) = false) ∧
  (c_stats cfg = true → c_stats_external cfg = false →
     ∃ t, p_stats_thread (start_monitors cfg p) = Some t ∧ (p_next p ≤ t)%nat) ∧
  p_should_stop (start_monitors cfg p) = p_should_stop p ∧
  p_drain_event (start_monitors cfg p) = p_drain_event p ∧
  p_stats_stop (start_monitors cfg p) = p_stats_stop p.
Proof.
  unfold start_monitors, alloc. destruct (c_health cfg), (c_stats cfg), (c_stats_external cfg);
    cbn [andb negb fst snd]; destruct (bool_decide _); cbn;
    split_and!; try done; intros; eexists; split_and!; try done; cbn; lia.
Qed.

Lemma root_stops_keep {O} (obs : pipe → O) p :
  (∀ js q, obs (set_jobs js q) = obs q) → obs (root_stops p) = obs p.
Proof. intros Ho. unfold root_stops. by destruct (p_jobs p). Qed.

(** A start from an idle state, with its monitors and flags. *)
Lemma start_flags cfg env p p' :
  idle p → c_sequential cfg = false → start cfg env p = (Ok tt, p') →
  p_should_stop p' = p_should_stop p ∧ p_drain_event p' = p_drain_event p ∧
  p_stats_stop p' = p_stats_stop p ∧
  (c_health cfg = true → p_health_stop p' = false ∧ ∃ t, p_health_thread p' = Some t ∧ (p_next p ≤ t)%nat) ∧
  (c_stats cfg = true → c_stats_external cfg = false →
     ∃ t, p_stats_thread p' = Some t ∧ (p_next p ≤ t)%nat).
Proof.
  intros Hidle Hseq. unfold start. simpl. destruct (p_jobs p) as [|j js] eqn:E; [done|].
  destruct (check_drain false (p_jobs (root_stops (set_started true p)))) as [[]|e|]; [|done..].
  rewrite Hseq. set (p1 := root_stops (set_started true p)). intros [= <-].
  assert (idle p1) as Hi1.
  { unfold idle, p1. rewrite !root_stops_keep by done. exact Hidle. }
  unfold launch. fold (prepared cfg env p1).
  destruct (start_monitors_spec cfg (spawn_stages env (prepared cfg env p1))) as (H1 & H2 & H3 & H4 & H5).
  pose proof (spawned_flags cfg env p1) as Hf. unfold flags in Hf. injection Hf as F1 F2 _ F4.
  assert (p_next p ≤ p_next (spawn_stages env (prepared cfg env p1)))%nat as Hn.
  { destruct (spawn_stages_spec env (prepared cfg env p1)) as (css & (Hfr & _) & _).
    destruct (prepared_spec cfg env p1 Hi1) as (_ & _ & Hsu).
    destruct (make_shared_spec cfg env p1) as (_ & _ & _ & _ & _ & Hn1).
    pose proof (fr_next _ _ Hfr) as Hn2. pose proof (su_next _ _ _ _ Hsu) as Hn3.
    assert (p_next p1 = p_next p) by (unfold p1; by rewrite root_stops_keep).
    change (p_next (prepared cfg env p1)) with (p_next (setup_stages (clear_sync (make_shared cfg env p1)))) in Hn2.
    change (p_next (clear_sync (make_shared cfg env p1))) with (p_next (make_shared cfg env p1)) in Hn3.
    lia. }
  rewrite H3, H4, H5, F1, F2, F4. unfold p1. rewrite !root_stops_keep by done.
  split_and!; try done.
  - intros Hc. destruct (H1 Hc) as (t & ? & ? & ?). split; [done|]. exists t. split; [done|]. lia.
  - intros Hc He. destruct (H2 Hc He) as (t & ? & ?). exists t. split; [done|]. lia.
Qed.

(** ** Properties *)

(** C34: [_stop] resets the pipeline and leaves no process behind. As long as
    the outside fails only in the ways the code provides for, [_stop] returns,
    the pipeline is idle with cleared flags, counters and events, and every
    process was found dead or told to terminate (a graceful stop skips that
    for a process whose join raised); after a forced stop every process that
    still lived was also killed. *)
Theorem stop_resets (out : outside) (force : bool) (p : pipe) (log : list os_action) :
  polite out → not_current out (p_stats_thread p) → not_current out (p_scavenger_thread p) →
  let '(r, (p', log')) := _stop out force (p, log) in
  r = Ok tt ∧ stopped p p' ∧ log `prefix_of` log' ∧
  ∀ pid, pid ∈ p_processes p →
    if force then let_go out pid log' ∧ put_down out pid log'
    else let_go out pid log' ∨ ∃ e, o_join out pid = Raise e.
Proof.
  intros Hpol Hst Hsc. destruct (stop_spec out force p log Hpol Hst Hsc) as (p1 & l1 & p2 & l2 & _ & -> & _ & Hn & Hl & He).
  split_and!; [done|by apply stop_stopped|done|exact He].
Qed.

(** A restart brings up a pipeline of its own. It keeps the pending drain,
    wires every new worker to the queues, counters and events of the new run,
    which are all new objects, so that nothing of the old run is shared. *)
Theorem restart_rewires (cfg : settings) (env : surroundings) (out : outside) (p : pipe)
    (log : list os_action) :
  polite out → not_current out (p_stats_thread p) → not_current out (p_scavenger_thread p) →
  p_jobs p ≠ [] → check_drain false (p_jobs (root_stops p)) = Ok tt → c_sequential cfg = false →
  Forall (λ j, 0 ≤ j_num_workers j)%Z (p_jobs p) →
  let '(r, (p', log')) := restart cfg env out (p, log) in
  r = Ok tt ∧ complete p' ∧ p_should_stop p' = 0%Z ∧ p_drain_event p' = p_drain_event p ∧
  (∀ e, e ∈ p_worker_info p' → ∃ c, runs p' e c ∧ wired p' c.2) ∧
  (∀ x, x ∈ p_queues p' ++ p_end_counters p' ++ p_worker_counts p' ++ p_done_events p' → (p_next p ≤ x)%nat).
Proof.
  intros Hpol Hst Hsc Hne Hdr Hseq Hpos. unfold restart, bind at 1. simpl. unfold bind at 1.
  destruct (stop_spec out true p log Hpol Hst Hsc) as (_ & _ & p2 & l2 & _ & -> & _ & Hn & _).
  pose proof (stop_stopped p p2 Hn) as Hs. revert Hs. generalize (reset_sync (forget_run p2)). intros p1 [].
  assert (root_stops p1 = set_jobs (p_jobs (root_stops p)) p1) as Hr.
  { unfold root_stops. rewrite sd_jobs0. destruct (p_jobs p) eqn:E; [done|]. done. }
  pose proof (start_wires cfg env p1) as Hw. pose proof (start_flags cfg env p1) as Hf.
  unfold bind. destruct (start cfg env p1) as [r p'].
  destruct Hw as (-> & H1 & _ & _ & H2 & _ & _ & H3); [by rewrite sd_jobs0|by rewrite Hr|done|done|by rewrite sd_jobs0|].
  destruct (Hf p' sd_idle0 Hseq eq_refl) as (F1 & F2 & _).
  destruct (p_drain_event p) eqn:Ed; simpl.
  - split_and!; [done|done|congruence|done| |by rewrite <-sd_next0].
    intros e He. destruct (H2 e He) as (c & Hc & []). exists c. split; [exact Hc|]. by constructor.
  - split_and!; [done|done|congruence|congruence|done|by rewrite <-sd_next0].
Qed.

(** A restart by the health monitor leaves the old monitors on duty. When
    the health monitor thread itself restarts the pipeline, the stop request
    it is sent is taken back and it goes on (its loop checks only these two
    flags) next to the new one; and because the stats monitor's stop event is
    never cleared, the new stats monitor finds it set and ends at once. *)
Theorem restart_monitors (cfg : settings) (env : surroundings) (out : outside) (p : pipe)
    (log : list os_action) (h s : nat) :
  polite out → o_current_thread out = Some h → p_health_thread p = Some h →
  p_stats_thread p = Some s → (∀ l, o_alive out l h = true ∧ o_alive out l s = true) → h ≠ s →
  not_current out (p_scavenger_thread p) → (h < p_next p)%nat →
  p_jobs p ≠ [] → check_drain false (p_jobs (root_stops p)) = Ok tt → c_sequential cfg = false →
  c_health cfg = true → c_stats cfg = true → c_stats_external cfg = false →
  Forall (λ j, 0 ≤ j_num_workers j)%Z (p_jobs p) →
  let '(r, (p', log')) := restart cfg env out (p, log) in
  r = Ok tt ∧
  (p_should_stop p' = 0%Z ∧ p_health_stop p' = false) ∧
  (∃ h', p_health_thread p' = Some h' ∧ h' ≠ h) ∧
  (∃ s', p_stats_thread p' = Some s' ∧ p_stats_stop p' = true).
Proof.
  intros Hpol Hcur Hh Hs Halive Hne Hsc Hlt Hjobs Hdr Hseq Hch Hcs Hce Hpos.
  assert (not_current out (p_stats_thread p)) as Hst.
  { intros x Hx. rewrite Hs in Hx. injection Hx as <-. by rewrite Hcur; intros [= ->]. }
  assert (∃ p1 l1, _stop out true (p, log) = (Ok tt, (p1, l1)) ∧ stopped p p1 ∧ p_stats_stop p1 = true)
    as (p1 & l1 & E & Hsd & Hss).
  { destruct (stop_spec out true p log Hpol Hst Hsc) as (q1 & m1 & p2 & l2 & E1 & E & Hn1 & Hn & _).
    exists (reset_sync (forget_run p2)), l2. split; [done|]. split; [by apply stop_stopped|].
    rewrite reset_sync_stats, (norm_shared_stats p2 q1 Hn1).
    refine (stop_monitors_stats out (set_should_stop 1 p) log s _ _ E1 Hs _). intros l'. apply Halive. }
  destruct Hsd. unfold restart, bind at 1. simpl. unfold bind at 1. rewrite E.
  assert (root_stops p1 = set_jobs (p_jobs (root_stops p)) p1) as Hr.
  { unfold root_stops. rewrite sd_jobs0. destruct (p_jobs p) eqn:Ej; [done|]. done. }
  pose proof (start_wires cfg env p1) as Hw. pose proof (start_flags cfg env p1) as Hf.
  unfold bind. destruct (start cfg env p1) as [r p'].
  destruct Hw as (-> & _); [by rewrite sd_jobs0|by rewrite Hr|done|done|by rewrite sd_jobs0|].
  destruct (Hf p' sd_idle0 Hseq eq_refl) as (F1 & _ & F3 & F4 & F5).
  destruct (F4 Hch) as (F4' & h' & ? & ?). destruct (F5 Hcs Hce) as (s' & ? & ?).
  assert (h' ≠ h) by lia.
  destruct (p_drain_event p); simpl; split_and!; try done; try congruence; eexists; split; try done; congruence.
Qed.

(** A crashed worker is replaced by its like. Restarting worker [idx]
    spawns one process that runs the very call the worker was started with
    (same queues, counters, flags and id), puts it in the worker's place in
    [worker_info] and [processes], and touches nothing else: all other
    workers, the configurations and every object that existed keep their
    state, the count of finished workers included. An unknown id raises
    [ValueError] and changes nothing. *)
Theorem restart_worker_same_call (out : outside) (idx : nat) (id : string) (p : pipe)
    (log : list os_action) :
  (∀ pid, o_join out pid = Ok tt ∨ ∃ e, o_join out pid = Raise e ∧ is_exception e = true) →
  let '(r, (p', log')) := _restart_worker out idx id (p, log) in
  match dict_lookup id (p_worker_configs p), p_worker_info p !! idx with
  | None, _ => r = Raise ValueError ∧ p' = p
  | Some _, None => r = Raise IndexError ∧ p' = p
  | Some c, Some (old, _, _) =>
      r = Ok tt ∧ ∃ pid,
        p_heap p' !! pid = Some (OProcess (wc_target c) (wc_kwargs c)) ∧ (p_next p ≤ pid < p_next p')%nat ∧
        p_worker_info p' = <[idx := (pid, id, wc_stage_name c)]> (p_worker_info p) ∧
        p_processes p' = replace_first old pid (p_processes p) ∧
        p_worker_configs p' = p_worker_configs p ∧ frame p p' ∧ flags p' = flags p
  end.
Proof.
  intros Hjoin. unfold _restart_worker, bind at 1. simpl.
  destruct (dict_lookup id (p_worker_configs p)) as [c|]; [|done].
  destruct (p_worker_info p !! idx) as [[[old wid] name]|]; [|done].
  assert (∃ log1, reported (join_process out old) (p, log) = (Ok tt, (p, log1))) as [log1 E].
  { unfold reported, try_except, join_process, bind, of_res.
    destruct (Hjoin old) as [-> | (e & -> & He)]; simpl; [by eexists|]. rewrite He. by eexists. }
  unfold bind. rewrite E. cbn. split; [done|]. exists (p_next p). split_and!; try done.
  - by rewrite lookup_insert_eq.
  - cbn. lia.
  - constructor; try done; cbn; [lia|]. intros x Hx. by rewrite lookup_insert_ne by lia.
Qed.

Module StopDemo.
(** Processes 3 and 4 ignore [SIGTERM]; everything else dies of it. *)
Definition killed (log : list os_action) (x : nat) : bool :=
  existsb (λ a, match a with
                | Killed y => bool_decide (x = y)
                | Terminated y => bool_decide (x = y) && negb (bool_decide (x ∈ [19; 20]))
                | _ => false
                end) log.
Definition out : outside := {|
  o_alive log x := negb (killed log x);
  o_current_thread := None;
  o_join _ := Ok tt;
  o_put_end q := if decide (q = 2) then Raise Full else Ok tt;
  o_ipc_collect := Some (Ok tt);
  o_shutdown := Raise (UserError 1);
  o_close_queue _ := Ok tt;
  o_close_store := Ok tt;
|}.
Definition running : pipe := set_drain_event true LifeDemo.started.

Lemma out_polite : polite out.
Proof.
  constructor; simpl; auto.
  - intros q. destruct (decide (q = 2)); auto.
  - by intros r [= <-].
  - right. by exists (UserError 1).
Defined.

(** The same, seen from the health monitor thread. *)
Definition monitor_thread : nat := default 0 (p_health_thread running).
Definition stats_thread : nat := default 0 (p_stats_thread running).
Definition from_monitor : outside := {|
  o_alive log x := bool_decide (x = monitor_thread ∨ x = stats_thread) || negb (killed log x);
  o_current_thread := Some monitor_thread;
  o_join _ := Ok tt;
  o_put_end _ := Ok tt;
  o_ipc_collect := None;
  o_shutdown := Ok tt;
  o_close_queue _ := Ok tt;
  o_close_store := Ok tt;
|}.

Lemma from_monitor_polite : polite from_monitor.
Proof. constructor; [by left..| |by left|by left|done]. intros r. discriminate. Defined.
End StopDemo.

Lemma stop_resets_witness :
  (_stop StopDemo.out true (StopDemo.running, [])).1 = Ok tt ∧
  let '(r, (p', log')) := _stop StopDemo.out true (StopDemo.running, []) in
  r = Ok tt ∧ stopped StopDemo.running p' ∧ [] `prefix_of` log' ∧
  ∀ pid, pid ∈ p_processes StopDemo.running →
    if true then let_go StopDemo.out pid log' ∧ put_down StopDemo.out pid log'
    else let_go StopDemo.out pid log' ∨ ∃ e, o_join StopDemo.out pid = Raise e.
Proof.
  split; [vm_compute; reflexivity|].
  pose proof (stop_resets StopDemo.out true StopDemo.running []) as H.
  apply H; [apply StopDemo.out_polite|by intros x _|by intros x _].
Defined.

Lemma restart_rewires_witness :
  (restart LifeDemo.cfg LifeDemo.env StopDemo.out (StopDemo.running, [])).1 = Ok tt ∧
  let '(r, (p', log')) := restart LifeDemo.cfg LifeDemo.env StopDemo.out (StopDemo.running, []) in
  r = Ok tt ∧ complete p' ∧ p_should_stop p' = 0%Z ∧ p_drain_event p' = p_drain_event StopDemo.running ∧
  (∀ e, e ∈ p_worker_info p' → ∃ c, runs p' e c ∧ wired p' c.2) ∧
  (∀ x, x ∈ p_queues p' ++ p_end_counters p' ++ p_worker_counts p' ++ p_done_events p' →
     (p_next StopDemo.running ≤ x)%nat).
Proof.
  split; [vm_compute; reflexivity|].
  pose proof (restart_rewires LifeDemo.cfg LifeDemo.env StopDemo.out StopDemo.running []) as H.
  apply H; [apply StopDemo.out_polite|by intros x _|by intros x _|vm_compute; done|vm_compute; done|done|].
  vm_compute. repeat (constructor; [done|]). constructor.
Defined.

Lemma restart_monitors_witness :
  let '(r, (p', log')) := restart LifeDemo.cfg LifeDemo.env StopDemo.from_monitor (StopDemo.running, []) in
  r = Ok tt ∧
  (p_should_stop p' = 0%Z ∧ p_health_stop p' = false) ∧
  (∃ h', p_health_thread p' = Some h' ∧ h' ≠ StopDemo.monitor_thread) ∧
  (∃ s', p_stats_thread p' = Some s' ∧ p_stats_stop p' = true).
Proof.
  pose proof (restart_monitors LifeDemo.cfg LifeDemo.env StopDemo.from_monitor StopDemo.running []
    StopDemo.monitor_thread StopDemo.stats_thread) as H.
  apply H; clear H.
  - apply StopDemo.from_monitor_polite.
  - reflexivity.
  - vm_compute. reflexivity.
  - vm_compute. reflexivity.
  - intros l. unfold StopDemo.from_monitor, o_alive. rewrite !bool_decide_true by auto. done.
  - vm_compute. done.
  - intros x Hx. vm_compute in Hx. injection Hx as <-. vm_compute. done.
  - vm_compute. lia.
  - vm_compute. done.
  - vm_compute. reflexivity.
  - reflexivity.
  - reflexivity.
  - reflexivity.
  - reflexivity.
  - vm_compute. repeat (constructor; [done|]). constructor.
Defined.

Lemma restart_worker_same_call_witness :
  (p_worker_info (_restart_worker StopDemo.out 3 "stage_2_worker_1_gpu_1" (StopDemo.running, [])).2.1).*1.*2 =
    (p_worker_info StopDemo.running).*1.*2 ∧
  let '(r, (p', log')) := _restart_worker StopDemo.out 3 "stage_2_worker_1_gpu_1" (StopDemo.running, []) in
  match dict_lookup "stage_2_worker_1_gpu_1" (p_worker_configs StopDemo.running), p_worker_info StopDemo.running !! 3 with
  | None, _ => r = Raise ValueError ∧ p' = StopDemo.running
  | Some _, None => r = Raise IndexError ∧ p' = StopDemo.running
  | Some c, Some (old, _, _) =>
      r = Ok tt ∧ ∃ pid,
        p_heap p' !! pid = Some (OProcess (wc_target c) (wc_kwargs c)) ∧ (p_next StopDemo.running ≤ pid < p_next p')%nat ∧
        p_worker_info p' =
          <[3 := (pid, "stage_2_worker_1_gpu_1"%string, wc_stage_name c)]> (p_worker_info StopDemo.running) ∧
        p_processes p' = replace_first old pid (p_processes StopDemo.running) ∧
        p_worker_configs p' = p_worker_configs StopDemo.running ∧ frame StopDemo.running p' ∧
        flags p' = flags StopDemo.running
  end.
Proof.
  split; [vm_compute; reflexivity|].
  pose proof (restart_worker_same_call StopDemo.out 3 "stage_2_worker_1_gpu_1" StopDemo.running []) as H.
  apply H. by left.
Defined.
