(* ===== verification/StageEnd.v ===== *)
(** * How a stage ends (workers.py: _finish_worker, _scavenge_hold_wait)

    The workers of a stage end independently; they share a counter, the number
    of workers and the stage-done event. [Worker] models one of them against
    answers it cannot choose. Here all of them run interleaved: a schedule is
    a list of labelled steps, and what a worker's own code does is one of the
    runs of the local machine ([finish_worker_simulated],
    [held_gives_up_last]). A pipeline that is told to stop is left out: its
    workers return without ending the stage.

    A worker that crashes before it has incremented the counter and is
    restarted has, here, not moved. *)
From S2P Require Import Prelude Types Queues Channels World Source Worker WorkerSpec WorkerExit.

(** ** One worker *)

(** Where a worker is in its life. *)
Inductive pc :=
  | Held                          (* in _scavenge_hold_wait *)
  | Working                       (* anywhere before the coordination *)
  | Counted (finished : Z)        (* incremented and read the counter *)
  | Ending (n : nat)              (* has n End sentinels left to put *)
  | Parked                        (* done, kept alive *)
  | Crashed.                      (* the put of a sentinel raised *)

#[export] Instance pc_eq_dec : EqDecision pc.
Proof. solve_decision. Defined.

(** What it does next, with the values it reads. *)
Inductive label :=
  | LRelease                      (* the hold was lifted *)
  | LGiveUp (finished count : Z)  (* held, but everything else is done *)
  | LOut (m : msg)
  | LIncr (finished : Z)          (* with the lock: += 1, then read *)
  | LCount (count : Z)            (* stage_worker_count.value *)
  | LEnd                          (* put(End, timeout=1.0) *)
  | LFull                         (* it raised Full *)
  | LRaise                        (* it raised something else *)
  | LDone.                        (* stage_done.set() *)

Section local.
(** The sentinels the last worker puts. *)
Context (n_ends : nat).

Definition local_step (p : pc) (l : label) : option pc :=
  match p, l with
  | Held, LRelease => Some Working
  | Held, LGiveUp finished count => if (count - 1 <=? finished)%Z then Some Working else None
  | Working, LOut _ => Some Working
  | Working, LIncr finished => Some (Counted finished)
  | Counted finished, LCount count => Some (if (finished <? count)%Z then Parked else Ending n_ends)
  | Ending (S n), LEnd => Some (Ending n)
  | Ending (S _), LFull => Some (Ending 0)
  | Ending (S _), LRaise => Some Crashed
  | Ending O, LDone => Some Parked
  | _, _ => None
  end.

Fixpoint local_run (p : pc) (ls : list label) : option pc :=
  match ls with
  | [] => Some p
  | l :: ls => match local_step p l with Some p => local_run p ls | None => None end
  end.

(** What a step leaves in the trace of the worker. *)
Definition actions (l : label) : list action :=
  match l with
  | LOut m => [PutOut m]
  | LIncr _ => [Finished]
  | LEnd => [PutOut (Bare End)]
  | LDone => [SetDone]
  | LRelease | LGiveUp _ _ | LCount _ | LFull | LRaise => []
  end.

(** ** All of them *)

(** The pcs of the workers, the shared counter and the event. *)
Record stage_state := StageState {
  pcs : list pc;
  counter : Z;
  done_set : bool;
}.

(** [stage_worker_count]: the number of workers spawned. *)
Definition count_of (s : stage_state) : Z := Z.of_nat (length (pcs s)).

(** The values a label reads are the ones that are there. *)
Definition reads_ok (s : stage_state) (l : label) : bool :=
  match l with
  | LGiveUp finished count => (finished =? counter s)%Z && (count =? count_of s)%Z
  | LIncr finished => (finished =? counter s + 1)%Z
  | LCount count => (count =? count_of s)%Z
  | _ => true
  end.

Definition fire (s : stage_state) (x : nat * label) : option stage_state :=
  let '(i, l) := x in
  match pcs s !! i with
  | None => None
  | Some p =>
      if reads_ok s l then
        match local_step p l with
        | None => None
        | Some p' =>
            Some (StageState (<[i := p']> (pcs s))
                    (match l with LIncr _ => counter s + 1 | _ => counter s end)
                    (match l with LDone => true | _ => done_set s end))
        end
      else None
  end.

Fixpoint schedule (s : stage_state) (xs : list (nat * label)) : option stage_state :=
  match xs with
  | [] => Some s
  | x :: xs => match fire s x with Some s => schedule s xs | None => None end
  end.

(** [n] workers, of which [held] were spawned held. *)
Definition initial (held n : nat) : stage_state :=
  StageState (replicate held Held ++ replicate (n - held) Working) 0 false.

(** The health monitor restarts the worker [i]: it runs from the beginning. *)
Definition respawn (i : nat) (s : stage_state) : stage_state :=
  StageState (<[i := Working]> (pcs s)) (counter s) (done_set s).

Lemma schedule_app s xs ys :
  schedule s (xs ++ ys) = match schedule s xs with Some s => schedule s ys | None => None end.
Proof. revert s. induction xs as [|x xs IH]; intros s; simpl; [done|]. by destruct (fire s x). Qed.

(** A step: the moving worker, what it did, and everything that follows. *)
Lemma fire_inv s i l s' : fire s (i, l) = Some s' →
  ∃ p p', pcs s !! i = Some p ∧ local_step p l = Some p' ∧ reads_ok s l = true ∧
    pcs s' = <[i := p']> (pcs s) ∧
    counter s' = (match l with LIncr _ => counter s + 1 | _ => counter s end)%Z ∧
    done_set s' = (match l with LDone => true | _ => done_set s end).
Proof.
  simpl. destruct (pcs s !! i) as [p|] eqn:Hp; [|done]. destruct (reads_ok s l) eqn:Hr; [|done].
  destruct (local_step p l) as [p'|] eqn:Hs; [|done]. intros [= <-]. by exists p, p'.
Qed.
End local.

(** ** Counting *)

(** Has the worker incremented the counter? *)
Definition counted (p : pc) : bool :=
  match p with Held | Working => false | _ => true end.

Definition how_many (f : pc → bool) (ps : list pc) : nat :=
  length (filter (λ p, f p = true) ps).

Lemma how_many_insert f ps i p p' :
  ps !! i = Some p →
  (how_many f (<[i := p']> ps) + (if f p then 1 else 0) =
   how_many f ps + (if f p' then 1 else 0))%nat.
Proof.
  unfold how_many. revert i. induction ps as [|q ps IH]; intros [|i] Hi; simplify_eq/=.
  - rewrite !filter_cons. repeat case_decide; destruct (f p), (f p'); simplify_eq/=; lia.
  - specialize (IH i Hi). rewrite !filter_cons. case_decide; simpl; lia.
Qed.

Lemma how_many_le f ps : (how_many f ps ≤ length ps)%nat.
Proof. apply length_filter. Qed.

Lemma how_many_all f ps i p : how_many f ps = length ps → ps !! i = Some p → f p = true.
Proof.
  unfold how_many. revert i. induction ps as [|q ps IH]; intros i Hm Hi; [done|].
  rewrite filter_cons in Hm. pose proof (length_filter (λ p, f p = true) ps).
  case_decide; simpl in Hm; [|lia]. destruct i; simplify_eq/=; eauto.
Qed.

Lemma how_many_none f ps : (∀ i p, ps !! i = Some p → f p = false) → how_many f ps = 0%nat.
Proof.
  unfold how_many. intros Hn. rewrite filter_none; [done|].
  apply Forall_lookup. intros i p Hp. by rewrite (Hn i p Hp).
Qed.

(** ** The stage as one state machine *)

Section protocol.
Context (n_ends : nat).

Definition is_lend (l : label) : bool := match l with LEnd => true | _ => false end.
Definition is_lfull (l : label) : bool := match l with LFull => true | _ => false end.
Definition is_lraise (l : label) : bool := match l with LRaise => true | _ => false end.

(** How many steps of a kind a schedule has. *)
Definition steps (f : label → bool) (xs : list (nat * label)) : nat :=
  length (filter (λ x, f x.2 = true) xs).

Lemma steps_snoc f xs i l :
  steps f (xs ++ [(i, l)]) = (steps f xs + if f l then 1 else 0)%nat.
Proof.
  unfold steps. rewrite filter_app, length_app, filter_cons. simpl. by destruct (f l).
Qed.

Lemma steps_cons f xs i l :
  steps f ((i, l) :: xs) = ((if f l then 1 else 0) + steps f xs)%nat.
Proof. unfold steps. rewrite filter_cons. simpl. by destruct (f l). Qed.

(** Is the worker the last finisher: has it found the counter at the number
    of workers, and not yet set the event? *)
Definition is_last (n : nat) (p : pc) : bool :=
  match p with
  | Counted f => (Z.of_nat n <=? f)%Z
  | Ending _ => true
  | _ => false
  end.

(** The sentinels still owed: exactly the ones not put, unless a put gave up
    on a full queue. *)
Definition owed (xs : list (nat * label)) (k : nat) : Prop :=
  (steps is_lend xs + k ≤ n_ends)%nat ∧
  (steps is_lfull xs = 0%nat → steps is_lend xs + k = n_ends)%nat.

(** The phases of a stage of [n] workers, after the steps [xs]. *)
Inductive phase (n : nat) (xs : list (nat * label)) (s : stage_state) : Prop :=
  | Gathering :                   (* somebody has not incremented *)
      (counter s < Z.of_nat n)%Z → (∀ i p, pcs s !! i = Some p → is_last n p = false) →
      done_set s = false → owed xs n_ends → steps is_lraise xs = 0%nat → phase n xs s
  | Closing i p k :               (* the last one is putting sentinels *)
      counter s = Z.of_nat n → pcs s !! i = Some p → is_last n p = true →
      (∀ j q, pcs s !! j = Some q → is_last n q = true → j = i) →
      done_set s = false → owed xs k →
      match p with Ending k' => k' ≤ k ∧ (steps is_lfull xs = 0 → k' = k) | _ => k = n_ends end%nat →
      steps is_lraise xs = 0%nat → phase n xs s
  | Closed :                      (* the event is set *)
      counter s = Z.of_nat n → (∀ i p, pcs s !! i = Some p → is_last n p = false) →
      done_set s = true → (∃ k, owed xs k ∧ (steps is_lfull xs = 0 → k = 0)%nat) →
      steps is_lraise xs = 0%nat → phase n xs s
  | Broken :                      (* it crashed on the way *)
      counter s = Z.of_nat n → (∀ i p, pcs s !! i = Some p → is_last n p = false) →
      done_set s = false → (∃ k, owed xs k) → (0 < steps is_lraise xs)%nat → phase n xs s.

(** What every schedule preserves. *)
Record consistent (n : nat) (xs : list (nat * label)) (s : stage_state) : Prop := {
  co_length : length (pcs s) = n;
  co_counter : counter s = Z.of_nat (how_many counted (pcs s));
  co_seen i f : pcs s !! i = Some (Counted f) → (f ≤ counter s)%Z;
  co_crash i : pcs s !! i = Some Crashed → (0 < steps is_lraise xs)%nat;
  co_phase : phase n xs s;
}.

Lemma consistent_initial held n : (held ≤ n)%nat → (0 < n)%nat → consistent n [] (initial held n).
Proof.
  intros Hh Hn.
  assert (∀ i p, pcs (initial held n) !! i = Some p → p = Held ∨ p = Working) as Hp.
  { intros i p [Hp|[_ Hp]]%lookup_app_Some; apply lookup_replicate in Hp as [-> _]; auto. }
  split.
  - simpl. rewrite length_app, !length_replicate. lia.
  - unfold initial at 1. simpl. rewrite how_many_none; [done|].
    intros i p Hi. by destruct (Hp i p Hi) as [-> | ->].
  - intros i f Hi. by destruct (Hp _ _ Hi).
  - intros i Hi. by destruct (Hp _ _ Hi).
  - apply Gathering; simpl; [lia| |done| |done].
    + intros i p Hi. by destruct (Hp i p Hi) as [-> | ->].
    + split; simpl; lia.
Qed.

(** Nobody who has yet to increment means that all have. *)
Lemma consistent_before n xs s i p :
  consistent n xs s → pcs s !! i = Some p → counted p = false → (counter s < Z.of_nat n)%Z.
Proof.
  intros [Hlen Hc _ _ _] Hi Hp. pose proof (how_many_le counted (pcs s)).
  assert (how_many counted (pcs s) ≠ length (pcs s)) as Hne; [|lia].
  intros He. pose proof (how_many_all _ _ _ _ He Hi). congruence.
Qed.

(** The pcs after a step by [i]. *)
Lemma moved (ps : list pc) i j p' q :
  <[i := p']> ps !! j = Some q → (j = i ∧ q = p') ∨ (j ≠ i ∧ ps !! j = Some q).
Proof. rewrite list_lookup_insert_Some. naive_solver. Qed.

Lemma moved_self (ps : list pc) i p p' : ps !! i = Some p → <[i := p']> ps !! i = Some p'.
Proof. intros Hi. apply list_lookup_insert_eq. by eapply lookup_lt_Some. Qed.

(** A step that leaves [is_last] false where it was leaves it false everywhere. *)
Lemma moved_not_last n (ps : list pc) i p' :
  (∀ j q, ps !! j = Some q → is_last n q = false) → is_last n p' = false →
  ∀ j q, <[i := p']> ps !! j = Some q → is_last n q = false.
Proof. intros Ha Hp' j q [[-> ->]|[_ Hq]]%moved; eauto. Qed.

(** Only a worker that found itself last can be in the middle of closing. *)
Lemma phase_of_last n xs s i p :
  phase n xs s → pcs s !! i = Some p → is_last n p = true →
  ∃ k, counter s = Z.of_nat n ∧ (∀ j q, pcs s !! j = Some q → is_last n q = true → j = i) ∧
    done_set s = false ∧ owed xs k ∧
    match p with Ending k' => k' ≤ k ∧ (steps is_lfull xs = 0 → k' = k) | _ => k = n_ends end%nat ∧
    steps is_lraise xs = 0%nat.
Proof.
  intros Hph Hi Hl. destruct Hph as [? Hno|i' p1 k ? Hi' ? Huniq|? Hno|? Hno];
    [by rewrite (Hno i p Hi) in Hl| |by rewrite (Hno i p Hi) in Hl..].
  pose proof (Huniq i p Hi Hl) as ->. simplify_eq. eauto 10.
Qed.

Lemma phase_of_uncounted n xs s i p :
  consistent n xs s → pcs s !! i = Some p → counted p = false →
  (counter s < Z.of_nat n)%Z ∧ (∀ i p, pcs s !! i = Some p → is_last n p = false) ∧
  done_set s = false ∧ owed xs n_ends ∧ steps is_lraise xs = 0%nat.
Proof.
  intros Hc Hi Hp. pose proof (consistent_before _ _ _ _ _ Hc Hi Hp).
  destruct (co_phase _ _ _ Hc); auto with lia; lia.
Qed.

(** The step of a worker that is not last, to a pc that is not last, moves no
    phase. *)
Lemma phase_still n xs s s' i p p' l :
  phase n xs s → pcs s !! i = Some p → is_last n p = false → is_last n p' = false →
  pcs s' = <[i := p']> (pcs s) → counter s' = counter s → done_set s' = done_set s →
  is_lend l = false → is_lfull l = false → is_lraise l = false →
  phase n (xs ++ [(i, l)]) s'.
Proof.
  intros Hph Hi Hp Hp' Hpcs Hc Hd He Hf Hr.
  assert (∀ k, owed xs k → owed (xs ++ [(i, l)]) k) as Ho.
  { intros k. unfold owed. rewrite !steps_snoc, He, Hf. rewrite !Nat.add_0_r. done. }
  assert (steps is_lfull (xs ++ [(i, l)]) = steps is_lfull xs) as Hf' by (rewrite steps_snoc, Hf; lia).
  assert (steps is_lraise (xs ++ [(i, l)]) = steps is_lraise xs) as Hr' by (rewrite steps_snoc, Hr; lia).
  destruct Hph as [? Hno|i' p1 k ? Hi' Hl1 Huniq|? Hno ? (k & ? & ?)|? Hno ? (k & ?)].
  - apply Gathering; rewrite ?Hpcs, ?Hc, ?Hd, ?Hr'; eauto using moved_not_last.
  - apply (Closing _ _ _ i' p1 k); rewrite ?Hpcs, ?Hc, ?Hd, ?Hr', ?Hf'; auto.
    + rewrite list_lookup_insert_ne; [done|]. intros ->. simplify_eq. congruence.
    + intros j q [[-> ->]|[_ Hq]]%moved Hl; [congruence|eauto].
  - apply Closed; rewrite ?Hpcs, ?Hc, ?Hd, ?Hr'; eauto using moved_not_last.
    exists k. rewrite Hf'. auto.
  - apply Broken; rewrite ?Hpcs, ?Hc, ?Hd, ?Hr'; eauto using moved_not_last.
Qed.

(** The steps of the last finisher. *)
Lemma phase_last n xs s s' i p p' l :
  phase n xs s → pcs s !! i = Some p → is_last n p = true →
  local_step n_ends p l = Some p' → reads_ok s l = true → length (pcs s) = n →
  pcs s' = <[i := p']> (pcs s) → counter s' = counter s →
  done_set s' = (match l with LDone => true | _ => done_set s end) →
  phase n (xs ++ [(i, l)]) s'.
Proof.
  intros Hph Hi Hl Hstep Hr Hlen Hpcs Hc Hd.
  destruct (phase_of_last _ _ _ _ _ Hph Hi Hl) as (k & Hcn & Huniq & Hds & Ho & Hk & Hraise).
  assert (∀ j q, <[i := p']> (pcs s) !! j = Some q → is_last n q = true → j = i) as Huniq'.
  { intros j q [[-> ->]|[_ Hq]]%moved; eauto. }
  assert (is_last n p' = false → ∀ j q, <[i := p']> (pcs s) !! j = Some q → is_last n q = false) as Hnone.
  { intros Hp' j q Hq. destruct (is_last n q) eqn:Hlq; [|done].
    pose proof (Huniq' j q Hq Hlq) as ->. rewrite (moved_self _ _ _ _ Hi) in Hq. congruence. }
  pose proof (moved_self _ _ _ p' Hi) as Hi'. unfold owed in *.
  destruct p as [| |f|[|k']| |]; destruct l; simplify_eq/=.
  - boolify. unfold count_of in *. destruct (Z.ltb_spec f count); [lia|].
    apply (Closing _ _ _ i (Ending n_ends) n_ends); rewrite ?Hpcs, ?Hc, ?Hd; auto;
      unfold owed; rewrite ?steps_snoc, ?Nat.add_0_r; auto.
  - specialize (Hnone eq_refl). apply Closed; rewrite ?Hpcs, ?Hc, ?Hd; auto.
    + exists k. unfold owed. rewrite !steps_snoc. simpl. rewrite !Nat.add_0_r.
      split; [done|]. intros Hz. destruct Hk as [_ Hk]. by rewrite (Hk Hz).
    + rewrite steps_snoc. simpl. lia.
  - apply (Closing _ _ _ i (Ending k') (k - 1)); rewrite ?Hpcs, ?Hc, ?Hd; auto;
      unfold owed; rewrite ?steps_snoc; simpl; rewrite ?Nat.add_0_r; lia.
  - apply (Closing _ _ _ i (Ending 0) k); rewrite ?Hpcs, ?Hc, ?Hd; auto;
      unfold owed; rewrite ?steps_snoc; simpl; lia.
  - specialize (Hnone eq_refl). apply Broken; rewrite ?Hpcs, ?Hc, ?Hd; auto;
      unfold owed; [exists k|]; rewrite ?steps_snoc; simpl; lia.
Qed.

(** A worker that increments, perhaps the last to do so. *)
Lemma phase_incr n xs s s' i f :
  consistent n xs s → pcs s !! i = Some Working → f = (counter s + 1)%Z →
  pcs s' = <[i := Counted f]> (pcs s) → counter s' = (counter s + 1)%Z → done_set s' = done_set s →
  phase n (xs ++ [(i, LIncr f)]) s'.
Proof.
  intros Hco Hi -> Hpcs Hc Hd.
  destruct (phase_of_uncounted _ _ _ _ _ Hco Hi eq_refl) as (Hlt & Hno & Hds & Ho & Hr).
  assert (owed (xs ++ [(i, LIncr (counter s + 1))]) n_ends) as Ho'.
  { unfold owed in *. rewrite !steps_snoc. simpl. lia. }
  assert (steps is_lraise (xs ++ [(i, LIncr (counter s + 1))]) = 0%nat) as Hr'.
  { rewrite steps_snoc. simpl. lia. }
  pose proof (moved_self _ _ _ (Counted (counter s + 1)) Hi) as Hi'.
  destruct (decide (counter s + 1 = Z.of_nat n)%Z).
  - apply (Closing _ _ _ i (Counted (counter s + 1)) n_ends); rewrite ?Hpcs, ?Hc, ?Hd; auto.
    + apply Z.leb_le. lia.
    + intros j q [[-> ->]|[_ Hq]]%moved Hl; [done|]. rewrite (Hno _ _ Hq) in Hl. done.
  - apply Gathering; rewrite ?Hpcs, ?Hc, ?Hd; auto; [lia|].
    apply moved_not_last; [done|]. apply Z.leb_gt. lia.
Qed.

Lemma consistent_step n xs s i l s' :
  consistent n xs s → fire n_ends s (i, l) = Some s' → consistent n (xs ++ [(i, l)]) s'.
Proof.
  intros Hco Hf.
  destruct (fire_inv _ _ _ _ _ Hf) as (p & p' & Hi & Hstep & Hr & Hpcs & Hc & Hd).
  pose proof Hco as [Hlen Hcn Hseen Hcrash Hph].
  split.
  - by rewrite Hpcs, length_insert.
  - pose proof (how_many_insert counted _ _ _ p' Hi) as Hm. rewrite Hpcs, Hc, Hcn.
    destruct p as [| | |[]| |], l; simplify_eq/=; repeat case_match; simplify_eq/=; lia.
  - intros j f. rewrite Hpcs. intros [[-> <-]|[_ Hq]]%moved; rewrite Hc.
    + destruct p as [| | |[]| |], l; simplify_eq/=; repeat case_match; simplify_eq/=; boolify; lia.
    + pose proof (Hseen _ _ Hq). destruct l; lia.
  - intros j. rewrite Hpcs, steps_snoc. intros [[-> <-]|[_ Hq]]%moved; [|pose proof (Hcrash _ Hq); lia].
    destruct p as [| | |[]| |], l; simplify_eq/=; repeat case_match; simplify_eq/=; lia.
  - assert (is_last n p = false → is_last n p' = false → counter s' = counter s → done_set s' = done_set s →
      is_lend l = false → is_lfull l = false → is_lraise l = false → phase n (xs ++ [(i, l)]) s') as Hstill.
    { intros; by eapply phase_still. }
    destruct (is_last n p) eqn:Hl.
    + eapply phase_last; eauto. destruct p as [| | |[]| |], l; simplify_eq/=; done.
    + destruct p as [| | |[]| |], l; simplify_eq/=; repeat case_match; simplify_eq/=; auto.
      * boolify. eapply phase_incr; eauto.
      * boolify. unfold count_of in *. lia.
Qed.

Lemma consistent_schedule n xs s ys s' :
  consistent n xs s → schedule n_ends s ys = Some s' → consistent n (xs ++ ys) s'.
Proof.
  revert xs s. induction ys as [|[i l] ys IH]; intros xs s Hco Hs; cbn -[fire] in Hs.
  - simplify_eq. by rewrite app_nil_r.
  - destruct (fire n_ends s (i, l)) as [s1|] eqn:Hf; [|done].
    rewrite cons_middle, app_assoc. eapply IH; [|done]. by eapply consistent_step.
Qed.

(** ** What follows the first sentinel *)

Definition is_lincr (l : label) : bool := match l with LIncr _ => true | _ => false end.
Definition is_lout (l : label) : bool := match l with LOut _ => true | _ => false end.
Definition is_lrelease (l : label) : bool := match l with LRelease => true | _ => false end.

(** A sentinel, or the event: the steps by which a stage ends. *)
Definition ends_stage (l : label) : bool := match l with LEnd | LDone => true | _ => false end.

Lemma schedule_split s xs x ys s' : schedule n_ends s (xs ++ x :: ys) = Some s' →
  ∃ s1 s2, schedule n_ends s xs = Some s1 ∧ fire n_ends s1 x = Some s2 ∧ schedule n_ends s2 ys = Some s'.
Proof.
  rewrite schedule_app. destruct (schedule n_ends s xs) as [s1|]; [|done]. cbn -[fire].
  destruct (fire n_ends s1 x) as [s2|] eqn:Hf; [|done]. eauto.
Qed.

Lemma counter_schedule s xs s' : schedule n_ends s xs = Some s' →
  (counter s' = counter s + Z.of_nat (steps is_lincr xs))%Z.
Proof.
  revert s. induction xs as [|[i l] xs IH]; intros s Hs; cbn -[fire] in Hs; [injection Hs as <-; unfold steps; simpl; lia|].
  destruct (fire n_ends s (i, l)) as [s1|] eqn:Hf; [|done]. rewrite (IH _ Hs).
  destruct (fire_inv _ _ _ _ _ Hf) as (? & ? & _ & _ & _ & _ & Hc & _).
  rewrite steps_cons. destruct l; simpl; lia.
Qed.

(** When everybody has incremented, no new last finisher appears. *)
Lemma last_within (P : nat → Prop) n xs s ys s' :
  consistent n xs s → counter s = Z.of_nat n →
  (∀ j q, pcs s !! j = Some q → is_last n q = true → P j) →
  schedule n_ends s ys = Some s' →
  ∀ j q, pcs s' !! j = Some q → is_last n q = true → P j.
Proof.
  revert xs s. induction ys as [|[i l] ys IH]; intros xs s Hco Hc HP Hs; cbn -[fire] in Hs; [by simplify_eq|].
  destruct (fire n_ends s (i, l)) as [s1|] eqn:Hf; [|done].
  pose proof (consistent_step _ _ _ _ _ _ Hco Hf) as Hco1.
  destruct (fire_inv _ _ _ _ _ Hf) as (p & p' & Hi & Hstep & Hr & Hpcs & Hc1 & _).
  assert (counted p = true) as Hcp.
  { destruct (counted p) eqn:Hcp; [done|]. pose proof (consistent_before _ _ _ _ _ Hco Hi Hcp). lia. }
  eapply (IH _ s1); [done| | |done].
  - destruct l; [lia..| |lia|lia|lia|lia|lia]. by destruct p as [| | |[]| |].
  - intros j q. rewrite Hpcs. intros [[-> ->]|[_ Hq]]%moved Hl; [|eauto].
    apply (HP i p Hi). pose proof (co_length _ _ _ Hco). unfold count_of in *.
    destruct p as [| | |[]| |], l; simplify_eq/=; repeat case_match; simplify_eq/=; boolify; unfold count_of in *; lia.
Qed.

Lemma ends_stage_last n xs s i l s' :
  consistent n xs s → fire n_ends s (i, l) = Some s' → ends_stage l = true →
  ∃ p, pcs s !! i = Some p ∧ is_last n p = true.
Proof.
  intros _ Hf Hl. destruct (fire_inv _ _ _ _ _ Hf) as (p & p' & Hi & Hstep & _).
  exists p. split; [done|]. by destruct p as [| | |[]| |], l; simplify_eq/=.
Qed.

(** When everybody has incremented nobody emits. *)
Lemma no_out_after n xs s ys s' i m :
  consistent n xs s → counter s = Z.of_nat n → schedule n_ends s ys = Some s' → (i, LOut m) ∉ ys.
Proof.
  intros Hco Hc Hs (ys1 & ys2 & ->)%list_elem_of_split.
  destruct (schedule_split _ _ _ _ _ Hs) as (s1 & s2 & Hs1 & Hf & _).
  pose proof (consistent_schedule _ _ _ _ _ Hco Hs1) as Hco1.
  destruct (fire_inv _ _ _ _ _ Hf) as (p & p' & Hi & Hstep & _).
  pose proof (counter_schedule _ _ _ Hs1).
  assert (p = Working) as -> by (by destruct p as [| | |[]| |]).
  pose proof (consistent_before _ _ _ _ _ Hco1 Hi eq_refl). lia.
Qed.

Lemma ends_after_outputs n xs0 s0 xs i l ys s :
  consistent n xs0 s0 → ends_stage l = true →
  schedule n_ends s0 (xs ++ (i, l) :: ys) = Some s →
  (counter s0 + Z.of_nat (steps is_lincr xs) = Z.of_nat n)%Z ∧
  (∀ j m, (j, LOut m) ∉ ys) ∧
  (∀ j l', (j, l') ∈ ys → ends_stage l' = true → j = i ∧ is_lend l = true).
Proof.
  intros Hco Hl Hs. destruct (schedule_split _ _ _ _ _ Hs) as (s1 & s2 & Hs1 & Hf & Hs2).
  pose proof (consistent_schedule _ _ _ _ _ Hco Hs1) as Hco1.
  pose proof (consistent_step _ _ _ _ _ _ Hco1 Hf) as Hco2.
  destruct (ends_stage_last _ _ _ _ _ _ Hco1 Hf Hl) as (p & Hi & Hp).
  destruct (phase_of_last _ _ _ _ _ (co_phase _ _ _ Hco1) Hi Hp) as (k & Hc & Huniq & _).
  destruct (fire_inv _ _ _ _ _ Hf) as (p1 & p' & Hi1 & Hstep & _ & Hpcs & Hc2 & _). simplify_eq.
  assert (counter s2 = Z.of_nat n) as Hcn by (destruct l; simplify_eq/=; lia).
  split_and!.
  - rewrite <-(counter_schedule _ _ _ Hs1). done.
  - intros j m. by eapply no_out_after.
  - intros j l' (ys1 & ys2 & ->)%list_elem_of_split Hl'.
    destruct (schedule_split _ _ _ _ _ Hs2) as (s3 & s4 & Hs3 & Hf' & _).
    pose proof (consistent_schedule _ _ _ _ _ Hco2 Hs3) as Hco3.
    destruct (ends_stage_last _ _ _ _ _ _ Hco3 Hf' Hl') as (q & Hj & Hq).
    eapply (last_within (λ j, j = i ∧ is_lend l = true) n _ s2 ys1 s3); [done..| |done|done|done].
    intros j' q'. rewrite Hpcs. intros [[-> ->]|[Hne Hq']]%moved Hl2.
    + split; [done|]. by destruct p as [| | |[]| |], l; simplify_eq/=.
    + exfalso. by apply Hne, (Huniq j' q').
Qed.

Lemma sentinel_count n xs s :
  consistent n xs s →
  (steps is_lend xs ≤ n_ends)%nat ∧
  (done_set s = true → steps is_lfull xs = 0%nat → steps is_lend xs = n_ends).
Proof.
  intros [_ _ _ _ Hph].
  destruct Hph as [? ? Hd Ho|? ? ? ? ? ? ? Hd Ho|? ? ? (k & Ho & Hk)|? ? Hd (k & Ho)];
    unfold owed in Ho; (split; [lia|]); try congruence.
  intros _ Hf. destruct Ho as [_ Ho]. specialize (Ho Hf). specialize (Hk Hf). lia.
Qed.

(** ** Progress *)

(** The steps that bring the end of the stage nearer: not the user's outputs,
    nor a put that raises. *)
Definition ending_step (l : label) : bool := negb (is_lout l) && negb (is_lraise l).

Definition weight (p : pc) : nat :=
  match p with
  | Held => n_ends + 5
  | Working => n_ends + 4
  | Counted _ => n_ends + 3
  | Ending k => k + 1
  | Parked | Crashed => 0
  end.

(** How many steps a stage is from its end. *)
Definition distance (s : stage_state) : nat := sum_list (map weight (pcs s)).

Lemma distance_insert (ps : list pc) i p p' : ps !! i = Some p →
  (sum_list (map weight (<[i := p']> ps)) + weight p = sum_list (map weight ps) + weight p')%nat.
Proof.
  revert i. induction ps as [|q ps IH]; intros [|i] Hi; simplify_eq/=; [lia|]. specialize (IH i Hi). lia.
Qed.

Lemma distance_fire s i l s' : fire n_ends s (i, l) = Some s' → ending_step l = true →
  (distance s' < distance s)%nat.
Proof.
  intros Hf Hl. destruct (fire_inv _ _ _ _ _ Hf) as (p & p' & Hi & Hstep & _ & Hpcs & _).
  pose proof (distance_insert _ _ _ p' Hi) as Hd. unfold distance. rewrite Hpcs.
  destruct p as [| | |[]| |], l; simplify_eq/=; repeat case_match; simplify_eq/=; lia.
Qed.

Lemma distance_schedule s ys s' : schedule n_ends s ys = Some s' →
  Forall (λ x, ending_step x.2 = true) ys → (length ys + distance s' ≤ distance s)%nat.
Proof.
  revert s. induction ys as [|[i l] ys IH]; intros s Hs Ha; cbn -[fire] in Hs; [by simplify_eq|].
  destruct (fire n_ends s (i, l)) as [s1|] eqn:Hf; [|done]. inversion Ha; subst.
  pose proof (distance_fire _ _ _ _ Hf). specialize (IH _ Hs). simpl. intuition lia.
Qed.

Definition holding (p : pc) : bool := match p with Held => true | _ => false end.

Lemma holding_schedule s ys s' : schedule n_ends s ys = Some s' →
  (how_many holding (pcs s') ≤ how_many holding (pcs s))%nat.
Proof.
  revert s. induction ys as [|[i l] ys IH]; intros s Hs; cbn -[fire] in Hs; [by simplify_eq|].
  destruct (fire n_ends s (i, l)) as [s1|] eqn:Hf; [|done].
  destruct (fire_inv _ _ _ _ _ Hf) as (p & p' & Hi & Hstep & _ & Hpcs & _).
  specialize (IH _ Hs). pose proof (how_many_insert holding _ _ _ p' Hi) as Hm. rewrite <-Hpcs in Hm.
  assert (holding p' = false) as Hp' by (destruct p as [| | |[]| |], l; simplify_eq/=; repeat case_match; simplify_eq/=; done).
  rewrite Hp' in Hm. destruct (holding p); lia.
Qed.

(** A worker that is neither held nor done can take a step. *)
Definition stalled (p : pc) : bool :=
  match p with Held | Parked | Crashed => true | _ => false end.

Lemma can_step s i p : pcs s !! i = Some p → stalled p = false →
  ∃ l s', ending_step l = true ∧ fire n_ends s (i, l) = Some s'.
Proof.
  intros Hi Hp.
  assert (∃ l p', ending_step l = true ∧ reads_ok s l = true ∧ local_step n_ends p l = Some p') as (l & p' & Hl & Hr & Hs).
  { destruct p as [| |f|[|k]| |]; try done.
    - exists (LIncr (counter s + 1)). simpl. rewrite Z.eqb_refl. eauto.
    - exists (LCount (count_of s)). simpl. rewrite Z.eqb_refl. eauto.
    - exists LDone. simpl. eauto.
    - exists LEnd. simpl. eauto. }
  exists l. eexists. split; [done|]. cbn -[local_step reads_ok]. rewrite Hi, Hr, Hs. done.
Qed.

(** The workers are held or have incremented, when none can step. *)
Lemma counted_or_held (ps : list pc) :
  (∀ i p, ps !! i = Some p → p = Held ∨ p = Parked) →
  (how_many counted ps + how_many holding ps = length ps)%nat.
Proof.
  unfold how_many. induction ps as [|q ps IH]; intros Hp; [done|].
  assert ((length (filter (λ p, counted p = true) ps) + length (filter (λ p, holding p = true) ps) = length ps)%nat) as IH'.
  { apply IH. intros i. apply (Hp (S i)). }
  rewrite !filter_cons. destruct (Hp 0%nat q eq_refl) as [-> | ->]; simpl; lia.
Qed.

Lemma last_held_gives_up n xs s i :
  consistent n xs s → (∀ i p, pcs s !! i = Some p → p = Held ∨ p = Parked) →
  how_many holding (pcs s) = 1%nat → pcs s !! i = Some Held →
  ∃ s', fire n_ends s (i, LGiveUp (counter s) (count_of s)) = Some s'.
Proof.
  intros Hco Hp Hh Hi. pose proof (counted_or_held _ Hp) as Hsum.
  pose proof (co_counter _ _ _ Hco) as Hc. pose proof (co_length _ _ _ Hco) as Hl.
  eexists. simpl. rewrite Hi, !Z.eqb_refl. simpl.
  replace (count_of s - 1 <=? counter s)%Z with true; [done|]. symmetry. apply Z.leb_le. unfold count_of. lia.
Qed.

(** Where no step is left, the stage is over. *)
Lemma stuck_is_over n xs s :
  consistent n xs s → steps is_lraise xs = 0%nat → (how_many holding (pcs s) ≤ 1)%nat →
  (∀ i l, ending_step l = true → fire n_ends s (i, l) = None) →
  done_set s = true ∧ ∀ i p, pcs s !! i = Some p → p = Parked.
Proof.
  intros Hco Hr Hh Hstuck.
  assert (∀ i p, pcs s !! i = Some p → p = Held ∨ p = Parked) as Hp.
  { intros i p Hi. destruct (stalled p) eqn:Hd.
    - destruct p; auto; try done. pose proof (co_crash _ _ _ Hco _ Hi). lia.
    - destruct (can_step s i p Hi Hd) as (l & s' & Hl & Hf). by rewrite (Hstuck i l Hl) in Hf. }
  assert (∀ i, pcs s !! i ≠ Some Held) as Hnh.
  { intros i Hi. assert (how_many holding (pcs s) = 1%nat) as H1.
    { pose proof (how_many_insert holding _ _ _ Parked Hi) as Hm. simpl in Hm. lia. }
    destruct (last_held_gives_up _ _ _ _ Hco Hp H1 Hi) as (s' & Hf). by rewrite Hstuck in Hf. }
  assert (∀ i p, pcs s !! i = Some p → p = Parked) as Hpk.
  { intros i p Hi. destruct (Hp i p Hi) as [-> | ->]; [|done]. by destruct (Hnh i). }
  split; [|done]. pose proof (counted_or_held _ Hp) as Hsum.
  assert (how_many holding (pcs s) = 0%nat) as H0.
  { apply how_many_none. intros i p Hi. by rewrite (Hpk _ _ Hi). }
  pose proof (co_counter _ _ _ Hco). pose proof (co_length _ _ _ Hco).
  destruct (co_phase _ _ _ Hco) as [? |i p k ? Hi Hl|? ? Hd|]; [lia| |done|lia].
  rewrite (Hpk i p Hi) in Hl. done.
Qed.

(** ** Several held workers *)

(** Counted and held are different workers. *)
Lemma counted_holding (ps : list pc) : (how_many counted ps + how_many holding ps ≤ length ps)%nat.
Proof.
  unfold how_many. induction ps as [|q ps IH]; [done|]. rewrite !filter_cons. destruct q; simpl; lia.
Qed.

(** While two are held none of them gives up, whatever the others do. *)
Lemma held_stay held n xs s :
  (2 ≤ held ≤ n)%nat → schedule n_ends (initial held n) xs = Some s → steps is_lrelease xs = 0%nat →
  how_many holding (pcs s) = held ∧ consistent n xs s.
Proof.
  intros Hheld. revert s. induction xs as [|[i l] xs IH] using rev_ind; intros s Hs Hr.
  - injection Hs as <-. split; [|apply consistent_initial; lia].
    unfold initial, how_many. simpl. rewrite filter_app, length_app, filter_all, (filter_none _ (replicate (n - held) _)).
    + rewrite length_replicate. simpl. lia.
    + by apply Forall_replicate.
    + by apply Forall_replicate.
  - rewrite steps_snoc in Hr. destruct (schedule_split _ _ _ _ _ Hs) as (s1 & s2 & Hs1 & Hf & Hs2).
    injection Hs2 as ->. destruct (IH s1 Hs1) as [Hh Hco]; [lia|].
    split; [|by eapply consistent_step].
    destruct (fire_inv _ _ _ _ _ Hf) as (p & p' & Hi & Hstep & Hrd & Hpcs & _).
    pose proof (how_many_insert holding _ _ _ p' Hi) as Hm. rewrite <-Hpcs in Hm.
    pose proof (counted_holding (pcs s1)). pose proof (co_counter _ _ _ Hco). pose proof (co_length _ _ _ Hco).
    destruct p as [| | |[]| |], l; simplify_eq/=; repeat case_match; simplify_eq/=; try lia.
    boolify. unfold count_of in *. lia.
Qed.
End protocol.

(** ** The code of one worker is a run of the local machine *)

Lemma run_ends n k m : (m ≤ k)%nat →
  local_run n (Ending k) (replicate m LEnd) = Some (Ending (k - m)).
Proof.
  revert k. induction m as [|m IH]; intros k Hm; simpl; [by rewrite Nat.sub_0_r|].
  destruct k as [|k]; [lia|]. simpl. rewrite IH by lia. done.
Qed.

Lemma run_app n p ls ls' :
  local_run n p (ls ++ ls') = match local_run n p ls with Some p => local_run n p ls' | None => None end.
Proof. revert p. induction ls as [|l ls IH]; intros p; simpl; [done|]. by destruct (local_step n p l). Qed.

Lemma actions_ends m : concat (map actions (replicate m LEnd)) = replicate m (PutOut (Bare End)).
Proof. induction m; simpl; by f_equal. Qed.

(** The sentinels the code of the last worker puts. *)
Definition sentinels (cfg : config) : nat := if has_out cfg then n_ends cfg else 0%nat.

(** [c] from [s] does what the local machine does from [Working]: it ends
    with a labelled run, [first] being what it reads, whose actions are what [c]
    adds to the trace. *)
Definition simulates {U X} (n : nat) (first : list label) (s s' : world U * locals) (r : res X) : Prop :=
  ∃ ls p, local_run n Working (first ++ ls) = Some p ∧
    trace s'.1 = trace s.1 ++ concat (map actions (first ++ ls)) ∧
    p = match r with Ok _ => Parked | _ => Crashed end.

Section code.
Context `{ObjOps} {U : Type} (env : environment) (cfg : config).
Local Abbreviation WL := (world U * locals)%type.
#[local] Instance stage_end_runtime : Runtime (world U) := world_runtime env.

Lemma simulates_finish (s : WL) :
  has_counters cfg = true →
  wp (_finish_worker env cfg)
     (λ r s', simulates (sentinels cfg)
        [LIncr (e_finished env (S (tick s.1))); LCount (e_count env (S (S (tick s.1))))] s s' r) s.
Proof.
  intros Hcnt. destruct s as [w l]. unfold _finish_worker, simulates. rewrite Hcnt. simpl.
  apply wp_bind. unfold wp at 1. simpl. apply wp_bind, wp_look. simpl. apply wp_bind, wp_look. simpl.
  set (t1 := S (tick w)).
  destruct (e_finished env t1 <? e_count env (S t1))%Z; simpl.
  { apply wp_ret. exists [], Parked. simpl. done. }
  apply wp_bind.
  assert (∀ ls (w' : world U), local_run (sentinels cfg) (Ending (sentinels cfg)) ls = Some (Ending 0) →
    trace w' = (trace w ++ [Finished]) ++ concat (map actions ls) →
    wp (in_world (act SetDone)) (λ r (s' : WL), ∃ ls p,
        local_run (sentinels cfg) (Ending (sentinels cfg)) ls = Some p ∧
        trace s'.1 = trace w ++ Finished :: concat (map actions ls) ∧
        p = match r with Ok _ => Parked | _ => Crashed end) (w', l)) as Hend.
  { intros ls w' Hrun Ht. unfold wp. simpl. exists (ls ++ [LDone]), Parked.
    rewrite run_app, Hrun. split_and!; [done| |done].
    rewrite Ht, map_app, concat_app, <-!app_assoc. done. }
  unfold sentinels in *. destruct (has_out cfg) eqn:Hout.
  2: { apply wp_ret, (Hend []); [done|]. simpl. by rewrite app_nil_r. }
  apply wp_try. eapply wp_mono; [apply put_ends_spec|].
  intros r [w2 l2] (Hl & _ & _ & k & Hk & Hall & Hlt & Ht). simpl in *. subst l2.
  rewrite <-actions_ends in Ht.
  destruct r as [[]|e|].
  - specialize (Hall eq_refl) as ->. eapply Hend; [|done]. rewrite run_ends by done. by rewrite Nat.sub_diag.
  - assert ((k < n_ends cfg)%nat) as Hk' by by apply Hlt.
    assert (∀ (r : res unit), r ≠ Ok tt → ∃ ls p,
        local_run (n_ends cfg) (Ending (n_ends cfg)) ls = Some p ∧
        trace w2 = trace w ++ Finished :: concat (map actions ls) ∧
        p = match r with Ok _ => Parked | _ => Crashed end) as Hcrash.
    { intros r Hr. exists (replicate k LEnd ++ [LRaise]), Crashed.
      rewrite run_app, run_ends by lia. destruct (n_ends cfg - k)%nat eqn:E; [lia|].
      split_and!; [done| |by destruct r as [[]| |]].
      rewrite Ht, map_app, concat_app, <-app_assoc. simpl. by rewrite app_nil_r. }
    destruct e; try (by apply (Hcrash Spin)).
    apply wp_ret, (Hend (replicate k LEnd ++ [LFull])).
    + rewrite run_app, run_ends by lia. by destruct (n_ends cfg - k)%nat eqn:E; [lia|].
    + rewrite Ht, map_app, concat_app. simpl. by rewrite app_nil_r.
  - assert ((k < n_ends cfg)%nat) as Hk' by by apply Hlt.
    exists (replicate k LEnd ++ [LRaise]), Crashed.
    rewrite run_app, run_ends by lia. destruct (n_ends cfg - k)%nat eqn:E; [lia|].
    split_and!; [done| |done]. rewrite Ht, map_app, concat_app, <-app_assoc. simpl. by rewrite app_nil_r.
Qed.
End code.

(** ** The properties *)



(** two held workers wait for each other. While two or more workers of a
    stage are held and no hold is lifted, none of them leaves, no sentinel is
    put and the stage-done event is not set, although upstream is done and
    every other worker has finished: each waits for all but itself. *)
Theorem held_workers_never_end n held k xs s :
  (2 ≤ held ≤ k)%nat →
  schedule n (initial held k) xs = Some s → steps is_lrelease xs = 0%nat →
  how_many holding (pcs s) = held ∧ done_set s = false ∧ steps is_lend xs = 0%nat.
Proof.
  intros Hh Hs Hr. destruct (held_stay _ _ _ _ _ Hh Hs Hr) as [Hhold Hco].
  split; [done|]. pose proof (counted_holding (pcs s)). pose proof (co_counter _ _ _ _ Hco).
  pose proof (co_length _ _ _ _ Hco).
  destruct (co_phase _ _ _ _ Hco) as [? _ Hd [Ho _]| | |]; [|lia..].
  split; [done|]. simpl in Ho. lia.
Qed.

(** C6: [_finish_worker] is a run of the protocol. For every environment, what
    [_finish_worker] adds to the worker's trace are the actions of a run of the
    local machine from [Working], whose first two steps read what the code
    read from the counter and the number of workers; the run ends [Parked]
    when the code returns and [Crashed] when it raises. *)
Theorem finish_worker_simulated {U} (env : environment) (cfg : config) (s : world U * locals) :
  has_counters cfg = true →
  let '(r, s') := _finish_worker env cfg s in
  simulates (sentinels cfg)
    [LIncr (e_finished env (S (tick s.1))); LCount (e_count env (S (S (tick s.1))))] s s' r.
Proof.
  intros Hc. pose proof (simulates_finish env cfg s Hc) as Hs. unfold wp in Hs.
  by destruct (_finish_worker env cfg s).
Qed.

(** ** A stage of two workers *)

Module EndDemo.
(** Both emit and count themselves; the second one finds itself last. *)
Definition until : list (nat * label) :=
  [(1%nat, LOut (Bare (PyNum 7))); (0%nat, LIncr 1); (1%nat, LIncr 2); (0%nat, LCount 2); (1%nat, LCount 2)].
Definition after : list (nat * label) := [(1%nat, LEnd); (1%nat, LDone)].

Definition closing : stage_state := StageState [Parked; Ending 2] 2 false.
Definition over : stage_state := StageState [Parked; Parked] 2 true.
End EndDemo.



Lemma held_workers_never_end_witness :
  how_many holding [Held; Held; Parked] = 2%nat ∧ false = false ∧
  steps is_lend [(2%nat, LIncr 1); (2%nat, LCount 3)] = 0%nat.
Proof.
  assert (schedule 1 (initial 2 3) [(2%nat, LIncr 1); (2%nat, LCount 3)] =
          Some (StageState [Held; Held; Parked] 1 false)) as Hs by (vm_compute; reflexivity).
  pose proof (held_workers_never_end 1 2 3 [(2%nat, LIncr 1); (2%nat, LCount 3)]
    (StageState [Held; Held; Parked] 1 false)) as H.
  apply H; [lia|exact Hs|reflexivity].
Defined.

Lemma finish_worker_simulated_witness :
  let '(r, s') := _finish_worker ExitDemo.env (Demo.cfg 0) ExitDemo.start in
  simulates (sentinels (Demo.cfg 0)) [LIncr 1; LCount 1] ExitDemo.start s' r.
Proof.
  assert (has_counters (Demo.cfg 0) = true) as Hc by reflexivity.
  pose proof (finish_worker_simulated ExitDemo.env (Demo.cfg 0) ExitDemo.start Hc) as H.
  exact H.
Defined.

(** A worker that crashes after it has counted itself (in the release of its
    GPU, or parked) is restarted and counts itself again: of two workers the
    stage is then declared over by one of them, and the other's item follows
    the [End]. *)
Example respawned_counts_twice :
  ∃ s1 s2,
    schedule 1 (initial 0 2) [(0%nat, LIncr 1); (0%nat, LCount 2)] = Some s1 ∧
    schedule 1 (respawn 0 s1)
      [(0%nat, LIncr 2); (0%nat, LCount 2); (0%nat, LEnd); (0%nat, LDone); (1%nat, LOut (Bare (PyNum 7)))]
      = Some s2 ∧
    done_set s2 = true ∧ pcs s2 !! 1%nat = Some Working.
Proof. do 2 eexists. split_and!; vm_compute; reflexivity. Qed.
