(* ===== verification/Iterate.v ===== *)
(** * The consumer loop (pipe.py: Pipe.__iter__, Pipe.run)

    The consumer reads the final queue in the process of the pipeline, restarts
    the pipeline when a worker asks for it, and stops it when the final stage
    is done. It reads the shared objects while workers act on them: what it
    reads is a parameter, a function of the tick. *)
From S2P Require Import Prelude Types Text Queues Channels Placement Jobs Lifecycle WorkerIds Shutdown.

(** What the consumer reads: [should_stop.value]; the answer of a [get] on a
    queue; whether the workers of the present run have set an event; and the
    world [_stop] and [restart] act on. *)
Record surface := Surface {
  f_should_stop : nat → Z;
  f_get : nat → nat → res msg;
  f_done : nat → nat → bool;
  f_outside : nat → outside;
}.

(** The consumer's process: the pipeline, what was done to the outside, the
    messages taken and the items yielded. *)
Record view := View {
  v_tick : nat;
  v_host : host;
  v_received : list msg;
  v_yielded : list py;
}.

(** The local variables: [final_done], [consecutive_empty], and the queue of
    [out_ch]. *)
Record iter_locals := IterLocals {
  i_final_done : nat;
  i_empty : Z;
  i_queue : nat;
}.

Section iterate.
Context (cfg : settings) (env : surroundings) (sf : surface).
Local Abbreviation P X := (prog view X).
Local Abbreviation C X := (prog (view * in_buf) X).

Definition EMPTY_THRESHOLD : Z := 5.

Definition at_tick {X} (f : nat → X) : P X := λ v,
  (Ok (f (v_tick v)), View (S (v_tick v)) (v_host v) (v_received v) (v_yielded v)).
Definition pipe_of (v : view) : pipe := (v_host v).1.
Definition on_host {X} (c : prog host X) : P X :=
  zoom v_host (λ h v, View (v_tick v) h (v_received v) (v_yielded v)) c.
Definition yield (x : py) : P unit := λ v,
  (Ok tt, View (v_tick v) (v_host v) (v_received v) (v_yielded v ++ [x])).

(** [self.queues[-1]] and [self.stage_done_events[-1]]. *)
Definition last_of (f : pipe → list nat) : P nat := λ v,
  match last (f (pipe_of v)) with
  | Some x => (Ok x, v)
  | None => (Raise IndexError, v)
  end.

(** [event.is_set()]: workers of the present run may have set one of its
    events; an event of an earlier run has no worker left that knows it. *)
Definition event_is_set (e : nat) : P bool := λ v,
  (Ok (event_set (pipe_of v) e ||
       (bool_decide (e ∈ p_done_events (pipe_of v)) && f_done sf (v_tick v) e)),
   View (S (v_tick v)) (v_host v) (v_received v) (v_yielded v)).

(** The final queue [q] as the consumer sees it; it only takes from it. *)
Definition final_get (q : nat) : P msg := λ v,
  let r := f_get sf (v_tick v) q in
  (r, View (S (v_tick v)) (v_host v) (v_received v ++ got_list r) (v_yielded v)).
Definition final_queue (q : nat) : queue view msg := {|
  q_put _ _ := raise Full;
  q_put_nowait _ := raise Full;
  q_get _ := final_get q;
  q_get_nowait := final_get q;
  q_encode := None;
  q_sent _ := [];
  q_recv := v_received;
|}.

(** [_stop(force)] and [restart()] of the pipeline at hand. *)
Definition stop_pipe (force : bool) : P unit :=
  let! o := at_tick (f_outside sf) in on_host (_stop o force).
Definition restart_pipe : P unit :=
  let! o := at_tick (f_outside sf) in on_host (restart cfg env o).

(** After a restart the channel is rebuilt; [final_done] is not read again. *)
Definition rebuild (l : iter_locals) : C (iter_locals + unit) :=
  lift restart_pipe ;!
  let! q := lift (last_of p_queues) in
  put_obj new_in_buf ;!
  ret (inl (IterLocals (i_final_done l) 0 q)).

(** [out_ch.get(timeout=0.1)], then the item is yielded unless it is an
    [End]. *)
Definition take_item (l : iter_locals) : C (iter_locals + unit) :=
  let! item := ic_get (final_queue (i_queue l)) (Some (millis 100)) in
  (if _is_end item then ret tt else lift (yield item)) ;!
  ret (inl (IterLocals (i_final_done l) 0 (i_queue l))).

Definition on_empty (l : iter_locals) : C (iter_locals + unit) :=
  let n := (i_empty l + 1)%Z in
  let! done := lift (event_is_set (i_final_done l)) in
  if done && (EMPTY_THRESHOLD <=? n)%Z then lift (stop_pipe false) ;! ret (inr tt)
  else ret (inl (IterLocals (i_final_done l) n (i_queue l))).

(** A turn of the [while True]. *)
Definition iter_turn (l : iter_locals) : C (iter_locals + unit) :=
  let! s := lift (at_tick (f_should_stop sf)) in
  if (s =? 2)%Z then rebuild l
  else
    try_except (take_item l)
      (λ e, match e with
            | Empty => on_empty l
            | KeyboardInterrupt => lift (stop_pipe true) ;! ret (inr tt)
            | e => if is_connection_error e then rebuild l else raise e
            end).

Definition start_pipe : P unit :=
  on_host (λ '(p, log), let '(r, p') := start cfg env p in (r, (p', log))).

(** [__iter__] of a parallel pipeline. *)
Definition __iter__ (turns : nat) : C unit :=
  let! started := lift (λ v, (Ok (p_started (pipe_of v)), v)) in
  (if started : bool then ret tt else lift start_pipe) ;!
  let! final_done := lift (last_of p_done_events) in
  let! q := lift (last_of p_queues) in
  put_obj new_in_buf ;!
  loop turns iter_turn (IterLocals final_done 0 q).

(** [run()]: the number of items yielded. *)
Definition run (turns : nat) : C Z :=
  let! before := lift (λ v, (Ok (length (v_yielded v)), v)) in
  __iter__ turns ;!
  lift (λ v, (Ok (Z.of_nat (length (v_yielded v) - before)), v)).

(** The first Ctrl+C starts a drain; the message counts the items in flight. *)
Definition in_flight (qsize : nat → Z) (p : pipe) : Z :=
  foldl (λ n qj, n + qsize qj.1 * Z.max 1 (default 0 (j_chunk_eff qj.2)))%Z 0%Z
    (zip (p_queues p) (p_jobs p)).
Definition drain_on_sigint (p : pipe) : pipe := set_drain_event true p.
End iterate.

(** ** What a turn does *)

(** From [v] with [buf] buffered, [ms] came and everything but [rest] was
    yielded. *)
Definition delivers (v : view) (buf : list py) (v' : view) (b' : in_buf) (rest : list py) : Prop :=
  ∃ ms, v_received v' = v_received v ++ ms ∧ b' = Deque rest ∧
    v_yielded v' ++ live rest = v_yielded v ++ live (buf ++ carried ms).

Lemma delivers_refl v buf : delivers v buf v (Deque buf) buf.
Proof. exists []. by rewrite !app_nil_r. Qed.

Lemma delivers_trans v buf v1 b1 l1 v2 b2 l2 :
  delivers v buf v1 b1 l1 → delivers v1 l1 v2 b2 l2 → delivers v buf v2 b2 l2.
Proof.
  intros (ms1 & Hr1 & _ & Hy1) (ms2 & Hr2 & -> & Hy2). exists (ms1 ++ ms2).
  split_and!; [by rewrite Hr2, Hr1, app_assoc|done|].
  by rewrite Hy2, (live_app l1), app_assoc, Hy1, <-app_assoc, <-live_app, carried_app, app_assoc.
Qed.

Section turns.
Context (cfg : settings) (env : surroundings) (sf : surface).

(** The observation that a step leaves alone when it neither takes nor
    yields. *)
Definition seen (s : view * in_buf) : list msg * list py * in_buf :=
  (v_received s.1, v_yielded s.1, s.2).

Lemma seen_delivers v buf s : seen s = seen (v, Deque buf) → delivers v buf s.1 s.2 buf.
Proof. destruct s as [v' b']. unfold seen. simpl. intros [= Hr Hy ->]. exists []. by rewrite Hr, Hy, !app_nil_r. Qed.

Lemma final_gets q : gets (final_queue sf q) (final_get sf q).
Proof. intros v. done. Qed.

Lemma stop_pipe_keeps force : keeps seen (lift (stop_pipe sf force)).
Proof. intros [v b]. unfold lift, stop_pipe, bind, on_host, zoom. simpl. by destruct (_stop _ _ _). Qed.
Lemma start_pipe_keeps : keeps seen (lift (start_pipe cfg env)).
Proof.
  intros [v b]. unfold lift, start_pipe, on_host, zoom. simpl.
  destruct (v_host v) as [p log]. by destruct (start cfg env p).
Qed.
Lemma last_of_keeps f : keeps seen (lift (last_of f)).
Proof. intros [v b]. unfold lift, last_of. by destruct (last _). Qed.

(** [get] yields nothing, leaves the pipeline alone, and raises what the
    queue raises, or [IndexError] for an empty chunk. *)
Lemma ic_get_yields q t v buf :
  let '(r, s) := ic_get (final_queue sf q) t (v, Deque buf) in
  v_yielded s.1 = v_yielded v ∧ v_host s.1 = v_host v ∧
  ∀ e, r = Raise e → f_get sf (v_tick v) q = Raise e ∨ e = IndexError.
Proof.
  unfold ic_get, ic_receive, bind, get_obj, lift, buf_popleft, bind, put_obj. simpl.
  destruct buf as [|x buf]; simpl; [|done].
  destruct (f_get sf (v_tick v) q) as [[x|[|x items]]|e|]; simpl; split_and!; try done.
  - intros e [= ->]. by right.
  - intros e' [= ->]. by left.
Qed.

(** Reading the next payload, and yielding it unless it is an [End]. *)
Lemma take_item_spec l v buf :
  wp (take_item sf l)
     (λ r s, match r with
             | Ok (inl l') => (∃ rest, delivers v buf s.1 s.2 rest) ∧ l' = IterLocals (i_final_done l) 0 (i_queue l)
             | Ok (inr _) => False
             | Raise e => delivers v buf s.1 s.2 [] ∧ buf = [] ∧
                          (f_get sf (v_tick v) (i_queue l) = Raise e ∨ e = IndexError)
             | Spin => delivers v buf s.1 s.2 [] ∧ buf = []
             end ∧ v_host s.1 = v_host v) (v, Deque buf).
Proof.
  unfold take_item. apply wp_bind. unfold wp at 1.
  pose proof (ic_receive_spec (final_queue sf (i_queue l)) _ v buf (final_gets (i_queue l))) as Hg.
  pose proof (ic_get_yields (i_queue l) (Some (millis 100)) v buf) as Hy.
  unfold wp in Hg.
  change (ic_receive (final_get sf (i_queue l))) with (ic_get (final_queue sf (i_queue l)) (Some (millis 100))) in Hg.
  destruct (ic_get _ _ (v, Deque buf)) as [r [v1 b1]]. simpl in *.
  destruct Hg as (_ & ms & rest & Hr & -> & Hv), Hy as (Hy & Hh & He).
  destruct r as [item|e|]; simpl.
  - apply wp_bind. unfold wp. destruct (_is_end item) eqn:E; simpl; (split; [|done]); (split; [|done]);
      exists rest, ms; (split_and!; [done|done|]); rewrite <-Hv; unfold live; simpl; rewrite filter_cons, E, Hy; simpl; [done|].
    by rewrite <-app_assoc.
  - destruct Hv as (-> & -> & Hc). split; [|done]. split_and!; [|done|auto]. exists ms. rewrite Hc, Hy. done.
  - destruct Hv as (-> & -> & Hc). split; [|done]. split; [|done]. exists ms. rewrite Hc, Hy. done.
Qed.

Lemma seen_bind {X Y} (c : prog (view * in_buf) X) (k : X → prog (view * in_buf) Y) :
  keeps seen c → (∀ x, keeps seen (k x)) → keeps seen (bind c k).
Proof. apply keeps_bind. Qed.

(** What a turn that does not restart leaves behind. *)
Definition turn_left (v : view) (buf : list py) (r : res (iter_locals + unit)) (s : view * in_buf) : Prop :=
  match r with
  | Ok (inl _) => ∃ rest, delivers v buf s.1 s.2 rest
  | Ok (inr _) => delivers v buf s.1 s.2 []
  | Raise _ | Spin => ∃ rest, delivers v buf s.1 s.2 rest
  end.

Lemma turn_left_seen v buf v1 c r s :
  delivers v buf v1 (Deque []) [] → keeps seen c → c (v1, Deque []) = (r, s) → turn_left v buf r s.
Proof.
  intros Hd Hk E. specialize (Hk (v1, Deque [])). rewrite E in Hk. simpl in Hk.
  pose proof (delivers_trans _ _ _ _ _ _ _ _ Hd (seen_delivers _ _ _ Hk)).
  unfold turn_left. destruct r as [[]|e|]; eauto.
Qed.

Lemma on_empty_keeps l : keeps seen (on_empty sf l).
Proof.
  unfold on_empty. apply seen_bind; [by intros [v b]|]. intros d. destruct (_ && _); [|done].
  apply seen_bind; [apply stop_pipe_keeps|done].
Qed.

Lemma iter_turn_spec l v buf :
  (∀ t, f_should_stop sf t ≠ 2%Z) →
  (∀ t q e, f_get sf t q = Raise e → is_connection_error e = false) →
  wp (iter_turn cfg env sf l) (turn_left v buf) (v, Deque buf).
Proof.
  intros Hstop Hconn. unfold iter_turn. apply wp_bind. unfold wp at 1. simpl.
  destruct (Z.eqb_spec (f_should_stop sf (v_tick v)) 2) as [E|_]; [by apply Hstop in E|].
  set (v1 := View _ _ _ _). assert (delivers v buf v1 (Deque buf) buf) as Hd1 by (by apply seen_delivers with (s := (v1, Deque buf))).
  apply wp_try. eapply wp_mono; [apply take_item_spec|]. intros r [v2 b2] [Hr _]. simpl in *.
  destruct r as [[l'|[]]|e|]; simpl; [|done| |].
  - destruct Hr as [[rest Hd] _]. exists rest. exact (delivers_trans _ _ _ _ _ _ _ _ Hd1 Hd).
  - destruct Hr as (Hd & -> & He). pose proof (delivers_trans _ _ _ _ _ _ _ _ Hd1 Hd) as Hd2.
    assert (b2 = Deque []) as -> by (by destruct Hd as (? & _ & ? & _)).
    assert (∀ c, keeps seen c → wp c (turn_left v []) (v2, Deque [])) as Hk.
    { intros c Hc. unfold wp. destruct (c (v2, Deque [])) as [r s] eqn:E. by eapply turn_left_seen. }
    assert (is_connection_error e = false) as Hce by (destruct He as [He| ->]; [by eapply Hconn|done]).
    destruct e; try done; apply Hk; simpl; try apply keeps_raise; [apply on_empty_keeps|].
    apply seen_bind; [apply stop_pipe_keeps|done].
  - destruct Hr as (Hd & ->). exists []. exact (delivers_trans _ _ _ _ _ _ _ _ Hd1 Hd).
Qed.

(** The loop, without restarts. *)
Lemma iter_loop_spec turns l v buf :
  (∀ t, f_should_stop sf t ≠ 2%Z) →
  (∀ t q e, f_get sf t q = Raise e → is_connection_error e = false) →
  wp (loop turns (iter_turn cfg env sf) l)
     (λ r s, ∃ rest, delivers v buf s.1 s.2 rest ∧ (r = Ok tt → rest = [])) (v, Deque buf).
Proof.
  intros Hstop Hconn. apply (wp_loop (λ _ s, ∃ rest, delivers v buf s.1 s.2 rest)).
  - exists buf. apply delivers_refl.
  - intros _ s (rest & Hd). by exists rest.
  - intros l1 [v1 b1] (rest & Hd). assert (b1 = Deque rest) as -> by (by destruct Hd as (? & _ & ? & _)).
    eapply wp_mono; [by apply iter_turn_spec|]. intros r s Hs. simpl in *.
    assert (∀ rest', delivers v1 rest s.1 s.2 rest' → delivers v buf s.1 s.2 rest') as Ht.
    { intros rest' Hd'. exact (delivers_trans _ _ _ _ _ _ _ _ Hd Hd'). }
    destruct r as [[l2|[]]|e|]; simpl in *.
    + destruct Hs as (rest' & Hd'). eauto.
    + eauto.
    + destruct Hs as (rest' & Hd'). exists rest'. by split; [auto|].
    + destruct Hs as (rest' & Hd'). exists rest'. by split; [auto|].
Qed.

(** *** When the final stage is done *)

(** The final event reads as set for ever. *)
Definition final_set (v : view) (e : nat) : Prop :=
  event_set (pipe_of v) e = true ∨ (e ∈ p_done_events (pipe_of v) ∧ ∀ t, f_done sf t e = true).

Definition calls_back (v : view) : Prop :=
  ∀ t, polite (f_outside sf t) ∧ not_current (f_outside sf t) (p_stats_thread (pipe_of v)) ∧
    not_current (f_outside sf t) (p_scavenger_thread (pipe_of v)).

Lemma stop_pipe_stops force v :
  calls_back v →
  ∃ v', stop_pipe sf force v = (Ok tt, v') ∧ stopped (pipe_of v) (pipe_of v') ∧ v_yielded v' = v_yielded v.
Proof.
  intros Hc. destruct (Hc (v_tick v)) as (Hpol & Hst & Hsc). unfold stop_pipe, bind, at_tick, on_host, zoom. simpl.
  unfold pipe_of in *. destruct (v_host v) as [p log] eqn:E. simpl in *.
  destruct (stop_spec (f_outside sf (v_tick v)) force p log Hpol Hst Hsc) as (_ & _ & p2 & l2 & _ & -> & _ & Hn & _).
  eexists. split; [done|]. split; [|done]. by apply stop_stopped.
Qed.

Definition iter_turns_left (l : iter_locals) (buf : list py) : nat :=
  match buf with [] => Nat.max 1 (Z.to_nat (5 - i_empty l)) | _ => length buf + 5 end.

(** A buffered item: it is yielded unless it is an [End]. *)
Lemma iter_turn_buffered l v x buf :
  f_should_stop sf (v_tick v) ≠ 2%Z →
  ∃ v', iter_turn cfg env sf l (v, Deque (x :: buf)) =
          (Ok (inl (IterLocals (i_final_done l) 0 (i_queue l))), (v', Deque buf)) ∧
    v_host v' = v_host v ∧ (v_tick v ≤ v_tick v')%nat ∧ v_yielded v' = v_yielded v ++ live [x].
Proof.
  intros Hs. unfold iter_turn, bind at 1. simpl. destruct (Z.eqb_spec (f_should_stop sf (v_tick v)) 2); [done|].
  unfold live. rewrite filter_cons. unfold try_except, take_item, ic_get, ic_receive, bind. simpl.
  destruct (_is_end x); simpl; eexists; split_and!; try done; simpl; try lia; by rewrite ?app_nil_r.
Qed.

(** Nothing buffered, nothing there. *)
Lemma iter_turn_empty l v :
  f_should_stop sf (v_tick v) ≠ 2%Z → f_get sf (S (v_tick v)) (i_queue l) = Raise Empty →
  ∃ v', iter_turn cfg env sf l (v, Deque []) = on_empty sf l (v', Deque []) ∧
    v_host v' = v_host v ∧ (v_tick v ≤ v_tick v')%nat ∧ v_yielded v' = v_yielded v.
Proof.
  intros Hs Hg. unfold iter_turn, bind at 1. simpl. destruct (Z.eqb_spec (f_should_stop sf (v_tick v)) 2); [done|].
  unfold try_except, take_item, ic_get, ic_receive. unfold bind at 1 2 3. simpl. rewrite Hg.
  eexists. split_and!; [done|done|simpl; lia|done].
Qed.

(** One message, not a chunk. *)
Lemma iter_turn_bare l v x :
  f_should_stop sf (v_tick v) ≠ 2%Z → f_get sf (S (v_tick v)) (i_queue l) = Ok (Bare x) →
  ∃ v', iter_turn cfg env sf l (v, Deque []) =
          (Ok (inl (IterLocals (i_final_done l) 0 (i_queue l))), (v', Deque [])) ∧ v_host v' = v_host v ∧
    (v_tick v ≤ v_tick v')%nat.
Proof.
  intros Hs Hg. unfold iter_turn, bind at 1. simpl. destruct (Z.eqb_spec (f_should_stop sf (v_tick v)) 2); [done|].
  unfold try_except, take_item, ic_get, ic_receive. unfold bind at 1 2 3. simpl. rewrite Hg. simpl.
  destruct (_is_end x); eexists; split_and!; try done; simpl; lia.
Qed.

Lemma calls_back_host v v' : v_host v' = v_host v → calls_back v → calls_back v'.
Proof. unfold calls_back, pipe_of. by intros ->. Qed.

Lemma iter_loop_ends turns l v buf :
  (∀ t, f_should_stop sf t ≠ 2%Z) → (∀ t q, f_get sf t q = Raise Empty) →
  final_set v (i_final_done l) → calls_back v → (0 ≤ i_empty l)%Z →
  (iter_turns_left l buf ≤ turns)%nat →
  ∃ v', loop turns (iter_turn cfg env sf) l (v, Deque buf) = (Ok tt, (v', Deque [])) ∧
    stopped (pipe_of v) (pipe_of v') ∧ v_yielded v' = v_yielded v ++ live buf.
Proof.
  intros Hstop Hget. revert l v buf. induction turns as [|turns IH]; intros l v buf Hset Hcb He Hturns.
  { unfold iter_turns_left in Hturns. destruct buf; simpl in Hturns; lia. }
  simpl. unfold bind at 1. destruct buf as [|x buf].
  - destruct (iter_turn_empty l v (Hstop _) (Hget _ _)) as (v1 & -> & Hh & _ & Hy).
    assert (pipe_of v1 = pipe_of v) as Hp by (unfold pipe_of; by rewrite Hh).
    unfold on_empty, bind at 1. simpl. rewrite Hp.
    replace (event_set (pipe_of v) (i_final_done l) || _) with true.
    2: { destruct Hset as [-> | [Hin Hd]]; [done|]. rewrite Hd, bool_decide_eq_true_2 by done. by rewrite orb_comm. }
    simpl. unfold EMPTY_THRESHOLD. destruct (Z.leb_spec 5 (i_empty l + 1)).
    + set (v2 := View _ _ _ _).
      destruct (stop_pipe_stops false v2) as (v3 & E & Hst & Hy3); [by apply (calls_back_host v)|].
      unfold bind, lift at 1. rewrite E. simpl. exists v3. split_and!; [done| |].
      * by replace (pipe_of v) with (pipe_of v2).
      * rewrite Hy3. simpl. by rewrite Hy, app_nil_r.
    + set (v2 := View _ _ _ _).
      destruct (IH (IterLocals (i_final_done l) (i_empty l + 1) (i_queue l)) v2 []) as (v3 & E & Hst & Hy3).
      * unfold final_set. replace (pipe_of v2) with (pipe_of v); done.
      * by apply (calls_back_host v).
      * simpl. lia.
      * unfold iter_turns_left in *. simpl in *. lia.
      * simpl. exists v3. rewrite E. split_and!; [done| |].
        -- by replace (pipe_of v) with (pipe_of v2).
        -- rewrite Hy3. simpl. by rewrite Hy.
  - destruct (iter_turn_buffered l v x buf (Hstop _)) as (v1 & -> & Hh & _ & Hy).
    assert (pipe_of v1 = pipe_of v) as Hp by (unfold pipe_of; by rewrite Hh).
    destruct (IH (IterLocals (i_final_done l) 0 (i_queue l)) v1 buf) as (v3 & E & Hst & Hy3).
    + unfold final_set. by rewrite Hp.
    + by apply (calls_back_host v).
    + simpl. lia.
    + unfold iter_turns_left in *. simpl in *. destruct buf; simpl in *; lia.
    + exists v3. rewrite E. split_and!; [done|by rewrite <-Hp|].
      rewrite Hy3, Hy, <-app_assoc. by rewrite <-live_app.
Qed.
End turns.

(** ** What a restart does to the events of the run before *)

(** From [p] to [p'] new objects were made and no old one was touched. *)
Definition grows (p p' : pipe) : Prop :=
  (p_next p ≤ p_next p')%nat ∧ ∀ x, (x < p_next p)%nat → p_heap p' !! x = p_heap p !! x.

#[export] Instance grows_preorder : PreOrder grows.
Proof.
  split; [by intros p|]. intros p1 p2 p3 [Hn1 Hh1] [Hn2 Hh2]. split; [lia|].
  intros x Hx. rewrite Hh2 by lia. auto.
Qed.

Lemma grows_alloc o p : grows p (alloc o p).2.
Proof. pose proof (frame_alloc o p) as Hf. split; [apply Hf|apply Hf]. Qed.

Lemma grows_frame p p' : frame p p' → grows p p'.
Proof. intros Hf. split; [apply Hf|apply Hf]. Qed.

(** Fields that are not objects do not matter. *)
Lemma grows_same p p1 p2 : p_heap p2 = p_heap p1 → p_next p2 = p_next p1 → grows p p1 → grows p p2.
Proof. unfold grows. by intros -> ->. Qed.

Lemma grows_then o (k : nat → pipe → pipe) p p1 :
  grows p p1 → (∀ x p2, grows p p2 → grows p (k x p2)) →
  grows p (let '(x, p2) := alloc o p1 in k x p2).
Proof.
  intros Hg Hk. pose proof (grows_alloc o p1) as Ha. destruct (alloc o p1) as [x p2].
  apply Hk. etransitivity; [exact Hg|exact Ha].
Qed.

Lemma make_shared_grows cfg env p : grows p (make_shared cfg env p).
Proof.
  unfold make_shared. destruct (p_manager p), (c_stats cfg), (r_has_store env); simpl;
    split; simpl; try lia; try done; intros x Hx; by rewrite ?lookup_insert_ne by lia.
Qed.

Lemma setup_stage_grows i p : grows p (setup_stage i p).
Proof.
  unfold setup_stage. destruct (p_jobs p !! i); [|done]. cbv zeta.
  apply grows_then; [by apply (grows_same p p)|]. intros q p1 H1.
  apply grows_then; [by apply (grows_same p p1)|]. intros counter p2 H2.
  apply grows_then; [by apply (grows_same p p2)|]. intros event p3 H3.
  apply grows_then; [by apply (grows_same p p3)|]. intros count p4 H4.
  by apply (grows_same p p4).
Qed.

Lemma setup_stages_grows p : grows p (setup_stages p).
Proof.
  unfold setup_stages. generalize (seq 0 (length (p_jobs p))). intros l.
  assert (∀ p1, grows p p1 → grows p (foldl (λ p i, setup_stage i p) p1 l)) as Hf; [|by apply Hf].
  induction l as [|i l IH]; intros p1 Hg; simpl; [done|]. apply IH. etransitivity; [exact Hg|apply setup_stage_grows].
Qed.

Lemma start_grows cfg env p p' :
  start cfg env p = (Ok tt, p') → grows p p'.
Proof.
  unfold start. simpl. destruct (p_jobs p); [done|]. set (p1 := root_stops (set_started true p)).
  assert (grows p p1) as H1.
  { apply (grows_same p p); [..|done]; unfold p1; by rewrite root_stops_keep. }
  destruct (check_drain false (p_jobs p1)); [|done..]. destruct (c_sequential cfg); [by intros [= <-]|].
  intros [= <-]. etransitivity; [exact H1|]. unfold launch. fold (prepared cfg env p1).
  assert (grows p1 (prepared cfg env p1)) as H2.
  { unfold prepared. eapply (grows_same _ (setup_stages (clear_sync (make_shared cfg env p1)))); [done..|].
    transitivity (make_shared cfg env p1); [apply make_shared_grows|].
    transitivity (clear_sync (make_shared cfg env p1)); [|apply setup_stages_grows].
    by apply (grows_same _ (make_shared cfg env p1)). }
  destruct (spawn_stages_spec env (prepared cfg env p1)) as (css & (Hf & _) & _).
  destruct (start_monitors_spawns cfg (spawn_stages env (prepared cfg env p1))) as (Hf' & _).
  transitivity (prepared cfg env p1); [exact H2|].
  transitivity (spawn_stages env (prepared cfg env p1)); by apply grows_frame.
Qed.

(** The pipeline can be restarted from where it is. *)
Record restartable (cfg : settings) (o : outside) (p : pipe) : Prop := {
  ra_polite : polite o;
  ra_stats : not_current o (p_stats_thread p);
  ra_scavenger : not_current o (p_scavenger_thread p);
  ra_jobs : p_jobs p ≠ [];
  ra_drain : check_drain false (p_jobs (root_stops p)) = Ok tt;
  ra_parallel : c_sequential cfg = false;
  ra_workers : Forall (λ j, 0 ≤ j_num_workers j)%Z (p_jobs p);
}.

(** A restart succeeds with new events, and clears the old ones for good: no
    object of the new run is one of them. *)
Lemma restart_events cfg env o p log :
  restartable cfg o p →
  ∃ p' log', restart cfg env o (p, log) = (Ok tt, (p', log')) ∧
    p_queues p' ≠ [] ∧
    ∀ e, e ∈ p_done_events p → (e < p_next p)%nat → event_set p' e = false ∧ e ∉ p_done_events p'.
Proof.
  intros [Hpol Hst Hsc Hne Hdr Hseq Hpos]. unfold restart, bind at 1. simpl. unfold bind at 1.
  destruct (stop_spec o true p log Hpol Hst Hsc) as (_ & _ & p2 & l2 & _ & -> & _ & Hn & _).
  pose proof (stop_stopped p p2 Hn) as Hs. revert Hs. generalize (reset_sync (forget_run p2)). intros p1 [Hidle Hjobs _ _ Hnx _ Hevs].
  assert (root_stops p1 = set_jobs (p_jobs (root_stops p)) p1) as Hr.
  { unfold root_stops. rewrite Hjobs. by destruct (p_jobs p). }
  pose proof (start_wires cfg env p1) as Hw. pose proof (start_grows cfg env p1) as Hg.
  unfold bind. destruct (start cfg env p1) as [r p'].
  destruct Hw as (-> & (Hq & _) & Hlen & _ & _ & _ & _ & Hfresh); [by rewrite Hjobs|by rewrite Hr|done|done|by rewrite Hjobs|].
  destruct (Hg p' eq_refl) as [_ Hheap].
  assert (∀ p3, p_heap p3 = p_heap p' → p_queues p3 = p_queues p' → p_done_events p3 = p_done_events p' →
    p_queues p3 ≠ [] ∧ ∀ e, e ∈ p_done_events p → (e < p_next p)%nat →
      event_set p3 e = false ∧ e ∉ p_done_events p3) as Hall.
  { intros p3 E1 E2 E3. rewrite E2, E3. split.
    - intros E. rewrite E, Hlen, Hjobs in Hq. by destruct (p_jobs p).
    - intros e He Hlt. split.
      + unfold event_set. rewrite E1, Hheap by (rewrite Hnx; lia). by apply Hevs.
      + intros Hin. assert (p_next p1 ≤ e)%nat by (apply Hfresh; rewrite !elem_of_app; auto). lia. }
  destruct (p_drain_event p); simpl; do 2 eexists; split; try done; by apply Hall.
Qed.

(** With its event out of everybody's reach the loop goes round for ever. *)
Lemma loop_later cfg env sf turns l v buf :
  (∀ t, v_tick v ≤ t → f_should_stop sf t ≠ 2%Z)%nat →
  (∀ t q, f_get sf t q = Raise Empty ∨ ∃ x, f_get sf t q = Ok (Bare x)) →
  event_set (pipe_of v) (i_final_done l) = false → i_final_done l ∉ p_done_events (pipe_of v) →
  (loop turns (iter_turn cfg env sf) l (v, Deque buf)).1 = Spin.
Proof.
  intros Hstop Hget Hev Hnin. set (h := v_host v). set (e := i_final_done l).
  assert (wp (loop turns (iter_turn cfg env sf) l) (λ r _, r = Spin) (v, Deque buf)) as Hw; [|exact Hw].
  apply (wp_loop (λ l s, i_final_done l = e ∧ v_host s.1 = h ∧ (v_tick v ≤ v_tick s.1)%nat ∧ ∃ b, s.2 = Deque b));
    [eauto|done|].
  clear buf. intros l1 [v1 b1] (He & Hh & Ht & buf & Hb). simpl in *. subst b1.
  assert (f_should_stop sf (v_tick v1) ≠ 2%Z) as Hs1 by (by apply Hstop).
  destruct buf as [|x buf].
  2: { destruct (iter_turn_buffered cfg env sf l1 v1 x buf Hs1) as (v2 & E & Hh2 & Ht2 & _).
    unfold wp. rewrite E. simpl. split_and!; [done|by rewrite Hh2|lia|eauto]. }
  destruct (Hget (S (v_tick v1)) (i_queue l1)) as [Hg|[x Hg]].
  - destruct (iter_turn_empty cfg env sf l1 v1 Hs1 Hg) as (v2 & E & Hh2 & Ht2 & _).
    assert (pipe_of v2 = pipe_of v) as Hp by (unfold pipe_of; by rewrite Hh2, Hh).
    unfold wp. rewrite E. unfold on_empty, bind. simpl. rewrite Hp, He. unfold e.
    rewrite Hev, bool_decide_eq_false_2 by done. simpl. rewrite Hh2. split_and!; [done|done|lia|eauto].
  - destruct (iter_turn_bare cfg env sf l1 v1 x Hs1 Hg) as (v2 & E & Hh2 & Ht2).
    unfold wp. rewrite E. simpl. split_and!; [done|by rewrite Hh2|lia|eauto].
Qed.

(** The messages an iteration took, and what it yielded of them. *)
Definition yielded_by (v : view) (r : res unit) (s : view * in_buf) : Prop :=
  ∃ ms, v_received s.1 = v_received v ++ ms ∧
    match r with
    | Ok _ => v_yielded s.1 = v_yielded v ++ live (carried ms) ∧ s.2 = Deque []
    | _ => v_yielded s.1 `prefix_of` v_yielded v ++ live (carried ms)
    end.

Lemma iter_yields (cfg : settings) (env : surroundings) (sf : surface) turns v b :
  (∀ t, f_should_stop sf t ≠ 2%Z) →
  (∀ t q e, f_get sf t q = Raise e → is_connection_error e = false) →
  wp (__iter__ cfg env sf turns) (yielded_by v) (v, b).
Proof.
  intros Hstop Hconn.
  assert (∀ s, seen s = seen (v, b) → ∀ r, r ≠ Ok tt → yielded_by v r s) as Hfail.
  { intros [v1 b1] [= Hr Hy _] r Hne. exists []. simpl. rewrite Hr, Hy, !app_nil_r.
    destruct r as [[]| |]; done. }
  unfold __iter__. apply (wp_bind_keeps seen); [by intros [v1 b1]|intros; split; [intros|]; by apply Hfail|].
  intros started s1 Hs1. apply (wp_bind_keeps seen).
  { destruct started; [done|apply start_pipe_keeps]. }
  { intros s2 Hs2. split; [intros|]; (apply Hfail; [by rewrite Hs2|done]). }
  intros [] s2 Hs2. apply (wp_bind_keeps seen); [apply last_of_keeps|..].
  { intros s3 Hs3. split; [intros|]; (apply Hfail; [by rewrite Hs3, Hs2|done]). }
  intros fd s3 Hs3. apply (wp_bind_keeps seen); [apply last_of_keeps|..].
  { intros s4 Hs4. split; [intros|]; (apply Hfail; [by rewrite Hs4, Hs3, Hs2|done]). }
  intros q [v4 b4] Hs4. apply wp_bind, wp_put_obj. unfold new_in_buf.
  eapply wp_mono; [by apply iter_loop_spec|]. intros r s (rest & (ms & Hr & Hb & Hy) & Hok). simpl in *.
  rewrite Hs3, Hs2, Hs1 in Hs4. injection Hs4 as Hr4 Hy4 _.
  exists ms. split; [by rewrite Hr, Hr4|]. rewrite Hy4 in Hy. destruct r as [[]| |].
  - rewrite (Hok eq_refl) in *. simpl in Hy. by rewrite app_nil_r in Hy.
  - rewrite <-Hy. by apply prefix_app_r.
  - rewrite <-Hy. by apply prefix_app_r.
Qed.

(** ** Properties *)

(** C8: the consumer gets what the final stage put, in order. As long as the
    pipeline is not restarted, iterating yields exactly the items of the
    messages it took off the final queue, in their order and without the [End]
    sentinels, with nothing left in the channel's buffer when the iteration
    ends; an iteration that is still going or has failed has yielded a prefix
    of that. *)
Theorem iter_yields_in_order (cfg : settings) (env : surroundings) (sf : surface) (turns : nat)
    (v : view) (b : in_buf) :
  (∀ t, f_should_stop sf t ≠ 2%Z) →
  (∀ t q e, f_get sf t q = Raise e → is_connection_error e = false) →
  let '(r, (v', b')) := __iter__ cfg env sf turns (v, b) in
  ∃ ms, v_received v' = v_received v ++ ms ∧
    match r with
    | Ok _ => v_yielded v' = v_yielded v ++ live (carried ms) ∧ b' = Deque []
    | _ => v_yielded v' `prefix_of` v_yielded v ++ live (carried ms)
    end.
Proof.
  intros Hstop Hconn. pose proof (iter_yields cfg env sf turns v b Hstop Hconn) as HQ.
  unfold wp, yielded_by in HQ. by destruct (__iter__ cfg env sf turns (v, b)) as [r [v' b']].
Qed.

(** C9: iterating ends. Once the final stage-done event is set and the final
    queue is dry, the loop yields what is buffered, finds the queue empty until
    the fifth time in a row, stops the pipeline and returns, within one turn
    per buffered payload and five more. *)
Theorem iter_ends (cfg : settings) (env : surroundings) (sf : surface) (turns : nat)
    (l : iter_locals) (v : view) (buf : list py) :
  (∀ t, f_should_stop sf t ≠ 2%Z) → (∀ t q, f_get sf t q = Raise Empty) →
  final_set sf v (i_final_done l) → calls_back sf v → (0 ≤ i_empty l)%Z →
  (length buf + 5 ≤ turns)%nat →
  let '(r, (v', b')) := loop turns (iter_turn cfg env sf) l (v, Deque buf) in
  r = Ok tt ∧ b' = Deque [] ∧ stopped (pipe_of v) (pipe_of v') ∧ v_yielded v' = v_yielded v ++ live buf.
Proof.
  intros Hstop Hget Hset Hcb He Hturns.
  destruct (iter_loop_ends cfg env sf turns l v buf Hstop Hget Hset Hcb He) as (v' & -> & Hst & Hy); [|done].
  unfold iter_turns_left. destruct buf; simpl in *; lia.
Qed.

(** after a restart the consumer waits for the wrong event. The loop reads
    the final stage-done event once, before its first turn, and a restart
    replaces it. When a worker has asked for a restart ([should_stop] is 2)
    and nothing goes wrong any more, the iteration never ends: whatever the new
    final stage puts, and although it sets its event, every number of turns
    is followed by another. *)
Theorem iter_restart_never_ends (cfg : settings) (env : surroundings) (sf : surface) (turns : nat)
    (l : iter_locals) (v : view) (b : in_buf) :
  f_should_stop sf (v_tick v) = 2%Z → (∀ t, t ≠ v_tick v → f_should_stop sf t ≠ 2%Z) →
  (∀ t q, f_get sf t q = Raise Empty ∨ ∃ x, f_get sf t q = Ok (Bare x)) →
  restartable cfg (f_outside sf (S (v_tick v))) (pipe_of v) →
  i_final_done l ∈ p_done_events (pipe_of v) → (i_final_done l < p_next (pipe_of v))%nat →
  (loop turns (iter_turn cfg env sf) l (v, b)).1 = Spin.
Proof.
  intros Hnow Hlater Hget Hra Hin Hlt. destruct turns as [|turns]; [done|]. simpl. unfold bind at 1.
  unfold iter_turn at 1, bind at 1. simpl. rewrite Hnow. simpl.
  unfold pipe_of in *. destruct (v_host v) as [p log] eqn:Eh. simpl in *.
  destruct (restart_events cfg env _ p log Hra) as (p' & log' & E & Hq & Hev).
  destruct (Hev _ Hin Hlt) as [He Hn].
  unfold rebuild, bind at 1, lift at 1, restart_pipe, bind at 1, at_tick, on_host, zoom. simpl. rewrite ?Eh, E.
  unfold bind at 1, lift at 1, last_of, pipe_of. simpl.
  destruct (last (p_queues p')) as [q|] eqn:El; [|by apply last_None in El].
  simpl. set (v1 := View _ _ _ _).
  apply (loop_later cfg env sf turns (IterLocals (i_final_done l) 0 q) v1 []); [|done|done|done].
  intros t Ht. apply Hlater. simpl in Ht. lia.
Qed.

Module IterDemo.
(** A running pipeline whose final stage puts a chunk and an [End], and is
    done from the start. *)
Definition messages (t q : nat) : res msg :=
  match t with
  | 1%nat => Ok (Chunk [PyNum 1; PyNum 2])
  | 4%nat => Ok (Bare (PyNum 3))
  | 6%nat => Ok (Bare End)
  | _ => Raise Empty
  end.
Definition surface_of (stop : Z) (get : nat → nat → res msg) : surface :=
  Surface (λ t, if decide (t = 0%nat) then stop else 0%Z) get (λ _ _, true) (λ _, StopDemo.out).
Definition view0 : view := View 0 (StopDemo.running, []) [] [].
Definition final : nat := default 0%nat (last (p_done_events StopDemo.running)).
Definition outq : nat := default 0%nat (last (p_queues StopDemo.running)).

Lemma out_restartable : restartable LifeDemo.cfg StopDemo.out StopDemo.running.
Proof.
  constructor; [exact StopDemo.out_polite|by intros x _|by intros x _|vm_compute; discriminate|
    vm_compute; reflexivity|reflexivity|].
  apply (bool_decide_unpack _). vm_compute. exact I.
Defined.
End IterDemo.

Lemma iter_yields_in_order_witness :
  v_yielded (__iter__ LifeDemo.cfg LifeDemo.env (IterDemo.surface_of 0 IterDemo.messages) 20
    (IterDemo.view0, new_in_buf)).2.1 = [PyNum 1; PyNum 2; PyNum 3] ∧
  let '(r, (v', b')) := __iter__ LifeDemo.cfg LifeDemo.env (IterDemo.surface_of 0 IterDemo.messages) 20
                          (IterDemo.view0, new_in_buf) in
  ∃ ms, v_received v' = v_received IterDemo.view0 ++ ms ∧
    match r with
    | Ok _ => v_yielded v' = v_yielded IterDemo.view0 ++ live (carried ms) ∧ b' = Deque []
    | _ => v_yielded v' `prefix_of` v_yielded IterDemo.view0 ++ live (carried ms)
    end.
Proof.
  split; [vm_compute; reflexivity|].
  pose proof (iter_yields_in_order LifeDemo.cfg LifeDemo.env (IterDemo.surface_of 0 IterDemo.messages) 20
    IterDemo.view0 new_in_buf) as H.
  apply H.
  - intros t. simpl. by destruct (decide (t = 0%nat)).
  - intros t q e. simpl. unfold IterDemo.messages.
    destruct t as [|[|[|[|[|[|[|[|t]]]]]]]]; simpl; intros [= <-]; reflexivity.
Defined.

Lemma iter_ends_witness :
  let '(r, (v', b')) := loop 7 (iter_turn LifeDemo.cfg LifeDemo.env (IterDemo.surface_of 0 (λ _ _, Raise Empty)))
                          (IterLocals IterDemo.final 3 IterDemo.outq) (IterDemo.view0, Deque [PyNum 4; End]) in
  r = Ok tt ∧ b' = Deque [] ∧ stopped (pipe_of IterDemo.view0) (pipe_of v') ∧
  v_yielded v' = v_yielded IterDemo.view0 ++ live [PyNum 4; End].
Proof.
  pose proof (iter_ends LifeDemo.cfg LifeDemo.env (IterDemo.surface_of 0 (λ _ _, Raise Empty)) 7
    (IterLocals IterDemo.final 3 IterDemo.outq) IterDemo.view0 [PyNum 4; End]) as H.
  apply H.
  - intros t. simpl. by destruct (decide (t = 0%nat)).
  - reflexivity.
  - right. split; [|reflexivity]. apply (bool_decide_unpack _). vm_compute. exact I.
  - intros t. split; [exact StopDemo.out_polite|]. split; by intros x _.
  - simpl. lia.
  - simpl. lia.
Defined.

Lemma iter_restart_never_ends_witness :
  (loop 50 (iter_turn LifeDemo.cfg LifeDemo.env (IterDemo.surface_of 2 (λ _ _, Raise Empty)))
     (IterLocals IterDemo.final 0 IterDemo.outq) (IterDemo.view0, new_in_buf)).1 = Spin.
Proof.
  pose proof (iter_restart_never_ends LifeDemo.cfg LifeDemo.env (IterDemo.surface_of 2 (λ _ _, Raise Empty)) 50
    (IterLocals IterDemo.final 0 IterDemo.outq) IterDemo.view0 new_in_buf) as H.
  apply H.
  - reflexivity.
  - intros t Ht. simpl. destruct (decide (t = 0%nat)); [by destruct Ht|done].
  - intros t q. left. reflexivity.
  - exact IterDemo.out_restartable.
  - apply (bool_decide_unpack _). vm_compute. exact I.
  - apply Nat.ltb_lt. vm_compute. reflexivity.
Defined.
