(* ===== verification/Compose.v ===== *)
(** * Workers composed (workers.py, queues.py, pipe.py, sequential.py)

    Every other file looks at one process among the others. Here the runs of
    the workers of a whole pipeline are put together: what the workers of a
    stage put on their output queue is what the workers of the next stage, or
    the consumer, take off it. The result is compared with sequential mode. *)
From S2P Require Import Prelude Types Queues Channels Placement Jobs Lifecycle Shutdown Iterate World Source Sequential Worker WorkerSpec WorkerExit.

(** ** The main loop leaves the coordination with siblings alone *)

Section loop_frame.
Context `{ObjOps} {U : Type} (env : environment) (cfg : config) (st : stage U).
Context (free_pool : prog U unit) (fuel : nat).
Local Abbreviation WL := (world U * locals)%type.
Local Abbreviation P X := (prog WL X).
#[local] Instance loop_frame_runtime : Runtime (world U) := world_runtime env.

Local Abbreviation coord := (view (U:=U) coord_of (λ _ : locals, tt)).
Local Abbreviation uncoordinated c := (keeps coord c).

Lemma uncoord_act a : coord_of a = None → uncoordinated (in_world (act a)).
Proof. intros Ha. by apply in_world_view, act_view. Qed.
Lemma uncoord_user {X} (c : prog U X) : uncoordinated (in_world (on_user c)).
Proof. apply in_user_view. Qed.
Lemma uncoord_now : uncoordinated (in_world now).
Proof. apply now_view. Qed.
Lemma uncoord_look {X} (h : environment → nat → X) : uncoordinated (look env h).
Proof. apply look_view. Qed.
Lemma uncoord_stopping : uncoordinated (stopping env).
Proof. apply stopping_view. Qed.
Lemma uncoord_modify h : uncoordinated (modify h).
Proof. by apply modify_view. Qed.
Lemma uncoord_get : uncoordinated get_obj.
Proof. apply get_view. Qed.
Lemma uncoord_emit v : uncoordinated (_emit env cfg free_pool fuel v).
Proof. by apply emit_view. Qed.
Lemma uncoord_emit_all l : uncoordinated (emit_all env cfg free_pool fuel l).
Proof. by apply emit_all_view. Qed.
Lemma uncoord_flush : uncoordinated (out_flush env free_pool fuel).
Proof. by apply out_flush_view. Qed.
Lemma uncoord_maybe_flush : uncoordinated (out_maybe_flush env cfg free_pool fuel).
Proof. by apply out_maybe_flush_view. Qed.
Lemma uncoord_handle r n start t audio :
  uncoordinated (handle_result env cfg free_pool fuel r n start t audio).
Proof. by apply handle_result_view. Qed.
Lemma uncoord_park : uncoordinated (_maybe_park env cfg st free_pool fuel).
Proof. by apply maybe_park_view. Qed.
Lemma uncoord_stay_alive {X} (x : X) : uncoordinated (stay_alive env fuel x).
Proof. by apply stay_alive_view. Qed.
Lemma uncoord_write : uncoordinated (write_timing cfg).
Proof. by apply write_timing_view. Qed.
Lemma uncoord_audio v : uncoordinated (add_audio v).
Proof. by apply add_audio_view. Qed.
Hint Resolve uncoord_act uncoord_user uncoord_now uncoord_look uncoord_stopping uncoord_modify
  uncoord_get uncoord_emit uncoord_emit_all uncoord_flush uncoord_maybe_flush uncoord_handle
  uncoord_park uncoord_stay_alive uncoord_write uncoord_audio : core.

(** Programs of the input channel. *)
Lemma uncoord_in {X} (c : prog (world U * in_buf) X) :
  keeps (λ s : world U * in_buf, seen coord_of s.1) c → uncoordinated (on_in c).
Proof. intros Hc. by apply zoom_view. Qed.

Lemma uncoord_ic_get timeout : uncoordinated (on_in (ic_get (in_queue env) timeout)).
Proof.
  apply uncoord_in, keeps_bind; [by intros []|]. intros b.
  assert (keeps (λ s : world U * in_buf, seen coord_of s.1) buf_popleft).
  { apply keeps_bind; [by intros []|]. intros [[]|]; try done. by intros []. }
  destruct (buf_items b); [|done].
  apply keeps_bind; [apply lift_seen; by apply answer_seen|].
  intros [v|items]; [done|]. apply keeps_bind; [by intros []|]. done.
Qed.

Lemma uncoord_ic_put v : uncoordinated (on_in (ic_put (in_queue env) v)).
Proof. apply uncoord_in, lift_seen. by apply answer_seen. Qed.

Lemma uncoord_requeue : uncoordinated (on_in (ic_requeue_buffered (in_queue env) fuel)).
Proof.
  apply uncoord_in, keeps_bind; [by intros []|]. intros b. destruct (buf_items b); [done|].
  apply keeps_bind; [by intros []|]. intros []. apply lift_seen.
  apply put_retry_keeps; auto with pipe; try done.
  - intros w put t [= <-]. simpl. by apply answer_seen.
  - intros d. by apply sleep_seen.
Qed.

Lemma uncoord_gather item : uncoordinated (gather env cfg fuel item).
Proof.
  apply keeps_bind; [auto|]. intros t. apply keeps_loop. intros items.
  case_match; [|apply keeps_ret]. apply keeps_bind; [auto|]. intros t1.
  cbv zeta. case_match; [apply keeps_ret|]. apply keeps_bind.
  - apply keeps_try; [|intros []; auto with pipe].
    apply keeps_bind; [apply uncoord_ic_get|]. intros; apply keeps_ret.
  - intros [v|]; [|apply keeps_bind; [auto|]; intros; apply keeps_ret].
    case_match; [|apply keeps_ret]. apply keeps_bind; [apply uncoord_ic_put|]. intros; apply keeps_ret.
Qed.

Lemma uncoord_next_item : uncoordinated (next_item env cfg).
Proof.
  apply keeps_try.
  - apply keeps_bind; [apply uncoord_ic_get|]. intros v.
    apply keeps_bind; [auto|]. intros; apply keeps_ret.
  - intros e. assert (uncoordinated (if is_os_error e then ret (inr Break) else raise (X:=py + turn) e)).
    { case_match; [apply keeps_ret|apply keeps_raise]. }
    destruct e; try done.
    apply keeps_bind; [auto|]. intros []. apply keeps_bind; [auto|]. intros l.
    apply keeps_bind; [destruct (has_upstream cfg); [auto|apply keeps_ret]|]. intros; apply keeps_ret.
Qed.

Lemma uncoord_timed_call arg :
  uncoordinated (in_world (_timed_call env (has_busy cfg) (st_call st) arg)).
Proof.
  assert (keeps (seen coord_of) (act (U:=U) (Called arg) ;! on_user (st_call st arg))) as Hcall.
  { apply keeps_bind; [by apply act_view|]. intros []. apply trace_view, on_user_keeps. }
  apply in_world_view. unfold _timed_call. case_match; [|done].
  apply keeps_bind; [by apply trace_view, now_keeps|]. intros t.
  apply keeps_bind; [by apply act_view|]. intros [].
  apply keeps_finally; [done|by apply act_view].
Qed.

Lemma uncoord_stage_item item : uncoordinated (stage_item env cfg st free_pool fuel item).
Proof.
  assert (∀ audio n start (r : result) (t : Z), uncoordinated
    (let! input_audio := of_res audio in
     handle_result env cfg free_pool fuel r n start t input_audio ;! ret Continue)) as Hafter.
  { intros. apply keeps_bind; [apply keeps_of_res|]. intros a. apply keeps_bind; [auto|]. intros; apply keeps_ret. }
  unfold stage_item. case_match.
  { apply keeps_bind; [apply uncoord_requeue|]. intros [].
    apply keeps_bind; [case_match; [auto|apply keeps_ret]|]. auto. }
  case_match; [apply keeps_ret|]. case_match.
  - apply keeps_bind; [apply uncoord_gather|]. intros items.
    apply keeps_bind; [auto|]. intros t. apply keeps_bind; [apply uncoord_timed_call|]. intros r.
    apply keeps_bind; [auto|]. intros t1. apply Hafter.
  - apply keeps_bind; [auto|]. intros t. apply keeps_bind; [apply uncoord_timed_call|]. intros r.
    apply keeps_bind; [auto|]. intros t1. apply Hafter.
Qed.

Lemma uncoord_drain (stop : P bool) (on_item : py → P unit) (em : option (py → P unit)) g :
  uncoordinated stop → (∀ y, uncoordinated (on_item y)) →
  (∀ h y, em = Some h → uncoordinated (h y)) →
  uncoordinated (_drain_source_generator (raise_errors cfg) stop on_item em g).
Proof.
  intros Hstop Hitem Hem. unfold _drain_source_generator.
  assert (∀ sent e, uncoordinated (source_failed (raise_errors cfg) sent e)) as Hfail.
  { intros sent e. unfold source_failed. repeat case_match; [apply keeps_raise..|apply keeps_ret]. }
  assert (∀ sent (c : P unit) k, uncoordinated c → uncoordinated k →
    uncoordinated (guarded (raise_errors cfg) sent c k)) as Hguard.
  { intros sent c k Hc Hk. apply keeps_bind; [|intros [x|]; [apply keeps_ret|done]].
    apply keeps_try; [apply keeps_bind; [done|]; intros; apply keeps_ret|].
    intros e. apply keeps_bind; [apply Hfail|]. intros; apply keeps_ret. }
  generalize 0%Z. induction (gen_yields g) as [|y ys IH]; intros sent; simpl.
  { case_match; [apply Hfail|apply keeps_ret]. }
  apply keeps_bind; [done|]. intros []; [apply keeps_ret|]. case_match; [apply IH|].
  apply Hguard; [apply Hitem|]. destruct em as [h|]; [|apply IH].
  apply Hguard; [|apply IH]. apply keeps_try; [by apply Hem|].
  intros e. repeat case_match; first [apply keeps_raise|apply keeps_ret].
Qed.

Lemma uncoord_source_stopping : uncoordinated (source_stopping env cfg).
Proof.
  apply keeps_bind; [auto|]. intros []; [apply keeps_ret|]. case_match; [auto|apply keeps_ret].
Qed.

Lemma uncoord_backoff progressed (stop : P bool) :
  uncoordinated stop →
  uncoordinated (on_backoff (backoff_wait (H:=locals_runtime env) fuel (retry_base cfg) progressed stop)).
Proof.
  intros Hstop. apply keeps_zoom. intros [w l].
  enough (keeps (λ s : WL * Z, coord s.1)
    (backoff_wait (H:=locals_runtime env) fuel (retry_base cfg) progressed stop)) as Hk.
  { specialize (Hk ((w, l), l_failures l)).
    destruct (backoff_wait _ _ _ _ _) as [r [[w' l'] n]]. simpl in *. unfold view in *. simpl in *.
    by injection Hk as ->. }
  assert (∀ X (c : P X), uncoordinated c → keeps (λ s : WL * Z, coord s.1) (lift c)) as Hlift.
  { intros X c Hc [s n]. unfold lift. specialize (Hc s). by destruct (c s). }
  assert (uncoordinated (now (Runtime:=locals_runtime env))) as Hnow by apply uncoord_now.
  apply keeps_bind; [by intros []|]. intros n. apply keeps_bind; [by intros []|]. intros [].
  apply keeps_bind; [apply keeps_of_res|]. intros d. apply keeps_bind; [by intros []|]. intros [].
  apply keeps_bind; [by apply Hlift|]. intros t. apply Hlift. apply keeps_loop. intros _.
  apply keeps_bind; [done|]. intros []; [apply keeps_ret|].
  apply keeps_bind; [done|]. intros t1. cbv zeta. case_match; [apply keeps_ret|].
  apply keeps_bind; [|intros; apply keeps_ret]. by apply (nap_view env coord_of (λ _, tt)).
Qed.

Lemma uncoord_root_turn : uncoordinated (root_turn env cfg st free_pool fuel).
Proof.
  assert (∀ v, uncoordinated (if has_out cfg then emit_all env cfg free_pool fuel v else ret tt)) as Hemit.
  { intros v. case_match; [auto|apply keeps_ret]. }
  apply keeps_bind; [auto|]. intros start. apply keeps_bind.
  { apply in_world_view, keeps_bind; [by apply act_view|]. intros []. apply trace_view, on_user_keeps. }
  intros r. apply keeps_bind; [auto|]. intros t.
  assert (∀ v, uncoordinated (root_values env cfg free_pool fuel v (t - start))) as Hvalues.
  { intros v. unfold root_values. destruct (_is_end v); [apply keeps_ret|]. cbv zeta.
    apply keeps_bind; [|intros []; apply keeps_bind; [apply Hemit|]; intros; apply keeps_ret].
    destruct (has_timing cfg && _); [|apply keeps_ret]. apply keeps_bind; [apply uncoord_modify|]. intros [].
    apply keeps_bind; [apply uncoord_modify|]. intros [].
    apply keeps_bind; [apply uncoord_audio|]. intros []. apply uncoord_write. }
  destruct r as [g|[]]; try apply Hvalues; [|apply keeps_ret].
  apply keeps_bind.
  - apply uncoord_drain; [apply uncoord_source_stopping| |].
    + intros y. unfold count_item. destruct (has_timing cfg); [|apply keeps_ret].
      apply keeps_bind; [apply uncoord_modify|]. intros []. apply uncoord_audio.
    + intros h y. unfold emit_opt. destruct (has_out cfg); [|done]. intros [= <-]. apply uncoord_emit.
  - intros [[] sent].
    + apply keeps_bind; [apply uncoord_backoff, uncoord_source_stopping|]. intros; apply keeps_ret.
    + apply keeps_bind; [|intros; apply keeps_ret]. destruct (has_timing cfg); [|apply keeps_ret].
      apply keeps_bind; [auto|]. intros t1. apply keeps_bind; [apply uncoord_modify|]. auto.
Qed.

(** No turn of the main loop counts the worker as finished. *)
Lemma main_loop_uncoordinated turns : uncoordinated (main_loop env cfg st free_pool fuel turns).
Proof.
  apply keeps_loop. intros _. apply keeps_bind; [auto|]. intros []; [apply keeps_ret|].
  apply keeps_bind; [|intros; apply keeps_ret].
  apply keeps_bind; [case_match; [auto|apply keeps_ret]|]. intros [].
  apply keeps_try.
  - apply keeps_bind; [auto|]. intros s. case_match; [apply keeps_ret|].
    apply keeps_bind; [auto|]. intros []. apply keeps_bind; [case_match; [auto|apply keeps_ret]|].
    intros []; [apply keeps_ret|]. case_match; [apply uncoord_root_turn|].
    apply keeps_bind; [apply uncoord_next_item|]. intros [v|t]; [apply uncoord_stage_item|apply keeps_ret].
  - intros e. destruct (is_connection_error e);
      [|repeat case_match; first [apply keeps_raise|apply keeps_ret]].
    apply keeps_bind; [by apply uncoord_act|]. intros; apply keeps_ret.
Qed.
End loop_frame.

(** ** After the main loop *)

(** What the theorems below read off a trace. *)
Definition flow_of (a : action) : option action :=
  match a with PutOut _ | Received _ | Called _ | SetStop _ => Some a | _ => None end.
Definition stop_of (a : action) : option Z :=
  match a with SetStop v => Some v | _ => None end.

Lemma omap_flow {X} (proj : action → option X) (w w' : list action) :
  (∀ a, flow_of a = None → proj a = None) →
  omap flow_of w = omap flow_of w' → omap proj w = omap proj w'.
Proof.
  intros Hp E.
  assert (∀ tr : list action, omap proj tr = omap proj (omap (M:=list) flow_of tr)) as Hf.
  { intros tr. induction tr as [|a tr IH]; [done|]. specialize (Hp a). csimpl.
    destruct (flow_of a) as [a'|] eqn:Ha; [|by rewrite Hp].
    assert (a' = a) as -> by (by destruct a; simplify_eq/=). csimpl. by rewrite IH. }
  by rewrite (Hf w), (Hf w'), E.
Qed.

(** The worker counted itself: its run is over. *)
Definition over (tr : list action) : Prop := Finished ∈ tr.

Lemma over_seen (w w' : list action) :
  omap coord_of w = omap coord_of w' → over w → over w'.
Proof.
  unfold over. intros E Hin.
  assert (Finished ∈ omap coord_of w) as H by (apply list_elem_of_omap; by exists Finished).
  rewrite E in H. apply list_elem_of_omap in H as (a & Ha & Hc). destruct a; by simplify_eq/=.
Qed.

Section run_rest.
Context `{ObjOps} {U : Type} (env : environment) (cfg : config) (st : stage U).
Context (free_pool : prog U unit) (fuel : nat).
Context (Hputs : puts_ok env) (Hfree : calm free_pool) (Hout : has_out cfg = true).
Context (Hcount : has_counters cfg = true) (Hflush : st_flush st = None).
Context (Hpark : st_on_park st = None).
Local Abbreviation WL := (world U * locals)%type.
#[local] Instance run_rest_runtime : Runtime (world U) := world_runtime env.

(** The part of [_worker_run] that follows the main loop. *)
Definition after_loop : prog WL unit :=
  worker_end env cfg st free_pool fuel true ;!
  _park_release_gpu env cfg st free_pool fuel ;!
  _free_cuda_pool env free_pool ;!
  stay_alive env fuel tt.

Lemma gpu_rest_view {X} (f : action → option X) :
  (∀ d, f (Slept d) = None) →
  keeps (view f (λ _ : locals, tt))
    (_park_release_gpu env cfg st free_pool fuel ;! _free_cuda_pool env free_pool ;!
     stay_alive env fuel tt).
Proof using Hpark.
  intros Hslept.
  assert (keeps (view f (λ _ : locals, tt)) (in_world (cuda_ready (U:=U) env))) as Hready.
  { apply in_world_view, trace_view, cuda_ready_trace. }
  apply keeps_bind.
  - apply keeps_bind; [done|]. intros []; [|apply keeps_ret]. rewrite Hpark. apply keeps_ret.
  - intros []. apply keeps_bind.
    + apply keeps_bind; [done|]. intros []; [|apply keeps_ret].
      apply keeps_try; [apply in_user_view|]. intros e. destruct (is_exception e); [apply keeps_ret|apply keeps_raise].
    + intros []. apply keeps_loop. intros _. apply keeps_bind; [apply stopping_view|].
      intros []; [apply keeps_ret|]. apply keeps_bind; [|intros; apply keeps_ret].
      by apply in_world_view, sleep_seen.
Qed.

Definition ends_in (items : list py) (s s' : WL) : Prop :=
  (∃ k, carried (omap out_msg (trace s'.1)) = items ++ replicate k End) ∧
  omap recv_msg (trace s'.1) = omap recv_msg (trace s.1) ∧
  omap stop_of (trace s'.1) = omap stop_of (trace s.1) ∧ calls (trace s'.1) = calls (trace s.1).

Lemma ends_in_flow items (s s1 s2 : WL) :
  omap flow_of (trace s2.1) = omap flow_of (trace s1.1) → ends_in items s s1 → ends_in items s s2.
Proof.
  intros E ((k & Hk) & Hr & Hs & Hc). unfold ends_in, calls in *.
  rewrite (omap_flow out_msg _ _ ltac:(by intros []) E), (omap_flow recv_msg _ _ ltac:(by intros []) E),
    (omap_flow stop_of _ _ ltac:(by intros []) E), (omap_flow call_arg _ _ ltac:(by intros []) E). eauto.
Qed.

(** A worker that ends puts what was pending, then sentinels only. *)
Lemma after_loop_delivers (s : WL) :
  oc_bounded (out_chunk cfg) (l_out s.2) → ¬ over (trace s.1) →
  wp after_loop (λ _ s', over (trace s'.1) → ends_in (emitted s) s s') s.
Proof using All.
  intros Hb Hno. unfold after_loop, worker_end. rewrite Hout. unfold flush_stage. rewrite Hflush.
  assert (wp (out_flush env free_pool fuel ;! _finish_worker env cfg)
            (λ _ s', over (trace s'.1) → ends_in (emitted s) s s') s) as Hend.
  { apply wp_bind.
    pose proof (out_flush_emits env cfg free_pool fuel Hputs Hfree s Hb) as He.
    pose proof (level_flush env free_pool fuel s) as Hl.
    pose proof (out_flush_view env free_pool fuel stop_of (λ _ : locals, tt) ltac:(done) ltac:(done) s) as Hstops.
    pose proof (flush_all_coord env cfg st free_pool fuel false s) as Hco.
    rewrite Hout in Hco. change (seen coord_of (out_flush env free_pool fuel s).2.1 = seen coord_of s.1) in Hco.
    unfold wp in He. unfold wp at 1. destruct (out_flush env free_pool fuel s) as [r s1]. simpl in *.
    destruct r as [[]|e|]; [|by destruct He|by intros Hov; destruct Hno; eapply over_seen].
    destruct He as (Hp & _ & He & Hcalls & _).
    assert (omap recv_msg (trace s1.1) = omap recv_msg (trace s.1)) as Hrecv.
    { unfold view in Hl. injection Hl as Hl _. unfold seen in Hl.
      assert (∀ tr : list action, omap recv_msg tr = omap recv_msg (omap (M:=list) input_of tr)) as Hf.
      { intros tr. induction tr as [|a tr IH]; [done|]. destruct a; try exact IH. exact (f_equal (cons m) IH). }
      by rewrite (Hf (trace s1.1)), (Hf (trace s.1)), Hl. }
    eapply wp_mono; [apply finish_spec|]. rewrite Hcount. intros r s2 (_ & _ & k & d & _ & Ht & _) _.
    unfold ends_in, calls. rewrite Ht, !omap_app, carried_app.
    unfold view, seen in Hstops. injection Hstops as Hstops.
    assert (∀ b, omap recv_msg (finish_actions k b d) = [] ∧
      omap stop_of (finish_actions k b d) = [] ∧ omap call_arg (finish_actions k b d) = [] ∧
      ∃ k', carried (omap out_msg (finish_actions k b d)) = replicate k' End) as Hfin.
    { intros []; unfold finish_actions; simpl; [|split_and!; [done..|by exists 0%nat]].
      rewrite !omap_app, carried_app, carried_ends. split_and!.
      - by clear; induction k; [destruct d|].
      - by clear; induction k; [destruct d|].
      - by clear; induction k; [destruct d|].
      - exists k. destruct d; by rewrite app_nil_r. }
    set (b := (_ <=? _)%Z). destruct (Hfin b) as (-> & -> & -> & k' & ->). rewrite !app_nil_r.
    split_and!; [|done|done|exact Hcalls]. exists k'. unfold emitted in He. rewrite Hp, !app_nil_r in He. by rewrite He. }
  apply wp_bind. unfold bind at 1. simpl. unfold wp in *. simpl in *.
  set (rest := _park_release_gpu env cfg st free_pool fuel ;! _).
  destruct ((out_flush env free_pool fuel ;! _finish_worker env cfg) s) as [r s1]. simpl in *.
  destruct r as [[]|e|]; [|done..].
  pose proof (gpu_rest_view flow_of ltac:(done) s1) as Hrest.
  pose proof (gpu_rest_view coord_of ltac:(done) s1) as Hco. fold rest in Hrest, Hco.
  unfold view in Hrest, Hco. injection Hrest as Hrest. injection Hco as Hco. unfold seen in *.
  intros Hov. eapply ends_in_flow; [exact Hrest|]. apply Hend. by eapply over_seen.
Qed.
End run_rest.

(** ** A whole run of a middle worker *)

(** The others leave the worker alone: they answer, and neither stop nor drain
    the pipeline. *)
Record undisturbed (env : environment) : Prop := {
  un_reads : reads_ok env;
  un_puts : puts_ok env;
  un_stop : ∀ t, e_should_stop env t = 0%Z;
  un_drain : ∀ t, e_drain env t = false;
}.

(** A worker with an output queue and siblings' counters, not scavenged. *)
Record ordinary (cfg : config) : Prop := {
  or_out : has_out cfg = true;
  or_counters : has_counters cfg = true;
  or_park : has_park cfg = false;
  or_hold : has_hold cfg = false;
  or_batch : (batch_size cfg ≤ 0)%Z;
}.

(** A stage that keeps nothing back for the end. *)
Record immediate {U} (st : stage U) : Prop := {
  im_flush : st_flush st = None;
  im_park : st_on_park st = None;
}.

(** The items a middle worker owes for what it received. *)
Definition owed (f : py → res result) (tr : list action) : list py :=
  reals (received tr) ≫= λ x, result_items (f x).

Lemma lost_connection (tr : list action) : SetStop 2 ∈ tr ↔ 2%Z ∈ omap stop_of tr.
Proof.
  rewrite list_elem_of_omap. split; [by exists (SetStop 2)|].
  intros (a & Ha & Hs). destruct a; by simplify_eq/=.
Qed.

Lemma handed_calls batch tr : (batch ≤ 0)%Z → handed batch tr = calls tr.
Proof.
  intros Hb. unfold handed, calls. induction tr as [|a tr IH]; [done|]. csimpl. rewrite IH.
  destruct a as [| | |[]| | | | | | | |]; try done. simpl. by rewrite (proj2 (Z.ltb_ge _ _) Hb).
Qed.

Section middle_run.
Context `{ObjOps} {U : Type} (env : environment) (cfg : config) (st : stage U).
Context (free_pool : prog U unit) (fuel : nat) (f : py → res result).
Context (Henv : undisturbed env) (Hcfg : ordinary cfg) (Hst : immediate st).
Context (Hf : computes st f) (Hnum : numeric cfg f) (Hfree : calm free_pool).
Local Abbreviation WL := (world U * locals)%type.

Definition fresh (u : U) (s : WL) : Prop :=
  trace s.1 = [] ∧ s.2 = init_locals cfg ∧ (st_load st = None → user s.1 = u).

(** The run up to the main loop, for a worker of any kind without a [run()]. *)
Lemma run_up_to_loop turns u (Q : res unit → WL → Prop) :
  (∀ r s, fresh u s → Q r s) →
  (∀ s, fresh u s → wp (main_loop env cfg st free_pool fuel turns)
     (λ r s', match r with
              | Ok Return => Q (Ok tt) s'
              | Ok _ => wp (after_loop env cfg st free_pool fuel) Q s'
              | Raise e => Q (Raise e) s'
              | Spin => Q Spin s'
              end) s) →
  wp (_worker_run env cfg st free_pool fuel None turns) Q (World 0 [] u, init_locals cfg).
Proof using Hcfg.
  intros Hfresh Hloop. destruct Hcfg as [_ _ _ Hhold _]. unfold _worker_run. rewrite Hhold.
  apply wp_bind, wp_ret, wp_bind, wp_ret. replace (if is_root cfg then None else None) with (@None (prog WL unit)) by (by destruct (is_root cfg)).
  assert (wp (in_world (match st_load st with Some g => on_user g | None => ret tt end))
            (λ (_ : res unit) s, fresh u s) (World 0 [] u, init_locals cfg)) as Hload.
  { unfold fresh. destruct (st_load st) as [g|]; [|done]. unfold wp, in_world, lift, on_user. simpl.
    by destruct (g u). }
  apply wp_bind, wp_bind. eapply wp_mono; [exact Hload|]. intros [[]|e|] s Hs; [|by apply Hfresh..].
  apply wp_ret, wp_bind. eapply wp_mono; [by apply Hloop|]. intros [[]|e|] s' Hs'; done.
Qed.

Lemma fresh_not_over u (s : WL) : fresh u s → ¬ over (trace s.1).
Proof. intros [-> _]. apply not_elem_of_nil. Qed.

Lemma loop_not_over turns u (s : WL) :
  fresh u s → ¬ over (trace (main_loop env cfg st free_pool fuel turns s).2.1).
Proof.
  intros Hs Hov. pose proof (main_loop_uncoordinated env cfg st free_pool fuel turns s) as Hk.
  unfold view in Hk. injection Hk as Hk. destruct (fresh_not_over u s Hs). by eapply over_seen.
Qed.

(** The loop is left by [break] or by [return]. *)
Lemma loop_breaks turns (s : WL) : (main_loop env cfg st free_pool fuel turns s).1 ≠ Ok Continue.
Proof.
  apply (wp_loop (λ _ _, True) _ (λ r _, r ≠ Ok Continue)); [done|done|].
  intros _ s1 _. unfold wp, bind. destruct (stopping env s1) as [[[]|e|] s2]; simpl; [done| |done..].
  destruct (worker_turn env cfg st free_pool fuel s2) as [[[]|e|] s3]; done.
Qed.

Lemma middle_run_spec turns u :
  is_root cfg = false →
  wp (_worker_run env cfg st free_pool fuel None turns)
     (λ _ s', over (trace s'.1) → SetStop 2 ∉ trace s'.1 →
        ∃ k, carried (omap out_msg (trace s'.1)) = owed f (trace s'.1) ++ replicate k End)
     (World 0 [] u, init_locals cfg).
Proof using All.
  intros Hroot. destruct Henv as [Hreads Hputs Hstop Hdrain]. pose proof Hcfg as [Hout Hcount Hpark Hhold Hbatch].
  destruct Hst as [Hflush Honpark].
  apply run_up_to_loop; [intros r s Hs Hov; by apply (fresh_not_over u) in Hov|].
  intros s Hs. pose proof (loop_not_over turns u s Hs) as Hno. destruct s as [w l]. destruct Hs as (Htr & Hl & _). simpl in Htr, Hl. subst l.
  assert (balanced (batch_size cfg) (w, init_locals cfg)) as Hb.
  { exists []. simpl. rewrite Htr. split_and!; [done|apply not_elem_of_nil|done]. }
  assert (mapped cfg f [] (w, init_locals cfg)) as Hm.
  { unfold mapped, emitted, oc_bounded. simpl. rewrite Htr. split_and!; [lia|by exists 0%Z|done]. }
  pose proof (main_loop_settled env cfg st free_pool fuel Hreads turns _ Hroot Hb) as H1.
  pose proof (main_loop_paid env cfg st free_pool fuel f Hf Hnum Hputs Hstop Hfree Hpark Hout
                turns _ Hreads Hroot Hb Hm) as H2.
  pose proof (loop_breaks turns (w, init_locals cfg)) as Hc.
  unfold wp at 1. unfold wp in H1, H2. destruct (main_loop env cfg st free_pool fuel turns (w, init_locals cfg)) as [[t|e|] s1].
  - destruct H1 as ((b & Hbuf & _ & Hrecv) & Ht), H2 as (Hbound & _ & He). simpl in Hno.
    assert (wp (after_loop env cfg st free_pool fuel)
      (λ _ s', over (trace s'.1) → ends_in (emitted s1) s1 s') s1) as Hend by by apply after_loop_delivers.
    destruct t; [by destruct Hc| |by destruct Ht]. simpl.
    unfold wp in *. destruct (after_loop env cfg st free_pool fuel s1) as [r s2]. simpl in *.
    intros Hov Hlost. destruct (Hend Hov) as ((k & Hk) & Hr2 & Hs2 & Hc2).
    assert (b = []) as ->.
    { destruct Ht as [_ Hwhy]. destruct (Hwhy eq_refl) as [[Hdry _]|[[n Hn]|[[n Hn]|Hin]]].
      - congruence.
      - by rewrite Hstop in Hn.
      - by rewrite Hdrain in Hn.
      - destruct Hlost. apply lost_connection. rewrite Hs2. by apply lost_connection. }
    exists k. rewrite Hk. f_equal. unfold owed, received. rewrite Hr2. fold (received (trace s1.1)).
    rewrite Hrecv. rewrite handed_calls, app_nil_r by done. by rewrite app_nil_r in He.
  - intros Hov. by destruct Hno.
  - intros Hov. by destruct Hno.
Qed.
End middle_run.

(** ** The main loop of a root worker *)

(** Emitting leaves the stage object alone, if emptying the CUDA pool does. *)
Section same_user.
Context {U : Type} (env : environment) (cfg : config) (free_pool : prog U unit) (fuel : nat).
Context (Hpool : ∀ u, (free_pool u).2 = u).
Local Abbreviation WL := (world U * locals)%type.
#[local] Instance same_user_runtime : Runtime (world U) := world_runtime env.
Local Abbreviation same c := (keeps (λ s : WL, user s.1) c).

Lemma answer_user {X} (h : environment → nat → res X) a : keeps user (answer (U:=U) env h a).
Proof. intros w. unfold answer, bind, observe, of_res. simpl. by destruct (h env (tick w)). Qed.

Lemma put_retry_user m : keeps user
  (_put_retry fuel (out_queue env) m (Some (_release_pool_on_stall env free_pool)) (seconds 2)).
Proof using Hpool.
  apply put_retry_keeps; try done.
  - intros w put t [= <-]. simpl. apply answer_user.
  - intros hook [= <-]. apply keeps_bind; [apply keeps_bind; [done|]; by intros []|].
    intros []; [|apply keeps_ret]. intros w. unfold on_user. specialize (Hpool (user w)).
    by destruct (free_pool (user w)).
Qed.

Lemma oc_flush_user : keeps (λ s : world U * out_chan, user s.1)
  (oc_flush (out_queue env) (Some (_release_pool_on_stall env free_pool)) fuel).
Proof using Hpool.
  apply keeps_bind; [by intros []|]. intros ch. destruct (oc_pending ch); [apply keeps_ret|].
  apply keeps_bind; [by intros []|]. intros [] [w c]. unfold oc_blocking_put, lift.
  pose proof (put_retry_user (Chunk (p :: l)) w) as Hk. by destruct (_put_retry _ _ _ _ _ w).
Qed.

Lemma oc_send_user v : keeps (λ s : world U * out_chan, user s.1)
  (oc_send (out_queue env) (out_chunk cfg) (out_chunk_ms cfg)
     (Some (_release_pool_on_stall env free_pool)) fuel v).
Proof using Hpool.
  pose proof oc_flush_user. unfold oc_send. destruct (_ <=? 0)%Z.
  { intros [w c]. unfold oc_blocking_put, lift. pose proof (put_retry_user (Bare v) w) as Hk.
    by destruct (_put_retry _ _ _ _ _ w). }
  apply keeps_bind; [by intros []|]. intros ch. apply keeps_bind.
  { destruct (oc_pending ch); [|apply keeps_ret]. apply keeps_bind; [by intros []|by intros ? []]. }
  intros []. apply keeps_bind; [by intros []|]. intros ch1. apply keeps_bind; [by intros []|].
  intros []. apply keeps_bind; [by intros []|]. intros ch2. destruct (_ <=? _)%Z; [done|].
  apply keeps_bind; [by intros []|]. intros n. destruct (_ <=? _)%Z; [done|apply keeps_ret].
Qed.

(** A channel method inside the worker. *)
Lemma on_out_user {X} (c : prog (world U * out_chan) X) :
  keeps (λ s : world U * out_chan, user s.1) c → same (on_out c).
Proof.
  intros Hc. apply keeps_zoom. intros [w l]. specialize (Hc (w, l_out l)). simpl in *.
  by destruct (c (w, l_out l)) as [r [w' c']].
Qed.

Lemma emit_user v : same (_emit env cfg free_pool fuel v).
Proof using Hpool.
  apply keeps_bind; [by intros []|]. intros l. apply keeps_bind.
  - destruct (l_ipc_left l); [apply keeps_ret|]. apply keeps_bind; [by intros []|]. intros [].
    apply keeps_bind; [by intros []|]. intros b. destruct (_has_cuda_tensor b v); [|apply keeps_ret].
    apply keeps_bind; [by intros []|by intros ? []].
  - intros []. destruct (has_out cfg); [apply on_out_user, oc_send_user|apply keeps_raise].
Qed.

Lemma emit_all_user l : same (emit_all env cfg free_pool fuel l).
Proof using Hpool. apply keeps_for_each, emit_user. Qed.

Lemma maybe_flush_user : same (out_maybe_flush env cfg free_pool fuel).
Proof using Hpool.
  apply on_out_user, keeps_bind; [by intros []|]. intros ch. destruct (oc_pending ch); [apply keeps_ret|].
  apply keeps_bind; [by intros []|]. intros n. destruct (_ <=? _)%Z; [apply oc_flush_user|apply keeps_ret].
Qed.
End same_user.

(** A root stage that gives the results of a list one after the other. *)
Definition plays (st : stage (list result)) : Prop :=
  st_load st = None ∧ ∀ rs, st_call st None rs =
    match rs with [] => (Ok (RVal End), []) | r :: rs => (Ok r, rs) end.

Section root_run.
Context `{ObjOps} (env : environment) (cfg : config) (st : stage (list result)).
Context (free_pool : prog (list result) unit) (fuel : nat).
Local Abbreviation WL := (world (list result) * locals)%type.
Local Abbreviation P X := (prog WL X).
#[local] Instance root_run_runtime : Runtime (world (list result)) := world_runtime env.

(** The audio durations are numbers. *)
Definition measured (v : py) : Prop := ∃ n, extract_audio_duration v = Ok (PyNum n).

(** A result of the root: a generator that does not raise, or a value; a list
    has its [End], if any, at its end. *)
Definition orderly (r : result) : Prop :=
  match r with
  | RGen g => gen_raises g = None ∧ Forall measured (valid_items (gen_yields g))
  | RVal v => valid_items (as_list v) = until_end (as_list v) ∧
              measured (PyList (valid_items (as_list v)))
  end.

Context (Henv : undisturbed env) (Hcfg : ordinary cfg) (Hst : immediate st).
Context (Hplays : plays st) (Hfree : calm free_pool) (Hpool : ∀ u, (free_pool u).2 = u).
(** Everything the root has to emit. *)
Context (total : list py).

(** The stage has still to give [rs], and [rest] has still to be emitted. *)
Definition due (rs : list result) (rest : list py) (s : WL) : Prop :=
  oc_bounded (out_chunk cfg) (l_out s.2) ∧ (∃ n, l_audio s.2 = PyNum n) ∧
  user s.1 = rs ∧ emitted s ++ rest = total.

Definition owing {X} (rs : list result) (rest : list py) (r : res X) (s : WL) : Prop :=
  match r with Ok _ => due rs rest s | Raise _ => False | Spin => True end.

Lemma emits_due items rs rest s s' :
  emits cfg items s s' → user s'.1 = user s.1 → due rs (items ++ rest) s → due rs rest s'.
Proof.
  intros (Hb & He & _ & Ha) Hu (_ & Hn & Hrs & Ht). unfold due. rewrite He, Ha, Hu.
  by rewrite <-app_assoc.
Qed.

Lemma emit_all_due items rs rest s :
  due rs (items ++ rest) s → wp (emit_all env cfg free_pool fuel items) (owing rs rest) s.
Proof using Henv Hcfg Hfree Hpool.
  intros Hd. destruct Henv as [_ Hputs _ _], Hcfg as [Hout _ _ _ _].
  pose proof (emit_all_emits env cfg free_pool fuel Hputs Hfree Hout items s (proj1 Hd)) as He.
  pose proof (emit_all_user env cfg free_pool fuel Hpool items s) as Hu. unfold wp in *.
  destruct (emit_all env cfg free_pool fuel items s) as [[[]|e|] s1]; simpl in *; try done. by eapply emits_due.
Qed.

Lemma emit_due v rs rest s :
  due rs (v :: rest) s → wp (_emit env cfg free_pool fuel v) (owing rs rest) s.
Proof using Henv Hcfg Hfree Hpool.
  intros Hd. destruct Henv as [_ Hputs _ _], Hcfg as [Hout _ _ _ _].
  pose proof (emit_emits env cfg free_pool fuel Hputs Hfree Hout v s (proj1 Hd)) as He.
  pose proof (emit_user env cfg free_pool fuel Hpool v s) as Hu. unfold wp in *.
  destruct (_emit env cfg free_pool fuel v s) as [[[]|e|] s1]; simpl in *; try done. by eapply (emits_due [v]).
Qed.

(** Steps that only read, count or keep time. *)
Definition idle (c : P unit) : Prop :=
  ∀ rs rest s, due rs rest s → wp c (λ r s', r = Ok tt ∧ due rs rest s') s.

Lemma idle_ret : idle (ret tt).
Proof. by intros rs rest s Hd. Qed.
Lemma idle_bind c k : idle c → idle k → idle (c ;! k).
Proof.
  intros Hc Hk rs rest s Hd. apply wp_bind. eapply wp_mono; [by apply Hc|].
  intros r s' [-> Hd']. by apply Hk.
Qed.
Lemma idle_items n : idle (add_items n).
Proof. by intros rs rest [w l] Hd. Qed.
Lemma idle_time n : idle (add_time n).
Proof. by intros rs rest [w l] Hd. Qed.
Lemma idle_now (k : Z → P unit) : (∀ t, idle (k t)) → idle (let! t := in_world now in k t).
Proof. intros Hk rs rest [w l] Hd. apply wp_bind, wp_now. intros t. by apply Hk. Qed.
Lemma idle_write : idle (write_timing cfg).
Proof.
  intros rs rest [w l] (Hb & Hn & Hu & He). split; [done|]. unfold due, emitted in *. simpl in *.
  rewrite omap_app. simpl. by rewrite app_nil_r.
Qed.
Lemma idle_audio v : measured v → idle (add_audio (extract_audio_duration v)).
Proof.
  intros [n Hv] rs rest [w l] (Hb & [m Hm] & Hu & He). simpl in *. unfold add_audio. rewrite Hv.
  unfold wp, bind. simpl. rewrite Hm. simpl. split; [done|]. split_and!; [done|by eexists|done..].
Qed.
Hint Resolve idle_ret idle_bind idle_items idle_time idle_now idle_write idle_audio : core.

Lemma idle_count y : measured y → idle (count_item cfg y).
Proof. intros Hy. unfold count_item. destruct (has_timing cfg); auto. Qed.

Lemma not_stopping rs rest s (Q : res bool → WL → Prop) :
  due rs rest s → (∀ s', due rs rest s' → Q (Ok false) s') → wp (source_stopping env cfg) Q s.
Proof using Henv.
  destruct Henv as [_ _ Hstop Hdrain]. destruct s as [w l]. intros Hd HQ.
  unfold source_stopping, stopping. apply wp_bind, wp_bind, wp_look. rewrite Hstop. apply wp_ret. simpl.
  destruct (has_drain_event cfg); [|by apply wp_ret, HQ]. apply wp_look. rewrite Hdrain. by apply HQ.
Qed.

(** A generator that does not raise is emitted to its end. *)
Lemma drain_due ys sent rs rest s :
  Forall measured (valid_items ys) → due rs (valid_items ys ++ rest) s →
  wp (drain_items (raise_errors cfg) (source_stopping env cfg) (count_item cfg)
        (Some (_emit env cfg free_pool fuel)) None ys sent)
     (λ r s', match r with
              | Ok (raised, _) => raised = false ∧ due rs rest s'
              | Raise _ => False
              | Spin => True
              end) s.
Proof using Henv Hcfg Hfree Hpool.
  revert sent s. induction ys as [|y ys IH]; intros sent s Hm Hd; simpl; [done|].
  apply wp_bind. eapply not_stopping; [exact Hd|]. clear s Hd. intros s Hd.
  unfold valid_items in Hd, Hm. rewrite filter_cons in Hd, Hm.
  destruct (is_valid y) eqn:Hy; simpl in *; [|by apply IH].
  inversion Hm as [|? ? Hmy Hmys]; subst. unfold guarded.
  apply wp_bind, wp_try, wp_bind. eapply wp_mono; [by eapply idle_count|].
  intros r s1 [-> Hd1]. apply wp_ret, wp_bind, wp_try, wp_bind. unfold send_or_drop.
  apply wp_try. eapply wp_mono; [by apply emit_due|].
  intros [[]|e|] s2 Hd2; [|done..]. by apply wp_ret, IH.
Qed.

(** After a turn: go on with the results that are left, or everything has been
    emitted. *)
Definition root_left (r : res turn) (s : WL) : Prop :=
  match r with
  | Ok Continue => ∃ rs, Forall orderly rs ∧ due rs (root_items rs) s
  | Ok _ => ∃ rs, due rs [] s
  | Raise _ => False
  | Spin => True
  end.

Lemma root_generator_due g start rs s :
  orderly (RGen g) → due rs (valid_items (gen_yields g)) s →
  wp (root_generator env cfg free_pool fuel g start) root_left s.
Proof using Henv Hcfg Hfree Hpool.
  intros [Hg Hm] Hd. unfold root_generator, _drain_source_generator, emit_opt.
  destruct Hcfg as [Hout _ _ _ _]. rewrite Hout, Hg. apply wp_bind.
  eapply wp_mono; [apply (drain_due _ _ rs []); [done|by rewrite app_nil_r]|].
  intros [[raised sent]|e|] s1 Hd1; [|done..]. destruct Hd1 as [-> Hd1].
  assert (idle (if has_timing cfg
    then let! t := in_world now in add_time (t - start) ;! write_timing cfg else ret tt)) as Hi.
  { destruct (has_timing cfg); auto. }
  apply wp_bind. eapply wp_mono; [by apply Hi|]. intros r s2 [-> Hd2]. apply wp_ret. by exists rs.
Qed.

Lemma root_values_due v t rs s :
  orderly (RVal v) → Forall orderly rs → due rs (root_items (RVal v :: rs)) s →
  wp (root_values env cfg free_pool fuel v t) root_left s.
Proof using Henv Hcfg Hfree Hpool.
  intros [Hv Hm] Hrs Hd. unfold root_values. destruct Hcfg as [Hout _ _ _ _].
  destruct (_is_end v) eqn:Hend.
  { apply wp_ret. exists rs. destruct v as [|[]| | | | | | | |]; try done. }
  fold (as_list v). cbv zeta. simpl in Hd. rewrite <-Hv in Hd. rewrite Hout. apply wp_bind.
  set (c := if has_timing cfg && _ then _ else _).
  assert (idle c) as Hi. { unfold c. destruct (has_timing cfg && _); auto 8. }
  eapply wp_mono; [by eapply Hi|]. intros r s1 [-> Hd1]. apply wp_bind.
  eapply wp_mono; [by apply emit_all_due|]. intros [[]|e|] s2 Hd2; [|done..].
  apply wp_ret. fold (has_end (as_list v)). destruct (has_end (as_list v)); simpl; eauto.
Qed.

Lemma root_turn_due rs s :
  Forall orderly rs → due rs (root_items rs) s →
  wp (root_turn env cfg st free_pool fuel) root_left s.
Proof using Henv Hcfg Hfree Hpool Hplays.
  intros Hrs Hd. destruct s as [w l]. apply wp_bind, wp_now. intros start.
  apply wp_bind. pose proof Hd as (_ & _ & Hu & _). simpl in Hu. unfold wp at 1. simpl.
  unfold bind, act, on_user. simpl. rewrite Hu, (proj2 Hplays). simpl.
  assert (∀ rs' n rest, due rs rest (w, l) →
    due rs' rest (World n (trace w ++ [Called None]) rs', l)) as Hcalled.
  { intros rs' n rest (Hb & Hn & _ & He). unfold due, emitted in *. simpl in *.
    rewrite omap_app. simpl. by rewrite app_nil_r. }
  destruct rs as [|r rs]; simpl.
  - apply wp_bind, wp_now. intros t. apply wp_ret. exists []. by apply Hcalled.
  - inversion Hrs as [|? ? Hr Hrs']; subst. apply wp_bind, wp_now. intros t. simpl.
    destruct r as [g|v].
    + by eapply root_generator_due, (Hcalled rs).
    + destruct v; [apply wp_ret; exists rs; split; [done|]; by apply (Hcalled rs)|..];
        (eapply root_values_due; [done|done|]; by apply (Hcalled rs)).
Qed.

Lemma root_worker_turn_due rs s :
  is_root cfg = true → Forall orderly rs → due rs (root_items rs) s →
  wp (worker_turn env cfg st free_pool fuel) root_left s.
Proof using Henv Hcfg Hfree Hpool Hplays.
  intros Hroot Hrs Hd. pose proof Henv as [_ Hputs Hstop Hdrain]. pose proof Hcfg as [Hout _ Hpark _ _].
  unfold worker_turn. rewrite Hout. apply wp_bind.
  pose proof (out_maybe_flush_emits env cfg free_pool fuel Hputs Hfree s (proj1 Hd)) as He.
  pose proof (maybe_flush_user env cfg free_pool fuel Hpool s) as Hu. unfold wp in *.
  destruct (out_maybe_flush env cfg free_pool fuel s) as [[[]|e|] [w1 l1]]; simpl in *; [|done..].
  assert (due rs (root_items rs) (w1, l1)) as Hd1 by (by eapply (emits_due [])).
  clear He Hu Hd. apply wp_try. eapply (wp_mono _ root_left); [|by intros [t|e|] s2].
  apply wp_bind, wp_look. rewrite Hstop. simpl. unfold _maybe_park. rewrite Hpark. simpl.
  apply wp_bind, wp_ret. rewrite Hroot. apply wp_bind.
  assert (∀ n, due rs (root_items rs) (World n (trace w1) (user w1), l1)) as Hd2 by done.
  destruct (negb (drain cfg) && has_drain_event cfg).
  - apply wp_look. rewrite Hdrain. by apply (root_turn_due rs).
  - apply wp_ret. by apply (root_turn_due rs).
Qed.

Lemma root_loop_due turns rs s :
  is_root cfg = true → Forall orderly rs → due rs (root_items rs) s →
  wp (main_loop env cfg st free_pool fuel turns)
     (λ r s', match r with Ok _ => ∃ rs, due rs [] s' | Raise _ => False | Spin => True end) s.
Proof using Henv Hcfg Hfree Hpool Hplays.
  intros Hroot Hrs Hd.
  apply (wp_loop (λ _ s, ∃ rs, Forall orderly rs ∧ due rs (root_items rs) s)); [by exists rs|done|].
  clear rs s Hrs Hd. intros _ [w l] (rs & Hrs & Hd). pose proof Henv as [_ _ Hstop _].
  apply wp_bind, wp_bind, wp_look. rewrite Hstop. apply wp_ret. simpl.
  apply wp_bind. eapply wp_mono; [by apply (root_worker_turn_due rs)|].
  intros [[]|e|] s2 Hs2; try done.
Qed.

(** The whole run of a root worker. *)
Lemma root_run_spec turns rs :
  is_root cfg = true → Forall orderly rs → total = root_items rs →
  wp (_worker_run env cfg st free_pool fuel None turns)
     (λ _ s', over (trace s'.1) →
        ∃ k, carried (omap out_msg (trace s'.1)) = root_items rs ++ replicate k End)
     (World 0 [] rs, init_locals cfg).
Proof using All.
  intros Hroot Hrs Htotal. destruct Hst as [Hflush Honpark].
  apply (run_up_to_loop env cfg st free_pool fuel Hcfg turns rs).
  { intros r s Hs Hov. by eapply fresh_not_over in Hov. }
  intros s Hs. pose proof (loop_not_over env cfg st free_pool fuel turns rs s Hs) as Hno.
  destruct s as [w l]. destruct Hs as (Htr & Hl & Hu). simpl in Htr, Hl, Hu. subst l.
  assert (due rs (root_items rs) (w, init_locals cfg)) as Hd.
  { unfold due, emitted, oc_bounded. simpl. rewrite Htr. split_and!; [lia|by exists 0%Z|by apply Hu, Hplays|done]. }
  pose proof (root_loop_due turns rs _ Hroot Hrs Hd) as H1. unfold wp at 1. unfold wp in H1.
  destruct (main_loop env cfg st free_pool fuel turns (w, init_locals cfg)) as [[t|e|] s1]; simpl in *;
    [|done|by intros Hov].
  destruct H1 as (rs' & Hb & _ & _ & He). rewrite app_nil_r, Htotal in He.
  destruct Henv as [_ Hputs _ _], Hcfg as [Hout Hcount _ _ _].
  assert (wp (after_loop env cfg st free_pool fuel)
    (λ _ s', over (trace s'.1) → ∃ k, carried (omap out_msg (trace s'.1)) = root_items rs ++ replicate k End) s1) as Hend.
  { eapply wp_mono; [by apply after_loop_delivers|]. intros r s2 Hs2 Hov.
    destruct (Hs2 Hov) as ((k & Hk) & _). exists k. by rewrite Hk, He. }
  destruct t; [exact Hend|exact Hend|by intros Hov].
Qed.
End root_run.

(** ** A pipeline of workers *)

(** [merges ls l]: [l] is an interleaving of the lists [ls]; what several
    workers put on one queue, or take off one. *)
Inductive merges {A} : list (list A) → list A → Prop :=
  | merges_nil ls : Forall (λ l, l = []) ls → merges ls []
  | merges_cons ls i x l l' :
      ls !! i = Some (x :: l) → merges (<[i := l]> ls) l' → merges ls (x :: l').

Lemma merges_one {A} (l l' : list A) : merges [l] l' → l' = l.
Proof.
  intros Hm. remember [l] as ls eqn:Els. revert l Els. induction Hm as [ls Hls|ls i x l1 l' Hi Hm IH]; intros l ->.
  - by inversion Hls.
  - destruct i as [|i]; [|done]. simpl in Hi. injection Hi as ->. simpl in *. f_equal. by apply IH.
Qed.

Lemma merges_perm {A} (ls : list (list A)) (l : list A) : merges ls l → l ≡ₚ concat ls.
Proof.
  induction 1 as [ls Hls|ls i x l l' Hi _ IH].
  - induction Hls as [|l0 ls -> _ IH]; [done|]. exact IH.
  - rewrite IH. clear IH. revert i Hi. induction ls as [|l0 ls IH]; intros i Hi; [done|].
    destruct i as [|i]; simpl in *; [by injection Hi as ->|].
    rewrite <-(IH i Hi). apply Permutation_middle.
Qed.

(** The messages a worker took and those it put. *)
Definition taken_by (tr : list action) : list msg := omap recv_msg tr.
Definition put_by (tr : list action) : list msg := omap out_msg tr.

(** A finished run of a middle worker whose stage computes [f], that lost no
    connection; and one of a root worker that gives the results [rs]. *)
Inductive worked `{ObjOps} (f : py → res result) : list action → Prop :=
  | Worked U env cfg (st : stage U) free_pool fuel turns u :
      undisturbed env → ordinary cfg → immediate st → computes st f → numeric cfg f →
      calm free_pool → is_root cfg = false →
      let tr := trace (_worker_run env cfg st free_pool fuel None turns (World 0 [] u, init_locals cfg)).2.1 in
      over tr → SetStop 2 ∉ tr → worked f tr.

Inductive sourced `{ObjOps} (rs : list result) : list action → Prop :=
  | Sourced env cfg st free_pool fuel turns :
      undisturbed env → ordinary cfg → immediate st → plays st → Forall orderly rs →
      calm free_pool → (∀ u, (free_pool u).2 = u) → is_root cfg = true →
      let tr := trace (_worker_run env cfg st free_pool fuel None turns (World 0 [] rs, init_locals cfg)).2.1 in
      over tr → sourced rs tr.

(** The workers of the stages [fs], as many per stage as [ns] says, took all
    of [ins] off the first queue and put [outs] on the last one; every queue
    was emptied. *)
Inductive ran `{ObjOps} : list nat → list (py → res result) → list msg → list msg → Prop :=
  | ran_nil ms : ran [] [] ms ms
  | ran_stage ns f fs trs ins outs ms :
      Forall (worked f) trs → merges (taken_by <$> trs) ins →
      merges (put_by <$> trs) outs → ran ns fs outs ms →
      ran (length trs :: ns) (f :: fs) ins ms.

(** No stage returns the sentinel that removes a worker from its pool. *)
Definition no_stops (l : list py) : Prop := WorkerStop ∉ l.

(** The hypotheses on traces, as tests. *)
Lemma over_check tr : existsb (λ a, match a with Finished => true | _ => false end) tr = true → over tr.
Proof.
  intros (a & Ha & Hf)%existsb_exists. apply list_elem_of_In. by destruct a.
Qed.

Lemma not_lost_check (tr : list action) : omap stop_of tr = [] → SetStop 2 ∉ tr.
Proof. intros Htr. rewrite lost_connection, Htr. apply not_elem_of_nil. Qed.

Lemma no_stops_check l : existsb _is_worker_stop l = false → no_stops l.
Proof.
  intros Hl Hin. apply not_true_iff_false in Hl. destruct Hl. apply existsb_exists.
  exists WorkerStop. split; [by apply list_elem_of_In|done].
Qed.

Lemma worked_delivers `{ObjOps} f tr :
  worked f tr → ∃ k, carried (put_by tr) = owed f tr ++ replicate k End.
Proof.
  intros [U env cfg st free_pool fuel turns u Henv Hcfg Hst Hf Hnum Hfree Hroot tr' Hov Hlost].
  pose proof (middle_run_spec env cfg st free_pool fuel f Henv Hcfg Hst Hf Hnum Hfree turns u Hroot) as Hw.
  unfold wp in Hw. by apply Hw.
Qed.

Lemma sourced_delivers `{ObjOps} rs tr :
  sourced rs tr → Forall orderly rs ∧ ∃ k, carried (put_by tr) = root_items rs ++ replicate k End.
Proof.
  intros [env cfg st free_pool fuel turns Henv Hcfg Hst Hplays Hrs Hfree Hpool Hroot tr' Hov].
  split; [done|].
  pose proof (root_run_spec env cfg st free_pool fuel Henv Hcfg Hst Hplays Hfree Hpool (root_items rs)
    turns rs Hroot Hrs eq_refl) as Hw.
  unfold wp in Hw. by apply Hw.
Qed.

Lemma reals_ends l k : reals (l ++ replicate k End) = reals l.
Proof. rewrite reals_app. replace (reals (replicate k End)) with (@nil py); [apply app_nil_r|]. by induction k. Qed.

Lemma elem_of_reals x l : x ∈ reals l ↔ x ∈ l ∧ is_real x = true.
Proof. unfold reals. rewrite list_elem_of_filter. tauto. Qed.

(** Without sentinels a list is all items. *)
Lemma reals_items l : no_stops l → End ∉ l → reals l = l.
Proof.
  intros Hs He. apply reals_all, Forall_forall. intros x Hx.
  by destruct x as [|[]| | | | | | | |].
Qed.

Lemma live_reals l : no_stops l → live l = reals l.
Proof.
  unfold no_stops, live, reals. induction l as [|x l IH]; intros Hs; [done|].
  apply not_elem_of_cons in Hs as [Hx Hs]. rewrite !filter_cons, IH by done.
  destruct x as [|[]| | | | | | | |]; done.
Qed.

(** The functions of the stages, on items. *)
Definition stage_items (f : py → res result) (l : list py) : list py := l ≫= λ x, result_items (f x).

Definition polite_stages (fs : list (py → res result)) : Prop :=
  Forall (λ f, ∀ x, no_stops (result_items (f x))) fs.

Lemma result_items_valid r : valid_items (result_items r) = result_items r.
Proof. destruct r as [[g|v]|e|]; try done; apply valid_items_idem. Qed.

Lemma result_items_ends r : End ∉ result_items r.
Proof.
  rewrite <-result_items_valid. unfold valid_items. rewrite list_elem_of_filter. by intros [? _].
Qed.

Lemma stage_items_real f l :
  (∀ x, no_stops (result_items (f x))) → no_stops (stage_items f l) ∧ End ∉ stage_items f l.
Proof.
  intros Hf. split; intros Hin; apply list_elem_of_bind in Hin as (x & Hx & _).
  - by eapply Hf.
  - by eapply result_items_ends.
Qed.

(** A worker puts the real items it owes, and no other but [End]. *)
Lemma worked_items `{ObjOps} f tr :
  (∀ x, no_stops (result_items (f x))) → worked f tr →
  reals (carried (put_by tr)) = stage_items f (reals (carried (taken_by tr))) ∧
  no_stops (carried (put_by tr)).
Proof.
  intros Hf Hw. destruct (worked_delivers f tr Hw) as [k ->]. rewrite reals_ends.
  unfold owed. fold (stage_items f (reals (received tr))).
  destruct (stage_items_real f (reals (received tr)) Hf) as [Hs He].
  split; [by apply reals_items|]. unfold no_stops. rewrite elem_of_app. intros [?|Hin]; [done|].
  by apply elem_of_replicate in Hin as [? _].
Qed.

#[export] Instance carried_perm : Proper ((≡ₚ) ==> (≡ₚ)) carried.
Proof. intros l l' Hl. unfold carried. by rewrite Hl. Qed.
#[export] Instance reals_perm : Proper ((≡ₚ) ==> (≡ₚ)) reals.
Proof. intros l l' Hl. unfold reals. by rewrite Hl. Qed.
#[export] Instance stage_items_perm f : Proper ((≡ₚ) ==> (≡ₚ)) (stage_items f).
Proof. intros l l' Hl. unfold stage_items. by rewrite Hl. Qed.
#[export] Instance pipeline_perm fs : Proper ((≡ₚ) ==> (≡ₚ)) (pipeline fs).
Proof. induction fs as [|f fs IH]; intros l l' Hl; simpl; [done|]. apply IH. by rewrite Hl. Qed.

Lemma carried_concat lss : carried (concat lss) = concat (carried <$> lss).
Proof. induction lss as [|ls lss IH]; [done|]. csimpl. by rewrite carried_app, IH. Qed.

(** One stage, whatever the number of its workers. *)
Lemma stage_delivers `{ObjOps} f trs ins outs :
  (∀ x, no_stops (result_items (f x))) → Forall (worked f) trs →
  merges (taken_by <$> trs) ins → merges (put_by <$> trs) outs →
  no_stops (carried outs) ∧
  reals (carried outs) ≡ₚ stage_items f (reals (carried ins)) ∧
  (length trs = 1%nat → reals (carried outs) = stage_items f (reals (carried ins))).
Proof.
  intros Hf Hall Hins Houts. split_and!.
  - unfold no_stops. rewrite (merges_perm _ _ Houts), carried_concat. intros Hin.
    apply list_elem_of_In, List.in_concat in Hin as (l & Hl%list_elem_of_In & Hx%list_elem_of_In).
    rewrite <-list_fmap_compose in Hl. apply list_elem_of_fmap in Hl as (tr & -> & Htr).
    destruct (worked_items f tr Hf) as [_ Hs]; [by eapply Forall_forall|]. done.
  - rewrite (merges_perm _ _ Houts), (merges_perm _ _ Hins), !carried_concat. clear Hins Houts.
    induction Hall as [|tr trs Htr _ IH]; [done|]. csimpl. rewrite !reals_app, IH.
    rewrite (proj1 (worked_items f tr Hf Htr)). unfold stage_items. by rewrite bind_app.
  - destruct trs as [|tr [|? ?]]; [done| |done]. intros _. inversion Hall as [|? ? Htr _]; subst.
    rewrite (merges_one _ _ Hins), (merges_one _ _ Houts). by apply worked_items.
Qed.

Lemma root_items_ends rs : End ∉ root_items rs.
Proof.
  assert (∀ l, End ∉ until_end l) as Hu.
  { induction l as [|x l IH]; [apply not_elem_of_nil|]. simpl. destruct (_is_end x) eqn:E; [apply not_elem_of_nil|].
    destruct (is_None x); [done|]. apply not_elem_of_cons. split; [by intros <-|done]. }
  induction rs as [|[g|v] rs IH]; simpl; [apply not_elem_of_nil| |].
  - unfold valid_items. rewrite list_elem_of_filter. by intros [? _].
  - rewrite elem_of_app. intros [Hin|Hin]; [by eapply Hu|]. destruct (has_end _); [|done].
    by apply not_elem_of_nil in Hin.
Qed.

(** All stages. *)
Lemma ran_delivers `{ObjOps} ns fs ins outs :
  ran ns fs ins outs → polite_stages fs → no_stops (carried ins) →
  no_stops (carried outs) ∧
  reals (carried outs) ≡ₚ pipeline fs (reals (carried ins)) ∧
  (Forall (λ n, n = 1%nat) ns → reals (carried outs) = pipeline fs (reals (carried ins))).
Proof.
  induction 1 as [ms|ns f fs trs ins mid outs Hall Hins Hmid _ IH]; intros Hfs Hno; [done|].
  inversion Hfs as [|? ? Hf Hfs']; subst.
  destruct (stage_delivers f trs ins mid Hf Hall Hins Hmid) as (Hno1 & Hp & He).
  destruct (IH Hfs' Hno1) as (Hno2 & Hp2 & He2). split_and!; [done|by rewrite Hp2, Hp|].
  intros Hns. inversion Hns as [|? ? Hn Hns']; subst. by rewrite (He2 Hns'), (He Hn).
Qed.

(** ** The last item of a stage *)

(** From tick [n] on the stage before is done and its last item is on the
    queue; until then the queue is empty. *)
Definition arrives (x : py) (n : nat) : environment := {|
  e_clock t := Z.of_nat t;
  e_should_stop _ := 0;
  e_upstream_done t := (n <=? t)%nat;
  e_drain _ := false;
  e_park _ := 0;
  e_hold _ := 0;
  e_in t := if (n <=? t)%nat then Ok (Bare x) else Raise Empty;
  e_in_put _ := Ok tt;
  e_out_put _ := Ok tt;
  e_torch _ := false;
  e_cuda _ := false;
  e_finished _ := 1;
  e_count _ := 1;
|}%Z.

Section race.
Context `{ObjOps} {U : Type} (cfg : config) (st : stage U) (free_pool : prog U unit) (fuel : nat).
Context (Hcfg : ordinary cfg) (Hroot : is_root cfg = false) (Hup : has_upstream cfg = true).
Context (Hdrain : drain cfg = true) (x : py) (n : nat).
Local Abbreviation WL := (world U * locals)%type.

(** A worker that has found its queue empty [k] times. *)
Definition idled (k : nat) (u : U) : WL :=
  (World (4 * k) [] u, set_empty (Z.of_nat k) (init_locals cfg)).

Lemma idle_next m (l : locals) (u : U) :
  (m < n)%nat → l_in l = Deque [] →
  next_item (arrives x n) cfg (World m [] u, l) =
  (Ok (inr (if (n <=? S m)%nat && (empty_threshold cfg <=? l_empty l + 1)%Z then Break else Continue)),
   (World (S (S m)) [] u, set_empty (l_empty l + 1) l)).
Proof using Hup.
  intros Hm Hl. unfold next_item, try_except, bind at 1, on_in, zoom, ic_get, ic_receive, bind at 1, get_obj.
  rewrite Hl. simpl. unfold answer, bind, observe, of_res, lift. simpl.
  rewrite (proj2 (Nat.leb_gt n m)) by done. simpl. rewrite Hup. by destruct l; simplify_eq/=.
Qed.

(** One turn on the empty queue: it ends, with [k + 1] empty polls, on the
    answer the event gives one tick after the queue was read. *)
Lemma idle_turn k u :
  (4 * k + 2 < n)%nat →
  worker_turn (arrives x n) cfg st free_pool fuel (World (S (4 * k)) [] u, set_empty (Z.of_nat k) (init_locals cfg)) =
  (Ok (if (n <=? 4 * k + 3)%nat && (empty_threshold cfg <=? Z.of_nat (S k))%Z then Break else Continue),
   idled (S k) u).
Proof using Hcfg Hroot Hup Hdrain.
  unfold idled. replace (4 * S k)%nat with (S (S (S (S (4 * k))))) by lia.
  replace (4 * k + 3)%nat with (S (S (S (4 * k)))) by lia.
  replace (4 * k + 2)%nat with (S (S (4 * k))) by lia. generalize (4 * k)%nat. intros m Hn.
  destruct Hcfg as [Hout _ Hpark _ _]. unfold worker_turn. rewrite Hout, Hroot, Hdrain.
  unfold bind at 1, out_maybe_flush, on_out, zoom, oc_maybe_flush, bind at 1. simpl.
  unfold try_except at 1, bind at 1. simpl. unfold _maybe_park. rewrite Hpark. unfold bind at 1 2. simpl.
  unfold bind at 1. simpl. unfold stage_turn, bind. rewrite idle_next by (done || lia). simpl.
  by replace (Z.of_nat (S k)) with (Z.of_nat k + 1)%Z by lia.
Qed.

(** The turns before the last one. *)
Lemma idle_turns j k turns u :
  (4 * (k + j) ≤ n)%nat →
  main_loop (arrives x n) cfg st free_pool fuel (j + turns) (idled k u) =
  main_loop (arrives x n) cfg st free_pool fuel turns (idled (k + j) u).
Proof using All.
  revert k. induction j as [|j IH]; intros k Hk; [by rewrite Nat.add_0_r|].
  replace (k + S j)%nat with (S k + j)%nat by lia. rewrite <-IH by lia.
  simpl plus. unfold main_loop at 1. simpl loop. unfold bind at 1, stopping at 1, bind at 1. simpl.
  unfold bind at 1. pose proof (idle_turn k u) as Ht. simpl in Ht. rewrite Ht by lia.
  rewrite (proj2 (Nat.leb_gt n _)) by lia. done.
Qed.

Lemma arrives_undisturbed : x ≠ WorkerStop → undisturbed (arrives x n).
Proof.
  intros Hx. split; try done; [|by left]. intros t. simpl. destruct (n <=? t)%nat; [|done].
  split; [done|]. simpl. rewrite not_elem_of_cons. split; [congruence|apply not_elem_of_nil].
Qed.
End race.

Lemma race_loop `{ObjOps} {U} (cfg : config) (st : stage U) (free_pool : prog U unit) fuel turns x u k :
  ordinary cfg → is_root cfg = false → has_upstream cfg = true → drain cfg = true →
  empty_threshold cfg = Z.of_nat (S k) → (k < turns)%nat →
  main_loop (arrives x (4 * k + 3)) cfg st free_pool fuel turns (World 0 [] u, init_locals cfg) =
  (Ok Break, idled cfg (S k) u).
Proof.
  intros Hcfg Hroot Hup Hdrain Hk Hturns. replace turns with (k + S (turns - S k))%nat by lia.
  replace (World 0 [] u, init_locals cfg) with (idled cfg 0 u) by done.
  rewrite idle_turns by (done || lia). unfold main_loop. simpl loop. unfold bind at 1, stopping at 1, bind at 1. simpl.
  unfold bind at 1. pose proof (idle_turn cfg st free_pool fuel Hcfg Hroot Hup Hdrain x (4 * k + 3) k u) as Ht.
  simpl in Ht. rewrite Ht by lia. by rewrite Hk, (proj2 (Nat.leb_le _ _)), (proj2 (Z.leb_le _ _)) by lia.
Qed.

(** ** Properties *)

(** C7: a pipeline of processes computes what sequential mode computes. For a
    root stage that gives any orderly sequence of results and stages that
    compute functions, let every worker have finished its run, undisturbed,
    and every message put on a queue have been taken off it: then the consumer
    that has iterated to the end has yielded the same items as
    [_sequential_run] yields on the same stages, each as often, whatever the
    number of workers, the chunk sizes, the failing puts, calls and
    generators, and the interleaving; and in the same order when every stage
    has one worker. *)
Theorem parallel_equals_sequential `{ObjOps} (rs : list result) (ns : list nat)
    (fs : list (py → res result)) (tr0 : list action) (outs : list msg)
    (cfg : settings) (senv : surroundings) (sf : surface) (nturns : nat)
    (v v' : Iterate.view) (b b' : in_buf)
    (root : seq_worker (list result)) (rest : list (seq_worker (list result))) (fuel : nat) :
  sourced rs tr0 → no_stops (root_items rs) → polite_stages fs →
  ran ns fs (put_by tr0) outs →
  (∀ t, f_should_stop sf t ≠ 2%Z) →
  (∀ t q e, f_get sf t q = Raise e → is_connection_error e = false) →
  __iter__ cfg senv sf nturns (v, b) = (Ok tt, (v', b')) →
  v_received v' = v_received v ++ outs →
  scripted_root root → Forall2 stage_of rest fs →
  (turns fs false ((rs, []), []) < fuel)%nat →
  ∃ s, _sequential_run (root :: rest) false fuel ((rs, []), []) = (Ok tt, s) ∧
    v_yielded v' ≡ₚ v_yielded v ++ s.2 ∧
    (Forall (λ n, n = 1%nat) ns → v_yielded v' = v_yielded v ++ s.2).
Proof.
  intros Hsrc Hroot Hfs Hran Hstop Hconn Hiter Hrecv Hscript Hrest Hfuel.
  destruct (sourced_delivers rs tr0 Hsrc) as [Hrs [k Hput]].
  assert (Forall (λ r, match r with RGen g => gen_raises g = None | RVal _ => True end) rs) as Hq.
  { eapply Forall_impl; [exact Hrs|]. by intros [g|x] Hr; [destruct Hr|]. }
  destruct (sequential_run_yields root rest fs rs fuel Hscript Hrest Hq Hfuel) as (s & Es & Hs & _).
  exists s. split; [done|].
  pose proof (iter_yields cfg senv sf nturns v b Hstop Hconn) as Hy.
  unfold wp in Hy. rewrite Hiter in Hy. destruct Hy as (ms & Hr & Hy & _). simpl in Hr, Hy. rewrite Hy.
  rewrite Hrecv in Hr. apply app_inv_head in Hr as <-.
  assert (no_stops (carried (put_by tr0))) as Hno.
  { rewrite Hput. unfold no_stops. rewrite elem_of_app. intros [?|Hin]; [done|].
    by apply elem_of_replicate in Hin as [? _]. }
  destruct (ran_delivers ns fs _ _ Hran Hfs Hno) as (Hno' & Hp & He).
  rewrite (live_reals _ Hno'), Hs.
  assert (reals (carried (put_by tr0)) = root_items rs) as Hitems.
  { rewrite Hput, reals_ends. apply reals_items; [done|]. apply root_items_ends. }
  rewrite Hitems in *. split; [by rewrite Hp|]. intros Hns. by rewrite He.
Qed.

Module ComposeDemo.
(** An outside that hands out the messages of a table, by tick; one put in
    seven finds the queue full. *)
Definition env (finished : Z) (table : list (nat * msg)) : environment := {|
  e_clock n := Z.of_nat n * 1000;
  e_should_stop _ := 0;
  e_upstream_done _ := true;
  e_drain _ := false;
  e_park _ := 0;
  e_hold _ := 0;
  e_in n := match list_find (λ x, x.1 = n) table with
            | Some (_, (_, m)) => Ok m
            | None => Raise Empty
            end;
  e_in_put _ := Ok tt;
  e_out_put n := if (n mod 7 =? 0)%nat then Raise Full else Ok tt;
  e_torch _ := false;
  e_cuda _ := false;
  e_finished _ := finished;
  e_count _ := 2;
|}%Z.

Definition cfg (root : bool) : config := {|
  is_root := root; has_out := true; has_upstream := true; has_drain_event := true;
  has_timing := true; has_counters := true; has_park := false; has_ipc := false;
  has_hold := false; has_busy := false; raise_errors := false; drain := true;
  batch_size := 0; out_chunk := 2; out_chunk_ms := 10; is_final_stage := negb root;
  expected_consumers := 1; retry_base := 1000; empty_threshold := 3; start_wall_time := 0;
|}%Z.

Definition root : stage (list result) := {|
  st_call arg rs :=
    match arg, rs with
    | None, r :: rs => (Ok r, rs)
    | None, [] => (Ok (RVal End), [])
    | Some _, rs => (Raise TypeError, rs)
    end;
  st_load := None; st_flush := None; st_on_park := None; st_on_unpark := None;
|}.
Definition script : list result :=
  [RVal (PyNum 1); RVal PyNone; RGen (Generator [PyNum 0; PyNone; PyNum 2] None)].

(** The root worker, and two workers of the stage [Demo.f] that share what it
    puts. *)
Definition root_trace : list action :=
  trace (_worker_run (H:=Demo.no_objects) (env 2 []) (cfg true) root (ret tt) 30 None 50
           (World 0 [] script, init_locals (cfg true))).2.1.
Definition table1 : list (nat * msg) := [(2, Chunk [PyNum 1; PyNum 0]); (17, Bare End)]%nat.
Definition table2 : list (nat * msg) := [(6, Chunk [PyNum 2])]%nat.
Definition worker_trace (finished : Z) (table : list (nat * msg)) : list action :=
  trace (_worker_run (H:=Demo.no_objects) (env finished table) (cfg false) Demo.st (ret tt) 30 None 50
           (World 0 [] 0%nat, init_locals (cfg false))).2.1.

(** The consumer, who finds these messages on the final queue. *)
Definition outs : list msg := [Chunk [PyNum 2; PyNum 4]; Chunk [PyNum 1; PyNum 2]; Bare End].
Definition messages (t q : nat) : res msg :=
  match t with
  | 1%nat => Ok (Chunk [PyNum 2; PyNum 4])
  | 4%nat => Ok (Chunk [PyNum 1; PyNum 2])
  | 7%nat => Ok (Bare End)
  | _ => Raise Empty
  end.

Lemma env_ok finished table :
  Forall (λ x : nat * msg, nonempty_msg x.2 = true ∧ no_stops (msg_items x.2)) table →
  undisturbed (env finished table).
Proof.
  intros Ht. split; [..|done|done].
  - intros t. simpl. destruct (list_find _ table) as [[i [n m]]|] eqn:E; [|done].
    apply list_find_Some in E as (Hi & _ & _). by apply (Forall_lookup_1 _ _ _ _ Ht Hi).
  - intros t. cbn [e_out_put env]. destruct (t mod 7 =? 0)%nat; [by right|by left].
Defined.

Lemma cfg_ok b : ordinary (cfg b).
Proof. by split. Defined.

Lemma demo_numeric_f : numeric (H:=Demo.no_objects) (cfg false) Demo.f.
Proof.
  intros x r Hx. unfold Demo.f in Hx. unfold input_audio. simpl.
  repeat case_match; simplify_eq/=; eauto.
Defined.

Lemma worker_ok finished table :
  Forall (λ x : nat * msg, nonempty_msg x.2 = true ∧ no_stops (msg_items x.2)) table →
  over (worker_trace finished table) → SetStop 2 ∉ worker_trace finished table →
  worked (H:=Demo.no_objects) Demo.f (worker_trace finished table).
Proof.
  intros Ht. refine (Worked _ nat (env finished table) (cfg false) Demo.st (ret tt) 30 50 0%nat
    (env_ok _ _ Ht) (cfg_ok _) _ Demo.computes_f demo_numeric_f _ eq_refl); [by split|done].
Defined.

Definition iterated : res unit * (Iterate.view * in_buf) :=
  __iter__ LifeDemo.cfg LifeDemo.env (IterDemo.surface_of 0 messages) 30
    (IterDemo.view0, new_in_buf).
End ComposeDemo.

Lemma parallel_equals_sequential_witness :
  ∃ s, _sequential_run [SeqDemo.root; SeqDemo.worker Demo.f] false 40 ((ComposeDemo.script, []), []) = (Ok tt, s) ∧
    v_yielded ComposeDemo.iterated.2.1 ≡ₚ v_yielded IterDemo.view0 ++ s.2 ∧
    (Forall (λ n, n = 1%nat) [2%nat] → v_yielded ComposeDemo.iterated.2.1 = v_yielded IterDemo.view0 ++ s.2).
Proof.
  pose proof (parallel_equals_sequential (H:=Demo.no_objects) ComposeDemo.script [2%nat] [Demo.f]
    ComposeDemo.root_trace ComposeDemo.outs LifeDemo.cfg LifeDemo.env
    (IterDemo.surface_of 0 ComposeDemo.messages) 30 IterDemo.view0 ComposeDemo.iterated.2.1
    new_in_buf ComposeDemo.iterated.2.2 SeqDemo.root [SeqDemo.worker Demo.f] 40) as H.
  apply H; clear H.
  - refine (Sourced _ (ComposeDemo.env 2 []) (ComposeDemo.cfg true) ComposeDemo.root (ret tt) 30 50
      (ComposeDemo.env_ok _ _ _) (ComposeDemo.cfg_ok _) _ _ _ _ _ eq_refl _); try done.
    + repeat constructor; by eexists.
    + by apply over_check.
  - by apply no_stops_check.
  - constructor; [|constructor]. intros x. apply no_stops_check. unfold Demo.f.
    repeat case_match; reflexivity.
  - apply (ran_stage [] Demo.f [] [ComposeDemo.worker_trace 1 ComposeDemo.table2;
        ComposeDemo.worker_trace 2 ComposeDemo.table1] _ ComposeDemo.outs); [..|apply ran_nil].
    + apply Forall_cons_2; [|apply Forall_cons_2; [|apply Forall_nil_2]]; (apply ComposeDemo.worker_ok;
        [repeat constructor; by apply no_stops_check|by apply over_check|by apply not_lost_check]).
    + replace (put_by ComposeDemo.root_trace) with
        [Chunk [PyNum 1; PyNum 0]; Chunk [PyNum 2]; Bare End] by (vm_compute; reflexivity).
      replace (taken_by <$> _) with [[Chunk [PyNum 2]]; [Chunk [PyNum 1; PyNum 0]; Bare End]]
        by (vm_compute; reflexivity).
      apply (merges_cons _ 1 _ [Bare End]); [done|]. apply (merges_cons _ 0 _ []); [done|].
      apply (merges_cons _ 1 _ []); [done|]. by repeat constructor.
    + replace (put_by <$> _) with [[Chunk [PyNum 2; PyNum 4]]; [Chunk [PyNum 1; PyNum 2]; Bare End]]
        by (vm_compute; reflexivity).
      apply (merges_cons _ 0 _ []); [done|]. apply (merges_cons _ 1 _ [Bare End]); [done|].
      apply (merges_cons _ 1 _ []); [done|]. by repeat constructor.
  - intros t. simpl. by destruct (decide (t = 0%nat)).
  - intros t q e. simpl. unfold ComposeDemo.messages.
    destruct t as [|[|[|[|[|[|[|[|t]]]]]]]]; simpl; intros [= <-]; reflexivity.
  - vm_compute. reflexivity.
  - vm_compute. reflexivity.
  - done.
  - repeat constructor; apply SeqDemo.stage_ok; intros [|[]|[]| |[|[] [|[] []]]| | | | |]; simpl; try done; by intros ? [= <-].
  - vm_compute. lia.
Defined.

(** C13: the last item of a stage can be lost. The grace of a worker counts the
    empty polls in a row before the upstream-done event was set too, and the
    event is read after the queue. So for every worker, whatever its
    [EMPTY_THRESHOLD], there is an undisturbed course of events in which the
    item is on the queue whenever the event is set, and the worker leaves its
    loop without it: it was idle, and the item and the event came between its
    last poll and its look at the event. *)
Theorem last_item_race `{ObjOps} {U} (cfg : config) (st : stage U) (free_pool : prog U unit)
    (fuel turns : nat) (x : py) (u : U) :
  ordinary cfg → is_root cfg = false → has_upstream cfg = true → drain cfg = true →
  (0 < empty_threshold cfg ≤ Z.of_nat turns)%Z → x ≠ WorkerStop →
  ∃ env, undisturbed env ∧
    (∀ t, e_upstream_done env t = true → e_in env t = Ok (Bare x)) ∧
    (∃ t, ∀ t', (t ≤ t')%nat → e_upstream_done env t' = true) ∧
    let '(r, s) := main_loop env cfg st free_pool fuel turns (World 0 [] u, init_locals cfg) in
    r = Ok Break ∧ received (trace s.1) = [].
Proof.
  intros Hcfg Hroot Hup Hdrain Hk Hx. set (k := Z.to_nat (empty_threshold cfg - 1)).
  exists (arrives x (4 * k + 3)). split; [by apply arrives_undisturbed|]. split; [|split].
  - intros t. simpl. by intros ->.
  - exists (4 * k + 3)%nat. intros t' Ht. by apply Nat.leb_le.
  - rewrite (race_loop _ _ _ _ _ _ _ k) by (done || lia). done.
Qed.

Lemma last_item_race_witness :
  ∃ env, undisturbed env ∧
    (∀ t, e_upstream_done env t = true → e_in env t = Ok (Bare (PyNum 5))) ∧
    (∃ t, ∀ t', (t ≤ t')%nat → e_upstream_done env t' = true) ∧
    let '(r, s) := main_loop (H:=Demo.no_objects) env (ComposeDemo.cfg false) Demo.st (ret tt) 30 3
                     (World 0 [] 0%nat, init_locals (ComposeDemo.cfg false)) in
    r = Ok Break ∧ received (trace s.1) = [].
Proof.
  pose proof (last_item_race (H:=Demo.no_objects) (ComposeDemo.cfg false) Demo.st (ret tt) 30 3
    (PyNum 5) 0%nat) as H.
  by apply H.
Defined.
