(* ===== verification/Web.v ===== *)
(** * The web server (web.py)

    A server in the process of the pipeline that hands the items of the last
    queue to HTTP clients, one per request, and [SerializerWorker], a stage that
    serializes them beforehand. The handlers run one at a time in the event
    loop, and none of them awaits anything: a request is one atomic step of the
    server, while workers and the threads of the pipeline act on. *)
From S2P Require Import Prelude Types Text Queues Channels Placement Jobs Lifecycle Shutdown.

(** ** Serialization *)

(** torch.save and lz4.frame.compress, if they are installed; [len()] of
    objects the server cannot see into; whether a [Response] can be built
    from a content and its headers. *)
Class WebDeps := {
  torch_save : option (py → res (list Byte.byte));
  lz4_compress : option (list Byte.byte → res (list Byte.byte));
  obj_len : py → res Z;
  response_accepts : py → py → Z → py → res unit;
}.

Section serialize.
Context `{WebDeps}.

(** [_torch.required(what)]. *)
Definition torch_required : res (py → res (list Byte.byte)) :=
  match torch_save with Some save => Ok save | None => Raise ImportError end.

Definition _validate_compression (compression : string) : res unit :=
  if bool_decide (compression = "lz4") && negb (bool_decide (is_Some lz4_compress)) then Raise ImportError
  else if bool_decide (compression = "none" ∨ compression = "lz4") then Ok tt
  else Raise ValueError.

Definition _serialize (item : py) (compression : string) : res (list Byte.byte) :=
  match torch_required with
  | Ok save =>
      match save item with
      | Ok data =>
          if bool_decide (compression = "lz4") then
            match lz4_compress with
            | Some compress => compress data
            | None => Raise NameError
            end
          else Ok data
      | Raise e => Raise e
      | Spin => Spin
      end
  | Raise e => Raise e
  | Spin => Spin
  end.

(** [SerializerWorker]: its state is the compression. *)
Definition new_serializer (compression : string) : res string :=
  match _validate_compression compression with
  | Ok _ => Ok compression
  | Raise e => Raise e
  | Spin => Spin
  end.

Definition serializer_call (compression : string) (item : py) : res py :=
  match _serialize item compression with
  | Ok serialized =>
      Ok (PyDict [("data", PyBytes serialized); ("compression", PyStr compression);
                  ("size_bytes", PyNum (Z.of_nat (length serialized)))])
  | Raise e => Raise e
  | Spin => Spin
  end.

(** [len(v)]. *)
Definition py_len (v : py) : res Z :=
  match v with
  | PyStr s => Ok (Z.of_nat (String.length s))
  | PyList l | PyTuple l => Ok (Z.of_nat (length l))
  | PyDict d => Ok (Z.of_nat (length d))
  | PyBytes b => Ok (Z.of_nat (length b))
  | PyTensor _ _ | PyObj _ => obj_len v
  | PyNone | PySent _ | PyNum _ => Raise TypeError
  end.
End serialize.

(** ** The server *)

(** What the outside answers, by tick: the clock; the queues of the pipeline,
    which a restart replaces; a [get] on a queue; [is_alive()] of its
    processes; [qsize()] of a queue. *)
Record web_outside := WebOutside {
  wo_clock : nat → Z;
  wo_queues : nat → list nat;
  wo_get : nat → nat → res msg;
  wo_alive : nat → list bool;
  wo_qsize : nat → nat → res Z;
}.

(** The messages taken off the queues, in order. *)
Record web_world := WebWorld {
  ww_tick : nat;
  ww_received : list msg;
}.

Record server := Server {
  s_compression : string;
  s_timeout : Z;
  s_pre_serialized : bool;
  s_items_served : Z;
  s_errors : Z;
  s_start_time : option Z;
  s_last_item_time : option Z;
  s_total_bytes : py;
  s_out_ch : option (nat * in_buf);
}.

Definition set_out_ch (c : option (nat * in_buf)) (s : server) : server :=
  Server (s_compression s) (s_timeout s) (s_pre_serialized s) (s_items_served s) (s_errors s)
    (s_start_time s) (s_last_item_time s) (s_total_bytes s) c.
Definition set_served (n : Z) (s : server) : server :=
  Server (s_compression s) (s_timeout s) (s_pre_serialized s) n (s_errors s)
    (s_start_time s) (s_last_item_time s) (s_total_bytes s) (s_out_ch s).
Definition set_errors (n : Z) (s : server) : server :=
  Server (s_compression s) (s_timeout s) (s_pre_serialized s) (s_items_served s) n
    (s_start_time s) (s_last_item_time s) (s_total_bytes s) (s_out_ch s).
Definition set_start_time (t : Z) (s : server) : server :=
  Server (s_compression s) (s_timeout s) (s_pre_serialized s) (s_items_served s) (s_errors s)
    (Some t) (s_last_item_time s) (s_total_bytes s) (s_out_ch s).
Definition set_last_item_time (t : Z) (s : server) : server :=
  Server (s_compression s) (s_timeout s) (s_pre_serialized s) (s_items_served s) (s_errors s)
    (s_start_time s) (Some t) (s_total_bytes s) (s_out_ch s).
Definition set_total_bytes (b : py) (s : server) : server :=
  Server (s_compression s) (s_timeout s) (s_pre_serialized s) (s_items_served s) (s_errors s)
    (s_start_time s) (s_last_item_time s) b (s_out_ch s).

(** What a client gets: 200 with a content and its headers, 503, or 500. *)
Inductive reply :=
  | Served (content compression : py) (items_served : Z) (size_bytes : py)
  | TimedOut
  | Failed (e : exn).

Record health_report := HealthReport {
  hr_alive : bool;
  hr_items_served : Z;
  hr_errors : Z;
  hr_uptime : Z;
  hr_last_item_ago : option Z;
}.

Record stats_report := StatsReport {
  sr_items_served : Z;
  sr_errors : Z;
  sr_uptime : Z;
  sr_total_bytes : py;
  sr_compression : string;
  sr_timeout : Z;
  sr_pre_serialized : bool;
  sr_queue_depth : option Z;
}.

Section server.
Context `{ObjOps} `{WebDeps} (o : web_outside) (fuel : nat).
Local Abbreviation P X := (prog (web_world * server) X).

Definition web_look {X} (f : nat → X) : prog web_world X := λ w,
  (Ok (f (ww_tick w)), WebWorld (S (ww_tick w)) (ww_received w)).
Definition web_now : P Z := lift (web_look (wo_clock o)).
Definition update_server (f : server → server) : P unit := let! s := get_obj in put_obj (f s).

Definition web_get (q : nat) : prog web_world msg := λ w,
  let r := wo_get o (ww_tick w) q in
  (r, WebWorld (S (ww_tick w)) (ww_received w ++ got_list r)).
(** A queue of the pipeline as the server sees it; it only takes from it. *)
Definition web_queue (q : nat) : queue web_world msg := {|
  q_put _ _ := raise Full;
  q_put_nowait _ := raise Full;
  q_get _ := web_get q;
  q_get_nowait := web_get q;
  q_encode := None;
  q_sent _ := [];
  q_recv := ww_received;
|}.

(** [PipeServer(pipe, compression, timeout, pre_serialized)], on the queues the
    pipeline has by then. *)
Definition new_server (queues : list nat) (compression : string) (timeout : Z)
    (pre_serialized : bool) : res server :=
  let s := Server compression timeout pre_serialized 0 0 None None (PyNum 0)
             ((λ q, (q, new_in_buf)) <$> last queues) in
  if pre_serialized then Ok s
  else match _validate_compression compression with
       | Ok _ => Ok s
       | Raise e => Raise e
       | Spin => Spin
       end.

(** [self.pipe.queues[-1]]. *)
Definition last_queue : P nat :=
  let! qs := lift (web_look (wo_queues o)) in
  match last qs with Some q => ret q | None => raise IndexError end.

(** The reader follows the last queue of the pipeline. *)
Definition follow_queue : P unit :=
  let reopen := let! q := last_queue in update_server (set_out_ch (Some (q, new_in_buf))) in
  let! s := get_obj in
  match s_out_ch s with
  | None => reopen
  | Some (q, _) => let! q' := last_queue in if decide (q = q') then ret tt else reopen
  end.

(** [self._out_ch.get(timeout)]. *)
Definition out_ch_get (timeout : Z) : P py :=
  let! s := get_obj in
  match s_out_ch s with
  | None => raise AttributeError
  | Some (q, b) =>
      zoom (λ '(w, _), (w, b)) (λ '(w, b) '(_, s), (w, set_out_ch (Some (q, b)) s))
        (ic_get (web_queue q) (Some timeout))
  end.

(** Wait for an item until the deadline; [End]s are skipped. *)
Definition wait_for_item (deadline : Z) : P py :=
  loop fuel (λ _ : unit,
    let! t := web_now in
    let remaining := (deadline - t)%Z in
    if (remaining <=? 0)%Z then raise Empty
    else
      let! item := out_ch_get remaining in
      ret (if _is_end item then inl tt else inr item)) tt.

(** What is sent for an item: content, compression and size. *)
Definition payload (s : server) (item : py) : res (py * py * py) :=
  if s_pre_serialized s then
    match item with
    | PyDict d =>
        match dict_get "data" d with
        | Some data =>
            match py_len data with
            | Ok n => Ok (data, default (PyStr "none") (dict_get "compression" d),
                          default (PyNum n) (dict_get "size_bytes" d))
            | Raise e => Raise e
            | Spin => Spin
            end
        | None => Raise ValueError
        end
    | _ => Raise ValueError
    end
  else
    match _serialize item (s_compression s) with
    | Ok data => Ok (PyBytes data, PyStr (s_compression s), PyNum (Z.of_nat (length data)))
    | Raise e => Raise e
    | Spin => Spin
    end.

(** Count an item and answer with it. *)
Definition respond (item : py) : P reply :=
  let! s := get_obj in
  let! (content, compression, size) := of_res (payload s item) in
  update_server (λ s, set_served (s_items_served s + 1) s) ;!
  (let! t := web_now in update_server (set_last_item_time t)) ;!
  (let! s := get_obj in
   let! total := of_res (py_add (s_total_bytes s) size) in
   update_server (set_total_bytes total)) ;!
  let! s := get_obj in
  of_res (response_accepts content compression (s_items_served s) size) ;!
  ret (Served content compression (s_items_served s) size).

(** The handlers of [GET /next]. *)
Definition on_error (e : exn) : P reply :=
  match e with
  | Empty | TimeoutError => ret TimedOut
  | _ =>
      if is_exception e then
        update_server (λ s, set_errors (s_errors s + 1) s) ;! ret (Failed e)
      else raise e
  end.

(** [GET /next]. *)
Definition get_next : P reply :=
  try_except
    (follow_queue ;!
     let! t := web_now in
     let! s := get_obj in
     let! item := wait_for_item (t + s_timeout s) in
     respond item) on_error.

(** Time since an instant; [None] and [0] count as unset. *)
Definition since (t : option Z) (now : Z) : option Z :=
  match t with
  | Some t => if (t =? 0)%Z then None else Some (now - t)%Z
  | None => None
  end.

(** [GET /health]. *)
Definition health : P health_report :=
  let! alive := lift (web_look (wo_alive o)) in
  let! s := get_obj in
  let! t := web_now in
  let! t' := web_now in
  ret (HealthReport (forallb id alive) (s_items_served s) (s_errors s)
         (default 0%Z (since (s_start_time s) t)) (since (s_last_item_time s) t')).

(** [GET /stats], without the two throughputs. *)
Definition stats : P stats_report :=
  let! t := web_now in
  let! s := get_obj in
  let! qs := lift (web_look (wo_queues o)) in
  let! depth :=
    match last qs with
    | None => ret None
    | Some q =>
        try_except (let! n := lift (web_look (λ t, wo_qsize o t q)) in
                    let! n := of_res n in ret (Some n))
          (λ e, if is_exception e then ret None else raise e)
    end in
  ret (StatsReport (s_items_served s) (s_errors s) (default 0%Z (since (s_start_time s) t))
         (s_total_bytes s) (s_compression s) (s_timeout s) (s_pre_serialized s) depth).

(** [n] requests for the next item, one after the other. *)
Fixpoint requests (n : nat) : P (list reply) :=
  match n with
  | O => ret []
  | S n =>
      let! r := get_next in
      let! rs := requests n in
      ret (r :: rs)
  end.
End server.

(** ** The life of the server *)

Section lifespan.
Context (cfg : settings) (env : surroundings) (out : outside).
Local Abbreviation P X := (prog (host * server) X).

(** What [lifespan] does before and after the requests. *)
Definition lifespan_startup (clock : Z) : P unit :=
  (let! s := get_obj in put_obj (set_start_time clock s)) ;!
  lift (λ '(p, log), let '(r, p') := start cfg env p in (r, (p', log))).
Definition lifespan_shutdown : P unit := lift (_stop out false).
End lifespan.

(** ** What a request does *)

Section requests_spec.
Context `{ObjOps} `{WebDeps} (o : web_outside) (fuel : nat).
Local Abbreviation S := (web_world * server)%type.
Local Abbreviation P X := (prog S X).

(** The pipeline keeps its last queue [q], and the broker is up. *)
Context (q : nat) (Hlast : ∀ t, last (wo_queues o t) = Some q).
Context (Hget : ∀ t, match wo_get o t q with
                     | Ok m => nonempty_msg m = true
                     | Raise e => e = Empty
                     | Spin => False
                     end).

(** From [s] to [s'] the payloads [items] were taken off the channel, and
    nothing else of the server changed. *)
Definition takes (items : list py) (s s' : S) : Prop :=
  ∃ buf ms rest, s_out_ch s.2 = Some (q, Deque buf) ∧
    ww_received s'.1 = ww_received s.1 ++ ms ∧ buf ++ carried ms = items ++ rest ∧
    s'.2 = set_out_ch (Some (q, Deque rest)) s.2.

(** The reader is open on the last queue. *)
Definition reading (s : S) : Prop := ∃ buf, s_out_ch s.2 = Some (q, Deque buf).

Lemma takes_nil s n : reading s → takes [] s (WebWorld n (ww_received s.1), s.2).
Proof.
  intros [buf Hb]. exists buf, [], buf. simpl. rewrite !app_nil_r. split_and!; [done..|].
  destruct s as [w []]. simpl in *. by subst.
Qed.

Lemma takes_reading items s s' : takes items s s' → reading s'.
Proof. intros (buf & ms & rest & _ & _ & _ & E). exists rest. by rewrite E. Qed.

Lemma takes_trans l1 l2 s1 s2 s3 : takes l1 s1 s2 → takes l2 s2 s3 → takes (l1 ++ l2) s1 s3.
Proof.
  intros (b1 & m1 & r1 & Hb1 & Hm1 & Hl1 & Hs1) (b2 & m2 & r2 & Hb2 & Hm2 & Hl2 & Hs2).
  rewrite Hs1 in Hb2. injection Hb2 as ->. exists b1, (m1 ++ m2), r2.
  split_and!; [done|by rewrite Hm2, Hm1, app_assoc| |by rewrite Hs2, Hs1].
  by rewrite carried_app, app_assoc, Hl1, <-app_assoc, Hl2, app_assoc.
Qed.

Lemma takes_tick items w s n s' :
  takes items (WebWorld n (ww_received w), s) s' → takes items (w, s) s'.
Proof. done. Qed.

Lemma follow_stays s : reading s → ∃ n, follow_queue o s = (Ok tt, (WebWorld n (ww_received s.1), s.2)).
Proof.
  intros [buf Hb]. destruct s as [w s]. simpl in *. exists (Datatypes.S (ww_tick w)).
  unfold follow_queue, last_queue, bind, get_obj. simpl. rewrite Hb. simpl. rewrite Hlast. simpl.
  by rewrite decide_True.
Qed.

Lemma out_ch_get_spec t s :
  reading s →
  wp (out_ch_get o t)
     (λ r s', match r with
              | Ok x => takes [x] s s'
              | Raise e => e = Empty ∧ takes [] s s'
              | Spin => False
              end) s.
Proof using Hget.
  destruct s as [w s]. intros [buf Hb]. simpl in Hb. unfold out_ch_get. apply wp_bind, wp_get_obj.
  rewrite Hb. apply wp_zoom. unfold wp, ic_get, ic_receive, bind, get_obj. simpl.
  assert (∀ x rest ms, buf ++ carried ms = x :: rest → ∀ n,
    takes [x] (w, s) (WebWorld n (ww_received w ++ ms), set_out_ch (Some (q, Deque rest)) s)) as Htook.
  { intros x rest ms E n. by exists buf, ms, rest. }
  destruct buf as [|x buf]; simpl.
  - unfold web_get, lift. simpl. specialize (Hget (ww_tick w)).
    destruct (wo_get o (ww_tick w) q) as [[x|[|x l]]|e|]; simpl; try done.
    + by apply (Htook x [] [Bare x]).
    + apply (Htook x l [Chunk (x :: l)]). simpl. by rewrite app_nil_r.
    + subst e. split; [done|]. exists [], [], []. by rewrite !app_nil_r.
  - destruct w as [n r]. pose proof (Htook x buf [] ltac:(by rewrite app_nil_r) n) as Ht.
    simpl in *. by rewrite app_nil_r in Ht.
Qed.

Definition all_ends (l : list py) : Prop := Forall (λ x, _is_end x = true) l.

(** Waiting skips [End]s and takes one item, or finds none. *)
Lemma wait_spec deadline s :
  reading s →
  wp (wait_for_item o fuel deadline)
     (λ r s', ∃ ends, all_ends ends ∧
        match r with
        | Ok x => _is_end x = false ∧ takes (ends ++ [x]) s s'
        | Raise e => e = Empty ∧ takes ends s s'
        | Spin => takes ends s s'
        end) s.
Proof using Hget.
  intros Hr. apply (wp_loop (λ _ s1, ∃ ends, all_ends ends ∧ takes ends s s1)).
  - exists []. split; [constructor|]. destruct s as [[n r] s]. exact (takes_nil _ n Hr).
  - done.
  - intros _ [w1 s1] (ends & He & Ht). apply wp_bind. unfold wp at 1. simpl.
    set (w2 := WebWorld _ _). assert (takes ends s (w2, s1)) as Ht2 by done.
    destruct (_ <=? 0)%Z; [by apply wp_raise; exists ends|].
    apply wp_bind. eapply wp_mono; [apply out_ch_get_spec; by eapply takes_reading|].
    intros [x|e|] s3 Hx; [|destruct Hx as [-> Hx]|done].
    + pose proof (takes_trans _ _ _ _ _ Ht2 Hx) as Ht3. apply wp_ret.
      destruct (_is_end x) eqn:E; simpl.
      * exists (ends ++ [x]). split; [|done]. apply Forall_app. split; [done|]. by constructor.
      * by exists ends.
    + exists ends. split; [done|]. split; [done|].
      pose proof (takes_trans _ _ _ _ _ Ht2 Hx) as Ht3. by rewrite app_nil_r in Ht3.
Qed.

(** *** The answer to an item *)

(** A server with the configuration of this one. *)
Context (s0 : server).
Definition configured (s : server) : Prop :=
  s_compression s = s_compression s0 ∧ s_pre_serialized s = s_pre_serialized s0.

Lemma payload_configured s x : configured s → payload s x = payload s0 x.
Proof. unfold payload. by intros [-> ->]. Qed.

(** An exception that is answered with a 500. *)
Definition plain (e : exn) : Prop := is_exception e = true ∧ e ≠ Empty ∧ e ≠ TimeoutError.

(** Serializing, counting bytes and building a response fail plainly. *)
Record plain_failures : Prop := {
  pf_payload x e : payload s0 x = Raise e → plain e;
  pf_add a b e : py_add a b = Raise e → plain e;
  pf_response c z k n e : response_accepts c z k n = Raise e → plain e;
}.
Context (Hplain : plain_failures).

(** The reply to the item [x]: its payload, or the exception that kept it from
    being sent. *)
Definition answers (x : py) (rep : reply) : Prop :=
  match rep with
  | Served c z _ n => payload s0 x = Ok (c, z, n)
  | TimedOut => False
  | Failed e =>
      payload s0 x = Raise e ∨
      ∃ c z n, payload s0 x = Ok (c, z, n) ∧
        ((∃ a, py_add a n = Raise e) ∨ ∃ k, response_accepts c z k n = Raise e)
  end.

Definition serializable (x : py) : bool := match payload s0 x with Ok _ => true | _ => false end.
Definition is_failed (r : reply) : bool := match r with Failed _ => true | _ => false end.
Definition counts {A} (p : A → bool) (l : list A) : Z := Z.of_nat (length (filter (λ x, p x = true) l)).

(** Nothing changed but the statistics. *)
Definition accounted (s s' : S) (served failed : Z) : Prop :=
  ww_received s'.1 = ww_received s.1 ∧ s_out_ch s'.2 = s_out_ch s.2 ∧ configured s'.2 ∧
  s_items_served s'.2 = (s_items_served s.2 + served)%Z ∧ s_errors s'.2 = (s_errors s.2 + failed)%Z.

Lemma respond_spec x s :
  configured s.2 →
  wp (respond o x)
     (λ r s', match r with
              | Ok rep => answers x rep ∧ is_failed rep = false ∧ serializable x = true ∧ accounted s s' 1 0
              | Raise e => plain e ∧ answers x (Failed e) ∧
                           accounted s s' (if serializable x then 1 else 0) 0
              | Spin => True
              end) s.
Proof using Hplain.
  destruct s as [w s]. intros Hc. unfold respond. apply wp_bind, wp_get_obj, wp_bind. unfold wp at 1. simpl.
  unfold serializable, answers, accounted. rewrite (payload_configured s x Hc).
  destruct (payload s0 x) as [[[c z] n]|e|] eqn:Hp; simpl; [|split_and!; [by eapply (pf_payload Hplain)|by left|done|done|done|lia|lia]|done].
  apply wp_bind. unfold wp at 1. simpl. apply wp_bind. unfold wp at 1. simpl.
  apply wp_bind. apply wp_bind, wp_get_obj, wp_bind. unfold wp at 1. simpl.
  destruct (py_add (s_total_bytes s) n) as [total|e|] eqn:Ha; simpl.
  - unfold wp at 1. simpl. apply wp_bind, wp_get_obj, wp_bind. unfold wp at 1. simpl.
    destruct (response_accepts c z _ n) as [[]|e|] eqn:Hr; simpl.
    + apply wp_ret. simpl. split_and!; [done|done|done|done|done|done|lia..].
    + split_and!; [by eapply (pf_response Hplain)| |done|done|done|lia..]. right. exists c, z, n. eauto.
    + done.
  - split_and!; [by eapply (pf_add Hplain)| |done|done|done|lia..]. right. exists c, z, n. eauto.
  - done.
Qed.

(** From [s] to [s'] the payloads [items] came off the channel, and so many
    items were counted as served and as errors. *)
Definition moves (items : list py) (served failed : Z) (s s' : S) : Prop :=
  (∃ buf ms rest, s_out_ch s.2 = Some (q, Deque buf) ∧ s_out_ch s'.2 = Some (q, Deque rest) ∧
     ww_received s'.1 = ww_received s.1 ++ ms ∧ buf ++ carried ms = items ++ rest) ∧
  configured s'.2 ∧ s_items_served s'.2 = (s_items_served s.2 + served)%Z ∧
  s_errors s'.2 = (s_errors s.2 + failed)%Z.

Lemma moves_reading items a b s s' : moves items a b s s' → reading s'.
Proof. intros [(? & ? & rest & _ & ? & _) _]. by exists rest. Qed.

Lemma moves_trans l1 l2 a1 a2 b1 b2 s1 s2 s3 :
  moves l1 a1 b1 s1 s2 → moves l2 a2 b2 s2 s3 → moves (l1 ++ l2) (a1 + a2) (b1 + b2) s1 s3.
Proof.
  intros ((u1 & m1 & r1 & Hu1 & Hr1 & Hm1 & E1) & _ & Ha1 & Hb1)
    ((u2 & m2 & r2 & Hu2 & Hr2 & Hm2 & E2) & Hc & Ha2 & Hb2).
  split; [|split_and!; [done|lia..]]. rewrite Hr1 in Hu2. injection Hu2 as <-.
  exists u1, (m1 ++ m2), r2. split_and!; [done|done|by rewrite Hm2, Hm1, app_assoc|].
  by rewrite carried_app, app_assoc, E1, <-app_assoc, E2, app_assoc.
Qed.

Lemma takes_moves items s s' : configured s.2 → takes items s s' → moves items 0 0 s s'.
Proof.
  intros Hc (buf & ms & rest & Hb & Hm & E & Hs). unfold moves. rewrite Hs. split; [by exists buf, ms, rest|].
  split_and!; [done|simpl; lia..].
Qed.

Lemma accounted_moves a b s s' : reading s → accounted s s' a b → moves [] a b s s'.
Proof.
  intros [buf Hb] (Hr & Ho & Hc & Ha & He). split; [|done].
  exists buf, [], buf. by rewrite Ho, Hr, Hb, !app_nil_r.
Qed.

(** One request: an item and its answer, or nothing in time. *)
Definition request_left (s : S) (r : res reply) (s' : S) : Prop :=
  match r with
  | Ok TimedOut => ∃ items, live items = [] ∧ moves items 0 0 s s'
  | Ok rep =>
      ∃ items x, live items = [x] ∧ answers x rep ∧
        moves items (if serializable x then 1 else 0) (if is_failed rep then 1 else 0) s s'
  | Raise _ => False
  | Spin => True
  end.

Lemma live_ends l : all_ends l → live l = [].
Proof. intros Hl. apply filter_none. eapply Forall_impl; [exact Hl|]. by intros x ->. Qed.

Lemma get_next_spec s :
  reading s → configured s.2 → wp (get_next o fuel) (request_left s) s.
Proof using Hlast Hget Hplain.
  intros Hr Hc. unfold get_next. apply wp_try, wp_bind.
  destruct (follow_stays s Hr) as [n Hf]. apply (wp_eq _ _ _ _ _ Hf).
  assert (takes [] s (WebWorld n (ww_received s.1), s.2)) as Ht0 by by apply takes_nil.
  apply wp_bind. unfold wp at 1. simpl. apply wp_bind, wp_get_obj, wp_bind.
  eapply wp_mono; [apply wait_spec; destruct Hr as [buf Hb]; by exists buf|].
  intros r [w1 s1] (ends & He & Hx). destruct r as [x|e|]; [|destruct Hx as [-> Hx]|done].
  - destruct Hx as [Hx Ht]. pose proof (takes_trans _ _ _ _ _ Ht0 Ht) as Ht1. simpl in Ht1.
    pose proof (takes_moves _ _ _ Hc Ht1) as Hm. pose proof (proj1 (proj2 Hm)) as Hc1.
    assert (live (ends ++ [x]) = [x]) as Hl.
    { rewrite live_app, (live_ends _ He). unfold live. simpl. by rewrite filter_cons_True. }
    eapply wp_mono; [by apply respond_spec|]. intros [rep|e|] s2; [| |done].
    + intros (Ha & Hf1 & Hs1 & Hacc). pose proof (accounted_moves _ _ _ _ (moves_reading _ _ _ _ _ Hm) Hacc) as Hm2.
      pose proof (moves_trans _ _ _ _ _ _ _ _ _ Hm Hm2) as Hm3. rewrite app_nil_r in Hm3.
      destruct rep; try done; exists (ends ++ [x]), x; rewrite Hs1; split_and!; done.
    + intros ((Hex & Hne & Hnt) & Ha & Hacc).
      pose proof (accounted_moves _ _ _ _ (moves_reading _ _ _ _ _ Hm) Hacc) as Hm2.
      pose proof (moves_trans _ _ _ _ _ _ _ _ _ Hm Hm2) as Hm3. rewrite app_nil_r in Hm3.
      assert (on_error e = (update_server (λ s, set_errors (s_errors s + 1) s) ;! ret (Failed e) : P reply)) as ->.
      { unfold on_error. rewrite Hex. by destruct e. }
      destruct s2 as [w2 s2]. unfold wp. simpl. exists (ends ++ [x]), x. split_and!; [done|done|].
      assert (moves [] 0 1 (w2, s2) (w2, set_errors (s_errors s2 + 1) s2)) as Hm4.
      { apply accounted_moves; [by eapply moves_reading|]. split_and!; try done; simpl; [apply Hm3|lia]. }
      pose proof (moves_trans _ _ _ _ _ _ _ _ _ Hm3 Hm4) as Hm5. rewrite app_nil_r in Hm5.
      by rewrite !Z.add_0_l, ?Z.add_0_r in Hm5.
  - pose proof (takes_trans _ _ _ _ _ Ht0 Hx) as Ht1. simpl in Ht1. unfold wp. simpl.
    exists ends. split; [by apply live_ends|]. by apply takes_moves.
Qed.

(** Replies and the items they answer. *)
Definition timed_out (r : reply) : bool := match r with TimedOut => true | _ => false end.
Definition answered (rs : list reply) : list reply := filter (λ r, timed_out r = false) rs.

Lemma counts_cons {A} (p : A → bool) x l : counts p (x :: l) = ((if p x then 1 else 0) + counts p l)%Z.
Proof. unfold counts. rewrite filter_cons. destruct (p x); simpl; [lia|done]. Qed.

Lemma requests_spec_n n s :
  reading s → configured s.2 →
  wp (requests o fuel n)
     (λ r s', match r with
              | Ok rs => ∃ items, Forall2 answers (live items) (answered rs) ∧
                  moves items (counts serializable (live items)) (counts is_failed rs) s s'
              | Raise _ => False
              | Spin => True
              end) s.
Proof using Hlast Hget Hplain.
  revert s. induction n as [|n IH]; intros s Hr Hc; simpl.
  { apply wp_ret. exists []. split; [constructor|]. apply takes_moves; [done|].
    destruct s as [[m r] s]. exact (takes_nil _ m Hr). }
  apply wp_bind. eapply wp_mono; [by apply get_next_spec|]. intros r s1 Hs1.
  assert (∀ rep items a b, r = Ok rep → moves items a b s s1 →
    wp (let! rs := requests o fuel n in ret (rep :: rs))
       (λ r s', match r with
              | Ok rs => ∃ rs' items', rs = rep :: rs' ∧ Forall2 answers (live items') (answered rs') ∧
                  moves (items ++ items') (a + counts serializable (live items')) (b + counts is_failed rs') s s'
              | Raise _ => False
              | Spin => True
              end) s1) as Hrest.
  { intros rep items a b -> Hm. apply wp_bind.
    eapply wp_mono; [apply IH; [by eapply moves_reading|apply Hm]|].
    intros [rs|e|] s2; [|done..]. intros (items' & Ha & Hm2). apply wp_ret. exists rs, items'.
    split_and!; [done|done|]. by eapply moves_trans. }
  destruct r as [rep|e|]; [|done..].
  assert (∀ items a b, moves items a b s s1 → (timed_out rep = true → live items = []) →
    (timed_out rep = false → ∃ x, live items = [x] ∧ answers x rep ∧ a = (if serializable x then 1 else 0)%Z) →
    (timed_out rep = true → a = 0%Z) → b = (if is_failed rep then 1 else 0)%Z →
    wp (let! rs := requests o fuel n in ret (rep :: rs))
       (λ r s', match r with
              | Ok rs => ∃ items, Forall2 answers (live items) (answered rs) ∧
                  moves items (counts serializable (live items)) (counts is_failed rs) s s'
              | Raise _ => False
              | Spin => True
              end) s1) as Hdone.
  { intros items a b Hm Hnone Hone Ha Hb. eapply wp_mono; [by eapply Hrest|].
    intros [rs|e|] s2; [|done..]. intros (rs' & items' & -> & Hans & Hm2). exists (items ++ items').
    unfold answered. rewrite live_app, counts_cons, filter_cons. rewrite Hb in Hm2.
    destruct (timed_out rep).
    - rewrite Hnone by done. rewrite Ha in Hm2 by done. done.
    - destruct Hone as (x & Hl & Hx & Hax); [done|]. rewrite Hl. simpl. rewrite counts_cons, <-Hax.
      split; [by constructor|done]. }
  destruct rep as [c z k m| |e]; simpl in Hs1.
  - destruct Hs1 as (items & x & Hl & Ha & Hm). eapply Hdone; [exact Hm|done|by exists x|done|done].
  - destruct Hs1 as (items & Hl & Hm). by eapply Hdone.
  - destruct Hs1 as (items & x & Hl & Ha & Hm). eapply Hdone; [exact Hm|done|by exists x|done|done].
Qed.
End requests_spec.

(** *** A request ends *)

Section request_ends.
Context `{ObjOps} `{WebDeps} (o : web_outside) (fuel : nat).
Local Abbreviation S := (web_world * server)%type.

(** Nothing waits for ever: not a [get] with its timeout, not the code that is
    called. *)
Record all_answer : Prop := {
  aa_get t q : wo_get o t q ≠ Spin;
  aa_payload s x : payload s x ≠ Spin;
  aa_add a b : py_add a b ≠ Spin;
  aa_response c z k n : response_accepts c z k n ≠ Spin;
}.
Context (Hall : all_answer).

(** [N] ticks take the timeout. *)
Context (timeout : Z) (N : nat).
Context (Hclock : ∀ t t', (t + N ≤ t')%nat → (wo_clock o t + timeout ≤ wo_clock o t')%Z).

Lemma out_ch_get_ends t s : (out_ch_get o t s).1 ≠ Spin ∧ (ww_tick s.1 ≤ ww_tick (out_ch_get o t s).2.1)%nat.
Proof using Hall.
  destruct s as [w s]. unfold out_ch_get, bind, get_obj. destruct (s_out_ch s) as [[q b]|]; simpl; [|done].
  unfold zoom, ic_get, ic_receive, bind, get_obj, lift, buf_popleft. simpl.
  pose proof (aa_get Hall (ww_tick w) q) as Hg. unfold web_get.
  destruct b as [[|x l]|[|x l]]; simpl; try (split; [done|lia]);
    destruct (wo_get o (ww_tick w) q) as [[v|[|v l]]|e|]; simpl; (split; [done|lia]).
Qed.

Lemma wait_ends T s :
  (T + N - ww_tick s.1 < fuel)%nat →
  (wait_for_item o fuel (wo_clock o T + timeout) s).1 ≠ Spin.
Proof using All.
  intros Hf. apply (loop_terminates (λ _ _, True) (λ _ s, T + N - ww_tick s.1)%nat); [|done|done].
  clear s Hf. intros _ [w s] _. unfold bind at 1 3. simpl.
  destruct (_ <=? 0)%Z eqn:Hd; [done|]. boolify.
  assert (ww_tick w < T + N)%nat as Hlt.
  { destruct (decide (T + N ≤ ww_tick w)%nat) as [Hle|]; [|lia]. specialize (Hclock _ _ Hle). lia. }
  set (d := (_ - _)%Z). set (s1 := (WebWorld _ _, s)).
  destruct (out_ch_get_ends d s1) as [Hs Ht]. unfold bind.
  destruct (out_ch_get o d s1) as [[x|e|] s2]; simpl in *; [|done..].
  split; [done|]. intros [] s' [= _ <-]. split; [done|]. lia.
Qed.

Lemma follow_ends s : ∃ r w' s', follow_queue o s = (r, (w', s')) ∧ r ≠ Spin ∧
  (ww_tick s.1 ≤ ww_tick w')%nat ∧ s_timeout s' = s_timeout s.2.
Proof.
  destruct s as [w s]. unfold follow_queue, last_queue, bind, get_obj. simpl.
  destruct (s_out_ch s) as [[q b]|]; simpl; destruct (last (wo_queues o (ww_tick w))) as [q'|]; simpl;
    try destruct (decide (q = q')); simpl;
    try (destruct (last (wo_queues o (Datatypes.S (ww_tick w)))); simpl); do 3 eexists; (split; [reflexivity|]; split_and!; [done|simpl; lia|done]).
Qed.

Lemma respond_ends x s : (respond o x s).1 ≠ Spin.
Proof using Hall.
  destruct s as [w s]. unfold respond, bind at 1, get_obj. simpl. unfold bind at 1, of_res.
  pose proof (aa_payload Hall s x). destruct (payload s x) as [[[c z] n]|e|]; [|done..].
  unfold bind at 1. simpl. unfold bind at 1. simpl. unfold bind at 1, bind at 1. simpl. unfold bind at 1. simpl.
  pose proof (aa_add Hall (s_total_bytes s) n). unfold of_res. destruct (py_add (s_total_bytes s) n); [|done..].
  unfold bind. simpl. unfold of_res.
  pose proof (aa_response Hall c z (s_items_served s + 1)%Z n) as Hr.
  destruct (response_accepts c z (s_items_served s + 1)%Z n); done.
Qed.

Lemma get_next_ends s :
  s_timeout s.2 = timeout → (N < fuel)%nat → (get_next o fuel s).1 ≠ Spin.
Proof using All.
  intros Ht Hf. unfold get_next, try_except, bind at 1.
  destruct (follow_ends s) as (r & w1 & s1 & -> & Hr & _ & Hs1).
  assert (∀ e s, (on_error e s : res reply * S).1 ≠ Spin) as Herr.
  { intros e [w2 s2]. unfold on_error. destruct e; try done. }
  destruct r as [[]|e|]; [|apply Herr|done]. unfold bind at 1. simpl. unfold bind at 1, get_obj. simpl.
  rewrite Hs1, Ht. unfold bind.
  pose proof (wait_ends (ww_tick w1) (WebWorld (Datatypes.S (ww_tick w1)) (ww_received w1), s1)) as Hw. simpl in Hw.
  destruct (wait_for_item o fuel _ _) as [[x|e|] s2]; [|apply Herr|destruct Hw; [lia|done]].
  pose proof (respond_ends x s2). destruct (respond o x s2) as [[rep|e|] s3]; [done|apply Herr|done].
Qed.
End request_ends.

(** ** Properties *)

(** C10: a server hands every item out once, in order. While the pipeline keeps
    its last queue, any number of requests for [/next] answer the items taken
    off that queue, one each and in their order, [End]s skipped: with the item's
    content, or with a 500 that names the exception of its serialization, of
    the counting of its bytes or of its response; in between, requests that
    found nothing in time get a 503 and take nothing. The counters account for
    it: an item is counted as served once it is serialized, even if it is
    answered with a 500 later, and every 500 is counted as an error. *)
Theorem requests_serve_in_order `{ObjOps} `{WebDeps} (o : web_outside) (fuel n q : nat)
    (w : web_world) (s : server) (buf : list py) :
  (∀ t, last (wo_queues o t) = Some q) →
  (∀ t, match wo_get o t q with
        | Ok m => nonempty_msg m = true
        | Raise e => e = Empty
        | Spin => False
        end) →
  plain_failures s → s_out_ch s = Some (q, Deque buf) →
  let '(r, (w', s')) := requests o fuel n (w, s) in
  match r with
  | Ok rs =>
      ∃ ms rest xs, ww_received w' = ww_received w ++ ms ∧ s_out_ch s' = Some (q, Deque rest) ∧
        live (buf ++ carried ms) = xs ++ live rest ∧
        Forall2 (answers s) xs (answered rs) ∧
        s_items_served s' = (s_items_served s + counts (serializable s) xs)%Z ∧
        s_errors s' = (s_errors s + counts is_failed rs)%Z
  | Raise _ => False
  | Spin => True
  end.
Proof.
  intros Hlast Hget Hplain Hbuf.
  pose proof (requests_spec_n o fuel q Hlast Hget s Hplain n (w, s)) as Hn.
  unfold wp in Hn. destruct (requests o fuel n (w, s)) as [r [w' s']]. simpl in Hn.
  specialize (Hn ltac:(by exists buf) ltac:(done)). destruct r as [rs|e|]; [|done..].
  destruct Hn as (items & Ha & (b & ms & rest & Hb & Hr & Hm & E) & _ & Hs & He). simpl in *.
  rewrite Hbuf in Hb. injection Hb as <-. exists ms, rest, (live items).
  by rewrite E, live_app.
Qed.

(** A [SerializerWorker] as last stage changes nothing for the clients. A
    server told that its items are serialized answers what the worker made of
    an item exactly as a server that serializes the item itself: the same
    content, compression, size and counters, the same later failures; an item
    that the server cannot serialize fails in the worker with the same
    exception. And the two accept the same compressions. *)
Theorem serializer_worker_equivalent `{ObjOps} `{WebDeps} (o : web_outside) (x : py)
    (w : web_world) (s : server) (qs : list nat) :
  s_pre_serialized s = false →
  let pre := λ s : server, Server (s_compression s) (s_timeout s) true (s_items_served s) (s_errors s)
    (s_start_time s) (s_last_item_time s) (s_total_bytes s) (s_out_ch s) in
  match serializer_call (s_compression s) x with
  | Ok d => respond o d (w, pre s) = let '(r, (w', s')) := respond o x (w, s) in (r, (w', pre s'))
  | Raise e => respond o x (w, s) = (Raise e, (w, s))
  | Spin => respond o x (w, s) = (Spin, (w, s))
  end ∧
  match new_serializer (s_compression s), new_server qs (s_compression s) (s_timeout s) false with
  | Ok c, Ok s' => c = s_compression s'
  | Raise e, Raise e' => e = e'
  | Spin, Spin => True
  | _, _ => False
  end.
Proof.
  intros Hpre pre. split.
  - unfold serializer_call. destruct (_serialize x (s_compression s)) as [data|e|] eqn:Hser.
    + set (d := PyDict _).
      assert (payload (pre s) d = payload s x) as Hd.
      { unfold payload. rewrite Hpre, Hser. done. }
      unfold respond, bind, get_obj, of_res. cbn -[payload]. rewrite Hd. unfold payload. rewrite Hpre, Hser.
      cbn. destruct (py_add _ _) as [t|e|]; cbn; [|done..].
      by destruct (response_accepts _ _ _ _) as [[]|e|].
    + unfold respond, bind, get_obj, of_res. cbn -[payload]. unfold payload. by rewrite Hpre, Hser.
    + unfold respond, bind, get_obj, of_res. cbn -[payload]. unfold payload. by rewrite Hpre, Hser.
  - unfold new_serializer, new_server. by destruct (_validate_compression (s_compression s)).
Qed.

(** a request comes back. If a [get] with a timeout returns and [N] ticks
    of the clock take the timeout of the server, then [GET /next] ends within
    [N + 1] turns of its loop, whatever comes off the queues: [End]s without
    number cannot hold it beyond its deadline. *)
Theorem get_next_returns `{ObjOps} `{WebDeps} (o : web_outside) (fuel N : nat)
    (s : web_world * server) :
  all_answer o → 
  (∀ t t', (t + N ≤ t')%nat → (wo_clock o t + s_timeout s.2 ≤ wo_clock o t')%Z) →
  (N < fuel)%nat →
  (get_next o fuel s).1 ≠ Spin.
Proof. intros Hall Hclock Hf. by apply (get_next_ends o fuel Hall (s_timeout s.2) N). Qed.

Module WebDemo.
(** Numbers below 3 are serialized to two bytes; a content that starts with
    the byte 2 is refused by the response. *)
Definition no_objects : ObjOps :=
  {| obj_truth _ := Ok true; obj_add _ _ := Raise TypeError;
     obj_get_duration _ := Raise AttributeError; obj_iter _ := Raise TypeError |}.
Definition byte_of (n : Z) : Byte.byte :=
  if decide (n = 1%Z) then Byte.x01 else if decide (n = 2%Z) then Byte.x02 else Byte.x00.
Definition deps : WebDeps := {|
  torch_save := Some (λ x, match x with
                           | PyNum n => if decide (0 ≤ n < 3)%Z then Ok [byte_of n; byte_of n] else Raise ValueError
                           | _ => Raise TypeError
                           end);
  lz4_compress := Some (λ l, Ok (take 1 l));
  obj_len _ := Raise TypeError;
  response_accepts c z k n := match c with PyBytes (Byte.x02 :: _) => Raise AttributeError | _ => Ok tt end;
|}.
Definition out : web_outside := {|
  wo_clock t := seconds (Z.of_nat t);
  wo_queues _ := [3; 7]%nat;
  wo_get t q :=
    if decide (q = 7%nat) then
      (if decide (t = 3%nat) then Ok (Chunk [End; PyNum 1; PyNum 5])
       else if decide (t = 12%nat) then Ok (Bare (PyNum 2)) else Raise Empty)
    else Raise Empty;
  wo_alive _ := [];
  wo_qsize _ _ := Ok 0%Z;
|}.
Definition start : web_world * server :=
  (WebWorld 0 [], Server "lz4" (seconds 5) false 0 0 None None (PyNum 0) (Some (7%nat, Deque []))).

Lemma plain_out : plain_failures (H:=no_objects) (H0:=deps) start.2.
Proof.
  split.
  - intros x e. destruct x; try (by intros [= <-]). unfold payload, _serialize. simpl.
    destruct (decide _); [done|]. by intros [= <-].
  - intros a b e. destruct a, b; simpl; intros [= <-]; done.
  - intros c z k n e. simpl. repeat case_match; simplify_eq/=; try done. by intros [= <-].
Defined.
End WebDemo.

Local Abbreviation demo_requests :=
  (requests (H:=WebDemo.no_objects) (H0:=WebDemo.deps) WebDemo.out 50 4 WebDemo.start).

Lemma requests_serve_in_order_witness :
  (demo_requests.1 = Ok [Served (PyBytes [Byte.x01]) (PyStr "lz4") 1 (PyNum 1); Failed ValueError;
                         Failed AttributeError; TimedOut] ∧
   s_items_served demo_requests.2.2 = 2%Z ∧ s_errors demo_requests.2.2 = 2%Z) ∧
  let '(r, (w', s')) := demo_requests in
  match r with
  | Ok rs =>
      ∃ ms rest xs, ww_received w' = ww_received WebDemo.start.1 ++ ms ∧ s_out_ch s' = Some (7%nat, Deque rest) ∧
        live ([] ++ carried ms) = xs ++ live rest ∧
        Forall2 (answers (H:=WebDemo.no_objects) (H0:=WebDemo.deps) WebDemo.start.2) xs (answered rs) ∧
        s_items_served s' = (s_items_served WebDemo.start.2 +
                               counts (serializable (H0:=WebDemo.deps) WebDemo.start.2) xs)%Z ∧
        s_errors s' = (s_errors WebDemo.start.2 + counts is_failed rs)%Z
  | Raise _ => False
  | Spin => True
  end.
Proof.
  split; [vm_compute; by split_and!|].
  pose proof (requests_serve_in_order (H:=WebDemo.no_objects) (H0:=WebDemo.deps) WebDemo.out 50 4 7
    WebDemo.start.1 WebDemo.start.2 []) as H.
  apply H; [done| |exact WebDemo.plain_out|done].
  intros t. cbn [wo_get WebDemo.out]. rewrite decide_True by done.
  destruct (decide (t = 3%nat)); [done|]. by destruct (decide (t = 12%nat)).
Defined.

Lemma serializer_worker_equivalent_witness :
  let d := PyDict [("data", PyBytes [Byte.x01]); ("compression", PyStr "lz4"); ("size_bytes", PyNum 1)] in
  serializer_call (H:=WebDemo.deps) "lz4" (PyNum 1) = Ok d ∧
  let pre := λ s : server, Server (s_compression s) (s_timeout s) true (s_items_served s) (s_errors s)
    (s_start_time s) (s_last_item_time s) (s_total_bytes s) (s_out_ch s) in
  match serializer_call (H:=WebDemo.deps) (s_compression WebDemo.start.2) (PyNum 1) with
  | Ok d => respond (H:=WebDemo.no_objects) (H0:=WebDemo.deps) WebDemo.out d (WebDemo.start.1, pre WebDemo.start.2) =
            let '(r, (w', s')) := respond (H:=WebDemo.no_objects) (H0:=WebDemo.deps) WebDemo.out (PyNum 1)
                                    (WebDemo.start.1, WebDemo.start.2) in (r, (w', pre s'))
  | Raise e => respond (H:=WebDemo.no_objects) (H0:=WebDemo.deps) WebDemo.out (PyNum 1)
                 (WebDemo.start.1, WebDemo.start.2) = (Raise e, (WebDemo.start.1, WebDemo.start.2))
  | Spin => respond (H:=WebDemo.no_objects) (H0:=WebDemo.deps) WebDemo.out (PyNum 1)
                 (WebDemo.start.1, WebDemo.start.2) = (Spin, (WebDemo.start.1, WebDemo.start.2))
  end ∧
  match new_serializer (H:=WebDemo.deps) (s_compression WebDemo.start.2),
        new_server (H0:=WebDemo.deps) [] (s_compression WebDemo.start.2) (s_timeout WebDemo.start.2) false with
  | Ok c, Ok s' => c = s_compression s'
  | Raise e, Raise e' => e = e'
  | Spin, Spin => True
  | _, _ => False
  end.
Proof.
  intros d. split; [vm_compute; reflexivity|].
  pose proof (serializer_worker_equivalent (H:=WebDemo.no_objects) (H0:=WebDemo.deps) WebDemo.out (PyNum 1)
    WebDemo.start.1 WebDemo.start.2 []) as H.
  by apply H.
Defined.

Lemma get_next_returns_witness :
  (get_next (H:=WebDemo.no_objects) (H0:=WebDemo.deps) WebDemo.out 50 WebDemo.start).1 ≠ Spin.
Proof.
  pose proof (get_next_returns (H:=WebDemo.no_objects) (H0:=WebDemo.deps) WebDemo.out 50 5 WebDemo.start) as H.
  apply H; [|intros t t' Ht; cbn; unfold seconds; lia|lia].
  split.
  - intros t q. cbn. repeat case_match; done.
  - intros s x. unfold payload. destruct (s_pre_serialized s).
    + destruct x as [| | | | | |d| | |]; try done. destruct (dict_get "data" d) as [v|]; [|done]. by destruct v.
    + unfold _serialize. cbn. destruct x as [| |n| | | | | | |]; try done.
      destruct (decide (0 ≤ n < 3)%Z); [|done]. by destruct (bool_decide (s_compression s = "lz4")).
  - intros a b. by destruct a, b.
  - intros c z k n. cbn. repeat case_match; done.
Defined.
