(* ===== verification/Scavenge.v ===== *)
(** * GPU scavenging (scavenge.py)

    The scavenger thread polls nvidia-smi, and freezes, parks, thaws and
    releases the workers of the scavenging stages. The commands it runs, the
    clock, and the workers, which answer park requests through a shared value,
    are a parameter: what the machine answers at each tick. *)
From S2P Require Import Prelude Types Text Placement Jobs Lifecycle.
From stdpp Require Import sorting.

(** ** The machine *)

(** How [subprocess.run] ends. *)
Inductive sub_result :=
  | Done (returncode : Z) (stdout stderr : string)
  | TimedOut
  | Failed (msg : string).

Record machine := Machine {
  h_time : nat → Z;
  h_exec : nat → list string → sub_result;
  h_meminfo : nat → res (list string);  (* the lines of /proc/meminfo *)
  h_environ : nat → Z → res string;     (* /proc/<pid>/environ *)
  h_value : nat → nat → Z → Z;          (* what the workers have made of a Value *)
  h_workers : nat → list (string * Z);  (* the ids and pids of the live workers *)
  h_getpid : Z;
  h_stop : nat → bool;                  (* should_stop or the stop event *)
}.

(** The settings read from the environment. *)
Record knobs := Knobs {
  LOCK_TIMEOUT_MS : Z;
  PARK_ACK_TIMEOUT_S : Z;
  PARK_RESIDUAL_MIB : Z;
}.
Definition RESTORE_MARGIN_MIB : Z := 256.

(** The state of the thread: the shared values, the slots, the uuid cache, and
    the commands run. *)
Record scav := Scav {
  g_tick : nat;
  g_values : gmap nat Z;
  g_slots : list slot;
  g_uuids : option (list (string * Z));
  g_cmds : list (list string);
}.

Definition set_frozen (b : bool) (s : slot) : slot :=
  Slot (s_stage_name s) (s_worker_id s) (s_gpu s) (s_physical s) (s_hold s) (s_park s) (s_supports_park s)
    (s_ipc s) (s_parked s) b (s_frozen_mib s) (s_hazard_logged s).
Definition set_frozen_mib (m : Z) (s : slot) : slot :=
  Slot (s_stage_name s) (s_worker_id s) (s_gpu s) (s_physical s) (s_hold s) (s_park s) (s_supports_park s)
    (s_ipc s) (s_parked s) (s_frozen s) m (s_hazard_logged s).
Definition set_parked (b : bool) (s : slot) : slot :=
  Slot (s_stage_name s) (s_worker_id s) (s_gpu s) (s_physical s) (s_hold s) (s_park s) (s_supports_park s)
    (s_ipc s) b (s_frozen s) (s_frozen_mib s) (s_hazard_logged s).
Definition set_hazard_logged (b : bool) (s : slot) : slot :=
  Slot (s_stage_name s) (s_worker_id s) (s_gpu s) (s_physical s) (s_hold s) (s_park s) (s_supports_park s)
    (s_ipc s) (s_parked s) (s_frozen s) (s_frozen_mib s) b.

(** ** Text *)

(** The characters [str.splitlines] splits at. *)
Definition is_linebreak (c : ascii) : bool :=
  let n := nat_of_ascii c in
  ((10 <=? n) && (n <=? 13) || (28 <=? n) && (n <=? 30))%nat.
Fixpoint split_at (f : ascii → bool) (cs : list ascii) : list (list ascii) :=
  match cs with
  | [] => [[]]
  | c :: cs =>
      if f c then [] :: split_at f cs
      else match split_at f cs with
           | [] => [[c]]
           | w :: ws => (c :: w) :: ws
           end
  end.

(** [out.splitlines()], up to empty lines; [line.split()]. *)
Definition splitlines (s : string) : list string := text <$> split_at is_linebreak (chars s).
Definition split_blank (s : string) : list string :=
  text <$> filter (λ w, w ≠ []) (split_at is_space (chars s)).

(** [p in s]. *)
Fixpoint occurs (p cs : list ascii) : bool :=
  bool_decide (p `prefix_of` cs) || match cs with [] => false | _ :: cs => occurs p cs end.

(** ** cuda-checkpoint *)

(** [_find_cuda_checkpoint], given what the environment variable, the file
    access checks and the search path answer. *)
Definition _find_cuda_checkpoint (env : option string) (executable : string → bool)
    (expanded : string) (which : option string) : option string :=
  match env with
  | Some e => if negb (bool_decide (e = EmptyString)) && executable e then Some e
              else head (filter (λ c, executable c = true) ["/usr/local/bin/cuda-checkpoint"; expanded]%string ++
                         option_list which)
  | None => head (filter (λ c, executable c = true) ["/usr/local/bin/cuda-checkpoint"; expanded]%string ++
                  option_list which)
  end.

Section scavenge.
Context (k : knobs) (mc : machine).
Local Abbreviation P X := (prog scav X).

Definition pass (w : scav) : scav := Scav (S (g_tick w)) (g_values w) (g_slots w) (g_uuids w) (g_cmds w).
Definition ask {X} (f : nat → X) : P X := λ w, (Ok (f (g_tick w)), pass w).

(** [x.value] and [x.value = v]. *)
Definition get_value (x : nat) : P Z := λ w,
  let v := h_value mc (g_tick w) x (default 0%Z (g_values w !! x)) in
  (Ok v, Scav (S (g_tick w)) (<[x := v]> (g_values w)) (g_slots w) (g_uuids w) (g_cmds w)).
Definition set_value (x : nat) (v : Z) : P unit := λ w,
  (Ok tt, Scav (S (g_tick w)) (<[x := v]> (g_values w)) (g_slots w) (g_uuids w) (g_cmds w)).

(** A slot is a dict shared with the health monitor; [i] is its place. *)
Definition get_slot (i : nat) : P slot := λ w,
  match g_slots w !! i with Some s => (Ok s, w) | None => (Raise IndexError, w) end.
Definition update_slot (i : nat) (f : slot → slot) : P unit := λ w,
  (Ok tt, Scav (g_tick w) (g_values w) (alter f i (g_slots w)) (g_uuids w) (g_cmds w)).

(** [_run(cmd)]. *)
Definition _run (cmd : list string) : P (Z * string) := λ w,
  let r := match h_exec mc (g_tick w) cmd with
           | Done rc out err => (rc, strip (out +:+ err))
           | TimedOut => (-1, "timed out"%string)%Z
           | Failed msg => (-1, msg)%Z
           end in
  (Ok r, Scav (S (g_tick w)) (g_values w) (g_slots w) (g_uuids w) (g_cmds w ++ [cmd])).

(** ** nvidia-smi *)

Definition csv_rows (out : string) : list (list string) :=
  filter (λ parts, match parts with p :: _ => negb (bool_decide (p = EmptyString)) | [] => false end = true)
    ((λ line, strip <$> split_commas line) <$> splitlines out).

Definition _nvidia_smi_csv (query_flag fields : string) : P (option (list (list string))) :=
  let! (rc, out) := _run ["nvidia-smi"; query_flag +:+ "=" +:+ fields; "--format=csv,noheader,nounits"]%string in
  ret (if (rc =? 0)%Z then Some (csv_rows out) else None).

(** [{uuid: int(idx) for idx, uuid in rows}]. *)
Fixpoint uuid_dict (rows : list (list string)) (d : list (string * Z)) : res (list (string * Z)) :=
  match rows with
  | [] => Ok d
  | [idx; uuid] :: rows =>
      match int_of_str idx with
      | Ok n => uuid_dict rows (dict_set uuid n d)
      | Raise e => Raise e
      | Spin => Spin
      end
  | _ :: _ => Raise ValueError
  end.

Definition _uuid_to_index : P (option (list (string * Z))) :=
  let! cache := (λ w, (Ok (g_uuids w), w)) : P _ in
  match cache with
  | Some d => ret (Some d)
  | None =>
      let! rows := _nvidia_smi_csv "--query-gpu" "index,uuid" in
      match rows with
      | None => ret None
      | Some rows =>
          let! d := of_res (uuid_dict rows []) in
          λ w, (Ok (Some d), Scav (g_tick w) (g_values w) (g_slots w) (Some d) (g_cmds w))
      end
  end.

(** One row of the compute processes: physical GPU, pid, MiB. *)
Definition app_of_row (uuids : list (string * Z)) (row : list string) : option (Z * Z * Z) :=
  match row with
  | uuid :: pid :: mem :: _ =>
      match dict_lookup uuid uuids, int_of_str pid, int_of_str mem with
      | Some idx, Ok p, Ok m => Some (idx, p, m)
      | _, _, _ => None
      end
  | _ => None
  end.

Definition _gpu_compute_apps : P (option (list (Z * Z * Z))) :=
  let! uuids := _uuid_to_index in
  match uuids with
  | None => ret None
  | Some uuids =>
      let! rows := _nvidia_smi_csv "--query-compute-apps" "gpu_uuid,pid,used_memory" in
      ret (match rows with Some rows => Some (omap (app_of_row uuids) rows) | None => None end)
  end.

Definition busy_physical_gpus (our_pids : list Z) : P (gset Z) :=
  let! apps := _gpu_compute_apps in
  ret (match apps with
       | None => ∅
       | Some apps => list_to_set (omap (λ '(idx, pid, _), if decide (pid ∈ our_pids) then None else Some idx) apps)
       end).

(** [_pid_gpu_mib(pid)]. *)
Definition held_by (pid : Z) (apps : list (Z * Z * Z)) : Z :=
  foldr Z.add 0%Z (omap (λ '(_, p, m), if decide (p = pid) then Some m else None) apps).
Definition _pid_gpu_mib (pid : Z) : P (option Z) :=
  let! apps := _gpu_compute_apps in
  ret (match apps with None => None | Some apps => Some (held_by pid apps) end).

(** [_gpu_free_mib(physical_idx)]. *)
Fixpoint free_of (g : Z) (rows : list (list string)) : res (option Z) :=
  match rows with
  | [] => Ok None
  | [idx; free] :: rows =>
      match int_of_str idx with
      | Ok n => if (n =? g)%Z then
                  match int_of_str free with Ok m => Ok (Some m) | Raise e => Raise e | Spin => Spin end
                else free_of g rows
      | Raise e => Raise e
      | Spin => Spin
      end
  | _ :: _ => Raise ValueError
  end.
Definition _gpu_free_mib (g : Z) : P (option Z) :=
  let! rows := _nvidia_smi_csv "--query-gpu" "index,memory.free" in
  match rows with None => ret None | Some rows => of_res (free_of g rows) end.

(** [_host_available_mib()]. *)
Fixpoint mem_available (lines : list string) : res (option Z) :=
  match lines with
  | [] => Ok None
  | line :: lines =>
      if startswith "MemAvailable:" line then
        match split_blank line !! 1%nat with
        | None => Raise IndexError
        | Some n => match int_of_str n with Ok n => Ok (Some (n / 1024)%Z) | Raise e => Raise e | Spin => Spin end
        end
      else mem_available lines
  end.
Definition _host_available_mib : P (option Z) :=
  let! lines := ask (h_meminfo mc) in
  try_except (let! lines := of_res lines in of_res (mem_available lines))
    (λ e, if is_os_error e then ret None else raise e).

Definition _has_checkpoint_job_file (pid : Z) : P bool :=
  let! r := ask (λ t, h_environ mc t pid) in
  try_except (let! s := of_res r in ret (occurs (chars "CUDA_CHECKPOINT_JOB_FILE=") (chars s)))
    (λ e, if is_os_error e then ret false else raise e).

(** ** One worker *)

(** Why a worker must not be checkpointed. *)
Inductive hazard :=
  | IpcMemory
  | SharesGpu (peers : list Z).

Definition peers_of (s : slot) (pid : Z) (apps : list (Z * Z * Z)) (our_pids : list Z) : list Z :=
  merge_sort Z.le
    (omap (λ '(g, p, _), if decide (g = s_physical s ∧ p ∈ our_pids ∧ p ≠ pid) then Some p else None) apps).

Definition _checkpoint_hazard (s : slot) (pid : Z) (apps : list (Z * Z * Z)) (our_pids : list Z) :
    P (option hazard) :=
  let! job := _has_checkpoint_job_file pid in
  if job : bool then ret None
  else
    let! ipc := get_value (s_ipc s) in
    if negb (ipc =? 0)%Z then ret (Some IpcMemory)
    else ret (match peers_of s pid apps our_pids with [] => None | ps => Some (SharesGpu ps) end).

(** [slot["park"].value]: a stage that cannot park has no such value. *)
Definition park_of (s : slot) : P nat := of_res (match s_park s with Some x => Ok x | None => Raise AttributeError end).

(** [_park_worker(slot, pid, say)]: wait for the answer, then see that the
    memory is gone. *)
Definition park_turn (park : nat) (t0 : Z) : P (unit + bool) :=
  let! v := get_value park in
  if (v =? 2)%Z then ret (inr true)
  else
    let! v := get_value park in
    if (v =? 3)%Z then set_value park 0 ;! ret (inr false)
    else
      let! t := ask (h_time mc) in
      if (PARK_ACK_TIMEOUT_S k <? t - t0)%Z then set_value park 0 ;! ret (inr false)
      else ret (inl tt).
Definition _park_worker (fuel : nat) (s : slot) (pid : Z) : P bool :=
  let! park := park_of s in
  set_value park 1 ;!
  let! t0 := ask (h_time mc) in
  let! acked := loop fuel (λ _ : unit, park_turn park t0) tt in
  if negb acked then ret false
  else
    let! still := _pid_gpu_mib pid in
    ret (default 0 still <=? PARK_RESIDUAL_MIB k)%Z.

Definition ckpt (bin action : string) (pid : Z) : list string :=
  [bin; "--action"; action; "--pid"; str_of_Z pid]%string.

(** [_freeze_worker(ckpt_bin, pid, used_mib, say)]. *)
Definition _freeze_worker (bin : string) (pid used_mib : Z) : P bool :=
  let! avail := _host_available_mib in
  if match avail with Some a => negb (used_mib =? 0)%Z && (a <? used_mib)%Z | None => false end then ret false
  else
    let! (rc, _) := _run (ckpt bin "lock" pid ++ ["--timeout"; str_of_Z (LOCK_TIMEOUT_MS k)]%string) in
    if negb (rc =? 0)%Z then _run (ckpt bin "unlock" pid) ;! ret false
    else
      let! (rc, _) := _run (ckpt bin "checkpoint" pid) in
      if negb (rc =? 0)%Z then _run (ckpt bin "unlock" pid) ;! ret false
      else ret true.

(** [_thaw_worker(ckpt_bin, pid, physical_idx, frozen_mib, say)]. Without a
    binary the command holds a [None], which [subprocess.run] refuses: [_run]
    answers like for any failure. *)
Definition _thaw_worker (bin : option string) (pid g frozen_mib : Z) : P bool :=
  let! refused :=
    (if (frozen_mib =? 0)%Z then ret false
     else
       let! free := _gpu_free_mib g in
       ret (match free with Some f => f <? frozen_mib + RESTORE_MARGIN_MIB | None => false end)%Z) in
  if refused : bool then ret false
  else
    match bin with
    | None => ret false
    | Some bin =>
        let! (rc, _) := _run (ckpt bin "restore" pid) in
        if negb (rc =? 0)%Z then ret false
        else
          let! (rc, _) := _run (ckpt bin "unlock" pid) in
          ret (rc =? 0)%Z
    end.

(** [_keep_acked_park(slot)]. *)
Definition _keep_acked_park (i : nat) : P unit :=
  let! s := get_slot i in
  match s_park s with
  | None => ret tt
  | Some park =>
      let! v := get_value park in
      if (v =? 2)%Z then update_slot i (set_parked true) else ret tt
  end.

(** ** One poll *)

(** What the thread computes at the start of a poll. *)
Record poll := Poll {
  o_apps : list (Z * Z * Z);
  o_pids : list (string * Z);     (* pid_by_wid *)
  o_our : list Z;                 (* our_pids *)
}.
Definition foreign_on (o : poll) (g : Z) : list Z :=
  omap (λ '(idx, pid, _), if decide (idx = g ∧ pid ∉ o_our o) then Some pid else None) (o_apps o).
Definition claimed (o : poll) (g : Z) : bool := negb (bool_decide (foreign_on o g = [])).
Definition used_by_pid (apps : list (Z * Z * Z)) : gmap Z Z :=
  foldl (λ m '(_, pid, mib), <[pid := (default 0 (m !! pid) + mib)%Z]> m) ∅ apps.

(** The GPU of the slot is claimed and the worker is neither frozen nor
    parked: ask it to release its memory. [true]: it did, the slot is done. *)
Definition ask_release (fuel : nat) (i : nat) (s : slot) (pid : Z) (used : gmap Z Z) : P (bool * gmap Z Z) :=
  if s_supports_park s && bool_decide (is_Some (used !! pid)) then
    set_value (s_hold s) 1 ;!
    let! gone := _park_worker fuel s pid in
    if gone : bool then update_slot i (set_parked true) ;! ret (true, used)
    else
      let! fresh := _pid_gpu_mib pid in
      ret (false, match fresh with Some m => <[pid := m]> used | None => used end)
  else ret (false, used).

(** ... else checkpoint it, unless that is unsafe. *)
Definition checkpoint_slot (bin : option string) (o : poll) (i : nat) (s : slot) (pid : Z) (used : gmap Z Z) : P unit :=
  let! h := _checkpoint_hazard s pid (o_apps o) (o_our o) in
  match h with
  | Some _ => update_slot i (set_hazard_logged true) ;! _keep_acked_park i
  | None =>
      (let! held := get_value (s_hold s) in
       if (held =? 0)%Z then set_value (s_hold s) 1 else ret tt) ;!
      match used !! pid with
      | None => ret tt
      | Some mib =>
          match bin with
          | None => _keep_acked_park i
          | Some bin =>
              let! frozen := _freeze_worker bin pid mib in
              if frozen : bool then update_slot i (set_frozen_mib mib ∘ set_frozen true)
              else _keep_acked_park i
          end
      end
  end.

Definition claimed_slot (fuel : nat) (bin : option string) (o : poll) (i : nat) (s : slot) (pid : Z)
    (used : gmap Z Z) : P (gmap Z Z) :=
  if s_frozen s || s_parked s then ret used
  else
    let! (released, used) := ask_release fuel i s pid used in
    if released : bool then ret used
    else checkpoint_slot bin o i s pid used ;! ret used.

(** The GPU has been free for long enough. *)
Definition free_slot (bin : option string) (i : nat) (s : slot) (pid : Z) : P unit :=
  if s_parked s then
    let! park := park_of s in
    set_value park 0 ;!
    update_slot i (set_parked false) ;!
    set_value (s_hold s) 0
  else if s_frozen s then
    let! thawed := _thaw_worker bin pid (s_physical s) (s_frozen_mib s) in
    if thawed : bool then
      update_slot i (set_frozen false) ;!
      match s_park s with
      | None => ret tt
      | Some park =>
          let! v := get_value park in
          if (v =? 2)%Z then set_value park 0 else ret tt
      end ;!
      set_value (s_hold s) 0
    else ret tt
  else
    let! held := get_value (s_hold s) in
    if negb (held =? 0)%Z then set_value (s_hold s) 0 else ret tt.

(** The body of [for slot in slots]. *)
Definition slot_turn (fuel : nat) (bin : option string) (need : Z) (o : poll) (streak : gmap Z Z)
    (i : nat) (used : gmap Z Z) : P (gmap Z Z) :=
  let! s := get_slot i in
  match dict_lookup (s_worker_id s) (o_pids o) with
  | None => update_slot i (set_frozen false) ;! ret used
  | Some pid =>
      if claimed o (s_physical s) then claimed_slot fuel bin o i s pid used
      else if (need <=? default 0 (streak !! s_physical s))%Z then free_slot bin i s pid ;! ret used
      else ret used
  end.

Fixpoint slot_turns (fuel : nat) (bin : option string) (need : Z) (o : poll) (streak : gmap Z Z)
    (todo : list nat) (used : gmap Z Z) : P unit :=
  match todo with
  | [] => ret tt
  | i :: todo =>
      let! used := slot_turn fuel bin need o streak i used in
      slot_turns fuel bin need o streak todo used
  end.

(** [free_streak] after a poll. *)
Definition next_streak (o : poll) (slots : list slot) (streak : gmap Z Z) : gmap Z Z :=
  foldl (λ m g, <[g := if claimed o g then 0 else default 0 (streak !! g) + 1]> m)%Z streak (s_physical <$> slots).

(** [int(round(x / y))] on integers: half way goes to the even one. *)
Definition round_div (x y : Z) : Z :=
  let q := (x / y)%Z in let r := (x mod y)%Z in
  if (2 * r <? y)%Z then q
  else if (y <? 2 * r)%Z then q + 1
  else if Z.even q then q else q + 1.
Definition need_free_polls (free_secs poll : Z) : Z := Z.max 1 (round_div free_secs poll).

(** [_scavenger_thread]: a turn of its loop; [stop_event.wait] is a tick. *)
Definition scavenger_turn (fuel : nat) (bin : option string) (need : Z) (streak : gmap Z Z) :
    P (gmap Z Z + unit) :=
  let! stop := ask (h_stop mc) in
  if stop : bool then ret (inr tt)
  else
    let! apps := _gpu_compute_apps in
    match apps with
    | None => ask (λ _, tt) ;! ret (inl streak)
    | Some apps =>
        let! workers := ask (h_workers mc) in
        let pids := foldl (λ d '(wid, pid), dict_set wid pid d) [] workers in
        let o := Poll apps pids (h_getpid mc :: (snd <$> pids)) in
        let! slots := (λ w, (Ok (g_slots w), w)) : P _ in
        let streak := next_streak o slots streak in
        slot_turns fuel bin need o streak (seq 0 (length slots)) (used_by_pid apps) ;!
        ask (λ _, tt) ;!
        ret (inl streak)
    end.
Definition _scavenger_thread (fuel turns : nat) (bin : option string) (poll free_secs : Z) : P unit :=
  if (poll =? 0)%Z then raise ZeroDivisionError
  else loop turns (scavenger_turn fuel bin (need_free_polls free_secs poll)) ∅.
End scavenge.

(** ** What the parts leave alone *)

Section scavenge_spec.
Context (k : knobs) (mc : machine).

(** Reading the machine and running commands change neither the slots nor,
    but for what the workers themselves write, the values. *)
Definition slots_of (w : scav) : list slot := g_slots w.

Ltac keeps_slots :=
  lazymatch goal with
  | |- keeps _ (bind _ _) => apply keeps_bind; [keeps_slots|intros; keeps_slots]
  | |- keeps _ (try_except _ _) => apply keeps_try; [keeps_slots|intros; keeps_slots]
  | |- keeps _ (loop _ _ _) => apply keeps_loop; intros; keeps_slots
  | |- keeps _ (ret _) => apply keeps_ret
  | |- keeps _ (of_res _) => apply keeps_of_res
  | |- keeps _ (match ?x with _ => _ end) => destruct x; keeps_slots
  | |- _ => first [done | by (intros []) | eauto 2 with pipe]
  end.

Lemma uuid_keeps : keeps slots_of (_uuid_to_index mc).
Proof. unfold _uuid_to_index, _nvidia_smi_csv. keeps_slots. Qed.
Lemma apps_keeps : keeps slots_of (_gpu_compute_apps mc).
Proof.
  unfold _gpu_compute_apps, _nvidia_smi_csv. apply keeps_bind; [apply uuid_keeps|]. intros [u|]; keeps_slots.
Qed.
Lemma pid_mib_keeps pid : keeps slots_of (_pid_gpu_mib mc pid).
Proof. apply keeps_bind; [apply apps_keeps|]. intros; keeps_slots. Qed.
Lemma hazard_keeps s pid apps our : keeps slots_of (_checkpoint_hazard mc s pid apps our).
Proof. unfold _checkpoint_hazard, _has_checkpoint_job_file. keeps_slots. Qed.
Lemma park_worker_keeps fuel s pid : keeps slots_of (_park_worker k mc fuel s pid).
Proof.
  unfold _park_worker, park_turn, park_of. apply keeps_bind; [keeps_slots|]. intros park.
  apply keeps_bind; [done|]. intros. apply keeps_bind; [done|]. intros t0.
  apply keeps_bind; [keeps_slots|]. intros [|]; simpl; [|done].
  apply keeps_bind; [apply pid_mib_keeps|]. done.
Qed.
Lemma freeze_keeps bin pid mib : keeps slots_of (_freeze_worker k mc bin pid mib).
Proof. unfold _freeze_worker, _host_available_mib. keeps_slots. Qed.
Lemma thaw_keeps bin pid g mib : keeps slots_of (_thaw_worker mc bin pid g mib).
Proof. unfold _thaw_worker, _gpu_free_mib, _nvidia_smi_csv. keeps_slots. Qed.

(** The value of a shared object as last seen. *)
Definition val (w : scav) (x : nat) : Z := default 0%Z (g_values w !! x).

(** Where a claimed slot whose worker runs can go. *)
Definition claim_move (s s' : slot) : Prop :=
  s' = s ∨ s' = set_hazard_logged true s ∨
  (is_Some (s_park s) ∧ (s' = set_parked true s ∨ s' = set_parked true (set_hazard_logged true s))) ∨
  ∃ m, s' = set_frozen_mib m (set_frozen true s).

(** Where a slot can go once its GPU has been free for long enough, and how the
    worker is told: [hold] and [park] are lifted together. *)
Definition free_move (s : slot) (w : scav) (s' : slot) : Prop :=
  if s_parked s then
    s' = set_parked false s ∧ val w (s_hold s) = 0%Z ∧ ∃ x, s_park s = Some x ∧ val w x = 0%Z
  else if s_frozen s then
    s' = s ∨
    (s' = set_frozen false s ∧ val w (s_hold s) = 0%Z ∧ ∀ x, s_park s = Some x → val w x ≠ 2%Z)
  else s' = s ∧ val w (s_hold s) = 0%Z.

(** The state machine of a slot, for one poll. *)
Definition slot_move (o : poll) (ready : bool) (s : slot) (w : scav) (s' : slot) : Prop :=
  match dict_lookup (s_worker_id s) (o_pids o) with
  | None => s' = set_frozen false s
  | Some _ =>
      if claimed o (s_physical s) then
        if s_frozen s || s_parked s then s' = s else claim_move s s'
      else if ready then free_move s w s' else s' = s
  end.

(** [c] leaves the slots but for [i], which goes from [s] to one in [R], given
    the result. *)
Definition moves {X} (i : nat) (s : slot) (R : X → scav → slot → Prop) (c : prog scav X) : Prop :=
  ∀ w, g_slots w !! i = Some s →
    match (c w).1 with
    | Ok x => ∃ s', g_slots (c w).2 = <[i := s']> (g_slots w) ∧ R x (c w).2 s'
    | _ => True
    end.

Lemma moves_bind {X Y} i s R s1 R' (c : prog scav X) (f : X → prog scav Y) :
  moves i s R c → (∀ x w s', R x w s' → s' = s1 x) → (∀ x, moves i (s1 x) R' (f x)) →
  moves i s R' (bind c f).
Proof.
  intros Hc He Hf w Hi. specialize (Hc w Hi). unfold bind. destruct (c w) as [[x|e|] w1]; simpl in *; [|done..].
  destruct Hc as (s' & Hs & HR). pose proof (He _ _ _ HR) as ->.
  assert (g_slots w1 !! i = Some (s1 x)) as Hi'.
  { rewrite Hs. apply list_lookup_insert_eq. by eapply lookup_lt_Some. }
  specialize (Hf x w1 Hi'). destruct (f x w1) as [[y|e|] w2]; simpl in *; [|done..].
  destruct Hf as (s2 & Hs2 & HR'). exists s2. split; [|done]. by rewrite Hs2, Hs, list_insert_insert_eq.
Qed.

(** Programs that leave the slots alone. *)
Lemma moves_keeps {X} i s (c : prog scav X) : keeps slots_of c → moves i s (λ _ _ s', s' = s) c.
Proof.
  intros Hc w Hi. specialize (Hc w). unfold slots_of in Hc. destruct (c w) as [[x|e|] w1]; simpl in *; [|done..].
  exists s. split; [|done]. rewrite Hc. symmetry. by apply list_insert_id.
Qed.

Lemma moves_then {X Y} i s R (c : prog scav X) (f : X → prog scav Y) :
  keeps slots_of c → (∀ x, moves i s R (f x)) → moves i s R (bind c f).
Proof.
  intros Hc Hf. eapply (moves_bind i s _ (λ _, s)); [by apply moves_keeps|by intros|exact Hf].
Qed.

Lemma moves_update i s f (R : unit → scav → slot → Prop) : (∀ w, R tt w (f s)) → moves i s R (update_slot i f).
Proof.
  intros HR w Hi. simpl. exists (f s). split; [|apply HR]. symmetry. apply list_eq. intros j.
  destruct (decide (j = i)) as [->|Hne].
  - rewrite list_lookup_insert_eq, list_lookup_alter_eq, Hi; [done|]. by eapply lookup_lt_Some.
  - by rewrite list_lookup_insert_ne, list_lookup_alter_ne.
Qed.

Lemma moves_after_update {Y} i s f (c : prog scav Y) R :
  moves i (f s) R c → moves i s R (update_slot i f ;! c).
Proof.
  intros Hc. apply (moves_bind i s (λ _ _ s', s' = f s) (λ _, f s)); [by apply moves_update|done|done].
Qed.

Lemma moves_ret {X} i s (x : X) (R : X → scav → slot → Prop) : (∀ w, R x w s) → moves i s R (ret x).
Proof. intros HR w Hi. exists s. split; [symmetry; by apply list_insert_id|apply HR]. Qed.

Lemma moves_mono {X} i s (R R' : X → scav → slot → Prop) (c : prog scav X) :
  moves i s R c → (∀ x w s', R x w s' → R' x w s') → moves i s R' c.
Proof.
  intros Hc HR w Hi. specialize (Hc w Hi). destruct (c w) as [[x|e|] w1]; simpl in *; [|done..].
  destruct Hc as (s' & ? & ?). exists s'. auto.
Qed.

Lemma moves_get i s {X} (f : slot → prog scav X) R : moves i s R (f s) → moves i s R (bind (get_slot i) f).
Proof. intros Hf w Hi. unfold bind, get_slot. rewrite Hi. by apply Hf. Qed.

(** Parked, if it can park. *)
Definition maybe_parked (s s' : slot) : Prop := s' = s ∨ (is_Some (s_park s) ∧ s' = set_parked true s).

Lemma keep_acked_moves i s : moves i s (λ _ _, maybe_parked s) (_keep_acked_park mc i).
Proof.
  unfold _keep_acked_park, maybe_parked. apply moves_get.
  destruct (s_park s) as [park|] eqn:E; [|apply moves_ret; by left].
  apply moves_then; [done|]. intros v. destruct (v =? 2)%Z; [|apply moves_ret; by left].
  apply moves_update. right. eauto.
Qed.

Lemma ask_release_moves fuel i s pid used :
  moves i s (λ (r : bool * gmap Z Z) _ s', s' = (if r.1 then set_parked true s else s) ∧ (r.1 = true → is_Some (s_park s)))
    (ask_release k mc fuel i s pid used).
Proof.
  unfold ask_release. destruct (_ && _); [|by apply moves_ret].
  apply moves_then; [done|]. intros _.
  destruct (s_park s) as [park|] eqn:E.
  - apply moves_then; [apply park_worker_keeps|]. intros [].
    + apply moves_after_update, moves_ret. simpl. eauto.
    + apply moves_then; [apply pid_mib_keeps|]. intros x. by apply moves_ret.
  - intros w Hi. unfold _park_worker, park_of, bind. by rewrite E.
Qed.

Lemma checkpoint_moves bin o i s pid used :
  moves i s (λ _ _, claim_move s) (checkpoint_slot k mc bin o i s pid used).
Proof.
  unfold checkpoint_slot, claim_move. apply moves_then; [apply hazard_keeps|]. intros [h|].
  - apply moves_after_update. eapply moves_mono; [apply keep_acked_moves|].
    intros _ w s' [-> | [Hp ->]]; [by auto|]. right; right; left. split; [exact Hp|by right].
  - apply moves_then.
    { apply keeps_bind; [done|]. intros v. by destruct (v =? 0)%Z. }
    intros _. destruct (used !! pid) as [mib|]; [|apply moves_ret; by left].
    assert (moves i s (λ _ _, claim_move s) (_keep_acked_park mc i)) as Hkeep.
    { eapply moves_mono; [apply keep_acked_moves|]. intros _ w s' [-> | [Hp ->]]; [by left|].
      right; right; left. split; [exact Hp|by left]. }
    destruct bin as [bin|]; [|exact Hkeep].
    apply moves_then; [apply freeze_keeps|]. intros []; [|exact Hkeep].
    apply moves_update. intros w. right; right; right. by exists mib.
Qed.

Lemma claimed_moves fuel bin o i s pid used :
  moves i s (λ _ _ s', if s_frozen s || s_parked s then s' = s else claim_move s s')
    (claimed_slot k mc fuel bin o i s pid used).
Proof.
  unfold claimed_slot. destruct (s_frozen s || s_parked s); [by apply moves_ret|].
  intros w Hi. pose proof (ask_release_moves fuel i s pid used w Hi) as Ha. unfold bind at 1 2 3.
  destruct (ask_release k mc fuel i s pid used w) as [[[released used1]|e|] w1]; simpl in *; [|done..].
  destruct Ha as (s1 & Hs1 & -> & Hp). destruct released; simpl.
  - exists (set_parked true s). split; [done|]. right; right; left. split; [by apply Hp|by left].
  - assert (g_slots w1 !! i = Some s) as Hi1.
    { rewrite Hs1. apply list_lookup_insert_eq. by eapply lookup_lt_Some. }
    pose proof (checkpoint_moves bin o i s pid used1 w1 Hi1) as Hc. unfold bind.
    destruct (checkpoint_slot _ _ _ _ _ _ _ _ w1) as [[[]|e|] w2]; simpl in *; [|done..].
    destruct Hc as (s2 & Hs2 & Hm). exists s2. split; [|done]. by rewrite Hs2, Hs1, list_insert_insert_eq.
Qed.

(** The last write of a turn. *)
Lemma set_value_moves i s x v (R : scav → slot → Prop) :
  (∀ w, val w x = v → R w s) → moves i s (λ _ w s', R w s') (set_value x v).
Proof.
  intros HR w Hi. exists s. split; [symmetry; by apply list_insert_id|].
  apply HR. unfold val. simpl. by rewrite lookup_insert_eq.
Qed.

(** [park] is lifted before [hold]: both are at the end. *)
Lemma lift_park_hold i s x y (R : scav → slot → Prop) :
  (∀ w, val w x = 0%Z → val w y = 0%Z → R w s) →
  moves i s (λ _ w s', R w s') (set_value x 0 ;! set_value y 0).
Proof.
  intros HR w Hi. exists s. split; [symmetry; by apply list_insert_id|].
  apply HR; unfold val; simpl; [|by rewrite lookup_insert_eq].
  destruct (decide (x = y)) as [->|Hne]; [by rewrite lookup_insert_eq|].
  by rewrite lookup_insert_ne, lookup_insert_eq.
Qed.

Lemma free_moves bin i s pid : moves i s (λ _, free_move s) (free_slot mc bin i s pid).
Proof.
  unfold free_slot, free_move. destruct (s_parked s).
  - unfold park_of. destruct (s_park s) as [park|]; [|by intros w Hi].
    intros w Hi. simpl.
    pose proof (moves_update i s (set_parked false) (λ _ _ s', s' = set_parked false s) (λ _, eq_refl) w Hi) as Hu.
    simpl in Hu. destruct Hu as (s' & Hs & ->). exists (set_parked false s). split; [exact Hs|].
    split; [done|]. unfold val. simpl. rewrite lookup_insert_eq. split; [done|]. exists park. split; [done|].
    destruct (decide (park = s_hold s)) as [->|Hne]; [by rewrite lookup_insert_eq|].
    by rewrite lookup_insert_ne, lookup_insert_eq.
  - destruct (s_frozen s).
    + apply moves_then; [apply thaw_keeps|]. intros []; [|apply moves_ret; by left].
      apply moves_after_update. destruct (s_park s) as [park|].
      * intros w Hi. unfold bind, get_value. simpl.
        set (v := h_value mc _ _ _). destruct (Z.eqb_spec v 2); simpl;
          (exists (set_frozen false s); split; [symmetry; by apply list_insert_id|]; right; split; [done|];
           unfold val; simpl; rewrite lookup_insert_eq; split; [done|]; intros x [= <-];
           destruct (decide (park = s_hold s)) as [->|Hne]; [by rewrite lookup_insert_eq|];
           rewrite lookup_insert_ne by done; by rewrite ?lookup_insert_eq).
      * apply moves_then; [done|]. intros _. apply set_value_moves. intros w Hv. right. split; [done|].
        split; [exact Hv|]. by intros x.
    + intros w Hi. unfold bind, get_value. simpl. set (v := h_value mc _ _ _).
      destruct (Z.eqb_spec v 0); simpl; (exists s; split; [symmetry; by apply list_insert_id|]; split; [done|]);
        unfold val; simpl; by rewrite lookup_insert_eq.
Qed.

Lemma slot_turn_moves fuel bin need o streak i s used :
  moves i s (λ _, slot_move o (need <=? default 0 (streak !! s_physical s))%Z s)
    (slot_turn k mc fuel bin need o streak i used).
Proof.
  unfold slot_turn, slot_move. apply moves_get.
  destruct (dict_lookup (s_worker_id s) (o_pids o)) as [pid|].
  - destruct (claimed o (s_physical s)).
    + eapply moves_mono; [apply claimed_moves|]. intros x w s' Hs'. exact Hs'.
    + destruct (_ <=? _)%Z; [|by apply moves_ret].
      intros w Hi. pose proof (free_moves bin i s pid w Hi) as Hf. unfold bind.
      destruct (free_slot mc bin i s pid w) as [[[]|e|] w1]; simpl in *; done.
  - by apply moves_after_update, moves_ret.
Qed.

(** ** Freezing and thawing *)

(** The return code of a command run at a tick. *)
Definition exit_code (t : nat) (cmd : list string) : Z :=
  match h_exec mc t cmd with Done rc _ _ => rc | TimedOut | Failed _ => -1 end.

Lemma run_spec cmd w :
  ∃ out w', _run mc cmd w = (Ok (exit_code (g_tick w) cmd, out), w') ∧
    g_tick w' = S (g_tick w) ∧ g_cmds w' = g_cmds w ++ [cmd] ∧ g_values w' = g_values w.
Proof.
  unfold _run, exit_code. destruct (h_exec mc (g_tick w) cmd); simpl; do 2 eexists; split_and!; done.
Qed.
End scavenge_spec.

(** ** Freezing *)

(** What [_freeze_worker] ran and why, given the tick of its first command. *)
Definition freeze_outcome (k : knobs) (mc : machine) (bin : string) (pid mib : Z) (t : nat)
    (avail : res (list string)) (frozen : bool) (cs : list (list string)) : Prop :=
  let lock := ckpt bin "lock" pid ++ ["--timeout"; str_of_Z (LOCK_TIMEOUT_MS k)]%string in
  let checkpoint := ckpt bin "checkpoint" pid in
  let unlock := ckpt bin "unlock" pid in
  if frozen then
    exit_code mc t lock = 0%Z ∧ exit_code mc (S t) checkpoint = 0%Z ∧ cs = [lock; checkpoint]
  else
    (cs = [] ∧ ∃ lines a, avail = Ok lines ∧ mem_available lines = Ok (Some a) ∧ (a < mib)%Z) ∨
    (exit_code mc t lock ≠ 0%Z ∧ cs = [lock; unlock]) ∨
    (exit_code mc t lock = 0%Z ∧ exit_code mc (S t) checkpoint ≠ 0%Z ∧ cs = [lock; checkpoint; unlock]).

Lemma run_bind {Y} mc cmd (f : Z * string → prog scav Y) w :
  ∃ out w1, bind (_run mc cmd) f w = f (exit_code mc (g_tick w) cmd, out) w1 ∧
    g_tick w1 = S (g_tick w) ∧ g_cmds w1 = g_cmds w ++ [cmd].
Proof.
  destruct (run_spec mc cmd w) as (out & w1 & E & Ht & Hc & _). exists out, w1. unfold bind. by rewrite E.
Qed.

Lemma host_mib_spec mc w :
  let '(r, w') := _host_available_mib mc w in
  g_tick w' = S (g_tick w) ∧ g_cmds w' = g_cmds w ∧
  match r with
  | Ok (Some a) => ∃ lines, h_meminfo mc (g_tick w) = Ok lines ∧ mem_available lines = Ok (Some a)
  | _ => True
  end.
Proof.
  unfold _host_available_mib, bind, ask, try_except, of_res. simpl.
  destruct (h_meminfo mc (g_tick w)) as [lines|e|]; simpl; [|by destruct (is_os_error e)|done].
  destruct (mem_available lines) as [[a|]|e|] eqn:E; simpl; eauto. by destruct (is_os_error e).
Qed.

(** A worker is frozen whole or left running. [_freeze_worker] checkpoints
    only under a lock and only if the host can hold the worker's GPU state; if
    the lock or the checkpoint fails, its last command gives the lock back. It
    reports success exactly when both commands succeeded, and runs nothing
    else. *)
Theorem freeze_all_or_nothing (k : knobs) (mc : machine) (bin : string) (pid mib : Z) (w : scav) :
  let '(r, w') := _freeze_worker k mc bin pid mib w in
  match r with
  | Ok frozen => ∃ cs, g_cmds w' = g_cmds w ++ cs ∧
      freeze_outcome k mc bin pid mib (S (g_tick w)) (h_meminfo mc (g_tick w)) frozen cs
  | _ => g_cmds w' = g_cmds w
  end.
Proof.
  unfold _freeze_worker, bind at 1. pose proof (host_mib_spec mc w) as Hh.
  destruct (_host_available_mib mc w) as [[avail|e|] w1]; destruct Hh as (Ht & Hc & Ha); [|done..].
  destruct (match avail with Some a => _ | None => _ end) eqn:Hlow.
  { simpl. exists []. rewrite app_nil_r. split; [done|]. left. split; [done|].
    destruct avail as [a|]; [|done]. destruct Ha as (lines & ? & ?). exists lines, a. boolify. naive_solver. }
  clear Ha Hlow. set (lock := ckpt bin "lock" pid ++ _).
  destruct (run_bind mc lock (λ '(rc, _), if negb (rc =? 0)%Z then _run mc (ckpt bin "unlock" pid) ;! ret false
    else let! (rc, _) := _run mc (ckpt bin "checkpoint" pid) in
      if negb (rc =? 0)%Z then _run mc (ckpt bin "unlock" pid) ;! ret false else ret true) w1)
    as (out & w2 & -> & Ht2 & Hc2).
  rewrite Ht in Ht2 |- *. unfold freeze_outcome. fold lock.
  assert (∀ w3 cs, g_cmds w3 = g_cmds w ++ cs → ∃ w4,
    (_run mc (ckpt bin "unlock" pid) ;! ret false) w3 = (Ok false, w4) ∧
    g_cmds w4 = g_cmds w ++ cs ++ [ckpt bin "unlock" pid]) as Hunlock.
  { intros w3 cs H3. destruct (run_bind mc (ckpt bin "unlock" pid) (λ _, ret false) w3) as (o & w4 & -> & _ & H4).
    exists w4. split; [done|]. by rewrite H4, H3, <-app_assoc. }
  destruct (Z.eqb_spec (exit_code mc (S (g_tick w)) lock) 0) as [Hl|Hl]; cbn [negb].
  - destruct (run_bind mc (ckpt bin "checkpoint" pid) (λ '(rc, _), if negb (rc =? 0)%Z
      then _run mc (ckpt bin "unlock" pid) ;! ret false else ret true) w2) as (out2 & w3 & -> & Ht3 & Hc3).
    rewrite Ht2. destruct (Z.eqb_spec (exit_code mc (S (S (g_tick w))) (ckpt bin "checkpoint" pid)) 0) as [Hk|Hk]; cbn [negb].
    + exists [lock; ckpt bin "checkpoint" pid]. by rewrite Hc3, Hc2, Hc, <-app_assoc.
    + destruct (Hunlock w3 [lock; ckpt bin "checkpoint" pid]) as (w4 & -> & H4).
      { by rewrite Hc3, Hc2, Hc, <-app_assoc. }
      exists [lock; ckpt bin "checkpoint" pid; ckpt bin "unlock" pid]. auto 10.
  - destruct (Hunlock w2 [lock]) as (w4 & -> & H4); [by rewrite Hc2, Hc|].
    exists [lock; ckpt bin "unlock" pid]. auto 10.
Qed.

(** ** Properties of the slots *)

(** A parked slot has a park value and is not frozen as well. *)
Definition slot_ok (s : slot) : Prop := s_parked s = true → s_frozen s = false ∧ is_Some (s_park s).

(** What of a slot never changes. *)
Definition slot_ident (s : slot) : string * string * Z * Z * (nat * option nat * bool * nat) :=
  (s_stage_name s, s_worker_id s, s_gpu s, s_physical s, (s_hold s, s_park s, s_supports_park s, s_ipc s)).

Lemma slot_move_ok o ready s w s' : slot_move o ready s w s' → slot_ident s' = slot_ident s ∧ (slot_ok s → slot_ok s').
Proof.
  unfold slot_move, free_move, claim_move, slot_ok. destruct (dict_lookup _ _) as [pid|].
  - destruct (claimed o _).
    + destruct (s_frozen s || s_parked s) eqn:E; [by intros ->|].
      apply orb_false_iff in E as [Ef Ep].
      intros [-> | [-> | [[Hp [-> | ->]] | [m ->]]]]; simpl; rewrite ?Ef, ?Ep; done.
    + destruct ready; [|by intros ->]. destruct (s_parked s) eqn:Ep.
      * intros (-> & _). simpl. done.
      * destruct (s_frozen s) eqn:Ef; [|intros (-> & _); by rewrite Ep].
        intros [-> | (-> & _)]; simpl; by rewrite ?Ep.
  - intros ->. simpl. split; [done|]. intros Hok Hp. destruct (Hok Hp). done.
Qed.

(** [l] and [l'] are the same slots in the same order, each in an allowed
    state if it was in one. *)
Definition slots_kept (l l' : list slot) : Prop :=
  slot_ident <$> l' = slot_ident <$> l ∧ (Forall slot_ok l → Forall slot_ok l').

#[export] Instance slots_kept_preorder : PreOrder slots_kept.
Proof. split; [by intros l|]. intros l1 l2 l3 [H1 H1'] [H2 H2']. split; [congruence|auto]. Qed.

Lemma slots_kept_insert l i s s' :
  l !! i = Some s → slot_ident s' = slot_ident s → (slot_ok s → slot_ok s') → slots_kept l (<[i := s']> l).
Proof.
  intros Hi He Hok. split.
  - rewrite list_fmap_insert, He. apply list_insert_id. by rewrite list_lookup_fmap, Hi.
  - intros Hall. apply Forall_insert; [done|]. apply Hok. by eapply Forall_lookup_1.
Qed.

Section turns.
Context (k : knobs) (mc : machine).

Lemma slot_turns_kept fuel bin need o streak todo used w u w' :
  slot_turns k mc fuel bin need o streak todo used w = (Ok u, w') → slots_kept (g_slots w) (g_slots w').
Proof.
  revert used w. induction todo as [|i todo IH]; intros used w; simpl; [by intros [= _ <-]|].
  unfold bind. destruct (g_slots w !! i) as [s|] eqn:Hi.
  - pose proof (slot_turn_moves k mc fuel bin need o streak i s used w Hi) as Hm.
    destruct (slot_turn k mc fuel bin need o streak i used w) as [[used1|e|] w1]; simpl in *; [|done..].
    intros Hrest. destruct Hm as (s' & Hs & Hm). destruct (slot_move_ok _ _ _ _ _ Hm) as [He Hok].
    transitivity (g_slots w1); [|by eapply IH]. rewrite Hs. by eapply slots_kept_insert.
  - unfold slot_turn, bind, get_slot. by rewrite Hi.
Qed.

Lemma turn_kept fuel bin need streak w r w' :
  scavenger_turn k mc fuel bin need streak w = (Ok r, w') → slots_kept (g_slots w) (g_slots w').
Proof.
  unfold scavenger_turn. unfold bind at 1. simpl. destruct (h_stop mc (g_tick w)); [by intros [= _ <-]|].
  unfold bind at 1. pose proof (apps_keeps mc (pass w)) as Ha. unfold slots_of in Ha.
  destruct (_gpu_compute_apps mc (pass w)) as [[[apps|]|e|] w1]; simpl in *; [| |done..].
  - unfold bind at 1. simpl. unfold bind at 1. simpl. unfold bind at 1.
    destruct (slot_turns _ _ _ _ _ _ _ _ _ _) as [[[]|e|] w2] eqn:E; [|done..].
    intros [= _ <-]. apply slot_turns_kept in E. simpl in *. by rewrite Ha in E.
  - intros [= _ <-]. simpl. by rewrite Ha.
Qed.
End turns.

(** ** How long a GPU has been free *)

(** The polls since the last one that found a foreign process on [g]. *)
Fixpoint quiet (g : Z) (os : list poll) : nat :=
  match os with
  | [] => 0
  | o :: os => if claimed o g then 0 else S (quiet g os)
  end.

Lemma next_streak_lookup o slots streak g :
  g ∈ s_physical <$> slots →
  next_streak o slots streak !! g = Some (if claimed o g then 0 else default 0 (streak !! g) + 1)%Z.
Proof.
  unfold next_streak. set (f := (λ (m : gmap Z Z) g, <[g := if claimed o g then 0 else default 0 (streak !! g) + 1]> m)%Z).
  intros Hg. assert (∀ l (m : gmap Z Z), g ∉ l → foldl f m l !! g = m !! g) as Hout.
  { induction l as [|h l IH]; intros m Hn; simpl; [done|]. apply not_elem_of_cons in Hn as [Hh Hn].
    rewrite IH by done. unfold f. by rewrite lookup_insert_ne. }
  assert (∀ l (m : gmap Z Z), g ∈ l →
    foldl f m l !! g = Some (if claimed o g then 0 else default 0 (streak !! g) + 1)%Z) as Hin; [|by apply Hin].
  induction l as [|h l IH]; intros m Hl; [by apply elem_of_nil in Hl|]. simpl.
  destruct (decide (g ∈ l)) as [Hl'|Hl']; [by apply IH|].
  rewrite Hout by done. apply elem_of_cons in Hl as [<-|]; [|done]. unfold f. by rewrite lookup_insert_eq.
Qed.

(** The streaks after a series of polls, the latest first. *)
Definition streak_after (slots : list slot) (os : list poll) : gmap Z Z :=
  foldr (λ o m, next_streak o slots m) ∅ os.

Lemma streak_counts slots os g :
  g ∈ s_physical <$> slots → default 0%Z (streak_after slots os !! g) = Z.of_nat (quiet g os).
Proof.
  intros Hg. induction os as [|o os IH]; [done|].
  change (streak_after slots (o :: os)) with (next_streak o slots (streak_after slots os)).
  rewrite next_streak_lookup by done. simpl. rewrite IH. destruct (claimed o g); simpl; lia.
Qed.

(** ** Reading nvidia-smi *)

(** A row of the compute processes as nvidia-smi prints it. *)
Definition app_row : Type := string * Z * Z * Z.    (* uuid, its index, pid, MiB *)
Definition row_chars (a : app_row) : list ascii :=
  let '(u, _, pid, mem) := a in
  chars u ++ ","%char :: " "%char :: chars (str_of_Z pid) ++ ","%char :: " "%char :: chars (str_of_Z mem).
Fixpoint report_chars (rows : list app_row) : list ascii :=
  match rows with
  | [] => []
  | [a] => row_chars a
  | a :: rows => row_chars a ++ ascii_of_nat 10 :: report_chars rows
  end.
Definition report (rows : list app_row) : string := text (report_chars rows).

Definition printable (d : list (string * Z)) (a : app_row) : Prop :=
  let '(u, idx, pid, mem) := a in
  word (chars u) ∧ dict_lookup u d = Some idx ∧ (0 ≤ pid)%Z ∧ (0 ≤ mem)%Z.

Lemma split_at_solid f cs : Forall (λ c, f c = false) cs → split_at f cs = [cs].
Proof. induction 1 as [|c cs Hc Hcs IH]; [done|]. simpl. by rewrite Hc, IH. Qed.
Lemma split_at_app f cs sep rest :
  Forall (λ c, f c = false) cs → f sep = true → split_at f (cs ++ sep :: rest) = cs :: split_at f rest.
Proof.
  intros Hcs Hsep. induction Hcs as [|c cs Hc Hcs IH]; simpl; [by rewrite Hsep|]. by rewrite Hc, IH.
Qed.

(** No blank at either end. *)
Definition solid_ends (cs : list ascii) : Prop :=
  (∀ c, head cs = Some c → is_space c = false) ∧ (∀ c, last cs = Some c → is_space c = false).

Lemma lstrip_head cs : (∀ c, head cs = Some c → is_space c = false) → lstrip cs = cs.
Proof. destruct cs as [|c cs]; [done|]. intros Hc. simpl. by rewrite Hc. Qed.
Lemma strip_ends cs : solid_ends cs → strip_chars cs = cs.
Proof.
  intros [Hh Hl]. unfold strip_chars. rewrite (lstrip_head cs) by done.
  rewrite lstrip_head; [apply rev_involutive|]. intros c Hc. apply Hl.
  rewrite <-(rev_involutive cs). destruct (rev cs) as [|c' l]; simplify_eq/=. by rewrite last_snoc.
Qed.

Lemma linebreak_space c : is_space c = false → is_linebreak c = false.
Proof.
  unfold is_space, is_linebreak. intros Hs. apply not_true_is_false. intros Hl.
  rewrite orb_true_iff, !andb_true_iff, !Nat.leb_le in Hl. apply not_true_iff_false in Hs. apply Hs.
  rewrite orb_true_iff, !andb_true_iff, !Nat.leb_le. lia.
Qed.

Lemma word_no_comma cs : word cs → Forall (λ c, c ≠ ","%char) cs.
Proof. intros [_ Hcs]. eapply Forall_impl; [exact Hcs|]. naive_solver. Qed.

(** One line, split and stripped. *)
Lemma row_parts d u idx pid mem : printable d (u, idx, pid, mem) →
  strip <$> split_commas (text (row_chars (u, idx, pid, mem))) = [u; str_of_Z pid; str_of_Z mem].
Proof.
  intros (Hu & _ & Hp & Hm). unfold split_commas, row_chars. rewrite chars_text.
  pose proof (str_word pid Hp) as Hwp. pose proof (str_word mem Hm) as Hwm.
  rewrite split_app by (by apply word_no_comma).
  change (" "%char :: ?a ++ ?b) with ((" "%char :: a) ++ b).
  rewrite split_app by (constructor; [done|by apply word_no_comma]).
  rewrite split_word by (constructor; [done|by apply word_no_comma]).
  rewrite !fmap_cons, !fmap_nil. unfold strip. rewrite !chars_text, (strip_solid (chars u)) by (by apply word_solid).
  assert (∀ cs, word cs → strip_chars (" "%char :: cs) = cs) as Hsp.
  { intros cs Hcs. unfold strip_chars. simpl. by apply (strip_solid cs), word_solid. }
  by rewrite !Hsp, !text_chars.
Qed.

Lemma row_no_break d a : printable d a → Forall (λ c, is_linebreak c = false) (row_chars a).
Proof.
  destruct a as [[[u idx] pid] mem]. intros (Hu & _ & Hp & Hm). unfold row_chars.
  assert (∀ cs, word cs → Forall (λ c, is_linebreak c = false) cs) as Hw.
  { intros cs Hcs. eapply Forall_impl; [by apply word_solid|]. apply linebreak_space. }
  rewrite Forall_app, !Forall_cons, Forall_app, !Forall_cons. split_and!; try done; apply Hw; [done|by apply str_word..].
Qed.

Lemma row_ends d a : printable d a → solid_ends (row_chars a) ∧ row_chars a ≠ [].
Proof.
  destruct a as [[[u idx] pid] mem]. intros ((Hne & Hu) & _ & Hp & Hm). unfold row_chars, solid_ends.
  destruct (chars u) as [|c cs]; [done|]. inversion Hu as [|? ? [Hc _] _]; subst.
  split; [split|done]; [by intros c' [= <-]|].
  rewrite !app_comm_cons, app_assoc, last_app. intros c' Hl.
  destruct (str_word mem Hm) as [Hne' Hall].
  change (","%char :: " "%char :: ?a) with ([","%char; " "%char] ++ a) in Hl.
  rewrite last_app in Hl. destruct (last (chars (str_of_Z mem))) as [e|] eqn:E; [|by apply last_None in E].
  simplify_eq. apply last_Some_elem_of in E. rewrite Forall_forall in Hall. by apply Hall.
Qed.
Lemma report_ends d rows : Forall (printable d) rows → solid_ends (report_chars rows).
Proof.
  intros Hall. induction Hall as [|a rows Ha Hrows IH]; [by split|].
  destruct (row_ends d a Ha) as [[Hh Hl] Hne]. destruct rows as [|a' rows]; [by split|].
  inversion Hrows as [|? ? Ha' _]; subst. destruct (row_ends d a' Ha') as [_ Hne'].
  change (report_chars (a :: a' :: rows)) with (row_chars a ++ ascii_of_nat 10 :: report_chars (a' :: rows)).
  assert (report_chars (a' :: rows) ≠ []) as Hrest.
  { destruct rows; [done|]. simpl. by destruct (row_chars a'). }
  set (rest := report_chars (a' :: rows)) in *. clearbody rest. split.
  - intros c Hc. apply Hh. by destruct (row_chars a).
  - intros c. change (ascii_of_nat 10 :: rest) with ([ascii_of_nat 10] ++ rest). rewrite app_assoc, last_app.
    destruct (last rest) as [e|] eqn:E; [intros [= <-]; by apply IH|].
    apply last_None in E. by destruct (Hrest E).
Qed.

Lemma report_lines d rows : rows ≠ [] → Forall (printable d) rows →
  split_at is_linebreak (report_chars rows) = row_chars <$> rows.
Proof.
  intros Hne Hall. induction Hall as [|a rows Ha Hrows IH]; [done|].
  destruct rows as [|a' rows]; [by apply split_at_solid, row_no_break with (d := d)|].
  change (report_chars (a :: a' :: rows)) with (row_chars a ++ ascii_of_nat 10 :: report_chars (a' :: rows)).
  rewrite split_at_app, IH; [done|done|by apply row_no_break with (d := d)|done].
Qed.

Lemma csv_report d rows : rows ≠ [] → Forall (printable d) rows →
  csv_rows (strip (report rows)) = (λ '(u, _, pid, mem), [u; str_of_Z pid; str_of_Z mem]) <$> rows.
Proof.
  intros Hne Hall. unfold csv_rows, splitlines, report.
  assert (chars (strip (text (report_chars rows))) = report_chars rows) as ->.
  { unfold strip. rewrite !chars_text. by apply strip_ends, (report_ends d). }
  rewrite (report_lines d) by done.
  match goal with |- filter _ ?l = ?r => assert (l = r) as -> end.
  { clear Hne. induction Hall as [|[[[u idx] pid] mem] rows Ha Hrows IH]; [done|].
    rewrite !fmap_cons. cbv beta. by rewrite (row_parts d u idx pid mem Ha), IH. }
  apply filter_all, Forall_fmap. eapply Forall_impl; [exact Hall|].
  intros [[[u idx] pid] mem] ([Hu _] & _). simpl.
  rewrite bool_decide_eq_false_2; [done|]. by intros ->.
Qed.

Lemma append_empty (s : string) : (s +:+ "")%string = s.
Proof. induction s as [|c s IH]; [done|]. exact (f_equal (String c) IH). Qed.

(** The scavenger reads nvidia-smi's answer back. When nvidia-smi prints a
    line [uuid, pid, MiB] for each compute process, on GPUs the uuid map knows,
    [_gpu_compute_apps] returns exactly these processes, in order, with the
    physical index of each GPU. *)
Theorem gpu_apps_roundtrip (mc : machine) (w : scav) (d : list (string * Z)) (rows : list app_row) :
  g_uuids w = Some d → rows ≠ [] → Forall (printable d) rows →
  h_exec mc (g_tick w) ["nvidia-smi"; "--query-compute-apps=gpu_uuid,pid,used_memory";
                        "--format=csv,noheader,nounits"]%string = Done 0 (report rows) "" →
  (_gpu_compute_apps mc w).1 = Ok (Some ((λ '(_, idx, pid, mem), (idx, pid, mem)) <$> rows)).
Proof.
  intros Hd Hne Hall Hrun. unfold _gpu_compute_apps, _uuid_to_index, bind, _nvidia_smi_csv. rewrite Hd. simpl.
  unfold bind, _run. simpl in *.
  change ("--query-compute-apps" +:+ "=" +:+ "gpu_uuid,pid,used_memory")%string
    with "--query-compute-apps=gpu_uuid,pid,used_memory"%string.
  rewrite Hrun. simpl. do 2 f_equal.
  rewrite append_empty.
  rewrite (csv_report d) by done. clear Hne Hrun. induction Hall as [|[[[u idx] pid] mem] rows Ha Hrows IH]; [done|].
  destruct Ha as (_ & Hu & Hp & Hm). rewrite !fmap_cons, <-IH. cbn [omap list_omap app_of_row].
  by rewrite Hu, !int_of_str_of_Z.
Qed.


(** The scavenger thread keeps its slots well-formed. When the thread ends,
    after any number of polls and whatever nvidia-smi, cuda-checkpoint and the
    workers did, the slots are the same in the same order, and none is both
    parked and frozen, or parked without a park value, if none was before. *)
Theorem scavenger_keeps_slots (k : knobs) (mc : machine) (fuel turns : nat) (bin : option string)
    (poll free_secs : Z) (w : scav) :
  let '(r, w') := _scavenger_thread k mc fuel turns bin poll free_secs w in
  r = Ok tt → slots_kept (g_slots w) (g_slots w').
Proof.
  unfold _scavenger_thread. destruct (poll =? 0)%Z; [done|].
  assert (wp (loop turns (scavenger_turn k mc fuel bin (need_free_polls free_secs poll)) ∅)
    (λ r w', r = Ok tt → slots_kept (g_slots w) (g_slots w')) w) as Hw.
  2: { unfold wp in Hw. by destruct (loop _ _ _ w). }
  apply (wp_loop (λ _ w', slots_kept (g_slots w) (g_slots w'))); [done|done|].
  intros streak w1 Hk. unfold wp. destruct (scavenger_turn _ _ _ _ _ _ w1) as [[[|]|e|] w2] eqn:E; simpl; try done.
  - transitivity (g_slots w1); [done|]. by eapply turn_kept.
  - intros _. transitivity (g_slots w1); [done|]. by eapply turn_kept.
Qed.

(** *** A late acknowledgement *)

(** A poll that finds the GPU of a worker which is neither parked nor frozen
    free writes nothing but its [hold]. *)
Lemma free_running_slot k mc fuel bin need o streak i s used w x :
  g_slots w !! i = Some s → s_parked s = false → s_frozen s = false → s_hold s ≠ x →
  claimed o (s_physical s) = false →
  ∃ w', slot_turn k mc fuel bin need o streak i used w = (Ok used, w') ∧
    g_slots w' !! i = Some s ∧ g_values w' !! x = g_values w !! x.
Proof.
  intros Hi Hp Hf Hne Hc. unfold slot_turn, bind at 1, get_slot. rewrite Hi.
  destruct (dict_lookup _ _) as [pid|].
  - rewrite Hc. destruct (_ <=? _)%Z; [|by eexists]. unfold free_slot. rewrite Hp, Hf.
    unfold bind, get_value. simpl. set (v := h_value mc _ _ _). clearbody v.
    destruct (v =? 0)%Z; simpl; (eexists; split; [done|]; split; [done|]; simpl;
      by rewrite !lookup_insert_ne).
  - eexists. split; [done|]. split; [|done]. simpl. rewrite list_lookup_alter_eq, Hi. simpl. f_equal.
    destruct s; simpl in *; by subst.
Qed.

(** The slot [i] in a series of polls. *)
Definition polls (k : knobs) (mc : machine) (fuel : nat) (bin : option string) (need : Z) (i : nat)
    (os : list (poll * gmap Z Z)) : prog scav unit :=
  for_each os (λ '(o, streak), slot_turn k mc fuel bin need o streak i ∅ ;! ret tt).

(** An acknowledgement that comes late is never answered. A worker that
    acks a park request after the scavenger has given up on it waits for its
    park value to change; but its slot is neither parked nor frozen, and
    however many polls find its GPU free, they leave that value alone. *)
Theorem late_ack_never_answered (k : knobs) (mc : machine) (fuel : nat) (bin : option string) (need : Z)
    (i x : nat) (s : slot) (os : list (poll * gmap Z Z)) (w : scav) :
  g_slots w !! i = Some s → s_parked s = false → s_frozen s = false →
  s_park s = Some x → s_hold s ≠ x → g_values w !! x = Some 2%Z →
  Forall (λ o, claimed o.1 (s_physical s) = false) os →
  let '(r, w') := polls k mc fuel bin need i os w in
  r = Ok tt ∧ g_slots w' !! i = Some s ∧ g_values w' !! x = Some 2%Z.
Proof.
  intros Hi Hp Hf _ Hne Hx Hos. revert w Hi Hx. unfold polls.
  induction os as [|[o streak] os IH]; intros w Hi Hx; simpl; [done|]. inversion Hos; subst. simpl in *.
  destruct (free_running_slot k mc fuel bin need o streak i s ∅ w x) as (w1 & E & Hi1 & Hx1); [done..|].
  unfold bind. rewrite E. simpl. apply IH; [done|done|by rewrite Hx1].
Qed.

Module ScavDemo.
(** GPU 0 runs our worker, pid 100. A foreign process, pid 7, claims it for as
    long as [claimed_until] says; the worker answers a park request only at
    tick 40; a lock fails. *)
Definition uuids : list (string * Z) := [("GPU-a", 0); ("GPU-b", 1)]%string%Z.
Definition ours : app_row := ("GPU-a"%string, 0, 100, 5000)%Z.
Definition foreign : app_row := ("GPU-a"%string, 0, 7, 300)%Z.
Definition exec (claimed_until t : nat) (cmd : list string) : sub_result :=
  if decide (head cmd = Some "nvidia-smi"%string) then
    Done 0 (report (if (t <? claimed_until)%nat then [ours; foreign] else [ours])) ""
  else if decide (cmd !! 2%nat = Some "lock"%string) then Done 1 "" "busy" else Done 0 "" "".
Definition the_machine (claimed_until : nat) : machine := {|
  h_time t := Z.of_nat t * 20;
  h_exec := exec claimed_until;
  h_meminfo _ := Ok ["MemTotal: 1 kB"; "MemAvailable:   8192000 kB"]%string;
  h_environ _ _ := Raise FileNotFoundError;
  h_value t x v := if (40 <=? t)%nat && bool_decide (x = 2%nat) then 2 else v;
  h_workers _ := [("w0", 100)]%string%Z;
  h_getpid := 1;
  h_stop _ := false;
|}%Z.
Definition the_knobs : knobs := Knobs 30000 60 600.
Definition slot0 : slot := Slot "asr" "w0" 0 0 1 (Some 2%nat) true 3 false false 0 false.
Definition start : scav := Scav 0 {[1%nat := 0; 2%nat := 0; 3%nat := 0]}%Z [slot0] (Some uuids) [].
Definition claim : poll := Poll [(0, 100, 5000); (0, 7, 300)]%Z [("w0", 100)]%string%Z [1; 100]%Z.
Definition free : poll := Poll [(0, 100, 5000)]%Z [("w0", 100)]%string%Z [1; 100]%Z.

(** After the claim, at the time of the late answer. *)
Definition after : scav :=
  let '(_, w) := slot_turn the_knobs (the_machine 30) 10 (Some "ckpt"%string) 3 claim ∅ 0
                     (used_by_pid (o_apps claim)) start in
  (get_value (the_machine 30) 2 (Scav 40 (g_values w) (g_slots w) (g_uuids w) (g_cmds w))).2.
End ScavDemo.

(** The scavenger gives up on the park, the checkpoint fails too, the slot is
    neither parked nor frozen, and the worker acks then. *)
Example late_ack_happens :
  let '(r, w) := slot_turn ScavDemo.the_knobs (ScavDemo.the_machine 30) 10 (Some "ckpt"%string) 3 ScavDemo.claim ∅ 0
                   (used_by_pid (o_apps ScavDemo.claim)) ScavDemo.start in
  (g_tick w < 40)%nat ∧ g_slots w = [ScavDemo.slot0] ∧ g_values w !! 2%nat = Some 0%Z ∧
  g_cmds w !! 1%nat = Some (ckpt "ckpt" "lock" 100 ++ ["--timeout"; "30000"]%string) ∧
  g_values ScavDemo.after !! 2%nat = Some 2%Z.
Proof. vm_compute. split_and!; try reflexivity. lia. Qed.

Lemma late_ack_never_answered_witness :
  let os := repeat (ScavDemo.free, {[0%Z := 9%Z]}) 4 in
  let '(r, w') := polls ScavDemo.the_knobs (ScavDemo.the_machine 30) 10 (Some "ckpt"%string) 3 0 os ScavDemo.after in
  r = Ok tt ∧ g_slots w' !! 0%nat = Some ScavDemo.slot0 ∧ g_values w' !! 2%nat = Some 2%Z.
Proof.
  pose proof (late_ack_never_answered ScavDemo.the_knobs (ScavDemo.the_machine 30) 10 (Some "ckpt"%string) 3 0 2
    ScavDemo.slot0 (repeat (ScavDemo.free, {[0%Z := 9%Z]}) 4) ScavDemo.after) as H.
  apply H; [vm_compute; reflexivity|reflexivity|reflexivity|reflexivity|discriminate|vm_compute; reflexivity|].
  repeat (constructor; [vm_compute; reflexivity|]). constructor.
Defined.

Lemma gpu_apps_roundtrip_witness :
  (_gpu_compute_apps (ScavDemo.the_machine 30) ScavDemo.start).1 = Ok (Some [(0, 100, 5000); (0, 7, 300)]%Z).
Proof.
  pose proof (gpu_apps_roundtrip (ScavDemo.the_machine 30) ScavDemo.start ScavDemo.uuids
    [ScavDemo.ours; ScavDemo.foreign]) as H.
  apply H; [reflexivity|discriminate| |vm_compute; reflexivity].
  repeat (constructor; [split; [split; [discriminate|repeat (constructor; [split; [reflexivity|discriminate]|]); constructor]|];
    split; [vm_compute; reflexivity|split; discriminate]|]). constructor.
Defined.

