(* ===== verification/Utils.v ===== *)
(** * Ready-made workers (utils.py)

    [Batcher], [BufferAndShuffle], [RetrieveSQL], [SQLConnection] and
    [AsyncPoolWorker]. The database, the connection library, the random
    shuffle and the event loop are parameters. [RTF] is in [Display]. *)
From S2P Require Import Prelude Types Text.
From Stdlib Require Import Permutation.

(** ** Batcher *)

Section batcher.
Context (size : Z) (collate : option (list py → res py)).

(** [self.buffer] is the state. *)
Local Abbreviation P X := (prog (list py) X).

Definition emit_block (out : list py) : res py :=
  match collate with Some f => f out | None => Ok (PyList out) end.

(** The buffer is emptied before [collate] runs. *)
Definition batcher_emit : P py := λ buffer, (emit_block buffer, []).

(** [__call__]. *)
Definition batcher_call (item : py) : P py := λ buffer,
  let buffer := buffer ++ [item] in
  if (size <=? Z.of_nat (length buffer))%Z then batcher_emit buffer else (Ok PyNone, buffer).

(** [flush]: what the generator yields. *)
Definition batcher_flush : P generator := λ buffer,
  match buffer with
  | [] => (Ok (Generator [] None), [])
  | _ =>
      match collate with
      | None => (Ok (Generator buffer None), [])
      | Some f => match f buffer with
                  | Ok v => (Ok (Generator [v] None), [])
                  | Raise e => (Ok (Generator [] (Some e)), [])
                  | Spin => (Spin, [])
                  end
      end
  end.

(** One call per item: what each returns. *)
Fixpoint batcher_feed (items : list py) (buffer : list py) : list (res py) * list py :=
  match items with
  | [] => ([], buffer)
  | x :: items =>
      let '(r, buffer) := batcher_call x buffer in
      let '(rs, buffer) := batcher_feed items buffer in
      (r :: rs, buffer)
  end.

(** What the calls for one block return: nothing until the last. *)
Definition block_results (block : list py) : list (res py) :=
  replicate (length block - 1) (Ok PyNone) ++ [emit_block block].

Lemma batcher_feed_app xs ys buffer :
  batcher_feed (xs ++ ys) buffer =
  let '(rs, b) := batcher_feed xs buffer in let '(rs', b') := batcher_feed ys b in (rs ++ rs', b').
Proof.
  revert buffer. induction xs as [|x xs IH]; intros buffer; simpl; [by destruct (batcher_feed ys buffer)|].
  destruct (batcher_call x buffer) as [r b]. rewrite IH. destruct (batcher_feed xs b) as [rs b'].
  by destruct (batcher_feed ys b').
Qed.

(** Items that do not fill the buffer are kept. *)
Lemma batcher_feed_short xs buffer :
  (Z.of_nat (length buffer + length xs) < size)%Z →
  batcher_feed xs buffer = (replicate (length xs) (Ok PyNone), buffer ++ xs).
Proof.
  revert buffer. induction xs as [|x xs IH]; intros buffer Hlt; simpl in *; [by rewrite app_nil_r|].
  unfold batcher_call. rewrite length_app. simpl. destruct (Z.leb_spec size (Z.of_nat (length buffer + 1))); [lia|].
  rewrite IH by (rewrite length_app; simpl; lia). by rewrite <-app_assoc.
Qed.

Lemma batcher_feed_block xs :
  (1 ≤ size)%Z → Z.of_nat (length xs) = size → batcher_feed xs [] = (block_results xs, []).
Proof.
  intros Hs Hl. destruct (exists_last (l := xs)) as (ys & y & ->); [intros ->; simpl in Hl; lia|].
  rewrite length_app in Hl. simpl in Hl. rewrite batcher_feed_app, batcher_feed_short by (simpl; lia). simpl.
  unfold batcher_call. rewrite length_app. simpl. destruct (Z.leb_spec size (Z.of_nat (length ys + 1))); [|lia].
  simpl. unfold block_results. rewrite length_app. simpl. by rewrite Nat.add_sub.
Qed.

Lemma batcher_feed_blocks blocks rest :
  (1 ≤ size)%Z → Forall (λ b, Z.of_nat (length b) = size) blocks → (Z.of_nat (length rest) < size)%Z →
  batcher_feed (concat blocks ++ rest) [] =
    (concat (block_results <$> blocks) ++ replicate (length rest) (Ok PyNone), rest).
Proof.
  intros Hs Hb Hr. induction Hb as [|b blocks Hl Hb IH]; simpl.
  - by rewrite batcher_feed_short by (simpl; lia).
  - rewrite <-app_assoc, batcher_feed_app, batcher_feed_block by done. rewrite IH. by rewrite <-app_assoc.
Qed.

(** Cutting a list into blocks. *)
Lemma cut_blocks (n : nat) (xs : list py) : (1 ≤ n)%nat →
  ∃ blocks rest, xs = concat blocks ++ rest ∧ Forall (λ b, length b = n) blocks ∧ (length rest < n)%nat.
Proof.
  intros Hn. remember (length xs) as m eqn:Hm. revert xs Hm.
  induction m as [m IH] using lt_wf_ind. intros xs ->.
  destruct (decide (length xs < n)%nat) as [Hlt|Hge]; [by exists [], xs|].
  destruct (IH (length (drop n xs)) ltac:(rewrite length_drop; lia) (drop n xs) eq_refl) as (bs & rest & E & Hb & Hr).
  exists (take n xs :: bs), rest. simpl. rewrite <-app_assoc, <-E, take_drop. split_and!; [done| |done].
  constructor; [|done]. rewrite length_take. lia.
Qed.
End batcher.

(** [Batcher] cuts its input into blocks of [size]. Every [size]-th call
    returns the (collated) last [size] items, the others [None]; [flush] hands
    out what is left; so every item comes out exactly once, in order, even when
    [collate] raises for some block. *)
Theorem batcher_cuts (size : Z) (collate : option (list py → res py)) (xs : list py) :
  (1 ≤ size)%Z →
  ∃ blocks rest, xs = concat blocks ++ rest ∧
    Forall (λ b, Z.of_nat (length b) = size) blocks ∧ (Z.of_nat (length rest) < size)%Z ∧
    batcher_feed size collate xs [] =
      (concat (block_results collate <$> blocks) ++ replicate (length rest) (Ok PyNone), rest) ∧
    (batcher_flush collate rest).2 = [] ∧
    (collate = None → (batcher_flush collate rest).1 = Ok (Generator rest None)).
Proof.
  intros Hs. destruct (cut_blocks (Z.to_nat size) xs) as (blocks & rest & -> & Hb & Hr); [lia|].
  assert (Forall (λ b, Z.of_nat (length b) = size) blocks) as Hb'.
  { eapply Forall_impl; [exact Hb|]. simpl. lia. }
  exists blocks, rest. split_and!; [done|done|lia|apply batcher_feed_blocks; [done|done|lia]| |].
  - unfold batcher_flush. destruct rest, collate as [f|]; try done. by destruct (f _).
  - intros ->. by destruct rest.
Qed.

(** ** BufferAndShuffle *)

Section shuffle.
(** [random.shuffle]. *)
Context (shuffle : list py → list py).

Record shuffler := Shuffler {
  sh_size : Z;
  sh_batch_size : Z;              (* 4 * the argument *)
  sh_first : bool;
  sh_buffer : list py;
}.
Definition new_shuffler (size batch_size : Z) : shuffler := Shuffler size (batch_size * 4) true [].

Definition shuffler_call (it : py) : prog shuffler py := λ s,
  let buffer := sh_buffer s ++ [it] in
  let size := if sh_first s then sh_batch_size s else sh_size s in
  if (size <? Z.of_nat (length buffer))%Z then
    (Ok (PyList (shuffle buffer)), Shuffler (sh_size s) (sh_batch_size s) false [])
  else (Ok PyNone, Shuffler (sh_size s) (sh_batch_size s) (sh_first s) buffer).

Definition shuffler_flush : prog shuffler generator := λ s,
  match sh_buffer s with
  | [] => (Ok (Generator [] None), s)
  | buffer => (Ok (Generator (shuffle buffer) None), Shuffler (sh_size s) (sh_batch_size s) (sh_first s) [])
  end.

Fixpoint shuffler_feed (items : list py) (s : shuffler) : list (res py) * shuffler :=
  match items with
  | [] => ([], s)
  | x :: items =>
      let '(r, s) := shuffler_call x s in
      let '(rs, s) := shuffler_feed items s in
      (r :: rs, s)
  end.

(** The items of what a call returned. *)
Definition returned (r : res py) : list py := match r with Ok (PyList l) => l | _ => [] end.

Context (Hshuffle : ∀ l, Permutation (shuffle l) l).

Lemma shuffler_feed_permutes items s :
  let '(rs, s') := shuffler_feed items s in
  Permutation (concat (returned <$> rs) ++ sh_buffer s') (sh_buffer s ++ items) ∧
  sh_size s' = sh_size s ∧ sh_batch_size s' = sh_batch_size s.
Proof.
  revert s. induction items as [|x items IH]; intros s; simpl; [by rewrite app_nil_r|].
  unfold shuffler_call. destruct (_ <? _)%Z; simpl.
  - set (s1 := Shuffler _ _ _ _). specialize (IH s1). destruct (shuffler_feed items s1) as [rs s'].
    destruct IH as (IH & ? & ?). simpl in *. split; [|done]. rewrite <-app_assoc, IH, Hshuffle. by rewrite <-app_assoc.
  - set (s1 := Shuffler _ _ _ _). specialize (IH s1). destruct (shuffler_feed items s1) as [rs s'].
    destruct IH as (IH & ? & ?). simpl in *. split; [|done]. rewrite IH. by rewrite <-app_assoc.
Qed.
End shuffle.

(** [BufferAndShuffle] loses and duplicates nothing: for whatever
    [random.shuffle] does that permutes its list, what the calls return and
    what [flush] yields are together a permutation of the items given. *)
Theorem shuffler_permutes (shuffle : list py → list py) (size batch_size : Z) (items : list py) :
  (∀ l, Permutation (shuffle l) l) →
  let '(rs, s) := shuffler_feed shuffle items (new_shuffler size batch_size) in
  let '(r, s') := shuffler_flush shuffle s in
  ∃ rest, r = Ok (Generator rest None) ∧ sh_buffer s' = [] ∧
    Permutation (concat (returned <$> rs) ++ rest) items.
Proof.
  intros Hs. pose proof (shuffler_feed_permutes shuffle Hs items (new_shuffler size batch_size)) as Hp.
  destruct (shuffler_feed shuffle items (new_shuffler size batch_size)) as [rs s]. destruct Hp as [Hp _]. simpl in Hp.
  unfold shuffler_flush. destruct (sh_buffer s) as [|x l] eqn:E.
  - exists []. by rewrite app_nil_r in *.
  - exists (shuffle (x :: l)). split_and!; [done|done|]. by rewrite Hs.
Qed.

(** ** RetrieveSQL *)

(** [p in s], [s.upper()]. *)
Fixpoint contains (p cs : list ascii) : bool :=
  bool_decide (p `prefix_of` cs) || match cs with [] => false | _ :: cs => contains p cs end.
Definition upper (s : string) : list ascii := ascii_upper <$> chars s.

Section retrieve.
(** [data.db.query]: the project's own database module. *)
Context {W : Type} (query : string → prog W (list py)).

Record retriever := Retriever {
  rs_offset : Z;
  rs_chunk_size : Z;
  rs_base_query : string;
  rs_query : string;
  rs_skip_count : bool;
  rs_count : Z;
}.
Local Abbreviation P X := (prog (W * retriever) X).

Definition set_offset (v : Z) (s : retriever) : retriever :=
  Retriever v (rs_chunk_size s) (rs_base_query s) (rs_query s) (rs_skip_count s) (rs_count s).
Definition set_count (v : Z) (s : retriever) : retriever :=
  Retriever (rs_offset s) (rs_chunk_size s) (rs_base_query s) (rs_query s) (rs_skip_count s) v.

(** [get_total_count]: [result[0]["count"]] for a number. *)
Definition count_query (base : string) : string :=
  ("SELECT COUNT(*) as count FROM (" +:+ base +:+ ") as subquery")%string.
Definition get_total_count (base : string) : prog W Z :=
  let! result := query (count_query base) in
  match result with
  | [] => ret 0%Z
  | PyDict d :: _ =>
      match dict_get "count" d with Some (PyNum n) => ret n | Some _ => raise TypeError | None => raise KeyError end
  | _ :: _ => raise TypeError
  end.

(** [__init__]. *)
Definition new_retriever (q : string) (chunk_size : Z) (skip_count : bool) : prog W retriever :=
  let! count := if skip_count then ret 0%Z else get_total_count q in
  ret (Retriever 0 chunk_size q q skip_count count).

Definition page_query (s : retriever) : string :=
  let limits := (" LIMIT " +:+ str_of_Z (rs_chunk_size s) +:+ " OFFSET " +:+ str_of_Z (rs_offset s))%string in
  if contains (chars "ORDER BY") (upper (rs_query s)) then (rs_query s +:+ limits)%string
  else (rs_query s +:+ " ORDER BY RANDOM()" +:+ limits)%string.

(** [__call__]. *)
Definition retrieve : P py :=
  let! s := get_obj in
  if rs_skip_count s then
    let! items := lift (query (rs_query s)) in
    ret (match items with [] => End | _ => PyList items end)
  else
    let! items := lift (query (page_query s)) in
    let s := set_offset (rs_offset s + Z.of_nat (length items)) s in
    put_obj s ;!
    if bool_decide (items = []) || (rs_count s <=? rs_offset s)%Z then
      let! updated_count := lift (get_total_count (rs_base_query s)) in
      if (rs_count s <? updated_count)%Z then
        put_obj (set_offset 0 (set_count updated_count s)) ;! ret (PyList items)
      else ret End
    else ret (PyList items).

(** Call after call, as the root worker does, until [End]. *)
Fixpoint pages (fuel : nat) : P (list py) :=
  match fuel with
  | O => λ w, (Spin, w)
  | S fuel =>
      let! v := retrieve in
      match v with
      | PyList items => let! rest := pages fuel in ret (items ++ rest)
      | _ => ret []
      end
  end.
End retrieve.

Section retrieve_spec.
Context {W : Type} (query : string → prog W (list py)).

(** A table of fixed rows, for queries with an order of their own: it answers
    the count and the pages of [base] from [rows]. *)
Record fixed_table (base : string) (chunk : Z) (rows : list py) : Prop := {
  ft_ordered : contains (chars "ORDER BY") (upper base) = true;
  ft_count w : query (count_query base) w = (Ok [PyDict [("count"%string, PyNum (Z.of_nat (length rows)))]], w);
  ft_page o w : (0 ≤ o ≤ Z.of_nat (length rows))%Z →
    query (page_query (Retriever o chunk base base false (Z.of_nat (length rows)))) w = (Ok (slice rows o (o + chunk)), w);
}.

Lemma fixed_count base chunk rows w : fixed_table base chunk rows →
  get_total_count query base w = (Ok (Z.of_nat (length rows)), w).
Proof. intros [_ Hc _]. unfold get_total_count, bind. rewrite Hc. done. Qed.

(** The call at offset [o]. *)
Lemma retrieve_at base chunk rows o w :
  fixed_table base chunk rows → (0 ≤ o ≤ Z.of_nat (length rows))%Z → (1 ≤ chunk)%Z →
  let s := Retriever o chunk base base false (Z.of_nat (length rows)) in
  retrieve query (w, s) =
    if (o + chunk <? Z.of_nat (length rows))%Z
    then (Ok (PyList (slice rows o (o + chunk))), (w, set_offset (o + chunk) s))
    else (Ok End, (w, set_offset (o + Z.of_nat (length (slice rows o (o + chunk)))) s)).
Proof.
  intros Hft Ho Hc. cbn zeta. unfold retrieve, bind. cbn [get_obj rs_skip_count lift].
  rewrite (ft_page _ _ _ Hft) by done. cbn [put_obj rs_offset].
  set (items := slice rows o (o + chunk)).
  assert (length items = Z.to_nat (Z.min chunk (Z.of_nat (length rows) - o)))%nat as Hlen.
  { unfold items, slice. rewrite length_take, length_drop. lia. }
  cbn [rs_count set_offset rs_offset rs_base_query]. destruct (Z.ltb_spec (o + chunk) (Z.of_nat (length rows))).
  - rewrite bool_decide_eq_false_2 by (intros E; rewrite E in Hlen; simpl in Hlen; lia).
    destruct (Z.leb_spec (Z.of_nat (length rows)) (o + Z.of_nat (length items))); [lia|]. simpl.
    replace (o + Z.of_nat (length items))%Z with (o + chunk)%Z by lia. done.
  - replace (bool_decide (items = []) || _) with true.
    2: { destruct items as [|y l] eqn:E; [done|]. symmetry. apply orb_true_iff. right. apply Z.leb_le. simpl in Hlen |- *. lia. }
    cbn [lift]. rewrite (fixed_count _ _ _ _ Hft). rewrite Z.ltb_irrefl. done.
Qed.

Lemma pages_from base chunk rows fuel o w :
  fixed_table base chunk rows → (0 ≤ o ≤ Z.of_nat (length rows))%Z → (1 ≤ chunk)%Z →
  (Z.to_nat (Z.of_nat (length rows) - o) < fuel)%nat →
  ∃ given lost s', pages query fuel (w, Retriever o chunk base base false (Z.of_nat (length rows))) = (Ok given, s') ∧
    drop (Z.to_nat o) rows = given ++ lost ∧ (Z.of_nat (length lost) ≤ chunk)%Z ∧
    ((o < Z.of_nat (length rows))%Z → lost ≠ []).
Proof.
  intros Hft Ho Hc. revert o Ho. induction fuel as [|fuel IH]; intros o Ho Hf; [lia|]. simpl.
  unfold bind at 1. pose proof (retrieve_at _ _ _ _ w Hft Ho Hc) as Hr. cbn zeta in Hr. rewrite Hr. clear Hr.
  destruct (Z.ltb_spec (o + chunk) (Z.of_nat (length rows))).
  - unfold bind, set_offset. cbn [rs_offset rs_chunk_size rs_base_query rs_query rs_skip_count rs_count].
    destruct (IH (o + chunk)%Z ltac:(lia) ltac:(lia)) as (given & lost & s' & -> & Hd & Hl & Hne).
    exists (slice rows o (o + chunk) ++ given), lost, s'. split_and!; [done| |done|intros; by apply Hne].
    rewrite <-app_assoc, <-Hd. unfold slice. replace (o + chunk - o)%Z with chunk by lia.
    replace (Z.to_nat (o + chunk)) with (Z.to_nat o + Z.to_nat chunk)%nat by lia.
    by rewrite <-drop_drop, take_drop.
  - simpl. exists [], (drop (Z.to_nat o) rows). eexists. split_and!; [done|done| |].
    + rewrite length_drop. lia.
    + intros Hlt He. apply (f_equal length) in He. rewrite length_drop in He. simpl in He. lia.
Qed.
End retrieve_spec.

(** [RetrieveSQL] never hands out its last page. On a table that does not
    change and a query that orders it, the calls up to [End] return the rows in
    order, page by page, but for the last page: from one to [chunk_size] rows
    of a non-empty table, all of them if it has no more than that. *)
Theorem retrieve_drops_last_page {W} (query : string → prog W (list py)) (base : string) (chunk : Z)
    (rows : list py) (fuel : nat) (w : W) :
  fixed_table query base chunk rows → (1 ≤ chunk)%Z → rows ≠ [] → (length rows < fuel)%nat →
  ∃ given lost s w', new_retriever query base chunk false w = (Ok s, w) ∧
    pages query fuel (w, s) = (Ok given, w') ∧
    rows = given ++ lost ∧ (1 ≤ Z.of_nat (length lost) ≤ chunk)%Z.
Proof.
  intros Hft Hc Hne Hf. destruct (pages_from query base chunk rows fuel 0 w Hft) as (given & lost & w' & E & Hd & Hl & Hn);
    [lia|done|lia|].
  exists given, lost, (Retriever 0 chunk base base false (Z.of_nat (length rows))), w'. split_and!; [|done|done| |done].
  - unfold new_retriever, bind. by rewrite (fixed_count query base chunk rows w Hft).
  - destruct lost; simpl; [|lia]. destruct Hn; [|done]. destruct rows; [done|]. simpl. lia.
Qed.

(** ** SQLConnection *)

Section sql.
(** psycopg, on a world [W]: connections and cursors are names. *)
Context {W : Type}.
Record driver := Driver {
  dr_connect : prog W nat;
  dr_closed : nat → prog W bool;
  dr_cursor : nat → prog W nat;
  dr_close_cursor : nat → prog W unit;
  dr_close : nat → prog W unit;
  dr_execute : nat → string → list py → prog W unit;
  dr_commit : nat → prog W unit;
}.
Context (dr : driver).

Record sql := Sql { sq_connection : option nat; sq_cursor : option nat; sq_query : option string }.
Local Abbreviation P X := (prog (W * sql) X).

Definition set_conn (c cur : option nat) : P unit :=
  let! s := get_obj in put_obj (Sql c cur (sq_query s)).

(** [except Exception as e: ...; raise]: both handles are forgotten. *)
Definition forget_on_error {X} (c : P X) : P X :=
  try_except c (λ e, if is_exception e then set_conn None None ;! raise e else raise e).

(** The connection is gone: the cursor goes too, and both are made again. *)
Definition reopen : P unit :=
  let! s := get_obj in
  match sq_cursor s with
  | Some cur => lift (dr_close_cursor dr cur) ;! set_conn (sq_connection s) None
  | None => ret tt
  end ;!
  let! c := lift (dr_connect dr) in
  let! s := get_obj in
  set_conn (Some c) (sq_cursor s) ;!
  let! cur := lift (dr_cursor dr c) in
  set_conn (Some c) (Some cur).

Definition _ensure_connection : P unit :=
  forget_on_error
    (let! s := get_obj in
     match sq_connection s with
     | None => reopen
     | Some c =>
         let! closed := lift (dr_closed dr c) in
         if closed : bool then reopen
         else
           match sq_cursor s with
           | None => let! cur := lift (dr_cursor dr c) in set_conn (Some c) (Some cur)
           | Some _ => ret tt
           end
     end).

(** [query or self.query]: the empty string counts as none. *)
Definition some_query (q : option string) : option string :=
  match q with Some s => if decide (s = EmptyString) then None else Some s | None => None end.

Definition execute (params : list py) (q : option string) : P unit :=
  _ensure_connection ;!
  forget_on_error
    (let! s := get_obj in
     match match some_query q with Some q => Some q | None => some_query (sq_query s) end with
     | None => raise ValueError
     | Some q =>
         match sq_cursor s, sq_connection s with
         | Some cur, Some c => lift (dr_execute dr cur q params) ;! lift (dr_commit dr c)
         | _, _ => raise AttributeError
         end
     end).

Definition close : P unit :=
  let! s := get_obj in
  match sq_cursor s with Some cur => lift (dr_close_cursor dr cur) | None => ret tt end ;!
  match sq_connection s with
  | Some c => let! closed := lift (dr_closed dr c) in if closed : bool then ret tt else lift (dr_close dr c)
  | None => ret tt
  end.

(** A connection and a cursor, or neither. *)
Definition paired (s : sql) : Prop := is_Some (sq_connection s) ↔ is_Some (sq_cursor s).
Definition both (s : sql) : Prop := is_Some (sq_connection s) ∧ is_Some (sq_cursor s).
Definition neither (s : sql) : Prop := sq_connection s = None ∧ sq_cursor s = None.
End sql.

(** ** AsyncPoolWorker *)

Section pool.
Context (max_concurrent : nat).

(** A task: its name and its item. *)
Local Abbreviation task := (nat * py)%type.

(** What a finished waiter brings: the items of the pull, or the result of a
    task ([None] when [process] raised). *)
Inductive completion :=
  | PullDone (items : list py)
  | TaskDone (id : nat) (r : py).

Record pool := Pool {
  po_in_flight : list task;
  po_pull : option nat;           (* the pending pull, and how many it asked for *)
  po_upstream_done : bool;
  po_next : nat;                  (* the next unused name *)
  po_pulled : list py;            (* items pulled so far *)
  po_finished : list (task * py); (* tasks done, with their results *)
  po_put : list py;               (* items put so far *)
}.
Definition new_pool : pool := Pool [] None false 0 [] [] [].

(** The items of a result: [None] is dropped, a list is put item by item. *)
Definition put_items (r : py) : list py :=
  match r with
  | PyNone => []
  | PyList l => filter (λ x, is_None x = false) l
  | r => [r]
  end.

Definition new_tasks (n : nat) (items : list py) : list task := zip (seq n (length items)) items.

(** [for task in done: ...]. *)
Definition complete_one (s : pool) (c : completion) : pool :=
  match c with
  | PullDone [] => Pool (po_in_flight s) None true (po_next s) (po_pulled s) (po_finished s) (po_put s)
  | PullDone items =>
      Pool (po_in_flight s ++ new_tasks (po_next s) items) None (po_upstream_done s)
        (po_next s + length items) (po_pulled s ++ items) (po_finished s) (po_put s)
  | TaskDone id r =>
      match list_find (λ t, t.1 = id) (po_in_flight s) with
      | None => s
      | Some (i, t) =>
          Pool (delete i (po_in_flight s)) (po_pull s) (po_upstream_done s) (po_next s) (po_pulled s)
            (po_finished s ++ [(t, r)]) (po_put s ++ put_items r)
      end
  end.

(** The top of the loop: a pull is started when there is room. *)
Definition start_pull (s : pool) : pool :=
  let need := (max_concurrent - length (po_in_flight s))%nat in
  match po_pull s with
  | None => if negb (po_upstream_done s) && (0 <? need)%nat
            then Pool (po_in_flight s) (Some need) (po_upstream_done s) (po_next s) (po_pulled s) (po_finished s) (po_put s)
            else s
  | Some _ => s
  end.
Definition no_waiters (s : pool) : bool :=
  bool_decide (po_in_flight s = []) && bool_decide (po_pull s = None).

(** What [asyncio.wait] may return: some of the waiters, each once; a pull
    brings at most what it asked for. *)
Definition wait_returns (s : pool) (done : list completion) : Prop :=
  NoDup ((λ c, match c with PullDone _ => None | TaskDone id _ => Some id end) <$> done) ∧
  done ≠ [] ∧
  ∀ c, c ∈ done →
    match c with
    | PullDone items => ∃ need, po_pull s = Some need ∧ (length items ≤ need)%nat
    | TaskDone id _ => ∃ x, (id, x) ∈ po_in_flight s
    end.

(** A turn of the loop. *)
Definition pool_turn (s : pool) (done : list completion) : option pool :=
  let s := start_pull s in
  if no_waiters s then None else Some (foldl complete_one s done).

(** The states [_run_async] goes through. *)
Inductive pool_reaches : pool → Prop :=
  | reach_start : pool_reaches new_pool
  | reach_turn s done s' :
      pool_reaches s → wait_returns (start_pull s) done → pool_turn s done = Some s' → pool_reaches s'.
End pool.

(** *** The connection *)

Section sql_spec.
Context {W : Type} (dr : driver (W:=W)).

Definition sql_post (q : option string) (r : res unit) (s : W * sql) : Prop :=
  match r with
  | Ok _ => both s.2 ∧ sq_query s.2 = q
  | Raise e => is_exception e = true → neither s.2
  | Spin => True
  end.

Lemma wp_lift_sql {X} (c : prog W X) (Q : res X → W * sql → Prop) w s :
  (∀ r w', Q r (w', s)) → wp (lift c) Q (w, s).
Proof. intros HQ. unfold wp, lift. destruct (c w). apply HQ. Qed.

Lemma forget_spec q (c : prog (W * sql) unit) s :
  wp c (λ r s', sq_query s'.2 = q ∧ (r = Ok tt → both s'.2)) s →
  wp (forget_on_error c) (sql_post q) s.
Proof.
  intros Hc. apply wp_try. eapply wp_mono; [exact Hc|]. intros [[]|e|] [w' s'] [Hq Hb]; simpl in *; [by auto| |done].
  destruct (is_exception e) eqn:E; unfold wp; simpl; [by split|congruence].
Qed.

(** A handle was opened, or the step failed. *)
Definition opened (q : option string) (r : res unit) (s : W * sql) : Prop :=
  sq_query s.2 = q ∧ (r = Ok tt → both s.2).

Lemma reopen_spec w s : wp (reopen dr) (opened (sq_query s)) (w, s).
Proof.
  apply wp_bind, wp_get_obj.
  assert (∀ cur w, wp (let! c := lift (dr_connect dr) in let! s := get_obj in
     set_conn (Some c) (sq_cursor s) ;! let! cur := lift (dr_cursor dr c) in set_conn (Some c) (Some cur))
     (opened (sq_query s)) (w, Sql (sq_connection s) cur (sq_query s))) as Hopen.
  { intros cur0 w0. apply wp_bind, wp_lift_sql. intros [c|e|] w1; [|by split..].
    apply wp_bind, wp_get_obj, wp_bind. unfold wp at 1. simpl. apply wp_bind, wp_lift_sql.
    intros [cur|e|] w2; [|by split..]. unfold wp, opened, both. simpl. eauto. }
  apply wp_bind. destruct s as [conn [cur|] q]; simpl.
  - apply wp_bind, wp_lift_sql. intros [[]|e|] w1; [|by split..]. unfold wp at 1. simpl. apply Hopen.
  - apply wp_ret, Hopen.
Qed.

Lemma ensure_spec w s : wp (_ensure_connection dr) (sql_post (sq_query s)) (w, s).
Proof.
  apply forget_spec. change (wp (let! s := get_obj in match sq_connection s with
    | None => reopen dr | Some c => let! closed := lift (dr_closed dr c) in
         if closed : bool then reopen dr
         else match sq_cursor s with
              | None => let! cur := lift (dr_cursor dr c) in set_conn (Some c) (Some cur)
              | Some _ => ret tt end end) (opened (sq_query s)) (w, s)).
  apply wp_bind, wp_get_obj. destruct (sq_connection s) as [c|] eqn:Ec; [|apply reopen_spec].
  apply wp_bind, wp_lift_sql. intros [[]|e|] w1; [apply reopen_spec| |by split..].
  destruct (sq_cursor s) as [cur|] eqn:Eu; [apply wp_ret; split; [done|]; intros _; split; eauto|].
  apply wp_bind, wp_lift_sql. intros [cur|e|] w2; [|by split..]. unfold wp, opened, both. simpl. eauto.
Qed.

Lemma execute_spec w s params q : wp (execute dr params q) (sql_post (sq_query s)) (w, s).
Proof.
  apply wp_bind. eapply wp_mono; [apply ensure_spec|]. intros [[]|e|] [w1 s1] Hp; simpl in *; [|done..].
  destruct Hp as [[[c Hc] [cur Hu]] Hq]. apply forget_spec. apply wp_bind, wp_get_obj. rewrite Hc, Hu.
  destruct (match some_query q with Some _ => _ | None => _ end) as [text|]; [|by split].
  apply wp_bind, wp_lift_sql. intros [[]|e|] w2; [|by split..].
  apply wp_lift_sql. intros r w3. split; [done|]. intros _. split; eauto.
Qed.
End sql_spec.

(** [SQLConnection.execute] never leaves half a connection behind. From any
    state and with any driver, when it returns there are a connection and a
    cursor; when it raises an [Exception] there is neither, so that the next
    call connects afresh. *)
Theorem sql_execute_all_or_nothing {W} (dr : driver (W:=W)) (params : list py) (q : option string)
    (w : W) (s : sql) :
  let '(r, (w', s')) := execute dr params q (w, s) in
  match r with
  | Ok _ => both s' ∧ sq_query s' = sq_query s
  | Raise e => is_exception e = true → neither s'
  | Spin => True
  end.
Proof.
  pose proof (execute_spec dr w s params q) as He. unfold wp, sql_post in He.
  by destruct (execute dr params q (w, s)) as [r [w' s']].
Qed.

(** *** The pool *)

Section pool_spec.
Context (max_concurrent : nat).

(** What every turn preserves. *)
Record pool_ok (s : pool) : Prop := {
  pk_room : (length (po_in_flight s) + default 0 (po_pull s) ≤ max_concurrent)%nat;
  pk_next : po_next s = length (po_pulled s);
  pk_tasks : Permutation (po_in_flight s ++ (fst <$> po_finished s)) (new_tasks 0 (po_pulled s));
  pk_put : po_put s = concat (put_items ∘ snd <$> po_finished s);
}.

Lemma new_tasks_app xs ys : new_tasks 0 (xs ++ ys) = new_tasks 0 xs ++ new_tasks (length xs) ys.
Proof.
  unfold new_tasks. rewrite length_app, seq_app. apply zip_with_app. by rewrite length_seq.
Qed.

Lemma start_pull_ok s : pool_ok s → pool_ok (start_pull max_concurrent s).
Proof.
  intros Hs. unfold start_pull. destruct (po_pull s) as [n|]; [exact Hs|].
  destruct (negb _ && _); [|exact Hs]. destruct Hs as [H1 H2 H3 H4]. constructor; simpl; [lia|done..].
Qed.

(** A completion that may still come. *)
Definition may_come (s : pool) (c : completion) : Prop :=
  match c with
  | PullDone items => ∃ need, po_pull s = Some need ∧ (length items ≤ need)%nat
  | TaskDone _ _ => True
  end.
Definition is_pull (c : completion) : bool := match c with PullDone _ => true | TaskDone _ _ => false end.

Lemma complete_one_ok s c : pool_ok s → may_come s c →
  pool_ok (complete_one s c) ∧ (is_pull c = false → po_pull (complete_one s c) = po_pull s).
Proof.
  intros [H1 H2 H3 H4] Hc. destruct c as [items|id r]; simpl in *.
  - destruct Hc as (need & Hn & Hl). rewrite Hn in H1. simpl in H1. split; [|done].
    destruct items as [|x items]; split; simpl in *; try done; try lia.
    + rewrite length_app. unfold new_tasks. rewrite length_zip_with, length_seq. simpl. lia.
    + rewrite length_app. simpl. lia.
    + rewrite new_tasks_app, <-H3, H2, <-!app_assoc. apply Permutation_app_head, Permutation_app_comm.
  - destruct (list_find _ _) as [[i t]|] eqn:E; [|by split]. split; [|done].
    apply list_find_Some in E as (Hi & _ & _).
    pose proof (delete_Permutation _ _ _ Hi) as Hd.
    set (rest := delete i (po_in_flight s)) in *. clearbody rest. split; simpl; try done.
    + apply Permutation_length in Hd. simpl in Hd. lia.
    + rewrite fmap_app, <-H3, Hd. simpl. rewrite app_assoc. symmetry. apply Permutation_cons_append.
    + rewrite fmap_app, concat_app, H4. simpl. by rewrite app_nil_r.
Qed.

Lemma complete_all_ok done s :
  pool_ok s → Forall (may_come s) done →
  NoDup ((λ c, match c with PullDone _ => None | TaskDone id _ => Some id end) <$> done) →
  pool_ok (foldl complete_one s done).
Proof.
  revert s. induction done as [|c done IH]; intros s Hs Hall Hnd; simpl; [exact Hs|].
  inversion Hall as [|? ? Hc Hrest]; subst. inversion Hnd as [|? ? Hni Hnd']; subst.
  destruct (complete_one_ok s c Hs Hc) as [Hs' Hp]. apply IH; [exact Hs'| |exact Hnd'].
  apply Forall_forall. intros c' Hin. rewrite Forall_forall in Hrest. specialize (Hrest c' Hin).
  destruct c' as [items|id r]; [|done]. destruct c as [items0|id0 r0].
  - destruct Hni. rewrite list_elem_of_fmap. by exists (PullDone items).
  - unfold may_come in *. by rewrite Hp.
Qed.

Lemma pool_reaches_ok s : pool_reaches max_concurrent s → pool_ok s.
Proof.
  induction 1 as [|s done s' _ IH (Hnd & _ & Hw) Ht].
  - split; simpl; [lia|done..].
  - unfold pool_turn in Ht. destruct (no_waiters _); [done|]. injection Ht as <-.
    apply complete_all_ok; [by apply start_pull_ok| |done].
    apply Forall_forall. intros c Hc. specialize (Hw c Hc). by destruct c.
Qed.
End pool_spec.


(** ** The pinned line *)

(** The terminal of a process: whether it is one, the pinned line, and what
    was written. *)
Record console := Console { co_tty : bool; co_pinned : option string; co_out : list string }.
Definition newline : string := String (ascii_of_nat 10) EmptyString.
Definition erase_line : string := String (ascii_of_nat 13) (String (ascii_of_nat 27) "[K").
Definition write (out : string) (c : console) : console := Console (co_tty c) (co_pinned c) (co_out c ++ [out]).

Definition print_above (msg : string) (c : console) : console :=
  if co_tty c then write (erase_line +:+ msg +:+ newline +:+ default EmptyString (co_pinned c))%string c
  else write (msg +:+ newline)%string c.
Definition _pin_stats_line (line : string) (c : console) : console :=
  write (erase_line +:+ line)%string (Console (co_tty c) (Some line) (co_out c)).
Definition _unpin_stats_line (c : console) : console :=
  let c := match co_pinned c with Some _ => write newline c | None => c end in
  Console (co_tty c) None (co_out c).
Definition _log (verbose : option string) (msg : string) (c : console) : console :=
  if bool_decide (verbose = Some "1"%string) then print_above msg c else c.

(** ** Examples *)

Module UtilsDemo.
Definition nums (l : list Z) : list py := PyNum <$> l.
(** Fails on a block with a zero in it. *)
Definition collate (l : list py) : res py :=
  if existsb (λ x, match x with PyNum 0 => true | _ => false end) l then Raise ValueError else Ok (PyList (rev l)).

(** A table of five rows. *)
Definition base : string := "SELECT * FROM t order by id".
Definition rows : list py := nums [1; 2; 3; 4; 5]%Z.
Definition page (o : Z) : string := page_query (Retriever o 2 base base false 5).
Definition query (q : string) : prog unit (list py) := λ w,
  (Ok (if decide (q = count_query base) then [PyDict [("count"%string, PyNum 5)]]
       else match filter (λ o, page o = q) [0; 1; 2; 3; 4; 5]%Z with
            | o :: _ => slice rows o (o + 2)
            | [] => []
            end), w).

Lemma table : fixed_table query base 2 rows.
Proof.
  constructor; [vm_compute; reflexivity|intros []; vm_compute; reflexivity|].
  intros o [] Ho. simpl in Ho.
  assert (o = 0 ∨ o = 1 ∨ o = 2 ∨ o = 3 ∨ o = 4 ∨ o = 5)%Z as Hcases by lia.
  destruct_or! Hcases; subst; vm_compute; reflexivity.
Defined.

(** The first pull of a pool of two brings both its items; one of them has
    been processed. *)
Definition pool1 : pool := Pool [(1%nat, PyNum 5)] None false 2 (nums [4; 5]%Z) [((0%nat, PyNum 4), PyList (nums [8; 9]%Z))] (nums [8; 9]%Z).
Lemma pool1_reached : pool_reaches 2 pool1.
Proof.
  refine (reach_turn 2 (Pool [(0%nat, PyNum 4); (1%nat, PyNum 5)] None false 2 (nums [4; 5]%Z) [] [])
            [TaskDone 0 (PyList (nums [8; 9]%Z))] pool1 _ _ eq_refl).
  - refine (reach_turn 2 new_pool [PullDone (nums [4; 5]%Z)] _ (reach_start 2) _ eq_refl).
    split; [apply NoDup_singleton|]. split; [done|]. intros c ->%list_elem_of_singleton. exists 2%nat. by split; [|simpl; lia].
  - split; [apply NoDup_singleton|]. split; [done|]. intros c ->%list_elem_of_singleton. exists (PyNum 4). by left.
Defined.
End UtilsDemo.

Lemma batcher_cuts_witness :
  ∃ blocks rest, UtilsDemo.nums [1; 0; 2; 3; 4]%Z = concat blocks ++ rest ∧
    Forall (λ b, Z.of_nat (length b) = 2%Z) blocks ∧ (Z.of_nat (length rest) < 2)%Z ∧
    batcher_feed 2 (Some UtilsDemo.collate) (UtilsDemo.nums [1; 0; 2; 3; 4]%Z) [] =
      (concat (block_results (Some UtilsDemo.collate) <$> blocks) ++ replicate (length rest) (Ok PyNone), rest) ∧
    (batcher_flush (Some UtilsDemo.collate) rest).2 = [] ∧
    (Some UtilsDemo.collate = None → (batcher_flush (Some UtilsDemo.collate) rest).1 = Ok (Generator rest None)).
Proof.
  pose proof (batcher_cuts 2 (Some UtilsDemo.collate) (UtilsDemo.nums [1; 0; 2; 3; 4]%Z)) as H.
  apply H. lia.
Defined.

Lemma shuffler_permutes_witness :
  let '(rs, s) := shuffler_feed (@rev py) (UtilsDemo.nums [1; 2; 3; 4; 5; 6]%Z) (new_shuffler 2 1) in
  let '(r, s') := shuffler_flush (@rev py) s in
  ∃ rest, r = Ok (Generator rest None) ∧ sh_buffer s' = [] ∧
    Permutation (concat (returned <$> rs) ++ rest) (UtilsDemo.nums [1; 2; 3; 4; 5; 6]%Z).
Proof.
  pose proof (shuffler_permutes (@rev py) 2 1 (UtilsDemo.nums [1; 2; 3; 4; 5; 6]%Z)) as H.
  apply H. intros l. symmetry. apply Permutation_rev.
Defined.

Lemma retrieve_drops_last_page_witness :
  ∃ given lost s w', new_retriever UtilsDemo.query UtilsDemo.base 2 false tt = (Ok s, tt) ∧
    pages UtilsDemo.query 6 (tt, s) = (Ok given, w') ∧
    UtilsDemo.rows = given ++ lost ∧ (1 ≤ Z.of_nat (length lost) ≤ 2)%Z.
Proof.
  pose proof (retrieve_drops_last_page UtilsDemo.query UtilsDemo.base 2 UtilsDemo.rows 6 tt UtilsDemo.table) as H.
  apply H; [lia|discriminate|simpl; lia].
Defined.

