(* ===== verification/Monitors.v ===== *)
(** * Monitors (monitors.py)

    The health monitor kills workers stuck in one call and restarts crashed
    ones, one by one or with the whole pipeline. It acts on the pipeline and
    the outside as [Shutdown] models them; the clocks, the exit codes and the
    busy marks of the workers are a parameter. *)
From S2P Require Import Prelude Types Text Placement Jobs Lifecycle WorkerIds Shutdown.

(** What the monitor reads. *)
Record vitals := Vitals {
  m_monotonic : nat → Z;
  m_time : nat → Z;               (* seconds *)
  m_busy : nat → nat → Z;         (* busy_since.value; 0: not in a call *)
  m_alive : nat → nat → bool;
  m_exitcode : nat → nat → option Z;
  m_stop : nat → bool;            (* should_stop or the stop event *)
  m_outside : nat → outside;
}.

Definition CRASH_WINDOW : Z := 300.
Definition MAX_CRASHES_IN_WINDOW : nat := 3.

(** The crashes of each worker: time and exit code. *)
Definition history : Type := list (string * list (Z * Z)).

Record rounds := Rounds { h_tick : nat; h_host : host }.

Section monitors.
Context (cfg : settings) (env : surroundings) (allow_full_restart : bool) (mv : vitals).
Local Abbreviation P X := (prog rounds X).

Definition read {X} (f : nat → X) : P X := λ w, (Ok (f (h_tick w)), Rounds (S (h_tick w)) (h_host w)).
Definition on_host {X} (c : prog host X) : P X := zoom h_host (λ h w, Rounds (h_tick w) h) c.
Definition at_hand : P pipe := λ w, (Ok (h_host w).1, w).

(** *** Hung workers *)

(** [held]: frozen or parked workers are stalled for good reason. *)
Definition held_ids (p : pipe) : list string :=
  omap (λ s, if s_frozen s || s_parked s then Some (s_worker_id s) else None) (p_scavenge_slots p).

(** One worker of [worker_info]. *)
Definition check_hung (now : Z) (held : list string) (e : nat * string * string) : P unit :=
  let '(proc, worker_id, _) := e in
  let! p := at_hand in
  match dict_lookup worker_id (p_hang_watch p) with
  | None => ret tt
  | Some (busy_since, timeout) =>
      if bool_decide (worker_id ∈ held) then ret tt
      else
        let! alive := read (λ t, m_alive mv t proc) in
        if negb alive then ret tt
        else
          let! started := read (λ t, m_busy mv t busy_since) in
          if negb (started =? 0)%Z && (timeout <? now - started)%Z then
            on_host (update (store_value busy_since 0)) ;!
            on_host (act (Killed proc)) ;!
            let! o := read (m_outside mv) in
            on_host (join_process o proc)
          else ret tt
  end.

Definition _kill_hung_workers : P unit :=
  let! p := at_hand in
  let held := held_ids p in
  let! now := read (m_monotonic mv) in
  for_each (p_worker_info p) (check_hung now held).

(** *** Crashed workers *)

(** The crashed workers: place, id and exit code. *)
Fixpoint scan (i : nat) (info : list (nat * string * string)) : P (list (nat * string * Z)) :=
  match info with
  | [] => ret []
  | (proc, worker_id, _) :: info =>
      let! alive := read (λ t, m_alive mv t proc) in
      let! code := (if alive : bool then ret None else read (λ t, m_exitcode mv t proc)) in
      let! rest := scan (S i) info in
      ret (match code with
           | Some c => if (c =? 0)%Z then rest else (i, worker_id, c) :: rest
           | None => rest
           end)
  end.

(** Record a crash, forgetting those out of the window. *)
Definition note_crash (now : Z) (worker_id : string) (exitcode : Z) (h : history) : history :=
  dict_set worker_id
    (filter (λ te, now - te.1 < CRASH_WINDOW)%Z (default [] (dict_lookup worker_id h) ++ [(now, exitcode)])) h.

Definition is_serious (exitcode : Z) : bool := (exitcode =? -11)%Z || (exitcode =? -7)%Z.

(** The loop over the crashed workers: whether a full restart is needed. It
    stops at the first that needs one. *)
Fixpoint judge (now : Z) (crashed : list (nat * string * Z)) (h : history) : bool * history :=
  match crashed with
  | [] => (false, h)
  | (_, worker_id, exitcode) :: crashed =>
      let h := note_crash now worker_id exitcode h in
      if is_serious exitcode then (true, h)
      else if (MAX_CRASHES_IN_WINDOW <=? length (default [] (dict_lookup worker_id h)))%nat then (true, h)
      else judge now crashed h
  end.

(** [try: self._restart_worker(...) except Exception]. *)
Definition restart_one (c : nat * string * Z) : P unit :=
  let '(idx, worker_id, _) := c in
  let! o := read (m_outside mv) in
  on_host (reported (_restart_worker o idx worker_id)).

(** What is done about the crashed workers; the history is cleared by a full
    restart that succeeds. *)
Definition handle_crashed (crashed : list (nat * string * Z)) (h : history) : P history :=
  match crashed with
  | [] => ret h
  | _ =>
      let! now := read (m_time mv) in
      let '(need_full_restart, h) := judge now crashed h in
      let! p := at_hand in
      if need_full_restart && allow_full_restart && negb (p_drain_event p) then
        let! o := read (m_outside mv) in
        try_except (on_host (restart cfg env o) ;! ret [])
          (λ e, if is_exception e then ret h else raise e)
      else for_each crashed restart_one ;! ret h
  end.

(** A turn of the loop of [_health_monitor_thread], its wait left out. *)
Definition health_turn (h : history) : P (history + unit) :=
  let! stop := read (m_stop mv) in
  if stop : bool then ret (inr tt)
  else
    let! stop := read (m_stop mv) in
    if stop : bool then ret (inr tt)
    else
      _kill_hung_workers ;!
      let! p := at_hand in
      let! crashed := scan 0 (p_worker_info p) in
      let! h := handle_crashed crashed h in
      ret (inl h).
Definition _health_monitor_thread (turns : nat) : P unit := loop turns health_turn [].
End monitors.

(** *** Statistics *)

(** A row of [_collect_stats]. Its ratios of audio time to wall time are
    in [Display]. *)
Record stage_stats := StageStats {
  ss_stage_idx : Z;
  ss_done : bool;
  ss_qsize : Z;
  ss_qmax : Z;
  ss_items : Z;
  ss_active : Z;
  ss_total_workers : Z;
}.

Definition _UNBOUNDED_QMAX : Z := 1000000.

(** [qsize] and [qmax]: what the queue answers, if it does, in items. A queue
    without [_maxsize] answers [None]. *)
Definition queue_fill (answer : res (Z * option Z)) (chunk_eff : Z) : Z * Z :=
  let '(qsize, qmax) :=
    match answer with
    | Ok (qsize, qmax) =>
        let qmax := default 0%Z qmax in
        (qsize, if (_UNBOUNDED_QMAX <? qmax)%Z then 0%Z else qmax)
    | _ => (0, 0)%Z
    end in
  if (1 <? chunk_eff)%Z then (qsize * chunk_eff, qmax * chunk_eff)%Z else (qsize, qmax).

Definition zsum : list Z → Z := foldr Z.add 0%Z.

(** The items of the workers whose id names stage [i]. *)
Definition stage_items (timing : list (string * Z)) (i : Z) : Z :=
  zsum ((filter (λ e, stage_of_id e.1 = i) timing).*2).

Definition collect_stage (p : pipe) (sizes : nat → res (Z * option Z)) (timing : list (string * Z))
    (i : nat) (j : job) : res stage_stats :=
  match p_done_events p !! i, p_queues p !! i, p_worker_counts p !! i, p_end_counters p !! i with
  | Some event, Some q, Some count, Some counter =>
      let '(qsize, qmax) := queue_fill (sizes q) (default 0%Z (j_chunk_eff j)) in
      Ok (StageStats (Z.of_nat i) (event_set p event) qsize qmax (stage_items timing (Z.of_nat i))
            (value_of p count - value_of p counter) (value_of p count))
  | _, _, _, _ => Raise IndexError
  end.
Fixpoint collect_from (p : pipe) (sizes : nat → res (Z * option Z)) (timing : list (string * Z))
    (i : nat) (js : list job) : res (list stage_stats) :=
  match js with
  | [] => Ok []
  | j :: js =>
      match collect_stage p sizes timing i j with
      | Ok s =>
          match collect_from p sizes timing (S i) js with
          | Ok l => Ok (s :: l)
          | Raise e => Raise e
          | Spin => Spin
          end
      | Raise e => Raise e
      | Spin => Spin
      end
  end.
Definition _collect_stats (p : pipe) (sizes : nat → res (Z * option Z)) (timing : list (string * Z)) :
    res (list stage_stats) :=
  collect_from p sizes timing 0 (p_jobs p).

(** *** The queue bar *)

(** [_queue_bar]: the filled cells, and the colour, of the exact ratio. *)
Inductive colour := Red | Yellow | Green.
Definition bar_filled (qsize qmax width : Z) : Z := (qsize * width / qmax)%Z.
Definition bar_colour (qsize qmax : Z) : colour :=
  if (8 * qmax <=? 10 * qsize)%Z then Red else if (5 * qmax <=? 10 * qsize)%Z then Yellow else Green.
Definition repeat_char (c : ascii) (n : Z) : string := text (replicate (Z.to_nat n) c).
Definition colour_name (c : colour) : string :=
  match c with Red => "red" | Yellow => "yellow" | Green => "green" end.
Definition _queue_bar (qsize qmax width : Z) : string :=
  if (qmax =? 0)%Z then EmptyString
  else
    let filled := bar_filled qsize qmax width in
    let c := colour_name (bar_colour qsize qmax) in
    ("[" +:+ c +:+ "]\[" +:+ repeat_char "|" filled +:+ repeat_char " " (width - filled) +:+ "][/" +:+ c +:+ "] "
       +:+ str_of_Z qsize +:+ "/" +:+ str_of_Z qmax)%string.

(** ** What the statistics add up to *)

Lemma zsum_split {X} (f : X → Z) (P Q : X → Prop) `{!∀ x, Decision (P x)} `{!∀ x, Decision (Q x)} (l : list X) :
  (∀ x, x ∈ l → P x → Q x → False) →
  (zsum (f <$> filter P l) + zsum (f <$> filter Q l))%Z = zsum (f <$> filter (λ x, P x ∨ Q x) l).
Proof.
  induction l as [|x l IH]; intros Hd; [done|]. rewrite !filter_cons.
  assert (∀ y, y ∈ l → P y → Q y → False) as Hd' by (intros y Hy; apply Hd; by right).
  specialize (IH Hd'). pose proof (Hd x (list_elem_of_here _ _)).
  repeat case_decide; cbn; try tauto; lia.
Qed.

(** A run of stages from [i] has the items of the ids naming them. *)
Lemma collect_from_items p sizes timing i js l :
  collect_from p sizes timing i js = Ok l →
  length l = length js ∧
  zsum (ss_items <$> l) =
    zsum ((filter (λ e, Z.of_nat i ≤ stage_of_id e.1 < Z.of_nat (i + length js))%Z timing).*2).
Proof.
  revert i l. induction js as [|j js IH]; intros i l; cbn [collect_from].
  - intros [= <-]. split; [done|]. simpl. rewrite filter_none; [done|].
    apply Forall_forall. intros e _. lia.
  - destruct (collect_stage p sizes timing i j) as [s|e|] eqn:Es; [|done..].
    destruct (collect_from p sizes timing (S i) js) as [l'|e|] eqn:El; [|done..]. intros [= <-].
    destruct (IH _ _ El) as [Hlen Hsum]. split; [by simpl; f_equal|]. cbn. rewrite Hsum.
    assert (ss_items s = stage_items timing (Z.of_nat i)) as ->.
    { unfold collect_stage in Es. destruct (p_done_events p !! i), (p_queues p !! i), (p_worker_counts p !! i),
        (p_end_counters p !! i); try done. destruct (queue_fill _ _). by injection Es as <-. }
    unfold stage_items. rewrite (zsum_split snd) by (intros; lia). f_equal. f_equal.
    apply list_filter_iff. intros e. lia.
Qed.

(** The stages account for every item of the workers with ids of their own. *)
Lemma collect_stats_items p sizes timing l :
  _collect_stats p sizes timing = Ok l →
  (∀ e, e ∈ timing → 0 ≤ stage_of_id e.1 < Z.of_nat (length (p_jobs p)))%Z →
  zsum (ss_items <$> l) = zsum (timing.*2).
Proof.
  intros Hl Hids. apply collect_from_items in Hl as [_ ->]. f_equal. f_equal. apply filter_all. by apply Forall_forall.
Qed.

Lemma collect_from_rows p sizes timing i js :
  (i + length js ≤ length (p_done_events p))%nat → (i + length js ≤ length (p_queues p))%nat →
  (i + length js ≤ length (p_worker_counts p))%nat → (i + length js ≤ length (p_end_counters p))%nat →
  ∃ l, collect_from p sizes timing i js = Ok l.
Proof.
  revert i. induction js as [|j js IH]; intros i H1 H2 H3 H4; cbn in *; [by eexists|]. unfold collect_stage.
  destruct (lookup_lt_is_Some_2 (p_done_events p) i) as [? ->]; [lia|].
  destruct (lookup_lt_is_Some_2 (p_queues p) i) as [? ->]; [lia|].
  destruct (lookup_lt_is_Some_2 (p_worker_counts p) i) as [? ->]; [lia|].
  destruct (lookup_lt_is_Some_2 (p_end_counters p) i) as [? ->]; [lia|].
  destruct (queue_fill _ _). destruct (IH (S i)) as [l ->]; [lia..|]. by eexists.
Qed.

(** ** When a full restart is called for *)

(** A worker's crashes within the window. *)
Definition recent (now : Z) (h : history) (worker_id : string) : nat :=
  length (filter (λ te, now - te.1 < CRASH_WINDOW)%Z (default [] (dict_lookup worker_id h))).

(** The crash [c] calls for a full restart: a serious signal, or the third
    crash of the worker within the window. *)
Definition calls_for_restart (now : Z) (h : history) (c : nat * string * Z) : bool :=
  is_serious c.2 || (MAX_CRASHES_IN_WINDOW <=? S (recent now h c.1.2))%nat.

Lemma dict_lookup_set {V} (d : list (string * V)) k v k' :
  dict_lookup k' (dict_set k v d) = if decide (k' = k) then Some v else dict_lookup k' d.
Proof.
  induction d as [|[j u] d IH]; simpl.
  - by repeat case_decide.
  - destruct (decide (k = j)) as [<-|Hkj]; simpl; [by repeat case_decide|].
    destruct (decide (k' = j)) as [->|]; [by rewrite decide_False|exact IH].
Qed.

Lemma note_crash_count now id c h :
  length (default [] (dict_lookup id (note_crash now id c h))) = S (recent now h id).
Proof.
  unfold note_crash, recent. rewrite dict_lookup_set, decide_True by done. simpl.
  rewrite filter_app, length_app, filter_cons. simpl.
  rewrite decide_True by (unfold CRASH_WINDOW; lia). simpl. lia.
Qed.

Lemma note_crash_other now id c h id' : id' ≠ id → recent now (note_crash now id c h) id' = recent now h id'.
Proof. intros Hne. unfold recent, note_crash. by rewrite dict_lookup_set, decide_False. Qed.

Lemma judge_spec now crashed h :
  NoDup ((λ c : nat * string * Z, c.1.2) <$> crashed) →
  (judge now crashed h).1 = existsb (calls_for_restart now h) crashed.
Proof.
  revert h. induction crashed as [|[[i id] c] crashed IH]; intros h Hnd; [done|].
  inversion Hnd as [|? ? Hni Hnd']; subst. cbn [judge existsb]. unfold calls_for_restart at 1. cbn [fst snd].
  rewrite note_crash_count. destruct (is_serious c); [done|]. cbn [orb].
  destruct (MAX_CRASHES_IN_WINDOW <=? S (recent now h id))%nat; [done|]. rewrite IH by done. cbn [orb].
  clear -Hni. induction crashed as [|[[i' id'] c'] crashed IH]; [done|]. simpl in *.
  apply not_elem_of_cons in Hni as [Hne Hni]. rewrite IH by done. f_equal.
  unfold calls_for_restart. simpl. by rewrite note_crash_other.
Qed.

(** ** Restarting one by one *)

(** The worker of the place [idx] was replaced: a new process runs the call
    the worker was started with. *)
Definition replaced (p p' : pipe) (idx : nat) (id : string) : Prop :=
  ∃ c pid, dict_lookup id (p_worker_configs p) = Some c ∧ (p_next p ≤ pid < p_next p')%nat ∧
    p_worker_info p' !! idx = Some (pid, id, wc_stage_name c) ∧
    p_heap p' !! pid = Some (OProcess (wc_target c) (wc_kwargs c)).

(** Joins fail, if they do, with what [except Exception] catches. *)
Definition joins_end (o : outside) : Prop :=
  ∀ pid, o_join o pid = Ok tt ∨ ∃ e, o_join o pid = Raise e ∧ is_exception e = true.

Section crashes.
Context (cfg : settings) (env : surroundings) (allow : bool) (mv : vitals).
Context (Hjoins : ∀ t, joins_end (m_outside mv t)).

(** What restarting workers keeps. *)
Record in_place (p p' : pipe) : Prop := {
  ip_frame : frame p p';
  ip_flags : flags p' = flags p;
  ip_configs : p_worker_configs p' = p_worker_configs p;
  ip_length : length (p_worker_info p') = length (p_worker_info p);
}.

#[local] Instance in_place_preorder : PreOrder in_place.
Proof.
  split; [by intros p|]. intros p1 p2 p3 [] []. constructor; [by etransitivity|congruence..].
Qed.

Lemma restart_one_spec idx id code w :
  is_Some (dict_lookup id (p_worker_configs (h_host w).1)) → is_Some (p_worker_info (h_host w).1 !! idx) →
  ∃ w', restart_one mv (idx, id, code) w = (Ok tt, w') ∧
    in_place (h_host w).1 (h_host w').1 ∧ replaced (h_host w).1 (h_host w').1 idx id ∧
    ∀ j, j ≠ idx → p_worker_info (h_host w').1 !! j = p_worker_info (h_host w).1 !! j.
Proof.
  intros [c Hc] [[[old id'] name] Hi]. destruct w as [t [p log]]. simpl in *.
  pose proof (restart_worker_same_call (m_outside mv t) idx id p log (Hjoins t)) as Hr.
  unfold restart_one, bind, read, on_host, zoom, reported, try_except. simpl.
  destruct (_restart_worker (m_outside mv t) idx id (p, log)) as [r [p' log']]. rewrite Hc, Hi in Hr.
  destruct Hr as (-> & pid & Hh & Hn & Hinfo & _ & Hconf & Hf & Hfl). simpl.
  eexists. split; [done|]. simpl. split_and!.
  - constructor; [done|done|done|]. by rewrite Hinfo, length_insert.
  - exists c, pid. destruct Hn. split_and!; [done|lia|lia| |done]. rewrite Hinfo.
    apply list_lookup_insert_eq. by eapply lookup_lt_Some.
  - intros j Hj. rewrite Hinfo. by apply list_lookup_insert_ne.
Qed.

Lemma replaced_later p1 p2 p3 idx id :
  in_place p2 p3 → p_worker_info p3 !! idx = p_worker_info p2 !! idx →
  replaced p1 p2 idx id → replaced p1 p3 idx id.
Proof.
  intros [Hf _ _ _] He (c & pid & Hc & [Hn Hlt] & Hi & Hh). exists c, pid. rewrite He.
  pose proof (fr_next _ _ Hf). split_and!; [done|done|lia|done|]. rewrite <-Hh. by apply (fr_heap _ _ Hf).
Qed.

Lemma replaced_from p1 p2 p3 idx id : in_place p1 p2 → replaced p2 p3 idx id → replaced p1 p3 idx id.
Proof.
  intros [Hf _ Hc _] (c & pid & Hl & [Hn Hlt] & Hi & Hh). exists c, pid. rewrite <-Hc.
  pose proof (fr_next _ _ Hf). split_and!; [done|lia|done..].
Qed.

(** The crashed workers are known and have their places. *)
Definition known (p : pipe) (crashed : list (nat * string * Z)) : Prop :=
  Forall (λ c, is_Some (dict_lookup c.1.2 (p_worker_configs p)) ∧ (c.1.1 < length (p_worker_info p))%nat) crashed.

Lemma restarts_spec crashed w :
  known (h_host w).1 crashed → NoDup ((λ c : nat * string * Z, c.1.1) <$> crashed) →
  ∃ w', for_each crashed (restart_one mv) w = (Ok tt, w') ∧
    in_place (h_host w).1 (h_host w').1 ∧
    Forall (λ c, replaced (h_host w).1 (h_host w').1 c.1.1 c.1.2) crashed ∧
    ∀ j, j ∉ (λ c : nat * string * Z, c.1.1) <$> crashed →
      p_worker_info (h_host w').1 !! j = p_worker_info (h_host w).1 !! j.
Proof.
  revert w. induction crashed as [|[[i id] code] crashed IH]; intros w Hk Hnd.
  - exists w. by split_and!.
  - inversion Hk as [|? ? [Hc Hl] Hk']; subst. inversion Hnd as [|? ? Hni Hnd']; subst. simpl in Hc, Hl, Hni.
    destruct (restart_one_spec i id code w Hc) as (w1 & E1 & Hip & Hr & Hsame); [by apply lookup_lt_is_Some|].
    destruct (IH w1) as (w2 & E2 & Hip2 & Hall & Hsame2).
    { eapply Forall_impl; [exact Hk'|]. intros c [H1 H2].
      by rewrite (ip_configs _ _ Hip), (ip_length _ _ Hip). }
    { exact Hnd'. }
    exists w2. cbn [for_each]. unfold bind. rewrite E1. split_and!; [done|by etransitivity| |].
    + constructor; simpl.
      * eapply replaced_later; [exact Hip2| |exact Hr]. by apply Hsame2.
      * eapply Forall_impl; [exact Hall|]. intros c. by apply replaced_from.
    + intros j Hj. apply not_elem_of_cons in Hj as [Hne Hj]. rewrite Hsame2, Hsame; done.
Qed.
End crashes.


(** ** Which workers are killed *)

(** [pid] runs a worker that was found alive and stuck in one call at [now]
    for longer than its timeout, whose busy mark is [busy]. *)
Definition stuck (mv : vitals) (p : pipe) (now : Z) (pid busy : nat) : Prop :=
  ∃ id name timeout t1 t2,
    (pid, id, name) ∈ p_worker_info p ∧ id ∉ held_ids p ∧
    dict_lookup id (p_hang_watch p) = Some (busy, timeout) ∧ m_alive mv t1 pid = true ∧
    m_busy mv t2 busy ≠ 0%Z ∧ (timeout < now - m_busy mv t2 busy)%Z.

(** What a scan from [p] may have done by [w]: the log got [log], the heap
    became [h]. *)
Definition culled (mv : vitals) (p : pipe) (now : Z) (log0 : list os_action) (w : rounds) : Prop :=
  ∃ h log, h_host w = (set_heap h p, log0 ++ log) ∧
    (∀ pid, Killed pid ∈ log → ∃ busy, stuck mv p now pid busy) ∧
    ∀ x, h !! x = p_heap p !! x ∨
         h !! x = Some (OValue 0) ∧ ∃ pid, Killed pid ∈ log ∧ stuck mv p now pid x.

Lemma check_hung_culled mv p now log0 e w :
  e ∈ p_worker_info p → culled mv p now log0 w →
  culled mv p now log0 (check_hung mv now (held_ids p) e w).2.
Proof.
  destruct e as [[pid id] name]. intros He (h & log & Hw & Hk & Hh).
  assert (culled mv p now log0 w) as Hsame by (exists h, log; done).
  destruct w as [t hst]. simpl in Hw. subst hst. unfold check_hung, bind, at_hand. cbn [h_host fst].
  replace (p_hang_watch (set_heap h p)) with (p_hang_watch p) by done.
  destruct (dict_lookup id (p_hang_watch p)) as [[busy timeout]|] eqn:Ew; [|done].
  case_bool_decide as Hheld; [done|]. cbn.
  destruct (m_alive mv t pid) eqn:Ea; cbn; [|by exists h, log].
  destruct (m_busy mv (S t) busy =? 0)%Z eqn:Eb; cbn; [by exists h, log|].
  destruct (timeout <? now - m_busy mv (S t) busy)%Z eqn:Et; cbn; [|by exists h, log].
  apply Z.eqb_neq in Eb. apply Z.ltb_lt in Et.
  assert (stuck mv p now pid busy) as Hs by (by exists id, name, timeout, t, (S t)).
  assert (∀ more, (∀ pid', Killed pid' ∉ more) → ∀ t', culled mv p now log0
    (Rounds t' (set_heap (<[busy := OValue 0]> h) p, (log0 ++ log ++ [Killed pid] ++ more)))) as Hdone.
  { intros more Hmore t'. exists (<[busy := OValue 0]> h), (log ++ [Killed pid] ++ more).
    split_and!; [done| |].
    - intros pid' Hin. rewrite !elem_of_app, list_elem_of_singleton in Hin.
      destruct Hin as [Hin|[[= ->]|Hin]]; [by apply Hk|by exists busy|by destruct (Hmore pid')].
    - intros x. destruct (decide (x = busy)) as [->|].
      + right. rewrite lookup_insert_eq. split; [done|]. exists pid. rewrite !elem_of_app, list_elem_of_singleton. auto.
      + rewrite lookup_insert_ne by done. destruct (Hh x) as [|(? & pid' & ? & ?)]; [by left|right].
        split; [done|]. exists pid'. rewrite elem_of_app. auto. }
  unfold join_process, bind, of_res. destruct (o_join _ pid) as [[]|e|]; cbn; rewrite <-!app_assoc.
  - apply (Hdone [Joined pid]). intros pid'. rewrite list_elem_of_singleton. done.
  - apply (Hdone []). intros pid'. apply not_elem_of_nil.
  - apply (Hdone []). intros pid'. apply not_elem_of_nil.
Qed.

Lemma for_each_culled mv p now log0 es w :
  es ⊆ p_worker_info p → culled mv p now log0 w →
  culled mv p now log0 (for_each es (check_hung mv now (held_ids p)) w).2.
Proof.
  revert w. induction es as [|e es IH]; intros w Hsub Hc; [done|]. cbn [for_each]. unfold bind.
  pose proof (check_hung_culled mv p now log0 e w) as H1.
  destruct (check_hung mv now (held_ids p) e w) as [[[]|x|] w1]; cbn in *; [apply IH; [set_solver|]|..];
    apply H1; set_solver.
Qed.


(** A segmentation fault of one worker and the exit of another: one by one
    while draining, though a full restart is allowed. *)
Module HealthDemo.
Definition mv : vitals := Vitals (λ _, 1000%Z) (λ _, 5000%Z) (λ _ _, 0%Z) (λ _ _, true) (λ _ _, None) (λ _, false)
  (λ _, StopDemo.out).
Definition crashed : list (nat * string * Z) :=
  [(2, "stage_2_worker_0_gpu_0"%string, (-11)%Z); (4, "stage_2_worker_2_gpu_0"%string, 1%Z)].
Definition now_running : rounds := Rounds 0 (StopDemo.running, []).
End HealthDemo.

