(* ===== verification/ShmStore.v ===== *)
(** * Shared memory: sizes, blocks and the sweep (shmqueue.py, shmstore.py)

    How large the rings and the payload store are made, what happens when the
    store is full, and which leftovers of dead pipelines are removed. Of the
    store itself, which is [BlockStore], this needs only what it answers. *)
From S2P Require Import Prelude Types Text.
From Stdlib Require Import HexadecimalString HexadecimalN.

(** ** Sizes *)

Definition MIB : Z := 2 ^ 20.
Definition KIB : Z := 2 ^ 10.

(** [_ring_bytes]; [ring_mb] is [PIPE_RING_MB] in bytes, if it is set. *)
Definition _ring_bytes (ring_mb : option Z) (maxsize : Z) : Z :=
  match ring_mb with
  | Some bytes => bytes
  | None =>
      if (maxsize <=? 0)%Z then 8 * MIB
      else Z.min (Z.max (maxsize * (64 * KIB)) MIB) (16 * MIB)
  end.

(** [edge_ring_bytes]; [free] is what [shm_free_bytes] answers. *)
Definition edge_ring_bytes (ring_mb free : option Z) (maxsize n_edges : Z) : Z :=
  let want := _ring_bytes ring_mb maxsize in
  match free, ring_mb with
  | None, _ | _, Some _ => want
  | Some free, None => Z.max (64 * KIB) (Z.min want (free / 4 / Z.max 1 n_edges))
  end.

(** [_default_limit]; [store_mb] is [PIPE_STORE_MB] in bytes, if it is set. *)
Definition _default_limit (store_mb free : option Z) : Z :=
  match store_mb, free with
  | Some bytes, _ => bytes
  | None, None => 2 * 2 ^ 30
  | None, Some free => Z.min (free / 2) (16 * 2 ^ 30)
  end.

(** What [PayloadStore(limit_bytes, seg_bytes)] asks the core for. *)
Definition store_limit (limit_bytes : option Z) (store_mb free : option Z) : Z :=
  match limit_bytes with
  | Some n => if (n =? 0)%Z then _default_limit store_mb free else n
  | None => _default_limit store_mb free
  end.
Definition seg_size (seg_bytes : option Z) (limit : Z) : Z :=
  let default := Z.min (64 * MIB) (Z.max MIB (limit / 8)) in
  match seg_bytes with
  | Some n => if (n =? 0)%Z then default else n
  | None => default
  end.
(** The regular segments whose names it registers, for what the core made of
    the two. *)
Definition registered_segments (core_limit core_seg_bytes : Z) : Z := (core_limit / core_seg_bytes)%Z.

Definition SMALL_SHM : Z := 2 ^ 30.
(** [warn_if_small_shm]: whether it warns, and [_small_shm_warned] after. *)
Definition warn_if_small_shm (free : option Z) (warned : bool) : bool * bool :=
  match free with
  | Some free => if (free <? SMALL_SHM)%Z && negb warned then (true, true) else (false, warned)
  | None => (false, warned)
  end.

(** ** A full store *)

Inductive warning :=
  | ShmFull (free_mib : Z)
  | StoreAtCap (used_mib limit_mib : Z).

(** What the core says of itself when it has no block to give. *)
Record core_state := CoreState { core_limit : Z; core_used : Z; core_seg_bytes : Z }.

(** Why [_alloc] got nothing. *)
Definition why_full (st : core_state) (free : option Z) (nbytes : Z) : warning :=
  let dedicated := (Z.min (64 * MIB) (core_seg_bytes st / 4) <? nbytes + 64)%Z in
  let need := if dedicated then nbytes else core_seg_bytes st in
  match free with
  | Some f => if (f <? need + MIB)%Z then ShmFull (f / MIB) else StoreAtCap (core_used st / MIB) (core_limit st / MIB)
  | None => StoreAtCap (core_used st / MIB) (core_limit st / MIB)
  end.

(** [_alloc]: the block, if any, the warning, and [_full_warned] after. *)
Definition _alloc {B} (got : option B) (st : core_state) (free : option Z) (nbytes : Z) (full_warned : bool) :
    option B * option warning * bool :=
  match got with
  | Some b => (Some b, None, full_warned)
  | None => (None, if full_warned then None else Some (why_full st free nbytes), true)
  end.

(** ** Leftovers of dead owners *)

(** [[0-9a-f]]. *)
Definition hex_digit (c : ascii) : bool :=
  let n := nat_of_ascii c in ((48 <=? n) && (n <=? 57) || (97 <=? n) && (n <=? 102))%nat.
Fixpoint take_hex (cs : list ascii) : list ascii :=
  match cs with
  | c :: cs => if hex_digit c then c :: take_hex cs else []
  | [] => []
  end.

(** [int(s, 16)] of hexadecimal digits. *)
Definition int16 (cs : list ascii) : Z :=
  match NilEmpty.uint_of_string (text cs) with
  | Some d => Z.of_N (N.of_hex_uint d)
  | None => 0
  end.

(** A group of digits and the character after it. *)
Definition hex_group (sep : ascii) (cs : list ascii) : option (Z * list ascii) :=
  match take_hex cs with
  | [] => None
  | ds =>
      match drop (length ds) cs with
      | c :: cs => if decide (c = sep) then Some (int16 ds, cs) else None
      | [] => None
      end
  end.

(** [_OWNED.match(name)]: the namespace and the process in its groups. *)
Definition _OWNED (name : string) : option (Z * Z) :=
  match chars name with
  | "g"%char :: "p"%char :: c :: cs =>
      if decide (c = "q"%char ∨ c = "s"%char) then
        match hex_group "."%char cs with
        | Some (ns, cs) =>
            match hex_group "_"%char cs with
            | Some (pid, _) => Some (ns, pid)
            | None => None
            end
        | None => None
        end
      else None
  | _ => None
  end.

(** What [os.kill(pid, 0)] does. *)
Inductive kill_answer := Delivered | NoSuchProcess | NotPermitted.
Definition _alive (kill : Z → kill_answer) (pid : Z) : bool :=
  match kill pid with NoSuchProcess => false | Delivered | NotPermitted => true end.

(** [name.endswith(s)]. *)
Definition endswith (s name : string) : bool := bool_decide (chars s `suffix_of` chars name).

Section sweep.
(** The namespace of this process, if [/dev/shm] and [/proc] are there; what a
    directory lists; the processes; and which removals succeed. *)
Context (namespace : option Z) (listdir : string → option (list string)).
Context (kill : Z → kill_answer) (remove : string → string → bool).

Definition skipped (ns : Z) (is_dir : bool) (name : string) : bool :=
  match _OWNED name with
  | None => true
  | Some (ns', pid) =>
      negb (ns' =? ns)%Z || (is_dir && negb (endswith ".spill" name)) || _alive kill pid
  end.

Definition sweep_dir (ns : Z) (base : string) (is_dir : bool) : list (string * string) :=
  match listdir base with
  | None => []
  | Some names => pair base <$> filter (λ name, negb (skipped ns is_dir name) && remove base name = true) names
  end.

(** [sweep_dead_owners]: what it removed; it returns the number of these. *)
Definition sweep_dead_owners (tempdir : string) : list (string * string) :=
  match namespace with
  | None => []
  | Some ns => sweep_dir ns "/dev/shm" false ++ sweep_dir ns tempdir true
  end.
End sweep.

(** ** Sizes that fit *)

Lemma ring_bytes_range maxsize : (MIB ≤ _ring_bytes None maxsize ≤ 16 * MIB)%Z.
Proof. unfold _ring_bytes, MIB, KIB. case_match; lia. Qed.

(** the rings fit the shared memory there is. Unless [PIPE_RING_MB] says
    otherwise a ring has between 64 KiB and 16 MiB, at least the 64 KiB per
    item of a short queue if memory allows, and all the rings of a pipeline
    together take at most a quarter of what is free, if a quarter allows
    64 KiB each. The payload store takes at most half of what is free, and
    its segments are at least 1 MiB, at most 64 MiB, and no more than an
    eighth of the store if that is 8 MiB or more. *)
Theorem shm_sizes_fit (free maxsize n_edges : Z) :
  (0 ≤ free)%Z → (1 ≤ n_edges)%Z →
  let ring := edge_ring_bytes None (Some free) maxsize n_edges in
  let limit := _default_limit None (Some free) in
  (64 * KIB ≤ ring ≤ 16 * MIB)%Z ∧
  (n_edges * (64 * KIB) ≤ free / 4 → n_edges * ring ≤ free / 4)%Z ∧
  (n_edges * (4 * 16 * MIB) ≤ free → ring = _ring_bytes None maxsize)%Z ∧
  (0 ≤ limit ≤ free / 2)%Z ∧
  (MIB ≤ seg_size None limit ≤ 64 * MIB)%Z ∧ (8 * MIB ≤ limit → seg_size None limit ≤ limit / 8)%Z.
Proof.
  intros Hfree Hn. cbn zeta. pose proof (ring_bytes_range maxsize) as Hr.
  unfold edge_ring_bytes, _default_limit, seg_size. rewrite (Z.max_r 1 n_edges) by lia.
  set (want := _ring_bytes None maxsize) in *. clearbody want.
  assert (n_edges * (free / 4 / n_edges) ≤ free / 4)%Z as Hq by (apply Z.mul_div_le; lia).
  assert (0 ≤ free / 4)%Z by (apply Z.div_pos; lia).
  unfold MIB, KIB in *. split_and!; try lia.
  - intros Hroom. destruct (Z.max_spec (64 * 2 ^ 10) (Z.min want (free / 4 / n_edges))) as [[_ ->]|[_ ->]]; [|lia].
    transitivity (n_edges * (free / 4 / n_edges))%Z; [|done]. apply Z.mul_le_mono_nonneg_l; lia.
  - intros Hroom. assert (16 * 2 ^ 20 ≤ free / 4 / n_edges)%Z; [|lia].
    apply Z.div_le_lower_bound; [lia|]. apply Z.div_le_lower_bound; lia.
  - apply Z.min_glb; [apply Z.div_pos|]; lia.
  - set (limit := Z.min _ _). clearbody limit. intros Hl.
    assert (2 ^ 20 ≤ limit / 8)%Z by (apply Z.div_le_lower_bound; lia). lia.
Qed.

Lemma shm_sizes_fit_witness :
  (edge_ring_bytes None (Some (64 * MIB)) 100 4 = 4 * MIB ∧ seg_size None (_default_limit None (Some (64 * MIB))) = 4 * MIB)%Z ∧
  let ring := edge_ring_bytes None (Some (64 * MIB)%Z) 100 4 in
  let limit := _default_limit None (Some (64 * MIB)%Z) in
  (64 * KIB ≤ ring ≤ 16 * MIB)%Z ∧
  (4 * (64 * KIB) ≤ 64 * MIB / 4 → 4 * ring ≤ 64 * MIB / 4)%Z ∧
  (4 * (4 * 16 * MIB) ≤ 64 * MIB → ring = _ring_bytes None 100)%Z ∧
  (0 ≤ limit ≤ 64 * MIB / 2)%Z ∧
  (MIB ≤ seg_size None limit ≤ 64 * MIB)%Z ∧ (8 * MIB ≤ limit → seg_size None limit ≤ limit / 8)%Z.
Proof.
  split; [vm_compute; split; reflexivity|].
  pose proof (shm_sizes_fit (64 * MIB) 100 4) as H. apply H; vm_compute; discriminate.
Defined.

(** ** What is swept *)

Lemma hex_digits d : Forall (λ c, hex_digit c = true) (chars (NilEmpty.string_of_uint d)).
Proof. induction d; simpl; constructor; auto. Qed.

Lemma take_hex_app ds c cs :
  Forall (λ c, hex_digit c = true) ds → hex_digit c = false → take_hex (ds ++ c :: cs) = ds.
Proof. induction 1 as [|d ds Hd Hds IH]; intros Hc; simpl; [by rewrite Hc|]. rewrite Hd. f_equal. by apply IH. Qed.

(** [format!("{:x}", n)]. *)
Definition hex_of (n : Z) : list ascii := chars (NilEmpty.string_of_uint (N.to_hex_uint (Z.to_N n))).

Lemma hex_of_nonempty n : hex_of n ≠ [].
Proof.
  unfold hex_of. destruct (Z.to_N n) as [|p]; [done|]. simpl.
  pose proof (HexadecimalPos.Unsigned.to_uint_nonnil p) as Hp. by destruct (Pos.to_hex_uint p).
Qed.

Lemma hex_group_of n sep cs :
  (0 ≤ n)%Z → hex_digit sep = false → hex_group sep (hex_of n ++ sep :: cs) = Some (n, cs).
Proof.
  intros Hn Hsep. unfold hex_group. rewrite take_hex_app by (done || apply hex_digits).
  destruct (hex_of n) eqn:E; [by destruct (hex_of_nonempty n)|]. rewrite <-E, drop_app_length.
  rewrite decide_True by done. do 2 f_equal. unfold int16, hex_of. rewrite text_chars, NilEmpty.usu, Unsigned.of_to. lia.
Qed.

(** The names the core gives to what process [pid] of namespace [ns] owns. *)
Definition owned_by (ns pid : Z) (name : string) : Prop :=
  ∃ kind cs, (kind = "q"%char ∨ kind = "s"%char) ∧
    chars name = "g"%char :: "p"%char :: kind :: hex_of ns ++ "."%char :: hex_of pid ++ "_"%char :: cs.

Lemma owned_by_parsed ns pid name :
  (0 ≤ ns)%Z → (0 ≤ pid)%Z → owned_by ns pid name → _OWNED name = Some (ns, pid).
Proof.
  intros Hns Hpid (kind & cs & Hk & E). unfold _OWNED. rewrite E, decide_True by done.
  rewrite hex_group_of by done. by rewrite hex_group_of.
Qed.


(** Two rings of this namespace, of a dead and a live process, one of a
    process that may not be signalled, and one of another namespace. *)
Module SweepDemo.
Definition ring (ns pid : string) : string := ("gpq" +:+ ns +:+ "." +:+ pid +:+ "_0_3f2a")%string.
Definition listing : list string :=
  [ring "f0000abc" "7b"; ring "f0000abc" "7c"; ring "f0000abc" "1"; ring "f0000abd" "7b"; "other"%string;
   (ring "f0000abc" "7b" +:+ ".spill")%string].
Definition listdir (d : string) : option (list string) := Some listing.
Definition kill (pid : Z) : kill_answer :=
  if (pid =? 124)%Z then Delivered else if (pid =? 1)%Z then NotPermitted else NoSuchProcess.
Definition swept : list (string * string) :=
  sweep_dead_owners (Some 4026534588%Z) listdir kill (λ _ _, true) "/tmp".
End SweepDemo.

