(* ===== verification/ShmQueue.v ===== *)
(** * The shared-memory queue (shmqueue.py, shmstore.py)

    A message goes through the ring as the bytes of its pickle, or, when
    these are more than [spill_at], as a handle on a block of the payload
    store that holds them, or, when the store has no room, through a file.
    Pickling and whether the store has room are parameters; of a block the
    model keeps what [alloc], [share], [adopt] and the drop of a [Block] do
    to its contents and its reference count. The allocator itself is in
    [BlockStore], the arrays that the pickler moves into blocks of their own
    are in [ShmArrays]. The ring is a list of messages here, full when there
    are [maxsize] of them; [Ring] has its bytes, and shows that it may also be
    full of bytes; [ObjectQueue] runs the messages of this file through it. *)
From S2P Require Import Prelude Types Queues.
From Stdlib Require Import Strings.Byte.

(** ** The payload store *)

Record store := Store {
  blocks : gmap nat (list byte * Z);   (* contents and references *)
  next_block : nat;
}.

Definition refer (b : nat) (d : Z) (s : store) : store :=
  match blocks s !! b with
  | Some (data, n) =>
      Store (if (n + d <=? 0)%Z then delete b (blocks s) else <[b := (data, n + d)%Z]> (blocks s)) (next_block s)
  | None => s
  end.
(** [blk.share()], and the end of a [Block]. *)
Definition share (b : nat) : store → store := refer b 1.
Definition release (b : nat) : store → store := refer b (-1).

Section shm_queue.
Context {X : Type}.
(** [_dumps], [pickle.loads]; the pickle of a handle, and what loading it
    gives. *)
Context (dumps : X → list byte) (loads : list byte → res X).
Context (dump_handle : nat → list byte) (load_handle : list byte → option nat).
(** The ring's fast path; whether there is a store, and room in it. *)
Context (spill_at maxsize : Z) (has_store : bool) (room : store → Z → bool).

(** [alloc_bytes]: the [Block] it returns holds a reference. *)
Definition alloc_bytes (data : list byte) (s : store) : option nat * store :=
  if room s (Z.of_nat (length data)) then
    (Some (next_block s), Store (<[next_block s := (data, 1%Z)]> (blocks s)) (S (next_block s)))
  else (None, s).

(** [_SPILLED], the first byte of a message parked in the store. *)
Definition _SPILLED : byte := x00.

(** [ShmQueue.encode]: the bytes and [disk]. The local [blk] goes when it
    returns. *)
Definition encode (obj : X) (s : store) : (list byte * bool) * store :=
  let data := dumps obj in
  if (spill_at <? Z.of_nat (length data))%Z && has_store then
    match alloc_bytes data s with
    | (Some b, s) => ((_SPILLED :: dump_handle b, false), release b (share b s))
    | (None, s) => ((data, true), s)
    end
  else ((data, false), s).

(** [load_spilled]: adopt the block, copy it out, let it go. *)
Definition load_spilled (b : nat) (s : store) : res X * store :=
  match blocks s !! b with
  | Some (data, _) => (loads data, release b s)
  | None => (Raise OSError, s)
  end.

(** [_load]. *)
Definition _load (msg : list byte) (s : store) : res X * store :=
  match msg with
  | x00 :: rest =>
      match load_handle rest with
      | Some b => load_spilled b s
      | None => (Raise ValueError, s)
      end
  | msg => (loads msg, s)
  end.

(** *** The queue *)

(** The store, the ring in order, and the clock; [s_put] and [s_got] record
    what was put and taken. *)
Record shm := Shm {
  s_store : store;
  s_ring : list (list byte * bool);
  s_put : list X;
  s_got : list X;
  s_clock : Z;
}.
Local Abbreviation P X := (prog shm X).

Definition qsize (w : shm) : Z := Z.of_nat (length (s_ring w)).
Definition empty (w : shm) : bool := (qsize w =? 0)%Z.
Definition full (w : shm) : bool := (0 <? maxsize)%Z && (maxsize <=? qsize w)%Z.

(** [put_encoded(encoded, timeout=t)], [obj] being what was encoded: a full
    ring raises [Full] after the timeout. *)
Definition put_encoded (obj : X) (encoded : list byte * bool) (t : option Z) : P unit := λ w,
  if full w then (match t with Some _ => Raise Full | None => Spin end, w)
  else (Ok tt, Shm (s_store w) (s_ring w ++ [encoded]) (s_put w ++ [obj]) (s_got w) (s_clock w)).

Definition on_store {Y} (c : store → Y * store) : P Y := λ w,
  let '(y, s) := c (s_store w) in (Ok y, Shm s (s_ring w) (s_put w) (s_got w) (s_clock w)).

Definition put (obj : X) (t : option Z) : P unit :=
  let! encoded := on_store (encode obj) in put_encoded obj encoded t.

(** What [get] does with a message it has taken off the ring. *)
Definition load_msg (msg : list byte) : P X := λ w,
  let '(r, s) := _load msg (s_store w) in
  (r, Shm s (s_ring w) (s_put w) (s_got w ++ got_list r) (s_clock w)).
Definition set_ring (ring : list (list byte * bool)) (w : shm) : shm :=
  Shm (s_store w) ring (s_put w) (s_got w) (s_clock w).

(** [get(timeout=t)]. *)
Definition get (t : option Z) : P X := λ w,
  match s_ring w with
  | [] => (match t with Some _ => Raise Empty | None => Spin end, w)
  | (msg, _) :: ring => load_msg msg (set_ring ring w)
  end.

(** [get_many(n, timeout=t)]: takes up to [n] messages, at least one, off the
    ring, then loads them. *)
Fixpoint load_all (msgs : list (list byte * bool)) : P (list X) :=
  match msgs with
  | [] => ret []
  | (msg, _) :: msgs => let! x := load_msg msg in let! xs := load_all msgs in ret (x :: xs)
  end.
Definition get_many (n : nat) (t : option Z) : P (list X) := λ w,
  match s_ring w with
  | [] => (match t with Some _ => Ok [] | None => Spin end, w)
  | ring => load_all (take (Nat.max 1 n) ring) (set_ring (drop (Nat.max 1 n) ring) w)
  end.

(** As the framework uses it. *)
Definition as_queue : queue shm X := {|
  q_put t obj := put obj t;
  q_put_nowait obj := put obj (Some 0%Z);
  q_get := get;
  q_get_nowait := get (Some 0%Z);
  q_encode := Some (λ obj, let! e := on_store (encode obj) in ret (λ t, put_encoded obj e (Some t)));
  q_sent := s_put;
  q_recv := s_got;
|}.

(** The runtime of a process that puts: while it sleeps another takes the
    first message. *)
Definition reader_takes (w : shm) : shm :=
  match s_ring w with
  | [] => w
  | (msg, _) :: ring => Shm (_load msg (s_store w)).2 ring (s_put w) (s_got w) (s_clock w)
  end.
#[local] Instance shm_runtime : Runtime shm := {|
  now := λ w, (Ok (s_clock w), w);
  sleep d := λ w, (Ok tt, let w := reader_takes w in Shm (s_store w) (s_ring w) (s_put w) (s_got w) (s_clock w + d));
|}.

(** ** It keeps what the framework expects of a queue *)

Lemma put_encoded_puts obj e t : puts as_queue obj (put_encoded obj e t).
Proof. intros w. unfold put_encoded. destruct (full w); [destruct t|]; simpl; by rewrite ?app_nil_r. Qed.

Lemma shm_put_puts obj t : puts as_queue obj (put obj t).
Proof.
  intros w. unfold put, bind, on_store. destruct (encode obj (s_store w)) as [e s].
  by destruct (put_encoded_puts obj e t (Shm s (s_ring w) (s_put w) (s_got w) (s_clock w))).
Qed.

Lemma shm_get_gets t : gets as_queue (get t).
Proof.
  intros w. unfold get, load_msg. destruct (s_ring w) as [|[msg d] ring].
  - destruct t; simpl; by rewrite app_nil_r.
  - simpl. by destruct (_load msg (s_store w)).
Qed.

#[local] Instance shm_lawful : LawfulQueue as_queue.
Proof.
  split; simpl; auto using shm_put_puts, shm_get_gets.
  - intros enc m w [= <-]. unfold bind, on_store, ret. destruct (encode m (s_store w)) as [e s]. split; [done|].
    intros put0 t [= <-]. apply put_encoded_puts.
  - done.
  - intros d w. unfold reader_takes. by destruct (s_ring w) as [|[]].
Qed.

(** ** What the ring and the store hold *)

Context (Hpickle : ∀ x, loads (dumps x) = Ok x) (Hproto : ∀ x rest, dumps x ≠ _SPILLED :: rest).
Context (Hhandle : ∀ b, load_handle (dump_handle b) = Some b).

Definition block_of (e : list byte * bool) : option nat :=
  match e.1 with x00 :: rest => load_handle rest | _ => None end.
Definition ids (ring : list (list byte * bool)) : list nat := omap block_of ring.

(** [e] is an encoding of [x]. *)
Definition holds (s : store) (e : list byte * bool) (x : X) : Prop :=
  e.1 = dumps x ∨ ∃ b, e.1 = _SPILLED :: dump_handle b ∧ blocks s !! b = Some (dumps x, 1%Z).

(** The encodings [es] hold [items], each block is held by one of them or is
    one of [lost]. *)
Definition holding (s : store) (es : list (list byte * bool)) (items : list X) (lost : gset nat) : Prop :=
  Forall2 (holds s) es items ∧ NoDup (ids es) ∧ list_to_set (ids es) ## lost ∧
  dom (blocks s) = list_to_set (ids es) ∪ lost ∧ ∀ b, b ∈ dom (blocks s) → (b < next_block s)%nat.

Lemma dumps_block x d : block_of (dumps x, d) = None.
Proof. unfold block_of. simpl. destruct (dumps x) as [|[] rest] eqn:E; try done. by destruct (Hproto x rest). Qed.

Lemma handle_block b d : block_of (_SPILLED :: dump_handle b, d) = Some b.
Proof. apply Hhandle. Qed.

Lemma share_release b data s :
  release b (share b (Store (<[b := (data, 1%Z)]> (blocks s)) (S b))) = Store (<[b := (data, 1%Z)]> (blocks s)) (S b).
Proof. unfold release, share, refer. simpl. rewrite !lookup_insert_eq. simpl. by rewrite lookup_insert_eq, !insert_insert_eq. Qed.

Lemma holding_app_ids es e : ids (es ++ [e]) = ids es ++ ids [e].
Proof. apply omap_app. Qed.

Lemma encode_holding x s es items lost :
  holding s es items lost →
  holding (encode x s).2 (es ++ [(encode x s).1]) (items ++ [x]) lost.
Proof using All.
  intros (Hh & Hnd & Hdisj & Hdom & Hnext).
  assert (∀ d, holding s (es ++ [(dumps x, d)]) (items ++ [x]) lost) as Hplain.
  { intros d. assert (ids (es ++ [(dumps x, d)]) = ids es) as E.
    { rewrite holding_app_ids. unfold ids at 2. simpl. by rewrite dumps_block, app_nil_r. }
    unfold holding. rewrite E. split_and!; try done. apply Forall2_app; [done|]. constructor; [by left|done]. }
  unfold encode. destruct (_ && _); [|apply Hplain]. unfold alloc_bytes. destruct (room _ _); simpl; [|apply Hplain].
  rewrite share_release. set (b := next_block s) in *.
  assert (b ∉ dom (blocks s)) as Hfresh by (intros Hb%Hnext; unfold b in *; lia).
  assert (ids (es ++ [(_SPILLED :: dump_handle b, false)]) = ids es ++ [b]) as E.
  { rewrite holding_app_ids. unfold ids at 2. simpl. by rewrite handle_block. }
  unfold holding. rewrite E. simpl. rewrite dom_insert_L. split_and!.
  - apply Forall2_app.
    + eapply Forall2_impl; [exact Hh|]. intros e y [He|(b' & He & Hb')]; [by left|right].
      exists b'. split; [done|]. simpl. rewrite lookup_insert_ne; [done|]. intros <-. apply Hfresh. by eapply elem_of_dom_2.
    + constructor; [|done]. right. exists b. split; [done|]. apply lookup_insert_eq.
  - apply NoDup_app. split_and!; [done| |apply NoDup_singleton]. intros b' Hb' ->%list_elem_of_singleton.
    apply Hfresh. rewrite Hdom. apply elem_of_union_l, elem_of_list_to_set, Hb'.
  - rewrite list_to_set_app_L. set_solver.
  - rewrite list_to_set_app_L. set_solver.
  - intros b' [->%elem_of_singleton|Hb'%Hnext]%elem_of_union; unfold b in *; lia.
Qed.

(** An encoding that is given up leaves its block behind. *)
Lemma holding_drop s es e items x lost :
  holding s (es ++ [e]) (items ++ [x]) lost → holding s es items (list_to_set (ids [e]) ∪ lost).
Proof.
  intros (Hh & Hnd & Hdisj & Hdom & Hnext). rewrite holding_app_ids, list_to_set_app_L in *.
  apply NoDup_app in Hnd as (Hnd & Hsep & _). apply Forall2_app_inv_l in Hh as (l1 & l2 & Hh1 & Hh2 & Heq).
  assert (items = l1) as ->.
  { inversion Hh2 as [|? y ? l2' _ Hnil]; subst. inversion Hnil; subst. by apply app_inj_tail in Heq as [? _]. }
  split_and!; [done|done| | |done].
  - intros b Hb1 [Hb2|Hb2]%elem_of_union; [|set_solver].
    apply elem_of_list_to_set in Hb1, Hb2. by apply (Hsep b).
  - rewrite Hdom. set_solver.
Qed.

(** The first message is loaded, and its block is freed. *)
Lemma load_holding s e es x items lost :
  holding s (e :: es) (x :: items) lost →
  (_load e.1 s).1 = Ok x ∧ holding (_load e.1 s).2 es items lost.
Proof using All.
  intros (Hh & Hnd & Hdisj & Hdom & Hnext). inversion Hh as [|? ? ? ? He Hes]; subst.
  destruct e as [msg d]. destruct He as [He|(b & He & Hb)]; simpl in He; subst msg.
  - assert (ids ((dumps x, d) :: es) = ids es) as E by (unfold ids; simpl; by rewrite dumps_block).
    rewrite E in *. cbn [fst]. assert (_load (dumps x) s = (loads (dumps x), s)) as ->.
    { unfold _load. destruct (dumps x) as [|[] rest] eqn:Ed; try done. by destruct (Hproto x rest). }
    simpl. rewrite Hpickle. by split_and!.
  - assert (ids ((_SPILLED :: dump_handle b, d) :: es) = b :: ids es) as E by (unfold ids; simpl; by rewrite handle_block).
    rewrite E in *. apply NoDup_cons in Hnd as [Hni Hnd]. simpl. rewrite Hhandle. unfold load_spilled. rewrite Hb. simpl.
    rewrite Hpickle. split; [done|]. unfold release, refer. rewrite Hb. simpl.
    split_and!; simpl; [|done|set_solver| |].
    + apply Forall2_same_length_lookup in Hes as [Hlen Hes]. apply Forall2_same_length_lookup. split; [done|].
      intros i e' y He' Hy. destruct (Hes i e' y He' Hy) as [?|(b' & Hb1 & Hb2)]; [by left|right].
      exists b'. split; [done|]. simpl. rewrite lookup_delete_ne; [done|]. intros <-. apply Hni.
      unfold ids. apply list_elem_of_omap. exists e'. split; [by eapply list_elem_of_lookup_2|].
      destruct e'. simpl in Hb1. subst. by rewrite handle_block.
    + rewrite dom_delete_L, Hdom. simpl. assert (b ∉ lost) by set_solver.
      assert (b ∉ (list_to_set (ids es) : gset nat)) by (by rewrite elem_of_list_to_set). set_solver.
    + intros b' Hb'. rewrite dom_delete_L in Hb'. apply Hnext. set_solver.
Qed.
End shm_queue.

(** ** It is a FIFO of objects *)

Section refinement.
Context {X : Type} (dumps : X → list byte) (loads : list byte → res X).
Context (dump_handle : nat → list byte) (load_handle : list byte → option nat).
Context (spill_at maxsize : Z) (has_store : bool) (room : store → Z → bool).
Context (Hpickle : ∀ x, loads (dumps x) = Ok x) (Hproto : ∀ x rest, dumps x ≠ _SPILLED :: rest).
Context (Hhandle : ∀ b, load_handle (dump_handle b) = Some b).
Local Abbreviation shmX := (shm (X:=X)).
Local Abbreviation held := (holding dumps dump_handle load_handle).
Local Abbreviation load := (_load loads load_handle).

(** Calls on a queue, by whatever process, and their results. *)
Inductive call := Put (x : X) (t : option Z) | Get (t : option Z).
Definition shm_call (c : call) : prog shmX (list X) :=
  match c with
  | Put x t => put dumps dump_handle spill_at maxsize has_store room x t ;! ret []
  | Get t => let! x := get loads load_handle t in ret [x]
  end.
Definition fifo_call (c : call) : prog (Fifo.fifo X) (list X) :=
  match c with
  | Put x t => Fifo.put t x ;! ret []
  | Get t => let! x := Fifo.get t in ret [x]
  end.
Fixpoint results {W} (run : call → prog W (list X)) (cs : list call) (w : W) : list (res (list X)) * W :=
  match cs with
  | [] => ([], w)
  | c :: cs => let '(r, w1) := run c w in let '(rs, w2) := results run cs w1 in (r :: rs, w2)
  end.

(** The calls that timed out on a full queue, or still wait. *)
Definition gave_up (r : res (list X)) : bool := match r with Raise Full | Spin => true | _ => false end.
Definition timeouts (rs : list (res (list X))) : nat := length (filter (λ r, gave_up r = true) rs).

Definition simulates (n : nat) (w : shmX) (f : Fifo.fifo X) : Prop :=
  Fifo.maxsize f = maxsize ∧
  ∃ lost, held (s_store w) (s_ring w) (Fifo.items f) lost ∧ (size lost ≤ n)%nat.

Lemma call_simulated c n w f :
  simulates n w f →
  let '(r, w') := shm_call c w in
  let '(r', f') := fifo_call c f in
  r = r' ∧ simulates (n + timeouts [r]) w' f'.
Proof using Hpickle Hproto Hhandle.
  intros (Hmax & lost & Hh & Hn). pose proof (Forall2_length _ _ _ (proj1 Hh)) as Hlen.
  destruct c as [x t|t]; simpl.
  - pose proof (encode_holding dumps loads dump_handle load_handle spill_at maxsize has_store room Hpickle Hproto Hhandle
      x _ _ _ _ Hh) as He.
    unfold put, bind, on_store. destruct (encode _ _ _ _ _ x (s_store w)) as [e s]. simpl in He.
    unfold put_encoded, full, qsize, Fifo.put, Fifo.full. simpl. rewrite Hmax, Hlen.
    destruct (_ && _).
    + assert (simulates (n + 1) (Shm s (s_ring w) (s_put w) (s_got w) (s_clock w)) f) as Hs.
      { split; [done|]. exists (list_to_set (ids load_handle [e]) ∪ lost). split; [by eapply holding_drop|].
        assert (size (list_to_set (ids load_handle [e]) : gset nat) ≤ 1)%nat.
        { assert (ids load_handle [e] = [] ∨ ∃ b, ids load_handle [e] = [b]) as [->|[b ->]].
          - unfold ids. simpl. destruct (block_of load_handle e); eauto.
          - rewrite list_to_set_nil, size_empty. lia.
          - by rewrite list_to_set_singleton_L, size_singleton. }
        rewrite size_union_alt.
        assert (size (lost ∖ list_to_set (ids load_handle [e])) ≤ size lost)%nat by (apply subseteq_size; set_solver).
        lia. }
      destruct t; by split.
    + split; [done|]. split; [done|]. exists lost. split; [done|lia].
  - unfold get, bind, Fifo.get, load_msg.
    destruct (s_ring w) as [|[msg d] ring] eqn:Er, (Fifo.items f) as [|x items] eqn:Ef; try done.
    + destruct t; (split; [done|]); (split; [done|]); exists lost; rewrite Ef, Er; (split; [done|lia]).
    + destruct (load_holding dumps loads dump_handle load_handle spill_at maxsize has_store room Hpickle Hproto Hhandle
        _ _ _ _ _ _ Hh) as [Hr Hh']. simpl in *.
      destruct (load msg (s_store w)) as [r s]. simpl in *. subst r. split; [done|]. split; [done|].
      exists lost. split; [done|lia].
Qed.

Lemma timeouts_cons r rs : timeouts (r :: rs) = (timeouts [r] + timeouts rs)%nat.
Proof. unfold timeouts. rewrite !filter_cons, filter_nil. by destruct (gave_up r). Qed.

Lemma calls_simulated cs n w f :
  simulates n w f →
  (results shm_call cs w).1 = (results fifo_call cs f).1 ∧
  simulates (n + timeouts (results shm_call cs w).1) (results shm_call cs w).2 (results fifo_call cs f).2.
Proof using Hpickle Hproto Hhandle.
  revert n w f. induction cs as [|c cs IH]; intros n w f Hs; simpl.
  - split; [done|]. by rewrite Nat.add_0_r.
  - pose proof (call_simulated c n w f Hs) as Hc.
    destruct (shm_call c w) as [r w1], (fifo_call c f) as [r' f1]. destruct Hc as [<- Hc].
    destruct (IH _ _ _ Hc) as [E Hsim]. destruct (results shm_call cs w1) as [rs w2].
    destruct (results fifo_call cs f1) as [rs' f2]. simpl in *. subst rs'. split; [done|].
    by rewrite timeouts_cons, Nat.add_assoc.
Qed.

(** ** Retried puts *)

Local Abbreviation shmq := (as_queue dumps loads dump_handle load_handle spill_at maxsize has_store room).
#[local] Instance retry_runtime : Runtime shmX := shm_runtime loads load_handle.

Lemma note_stall_quiet stall_s t0 hook (w : shmX) :
  (∀ h, hook = Some h → ∀ w, h w = (Ok tt, w)) →
  ∃ o, note_stall stall_s t0 hook w = (Ok o, w) ∧ ∀ h, o.2 = Some h → ∀ w, h w = (Ok tt, w).
Proof.
  intros Hh. unfold note_stall, bind, try_except. destruct hook as [h|]; [|by eexists].
  destruct t0 as [t|]; simpl; [|by eexists]. destruct (_ <=? _)%Z; [|by eexists].
  rewrite (Hh h) by done. by eexists.
Qed.

Lemma retry_holding fuel x on_stall stall_s w items lost :
  held (s_store w) (s_ring w) items lost → (∀ hook, on_stall = Some hook → ∀ w, hook w = (Ok tt, w)) →
  let '(r, w') := _put_retry fuel shmq x on_stall stall_s w in
  match r with
  | Ok _ => ∃ gone items', items = gone ++ items' ∧ held (s_store w') (s_ring w') (items' ++ [x]) lost
  | Raise _ => False
  | Spin => True
  end.
Proof using Hpickle Hproto Hhandle.
  intros Hh Hhook. unfold _put_retry, putter, bind at 1. simpl. unfold bind at 1, on_store.
  pose proof (encode_holding dumps loads dump_handle load_handle spill_at maxsize has_store room Hpickle Hproto Hhandle
      x _ _ _ _ Hh) as He.
  destruct (encode _ _ _ _ _ x (s_store w)) as [e s]. simpl in He. cbn [ret].
  set (w0 := Shm s (s_ring w) (s_put w) (s_got w) (s_clock w)).
  enough (wp (loop fuel (retry_turn (λ t, put_encoded maxsize x e (Some t)) stall_s) (None, on_stall))
    (λ r w', match r with
             | Ok _ => ∃ gone items', items = gone ++ items' ∧ held (s_store w') (s_ring w') (items' ++ [x]) lost
             | Raise _ => False
             | Spin => True
             end) w0) as Hw by (by unfold wp in Hw; destruct (loop _ _ _ _) as [[[]|?|] ?]).
  apply (wp_loop (λ o w', (∀ hook, o.2 = Some hook → ∀ w, hook w = (Ok tt, w)) ∧ ∃ gone items', items = gone ++ items' ∧
    held (s_store w') (s_ring w' ++ [e]) (items' ++ [x]) lost)); [split; [done|by exists [], items]|done|].
  clear w0 He Hh Hhook. intros [t0 hook] w1 [Hhook (gone & items' & Hi & He)]. simpl in Hhook.
  unfold wp, retry_turn, try_except, bind, put_encoded. destruct (full maxsize w1); cbn -[note_stall].
  2: { by exists gone, items'. }
  destruct (note_stall_quiet stall_s t0 hook w1 Hhook) as (o & En & Ho). rewrite En. simpl. split; [done|].
  unfold reader_takes. destruct (s_ring w1) as [|[msg d] ring] eqn:Er; [by exists gone, items'; rewrite Er|].
  destruct items' as [|y items']; [by destruct He as [He%Forall2_length _]; rewrite length_app in He; simpl in He; lia|].
  exists (gone ++ [y]), items'. rewrite <-app_assoc. split; [done|]. simpl.
  apply (load_holding dumps loads dump_handle load_handle spill_at maxsize has_store room Hpickle Hproto Hhandle _ _ _ _ _ _ He).
Qed.
End refinement.

(** ** Properties *)

(** What is relied on of pickle: loading what was dumped gives it back, and no
    pickle begins with a zero byte (it begins with [PROTO]). *)
Record lawful_pickle {X} (dumps : X → list byte) (loads : list byte → res X)
    (dump_handle : nat → list byte) (load_handle : list byte → option nat) : Prop := {
  loads_dumps x : loads (dumps x) = Ok x;
  dumps_proto x rest : dumps x ≠ _SPILLED :: rest;
  load_dump_handle b : load_handle (dump_handle b) = Some b;
}.

Definition new_shm {X} : shm (X:=X) := Shm (Store ∅ 0) [] [] [] 0.
Definition new_fifo {X} (maxsize : Z) : Fifo.fifo X := Fifo.MkFifo [] [] maxsize 0.

Lemma holding_new {X} (dumps : X → list byte) dump_handle load_handle :
  holding dumps dump_handle load_handle (Store ∅ 0) [] [] ∅.
Proof. split_and!; [done|constructor|done|simpl; set_solver|]. intros b. simpl. set_solver. Qed.

Lemma holding_size {X} (dumps : X → list byte) dump_handle load_handle s es items lost :
  holding dumps dump_handle load_handle s es items lost →
  (size (dom (blocks s)) ≤ length items + size lost)%nat.
Proof.
  intros (Hh & Hnd & _ & -> & _). rewrite <-(Forall2_length _ _ _ Hh), size_union_alt, size_list_to_set by done.
  assert (size (lost ∖ list_to_set (ids load_handle es)) ≤ size lost)%nat by (apply subseteq_size; set_solver).
  assert (length (ids load_handle es) ≤ length es)%nat; [|lia].
  clear. induction es as [|e es IH]; [done|]. unfold ids in *. simpl. destruct (block_of load_handle e); simpl; change (list_omap _ _ (block_of load_handle) es) with (omap (block_of load_handle) es); lia.
Qed.


(** C19: a retried put leaks no shared memory. [_put_retry] encodes the message
    once; however often the queue is found full, and whatever others take
    off it in between, when the put returns the message waits behind the
    others and no block is in use that was not, but its own. The put raises
    nothing. *)
Theorem retried_put_leaks_nothing {X} (dumps : X → list byte) (loads : list byte → res X)
    (dump_handle : nat → list byte) (load_handle : list byte → option nat)
    (spill_at maxsize : Z) (has_store : bool) (room : store → Z → bool) (fuel : nat) (x : X)
    (on_stall : option (prog shm unit)) (stall_s : Z) (w : shm) (items : list X) (lost : gset nat) :
  lawful_pickle dumps loads dump_handle load_handle →
  holding dumps dump_handle load_handle (s_store w) (s_ring w) items lost →
  (∀ hook, on_stall = Some hook → ∀ w, hook w = (Ok tt, w)) →
  let '(r, w') := _put_retry (H:=shm_runtime loads load_handle) fuel
    (as_queue dumps loads dump_handle load_handle spill_at maxsize has_store room) x on_stall stall_s w in
  match r with
  | Ok _ => ∃ gone items', items = gone ++ items' ∧
      holding dumps dump_handle load_handle (s_store w') (s_ring w') (items' ++ [x]) lost
  | Raise _ => False
  | Spin => True
  end.
Proof. intros [Hp Hr Hh]. by apply retry_holding. Qed.

(** *** A queue of byte strings to look at *)

Module ShmDemo.
Definition dumps (x : list byte) : list byte := x80 :: x.
Definition loads (b : list byte) : res (list byte) := match b with x80 :: x => Ok x | _ => Raise ValueError end.
Definition dump_handle (b : nat) : list byte := replicate b x01.
Definition load_handle (msg : list byte) : option nat := Some (length msg).
Definition room (s : store) (n : Z) : bool := (n <=? 100)%Z.
Definition small : list byte := [x41].
Definition large : list byte := replicate 20 x42.
Definition huge : list byte := replicate 200 x43.
Definition call (c : call) : prog (shm (X:=list byte)) (list (list byte)) :=
  shm_call dumps loads dump_handle load_handle 8 3 true room c.
Definition calls : list (ShmQueue.call (X:=list byte)) :=
  [Put large None; Put small None; Put huge None; Put large (Some 100%Z); Get None; Put large (Some 0%Z); Get None; Get None].
Lemma pickle : lawful_pickle dumps loads dump_handle load_handle.
Proof. split; [done|done|]. intros b. unfold load_handle, dump_handle. by rewrite length_replicate. Defined.
End ShmDemo.


(** A put that times out is another matter: its block stays in use for ever. *)
Example full_put_leaks :
  let w := (results ShmDemo.call ShmDemo.calls new_shm).2 in
  let w := (results ShmDemo.call [Get (Some 0%Z); Get (Some 0%Z)] w).2 in
  s_ring w = [] ∧ dom (blocks (s_store w)) = {[1%nat]}.
Proof. split; vm_compute; reflexivity. Qed.

Lemma retried_put_leaks_nothing_witness :
  let w := (results ShmDemo.call [Put ShmDemo.large None; Put ShmDemo.small None; Put ShmDemo.large None] new_shm).2 in
  let '(r, w') := _put_retry (H:=shm_runtime ShmDemo.loads ShmDemo.load_handle) 5
    (as_queue ShmDemo.dumps ShmDemo.loads ShmDemo.dump_handle ShmDemo.load_handle 8 3 true ShmDemo.room)
    ShmDemo.large None 0 w in
  r = Ok tt ∧ dom (blocks (s_store w)) = {[0; 1]}%nat ∧ dom (blocks (s_store w')) = {[1; 2]}%nat ∧
  match r with
  | Ok _ => ∃ gone items', [ShmDemo.large; ShmDemo.small; ShmDemo.large] = gone ++ items' ∧
      holding ShmDemo.dumps ShmDemo.dump_handle ShmDemo.load_handle (s_store w') (s_ring w') (items' ++ [ShmDemo.large]) ∅
  | Raise _ => False
  | Spin => True
  end.
Proof.
  cbn zeta. set (w := (results _ _ _).2).
  pose proof (retried_put_leaks_nothing ShmDemo.dumps ShmDemo.loads ShmDemo.dump_handle ShmDemo.load_handle 8 3 true
    ShmDemo.room 5 ShmDemo.large None 0 w [ShmDemo.large; ShmDemo.small; ShmDemo.large] ∅ ShmDemo.pickle) as H.
  assert (holding ShmDemo.dumps ShmDemo.dump_handle ShmDemo.load_handle (s_store w) (s_ring w)
    [ShmDemo.large; ShmDemo.small; ShmDemo.large] ∅) as Hw.
  { destruct (calls_simulated ShmDemo.dumps ShmDemo.loads ShmDemo.dump_handle ShmDemo.load_handle 8 3 true ShmDemo.room
      (loads_dumps _ _ _ _ ShmDemo.pickle) (dumps_proto _ _ _ _ ShmDemo.pickle) (load_dump_handle _ _ _ _ ShmDemo.pickle)
      [Put ShmDemo.large None; Put ShmDemo.small None; Put ShmDemo.large None] 0 new_shm (new_fifo 3))
      as [_ (_ & lost & Hd & Hn)].
    { split; [done|]. exists ∅. split; [apply holding_new|done]. }
    assert (lost = ∅) as ->; [|exact Hd]. apply leibniz_equiv, size_empty_inv, Nat.le_0_r.
    etransitivity; [exact Hn|]. vm_compute. constructor. }
  specialize (H Hw ltac:(done)).
  destruct (_put_retry _ _ _ _ _ w) as [r w'] eqn:E. vm_compute in E. injection E as <- <-.
  split_and!; [done|vm_compute; reflexivity|vm_compute; reflexivity|exact H].
Defined.
