(* ===== verification/ShmArrays.v ===== *)
(** * Arrays through the payload store (shmstore.py, shmqueue.py)

    A large numpy array or CPU tensor crosses an edge as a handle on a block of
    the payload store; its receiver maps the block and gets a view of it, and
    a view that is put onward is sent as a handle on the same block. The
    store is the one of [ShmQueue]. numpy and torch are third parties: an
    array is what the code asks of it (its element type, shape, strides, data
    pointer and the chain of its bases), and what numpy checks when it makes a
    view of a buffer is the class [ArrayLib]. *)
From S2P Require Import Prelude Types Queues ShmQueue.
From Stdlib Require Import Strings.Byte.

(** ** Strided layouts *)

(** The positions of the elements of an array relative to its first one, in
    C order. *)
Fixpoint offsets (shape strides : list Z) : list Z :=
  match shape, strides with
  | n :: shape, s :: strides => seqZ 0 n ≫= λ i, (λ o, i * s + o)%Z <$> offsets shape strides
  | _, _ => [0%Z]
  end.

(** The positions of its bytes, for elements of [item] bytes. *)
Definition cells (item : Z) (shape strides : list Z) : list Z :=
  offsets shape strides ≫= λ o, seqZ o item.

Definition product : list Z → Z := foldr Z.mul 1%Z.

(** The strides of a C-contiguous array. *)
Fixpoint c_strides (item : Z) (shape : list Z) : list Z :=
  match shape with
  | [] => []
  | _ :: shape => (product shape * item)%Z :: c_strides item shape
  end.

Lemma seqZ_one m : seqZ m 1 = [m].
Proof. rewrite seqZ_cons by lia. by rewrite seqZ_nil by lia. Qed.

(** [seqZ] in steps of [d]. *)
Lemma seqZ_steps (m k d : Z) :
  (0 ≤ k)%Z → seqZ 0 m ≫= (λ i, (λ o, i * (k * d) + o)%Z <$> ((λ j, d * j)%Z <$> seqZ 0 k)) =
  (λ j, d * j)%Z <$> seqZ 0 (m * k).
Proof.
  intros Hk. destruct (decide (0 ≤ m)%Z) as [Hm|]; [|rewrite (seqZ_nil 0 m), (seqZ_nil 0 (m * k)) by nia; done].
  replace m with (Z.of_nat (Z.to_nat m)) by lia. generalize (Z.to_nat m) as n. clear m Hm. intros n.
  induction n as [|n IH]; [done|].
  replace (Z.of_nat (S n)) with (Z.of_nat n + 1)%Z by lia.
  rewrite (seqZ_app 0 (Z.of_nat n) 1) by lia. rewrite bind_app, IH.
  replace ((Z.of_nat n + 1) * k)%Z with (Z.of_nat n * k + k)%Z by lia.
  rewrite (seqZ_app 0 (Z.of_nat n * k) k), fmap_app by lia. f_equal.
  rewrite seqZ_one. csimpl. rewrite app_nil_r.
  apply list_eq. intros i. rewrite !list_lookup_fmap.
  destruct (decide (0 ≤ Z.of_nat i < k)%Z).
  - rewrite !lookup_seqZ_lt by lia. simpl. f_equal. lia.
  - rewrite !lookup_seqZ_ge by lia. done.
Qed.

Lemma product_nonneg shape : Forall (λ n, 0 ≤ n)%Z shape → (0 ≤ product shape)%Z.
Proof. induction 1; simpl; [lia|]. by apply Z.mul_nonneg_nonneg. Qed.

Lemma positive_shape shape :
  Forall (λ n, 0 ≤ n)%Z shape → (0 < product shape)%Z → Forall (λ n, 0 < n)%Z shape.
Proof.
  induction 1 as [|n shape Hn Hs IH]; simpl; [done|]. pose proof (product_nonneg _ Hs) as Hp. intros Hm.
  constructor; [nia|]. apply IH. nia.
Qed.

Lemma c_offsets item shape :
  Forall (λ n, 0 ≤ n)%Z shape →
  offsets shape (c_strides item shape) = (λ j, item * j)%Z <$> seqZ 0 (product shape).
Proof.
  induction 1 as [|n shape Hn Hs IH].
  { change (product []) with 1%Z. rewrite seqZ_one. csimpl. by rewrite Z.mul_0_r. }
  simpl. rewrite IH. apply seqZ_steps. by apply product_nonneg.
Qed.

Lemma seqZ_blocks (m k : Z) :
  (0 ≤ m)%Z → (0 ≤ k)%Z → seqZ 0 m ≫= (λ j, seqZ (k * j) k) = seqZ 0 (k * m).
Proof.
  intros Hm Hk. replace m with (Z.of_nat (Z.to_nat m)) by lia. generalize (Z.to_nat m) as n. clear m Hm.
  induction n as [|n IH]; [by rewrite Z.mul_0_r|].
  replace (Z.of_nat (S n)) with (Z.of_nat n + 1)%Z by lia.
  rewrite (seqZ_app 0 (Z.of_nat n) 1) by lia. rewrite bind_app, IH, seqZ_one. csimpl. rewrite app_nil_r.
  replace (k * (Z.of_nat n + 1))%Z with (k * Z.of_nat n + k)%Z by lia.
  by rewrite (seqZ_app 0 (k * Z.of_nat n) k) by lia.
Qed.

(** A C-contiguous array is its bytes, one after the other. *)
Lemma c_cells item shape :
  (0 ≤ item)%Z → Forall (λ n, 0 ≤ n)%Z shape →
  cells item shape (c_strides item shape) = seqZ 0 (item * product shape).
Proof.
  intros Hi Hs. unfold cells. rewrite c_offsets by done.
  rewrite <-seqZ_blocks by (done || by apply product_nonneg).
  induction (seqZ 0 (product shape)) as [|j l IH]; [done|]. csimpl. by rewrite IH.
Qed.

(** Bytes written at positions of a buffer. *)
Definition write_cells (cs : list Z) (bytes data : list byte) : list byte :=
  foldl (λ d '(c, x), <[Z.to_nat c := x]> d) data (zip cs bytes).

Lemma write_cells_seq (bytes : list byte) : ∀ (done todo : list byte),
  length todo = length bytes →
  write_cells (seqZ (Z.of_nat (length done)) (Z.of_nat (length bytes))) bytes (done ++ todo) = done ++ bytes.
Proof.
  induction bytes as [|x bytes IH]; intros done todo Hl; simpl in Hl.
  { by destruct todo. }
  destruct todo as [|y todo]; [done|]. rewrite seqZ_cons by (simpl; lia). simpl. unfold write_cells. simpl.
  rewrite Nat2Z.id, insert_app_r_alt, Nat.sub_diag by lia. simpl.
  replace (Z.succ (Z.of_nat (length done))) with (Z.of_nat (length (done ++ [x]))) by (rewrite length_app; simpl; lia).
  replace (Z.pred (Z.of_nat (S (length bytes)))) with (Z.of_nat (length bytes)) by lia.
  pose proof (IH (done ++ [x]) todo ltac:(simpl in Hl; lia)) as Hi. unfold write_cells in Hi.
  rewrite <-!app_assoc in Hi. exact Hi.
Qed.

(** The whole buffer, from its start. *)
Lemma write_cells_all (bytes data : list byte) :
  length data = length bytes → write_cells (seqZ 0 (Z.of_nat (length bytes))) bytes data = bytes.
Proof. intros Hl. by apply (write_cells_seq bytes [] data). Qed.

(** Reading a buffer from its start to its end. *)
Lemma carried_all (data : list byte) :
  (λ c, default x00 (data !! Z.to_nat (0 + c))) <$> seqZ 0 (Z.of_nat (length data)) = data.
Proof.
  apply list_eq. intros i. rewrite list_lookup_fmap. destruct (decide (i < length data)%nat) as [Hlt|Hge].
  - rewrite lookup_seqZ_lt by lia. simpl. rewrite !Z.add_0_l, Nat2Z.id.
    destruct (lookup_lt_is_Some_2 _ _ Hlt) as [x ->]. done.
  - rewrite lookup_seqZ_ge by lia. simpl. symmetry. apply lookup_ge_None_2. lia.
Qed.

(** ** numpy arrays *)

(** A store block as a process holds it: the name of its store, and which
    block (segment, offset and kind of segment, as [share()] returns them). *)
Record block := Block { blk_store : string; blk_id : nat }.

Record dtype := Dtype { itemsize : Z; hasobject : bool; dt_name : string }.

(** [a.base]: what keeps the memory of an array. *)
Inductive base :=
  | NoBase
  | ArrayBase (b : base)
  | BlockBase (b : block)
  | OtherBase.

Record ndarray := NdArray {
  a_dtype : dtype;
  a_shape : list Z;
  a_strides : list Z;
  a_data : Z;              (* __array_interface__["data"][0] *)
  a_base : base;
  a_writeable : bool;
}.

Definition nbytes (a : ndarray) : Z := itemsize (a_dtype a) * product (a_shape a).

(** The base behind all arrays, if it is a [Block]. *)
Fixpoint base_block (b : base) : option block :=
  match b with
  | ArrayBase b => base_block b
  | BlockBase b => Some b
  | NoBase | OtherBase => None
  end.
Definition _ndarray_block (a : ndarray) : option block := base_block (a_base a).

(** A process: its own memory, and where it maps the blocks of the store. *)
Record process := Process { heap : Z → byte; addr : nat → Z }.

(** The arguments of [_rebuild_ndarray] that travel in a message. *)
Record handle := Handle {
  h_block : nat;
  h_dtype : dtype;
  h_shape : list Z;
  h_strides : list Z;
  h_off : Z;
}.

(** [np.ndarray(shape, dtype, buffer, offset, strides)] for a buffer of so many
    bytes: the strides of the array, or an exception. *)
Class ArrayLib := {
  np_view : Z → dtype → list Z → Z → option (list Z) → res (list Z);
}.

(** Every byte of such an array lies in the buffer. *)
Definition fits (len : Z) (item : Z) (shape strides : list Z) (off : Z) : Prop :=
  Forall (λ c, 0 ≤ off + c < len)%Z (cells item shape strides).

(** An array of at least one byte, and of no Python objects. *)
Definition solid (d : dtype) (shape : list Z) : Prop :=
  hasobject d = false ∧ (0 < itemsize d)%Z ∧ Forall (λ n, 0 < n)%Z shape.

(** numpy accepts the strides of such an array exactly when the array stays
    within the buffer, and lays a new array out in C order. *)
Class ArrayLaws `{ArrayLib} : Prop := {
  np_checks len d shape off strides st :
    np_view len d shape off (Some strides) = Ok st → st = strides ∧ fits len (itemsize d) shape strides off;
  np_accepts len d shape off strides :
    solid d shape → length strides = length shape →
    fits len (itemsize d) shape strides off → np_view len d shape off (Some strides) = Ok strides;
  np_default len d shape :
    solid d shape → (itemsize d * product shape ≤ len)%Z →
    np_view len d shape 0 None = Ok (c_strides (itemsize d) shape);
  np_fails len d shape off st :
    np_view len d shape off st ≠ Spin ∧
    ∀ e, np_view len d shape off st = Raise e → e = TypeError ∨ e = ValueError;
}.

Section arrays.
Context `{ArrayLib}.
(** [st.name]; [STORE_MIN_BYTES]; whether the store has room for so many bytes,
    and what a fresh block holds: the bytes of whoever had it before. *)
Context (name : string) (store_min : Z) (room : store → Z → bool) (stale : store → Z → list byte).

(** [len(blk)]. *)
Definition block_len (b : nat) (s : store) : Z :=
  match blocks s !! b with Some (data, _) => Z.of_nat (length data) | None => 0 end.

(** [st.alloc(n)], and writing to a block. *)
Definition alloc_block (n : Z) (s : store) : option nat * store :=
  if room s n then
    (Some (next_block s), Store (<[next_block s := (stale s n, 1%Z)]> (blocks s)) (S (next_block s)))
  else (None, s).
Definition write_block (b : nat) (f : list byte → list byte) (s : store) : store :=
  match blocks s !! b with
  | Some (data, n) => Store (<[b := (f data, n)]> (blocks s)) (next_block s)
  | None => s
  end.

(** The byte at an address of the process, for an array with this base. *)
Definition byte_at (p : process) (s : store) (b : base) (z : Z) : byte :=
  match base_block b with
  | Some k =>
      if decide (blk_store k = name) then
        match blocks s !! blk_id k with
        | Some (data, _) => default x00 (data !! Z.to_nat (z - addr p (blk_id k)))
        | None => x00
        end
      else heap p z
  | None => heap p z
  end.

(** The bytes of an array, in C order. *)
Definition contents (p : process) (s : store) (a : ndarray) : list byte :=
  (λ c, byte_at p s (a_base a) (a_data a + c)) <$> cells (itemsize (a_dtype a)) (a_shape a) (a_strides a).

(** The copy of [reduce_ndarray]: a block of its own. *)
Definition copy_ndarray (p : process) (a : ndarray) (s : store) : res (option handle) * store :=
  match alloc_block (nbytes a) s with
  | (None, s) => (Ok None, s)
  | (Some b, s1) =>
      match np_view (block_len b s1) (a_dtype a) (a_shape a) 0 None with
      | Ok strides =>
          let dst := cells (itemsize (a_dtype a)) (a_shape a) strides in
          let s2 := write_block b (write_cells dst (contents p s1 a)) s1 in
          (Ok (Some (Handle b (a_dtype a) (a_shape a) strides 0)), release b (ShmQueue.share b s2))
      | Raise e => (Raise e, release b s1)
      | Spin => (Spin, s1)
      end
  end.

Definition reduce_ndarray (p : process) (a : ndarray) (s : store) : res (option handle) * store :=
  if (nbytes a <? store_min)%Z || hasobject (a_dtype a) then (Ok None, s)
  else
    match _ndarray_block a with
    | Some k =>
        if decide (blk_store k = name) then
          let off := (a_data a - addr p (blk_id k))%Z in
          match np_view (block_len (blk_id k) s) (a_dtype a) (a_shape a) off (Some (a_strides a)) with
          | Ok _ => (Ok (Some (Handle (blk_id k) (a_dtype a) (a_shape a) (a_strides a) off)),
                     ShmQueue.share (blk_id k) s)
          | Raise (TypeError | ValueError) => copy_ndarray p a s
          | Raise e => (Raise e, s)
          | Spin => (Spin, s)
          end
        else copy_ndarray p a s
    | None => copy_ndarray p a s
    end.

(** [_rebuild_ndarray]: the [Block] adopts the reference of the handle. *)
Definition _rebuild_ndarray (p : process) (h : handle) (s : store) : res ndarray * store :=
  match blocks s !! h_block h with
  | None => (Raise OSError, s)
  | Some _ =>
      match np_view (block_len (h_block h) s) (h_dtype h) (h_shape h) (h_off h) (Some (h_strides h)) with
      | Ok strides =>
          (Ok (NdArray (h_dtype h) (h_shape h) strides (addr p (h_block h) + h_off h)
                 (BlockBase (Block name (h_block h))) false), s)
      | Raise e => (Raise e, release (h_block h) s)
      | Spin => (Spin, s)
      end
  end.

(** The last view of a block goes, and the [Block] with it. *)
Definition drop_base (b : base) (s : store) : store :=
  match base_block b with
  | Some k => if decide (blk_store k = name) then release (blk_id k) s else s
  | None => s
  end.

(** An array goes from process to process: sent, rebuilt, and dropped by its
    sender. *)
Fixpoint hops (p : process) (a : ndarray) (ps : list process) (s : store) : res (option ndarray) * store :=
  match ps with
  | [] => (Ok (Some a), s)
  | p' :: ps =>
      match reduce_ndarray p a s with
      | (Ok (Some h), s1) =>
          match _rebuild_ndarray p' h s1 with
          | (Ok a', s2) => hops p' a' ps (drop_base (a_base a) s2)
          | (Raise e, s2) => (Raise e, s2)
          | (Spin, s2) => (Spin, s2)
          end
      | (Ok None, s1) => (Ok None, s1)
      | (Raise e, s1) => (Raise e, s1)
      | (Spin, s1) => (Spin, s1)
      end
  end.
End arrays.

(** ** What arrives *)

(** References to a block of the store. *)
Lemma share_lookup b data n s :
  blocks s !! b = Some (data, n) → (0 < n)%Z →
  ShmQueue.share b s = Store (<[b := (data, n + 1)%Z]> (blocks s)) (next_block s).
Proof. intros Hb Hn. unfold ShmQueue.share, refer. rewrite Hb. by rewrite (proj2 (Z.leb_gt _ _)) by lia. Qed.

Lemma release_shared b data n s :
  blocks s !! b = Some (data, n) → (0 < n)%Z → release b (ShmQueue.share b s) = s.
Proof.
  intros Hb Hn. rewrite (share_lookup b data n) by done. unfold release, refer. simpl.
  rewrite lookup_insert_eq. rewrite (proj2 (Z.leb_gt _ _)) by lia.
  rewrite insert_insert_eq, insert_id; [by destruct s|]. rewrite Hb. do 2 f_equal. lia.
Qed.

Section arrays_spec.
Context `{ArrayLaws}.
Context (name : string) (store_min : Z) (room : store → Z → bool) (stale : store → Z → list byte).
Context (Hstale : ∀ s n, (0 ≤ n)%Z → Z.of_nat (length (stale s n)) = n).
Context (Hmin : (0 < store_min)%Z).
Local Abbreviation contents := (contents name).
Local Abbreviation reduce := (reduce_ndarray name store_min room stale).
Local Abbreviation rebuild := (_rebuild_ndarray name).

Definition well_shaped (a : ndarray) : Prop :=
  (0 ≤ itemsize (a_dtype a))%Z ∧ Forall (λ n, 0 ≤ n)%Z (a_shape a) ∧
  length (a_strides a) = length (a_shape a).

(** New blocks get new numbers. *)
Definition numbered (s : store) : Prop := ∀ b, is_Some (blocks s !! b) → (b < next_block s)%nat.

(** The block of the array, if it has one in this store, is in use. *)
Definition anchored (s : store) (a : ndarray) : Prop := ∀ b,
  _ndarray_block a = Some (Block name b) → ∃ data n, blocks s !! b = Some (data, n) ∧ (0 < n)%Z.

Lemma well_shaped_nbytes a : well_shaped a → (0 ≤ nbytes a)%Z.
Proof. intros (Hi & Hs & _). apply Z.mul_nonneg_nonneg; [done|by apply product_nonneg]. Qed.

(** Changes of the store that an array does not see. *)
Lemma contents_same p s s' a :
  (∀ b, _ndarray_block a = Some (Block name b) → fst <$> blocks s' !! b = fst <$> blocks s !! b) →
  contents p s' a = contents p s a.
Proof.
  intros Hs. unfold ShmArrays.contents. apply list_fmap_ext. intros i c _. unfold byte_at.
  unfold _ndarray_block in Hs. destruct (base_block (a_base a)) as [[st b]|]; [|done]. simpl.
  destruct (decide (st = name)) as [->|]; [|done]. specialize (Hs b eq_refl).
  destruct (blocks s' !! b) as [[d n]|], (blocks s !! b) as [[d' n']|]; by simplify_eq/=.
Qed.

(** The number of bytes does not depend on the strides. *)
Lemma offsets_length shape : ∀ s1 s2,
  length s1 = length shape → length s2 = length shape →
  length (offsets shape s1) = length (offsets shape s2).
Proof.
  induction shape as [|n shape IH]; intros [|x s1] [|y s2] H1 H2; try done. simpl in *.
  induction (seqZ 0 n) as [|i l IHl]; [done|]. csimpl. rewrite !length_app, !length_fmap, IHl.
  by rewrite (IH s1 s2) by lia.
Qed.

Lemma c_strides_length item shape : length (c_strides item shape) = length shape.
Proof. induction shape as [|n shape IH]; [done|]. simpl. by rewrite IH. Qed.

Lemma contents_length p s a : well_shaped a → Z.of_nat (length (contents p s a)) = nbytes a.
Proof.
  intros (Hi & Hs & Hl). unfold ShmArrays.contents. rewrite length_fmap.
  assert (length (cells (itemsize (a_dtype a)) (a_shape a) (a_strides a)) =
          length (cells (itemsize (a_dtype a)) (a_shape a) (c_strides (itemsize (a_dtype a)) (a_shape a)))) as ->.
  { unfold cells. pose proof (offsets_length (a_shape a) (a_strides a) (c_strides (itemsize (a_dtype a)) (a_shape a))) as Ho.
    specialize (Ho Hl (c_strides_length _ _)). revert Ho. generalize (offsets (a_shape a) (a_strides a)).
    generalize (offsets (a_shape a) (c_strides (itemsize (a_dtype a)) (a_shape a))).
    intros l2 l1. revert l2. induction l1 as [|o1 l1 IH]; intros [|o2 l2] Ho; try done. csimpl.
    rewrite !length_app, !length_seqZ. f_equal. apply IH. simpl in Ho. lia. }
  rewrite c_cells, length_seqZ by done. unfold nbytes. pose proof (product_nonneg _ Hs).
  rewrite Z2Nat.id; [done|]. by apply Z.mul_nonneg_nonneg.
Qed.

(** What the size and dtype tests of [reduce_ndarray] leave. *)
Lemma large_solid a :
  well_shaped a → (nbytes a <? store_min)%Z || hasobject (a_dtype a) = false → solid (a_dtype a) (a_shape a).
Proof using Hmin.
  intros (Hi & Hs & _) [Hn%Z.ltb_ge Ho]%orb_false_iff. unfold nbytes in Hn.
  pose proof (product_nonneg _ Hs) as Hp. split_and!; [done|nia|]. apply positive_shape; [done|nia].
Qed.

(** A copy: one fresh block with the bytes of the array, held by the handle. *)
Lemma copy_spec p a s :
  well_shaped a → solid (a_dtype a) (a_shape a) → numbered s → anchored s a →
  copy_ndarray name room stale p a s =
  if room s (nbytes a) then
    (Ok (Some (Handle (next_block s) (a_dtype a) (a_shape a) (c_strides (itemsize (a_dtype a)) (a_shape a)) 0)),
     Store (<[next_block s := (contents p s a, 1%Z)]> (blocks s)) (S (next_block s)))
  else (Ok None, s).
Proof using Hstale H0.
  intros Hw Hso Hn Ha. pose proof (well_shaped_nbytes a Hw) as Hnb. pose proof Hw as (Hi & Hs & _).
  unfold copy_ndarray, alloc_block. destruct (room s (nbytes a)); [|done].
  set (b := next_block s). set (s1 := Store (<[b := (stale s (nbytes a), 1%Z)]> (blocks s)) (S b)).
  assert (block_len b s1 = nbytes a) as ->.
  { unfold block_len, s1. simpl. rewrite lookup_insert_eq. by apply Hstale. }
  rewrite np_default by (done || reflexivity).
  assert (contents p s1 a = contents p s a) as ->.
  { apply contents_same. intros b' Hb'. destruct (Ha b' Hb') as (d & n & Hd & _). unfold s1. simpl.
    rewrite lookup_insert_ne; [done|]. intros <-. assert (is_Some (blocks s !! b)) as Hb by (by rewrite Hd).
    apply Hn in Hb. unfold b in Hb. lia. }
  rewrite c_cells by done. fold (nbytes a). rewrite <-(contents_length p s a Hw).
  assert (write_block b (write_cells (seqZ 0 (Z.of_nat (length (contents p s a)))) (contents p s a)) s1 =
          Store (<[b := (contents p s a, 1%Z)]> (blocks s)) (S b)) as ->.
  { unfold write_block, s1. simpl. rewrite lookup_insert_eq. simpl. rewrite insert_insert_eq. do 3 f_equal.
    apply write_cells_all. specialize (Hstale s (nbytes a) Hnb).
    pose proof (contents_length p s a Hw). lia. }
  erewrite release_shared; [done|simpl; apply lookup_insert_eq|lia].
Qed.

(** The bytes a handle names in the store. *)
Definition carried_bytes (s : store) (h : handle) : list byte :=
  match blocks s !! h_block h with
  | Some (data, _) =>
      (λ c, default x00 (data !! Z.to_nat (h_off h + c))) <$> cells (itemsize (h_dtype h)) (h_shape h) (h_strides h)
  | None => []
  end.

(** The handle names a block in use, and stays within it. *)
Definition valid_handle (s : store) (h : handle) : Prop :=
  solid (h_dtype h) (h_shape h) ∧ length (h_strides h) = length (h_shape h) ∧
  (∃ data n, blocks s !! h_block h = Some (data, n) ∧ (0 < n)%Z) ∧
  fits (block_len (h_block h) s) (itemsize (h_dtype h)) (h_shape h) (h_strides h) (h_off h).

(** A valid handle is rebuilt to a read-only view of its block. *)
Lemma rebuild_spec p h s :
  valid_handle s h →
  rebuild p h s =
    (Ok (NdArray (h_dtype h) (h_shape h) (h_strides h) (addr p (h_block h) + h_off h)
           (BlockBase (Block name (h_block h))) false), s) ∧
  contents p s (NdArray (h_dtype h) (h_shape h) (h_strides h) (addr p (h_block h) + h_off h)
           (BlockBase (Block name (h_block h))) false) = carried_bytes s h.
Proof using H0.
  intros (Hso & Hl & (data & n & Hb & Hn) & Hf). unfold _rebuild_ndarray. rewrite Hb, np_accepts by done. split; [done|].
  unfold ShmArrays.contents, carried_bytes. simpl. rewrite Hb.
  apply list_fmap_ext. intros i c _. unfold byte_at. simpl. rewrite decide_True, Hb by done. do 3 f_equal. lia.
Qed.

(** What may come of reducing an array: nothing, one more reference to its
    own block, or a copy in a fresh block. *)
Definition reduced (p : process) (a : ndarray) (s : store) (r : res (option handle) * store) : Prop :=
  r = (Ok None, s) ∨
  ∃ h s1, r = (Ok (Some h), s1) ∧ valid_handle s1 h ∧ carried_bytes s1 h = contents p s a ∧
    h_dtype h = a_dtype a ∧ h_shape h = a_shape a ∧
    (s1 = ShmQueue.share (h_block h) s ∧ _ndarray_block a = Some (Block name (h_block h)) ∨
     h_block h = next_block s ∧
     s1 = Store (<[next_block s := (contents p s a, 1%Z)]> (blocks s)) (S (next_block s))).

Lemma copy_reduced p a s :
  well_shaped a → solid (a_dtype a) (a_shape a) → numbered s → anchored s a →
  reduced p a s (copy_ndarray name room stale p a s).
Proof using Hstale H0.
  intros Hw Hso Hn Ha. pose proof Hw as (Hi & Hs & _).
  rewrite copy_spec by done. destruct (room s (nbytes a)); [right|by left].
  do 2 eexists. split; [reflexivity|]. unfold valid_handle, carried_bytes, block_len, fits. simpl.
  rewrite lookup_insert_eq. simpl. rewrite (contents_length p s a Hw), c_cells by done. fold (nbytes a).
  split_and!; try done; [| | | |by right].
  - apply c_strides_length.
  - do 2 eexists. split; [done|lia].
  - apply Forall_forall. intros c Hc%elem_of_seqZ. lia.
  - rewrite <-(contents_length p s a Hw). apply carried_all.
Qed.

Lemma reduce_spec p a s :
  well_shaped a → numbered s → anchored s a → reduced p a s (reduce p a s).
Proof using Hstale Hmin H0.
  intros Hw Hn Ha. unfold reduce_ndarray. destruct (_ || _) eqn:Hbig; [by left|].
  pose proof (large_solid a Hw Hbig) as Hso. pose proof (copy_reduced p a s Hw Hso Hn Ha) as Hc2.
  destruct (_ndarray_block a) as [[st b]|] eqn:Hk; [|exact Hc2]. simpl.
  destruct (decide (st = name)) as [->|]; [|exact Hc2].
  destruct (Ha b Hk) as (data & n & Hb & Hpos).
  destruct (np_view _ _ _ _ _) as [strides|e|] eqn:Hv.
  - destruct (np_checks _ _ _ _ _ _ Hv) as [-> Hf]. right. do 2 eexists. split; [reflexivity|].
    rewrite (share_lookup b data n) by done. unfold valid_handle, carried_bytes, block_len. simpl.
    rewrite lookup_insert_eq. unfold block_len in Hf. rewrite Hb in Hf. split_and!; try done.
    + apply Hw.
    + do 2 eexists. split; [done|lia].
    + unfold ShmArrays.contents. apply list_fmap_ext. intros i c _. unfold byte_at. unfold _ndarray_block in Hk.
      rewrite Hk. simpl. rewrite decide_True, Hb by done. do 3 f_equal. lia.
    + left. split; [symmetry; by apply share_lookup|exact Hk].
  - destruct (np_fails (block_len b s) (a_dtype a) (a_shape a) (a_data a - addr p b) (Some (a_strides a))) as [_ He].
    destruct (He e Hv) as [-> | ->]; exact Hc2.
  - by destruct (np_fails (block_len b s) (a_dtype a) (a_shape a) (a_data a - addr p b) (Some (a_strides a))).
Qed.

(** The sender's array and the numbering are as they were. *)
Lemma reduced_store p a s h s1 :
  numbered s → anchored s a →
  (s1 = ShmQueue.share (h_block h) s ∧ _ndarray_block a = Some (Block name (h_block h)) ∨
   h_block h = next_block s ∧
   s1 = Store (<[next_block s := (contents p s a, 1%Z)]> (blocks s)) (S (next_block s))) →
  numbered s1 ∧
  (∀ b, _ndarray_block a = Some (Block name b) → fst <$> blocks s1 !! b = fst <$> blocks s !! b).
Proof using.
  intros Hn Ha [[-> Hk]|[_ ->]].
  - destruct (Ha _ Hk) as (data & n & Hb & Hpos). rewrite (share_lookup _ data n) by done. split.
    + intros b. simpl. destruct (decide (b = h_block h)) as [->|]; [|rewrite lookup_insert_ne by done; apply Hn].
      intros _. apply Hn. by rewrite Hb.
    + intros b Hb'. simplify_eq/=. by rewrite lookup_insert_eq, Hb.
  - split.
    + intros b. simpl. destruct (decide (b = next_block s)) as [->|]; [lia|].
      rewrite lookup_insert_ne by done. intros Hb%Hn. lia.
    + intros b Hb'. destruct (Ha _ Hb') as (data & n & Hb & _). simpl. rewrite lookup_insert_ne; [done|].
      intros <-. assert (is_Some (blocks s !! next_block s)) as Hs%Hn by (by rewrite Hb). lia.
Qed.

(** An array survives an edge. [reduce_ndarray] either declines, leaving
    the store as it was, or sends a handle that every process rebuilds to a
    read-only array of the same type, shape and bytes; the sender's array is
    what it was, and the store has one more reference to the array's own block
    or exactly one fresh block with its bytes. *)
Theorem ndarray_roundtrip p a s :
  well_shaped a → numbered s → anchored s a →
  reduce p a s = (Ok None, s) ∨
  ∃ h s1, reduce p a s = (Ok (Some h), s1) ∧
    (∀ p', ∃ a', rebuild p' h s1 = (Ok a', s1) ∧ a_writeable a' = false ∧
       a_dtype a' = a_dtype a ∧ a_shape a' = a_shape a ∧ contents p' s1 a' = contents p s a ∧
       well_shaped a' ∧ anchored s1 a') ∧
    contents p s1 a = contents p s a ∧ numbered s1 ∧
    (s1 = ShmQueue.share (h_block h) s ∧ _ndarray_block a = Some (Block name (h_block h)) ∨
     s1 = Store (<[next_block s := (contents p s a, 1%Z)]> (blocks s)) (S (next_block s))).
Proof using Hstale Hmin H0.
  intros Hw Hn Ha. destruct (reduce_spec p a s Hw Hn Ha) as [->|(h & s1 & -> & Hv & Hc & Hd & Hs & Hst)]; [by left|].
  right. exists h, s1. split; [done|]. split_and!.
  - intros p'. destruct (rebuild_spec p' h s1 Hv) as [Hr Hb]. eexists. split; [exact Hr|]. simpl.
    split_and!; try done; [by rewrite Hb| |].
    + destruct Hw as (Hi & Hsh & _). destruct Hv as (_ & Hl & _). rewrite <-Hd in Hi. rewrite <-Hs in Hsh. by split_and!.
    + intros b [= <-]. destruct Hv as (_ & _ & Hv & _). exact Hv.
  - destruct (reduced_store p a s h s1 Hn Ha Hst) as [_ Hf]. by apply contents_same.
  - by destruct (reduced_store p a s h s1 Hn Ha Hst).
  - destruct Hst as [?|[_ ?]]; [by left|by right].
Qed.

(** An array on a block of the store that is in use, within the block. *)
Definition viewed (p : process) (s : store) (a : ndarray) (b : nat) : Prop :=
  _ndarray_block a = Some (Block name b) ∧ (∃ data n, blocks s !! b = Some (data, n) ∧ (0 < n)%Z) ∧
  fits (block_len b s) (itemsize (a_dtype a)) (a_shape a) (a_strides a) (a_data a - addr p b).

(** What [reduce_ndarray] shares. *)
Definition shareable (a : ndarray) : Prop :=
  well_shaped a ∧ (nbytes a <? store_min)%Z || hasobject (a_dtype a) = false.

Lemma viewed_hop p p' a b s :
  shareable a → viewed p s a b →
  ∃ a', (∃ h s1, reduce p a s = (Ok (Some h), s1) ∧ rebuild p' h s1 = (Ok a', s1) ∧ drop_base name (a_base a) s1 = s) ∧
    shareable a' ∧ viewed p' s a' b ∧ contents p' s a' = contents p s a ∧
    a_dtype a' = a_dtype a ∧ a_shape a' = a_shape a.
Proof using Hmin H0.
  intros [Hw Hbig] (Hk & (data & n & Hb & Hn) & Hf). pose proof (large_solid a Hw Hbig) as Hso.
  set (off := (a_data a - addr p b)%Z) in *.
  exists (NdArray (a_dtype a) (a_shape a) (a_strides a) (addr p' b + off) (BlockBase (Block name b)) false).
  pose proof Hw as (Hi & Hs & Hl). split_and!; try done.
  - exists (Handle b (a_dtype a) (a_shape a) (a_strides a) off), (ShmQueue.share b s). split_and!.
    + unfold reduce_ndarray. rewrite Hbig, Hk. simpl. rewrite decide_True by done. fold off.
      by rewrite np_accepts.
    + destruct (rebuild_spec p' (Handle b (a_dtype a) (a_shape a) (a_strides a) off) (ShmQueue.share b s)) as [Hr _];
        [|exact Hr].
      rewrite (share_lookup b data n) by done. unfold valid_handle, block_len. simpl. rewrite lookup_insert_eq.
      unfold block_len in Hf. rewrite Hb in Hf. split_and!; try done. do 2 eexists. split; [done|lia].
    + unfold drop_base. unfold _ndarray_block in Hk. rewrite Hk. simpl. rewrite decide_True by done.
      by apply (release_shared b data n).
  - split_and!; [done|by exists data, n|]. simpl.
    by replace (addr p' b + off - addr p' b)%Z with off by lia.
  - unfold ShmArrays.contents. simpl. apply list_fmap_ext. intros i c _. unfold byte_at.
    unfold _ndarray_block in Hk. rewrite Hk. simpl. rewrite !decide_True, Hb by done. do 3 f_equal. lia.
Qed.

Lemma viewed_hops ps : ∀ p a b s,
  shareable a → viewed p s a b →
  ∃ a', hops name store_min room stale p a ps s = (Ok (Some a'), s) ∧
    contents (default p (last ps)) s a' = contents p s a ∧ a_dtype a' = a_dtype a ∧ a_shape a' = a_shape a.
Proof using Hmin H0.
  induction ps as [|p' ps IH]; intros p a b s Hs Hv; simpl; [by exists a|].
  destruct (viewed_hop p p' a b s Hs Hv) as (a' & (h & s1 & -> & -> & ->) & Hs' & Hv' & Hc & Hd & Hsh).
  destruct (IH p' a' b s Hs' Hv') as (a2 & -> & Hc2 & Hd2 & Hsh2). exists a2. split_and!; try congruence.
  destruct ps as [|q ps]; simpl in *; [congruence|]. rewrite <-Hc, <-Hc2. f_equal.
  by destruct (last (q :: ps)) eqn:Hq; [|apply last_None in Hq].
Qed.

(** C27: "Written into shared memory ONCE ... Copies after the first hop: zero."
    A large array that is not on a block of the store yet takes any number of
    hops through processes that each drop it once it is sent: it arrives with
    its bytes, and the store has gained one block, held once, with those
    bytes. *)
Theorem one_copy_for_all_hops p p1 ps a s :
  shareable a → numbered s → (∀ b, _ndarray_block a ≠ Some (Block name b)) → room s (nbytes a) = true →
  let s' := Store (<[next_block s := (contents p s a, 1%Z)]> (blocks s)) (S (next_block s)) in
  ∃ a', hops name store_min room stale p a (p1 :: ps) s = (Ok (Some a'), s') ∧
    contents (default p1 (last ps)) s' a' = contents p s a ∧ a_dtype a' = a_dtype a ∧ a_shape a' = a_shape a.
Proof using Hstale Hmin H0.
  intros [Hw Hbig] Hn Hk Hroom s'. pose proof (large_solid a Hw Hbig) as Hso. pose proof Hw as (Hi & Hs & Hl).
  assert (anchored s a) as Ha by (intros b Hb; by apply Hk in Hb).
  set (h := Handle (next_block s) (a_dtype a) (a_shape a) (c_strides (itemsize (a_dtype a)) (a_shape a)) 0).
  assert (reduce p a s = (Ok (Some h), s')) as Hr.
  { unfold reduce_ndarray. rewrite Hbig. pose proof (copy_spec p a s Hw Hso Hn Ha) as Hc. rewrite Hroom in Hc.
    destruct (_ndarray_block a) as [[st b]|] eqn:Hb; [|exact Hc]. simpl.
    destruct (decide (st = name)) as [->|]; [by destruct (Hk b)|exact Hc]. }
  destruct (reduce_spec p a s Hw Hn Ha) as [He|(h' & s1 & He & Hv & Hc & _)]; rewrite Hr in He; [done|].
  injection He as <- <-. destruct (rebuild_spec p1 h s' Hv) as [Hb Hc1]. simpl. rewrite Hr, Hb.
  assert (drop_base name (a_base a) s' = s') as ->.
  { unfold drop_base, _ndarray_block in *. destruct (base_block (a_base a)) as [[st b]|]; [|done]. simpl.
    destruct (decide (st = name)) as [->|]; [by destruct (Hk b)|done]. }
  set (a1 := NdArray _ _ _ _ _ _) in *.
  destruct (viewed_hops ps p1 a1 (next_block s) s') as (a' & -> & Hc' & Hd' & Hs').
  - split; [|exact Hbig]. unfold well_shaped. simpl. split_and!; try done. apply c_strides_length.
  - destruct Hv as (_ & _ & Hv & Hf). split_and!; [done|exact Hv|]. simpl in *.
    by replace (addr p1 (next_block s) + 0 - addr p1 (next_block s))%Z with 0%Z by lia.
  - exists a'. split_and!; try done. by rewrite Hc', Hc1.
Qed.
End arrays_spec.

(** ** CPU tensors *)

(** The strides of a tensor count elements; its storage starts at an address,
    and is kept by what it was built on. *)
Record tensor := Tensor {
  t_cpu : bool;            (* t.device.type == "cpu" *)
  t_strided : bool;        (* t.layout is torch.strided *)
  t_dtype : string;
  t_shape : list Z;
  t_stride : list Z;
  t_storage : Z;           (* t.untyped_storage().data_ptr() *)
  t_offset : Z;
  t_base : base;
  t_leaf : bool;
  t_grad : bool;           (* t.requires_grad *)
}.

(** The arguments of [_rebuild_tensor] that travel in a message. *)
Record thandle := THandle {
  th_block : nat;
  th_dtype : string;
  th_shape : list Z;
  th_stride : list Z;
  th_offset : Z;
  th_grad : bool;
}.

(** What a tensor is to the stages. *)
Record tvalue := TValue { v_dtype : string; v_shape : list Z; v_grad : bool; v_bytes : list byte }.

(** [_tensor_blocks]: the address of a block, and the [Block] a tensor of the
    process was last built on. *)
Abbreviation tensor_blocks := (gmap Z block).

(** torch: the bytes of an element; [torch.frombuffer] of a buffer of so many
    bytes, for elements of so many bytes, so many of them or as many as there
    are; [base.as_strided(...)] of a base of so many elements; the strides of
    [t.contiguous()]. *)
Class TensorLib := {
  element_size : string → Z;
  frombuffer : Z → Z → option Z → res Z;
  as_strided : Z → list Z → list Z → Z → res unit;
  contiguous : list Z → list Z → list Z;
}.

Definition scale (k : Z) (strides : list Z) : list Z := (λ x, x * k)%Z <$> strides.

Class TensorLaws `{TensorLib} : Prop := {
  element_size_pos dt : (0 < element_size dt)%Z;
  frombuffer_ok len item count : (0 < item)%Z → (0 < count)%Z → (item * count ≤ len)%Z →
    frombuffer len item (Some count) = Ok count;
  frombuffer_all item n : (0 < item)%Z → (0 < n)%Z → frombuffer (item * n) item None = Ok n;
  as_strided_ok count shape stride off :
    Forall (λ n, 0 < n)%Z shape → length stride = length shape → fits count 1 shape stride off →
    as_strided count shape stride off = Ok tt;
  contiguous_length shape stride : length stride = length shape → length (contiguous shape stride) = length shape;
  contiguous_offsets shape stride :
    Forall (λ n, 0 ≤ n)%Z shape → length stride = length shape →
    offsets shape (contiguous shape stride) = seqZ 0 (product shape);
}.

(** The dtypes moved as raw bytes. *)
Definition dts : list string :=
  ["torch.float32"; "torch.float64"; "torch.float16"; "torch.bfloat16"; "torch.int64"; "torch.int32"; "torch.int16";
   "torch.int8"; "torch.uint8"; "torch.bool"].

(** What the pickler writes for a tensor: a handle on a store block, its bytes,
    or what torch makes of it. *)
Inductive reduction :=
  | ByStore (h : thandle)
  | Inline (buf : list byte) (dt : string) (shape : list Z) (requires_grad : bool)
  | ByTorch.

Section tensors.
Context `{TensorLib}.
Context (name : string) (store_min : Z) (room : store → Z → bool) (stale : store → Z → list byte).
(** Is there a store; [_tls.inline_max]. *)
Context (has_store : bool) (inline_max : Z).

Definition tensor_itemsizes : gmap string Z := list_to_map ((λ dt, (dt, element_size dt)) <$> dts).

(** The tensor as numpy would see it. *)
Definition as_array (t : tensor) : ndarray :=
  let item := element_size (t_dtype t) in
  NdArray (Dtype item false (t_dtype t)) (t_shape t) (scale item (t_stride t)) (t_storage t + t_offset t * item)
    (t_base t) true.
Definition numel (t : tensor) : Z := product (t_shape t).
Definition tensor_bytes (t : tensor) : Z := numel t * element_size (t_dtype t).
Definition tensor_contents (p : process) (s : store) (t : tensor) : list byte := contents name p s (as_array t).
Definition value (p : process) (s : store) (t : tensor) : tvalue :=
  TValue (t_dtype t) (t_shape t) (t_grad t) (tensor_contents p s t).

(** CPU, strided, of a raw dtype, and no non-leaf that needs gradients. *)
Definition raw_tensor (t : tensor) : bool :=
  t_cpu t && t_strided t && bool_decide (is_Some (tensor_itemsizes !! t_dtype t)) && (t_leaf t || negb (t_grad t)).

Definition copy_tensor (p : process) (t : tensor) (s : store) : res (option thandle) * store :=
  let stride := contiguous (t_shape t) (t_stride t) in
  match alloc_block room stale (tensor_bytes t) s with
  | (None, s) => (Ok None, s)
  | (Some b, s1) =>
      match frombuffer (block_len b s1) 1 None with
      | Ok _ =>
          let s2 := write_block b (write_cells (seqZ 0 (tensor_bytes t)) (tensor_contents p s1 t)) s1 in
          (Ok (Some (THandle b (t_dtype t) (t_shape t) stride 0 (t_grad t))), release b (ShmQueue.share b s2))
      | Raise e => (Raise e, release b s1)
      | Spin => (Spin, s1)
      end
  end.

Definition reduce_tensor (p : process) (tb : tensor_blocks) (t : tensor) (s : store) : res (option thandle) * store :=
  if negb (raw_tensor t && (store_min <=? tensor_bytes t)%Z) then (Ok None, s)
  else
    match tb !! t_storage t with
    | Some k =>
        if decide (blk_store k = name) then
          let off := (t_storage t + t_offset t * element_size (t_dtype t) - addr p (blk_id k))%Z in
          (Ok (Some (THandle (blk_id k) (t_dtype t) (t_shape t) (t_stride t) (off / element_size (t_dtype t)) (t_grad t))),
           ShmQueue.share (blk_id k) s)
        else copy_tensor p t s
    | None => copy_tensor p t s
    end.

(** [_rebuild_tensor]; a [Block] that is dropped leaves the weak dictionary. *)
Definition _rebuild_tensor (p : process) (h : thandle) (tb : tensor_blocks) (s : store) :
    res tensor * (tensor_blocks * store) :=
  match blocks s !! th_block h with
  | None => (Raise OSError, (tb, s))
  | Some _ =>
      let len := block_len (th_block h) s in
      match tensor_itemsizes !! th_dtype h with
      | None => (Raise KeyError, (tb, release (th_block h) s))
      | Some item =>
          match frombuffer len item (Some (len / item))%Z with
          | Ok count =>
              let a := addr p (th_block h) in
              match as_strided count (th_shape h) (th_stride h) (th_offset h) with
              | Ok _ =>
                  (Ok (Tensor true true (th_dtype h) (th_shape h) (th_stride h) a (th_offset h)
                         (BlockBase (Block name (th_block h))) true (th_grad h)),
                   (<[a := Block name (th_block h)]> tb, s))
              | Raise e => (Raise e, (delete a tb, release (th_block h) s))
              | Spin => (Spin, (tb, s))
              end
          | Raise e => (Raise e, (tb, release (th_block h) s))
          | Spin => (Spin, (tb, s))
          end
      end
  end.

(** [reduce] of [_tensor_reducer]: the store, then inline, then torch. *)
Definition reduce (p : process) (tb : tensor_blocks) (t : tensor) (s : store) : res reduction * store :=
  let '(r, s) := if has_store then reduce_tensor p tb t s else (Ok None, s) in
  match r with
  | Ok (Some h) => (Ok (ByStore h), s)
  | Ok None =>
      if raw_tensor t && (tensor_bytes t <=? inline_max)%Z then
        (Ok (Inline (tensor_contents p s t) (t_dtype t) (t_shape t) (t_grad t)), s)
      else (Ok ByTorch, s)
  | Raise e => (Raise e, s)
  | Spin => (Spin, s)
  end.

(** A tensor of its own, of [buf]; [reshape] refuses another number of
    elements. *)
Definition _rebuild_inline (buf : list byte) (dt : string) (shape : list Z) (requires_grad : bool) : res tvalue :=
  let len := Z.of_nat (length buf) in
  let item := element_size dt in
  match (if (len =? 0)%Z then Ok 0%Z else frombuffer len item None) with
  | Ok n => if (n =? product shape)%Z then Ok (TValue dt shape requires_grad buf) else Raise RuntimeError
  | Raise e => Raise e
  | Spin => Spin
  end.
End tensors.

(** ** A tensor survives an edge *)

Section tensors_spec.
Context `{TensorLaws}.
Context (name : string).

(** Sizes are not negative, and one stride per dimension. *)
Definition well_formed (t : tensor) : Prop :=
  Forall (λ n, 0 ≤ n)%Z (t_shape t) ∧ length (t_stride t) = length (t_shape t).

(** What [_tensor_blocks] says of the tensor: its storage starts where the
    block does, is kept by it, and the tensor lies within it. *)
Definition tracked (p : process) (tb : tensor_blocks) (s : store) (t : tensor) : Prop := ∀ b,
  tb !! t_storage t = Some (Block name b) →
  t_base t = BlockBase (Block name b) ∧ t_storage t = addr p b ∧
  fits (block_len b s) (element_size (t_dtype t)) (t_shape t) (scale (element_size (t_dtype t)) (t_stride t))
    (t_offset t * element_size (t_dtype t)).

Lemma scale_offsets k shape : ∀ strides,
  offsets shape (scale k strides) = (λ o, o * k)%Z <$> offsets shape strides.
Proof.
  induction shape as [|n shape IH]; intros [|x strides]; try done. simpl. unfold scale. csimpl. fold (scale k strides).
  rewrite IH. induction (seqZ 0 n) as [|i l IHl]; [done|]. csimpl. rewrite fmap_app, IHl. f_equal.
  rewrite <-!list_fmap_compose. apply list_fmap_ext. intros _ o _. simpl. lia.
Qed.

Lemma tensor_well_shaped t : well_formed t → well_shaped (as_array t).
Proof.
  intros [Hs Hl]. unfold well_shaped. simpl. split_and!; [|done|by unfold scale; rewrite length_fmap].
  pose proof (element_size_pos (t_dtype t)). lia.
Qed.

Lemma tensor_nbytes t : nbytes (as_array t) = tensor_bytes t.
Proof. unfold nbytes, tensor_bytes, numel. simpl. lia. Qed.

Lemma tensor_contents_length p s t :
  well_formed t → Z.of_nat (length (tensor_contents name p s t)) = tensor_bytes t.
Proof. intros Hw. rewrite <-tensor_nbytes. apply contents_length. by apply tensor_well_shaped. Qed.

(** A raw tensor of the right size goes inline and comes back. *)
Lemma inline_rebuilds p s t :
  well_formed t → _rebuild_inline (tensor_contents name p s t) (t_dtype t) (t_shape t) (t_grad t) = Ok (value name p s t).
Proof.
  intros Hw. pose proof (tensor_contents_length p s t Hw) as Hl. unfold _rebuild_inline. rewrite Hl.
  unfold tensor_bytes, numel in *. pose proof (element_size_pos (t_dtype t)) as Hi.
  pose proof (product_nonneg _ (proj1 Hw)) as Hp. destruct (Z.eqb_spec (product (t_shape t) * element_size (t_dtype t)) 0).
  - assert (product (t_shape t) = 0)%Z as -> by nia. done.
  - rewrite Z.mul_comm, frombuffer_all by nia. by rewrite Z.eqb_refl.
Qed.

Definition sound (p : process) (tb : tensor_blocks) (s : store) (t : tensor) : Prop :=
  well_formed t ∧ anchored name s (as_array t) ∧ tracked p tb s t.

Definition to_handle (h : thandle) : handle :=
  let item := element_size (th_dtype h) in
  Handle (th_block h) (Dtype item false (th_dtype h)) (th_shape h) (scale item (th_stride h)) (th_offset h * item).

Lemma offsets_inhabited shape : ∀ strides, Forall (λ n, 0 < n)%Z shape → ∃ o, o ∈ offsets shape strides.
Proof.
  induction shape as [|n shape IH]; intros strides Hs; [by exists 0%Z; simpl; set_solver|].
  apply Forall_cons in Hs as [Hn Hs]. destruct strides as [|x strides]; [by exists 0%Z; simpl; set_solver|].
  destruct (IH strides Hs) as [o Ho]. exists (0 * x + o)%Z. simpl. apply list_elem_of_bind. exists 0%Z.
  split; [apply list_elem_of_fmap; by exists o|]. apply elem_of_seqZ. lia.
Qed.

(** An array that lies within so many bytes lies within the elements they
    make. *)
Lemma fits_elements len item shape strides off :
  (0 < item)%Z → fits len item shape (scale item strides) (off * item) →
  fits (len / item) 1 shape strides off ∧ ∀ o, o ∈ offsets shape strides → (item ≤ len)%Z.
Proof.
  intros Hi Hf. unfold fits, cells in *. rewrite scale_offsets in Hf.
  assert (∀ o, o ∈ offsets shape strides → 0 ≤ off * item + o * item ∧ off * item + o * item + item - 1 < len)%Z as Ho.
  { intros o Ho. rewrite Forall_forall in Hf. split.
    - apply (Hf (o * item)%Z). apply list_elem_of_bind. exists (o * item)%Z.
      split; [apply elem_of_seqZ; lia|]. apply list_elem_of_fmap. by exists o.
    - specialize (Hf (o * item + item - 1)%Z). enough (0 ≤ off * item + (o * item + item - 1) < len)%Z by lia.
      apply Hf. apply list_elem_of_bind. exists (o * item)%Z. split; [apply elem_of_seqZ; lia|].
      apply list_elem_of_fmap. by exists o. }
  split.
  - apply Forall_forall. intros c (o & Hc%elem_of_seqZ & Ho2)%list_elem_of_bind. assert (c = o) as -> by lia.
    destruct (Ho o Ho2) as [H1 H2]. split; [nia|]. apply Z.lt_le_trans with ((off + o) + 1)%Z; [lia|].
    apply Z.div_le_lower_bound; [done|]. lia.
  - intros o Ho2. destruct (Ho o Ho2). nia.
Qed.

Lemma itemsize_known dt item : tensor_itemsizes !! dt = Some item → item = element_size dt.
Proof.
  intros (d & [= -> <-] & _)%elem_of_list_to_map_2%list_elem_of_fmap. done.
Qed.

(** A tensor handle whose bytes are in the store is rebuilt to a tensor that
    has them, and that [_tensor_blocks] knows. *)
Lemma rebuild_tensor_spec p h tb s :
  is_Some (tensor_itemsizes !! th_dtype h) → length (th_stride h) = length (th_shape h) →
  valid_handle s (to_handle h) →
  let tb' := <[addr p (th_block h) := Block name (th_block h)]> tb in
  let t := Tensor true true (th_dtype h) (th_shape h) (th_stride h) (addr p (th_block h)) (th_offset h)
             (BlockBase (Block name (th_block h))) true (th_grad h) in
  _rebuild_tensor name p h tb s = (Ok t, (tb', s)) ∧
  tensor_contents name p s t = carried_bytes s (to_handle h) ∧ sound p tb' s t.
Proof using H0.
  intros [item Hi] Hl ((_ & Hpos & Hsh) & _ & (data & n & Hb & Hn) & Hf) tb' t. simpl in *.
  pose proof (itemsize_known _ _ Hi) as ->. pose proof (element_size_pos (th_dtype h)) as He.
  destruct (fits_elements _ _ _ _ _ He Hf) as [Hfe Hlen]. split_and!.
  - unfold _rebuild_tensor. rewrite Hb, Hi.
    destruct (offsets_inhabited (th_shape h) (th_stride h) Hsh) as [o Ho]. specialize (Hlen o Ho).
    rewrite frombuffer_ok; [|done|by apply Z.div_str_pos; lia|by apply Z.mul_div_le].
    by rewrite as_strided_ok.
  - unfold tensor_contents, contents, carried_bytes. simpl. rewrite Hb. apply list_fmap_ext. intros i c _.
    unfold byte_at. simpl. rewrite decide_True, Hb by done. do 3 f_equal. lia.
  - split; [|split].
    + split; [|done]. eapply Forall_impl; [exact Hsh|]. simpl. lia.
    + intros b [= <-]. by exists data, n.
    + intros b. unfold tb', t. cbn [t_storage]. rewrite lookup_insert_eq. intros [= <-]. done.
Qed.

(** What may come of [reduce_tensor]. *)
Definition tensor_reduced (p : process) (t : tensor) (s : store)
    (r : res (option thandle) * store) : Prop :=
  r = (Ok None, s) ∨
  ∃ h s1, r = (Ok (Some h), s1) ∧ length (th_stride h) = length (th_shape h) ∧ valid_handle s1 (to_handle h) ∧
    th_dtype h = t_dtype t ∧ th_shape h = t_shape t ∧ th_grad h = t_grad t ∧
    carried_bytes s1 (to_handle h) = tensor_contents name p s t ∧
    (s1 = ShmQueue.share (th_block h) s ∧ _ndarray_block (as_array t) = Some (Block name (th_block h)) ∨
     th_block h = next_block s ∧
     s1 = Store (<[next_block s := (tensor_contents name p s t, 1%Z)]> (blocks s)) (S (next_block s))).

Context (store_min : Z) (room : store → Z → bool) (stale : store → Z → list byte).
Context (has_store : bool) (inline_max : Z).
Context (Hstale : ∀ s n, (0 ≤ n)%Z → Z.of_nat (length (stale s n)) = n).
Context (Hmin : (0 < store_min)%Z).

Lemma scale_cells item shape stride :
  (0 < item)%Z → Forall (λ n, 0 ≤ n)%Z shape → offsets shape stride = seqZ 0 (product shape) →
  cells item shape (scale item stride) = seqZ 0 (product shape * item).
Proof.
  intros Hi Hs Ho. unfold cells. rewrite scale_offsets, Ho, Z.mul_comm.
  rewrite <-seqZ_blocks by (lia || by apply product_nonneg).
  clear Ho. induction (seqZ 0 (product shape)) as [|j l IH]; [done|]. csimpl. rewrite IH. by rewrite Z.mul_comm.
Qed.

Lemma copy_tensor_reduced p t s :
  well_formed t → (0 < tensor_bytes t)%Z → numbered s → anchored name s (as_array t) →
  tensor_reduced p t s (copy_tensor name room stale p t s).
Proof using Hstale H0.
  intros Hw Hpos Hn Ha. pose proof (element_size_pos (t_dtype t)) as He. destruct Hw as [Hs Hl].
  pose proof (product_nonneg _ Hs) as Hp. unfold tensor_bytes, numel in *.
  assert (Forall (λ n, 0 < n)%Z (t_shape t)) as Hsh by (apply positive_shape; [done|nia]).
  unfold copy_tensor, alloc_block. destruct (room s (tensor_bytes t)); [|by left].
  set (b := next_block s). set (n := tensor_bytes t). set (s1 := Store (<[b := (stale s n, 1%Z)]> (blocks s)) (S b)).
  assert (block_len b s1 = n) as Hbl.
  { unfold block_len, s1. simpl. rewrite lookup_insert_eq. by apply Hstale; unfold n, tensor_bytes, numel; lia. }
  rewrite Hbl. rewrite <-(Z.mul_1_l n) at 1. rewrite frombuffer_all by (unfold n, tensor_bytes, numel; lia).
  assert (tensor_contents name p s1 t = tensor_contents name p s t) as ->.
  { apply contents_same. intros b' Hb'. destruct (Ha b' Hb') as (d & m & Hd & _). unfold s1. simpl.
    rewrite lookup_insert_ne; [done|]. intros <-. assert (is_Some (blocks s !! b)) as Hb%Hn by (by rewrite Hd).
    unfold b in Hb. lia. }
  pose proof (tensor_contents_length p s t (conj Hs Hl)) as Hlen. fold n in Hlen.
  assert (write_block b (write_cells (seqZ 0 n) (tensor_contents name p s t)) s1 =
          Store (<[b := (tensor_contents name p s t, 1%Z)]> (blocks s)) (S b)) as ->.
  { unfold write_block, s1. simpl. rewrite lookup_insert_eq. simpl. rewrite insert_insert_eq. do 3 f_equal.
    rewrite <-Hlen. apply write_cells_all. apply Nat2Z.inj. rewrite Hstale; [done|]. lia. }
  erewrite release_shared; [|simpl; apply lookup_insert_eq|lia].
  right. do 2 eexists. split; [reflexivity|]. unfold valid_handle, carried_bytes, block_len, fits. simpl.
  rewrite lookup_insert_eq. simpl. rewrite Hlen, scale_cells by (done || by apply contiguous_offsets).
  unfold scale. rewrite length_fmap, contiguous_length by done.
  split_and!; try done; [| | |by right].
  - do 2 eexists. split; [done|lia].
  - apply Forall_forall. intros c Hc%elem_of_seqZ. unfold n, tensor_bytes, numel. lia.
  - fold (numel t). fold (tensor_bytes t). fold n. rewrite <-Hlen. apply carried_all.
Qed.

Lemma reduce_tensor_spec p tb t s :
  sound p tb s t → numbered s →
  tensor_reduced p t s (reduce_tensor name store_min room stale p tb t s) ∧
  ∀ h s1, reduce_tensor name store_min room stale p tb t s = (Ok (Some h), s1) →
    raw_tensor t = true ∧ (store_min ≤ tensor_bytes t)%Z.
Proof using Hstale Hmin H0.
  intros ([Hs Hl] & Ha & Ht) Hn. unfold reduce_tensor.
  destruct (raw_tensor t && _) eqn:Hr; [|split; [by left|done]]. apply andb_true_iff in Hr as [Hraw Hbig%Z.leb_le].
  split; [|done]. simpl. pose proof (copy_tensor_reduced p t s (conj Hs Hl) ltac:(lia) Hn Ha) as Hc.
  destruct (tb !! t_storage t) as [[st b]|] eqn:Htb; [|exact Hc]. simpl.
  destruct (decide (st = name)) as [->|]; [|exact Hc].
  destruct (Ht b Htb) as (Hbase & Hst & Hf). assert (_ndarray_block (as_array t) = Some (Block name b)) as Hk.
  { unfold _ndarray_block. simpl. by rewrite Hbase. }
  destruct (Ha b Hk) as (data & n & Hb & Hpos). pose proof (element_size_pos (t_dtype t)) as He.
  pose proof (product_nonneg _ Hs) as Hp. unfold tensor_bytes, numel in *.
  assert (Forall (λ n, 0 < n)%Z (t_shape t)) as Hsh by (apply positive_shape; [done|nia]).
  right. do 2 eexists. split; [reflexivity|].
  replace (t_storage t + t_offset t * element_size (t_dtype t) - addr p b)%Z
    with (t_offset t * element_size (t_dtype t))%Z by lia. rewrite Z.div_mul by lia.
  rewrite (share_lookup b data n) by done. unfold valid_handle, carried_bytes, block_len. simpl.
  rewrite lookup_insert_eq. unfold block_len in Hf. rewrite Hb in Hf.
  split_and!; try done.
  - unfold scale. by rewrite length_fmap.
  - do 2 eexists. split; [done|lia].
  - unfold tensor_contents, contents. simpl. apply list_fmap_ext. intros i c _. unfold byte_at. rewrite Hbase. simpl.
    rewrite decide_True, Hb by done. do 3 f_equal. lia.
  - left. split; [symmetry; by apply share_lookup|exact Hk].
Qed.

Local Abbreviation reduce := (reduce name store_min room stale has_store inline_max).

(** C28: A tensor survives an edge whichever way it goes. Inline, its bytes make
    the same tensor again and the store is untouched; by the store, every
    process rebuilds the handle to a tensor of the same type, shape, bytes and
    gradient flag, and putting that one onward sends the same handle again,
    for one more reference and no copy. What is left to torch left the store
    alone; nothing raises, and the sender's tensor stays as it was. *)
Theorem tensor_roundtrip p tb t s :
  sound p tb s t → numbered s →
  ∃ r s1, reduce p tb t s = (Ok r, s1) ∧ numbered s1 ∧ value name p s1 t = value name p s t ∧
    match r with
    | ByStore h => ∀ p' tb', let tb1 := <[addr p' (th_block h) := Block name (th_block h)]> tb' in
        ∃ t', _rebuild_tensor name p' h tb' s1 = (Ok t', (tb1, s1)) ∧ value name p' s1 t' = value name p s t ∧
          sound p' tb1 s1 t' ∧ reduce p' tb1 t' s1 = (Ok (ByStore h), ShmQueue.share (th_block h) s1)
    | Inline buf dt shape g => s1 = s ∧ _rebuild_inline buf dt shape g = Ok (value name p s t)
    | ByTorch => s1 = s
    end.
Proof using Hstale Hmin H0.
  intros Hs Hn. pose proof Hs as (Hw & Ha & _). unfold ShmArrays.reduce at 1. destruct has_store eqn:Hst.
  2:{ destruct (_ && _); eexists _, s; (split; [reflexivity|]); split_and!; auto using inline_rebuilds. }
  destruct (reduce_tensor_spec p tb t s Hs Hn) as [[->|(h & s1 & Hr & Hl & Hv & Hd & Hsh & Hg & Hc & Hs1)] Hraw].
  { destruct (_ && _); eexists _, s; (split; [reflexivity|]); split_and!; auto using inline_rebuilds. }
  destruct (Hraw h s1 Hr) as [Hrt Hbig]. rewrite Hr. exists (ByStore h), s1. split; [done|].
  destruct (reduced_store name p (as_array t) s (to_handle h) s1 Hn Ha Hs1) as [Hn1 Hsame]. split; [done|split].
  { unfold value. f_equal. by apply contents_same. }
  intros p' tb'.
  assert (is_Some (tensor_itemsizes !! th_dtype h)) as Hdt.
  { rewrite Hd. revert Hrt. unfold raw_tensor. rewrite !andb_true_iff, bool_decide_eq_true. tauto. }
  destruct (rebuild_tensor_spec p' h tb' s1 Hdt Hl Hv) as (Hb & Hcon & Hso). eexists. split; [exact Hb|].
  split; [|split; [exact Hso|]].
  { unfold value. rewrite Hcon, Hc. simpl. by rewrite Hd, Hsh, Hg. }
  unfold ShmArrays.reduce, reduce_tensor, raw_tensor, tensor_bytes, numel. simpl.
  rewrite bool_decide_true by done. simpl. unfold tensor_bytes, numel in Hbig. rewrite Hd, Hsh.
  rewrite (proj2 (Z.leb_le _ _)) by done. simpl. rewrite <-Hd.
  rewrite lookup_insert_eq. simpl. rewrite decide_True by done. do 3 f_equal.
  replace (addr p' (th_block h) + th_offset h * element_size (th_dtype h) - addr p' (th_block h))%Z
    with (th_offset h * element_size (th_dtype h))%Z by lia.
  pose proof (element_size_pos (th_dtype h)). rewrite Z.div_mul by lia. by destruct h; simpl in *; subst.
Qed.
End tensors_spec.

(** ** Concrete arrays *)

Module ArraysDemo.
Definition solidb (d : dtype) (shape : list Z) : bool :=
  negb (hasobject d) && (0 <? itemsize d)%Z && forallb (λ n, 0 <? n)%Z shape.
Definition within (len item : Z) (shape strides : list Z) (off : Z) : bool :=
  forallb (λ c, (0 <=? off + c) && (off + c <? len))%Z (cells item shape strides).

#[local] Instance numpy : ArrayLib := {|
  np_view len d shape off st :=
    if solidb d shape then
      match st with
      | Some st => if within len (itemsize d) shape st off then Ok st else Raise ValueError
      | None => if (itemsize d * product shape <=? len)%Z then Ok (c_strides (itemsize d) shape) else Raise TypeError
      end
    else Raise ValueError
|}.

Lemma solid_decides d shape : solidb d shape = true ↔ solid d shape.
Proof.
  unfold solidb, solid. rewrite !andb_true_iff, negb_true_iff, Z.ltb_lt, forallb_forall, Forall_forall.
  setoid_rewrite list_elem_of_In. setoid_rewrite Z.ltb_lt. tauto.
Qed.

Lemma within_decides len item shape strides off :
  within len item shape strides off = true ↔ fits len item shape strides off.
Proof.
  unfold within, fits. rewrite forallb_forall, Forall_forall. setoid_rewrite list_elem_of_In.
  split; intros Hf c Hc%Hf; [apply andb_true_iff in Hc as [?%Z.leb_le ?%Z.ltb_lt]; lia|].
  apply andb_true_iff. rewrite Z.leb_le, Z.ltb_lt. lia.
Qed.

#[local] Instance numpy_laws : ArrayLaws.
Proof.
  split.
  - intros len d shape off strides st. simpl. destruct (solidb d shape); [|done].
    destruct (within _ _ _ _ _) eqn:Hw; [|done]. intros [= <-]. split; [done|by apply within_decides].
  - intros len d shape off strides Hs%solid_decides _ Hf%within_decides. simpl. by rewrite Hs, Hf.
  - intros len d shape Hs%solid_decides Hl%Z.leb_le. simpl. by rewrite Hs, Hl.
  - intros len d shape off st. simpl. destruct (solidb d shape), st; repeat case_match; naive_solver.
Qed.

#[local] Instance torch : TensorLib := {|
  element_size dt := (if decide (dt = "torch.float32"%string) then 4 else if decide (dt = "torch.int16"%string) then 2 else 1)%Z;
  frombuffer len item count :=
    let n := default (len / item)%Z count in
    if (0 <? n)%Z && (item * n <=? len)%Z && bool_decide (is_Some count ∨ len mod item = 0)%Z then Ok n else Raise ValueError;
  as_strided count shape stride off := if within count 1 shape stride off then Ok tt else Raise RuntimeError;
  contiguous shape _ := c_strides 1 shape;
|}.

#[local] Instance torch_laws : TensorLaws.
Proof.
  split.
  - intros dt. simpl. repeat case_match; lia.
  - intros len item count Hi Hc Hl. cbn [frombuffer torch default]. rewrite (proj2 (Z.ltb_lt _ _)), (proj2 (Z.leb_le _ _)) by done.
    rewrite bool_decide_true; [done|]. by left.
  - intros item n Hi Hn. cbn [frombuffer torch default]. rewrite (Z.mul_comm item), Z.div_mul by lia.
    rewrite (proj2 (Z.ltb_lt _ _)), (proj2 (Z.leb_le _ _)) by lia.
    rewrite bool_decide_true; [done|]. right. by apply Z_mod_mult.
  - intros count shape stride off _ _ Hf%within_decides. simpl. by rewrite Hf.
  - intros shape stride _. apply c_strides_length.
  - intros shape stride Hs _. simpl. rewrite c_offsets by done. rewrite <-(list_fmap_id (seqZ 0 (product shape))) at 2.
    apply list_fmap_ext. intros _ j _. simpl. lia.
Qed.

(** A process with some bytes at 100, which maps block [b] at [1000 (b + 1)]. *)
Definition bare_process (bytes : list byte) : process :=
  Process (λ z, default x00 (bytes !! Z.to_nat (z - 100))) (λ b, 1000 * (Z.of_nat b + 1))%Z.
Definition p0 : process := bare_process [x41; x42; x43; x44; x45; x46].
Definition p1 : process := bare_process [].
Definition stale (s : store) (n : Z) : list byte := replicate (Z.to_nat n) x00.
Definition room (s : store) (n : Z) : bool := (n <=? 100)%Z.
Lemma stale_length (s : store) n : (0 ≤ n)%Z → Z.of_nat (length (stale s n)) = n.
Proof. intros Hn. unfold stale. rewrite length_replicate. lia. Qed.

(** A transposed 3x2 array of bytes, in the process's own memory. *)
Definition bytes_dtype : dtype := Dtype 1 false "uint8".
Definition transposed : ndarray := NdArray bytes_dtype [2; 3]%Z [1; 2]%Z 100 NoBase true.
Definition empty_store : store := Store ∅ 0.

Lemma transposed_anchored : well_shaped transposed ∧ numbered empty_store ∧ anchored "S" empty_store transposed.
Proof.
  split_and!; [split_and!; [done|repeat constructor; done|done]|by intros b [? ?]|by intros b ?].
Qed.

Lemma ndarray_roundtrip_witness : ∃ h s1,
  reduce_ndarray "S" 4 room stale p0 transposed empty_store = (Ok (Some h), s1) ∧
  ∃ a, _rebuild_ndarray "S" p1 h s1 = (Ok a, s1) ∧ contents "S" p1 s1 a = [x41; x43; x45; x42; x44; x46].
Proof.
  destruct transposed_anchored as (Hw & Hn & Ha).
  pose proof (ndarray_roundtrip "S" 4 room stale stale_length ltac:(done) p0 transposed empty_store Hw Hn Ha) as H.
  destruct H as [H|(h & s1 & Hr & Hb & _)]; [vm_compute in H; discriminate H|].
  destruct (Hb p1) as (a & Ha' & _ & _ & _ & Hc & _). exists h, s1. split; [exact Hr|].
  exists a. split; [exact Ha'|]. rewrite Hc. vm_compute. reflexivity.
Defined.

Lemma one_copy_for_all_hops_witness :
  let s' := Store {[ 0%nat := ([x41; x43; x45; x42; x44; x46], 1%Z) ]} 1 in
  ∃ a, hops "S" 4 room stale p0 transposed [p1; p0; p1] empty_store = (Ok (Some a), s') ∧
       contents "S" p1 s' a = [x41; x43; x45; x42; x44; x46].
Proof.
  destruct transposed_anchored as (Hw & Hn & Ha).
  destruct (one_copy_for_all_hops "S" 4 room stale stale_length ltac:(done) p0 p1 [p0; p1] transposed empty_store
              (conj Hw eq_refl) Hn ltac:(done) eq_refl) as (a & Hr & Hc & _).
  exists a. split; [exact Hr|exact Hc].
Defined.

(** A slice of a tensor of 16-bit integers that a block holds, in a process
    that rebuilt it. *)
Definition held : store := Store {[ 0%nat := ([x00; x01; x02; x03; x04; x05; x06; x07], 1%Z) ]} 1.
Definition blk : block := Block "S" 0.
Definition slice : tensor := Tensor true true "torch.int16" [2]%Z [2]%Z 1000 1 (BlockBase blk) true false.
Definition known : tensor_blocks := {[ 1000%Z := blk ]}.

Lemma slice_sound : sound "S" p1 known held slice ∧ numbered held.
Proof.
  split; [split; [|split]|].
  - split; [repeat constructor; done|done].
  - intros b [= <-]. by do 2 eexists.
  - intros b. unfold known. cbn [t_storage slice]. rewrite lookup_singleton_eq. intros [= <-].
    split_and!; [done|done|]. apply within_decides. vm_compute. reflexivity.
  - intros b. unfold held. simpl. intros [x [<- _]%lookup_singleton_Some]. lia.
Qed.

Lemma tensor_roundtrip_witness : ∃ h t',
  reduce "S" 4 room stale true 100 p1 known slice held = (Ok (ByStore h), ShmQueue.share 0 held) ∧
  value "S" p0 (ShmQueue.share 0 held) t' = TValue "torch.int16" [2]%Z false [x02; x03; x06; x07].
Proof.
  destruct slice_sound as [Hs Hn].
  pose proof (tensor_roundtrip "S" 4 room stale true 100 stale_length ltac:(done) p1 known slice held Hs Hn) as H.
  destruct H as (r & s1 & Hr & _ & _ & Hm). exists (THandle 0 "torch.int16" [2]%Z [2]%Z 1 false).
  assert (reduce "S" 4 room stale true 100 p1 known slice held =
    (Ok (ByStore (THandle 0 "torch.int16" [2]%Z [2]%Z 1 false)), ShmQueue.share 0 held)) as Hr' by (vm_compute; reflexivity).
  rewrite Hr' in Hr. injection Hr as <- <-. destruct (Hm p0 ∅) as (t' & _ & Hv & _). exists t'.
  split; [exact Hr'|]. rewrite Hv. vm_compute. reflexivity.
Defined.
End ArraysDemo.
