(* ===== verification/BlockStore.v ===== *)
(** * The payload store's allocator (rust/src/store.rs)

    The blocks behind [ShmQueue] and [ShmArrays]: a control segment with size
    class free lists threaded through the headers of the free blocks, regular
    segments carved from their start, and a segment of its own for a block too
    big for that. [alloc] under the lock, [share], and the drop of a [Block]
    are one step each. u64 values are [Z]; what they stay below is proved. *)
From S2P Require Import Prelude.
From stdpp Require Import functions.

Definition CTL_NONE : Z := 2 ^ 64 - 1.           (* u64::MAX *)
Definition BLK_HDR : Z := 64.
Definition MIN_BLOCK : Z := 4096.
Definition NCLASS : Z := 64.
Definition MAX_CLASS_BLOCK : Z := 2 ^ 26.
Definition DEDICATED_ALIGN : Z := 2 ^ 16.

Definition pack (seg off : Z) : Z := Z.lor (Z.shiftl seg 40) off.
Definition unpack (p : Z) : Z * Z := (Z.shiftr p 40, Z.land p (2 ^ 40 - 1)).

(** [class_of]; [63 - x.leading_zeros()] is the binary logarithm of a positive
    u64. *)
Definition class_of (total : Z) : Z * Z :=
  if (total <=? MIN_BLOCK)%Z then (0, MIN_BLOCK)%Z
  else
    let p := Z.log2 (total - 1) in
    let step := Z.shiftl 1 (p - 2) in
    let k := ((total - 1 - Z.shiftl 1 p) / step)%Z in
    ((p - 12) * 4 + k + 1, Z.shiftl 1 p + (k + 1) * step)%Z.

Record hdr := Hdr { rc : Z; h_class : Z; h_len : Z; h_next : Z }.

Record ctl := Ctl {
  limit : Z;
  seg_bytes : Z;
  nreg : Z;
  nded : Z;
  cur : Z;                    (* CTL_NONE: none *)
  bump : Z;
  used : Z;
  free : gmap Z Z;            (* heads by class; absent is 0 *)
}.

(** Segments are named by their number and their kind. *)
Abbreviation segment := (Z * bool)%type.
Abbreviation handle := (Z * Z * bool)%type.

(** The control segment, the headers in the segments, and the segments that
    have a name. *)
Record core := Core { c_ctl : ctl; c_hdrs : gmap handle hdr; c_segs : gset segment }.

Definition max_class_block (c : ctl) : Z := Z.min MAX_CLASS_BLOCK (seg_bytes c / 4).
Definition next_multiple (n d : Z) : Z := ((n + d - 1) / d * d)%Z.

(** [Store(limit_bytes, seg_bytes)]. *)
Definition new_ctl (limit_bytes seg : Z) : ctl :=
  Ctl limit_bytes (next_multiple (Z.max seg (MIN_BLOCK * 16)) DEDICATED_ALIGN) 0 0 CTL_NONE 0 0 ∅.
Definition new_core (limit_bytes seg : Z) : core := Core (new_ctl limit_bytes seg) ∅ ∅.

Definition head (c : ctl) (cls : Z) : Z := default 0%Z (free c !! cls).
Definition set_head (cls p : Z) (c : ctl) : ctl :=
  Ctl (limit c) (seg_bytes c) (nreg c) (nded c) (cur c) (bump c) (used c) (<[cls := p]> (free c)).
Definition set_bump (b : Z) (c : ctl) : ctl :=
  Ctl (limit c) (seg_bytes c) (nreg c) (nded c) (cur c) b (used c) (free c).
Definition add_used (n : Z) (c : ctl) : ctl :=
  Ctl (limit c) (seg_bytes c) (nreg c) (nded c) (cur c) (bump c) (used c + n) (free c).
Definition set_nreg (n : Z) (c : ctl) : ctl :=
  Ctl (limit c) (seg_bytes c) n (nded c) (cur c) (bump c) (used c) (free c).
Definition set_nded (n : Z) (c : ctl) : ctl :=
  Ctl (limit c) (seg_bytes c) (nreg c) n (cur c) (bump c) (used c) (free c).
Definition set_cur (id b : Z) (c : ctl) : ctl :=
  Ctl (limit c) (seg_bytes c) (nreg c) (nded c) id b (used c) (free c).
Definition with_ctl (f : ctl → ctl) (s : core) : core := Core (f (c_ctl s)) (c_hdrs s) (c_segs s).

Section store.
(** [shm_map(name, Some(size))]: is there shared memory for another segment of
    so many bytes? *)
Context (mappable : core → Z → bool).

(** A regular segment, inside the lock of [alloc]: whether the limit allows
    it, and making it. *)
Definition grow_refused (s : core) : bool := (limit (c_ctl s) <? used (c_ctl s) + seg_bytes (c_ctl s))%Z.
Definition grow_commit (size : Z) (s : core) : option (Z * Z) * core :=
  let c := c_ctl s in
  let id := nreg c in
  let s1 := with_ctl (set_nreg (id + 1)) s in
  if negb (mappable s1 (seg_bytes c)) then (None, with_ctl (set_nreg id) s1)
  else
    (Some (id, 0%Z),
     Core (set_cur id size (add_used (seg_bytes c) (c_ctl s1))) (c_hdrs s1) ({[ (id, false) ]} ∪ c_segs s1)).
Definition grow (size : Z) (s : core) : option (Z * Z) * core :=
  if grow_refused s then (None, s) else grow_commit size s.

(** What [alloc] does inside the lock. *)
Definition take (cls size : Z) (s : core) : option (Z * Z) * core :=
  let c := c_ctl s in
  if negb (head c cls =? 0)%Z then
    let '(seg, off) := unpack (head c cls - 1) in
    let next := match c_hdrs s !! (seg, off, false) with Some h => h_next h | None => 0%Z end in
    (Some (seg, off), with_ctl (set_head cls next) s)
  else if negb (cur c =? CTL_NONE)%Z && (bump c + size <=? seg_bytes c)%Z then
    (Some (cur c, bump c), with_ctl (set_bump (bump c + size)) s)
  else grow size s.

(** The header of a block handed out: one reference; [next] keeps its value. *)
Definition new_hdr (cls n : Z) (b : handle) (s : core) : core :=
  let next := match c_hdrs s !! b with Some h => h_next h | None => 0%Z end in
  Core (c_ctl s) (<[b := Hdr 1 cls n next]> (c_hdrs s)) (c_segs s).

Definition DEDICATED_CLASS : Z := 2 ^ 32 - 1.

Definition dedicated_size (n : Z) : Z := ((BLK_HDR + n + DEDICATED_ALIGN - 1) / DEDICATED_ALIGN * DEDICATED_ALIGN)%Z.

Definition alloc_dedicated (n : Z) (s : core) : option handle * core :=
  let size := dedicated_size n in
  let s1 := with_ctl (add_used size) s in
  if (limit (c_ctl s) <? used (c_ctl s) + size)%Z then (None, with_ctl (add_used (- size)) s1)
  else
    let id := nded (c_ctl s1) in
    let s2 := with_ctl (set_nded (id + 1)) s1 in
    if negb (mappable s2 size) then (None, with_ctl (add_used (- size)) s2)
    else
      let s3 := Core (c_ctl s2) (c_hdrs s2) ({[ (id, true) ]} ∪ c_segs s2) in
      (Some (id, 0, true)%Z, new_hdr DEDICATED_CLASS n (id, 0, true)%Z s3).

Definition alloc (n : Z) (s : core) : option handle * core :=
  let total := (BLK_HDR + n)%Z in
  if (max_class_block (c_ctl s) <? total)%Z then alloc_dedicated n s
  else
    let '(cls, size) := class_of total in
    match take cls size s with
    | (Some (seg, off), s) => (Some (seg, off, false), new_hdr cls n (seg, off, false) s)
    | (None, s) => (None, s)
    end.

(** [blk.share()]. *)
Definition share (b : handle) (s : core) : core :=
  match c_hdrs s !! b with
  | Some h => Core (c_ctl s) (<[b := Hdr (rc h + 1) (h_class h) (h_len h) (h_next h)]> (c_hdrs s)) (c_segs s)
  | None => s
  end.

(** The bytes of the segment of a dedicated block. *)
Definition segment_len (h : hdr) : Z := dedicated_size (h_len h).

(** [Drop for Block]. *)
Definition drop (b : handle) (s : core) : core :=
  match c_hdrs s !! b with
  | None => s
  | Some h =>
      let h1 := Hdr (rc h - 1) (h_class h) (h_len h) (h_next h) in
      let s1 := Core (c_ctl s) (<[b := h1]> (c_hdrs s)) (c_segs s) in
      if negb (rc h =? 1)%Z then s1
      else
        let '(seg, off, dedicated) := b in
        if dedicated then
          Core (add_used (- segment_len h) (c_ctl s1)) (delete b (c_hdrs s1)) (c_segs s1 ∖ {[ (seg, true) ]})
        else
          let cls := h_class h in
          let h2 := Hdr 0 cls (h_len h) (head (c_ctl s1) cls) in
          Core (set_head cls (pack seg off + 1) (c_ctl s1)) (<[b := h2]> (c_hdrs s1)) (c_segs s1)
  end.

(** [store.unlink()]. *)
Definition unlink_all (s : core) : core :=
  Core (c_ctl s) (c_hdrs s)
    (filter (λ '(id, d), ¬ (0 ≤ id < if (d : bool) then nded (c_ctl s) else nreg (c_ctl s))%Z) (c_segs s)).
End store.

(** ** Size classes and packed handles *)

(** The bytes of the blocks of a class. *)
Definition class_size (cls : Z) : Z :=
  if (cls =? 0)%Z then MIN_BLOCK
  else (2 ^ (12 + (cls - 1) / 4) + ((cls - 1) mod 4 + 1) * 2 ^ (10 + (cls - 1) / 4))%Z.

Lemma unpack_pack seg off : (0 ≤ seg)%Z → (0 ≤ off < 2 ^ 40)%Z → unpack (pack seg off) = (seg, off).
Proof.
  intros Hs Ho. unfold unpack, pack. replace (2 ^ 40 - 1)%Z with (Z.ones 40) by done.
  rewrite Z.shiftr_lor, Z.shiftr_shiftl_l, Z.land_lor_distr_l, !Z.land_ones, (Z.shiftl_mul_pow2 seg 40), Z.mod_mul by lia.
  rewrite (Z.shiftr_div_pow2 off), Z.div_small, Z.mod_small by lia. rewrite Z.lor_0_r, Z.lor_0_l.
  done.
Qed.

Lemma pack_pos seg off : (0 ≤ seg)%Z → (0 ≤ off)%Z → (0 ≤ pack seg off)%Z.
Proof. intros Hs Ho. unfold pack. apply Z.lor_nonneg. split; [by apply Z.shiftl_nonneg|done]. Qed.

(** [class_of] of a block larger than the smallest. *)
Lemma class_of_large total :
  (MIN_BLOCK < total)%Z →
  ∃ p k, (12 ≤ p)%Z ∧ (0 ≤ k ≤ 3)%Z ∧ (2 ^ p < total ≤ 2 ^ (p + 1))%Z ∧
    class_of total = ((p - 12) * 4 + k + 1, 2 ^ p + (k + 1) * 2 ^ (p - 2))%Z ∧
    (2 ^ p + k * 2 ^ (p - 2) < total ≤ 2 ^ p + (k + 1) * 2 ^ (p - 2))%Z.
Proof.
  intros Ht. unfold MIN_BLOCK in *. set (p := Z.log2 (total - 1)). destruct (Z.log2_spec (total - 1)) as [Hlo Hhi]; [lia|].
  fold p in Hlo, Hhi. assert (12 ≤ p)%Z as Hp by (apply (Z.log2_le_mono 4096); lia).
  assert (2 ^ p = 4 * 2 ^ (p - 2))%Z as H4.
  { replace p with (2 + (p - 2))%Z at 1 by lia. by rewrite Z.pow_add_r by lia. }
  assert (2 ^ Z.succ p = 2 * 2 ^ p)%Z as H2 by (apply Z.pow_succ_r; lia).
  assert (0 < 2 ^ (p - 2))%Z as Hs by (apply Z.pow_pos_nonneg; lia).
  set (k := ((total - 1 - 2 ^ p) / 2 ^ (p - 2))%Z).
  pose proof (Z.div_mod (total - 1 - 2 ^ p) (2 ^ (p - 2)) ltac:(lia)) as Hdm. fold k in Hdm.
  pose proof (Z.mod_pos_bound (total - 1 - 2 ^ p) (2 ^ (p - 2)) Hs) as Hm.
  exists p, k. replace (p + 1)%Z with (Z.succ p) by lia. split_and!; try nia.
  - unfold class_of, MIN_BLOCK. rewrite (proj2 (Z.leb_gt _ _)) by lia. fold p. cbv zeta.
    rewrite !Z.shiftl_mul_pow2 by lia. rewrite !Z.mul_1_l. fold k. done.
Qed.

Lemma class_of_spec total :
  (0 < total ≤ MAX_CLASS_BLOCK)%Z →
  let '(cls, size) := class_of total in
  (total ≤ size)%Z ∧ size = class_size cls ∧ (0 ≤ cls < NCLASS)%Z ∧
  (size = MIN_BLOCK ∨ 4 * (size - total) < total)%Z.
Proof.
  intros Ht. unfold MAX_CLASS_BLOCK, NCLASS in *. destruct (Z.le_gt_cases total MIN_BLOCK) as [Hle|Hgt].
  { unfold class_of. rewrite (proj2 (Z.leb_le _ _)) by done. split_and!; try done; lia. }
  destruct (class_of_large total Hgt) as (p & k & Hp & Hk & Hb & -> & Hf).
  assert (2 ^ p = 4 * 2 ^ (p - 2))%Z as H4.
  { replace p with (2 + (p - 2))%Z at 1 by lia. by rewrite Z.pow_add_r by lia. }
  assert (p < 26)%Z as Hp26.
  { apply (Z.pow_lt_mono_r_iff 2); lia. }
  split_and!; try lia.
  unfold class_size. rewrite (proj2 (Z.eqb_neq _ _)) by lia.
  replace ((p - 12) * 4 + k + 1 - 1)%Z with (k + (p - 12) * 4)%Z by lia.
  rewrite Z.div_add, Z.mod_add by lia. rewrite Z.div_small, Z.mod_small by lia.
  replace (12 + (0 + (p - 12)))%Z with p by lia. by replace (10 + (0 + (p - 12)))%Z with (p - 2)%Z by lia.
Qed.

(** C30: A block of a size class holds what was asked for and wastes less than a
    quarter of what was asked, above the smallest size; the class says how large the block
    is, whatever was asked for, and is one of the [NCLASS] lists. *)
Theorem class_of_fits total total' :
  (0 < total ≤ MAX_CLASS_BLOCK)%Z → (0 < total' ≤ MAX_CLASS_BLOCK)%Z →
  let '(cls, size) := class_of total in
  (total ≤ size)%Z ∧ (0 ≤ cls < NCLASS)%Z ∧ (size = MIN_BLOCK ∨ 4 * (size - total) < total)%Z ∧
  ((class_of total').1 = cls → (class_of total').2 = size).
Proof.
  intros Ht Ht'. pose proof (class_of_spec total Ht) as H. pose proof (class_of_spec total' Ht') as H'.
  destruct (class_of total) as [cls size], (class_of total') as [cls' size'].
  destruct H as (? & -> & ? & ?), H' as (_ & -> & _). split_and!; try done; [lia..|]. by intros [= ->].
Qed.

(** ** What the store holds *)

Definition weight (b : handle) (h : hdr) : Z := if b.2 then dedicated_size (h_len h) else 0%Z.
Definition dedicated_total (hs : gmap handle hdr) : Z := map_fold (λ b h n, weight b h + n)%Z 0%Z hs.

Lemma total_insert b h hs :
  hs !! b = None → dedicated_total (<[b := h]> hs) = (weight b h + dedicated_total hs)%Z.
Proof. intros Hb. unfold dedicated_total. apply (map_fold_insert_L (λ b h n, weight b h + n)%Z 0%Z b h hs); [|done].
  intros. lia. Qed.

Lemma total_delete b h hs :
  hs !! b = Some h → dedicated_total hs = (weight b h + dedicated_total (delete b hs))%Z.
Proof. intros Hb. unfold dedicated_total. apply (map_fold_delete_L (λ b h n, weight b h + n)%Z 0%Z b h hs); [|done].
  intros. lia. Qed.

Lemma total_update b h h' hs :
  hs !! b = Some h → weight b h' = weight b h → dedicated_total (<[b := h']> hs) = dedicated_total hs.
Proof.
  intros Hb Hw. rewrite (total_delete b h hs Hb), <-insert_delete_eq, total_insert by apply lookup_delete_eq. lia.
Qed.

Lemma dedicated_size_nonneg n : (0 ≤ n)%Z → (BLK_HDR + n ≤ dedicated_size n)%Z.
Proof.
  intros Hn. unfold dedicated_size, BLK_HDR, DEDICATED_ALIGN.
  pose proof (Z.div_mod (64 + n + 2 ^ 16 - 1) (2 ^ 16) ltac:(lia)).
  pose proof (Z.mod_pos_bound (64 + n + 2 ^ 16 - 1) (2 ^ 16) ltac:(lia)). lia.
Qed.

(** The free list of a class, through the [next] of the headers. *)
Fixpoint chain (hs : gmap handle hdr) (cls p : Z) (l : list (Z * Z)) : Prop :=
  match l with
  | [] => p = 0%Z
  | (seg, off) :: l =>
      p = (pack seg off + 1)%Z ∧
      ∃ h, hs !! (seg, off, false) = Some h ∧ h_class h = cls ∧ rc h = 0%Z ∧ chain hs cls (h_next h) l
  end.

(** The bytes a block of a regular segment takes. *)
Definition block_end (off : Z) (h : hdr) : Z := (off + class_size (h_class h))%Z.

Record inv (s : core) (fl : Z → list (Z * Z)) : Prop := {
  i_seg : (2 ^ 16 ≤ seg_bytes (c_ctl s))%Z;
  i_limit : (0 ≤ limit (c_ctl s) < 2 ^ 40)%Z;
  i_counts : (0 ≤ nreg (c_ctl s) ∧ 0 ≤ nded (c_ctl s))%Z;
  i_used : used (c_ctl s) = (nreg (c_ctl s) * seg_bytes (c_ctl s) + dedicated_total (c_hdrs s))%Z;
  i_cap : (used (c_ctl s) ≤ limit (c_ctl s))%Z;
  i_cur : cur (c_ctl s) = CTL_NONE ∨
    (0 ≤ cur (c_ctl s) < nreg (c_ctl s) ∧ 0 ≤ bump (c_ctl s) ≤ seg_bytes (c_ctl s))%Z;
  i_carved seg off h : c_hdrs s !! (seg, off, false) = Some h →
    (0 ≤ seg < nreg (c_ctl s))%Z ∧ (0 ≤ off)%Z ∧ (block_end off h ≤ seg_bytes (c_ctl s))%Z ∧
    (seg = cur (c_ctl s) → block_end off h ≤ bump (c_ctl s))%Z ∧ (0 ≤ h_class h < NCLASS)%Z ∧
    (0 ≤ rc h)%Z ∧ (0 ≤ h_len h)%Z ∧ (BLK_HDR + h_len h ≤ class_size (h_class h))%Z;
  i_disjoint seg o1 o2 h1 h2 : o1 ≠ o2 →
    c_hdrs s !! (seg, o1, false) = Some h1 → c_hdrs s !! (seg, o2, false) = Some h2 →
    (block_end o1 h1 ≤ o2 ∨ block_end o2 h2 ≤ o1)%Z;
  i_dedicated id off h : c_hdrs s !! (id, off, true) = Some h →
    off = 0%Z ∧ (0 ≤ id < nded (c_ctl s))%Z ∧ (0 < rc h)%Z ∧ (0 ≤ h_len h)%Z;
  i_chain cls : chain (c_hdrs s) cls (head (c_ctl s) cls) (fl cls);
  i_nodup cls : NoDup (fl cls);
  i_freed seg off h : c_hdrs s !! (seg, off, false) = Some h → rc h = 0%Z → (seg, off) ∈ fl (h_class h);
  i_regular id : (id, false) ∈ c_segs s ↔ (0 ≤ id < nreg (c_ctl s))%Z;
  i_named id : (id, true) ∈ c_segs s ↔ is_Some (c_hdrs s !! (id, 0%Z, true));
}.

Lemma class_size_pos cls : (0 ≤ cls)%Z → (0 < class_size cls)%Z.
Proof.
  intros Hc. unfold class_size, MIN_BLOCK. destruct (Z.eqb_spec cls 0); [lia|].
  pose proof (Z.div_pos (cls - 1) 4 ltac:(lia) ltac:(lia)). pose proof (Z.mod_pos_bound (cls - 1) 4 ltac:(lia)).
  pose proof (Z.pow_pos_nonneg 2 (12 + (cls - 1) / 4) ltac:(lia) ltac:(lia)).
  pose proof (Z.pow_pos_nonneg 2 (10 + (cls - 1) / 4) ltac:(lia) ltac:(lia)). nia.
Qed.

Lemma total_nonneg hs :
  (∀ id off h, hs !! (id, off, true) = Some h → (0 ≤ h_len h)%Z) → (0 ≤ dedicated_total hs)%Z.
Proof.
  induction hs as [|b h hs Hb IH] using map_ind; [done|]. intros Hl. rewrite total_insert by done.
  enough (0 ≤ weight b h ∧ 0 ≤ dedicated_total hs)%Z by lia. split.
  - destruct b as [[id off] d]. unfold weight. simpl. destruct d; [|done].
    pose proof (dedicated_size_nonneg (h_len h)) as Hd. unfold BLK_HDR in Hd.
    specialize (Hl id off h (lookup_insert_eq _ _ _)). lia.
  - apply IH. intros id off h' Hh. apply (Hl id off h'). rewrite lookup_insert_ne; [done|]. intros ->. congruence.
Qed.

(** Handles of regular blocks survive packing. *)
Lemma carved_packs s fl seg off h :
  inv s fl → c_hdrs s !! (seg, off, false) = Some h →
  unpack (pack seg off + 1 - 1) = (seg, off) ∧ (pack seg off + 1 ≠ 0)%Z ∧ (seg < 2 ^ 24)%Z.
Proof.
  intros I Hh. destruct (i_carved _ _ I _ _ _ Hh) as (Hs & Ho & He & _ & Hc & _).
  pose proof (class_size_pos (h_class h) ltac:(lia)) as Hp. unfold block_end in He.
  pose proof (i_used _ _ I) as Hu. pose proof (i_cap _ _ I). pose proof (i_limit _ _ I). pose proof (i_seg _ _ I).
  assert (0 ≤ dedicated_total (c_hdrs s))%Z.
  { apply total_nonneg. intros id o h' Hh'. by destruct (i_dedicated _ _ I _ _ _ Hh') as (_ & _ & _ & ?). }
  assert (nreg (c_ctl s) * 2 ^ 16 < 2 ^ 40)%Z by nia. assert (seg_bytes (c_ctl s) < 2 ^ 40)%Z by nia.
  replace (pack seg off + 1 - 1)%Z with (pack seg off) by lia. split_and!; [apply unpack_pack; lia| |lia].
  pose proof (pack_pos seg off). lia.
Qed.

(** ** Every step keeps it *)

Ltac headers := repeat match goal with
  | H : <[_ := _]> _ !! _ = Some _ |- _ => apply lookup_insert_Some in H as [[? ?]|[? ?]]; simplify_eq/=
  | H : delete _ _ !! _ = Some _ |- _ => apply lookup_delete_Some in H as [? ?]
  end.

Lemma chain_ext hs hs' cls l : ∀ p,
  (∀ seg off, (seg, off) ∈ l → hs' !! (seg, off, false) = hs !! (seg, off, false)) →
  chain hs cls p l → chain hs' cls p l.
Proof.
  induction l as [|[seg off] l IH]; intros p Hs; simpl; [done|]. intros [Hp (h & Hh & Hc & Hr & Hl)].
  split; [done|]. exists h. rewrite Hs by set_solver. split_and!; try done. apply IH; [|done]. set_solver.
Qed.

Lemma chain_free hs cls l : ∀ p seg off,
  chain hs cls p l → (seg, off) ∈ l → ∃ h, hs !! (seg, off, false) = Some h ∧ h_class h = cls ∧ rc h = 0%Z.
Proof.
  induction l as [|[seg off] l IH]; intros p s o; simpl; [set_solver|].
  intros [_ (h & Hh & Hc & Hr & Hl)] [[= -> ->]|Hin]%elem_of_cons; [by exists h|by eapply IH].
Qed.

(** A block in use is on no free list. *)
Lemma in_use_not_free s fl seg off h cls :
  inv s fl → c_hdrs s !! (seg, off, false) = Some h → (0 < rc h)%Z → (seg, off) ∉ fl cls.
Proof.
  intros I Hh Hr Hin. destruct (chain_free _ _ _ _ _ _ (i_chain _ _ I cls) Hin) as (h' & Hh' & _ & Hz).
  rewrite Hh in Hh'. injection Hh' as <-. lia.
Qed.

(** References of a block in use come and go. *)
Lemma inv_refcount s fl b h r :
  inv s fl → c_hdrs s !! b = Some h → (0 < rc h)%Z → (0 < r)%Z →
  inv (Core (c_ctl s) (<[b := Hdr r (h_class h) (h_len h) (h_next h)]> (c_hdrs s)) (c_segs s)) fl.
Proof.
  intros I Hb Hrc Hr. split; simpl; try apply I.
  - rewrite (total_update b h) by done. apply I.
  - intros seg off h' Hh'. headers; [|by apply I].
    destruct (i_carved _ _ I _ _ _ Hb) as (? & ? & ? & ? & ? & ? & ? & ?). split_and!; try done; lia.
  - intros seg o1 o2 h1 h2 Hne H1 H2. headers; unfold block_end; simpl; try by eapply (i_disjoint _ _ I).
  - intros id off h' Hh'. headers; [|by apply (i_dedicated _ _ I) in H0].
    destruct (i_dedicated _ _ I _ _ _ Hb) as (? & ? & ? & ?). done.
  - intros cls. eapply chain_ext; [|apply I]. intros seg off Hin. rewrite lookup_insert_ne; [done|].
    intros ->. by eapply (in_use_not_free s fl).
  - intros seg off h' Hh' Hz. headers; [lia|]. by apply I.
  - intros id. rewrite (i_named _ _ I). destruct (decide (b = (id, 0, true)%Z)) as [->|].
    + rewrite lookup_insert_eq, Hb. split; intros _; by eexists.
    + by rewrite lookup_insert_ne.
Qed.

Lemma inv_new limit_bytes seg :
  (0 ≤ limit_bytes < 2 ^ 40)%Z → inv (new_core limit_bytes seg) (λ _, []).
Proof.
  intros Hl. unfold new_core, new_ctl, next_multiple, DEDICATED_ALIGN, MIN_BLOCK.
  pose proof (Z.div_mod (Z.max seg (4096 * 16) + 2 ^ 16 - 1) (2 ^ 16) ltac:(lia)).
  pose proof (Z.mod_pos_bound (Z.max seg (4096 * 16) + 2 ^ 16 - 1) (2 ^ 16) ltac:(lia)).
  split; simpl; try done; try lia.
  - by left.
  - intros id. split; [set_solver|lia].
  - intros id. split; [set_solver|by intros [? ?]].
Qed.

(** The last reference of a regular block goes: it heads its free list. *)
Lemma inv_free s fl seg off h :
  inv s fl → c_hdrs s !! (seg, off, false) = Some h → (0 < rc h)%Z →
  inv (Core (set_head (h_class h) (pack seg off + 1) (c_ctl s))
        (<[(seg, off, false) := Hdr 0 (h_class h) (h_len h) (head (c_ctl s) (h_class h))]> (c_hdrs s)) (c_segs s))
      (<[h_class h := (seg, off) :: fl (h_class h)]> fl).
Proof.
  intros I Hb Hrc. pose proof (in_use_not_free s fl seg off h) as Hnf. split; simpl; try apply I.
  - rewrite (total_update _ h) by done. apply I.
  - intros seg' off' h' Hh'. headers; [|by apply I].
    destruct (i_carved _ _ I _ _ _ Hb) as (? & ? & ? & ? & ? & ? & ? & ?). split_and!; try done; lia.
  - intros seg' o1 o2 h1 h2 Hne H1 H2. headers; unfold block_end; simpl; try by eapply (i_disjoint _ _ I).
  - intros id off' h' Hh'. headers. by apply (i_dedicated _ _ I).
  - intros cls. unfold head, set_head. simpl. destruct (decide (cls = h_class h)) as [->|Hc].
    + rewrite lookup_insert_eq, fn_lookup_insert. simpl. split; [done|]. eexists. rewrite lookup_insert_eq.
      split_and!; try done. simpl. eapply chain_ext; [|apply I]. intros s' o' Hin. rewrite lookup_insert_ne; [done|].
      intros [= <- <-]. by eapply Hnf.
    + rewrite lookup_insert_ne, fn_lookup_insert_ne by done. eapply chain_ext; [|apply I].
      intros s' o' Hin. rewrite lookup_insert_ne; [done|]. intros [= <- <-]. by eapply Hnf.
  - intros cls. destruct (decide (cls = h_class h)) as [->|Hc].
    + rewrite fn_lookup_insert. constructor; [by eapply Hnf|apply I].
    + rewrite fn_lookup_insert_ne by done. apply I.
  - intros s' o' h' Hh' Hz. headers; [rewrite fn_lookup_insert; set_solver|].
    pose proof (i_freed _ _ I s' o' h' H0 Hz) as Hin. destruct (decide (h_class h' = h_class h)) as [He|Hc].
    + rewrite He in *. rewrite fn_lookup_insert. set_solver.
    + by rewrite fn_lookup_insert_ne by done.
  - intros id. rewrite (i_named _ _ I). by rewrite lookup_insert_ne.
Qed.

(** The last reference of a dedicated block goes: its segment is unlinked. *)
Lemma inv_unlink s fl id off h :
  inv s fl → c_hdrs s !! (id, off, true) = Some h → (0 < rc h)%Z →
  inv (Core (add_used (- segment_len h) (c_ctl s)) (delete (id, off, true) (c_hdrs s)) (c_segs s ∖ {[ (id, true) ]})) fl.
Proof.
  intros I Hb Hrc. destruct (i_dedicated _ _ I _ _ _ Hb) as (-> & Hid & _ & Hlen).
  pose proof (total_delete _ _ _ Hb) as Ht. unfold weight in Ht. simpl in Ht.
  pose proof (dedicated_size_nonneg (h_len h) Hlen) as Hd. unfold BLK_HDR in Hd.
  split; simpl; try apply I; unfold segment_len.
  - rewrite (i_used _ _ I). lia.
  - pose proof (i_cap _ _ I). lia.
  - intros seg o h' Hh'. headers. by apply I.
  - intros seg o1 o2 h1 h2 Hne H1 H2. headers. by eapply (i_disjoint _ _ I).
  - intros i o h' Hh'. headers. by apply (i_dedicated _ _ I).
  - intros cls. eapply chain_ext; [|apply I]. intros s' o' _. by rewrite lookup_delete_ne.
  - intros seg o h' Hh' Hz. headers. by apply I.
  - intros i. rewrite elem_of_difference, (i_regular _ _ I). set_solver.
  - intros i. rewrite elem_of_difference, (i_named _ _ I), not_elem_of_singleton.
    destruct (decide (i = id)) as [->|].
    + rewrite lookup_delete_eq. split; [by intros [_ ?]|by intros [? ?]].
    + rewrite lookup_delete_ne by congruence. split; [by intros [? _]|]. intros ?. split; [done|congruence].
Qed.

(** A free block is handed out again. *)
Lemma inv_reuse s fl seg off l cls n h :
  inv s fl → fl cls = (seg, off) :: l → c_hdrs s !! (seg, off, false) = Some h →
  (0 ≤ n)%Z → (BLK_HDR + n ≤ class_size cls)%Z →
  inv (Core (set_head cls (h_next h) (c_ctl s)) (<[(seg, off, false) := Hdr 1 cls n (h_next h)]> (c_hdrs s)) (c_segs s))
      (<[cls := l]> fl) ∧ rc h = 0%Z.
Proof.
  intros I Hfl Hb Hn Hsz. pose proof (i_chain _ _ I cls) as Hch. rewrite Hfl in Hch.
  destruct Hch as [Hp (h' & Hh' & Hcl & Hrc & Hl)]. rewrite Hb in Hh'. injection Hh' as <-. split; [|done]. subst cls.
  assert (∀ c, c ≠ h_class h → (seg, off) ∉ fl c) as Hother.
  { intros c Hc Hin. destruct (chain_free _ _ _ _ _ _ (i_chain _ _ I c) Hin) as (h' & Hh' & Hcl' & _). congruence. }
  pose proof (i_nodup _ _ I (h_class h)) as Hnd. rewrite Hfl in Hnd. apply list.NoDup_cons in Hnd as [Hnl Hnd].
  split; simpl; try apply I.
  - rewrite (total_update _ h) by done. apply I.
  - intros seg' off' h' Hh'. headers; [|by apply I].
    destruct (i_carved _ _ I _ _ _ Hb) as (? & ? & ? & ? & ? & ? & ? & ?). split_and!; unfold block_end in *; simpl in *; (done || lia).
  - intros seg' o1 o2 h1 h2 Hne H1 H2. headers; unfold block_end; simpl; try by eapply (i_disjoint _ _ I).
  - intros id off' h' Hh'. headers. by apply (i_dedicated _ _ I).
  - intros c. unfold head, set_head. simpl. destruct (decide (c = h_class h)) as [->|Hc].
    + rewrite lookup_insert_eq, fn_lookup_insert. simpl. eapply chain_ext; [|exact Hl].
      intros s' o' Hin. rewrite lookup_insert_ne; [done|]. by intros [= <- <-].
    + rewrite lookup_insert_ne, fn_lookup_insert_ne by done. eapply chain_ext; [|apply I].
      intros s' o' Hin. rewrite lookup_insert_ne; [done|]. intros [= <- <-]. by eapply Hother.
  - intros c. destruct (decide (c = h_class h)) as [->|Hc].
    + by rewrite fn_lookup_insert.
    + rewrite fn_lookup_insert_ne by done. apply I.
  - intros s' o' h' Hh' Hz. headers. pose proof (i_freed _ _ I s' o' h' ltac:(done) Hz) as Hin.
    destruct (decide (h_class h' = h_class h)) as [He|Hc].
    + rewrite He, Hfl in Hin. rewrite He, fn_lookup_insert. set_solver.
    + by rewrite fn_lookup_insert_ne by done.
  - intros id. rewrite (i_named _ _ I). by rewrite lookup_insert_ne.
Qed.

(** The next block of the segment being carved. *)
Lemma inv_carve s fl cls n nx :
  inv s fl → (0 ≤ cur (c_ctl s) < nreg (c_ctl s))%Z → (bump (c_ctl s) + class_size cls ≤ seg_bytes (c_ctl s))%Z →
  (0 ≤ bump (c_ctl s))%Z → (0 ≤ cls < NCLASS)%Z → (0 ≤ n)%Z → (BLK_HDR + n ≤ class_size cls)%Z →
  let b := (cur (c_ctl s), bump (c_ctl s), false) in
  c_hdrs s !! b = None ∧
  inv (Core (set_bump (bump (c_ctl s) + class_size cls) (c_ctl s)) (<[b := Hdr 1 cls n nx]> (c_hdrs s)) (c_segs s)) fl.
Proof.
  intros I Hcur Hfit Hbump Hcls Hn Hsz b. pose proof (class_size_pos cls ltac:(lia)) as Hcp.
  assert (∀ o h, c_hdrs s !! (cur (c_ctl s), o, false) = Some h → block_end o h ≤ bump (c_ctl s) ∧ o < bump (c_ctl s))%Z as Hbelow.
  { intros o h Hh. destruct (i_carved _ _ I _ _ _ Hh) as (_ & _ & _ & Hle & Hc & _). specialize (Hle eq_refl).
    pose proof (class_size_pos (h_class h) ltac:(lia)). unfold block_end in *. lia. }
  assert (c_hdrs s !! b = None) as Hfresh.
  { destruct (c_hdrs s !! b) as [h|] eqn:Hh; [|done]. apply Hbelow in Hh. lia. }
  split; [done|]. split; simpl; try apply I.
  - rewrite total_insert by done. unfold weight, b. simpl. apply I.
  - right. lia.
  - intros seg o h Hh. headers; [split_and!; unfold block_end; simpl; (done || lia)|].
    pose proof (i_carved _ _ I seg o h ltac:(done)) as (? & ? & ? & Hle & ? & ? & ? & ?). split_and!; try lia; try done.
  - intros seg o1 o2 h1 h2 Hne H1 H2. unfold b in *. headers; try by eapply (i_disjoint _ _ I).
    all: match goal with Hx : c_hdrs _ !! _ = Some _ |- _ => apply Hbelow in Hx end; lia.
  - intros id o h Hh. unfold b in *. headers. by apply (i_dedicated _ _ I).
  - intros c. eapply chain_ext; [|apply I]. intros s' o' Hin. rewrite lookup_insert_ne; [done|]. intros Hb.
    destruct (chain_free _ _ _ _ _ _ (i_chain _ _ I c) Hin) as (h & Hh & _). by rewrite <-Hb, Hfresh in Hh.
  - intros s' o' h' Hh' Hz. headers. by apply I.
  - intros id. rewrite (i_named _ _ I). by rewrite lookup_insert_ne.
Qed.

(** A new regular segment. *)
Lemma inv_grow s fl :
  inv s fl → (used (c_ctl s) + seg_bytes (c_ctl s) ≤ limit (c_ctl s))%Z →
  inv (Core (set_cur (nreg (c_ctl s)) 0 (add_used (seg_bytes (c_ctl s)) (set_nreg (nreg (c_ctl s) + 1) (c_ctl s))))
         (c_hdrs s) ({[ (nreg (c_ctl s), false) ]} ∪ c_segs s)) fl.
Proof.
  intros I Hl. pose proof (i_counts _ _ I). split; simpl; try apply I.
  - lia.
  - rewrite (i_used _ _ I). lia.
  - done.
  - right. pose proof (i_seg _ _ I). lia.
  - intros seg o h Hh. destruct (i_carved _ _ I _ _ _ Hh) as (? & ? & ? & _ & ? & ? & ? & ?). split_and!; try done; lia.
  - intros id. rewrite elem_of_union, elem_of_singleton, (i_regular _ _ I). split; [intros [[= ->]|]; lia|].
    intros. destruct (decide (id = nreg (c_ctl s))) as [->|]; [by left|right; lia].
  - intros id. rewrite elem_of_union, elem_of_singleton, (i_named _ _ I). split; [by intros [|]|by right].
Qed.

(** A dedicated segment. *)
Lemma inv_dedicate s fl n nx :
  inv s fl → (0 ≤ n)%Z → (used (c_ctl s) + dedicated_size n ≤ limit (c_ctl s))%Z →
  let id := nded (c_ctl s) in
  c_hdrs s !! (id, 0%Z, true) = None ∧
  inv (Core (set_nded (id + 1) (add_used (dedicated_size n) (c_ctl s)))
         (<[(id, 0%Z, true) := Hdr 1 DEDICATED_CLASS n nx]> (c_hdrs s)) ({[ (id, true) ]} ∪ c_segs s)) fl.
Proof.
  intros I Hn Hl id. pose proof (i_counts _ _ I) as Hc.
  assert (c_hdrs s !! (id, 0%Z, true) = None) as Hfresh.
  { destruct (c_hdrs s !! (id, 0%Z, true)) as [h|] eqn:Hh; [|done]. apply (i_dedicated _ _ I) in Hh. unfold id in Hh. lia. }
  split; [done|]. split; simpl; try apply I.
  - lia.
  - rewrite total_insert by done. unfold weight. simpl. rewrite (i_used _ _ I). lia.
  - done.
  - intros seg o h Hh. headers. by apply I.
  - intros seg o1 o2 h1 h2 Hne H1 H2. headers. by eapply (i_disjoint _ _ I).
  - intros i o h Hh. unfold id in *. headers; [split_and!; (done || lia)|].
    pose proof (i_dedicated _ _ I i o h ltac:(done)) as (? & ? & ? & ?). split_and!; (done || lia).
  - intros c. eapply chain_ext; [|apply I]. intros s' o' _. by rewrite lookup_insert_ne.
  - intros s' o' h' Hh' Hz. headers. by apply I.
  - intros i. rewrite elem_of_union, elem_of_singleton, (i_regular _ _ I). split; [by intros [|]|by right].
  - intros i. rewrite elem_of_union, elem_of_singleton, (i_named _ _ I). destruct (decide (i = id)) as [->|].
    + rewrite lookup_insert_eq. split; [by eexists|by left].
    + rewrite lookup_insert_ne by congruence. split; [intros [|]; [congruence|done]|by right].
Qed.

Lemma inv_nded s fl m :
  inv s fl → (nded (c_ctl s) ≤ m)%Z → inv (Core (set_nded m (c_ctl s)) (c_hdrs s) (c_segs s)) fl.
Proof.
  intros I Hm. pose proof (i_counts _ _ I). split; simpl; try apply I; [lia|].
  intros id off h Hh. destruct (i_dedicated _ _ I _ _ _ Hh) as (? & ? & ? & ?). split_and!; (done || lia).
Qed.

Lemma add_used_back n c : add_used (- n) (add_used n c) = c.
Proof. destruct c. unfold add_used. simpl. f_equal. lia. Qed.

Lemma core_eta s : Core (c_ctl s) (c_hdrs s) (c_segs s) = s.
Proof. by destruct s. Qed.

Section store_spec.
Context (mappable : core → Z → bool).

(** A step that hands out [b] with [n] bytes: nobody used it, its holder has
    the one reference, and every other block is as it was. *)
Definition hands_out (s : core) (n : Z) (b : handle) (s' : core) : Prop :=
  (∀ h, c_hdrs s !! b = Some h → rc h = 0%Z) ∧ (∃ cls nx, c_hdrs s' !! b = Some (Hdr 1 cls n nx)) ∧
  ∀ b', b' ≠ b → c_hdrs s' !! b' = c_hdrs s !! b'.

Definition allocates (s : core) (n : Z) (r : option handle * core) : Prop :=
  (∃ fl, inv r.2 fl) ∧
  match r.1 with
  | Some b => hands_out s n b r.2
  | None => c_hdrs r.2 = c_hdrs s ∧ used (c_ctl r.2) = used (c_ctl s) ∧ c_segs r.2 = c_segs s
  end.

Lemma handed_fresh s n b cls nx c segs :
  c_hdrs s !! b = None → hands_out s n b (Core c (<[b := Hdr 1 cls n nx]> (c_hdrs s)) segs).
Proof.
  intros Hb. split_and!; simpl.
  - intros h Hh. congruence.
  - exists cls, nx. apply lookup_insert_eq.
  - intros b' Hb'. by rewrite lookup_insert_ne.
Qed.

Lemma alloc_dedicated_spec n s fl : inv s fl → (0 ≤ n)%Z → allocates s n (alloc_dedicated mappable n s).
Proof.
  intros I Hn. unfold alloc_dedicated, with_ctl. simpl. rewrite !add_used_back.
  destruct (Z.ltb_spec (limit (c_ctl s)) (used (c_ctl s) + dedicated_size n)) as [Hlt|Hle].
  { split; [|done]. exists fl. by rewrite core_eta. }
  destruct (mappable _ _); simpl.
  - destruct (inv_dedicate s fl n 0 I Hn Hle) as [Hb Hi]. unfold new_hdr. simpl. rewrite Hb.
    split; [by exists fl|by apply handed_fresh].
  - split; simpl; [exists fl|split_and!; [done|lia|done]].
    replace (add_used (- dedicated_size n) (set_nded (nded (c_ctl s) + 1) (add_used (dedicated_size n) (c_ctl s))))
      with (set_nded (nded (c_ctl s) + 1) (c_ctl s)) by (destruct (c_ctl s); unfold add_used, set_nded; simpl; f_equal; lia).
    apply inv_nded; [done|lia].
Qed.

(** A block at the start of a new segment. *)
Lemma grow_spec n s fl cls :
  inv s fl → (0 ≤ n)%Z → (0 ≤ cls < NCLASS)%Z → (BLK_HDR + n ≤ class_size cls ≤ seg_bytes (c_ctl s))%Z →
  allocates s n
    match grow mappable (class_size cls) s with
    | (Some (seg, off), s') => (Some (seg, off, false), new_hdr cls n (seg, off, false) s')
    | (None, s') => (None, s')
    end.
Proof.
  intros I Hn Hcls [Hsz Hfit]. pose proof (i_counts _ _ I) as Hc. unfold grow, grow_refused, grow_commit, with_ctl. simpl.
  destruct (Z.ltb_spec (limit (c_ctl s)) (used (c_ctl s) + seg_bytes (c_ctl s))) as [|Hle]; [split; [by exists fl|done]|].
  destruct (mappable _ _); simpl.
  - pose proof (inv_grow s fl I Hle) as Ig. unfold new_hdr. simpl.
    destruct (inv_carve _ fl cls n 0 Ig) as [Hb Hi]; simpl in *; [lia..|done|done|done|].
    rewrite Hb. split; [exists fl; exact Hi|by apply handed_fresh].
  - replace (set_nreg (nreg (c_ctl s)) (set_nreg (nreg (c_ctl s) + 1) (c_ctl s))) with (c_ctl s) by (by destruct (c_ctl s)).
    rewrite core_eta. split; [by exists fl|done].
Qed.

Lemma alloc_spec n s fl : inv s fl → (0 ≤ n)%Z → allocates s n (alloc mappable n s).
Proof.
  intros I Hn. unfold alloc. destruct (Z.ltb_spec (max_class_block (c_ctl s)) (BLK_HDR + n)) as [Hlt|Hle].
  { by eapply alloc_dedicated_spec. }
  pose proof (i_seg _ _ I) as Hseg. unfold max_class_block in Hle.
  assert (0 < BLK_HDR + n ≤ MAX_CLASS_BLOCK)%Z as Ht by (unfold BLK_HDR in *; lia).
  pose proof (class_of_spec _ Ht) as Hc. destruct (class_of (BLK_HDR + n)) as [cls size].
  destruct Hc as (Hsz & -> & Hcls & Hw). unfold take.
  destruct (Z.eqb_spec (head (c_ctl s) cls) 0) as [Hz|Hz]; cbn [negb].
  - destruct (Z.eqb_spec (cur (c_ctl s)) CTL_NONE) as [|Hcur]; simpl.
    all: try destruct (Z.leb_spec (bump (c_ctl s) + class_size cls) (seg_bytes (c_ctl s))) as [Hfit|_]; simpl.
    all: try (destruct (i_cur _ _ I) as [|[Hc1 Hc2]]; [done|];
              destruct (inv_carve s fl cls n 0 I Hc1 Hfit (proj1 Hc2) Hcls Hn Hsz) as [Hb Hi];
              unfold new_hdr; simpl; rewrite Hb; split; [by exists fl|by apply handed_fresh]).
    all: apply (grow_spec n s fl); try done; change (2 ^ 16)%Z with 65536%Z in Hseg; unfold MIN_BLOCK, BLK_HDR in *; 
      pose proof (Z.mul_div_le (seg_bytes (c_ctl s)) 4); lia.
  - pose proof (i_chain _ _ I cls) as Hch. destruct (fl cls) as [|[seg off] l] eqn:Hfl; [done|].
    destruct Hch as [Hp (h & Hh & _)]. rewrite Hp. destruct (carved_packs s fl seg off h I Hh) as (-> & _ & _).
    rewrite Hh. unfold new_hdr. simpl. rewrite Hh.
    destruct (inv_reuse s fl seg off l cls n h I Hfl Hh Hn Hsz) as [Hi Hrc]. split; [by eexists|].
    split_and!; simpl.
    + intros h' Hh'. congruence.
    + do 2 eexists. apply lookup_insert_eq.
    + intros b' Hb'. by rewrite lookup_insert_ne.
Qed.

Lemma refs_spec b s fl h :
  inv s fl → c_hdrs s !! b = Some h → (0 < rc h)%Z → (∃ fl', inv (share b s) fl') ∧ ∃ fl', inv (drop b s) fl'.
Proof.
  intros I Hb Hrc. unfold share, drop. rewrite Hb. split.
  { exists fl. apply inv_refcount; (done || lia). }
  destruct (Z.eqb_spec (rc h) 1) as [H1|H1]; cbn [negb].
  2:{ exists fl. apply inv_refcount; (done || lia). }
  destruct b as [[seg off] []].
  - exists fl. simpl. rewrite delete_insert_eq. by apply inv_unlink.
  - eexists. simpl. rewrite insert_insert_eq. by apply inv_free.
Qed.

(** The store under any sequence of steps of its processes: a block is shared
    or dropped by somebody who holds it. *)
Inductive reachable : core → Prop :=
  | reach_new limit_bytes seg : (0 ≤ limit_bytes < 2 ^ 40)%Z → reachable (new_core limit_bytes seg)
  | reach_alloc s n : reachable s → (0 ≤ n)%Z → reachable (alloc mappable n s).2
  | reach_share s b h : reachable s → c_hdrs s !! b = Some h → (0 < rc h)%Z → reachable (share b s)
  | reach_drop s b h : reachable s → c_hdrs s !! b = Some h → (0 < rc h)%Z → reachable (drop b s).

Lemma reachable_inv s : reachable s → ∃ fl, inv s fl.
Proof.
  induction 1 as [l seg Hl|s n _ [fl I] Hn|s b h _ [fl I] Hb Hr|s b h _ [fl I] Hb Hr].
  - eexists. by apply inv_new.
  - by destruct (alloc_spec n s fl I Hn).
  - by destruct (refs_spec b s fl h I Hb Hr).
  - by destruct (refs_spec b s fl h I Hb Hr).
Qed.

Definition in_use (s : core) (b : handle) (h : hdr) : Prop := c_hdrs s !! b = Some h ∧ (0 < rc h)%Z.

(** Where the header and the bytes of a block end in its segment, and where
    the segment does. *)
Definition bytes_end (b : handle) (h : hdr) : Z := (b.1.2 + BLK_HDR + h_len h)%Z.
Definition segment_end (s : core) (b : handle) (h : hdr) : Z :=
  if b.2 then segment_len h else seg_bytes (c_ctl s).


(** [alloc] hands out a block nobody uses, with one reference and room for
    what was asked, and touches no other block; or it answers None and leaves
    the blocks, the segments and what they take as they were. *)
Theorem alloc_hands_out_fresh s n :
  reachable s → (0 ≤ n)%Z →
  let '(r, s') := alloc mappable n s in
  match r with
  | Some b => (∀ h, ¬ in_use s b h) ∧ (∃ cls nx, c_hdrs s' !! b = Some (Hdr 1 cls n nx)) ∧
      ∀ b', b' ≠ b → c_hdrs s' !! b' = c_hdrs s !! b'
  | None => c_hdrs s' = c_hdrs s ∧ used (c_ctl s') = used (c_ctl s) ∧ c_segs s' = c_segs s
  end.
Proof.
  intros [fl I]%reachable_inv Hn. destruct (alloc_spec n s fl I Hn) as [_ Ha].
  destruct (alloc mappable n s) as [[b|] s']; [|exact Ha]. destruct Ha as (Hz & Hh & Ho). split_and!; [|exact Hh|exact Ho].
  intros h [Hb Hr]. simpl in *. rewrite (Hz h Hb) in Hr. lia.
Qed.

Lemma head_set cls p c : head (set_head cls p c) cls = p.
Proof. unfold head, set_head. cbn [free]. by rewrite lookup_insert_eq. Qed.

(** A block that its last holder dropped is the next one of its class to go,
    and no segment is made for it. *)
Theorem freed_block_reused s seg off h n :
  reachable s → c_hdrs s !! (seg, off, false) = Some h → rc h = 1%Z →
  (BLK_HDR + n ≤ max_class_block (c_ctl s))%Z → (class_of (BLK_HDR + n)).1 = h_class h →
  let '(r, s') := alloc mappable n (drop (seg, off, false) s) in
  r = Some (seg, off, false) ∧ used (c_ctl s') = used (c_ctl s) ∧ c_segs s' = c_segs s.
Proof.
  intros [fl I]%reachable_inv Hb Hrc Hn Hc. destruct (carved_packs s fl seg off h I Hb) as (Hu & Hp & _).
  unfold drop. rewrite Hb, Hrc. simpl. rewrite insert_insert_eq. unfold alloc, max_class_block in *.
  cbn [c_ctl set_head seg_bytes]. rewrite (proj2 (Z.ltb_ge _ _)) by done.
  destruct (class_of (BLK_HDR + n)) as [cls size]. simpl in Hc. subst cls. unfold take.
  cbn [c_ctl]. rewrite head_set, (proj2 (Z.eqb_neq _ _)) by done. cbn [negb]. by rewrite Hu.
Qed.
End store_spec.

(** ** The limit under concurrency

    [alloc_dedicated] does not take the lock. Between the test of [grow] and
    its segment another process may get a dedicated one, and the store is over
    its limit. *)
Theorem limit_overrun :
  let mappable := λ _ _, true in
  let s := new_core (2 ^ 17) 1 in
  let '(b, s1) := alloc_dedicated mappable 131008 s in
  let '(r, s2) := grow_commit mappable 4096 s1 in
  grow_refused s = false ∧ is_Some b ∧ is_Some r ∧ (limit (c_ctl s2) < used (c_ctl s2))%Z.
Proof. vm_compute. split_and!; [done|by eexists|by eexists|done]. Qed.

(** ** A store with blocks of both kinds *)

Module BlockDemo.
Definition mappable (s : core) (n : Z) : bool := true.
Definition s0 : core := new_core (2 ^ 20) 1.
Definition s1 : core := (alloc mappable 5000 s0).2.
Definition s2 : core := (alloc mappable 5000 s1).2.
Definition s3 : core := (alloc mappable 100000 s2).2.
Definition first : handle := (0, 0, false)%Z.
Definition s4 : core := drop first s3.

Lemma s4_reachable : reachable mappable s4.
Proof.
  apply (reach_drop mappable s3 first (Hdr 1 1 5000 0)); [|vm_compute; reflexivity|done].
  do 3 (apply reach_alloc; [|done]). by apply reach_new.
Qed.

Lemma class_of_fits_witness :
  class_of 5064 = (1, 5120)%Z ∧ ((class_of 5100).1 = 1%Z → (class_of 5100).2 = 5120%Z).
Proof.
  pose proof (class_of_fits 5064 5100 ltac:(done) ltac:(done)) as H. destruct H as (_ & _ & _ & H).
  split; [vm_compute; reflexivity|exact H].
Defined.


Lemma alloc_hands_out_fresh_witness :
  (alloc mappable 5050 s4).1 = Some first ∧ ∀ h, ¬ in_use s4 first h.
Proof.
  pose proof (alloc_hands_out_fresh mappable s4 5050 s4_reachable ltac:(done)) as H.
  assert ((alloc mappable 5050 s4).1 = Some first) as Ha by (vm_compute; reflexivity).
  destruct (alloc mappable 5050 s4) as [r s']. simpl in Ha. subst r. split; [reflexivity|apply H].
Defined.
End BlockDemo.
