(* ===== verification/Ring.v ===== *)
(** * The shared-memory ring (rust/src/ring.rs)

    The queue under [ShmQueue]: a ring of bytes in which each record is a
    header of a length and a kind, its payload, and padding to eight bytes. A
    record never wraps: what is left before the end of the ring becomes a pad.
    A payload the ring cannot take goes to a shared-memory object of its own or
    to a file, and a record with its name into the ring. What is done under the
    lock is one step; sleeping on a futex is a turn of [put] that ends in
    [Sleep] ([Wakeups] has who sleeps and who wakes them). The table of pending spills, which only matters where shared
    memory cannot be listed, is left out; offsets do not reach 2^64. *)
From S2P Require Import Prelude.
From Stdlib Require Import Strings.Byte.

(** ** Bytes *)

#[export] Instance byte_eq_decision : EqDecision byte := Byte.byte_eq_dec.
#[export] Program Instance byte_countable : Countable byte := inj_countable Byte.to_N Byte.of_N _.
Next Obligation. apply Byte.of_to_N. Qed.

Definition byte_of_Z (z : Z) : byte := default x00 (Byte.of_N (Z.to_N z)).
Definition byte_value (b : byte) : Z := Z.of_N (Byte.to_N b).

(** [x.to_le_bytes()] of [n] bytes, and back. *)
Fixpoint le_bytes (n : nat) (z : Z) : list byte :=
  match n with
  | O => []
  | S n => byte_of_Z (z mod 256) :: le_bytes n (z / 256)
  end.
Fixpoint le_value (bs : list byte) : Z :=
  match bs with
  | [] => 0
  | b :: bs => byte_value b + 256 * le_value bs
  end.

Lemma byte_value_of z : (0 ≤ z < 256)%Z → byte_value (byte_of_Z z) = z.
Proof.
  intros Hz. unfold byte_value, byte_of_Z. destruct (Byte.of_N (Z.to_N z)) as [b|] eqn:E; simpl.
  - apply Byte.to_of_N in E. lia.
  - apply Byte.of_N_None_iff in E. lia.
Qed.

Lemma le_bytes_length n : ∀ z, length (le_bytes n z) = n.
Proof. induction n as [|n IH]; intros z; simpl; [done|]. by rewrite IH. Qed.

Lemma le_value_bytes n : ∀ z, (0 ≤ z < 256 ^ Z.of_nat n)%Z → le_value (le_bytes n z) = z.
Proof.
  induction n as [|n IH]; intros z Hz; simpl; [simpl in Hz; lia|].
  rewrite Nat2Z.inj_succ, Z.pow_succ_r in Hz by lia. pose proof (Z.mod_pos_bound z 256 ltac:(lia)).
  pose proof (Z.div_mod z 256 ltac:(lia)). rewrite byte_value_of by done.
  rewrite IH; [lia|]. split; [apply Z.div_pos; lia|apply Z.div_lt_upper_bound; lia].
Qed.

(** Reading and writing a range of a buffer. *)
Definition read_at (pos n : nat) (data : list byte) : list byte := take n (drop pos data).
Definition write_at (pos : nat) (bs data : list byte) : list byte := take pos data ++ bs ++ drop (pos + length bs) data.

Lemma write_at_length pos bs data :
  (pos + length bs ≤ length data)%nat → length (write_at pos bs data) = length data.
Proof. intros H. unfold write_at. rewrite !length_app, length_take, length_drop. lia. Qed.

Lemma read_written pos bs data :
  (pos + length bs ≤ length data)%nat → read_at pos (length bs) (write_at pos bs data) = bs.
Proof.
  intros H. unfold read_at, write_at. rewrite drop_app_ge by (rewrite length_take; lia).
  rewrite length_take. replace (pos - pos `min` length data)%nat with 0%nat by lia. rewrite drop_0.
  by rewrite take_app_length.
Qed.

Lemma read_elsewhere p n pos bs data :
  (p + n ≤ pos ∨ pos + length bs ≤ p)%nat → (pos + length bs ≤ length data)%nat →
  read_at p n (write_at pos bs data) = read_at p n data.
Proof.
  intros Hd Hl. unfold read_at. apply list_eq. intros i. destruct (decide (i < n)%nat) as [Hi|].
  2:{ by rewrite !lookup_take_ge by lia. }
  rewrite !lookup_take_lt, !lookup_drop by lia. unfold write_at. destruct Hd as [Hd|Hd].
  - rewrite lookup_app_l by (rewrite length_take; lia). by rewrite lookup_take_lt by lia.
  - rewrite lookup_app_r by (rewrite length_take; lia). rewrite length_take.
    rewrite lookup_app_r by lia. rewrite lookup_drop. f_equal. lia.
Qed.

(** ** The shared state *)

Definition REC_HDR : Z := 8.
Definition KIND_DATA : Z := 1.
Definition KIND_PAD : Z := 2.
Definition KIND_SPILL : Z := 3.
Definition KIND_FILE : Z := 4.

Definition align8 (n : Z) : Z := Z.land (n + 7) (Z.lnot 7).

(** The control block and the ring; and the spill objects and files that
    exist, by kind and name. *)
Record ring := Ring {
  cap : Z;
  maxsize : Z;
  spill_at : Z;
  r_head : Z;
  r_tail : Z;
  r_count : Z;
  r_data : list byte;
  r_spills : gmap (Z * list byte) (list byte);
}.

Definition with_data (d : list byte) (r : ring) : ring :=
  Ring (cap r) (maxsize r) (spill_at r) (r_head r) (r_tail r) (r_count r) d (r_spills r).
Definition set_offsets (head tail count : Z) (r : ring) : ring :=
  Ring (cap r) (maxsize r) (spill_at r) head tail count (r_data r) (r_spills r).
Definition with_spills (m : gmap (Z * list byte) (list byte)) (r : ring) : ring :=
  Ring (cap r) (maxsize r) (spill_at r) (r_head r) (r_tail r) (r_count r) (r_data r) m.

(** [RingQueue(maxsize, ring_bytes, spill_at)]. *)
Definition new_ring (max ring_bytes : Z) (spill : option Z) : ring :=
  let c := align8 (Z.max ring_bytes (64 * 2 ^ 10)) in
  Ring c max (Z.min (default (c / 4)%Z spill) (c / 4)) 0 0 0 (replicate (Z.to_nat c) x00) ∅.

Definition payload_len (p : list byte) : Z := Z.of_nat (length p).

(** [write_record(pos, kind, payload)]; the length and the kind are u32. *)
Definition record_bytes (kind : Z) (payload : list byte) : list byte :=
  le_bytes 4 (payload_len payload) ++ le_bytes 4 kind ++ payload.
Definition write_record (pos kind : Z) (payload : list byte) (r : ring) : ring :=
  with_data (write_at (Z.to_nat pos) (record_bytes kind payload) (r_data r)) r.

(** [read_header(pos)]. *)
Definition read_header (pos : Z) (r : ring) : Z * Z :=
  (le_value (read_at (Z.to_nat pos) 4 (r_data r)), le_value (read_at (Z.to_nat pos + 4) 4 (r_data r))).

Definition read_payload (pos len : Z) (r : ring) : list byte :=
  read_at (Z.to_nat pos + Z.to_nat REC_HDR) (Z.to_nat len) (r_data r).

(** [pop_locked]. *)
Definition pop_locked (r : ring) : option (Z * list byte) * ring :=
  if (r_head r =? r_tail r)%Z then (None, set_offsets (r_head r) (r_tail r) 0 r)
  else
    let pos := (r_head r mod cap r)%Z in
    let '(len, kind) := read_header pos r in
    let '(head, pos, (len, kind)) :=
      if (kind =? KIND_PAD)%Z then (r_head r + (cap r - pos), 0, read_header 0 r)%Z
      else (r_head r, pos, (len, kind)) in
    (Some (kind, read_payload pos len r),
     set_offsets (head + REC_HDR + align8 len) (r_tail r) (Z.max 0 (r_count r - 1)) r).

(** What [put] finds inside the lock: the record is in, or there is a slot for
    it but no room, or no slot. *)
Inductive placing := Placed (r : ring) | NoRoom | NoSlot.

Definition place (kind : Z) (payload : list byte) (r : ring) : placing :=
  let rec := (REC_HDR + align8 (payload_len payload))%Z in
  let pos := (r_tail r mod cap r)%Z in
  let pad := (if cap r - pos <? rec then cap r - pos else 0)%Z in
  let has_slot := ((maxsize r =? 0) || (r_count r <? maxsize r))%Z in
  if has_slot && (r_tail r - r_head r + pad + rec <=? cap r)%Z then
    let '(r1, at_) := if (0 <? pad)%Z then (write_record pos KIND_PAD [] r, 0%Z) else (r, pos) in
    let r2 := write_record at_ kind payload r1 in
    Placed (set_offsets (r_head r2) (r_tail r2 + pad + rec) (r_count r2 + 1) r2)
  else if has_slot then NoRoom else NoSlot.

(** What the operating system says to a new object of so many bytes. *)
Inductive os_answer := Fine | NoSpace | Broken.

(** The record of a spill: a u64 length and a name. *)
Definition spill_record (data name : list byte) : list byte := le_bytes 8 (payload_len data) ++ name.
Definition spill_name (rec : list byte) : list byte := drop 8 rec.

(** [materialize]: the payload of a popped record; a spill is read and removed. *)
Definition materialize (kind : Z) (b : list byte) : prog ring (list byte) := λ r,
  if ((kind =? KIND_SPILL) || (kind =? KIND_FILE))%Z then
    let n := le_value (take 8 b) in
    match r_spills r !! (kind, spill_name b) with
    | Some d => (Ok (take (Z.to_nat n) d), with_spills (delete (kind, spill_name b) (r_spills r)) r)
    | None => (Raise OSError, r)
    end
  else (Ok b, r).

(** [put] between two turns of its loop: [must_spill], and the record of the
    spill it has made. *)
Record putting := Putting { must_spill : bool; spilled : option (Z * list byte) }.

(** A turn goes round at once, sleeps first, or returns. *)
Inductive turned := Again (st : putting) | Sleep (st : putting) | Return (b : bool).

Section put.
(** Shared memory, the disk, and a new name. *)
Context (shm_answer disk_answer : ring → Z → os_answer) (fresh : ring → list byte).

(** [spill_write], [file_spill_write]: the object, and its record. *)
Definition spill_to (kind : Z) (data : list byte) (r : ring) : (Z * list byte) * ring :=
  let name := fresh r in
  ((kind, spill_record data name), with_spills (<[(kind, name) := data]> (r_spills r)) r).

(** [discard]. *)
Definition discard (sp : option (Z * list byte)) (r : ring) : ring :=
  match sp with
  | Some (kind, rec) => with_spills (delete (kind, spill_name rec) (r_spills r)) r
  | None => r
  end.

(** The first half of a turn: make the spill, if one is due. *)
Definition make_spill (disk expired : bool) (data : list byte) (st : putting) : prog ring (putting + turned) := λ r,
  if must_spill st && bool_decide (spilled st = None) then
    match (if disk then NoSpace else shm_answer r (payload_len data)) with
    | Fine => let '(sp, r) := spill_to KIND_SPILL data r in (Ok (inl (Putting true (Some sp))), r)
    | NoSpace =>
        match disk_answer r (payload_len data) with
        | Fine => let '(sp, r) := spill_to KIND_FILE data r in (Ok (inl (Putting true (Some sp))), r)
        | NoSpace => (Ok (inr (if expired then Return false else Sleep st)), r)
        | Broken => (Raise OSError, r)
        end
    | Broken => (Raise OSError, r)
    end
  else (Ok (inl st), r).

(** The second half: under the lock. *)
Definition try_place (expired : bool) (data : list byte) (st : putting) : prog ring turned := λ r,
  let '(kind, payload) := default (KIND_DATA, data) (spilled st) in
  match place kind payload r with
  | Placed r => (Ok (Return true), r)
  | NoRoom =>
      if (kind =? KIND_DATA)%Z then (Ok (Again (Putting true (spilled st))), r)
      else if expired then (Ok (Return false), discard (spilled st) r)
      else (Ok (Sleep st), r)
  | NoSlot => if expired then (Ok (Return false), discard (spilled st) r) else (Ok (Sleep st), r)
  end.

(** A turn of the loop of [put(data, ..., disk)]; [expired]: is the deadline
    past? *)
Definition put_turn (disk expired : bool) (data : list byte) (st : putting) : prog ring turned :=
  let! s := make_spill disk expired data st in
  match s with
  | inl st => try_place expired data st
  | inr t => ret t
  end.

Definition start_put (data : list byte) (r : ring) : putting := Putting (spill_at r <? payload_len data)%Z None.

(** [put(data, block=False)]: every deadline is past, and it never sleeps. *)
Definition put_nowait (disk : bool) (data : list byte) : prog ring bool := λ r,
  loop 4 (λ st, let! t := put_turn disk true data st in
                ret (match t with Again st | Sleep st => inl st | Return b => inr b end)) (start_put data r) r.

(** [wait_for_items] with the deadline past: is there a record? *)
Definition wait_for_items (r : ring) : bool := negb (r_head r =? r_tail r)%Z.

(** [get(block=False)]: a turn of its loop, and the loop. *)
Definition get_turn (_ : unit) : prog ring (unit + option (list byte)) := λ r,
  if wait_for_items r then
    match pop_locked r with
    | (Some (kind, b), r) => (let! x := materialize kind b in ret (inr (Some x))) r
    | (None, r) => (Ok (inl tt), r)
    end
  else (Ok (inr None), r).
Definition get_nowait : prog ring (option (list byte)) := loop 2 get_turn tt.

(** [get_many(max_items, block=False)]: pop under one lock, then read. *)
Fixpoint pop_many (n : nat) (r : ring) : list (Z * list byte) * ring :=
  match n with
  | O => ([], r)
  | S n =>
      match pop_locked r with
      | (Some m, r) => let '(got, r) := pop_many n r in (m :: got, r)
      | (None, r) => ([], r)
      end
  end.
Fixpoint materialize_all (got : list (Z * list byte)) : prog ring (list (list byte)) :=
  match got with
  | [] => ret []
  | (kind, b) :: got => let! x := materialize kind b in let! xs := materialize_all got in ret (x :: xs)
  end.
Definition get_many_nowait (max_items : nat) : prog ring (list (list byte)) := λ r,
  if wait_for_items r then let '(got, r) := pop_many (max_items `max` 1) r in materialize_all got r
  else (Ok [], r).

(** [unlink]: walk the records from [head] to [tail], noting the names of the
    shared-memory spills and the number of the others; forget the records;
    remove what was noted, the directory of the files, and every object whose
    name begins as the ring's do (all of [r_spills]). *)
Definition unlink_turn (r : ring) : Z * list (list byte) * Z → prog unit (Z * list (list byte) * Z + list (list byte) * Z) :=
  λ '(head, names, files),
  if (head <? r_tail r)%Z then
    let pos := (head mod cap r)%Z in
    let '(len, kind) := read_header pos r in
    if (kind =? KIND_PAD)%Z then ret (inl (head + (cap r - pos), names, files)%Z)
    else
      let names := if (kind =? KIND_SPILL)%Z then names ++ [spill_name (read_payload pos len r)] else names in
      let files := if (kind =? KIND_FILE)%Z then (files + 1)%Z else files in
      ret (inl (head + REC_HDR + align8 len, names, files)%Z)
  else ret (inr (names, files)).
Definition remove_noted (names : list (list byte)) (m : gmap (Z * list byte) (list byte)) : gmap (Z * list byte) (list byte) :=
  filter (λ '((kind, name), _), ¬ (kind = KIND_SPILL ∧ name ∈ names)) m.
Definition unlink : prog ring Z := λ r,
  match (loop (S (Z.to_nat (r_tail r - r_head r))) (unlink_turn r) (r_head r, [], 0%Z) tt).1 with
  | Ok (names, files) =>
      let swept := filter (λ '((kind, _), _), kind = KIND_SPILL) (remove_noted names (r_spills r)) in
      (Ok (Z.of_nat (length names) + files + Z.of_nat (size swept))%Z,
       with_spills ∅ (set_offsets (r_tail r) (r_tail r) 0 r))
  | Raise e => (Raise e, r)
  | Spin => (Spin, r)
  end.
End put.

(** ** The records between head and tail *)

(** Where the record at [head] begins, after the pad there may be. *)
Definition at_record (r : ring) (head : Z) : Z :=
  if ((read_header (head mod cap r) r).2 =? KIND_PAD)%Z then (head + (cap r - head mod cap r))%Z else head.

Definition rec_len (payload : list byte) : Z := (REC_HDR + align8 (payload_len payload))%Z.

(** At offset [h] of the ring, the record of a message. *)
Definition holds_record (r : ring) (h : Z) (m : Z * list byte) : Prop :=
  read_header (h mod cap r) r = (payload_len m.2, m.1) ∧ read_payload (h mod cap r) (payload_len m.2) r = m.2 ∧
  m.1 ≠ KIND_PAD ∧ (h mod cap r + rec_len m.2 ≤ cap r)%Z.

(** From [head] to [tail] the ring holds these messages. *)
Fixpoint records (r : ring) (head : Z) (ms : list (Z * list byte)) (tail : Z) : Prop :=
  match ms with
  | [] => head = tail
  | m :: ms =>
      let h := at_record r head in
      holds_record r h m ∧ (head ≤ h)%Z ∧ (h mod 8 = 0)%Z ∧ records r (h + rec_len m.2) ms tail
  end.

Lemma align8_spec n : (0 ≤ n)%Z → (align8 n mod 8 = 0)%Z ∧ (n ≤ align8 n < n + 8)%Z.
Proof.
  intros Hn. assert (align8 n = (n + 7) / 8 * 8)%Z as ->.
  { unfold align8. replace (Z.lnot 7) with (Z.shiftl (-1) 3) by done.
    rewrite <-Z.shiftl_mul_pow2 with (n := 3%Z) by lia. rewrite <-(Z.shiftr_div_pow2 _ 3) by lia.
    rewrite <-Z.ldiff_ones_r by lia. unfold Z.ldiff. done. }
  split; [apply Z.mod_mul; lia|]. pose proof (Z.div_mod (n + 7) 8 ltac:(lia)). pose proof (Z.mod_pos_bound (n + 7) 8 ltac:(lia)). lia.
Qed.

(** Two ranges that lie within the ring, one after the other and together no
    longer than it. *)
Lemma apart (c a n b m : Z) :
  (0 < c → a mod c + n ≤ c → b mod c + m ≤ c → a + n ≤ b → b + m ≤ a + c → 0 < n → 0 < m →
   a mod c + n ≤ b mod c ∨ b mod c + m ≤ a mod c)%Z.
Proof.
  intros Hc Ha Hb Hab Hba Hn Hm. pose proof (Z.div_mod a c ltac:(lia)) as Da. pose proof (Z.div_mod b c ltac:(lia)) as Db.
  pose proof (Z.mod_pos_bound a c Hc). pose proof (Z.mod_pos_bound b c Hc).
  assert (b / c = a / c ∨ b / c = a / c + 1)%Z as [He|He] by nia; rewrite He in Db; nia.
Qed.

Lemma rec_len_spec p : (8 + payload_len p ≤ rec_len p)%Z ∧ (rec_len p mod 8 = 0)%Z ∧ (rec_len p < 16 + payload_len p)%Z.
Proof.
  unfold rec_len, REC_HDR. destruct (align8_spec (payload_len p)) as [Hm Hb]; [unfold payload_len; lia|].
  split_and!; [lia| |lia]. rewrite Z.add_mod, Hm by lia. done.
Qed.

(** The two rings read the same between two offsets. *)
Definition agree (r r' : ring) (lo hi : Z) : Prop :=
  cap r' = cap r ∧ ∀ a, (lo ≤ a → a + 8 ≤ hi → a mod cap r + 8 ≤ cap r →
    read_header (a mod cap r) r' = read_header (a mod cap r) r ∧
    ∀ len, 0 ≤ len → a + 8 + len ≤ hi → a mod cap r + 8 + len ≤ cap r →
      read_payload (a mod cap r) len r' = read_payload (a mod cap r) len r)%Z.

Record shaped (r : ring) : Prop := {
  sh_cap : (0 < cap r)%Z;
  sh_cap8 : (cap r mod 8 = 0)%Z;
  sh_data : Z.of_nat (length (r_data r)) = cap r;
}.

Lemma mod8_room r a : shaped r → (a mod 8 = 0)%Z → (a mod cap r + 8 ≤ cap r)%Z ∧ ((a mod cap r) mod 8 = 0)%Z.
Proof.
  intros S Ha. pose proof (Z.mod_pos_bound a (cap r) (sh_cap _ S)). pose proof (sh_cap8 _ S) as Hc.
  assert ((a mod cap r) mod 8 = 0)%Z as Hm.
  { apply Z.mod_divide in Hc as [q Hq]; [|lia]. apply Z.mod_divide in Ha as [k Hk]; [|lia].
    apply Z.mod_divide; [lia|]. exists (k - a / cap r * q)%Z. rewrite Z.mod_eq by lia. rewrite Hk at 1. nia. }
  split; [|done]. apply Z.mod_divide in Hc as [q Hq]; [|lia]. apply Z.mod_divide in Hm as [k Hk]; [|lia]. lia.
Qed.

Lemma at_record_bounds r h :
  shaped r → (h mod 8 = 0)%Z → at_record r h = h ∨ (at_record r h = h + (cap r - h mod cap r))%Z ∧ (h + 8 ≤ at_record r h)%Z.
Proof.
  intros S Hh. unfold at_record. destruct (_ =? _)%Z; [right|by left]. destruct (mod8_room r h S Hh). lia.
Qed.

Lemma records_bounds r ms : ∀ head tail,
  shaped r → (head mod 8 = 0)%Z → records r head ms tail →
  (tail mod 8 = 0)%Z ∧ (head ≤ tail)%Z ∧ (ms ≠ [] → at_record r head + 8 ≤ tail)%Z.
Proof.
  induction ms as [|m ms IH]; intros head tail S Hh; simpl.
  { intros <-. split_and!; [done|lia|done]. }
  intros (Hr & Hle & H8 & Hms). destruct (rec_len_spec m.2) as (Hl & Hl8 & _).
  destruct (IH (at_record r head + rec_len m.2)%Z tail S) as (Ht & Hlt & _); [|done|].
  { rewrite Z.add_mod, H8, Hl8 by lia. done. }
  unfold payload_len in *. split_and!; [done|lia|]. intros _. lia.
Qed.

Lemma records_agree r r' ms : ∀ head tail,
  shaped r → (head mod 8 = 0)%Z → agree r r' head tail → records r head ms tail → records r' head ms tail.
Proof.
  induction ms as [|m ms IH]; intros head tail S Hh A Hr; [done|].
  pose proof (records_bounds r (m :: ms) head tail S Hh Hr) as (_ & _ & Hb). specialize (Hb ltac:(done)).
  destruct Hr as (Hm & Hle & H8 & Hms). destruct A as [Hc A]. destruct (rec_len_spec m.2) as (Hl & Hl8 & _).
  destruct (mod8_room r head S Hh) as [Hroom _].
  assert (at_record r' head = at_record r head) as He.
  { unfold at_record. rewrite Hc. destruct (A head) as [-> _]; try done; lia. }
  assert ((at_record r head + rec_len m.2) mod 8 = 0)%Z as Hn8 by (rewrite Z.add_mod, H8, Hl8 by lia; done).
  pose proof (records_bounds r ms _ tail S Hn8 Hms) as (_ & Hlt & _).
  assert (0 ≤ payload_len m.2)%Z by (unfold payload_len; lia).
  simpl. rewrite He. split; [|split; [done|split; [done|]]].
  - destruct Hm as (Hh1 & Hp & Hk & Hf). unfold holds_record. rewrite Hc.
    destruct (A (at_record r head)) as [-> HA]; [done|lia|lia|]. rewrite HA; [|done|lia|lia]. done.
  - apply IH; [done|done| |done]. split; [done|]. intros a Ha. apply A. lia.
Qed.

Lemma records_app r ms m : ∀ head tail tail',
  records r head ms tail → records r tail [m] tail' → records r head (ms ++ [m]) tail'.
Proof.
  induction ms as [|m0 ms IH]; intros head tail tail'; simpl; [by intros ->|].
  intros (Hm & Hle & H8 & Hms) Hr. split_and!; try done. by eapply IH.
Qed.

Lemma record_bytes_length kind p : Z.of_nat (length (record_bytes kind p)) = (8 + payload_len p)%Z.
Proof. unfold record_bytes, payload_len. rewrite !length_app, !le_bytes_length. lia. Qed.

(** Writing a record leaves the others alone. *)
Lemma write_agree r t kind p lo hi :
  shaped r → (hi ≤ t)%Z → (t + 8 + payload_len p ≤ lo + cap r)%Z → (t mod cap r + 8 + payload_len p ≤ cap r)%Z →
  agree r (write_record (t mod cap r) kind p r) lo hi.
Proof.
  intros S Ht Hlo Hfit. split; [done|]. intros a Ha Hhi Hroom.
  pose proof (record_bytes_length kind p) as Hrl. pose proof (sh_data _ S) as Hd. pose proof (sh_cap _ S) as Hc.
  pose proof (Z.mod_pos_bound a (cap r) Hc). pose proof (Z.mod_pos_bound t (cap r) Hc).
  assert (0 ≤ payload_len p)%Z by (unfold payload_len; lia).
  assert (∀ n, 8 ≤ n → a + n ≤ hi → a mod cap r + n ≤ cap r →
    a mod cap r + n ≤ t mod cap r ∨ t mod cap r + (8 + payload_len p) ≤ a mod cap r)%Z as Hap.
  { intros n Hn Hn1 Hn2. apply apart; lia. }
  unfold read_header, read_payload, write_record, REC_HDR. simpl. split.
  - specialize (Hap 8%Z ltac:(lia) Hhi Hroom). rewrite !read_elsewhere; [done|..]; lia.
  - intros len Hl Hl1 Hl2. specialize (Hap (8 + len)%Z ltac:(lia) ltac:(lia) ltac:(lia)).
    rewrite read_elsewhere; [done|..]; lia.
Qed.

Lemma write_shaped r t kind p :
  shaped r → (t mod cap r + 8 + payload_len p ≤ cap r)%Z → shaped (write_record (t mod cap r) kind p r).
Proof.
  intros S Hf. destruct S as [H1 H2 H3]. split; [done|done|]. simpl. pose proof (record_bytes_length kind p).
  pose proof (Z.mod_pos_bound t (cap r) H1). rewrite write_at_length by lia. done.
Qed.

(** What was written is read. *)
Lemma write_reads r t kind p :
  shaped r → (t mod cap r + 8 + payload_len p ≤ cap r)%Z → (payload_len p < 2 ^ 32)%Z → (0 ≤ kind < 2 ^ 32)%Z →
  read_header (t mod cap r) (write_record (t mod cap r) kind p r) = (payload_len p, kind) ∧
  read_payload (t mod cap r) (payload_len p) (write_record (t mod cap r) kind p r) = p.
Proof.
  intros S Hf Hp Hk. pose proof (record_bytes_length kind p) as Hl. pose proof (sh_data _ S) as Hd.
  pose proof (Z.mod_pos_bound t (cap r) (sh_cap _ S)). assert (0 ≤ payload_len p)%Z by (unfold payload_len; lia).
  set (pos := Z.to_nat (t mod cap r)).
  assert (read_at pos (length (record_bytes kind p)) (r_data (write_record (t mod cap r) kind p r)) = record_bytes kind p) as Hr.
  { apply read_written. unfold pos. lia. }
  assert (∀ i n, (i + n ≤ length (record_bytes kind p))%nat →
    read_at (pos + i) n (r_data (write_record (t mod cap r) kind p r)) = read_at i n (record_bytes kind p)) as Hsub.
  { intros i n Hin. rewrite <-Hr. unfold read_at. rewrite (take_drop_commute (take _ _)), take_take, Nat.min_l by lia. by rewrite <-take_drop_commute, drop_drop. }
  unfold read_header, read_payload. fold pos. split.
  - rewrite <-(Nat.add_0_r pos) at 1. rewrite !Hsub by lia. unfold record_bytes, read_at. rewrite drop_0.
    rewrite take_app_le, take_ge by (rewrite le_bytes_length; lia).
    rewrite drop_app_ge, le_bytes_length by (rewrite le_bytes_length; lia). rewrite drop_0.
    rewrite take_app_le, take_ge by (rewrite le_bytes_length; lia). rewrite !le_value_bytes by (simpl; lia). done.
  - rewrite Hsub by (unfold REC_HDR; lia). unfold record_bytes, read_at, REC_HDR.
    rewrite app_assoc, drop_app_ge by (rewrite length_app, !le_bytes_length; lia).
    rewrite length_app, !le_bytes_length. change (Z.to_nat 8 - (4 + 4))%nat with 0%nat. rewrite drop_0, take_ge; [done|].
    unfold payload_len. lia.
Qed.

(** ** What one pass inside the lock does *)

Definition kinds_ok (m : Z * list byte) : Prop := m.1 = KIND_DATA ∨ m.1 = KIND_SPILL ∨ m.1 = KIND_FILE.

(** The ring holds the messages [ms], in order. *)
Record holds_messages (r : ring) (ms : list (Z * list byte)) : Prop := {
  ho_shaped : shaped r;
  ho_head : (0 ≤ r_head r)%Z ∧ (r_head r mod 8 = 0)%Z;
  ho_records : records r (r_head r) ms (r_tail r);
  ho_cap : (r_tail r ≤ r_head r + cap r)%Z;
  ho_count : r_count r = Z.of_nat (length ms);
  ho_kinds : Forall kinds_ok ms;
  ho_max : (0 ≤ maxsize r)%Z ∧ (maxsize r = 0 ∨ Z.of_nat (length ms) ≤ maxsize r)%Z;
}.

Lemma records_same r r' head ms tail :
  shaped r → (head mod 8 = 0)%Z → cap r' = cap r → r_data r' = r_data r → records r head ms tail → records r' head ms tail.
Proof.
  intros S Hh Hc Hd. apply records_agree; [done|done|]. split; [done|]. intros a _ _ _.
  unfold read_header, read_payload. rewrite Hd. done.
Qed.

(** A record written where the next one goes, past a pad if there is one. *)
Lemma placed_record r kind p pad :
  shaped r → (r_tail r mod 8 = 0)%Z → (payload_len p < 2 ^ 32)%Z → kinds_ok (kind, p) →
  pad = (if cap r - r_tail r mod cap r <? rec_len p then cap r - r_tail r mod cap r else 0)%Z →
  (pad + rec_len p ≤ cap r)%Z →
  let '(r1, at_) := if (0 <? pad)%Z then (write_record (r_tail r mod cap r) KIND_PAD [] r, 0%Z) else (r, r_tail r mod cap r)%Z in
  let r2 := write_record at_ kind p r1 in
  shaped r2 ∧ records r2 (r_tail r) [(kind, p)] (r_tail r + pad + rec_len p) ∧
  ∀ lo, (r_tail r + pad + rec_len p ≤ lo + cap r)%Z → agree r r2 lo (r_tail r).
Proof.
  intros S Ht Hp Hk Hpad Hfit. pose proof (sh_cap _ S) as Hc. pose proof (Z.mod_pos_bound (r_tail r) (cap r) Hc) as Hm.
  destruct (rec_len_spec p) as (Hl & Hl8 & _). destruct (mod8_room r (r_tail r) S Ht) as [Hroom _].
  assert (0 ≤ kind < 2 ^ 32)%Z as Hkr by (destruct Hk as [Hk|[Hk|Hk]]; simpl in Hk; subst; done).
  assert (kind ≠ KIND_PAD) as Hnp by (destruct Hk as [Hk|[Hk|Hk]]; simpl in Hk; subst; done).
  assert (0 ≤ payload_len p)%Z as Hpl by (unfold payload_len; lia).
  destruct (Z.ltb_spec (cap r - r_tail r mod cap r) (rec_len p)) as [Hlt|Hge]; subst pad.
  - rewrite (proj2 (Z.ltb_lt _ _)) by lia.
    set (t2 := (r_tail r + (cap r - r_tail r mod cap r))%Z). set (r1 := write_record _ KIND_PAD [] r).
    assert (t2 mod cap r = 0)%Z as Ht2.
    { unfold t2. rewrite (Z.div_mod (r_tail r) (cap r)) at 1 by lia.
      replace (cap r * (r_tail r / cap r) + r_tail r mod cap r + (cap r - r_tail r mod cap r))%Z
        with ((r_tail r / cap r + 1) * cap r)%Z by lia. apply Z.mod_mul. lia. }
    assert (t2 mod 8 = 0)%Z as Ht8.
    { apply Z.mod_divide; [lia|]. apply Z.mod_divide in Ht; [|lia]. pose proof (sh_cap8 _ S) as Hc8.
      destruct (mod8_room r (r_tail r) S Ht2) as [] || (destruct (mod8_room r (r_tail r) S) as [_ Hm8]; [by apply Z.mod_divide|]).
      apply Z.divide_add_r; [done|]. apply Z.divide_sub_r; apply Z.mod_divide; done || lia. }
    assert (shaped r1) as S1 by (apply write_shaped; [done|unfold payload_len; simpl; lia]).
    assert (write_record 0 kind p r1 = write_record (t2 mod cap r1) kind p r1) as ->.
    { change (cap r1) with (cap r). by rewrite Ht2. }
    assert (t2 mod cap r1 + 8 + payload_len p ≤ cap r1)%Z as Hf1.
    { change (cap r1) with (cap r). lia. }
    destruct (write_reads r (r_tail r) KIND_PAD [] S) as [Hpad _]; [unfold payload_len; simpl; lia|done|done|].
    destruct (write_reads r1 t2 kind p S1 Hf1 Hp Hkr) as [Hh2 Hp2].
    assert (agree r1 (write_record (t2 mod cap r1) kind p r1) (r_tail r) (r_tail r + 8)) as [_ A2].
    { apply write_agree; [done| | |done]; unfold t2; change (cap r1) with (cap r); lia. }
    split; [by apply write_shaped|]. split.
    + cbn [records]. assert (at_record (write_record (t2 mod cap r1) kind p r1) (r_tail r) = t2) as ->.
      { unfold at_record. change (cap (write_record _ _ _ r1)) with (cap r1). destruct (A2 (r_tail r)) as [-> _]; [lia|lia|exact Hroom|].
        change (cap r1) with (cap r). unfold r1. rewrite Hpad. done. }
      split_and!; [|unfold t2; lia|done|cbn [snd]; unfold t2; lia].
      unfold holds_record. cbn [fst snd]. change (cap (write_record _ _ _ r1)) with (cap r1). rewrite Hh2, Hp2. split_and!; try done.
      simpl. change (cap r1) with (cap r). lia.
    + intros lo Hlo. destruct (write_agree r (r_tail r) KIND_PAD [] lo (r_tail r) S) as [_ A1];
        [lia|unfold payload_len; simpl; lia|unfold payload_len; simpl; lia|].
      destruct (write_agree r1 t2 kind p lo (r_tail r) S1) as [_ A3]; [unfold t2; lia|change (cap r1) with (cap r); unfold t2 in *; lia|done|].
      split; [done|]. intros a Ha1 Ha2 Ha3. destruct (A1 a Ha1 Ha2 Ha3) as [E1 E1']. destruct (A3 a Ha1 Ha2 Ha3) as [E3 E3'].
      change (cap r1) with (cap r) in *. split; [by rewrite E3|]. intros len L1 L2 L3. rewrite E3' by done. by apply E1'.
  - cbn [Z.ltb Z.compare]. assert (r_tail r mod cap r + 8 + payload_len p ≤ cap r)%Z as Hf by lia.
    destruct (write_reads r (r_tail r) kind p S Hf Hp Hkr) as [Hh2 Hp2].
    split; [by apply write_shaped|]. split.
    + cbn [records]. assert (at_record (write_record (r_tail r mod cap r) kind p r) (r_tail r) = r_tail r) as ->.
      { unfold at_record. change (cap (write_record _ _ _ r)) with (cap r). rewrite Hh2. simpl.
        by rewrite (proj2 (Z.eqb_neq _ _)). }
      split_and!; [|lia|done|cbn [snd]; lia].
      unfold holds_record. cbn [fst snd]. change (cap (write_record _ _ _ r)) with (cap r). rewrite Hh2, Hp2. split_and!; try done.
      simpl. lia.
    + intros lo Hlo. apply write_agree; [done|lia|lia|done].
Qed.

Definition same_ring (r r' : ring) : Prop := cap r' = cap r ∧ maxsize r' = maxsize r ∧ spill_at r' = spill_at r.

Lemma place_spec kind p r ms :
  holds_messages r ms → (payload_len p < 2 ^ 32)%Z → kinds_ok (kind, p) →
  match place kind p r with
  | Placed r' => holds_messages r' (ms ++ [(kind, p)]) ∧ r_spills r' = r_spills r ∧ same_ring r r'
  | NoRoom => (maxsize r = 0 ∨ Z.of_nat (length ms) < maxsize r)%Z ∧ (ms = [] → cap r < 2 * rec_len p)%Z
  | NoSlot => (0 < maxsize r)%Z ∧ Z.of_nat (length ms) = maxsize r
  end.
Proof.
  intros H Hp Hk. destruct H as [S [H0 H8] Hr Hc Hn Hks [Hmx0 Hmx]].
  destruct (records_bounds r ms _ _ S H8 Hr) as (Ht8 & Hht & _). destruct (rec_len_spec p) as (Hl & _ & _).
  assert (0 ≤ payload_len p)%Z by (unfold payload_len; lia).
  pose proof (Z.mod_pos_bound (r_tail r) (cap r) (sh_cap _ S)) as Hm.
  unfold place. fold (rec_len p). set (pad := (if cap r - r_tail r mod cap r <? rec_len p then cap r - r_tail r mod cap r else 0)%Z).
  set (has_slot := ((maxsize r =? 0) || (r_count r <? maxsize r))%Z).
  assert (0 ≤ pad)%Z as Hp0 by (unfold pad; destruct (_ <? _)%Z; lia).
  assert (has_slot = true ↔ (maxsize r = 0 ∨ Z.of_nat (length ms) < maxsize r)%Z) as Hslot.
  { unfold has_slot. rewrite orb_true_iff, Z.eqb_eq, Z.ltb_lt, Hn. done. }
  destruct has_slot; simpl.
  2:{ assert (¬ (maxsize r = 0 ∨ Z.of_nat (length ms) < maxsize r)%Z) by (rewrite <-Hslot; done). lia. }
  destruct (Z.leb_spec (r_tail r - r_head r + pad + rec_len p) (cap r)) as [Hle|Hgt].
  2:{ split; [by apply Hslot|]. intros ->. simpl in Hr. unfold pad in Hgt. destruct (Z.ltb_spec (cap r - r_tail r mod cap r) (rec_len p)); lia. }
  pose proof (placed_record r kind p pad S Ht8 Hp Hk eq_refl ltac:(lia)) as Hpl.
  assert (∃ at_ r1, (if (0 <? pad)%Z then (write_record (r_tail r mod cap r) KIND_PAD [] r, 0%Z) else (r, r_tail r mod cap r)%Z) = (r1, at_) ∧
    r_head r1 = r_head r ∧ r_tail r1 = r_tail r ∧ r_count r1 = r_count r ∧ r_spills r1 = r_spills r ∧ same_ring r r1) as (at_ & r1 & E & E1 & E2 & E3 & E4 & E5).
  { destruct (0 <? pad)%Z; do 2 eexists; (split; [reflexivity|]); done. }
  rewrite E in *. destruct Hpl as (S2 & Hrec & Hag). set (r2 := write_record at_ kind p r1) in *.
  cbn [write_record with_data r_head r_tail r_count] in *. rewrite ?E1, ?E2, ?E3.
  split; [|split; [exact E4|exact E5]]. destruct E5 as (Ec & Em & _). split; simpl.
  - by destruct S2.
  - done.
  - apply (records_same r2); [done|done|done|done|]. eapply records_app; [|exact Hrec].
    apply (records_agree r); [done|done| |done]. apply Hag. lia.
  - rewrite Ec. lia.
  - rewrite length_app. simpl. lia.
  - apply Forall_app. split; [done|by constructor].
  - rewrite Em, length_app. simpl. split; [done|]. apply proj1 in Hslot. specialize (Hslot eq_refl). lia.
Qed.

Lemma pop_spec r ms :
  holds_messages r ms →
  let '(m, r') := pop_locked r in
  m = head ms ∧ holds_messages r' (tail ms) ∧ r_spills r' = r_spills r ∧ same_ring r r'.
Proof.
  intros H. pose proof H as [S [H0 H8] Hr Hc Hn Hks [Hmx0 Hmx]]. unfold pop_locked.
  destruct ms as [|m ms]; simpl in Hr.
  { rewrite (proj2 (Z.eqb_eq _ _)) by done. split_and!; try done. split; simpl; try done. by destruct S. }
  destruct (records_bounds r (m :: ms) (r_head r) (r_tail r) S H8 Hr) as (Ht8 & _ & Hb). specialize (Hb ltac:(done)).
  destruct Hr as ((Hh & Hp & Hk & Hf) & Hle & Hr8 & Hms). destruct (rec_len_spec m.2) as (Hl & Hl8 & _).
  assert (0 ≤ payload_len m.2)%Z by (unfold payload_len; lia).
  rewrite (proj2 (Z.eqb_neq _ _)) by lia.
  assert (∃ len kind, read_header (r_head r mod cap r) r = (len, kind)) as (len & kind & E) by (destruct (read_header _ r); eauto).
  rewrite E. assert ((if (kind =? KIND_PAD)%Z then (r_head r + (cap r - r_head r mod cap r), 0, read_header 0 r)%Z
      else (r_head r, r_head r mod cap r, (len, kind))%Z) =
    (at_record r (r_head r), at_record r (r_head r) mod cap r, (payload_len m.2, m.1))%Z) as ->.
  { revert Hh. unfold at_record. rewrite E. simpl. destruct (kind =? KIND_PAD)%Z; [|rewrite E; by intros ->].
    assert ((r_head r + (cap r - r_head r mod cap r)) mod cap r = 0)%Z as ->; [|by intros ->].
    pose proof (sh_cap _ S). rewrite (Z.div_mod (r_head r) (cap r)) at 1 by lia.
    replace (cap r * (r_head r / cap r) + r_head r mod cap r + (cap r - r_head r mod cap r))%Z
      with ((r_head r / cap r + 1) * cap r)%Z by lia. apply Z.mod_mul. lia. }
  rewrite Hp. fold (rec_len m.2). split_and!; [by destruct m| |done|done].
  assert ((at_record r (r_head r) + REC_HDR + align8 (payload_len m.2)) = at_record r (r_head r) + rec_len m.2)%Z as -> by (unfold rec_len; lia).
  assert ((at_record r (r_head r) + rec_len m.2) mod 8 = 0)%Z as Hn8 by (rewrite Z.add_mod, Hr8, Hl8 by lia; done).
  apply Forall_cons in Hks as [_ Hks]. simpl in Hn, Hmx. split; simpl; try done.
  - by destruct S.
  - split; [lia|done].
  - by apply (records_same r).
  - lia.
  - lia.
  - split; [done|lia].
Qed.

(** ** Messages, in the ring or beside it *)

(** The record [m] names an object that holds [x]. *)
Definition spill_of (r : ring) (m : Z * list byte) (x : list byte) : Prop :=
  ∃ kind name, (kind = KIND_SPILL ∨ kind = KIND_FILE) ∧ m = (kind, spill_record x name) ∧
    r_spills r !! (kind, name) = Some x ∧ (payload_len x < 2 ^ 64)%Z ∧ (payload_len name < 2 ^ 8)%Z.

(** The record [m] carries [x]. *)
Definition carries (r : ring) (m : Z * list byte) (x : list byte) : Prop := m = (KIND_DATA, x) ∨ spill_of r m x.

(** The object a record names. *)
Definition key_of (m : Z * list byte) : option (Z * list byte) :=
  if ((m.1 =? KIND_SPILL) || (m.1 =? KIND_FILE))%Z then Some (m.1, spill_name m.2) else None.

(** The queue holds [items]; [under_way] are the spills of puts that are not
    done. Every object belongs to one of them. *)
Record queueing (r : ring) (items : list (list byte)) (under_way : list (list byte * (Z * list byte))) : Prop := {
  qu_messages : ∃ ms, holds_messages r ms ∧ Forall2 (carries r) ms items ∧
    NoDup (omap key_of (ms ++ under_way.*2)) ∧ dom (r_spills r) = list_to_set (omap key_of (ms ++ under_way.*2));
  qu_under_way : Forall (λ '(x, m), spill_of r m x) under_way;
  qu_spill_at : (0 ≤ spill_at r < 2 ^ 32)%Z;
}.

Lemma spill_name_record x name : spill_name (spill_record x name) = name.
Proof.
  unfold spill_name, spill_record. rewrite drop_app_ge, le_bytes_length by (rewrite le_bytes_length; lia).
  by rewrite Nat.sub_diag, drop_0.
Qed.

Lemma key_of_spill r m x : spill_of r m x → ∃ kind name, key_of m = Some (kind, name) ∧ r_spills r !! (kind, name) = Some x.
Proof.
  intros (kind & name & Hk & -> & Hs & _). exists kind, name. split; [|done]. unfold key_of. simpl.
  rewrite spill_name_record. destruct Hk; by subst.
Qed.

(** An object of another record does not matter. *)
Lemma spill_of_insert r m x k d :
  spill_of r m x → r_spills r !! k = None → spill_of (with_spills (<[k := d]> (r_spills r)) r) m x.
Proof.
  intros (kind & name & Hk & Hm & Hs & Hl & Hl2) Hn. exists kind, name. split_and!; try done. simpl.
  rewrite lookup_insert_ne; [done|]. intros ->. congruence.
Qed.

Lemma spill_of_delete r m x k :
  spill_of r m x → key_of m ≠ Some k → spill_of (with_spills (delete k (r_spills r)) r) m x.
Proof.
  intros Hs Hne. destruct (key_of_spill r m x Hs) as (kind' & name' & Hkey & _).
  destruct Hs as (kind & name & Hk & -> & Hs & Hl & Hl2). exists kind, name. split_and!; try done. simpl.
  rewrite lookup_delete_ne; [done|]. intros ->. apply Hne. unfold key_of. simpl. rewrite spill_name_record.
  destruct Hk; by subst.
Qed.

Lemma carries_insert r m x k d :
  carries r m x → r_spills r !! k = None → carries (with_spills (<[k := d]> (r_spills r)) r) m x.
Proof. intros [->|Hs] Hn; [by left|right]. by apply spill_of_insert. Qed.

Lemma carries_delete r m x k :
  carries r m x → key_of m ≠ Some k → carries (with_spills (delete k (r_spills r)) r) m x.
Proof. intros [->|Hs] Hn; [by left|right]. by apply spill_of_delete. Qed.

Lemma holding_spills r ms m : holds_messages r ms → holds_messages (with_spills m r) ms.
Proof.
  intros H. split; simpl; try apply H.
  - destruct (ho_shaped _ _ H). by split.
  - apply (records_same r); try done; apply H.
Qed.

Lemma holding_same r r' ms :
  holds_messages r ms → cap r' = cap r → r_data r' = r_data r → r_head r' = r_head r → r_tail r' = r_tail r →
  r_count r' = r_count r → maxsize r' = maxsize r → holds_messages r' ms.
Proof.
  intros H E1 E2 E3 E4 E5 E6. split; rewrite ?E1, ?E2, ?E3, ?E4, ?E5, ?E6; try apply H.
  - destruct (ho_shaped _ _ H). split; by rewrite ?E1, ?E2.
  - apply (records_same r); try done; apply H.
Qed.

Lemma spills_same r r' m x : r_spills r' = r_spills r → spill_of r m x → spill_of r' m x.
Proof. intros E (kind & name & H). exists kind, name. by rewrite E. Qed.
Lemma carries_same r r' m x : r_spills r' = r_spills r → carries r m x → carries r' m x.
Proof. intros E [->|H]; [by left|right]. by apply (spills_same r). Qed.

Definition own (data : list byte) (st : putting) : list (list byte * (Z * list byte)) :=
  match spilled st with Some m => [(data, m)] | None => [] end.

(** A put that has no spill goes into the ring. *)
Definition put_ok (r : ring) (data : list byte) (st : putting) : Prop :=
  (must_spill st = false → spilled st = None ∧ (payload_len data ≤ spill_at r)%Z) ∧ (payload_len data < 2 ^ 64)%Z.

(** The spill of a put that gives up is removed. *)
Lemma discard_spec data st r items others :
  queueing r items (own data st ++ others) → queueing (discard (spilled st) r) items others ∧ same_ring r (discard (spilled st) r).
Proof.
  unfold own, discard. destruct (spilled st) as [[kind rec]|]; simpl; [|done].
  intros [(ms & Hh & Hc & Hnd & Hd) Hu Hsp]. split; [|done]. apply Forall_cons in Hu as [Hm Hu].
  assert (key_of (kind, rec) = Some (kind, spill_name rec)) as Hkey.
  { destruct Hm as (k & name & Hk & [= -> ->] & _). unfold key_of. simpl. destruct Hk; by subst. }
  assert (omap key_of (ms ++ (kind, rec) :: others.*2) ≡ₚ (kind, spill_name rec) :: omap key_of (ms ++ others.*2)) as Hperm.
  { rewrite !omap_app. csimpl. rewrite Hkey. by rewrite Permutation_middle. }
  simpl in Hnd, Hd. rewrite Hperm in Hnd. apply list.NoDup_cons in Hnd as [Hni Hnd].
  assert (∀ m, m ∈ ms ++ others.*2 → key_of m ≠ Some (kind, spill_name rec)) as Hne.
  { intros m Hin Hk. apply Hni. apply list_elem_of_omap. by exists m. }
  split; [exists ms| |done].
  - split_and!; [by apply holding_spills| |done|].
    + apply Forall2_same_length_lookup. split; [by eapply Forall2_length|]. intros i m x Hi Hx.
      apply carries_delete; [by eapply Forall2_lookup_lr|]. apply Hne, elem_of_app. left. by eapply list_elem_of_lookup_2.
    + simpl. rewrite dom_delete_L, Hd. apply set_eq. intros k. rewrite elem_of_difference, !elem_of_list_to_set, Hperm. set_solver.
  - apply Forall_forall. intros [x m] Hin. rewrite Forall_forall in Hu. apply spill_of_delete; [exact (Hu _ Hin)|].
    apply Hne, elem_of_app. right. apply list_elem_of_fmap. by exists (x, m).
Qed.

(** Names are made of a 64-bit counter: they are new while there are fewer
    objects than that. *)
Definition few (r : ring) : Prop := (Z.of_nat (size (r_spills r)) < 2 ^ 64)%Z.

Section put_spec.
Context (fresh : ring → list byte) (Hfresh : ∀ r k, few r → r_spills r !! (k, fresh r) = None).
Context (Hname : ∀ r, (payload_len (fresh r) < 2 ^ 8)%Z).

Lemma spill_to_spec kind data r items others :
  queueing r items others → few r → (kind = KIND_SPILL ∨ kind = KIND_FILE) → (payload_len data < 2 ^ 64)%Z →
  let '(sp, r') := spill_to fresh kind data r in
  queueing r' items ((data, sp) :: others) ∧ same_ring r r'.
Proof using Hfresh Hname.
  intros [(ms & Hh & Hc & Hnd & Hd) Hu Hsp] Hfew Hk Hl. unfold spill_to. split; [|done].
  pose proof (Hfresh r kind Hfew) as Hn.
  assert (key_of (kind, spill_record data (fresh r)) = Some (kind, fresh r)) as Hkey.
  { unfold key_of. simpl. rewrite spill_name_record. destruct Hk; by subst. }
  assert (omap key_of (ms ++ ((data, (kind, spill_record data (fresh r))) :: others).*2) ≡ₚ
          (kind, fresh r) :: omap key_of (ms ++ others.*2)) as Hperm.
  { rewrite !omap_app. csimpl. rewrite Hkey. by rewrite Permutation_middle. }
  split; [exists ms| |done].
  - split_and!; [by apply holding_spills| | |].
    + eapply Forall2_impl; [exact Hc|]. intros m x Hm. by apply carries_insert.
    + rewrite Hperm. constructor; [|done]. rewrite <-(elem_of_list_to_set (C:=gset _)), <-Hd, not_elem_of_dom. exact Hn.
    + simpl. rewrite dom_insert_L, Hd. apply set_eq. intros k. rewrite elem_of_list_to_set, Hperm. set_solver.
  - constructor.
    + exists kind, (fresh r). split_and!; try done. simpl. apply lookup_insert_eq.
    + eapply Forall_impl; [exact Hu|]. intros [x m] Hm. by apply spill_of_insert.
Qed.

Context (shm_answer disk_answer : ring → Z → os_answer).

(** What [put] may have done after a turn. *)
Definition turn_result (data : list byte) (expired : bool) (items : list (list byte))
    (others : list (list byte * (Z * list byte))) (r : ring) (t : res turned) (r' : ring) : Prop :=
  same_ring r r' ∧
  match t with
  | Ok (Return true) => queueing r' (items ++ [data]) others
  | Ok (Return false) => queueing r' items others ∧ expired = true
  | Ok (Again st) | Ok (Sleep st) => queueing r' items (own data st ++ others) ∧ put_ok r' data st
  | Raise e => queueing r' items others ∧ e = OSError
  | Spin => False
  end.

Lemma try_place_spec expired data st r items others :
  queueing r items (own data st ++ others) → put_ok r data st → (must_spill st = true → spilled st ≠ None) →
  let '(t, r') := try_place expired data st r in turn_result data expired items others r t r'.
Proof using.
  intros Q [Hst Hl] Hsp. pose proof Q as [(ms & Hh & Hc & Hnd & Hd) Hu Hsa]. unfold try_place.
  set (m := default (KIND_DATA, data) (spilled st)).
  assert (carries r m data ∧ kinds_ok m ∧ (payload_len m.2 < 2 ^ 32)%Z ∧
    omap key_of (ms ++ (own data st ++ others).*2) ≡ₚ omap key_of ((ms ++ [m]) ++ others.*2)) as (Hm & Hk & Hp & Hperm).
  { unfold m, own in *. destruct (spilled st) as [[k rec]|]; simpl.
    - apply Forall_cons in Hu as [Hm _]. split_and!; [by right| | |].
      + destruct Hm as (k' & name & Hk & [= -> ->] & _). destruct Hk; subst; [by right; left|by right; right].
      + destruct Hm as (k' & name & Hk & [= -> ->] & _ & _ & Hn). unfold spill_record, payload_len in *.
        rewrite length_app, le_bytes_length. lia.
      + by rewrite <-(assoc_L (++)).
    - split_and!; [by left|by left| |].
      + destruct (must_spill st) eqn:Hms; [by destruct Hsp|]. destruct (Hst eq_refl). lia.
      + rewrite !omap_app. csimpl. by rewrite app_nil_r. }
  fold m. destruct m as [kind payload] eqn:Em. simpl in Hp. pose proof (place_spec kind payload r ms Hh Hp Hk) as Hpl.
  destruct (place kind payload r) as [r1| |].
  - destruct Hpl as (Hh1 & Hs1 & Hsame). split; [done|]. destruct Hsame as (_ & _ & Es). split; [|by apply Forall_app in Hu as [_ Hu]; eapply Forall_impl; [exact Hu|]; intros [x m']; by apply spills_same|by rewrite Es].
    exists (ms ++ [(kind, payload)]). rewrite Hs1. split_and!; [done| |by rewrite <-Hperm|].
    + apply Forall2_app; [|constructor; [by eapply carries_same|constructor]].
      eapply Forall2_impl; [exact Hc|]. intros m' x. by apply carries_same.
    + rewrite Hd. apply set_eq. intros k. by rewrite !elem_of_list_to_set, Hperm.
  - destruct Hpl as [_ _]. destruct (Z.eqb_spec kind KIND_DATA) as [Hkd|Hkd].
    + split; [done|]. split; [exact Q|]. split; [done|done].
    + destruct expired; [|split; [done|]; split; [exact Q|by split]].
      destruct (discard_spec data st r items others Q) as [Q' S']. split; [done|by split].
  - destruct expired; [|split; [done|]; split; [exact Q|by split]].
    destruct (discard_spec data st r items others Q) as [Q' S']. split; [done|by split].
Qed.

Lemma put_turn_spec disk expired data st r items others :
  queueing r items (own data st ++ others) → put_ok r data st → few r →
  let '(t, r') := put_turn shm_answer disk_answer fresh disk expired data st r in
  turn_result data expired items others r t r'.
Proof using Hfresh Hname.
  intros Q Hok Hfew. unfold put_turn, make_spill, bind.
  destruct (must_spill st && bool_decide (spilled st = None)) eqn:Hb.
  2:{ apply try_place_spec; [done|done|]. intros Hms Hs. rewrite Hms, bool_decide_true in Hb by done. done. }
  apply andb_true_iff in Hb as [Hms Hs%bool_decide_eq_true]. unfold own in Q. rewrite Hs in Q. simpl in Q.
  assert (own data st = []) as Ho by (unfold own; by rewrite Hs).
  assert (∀ kind, kind = KIND_SPILL ∨ kind = KIND_FILE →
    let '(t, r') := (let '(sp, r0) := spill_to fresh kind data r in try_place expired data (Putting true (Some sp)) r0) in
    turn_result data expired items others r t r') as Hspill.
  { intros kind Hk. pose proof (spill_to_spec kind data r items others Q Hfew Hk (proj2 Hok)) as Hsp.
    destruct (spill_to fresh kind data r) as [sp r1]. destruct Hsp as [Q1 S1].
    pose proof (try_place_spec expired data (Putting true (Some sp)) r1 items others Q1) as Ht.
    destruct (try_place expired data (Putting true (Some sp)) r1) as [t r'].
    destruct Ht as [S2 Ht]; [split; [done|apply Hok]|done|].
    split; [|exact Ht]. destruct S1 as (?&?&?), S2 as (?&?&?). split_and!; congruence. }
  assert (turn_result data expired items others r (Raise OSError) r) as Hraise by (by split).
  assert (let '(t, r') := match disk_answer r (payload_len data) with
      | Fine => let '(sp, r0) := spill_to fresh KIND_FILE data r in try_place expired data (Putting true (Some sp)) r0
      | NoSpace => (Ok (if expired then Return false else Sleep st), r)
      | Broken => (Raise OSError, r) end in turn_result data expired items others r t r') as Hdisk.
  { destruct (disk_answer _ _); [by apply Hspill; right| |done].
    destruct expired; (split; [done|]); [by split|]. rewrite Ho. by split. }
  destruct disk.
  - destruct (disk_answer _ _); [by apply Hspill; right| |done]. simpl. exact Hdisk.
  - destruct (shm_answer _ _); [by apply Hspill; left| |done].
    destruct (disk_answer _ _); [by apply Hspill; right| |done]. simpl. exact Hdisk.
Qed.

End put_spec.

(** One pop, and what it carries. *)
Definition pop_one : prog ring (option (list byte)) := λ r,
  match pop_locked r with
  | (Some (kind, b), r) => (let! x := materialize kind b in ret (Some x)) r
  | (None, r) => (Ok None, r)
  end.

(** What is popped is read, and its object removed. *)
Lemma pop_one_spec r items others :
  queueing r items others →
  let '(x, r') := pop_one r in
  x = Ok (head items) ∧ queueing r' (tail items) others ∧ same_ring r r'.
Proof.
  intros [(ms & Hh & Hc & Hnd & Hd) Hu Hsa]. unfold pop_one. pose proof (pop_spec r ms Hh) as Hp.
  destruct (pop_locked r) as [m r1]. destruct Hp as (-> & Hh1 & Hs1 & S1). pose proof S1 as (_ & _ & Es).
  destruct Hc as [|m x ms items Hm Hc]; simpl in *.
  { split; [done|]. split; [|done]. split; [|by eapply Forall_impl; [exact Hu|]; intros [x m]; by apply spills_same|by rewrite Es].
    exists []. rewrite Hs1. by split_and!. }
  destruct m as [kind b]. unfold materialize, bind, ret. destruct Hm as [[= -> ->]|Hm].
  - simpl. split; [done|]. split; [|done]. split; [|by eapply Forall_impl; [exact Hu|]; intros [y m]; by apply spills_same|by rewrite Es].
    exists ms. rewrite Hs1. split_and!; try done. eapply Forall2_impl; [exact Hc|]. intros y m. by apply carries_same.
  - destruct (key_of_spill r _ x Hm) as (kind' & name' & Hkey & Hlook). rewrite Hkey in *.
    destruct Hm as (k' & name & Hk & [= -> ->] & Hs & Hl & _).
    assert (((k' =? KIND_SPILL) || (k' =? KIND_FILE))%Z = true) as -> by (destruct Hk; by subst).
    assert (kind' = k' ∧ name' = name) as [-> ->].
    { unfold key_of in Hkey. simpl in Hkey. rewrite spill_name_record in Hkey. destruct Hk; subst; by injection Hkey as <- <-. }
    rewrite spill_name_record, Hs1, Hs. unfold spill_record at 1. rewrite take_app_length' by (by rewrite le_bytes_length).
    rewrite le_value_bytes by (unfold payload_len in *; simpl; lia). unfold payload_len at 1. rewrite Nat2Z.id, take_ge by lia.
    apply list.NoDup_cons in Hnd as [Hni Hnd].
    assert (∀ m, m ∈ ms ++ others.*2 → key_of m ≠ Some (k', name)) as Hne.
    { intros m Hin Hk'. apply Hni. apply list_elem_of_omap. by exists m. }
    split; [done|]. split; [|done]. rewrite <-Hs1. split; simpl.
    + exists ms. split_and!; [by apply holding_spills| |done|].
      * apply Forall2_same_length_lookup. split; [by eapply Forall2_length|]. intros i m y Hi Hy.
        apply carries_delete; [eapply carries_same; [exact Hs1|by eapply Forall2_lookup_lr]|].
        apply Hne, elem_of_app. left. by eapply list_elem_of_lookup_2.
      * simpl. rewrite dom_delete_L, Hs1, Hd. apply set_eq. intros k. rewrite elem_of_difference, !elem_of_list_to_set. set_solver.
    + apply Forall_forall. intros [y m] Hin. rewrite Forall_forall in Hu. apply spill_of_delete;
        [eapply spills_same; [exact Hs1|exact (Hu _ Hin)]|].
      apply Hne, elem_of_app. right. apply list_elem_of_fmap. by exists (y, m).
    + by rewrite Es.
Qed.

Lemma wait_for_items_spec r ms : holds_messages r ms → wait_for_items r = true ↔ ms ≠ [].
Proof.
  intros H. unfold wait_for_items. rewrite negb_true_iff, Z.eqb_neq. destruct ms as [|m ms].
  - pose proof (ho_records _ _ H) as Hr. simpl in Hr. done.
  - destruct (records_bounds r (m :: ms) (r_head r) (r_tail r) (ho_shaped _ _ H) (proj2 (ho_head _ _ H)) (ho_records _ _ H)) as (_ & _ & Hb).
    specialize (Hb ltac:(done)). destruct (ho_records _ _ H) as (_ & Hle & _). split; [done|lia].
Qed.

Lemma get_nowait_spec r items others :
  queueing r items others →
  let '(x, r') := get_nowait r in
  x = Ok (head items) ∧ queueing r' (tail items) others ∧ same_ring r r'.
Proof.
  intros Q. pose proof (pop_one_spec r items others Q) as Hp. destruct Q as [(ms & Hh & Hc & Hn) Hu Hs].
  pose proof (wait_for_items_spec r ms Hh) as Hw. unfold get_nowait. cbn [loop]. unfold get_turn at 1, bind at 1.
  destruct (wait_for_items r) eqn:E.
  2:{ destruct Hc; [|by pose proof (proj2 Hw ltac:(done))]. split_and!; [done| |done]. split; [by exists []|done|done]. }
  unfold pop_one in Hp. destruct (pop_locked r) as [[[kind b]|] r1] eqn:Ep.
  - unfold bind, ret in *. by destruct (materialize kind b r1) as [[x|e|] r2].
  - pose proof (pop_spec r ms Hh) as Hps. rewrite Ep in Hps. destruct Hps as [Hhd _]. destruct Hw as [Hw _]. by destruct ms; [destruct (Hw eq_refl)|].
Qed.

(** Popping does not touch the objects, nor reading one the records. *)
Lemma pop_with_spills m r : pop_locked (with_spills m r) = ((pop_locked r).1, with_spills m (pop_locked r).2).
Proof.
  assert (∀ p, read_header p (with_spills m r) = read_header p r) as Hr by done.
  unfold pop_locked. rewrite !Hr. cbn [with_spills r_head r_tail r_count cap]. destruct (_ =? _)%Z; [done|].
  destruct (read_header (r_head r mod cap r) r) as [len kind]. destruct (kind =? KIND_PAD)%Z; [|done]. by destruct (read_header 0 r).
Qed.
Lemma pop_many_with_spills n m : ∀ r, pop_many n (with_spills m r) = ((pop_many n r).1, with_spills m (pop_many n r).2).
Proof.
  induction n as [|n IH]; intros r; simpl; [done|]. rewrite pop_with_spills.
  destruct (pop_locked r) as [[x|] r1]; simpl; [|done]. rewrite IH. by destruct (pop_many n r1).
Qed.
Lemma pop_spills r : r_spills (pop_locked r).2 = r_spills r.
Proof.
  unfold pop_locked. destruct (_ =? _)%Z; [done|]. destruct (read_header _ r) as [len kind]. destruct (kind =? KIND_PAD)%Z; [|done].
  by destruct (read_header 0 r).
Qed.
Lemma pop_many_spills n : ∀ r, r_spills (pop_many n r).2 = r_spills r.
Proof.
  induction n as [|n IH]; intros r; simpl; [done|]. pose proof (pop_spills r) as Hp.
  destruct (pop_locked r) as [[x|] r1]; simpl in *; [|done]. specialize (IH r1). destruct (pop_many n r1). simpl in *. congruence.
Qed.
Lemma materialize_spills kind b m : ∃ x m', ∀ r, r_spills r = m → materialize kind b r = (x, with_spills m' r).
Proof.
  assert (∀ r, with_spills (r_spills r) r = r) as Hid by (by intros []).
  unfold materialize. destruct (_ || _); [|exists (Ok b), m; by intros r <-; rewrite Hid].
  destruct (m !! (kind, spill_name b)) as [d|] eqn:E.
  - exists (Ok (take (Z.to_nat (le_value (take 8 b))) d)), (delete (kind, spill_name b) m). intros r <-. by rewrite E.
  - exists (Raise OSError), m. intros r <-. by rewrite E, Hid.
Qed.

Lemma pop_many_spec n : ∀ r items others,
  queueing r items others →
  let '(xs, r') := (let '(got, r) := pop_many n r in materialize_all got r) in
  xs = Ok (take n items) ∧ queueing r' (drop n items) others ∧ same_ring r r'.
Proof.
  induction n as [|n IH]; intros r items others Q; [done|]. simpl.
  pose proof (pop_one_spec r items others Q) as Hp. unfold pop_one in Hp. pose proof (pop_spills r) as Hs1.
  destruct (pop_locked r) as [[[kind b]|] r1]; [|by destruct Hp as ([= Hx] & Hp); destruct items].
  destruct (materialize_spills kind b (r_spills r)) as (x & m' & Hmat). simpl in Hs1.
  unfold bind at 1 in Hp. rewrite (Hmat r1 Hs1) in Hp. pose proof (pop_many_spills n r1) as Hs2. pose proof (pop_many_with_spills n m' r1) as Hc.
  destruct (pop_many n r1) as [got r2]. cbn [materialize_all]. unfold bind at 1. rewrite (Hmat r2) by (simpl in Hs2; congruence).
  destruct x as [x|e|]; [|by destruct Hp as [Hp _]..]. destruct Hp as ([= Hx] & Q1 & S1). destruct items as [|y items]; [done|]. injection Hx as ->.
  specialize (IH _ _ _ Q1). rewrite Hc in IH. simpl in IH. unfold bind. destruct (materialize_all got _) as [xs r3].
  destruct IH as (-> & Q2 & S2). split_and!; [done|done|]. destruct S1 as (?&?&?), S2 as (?&?&?). split_and!; simpl in *; congruence.
Qed.

(** [get_many] is as many gets as there are payloads, at most. *)
Lemma get_many_spec n r items others :
  queueing r items others →
  let '(xs, r') := get_many_nowait n r in
  xs = Ok (take (n `max` 1) items) ∧ queueing r' (drop (n `max` 1) items) others ∧ same_ring r r'.
Proof.
  intros Q. pose proof (pop_many_spec (n `max` 1) r items others Q) as Hp. unfold get_many_nowait.
  destruct (wait_for_items r) eqn:E; [exact Hp|]. destruct Q as [(ms & Hh & Hc & Hn) Hu Hs].
  destruct Hc; [|by pose proof (proj2 (wait_for_items_spec r _ Hh) ltac:(done)); congruence].
  rewrite take_nil, drop_nil. split_and!; [done| |done]. split; [by exists []|done|done].
Qed.

(** The names of the messages in shared memory, and the number of those in
    files. *)
Definition spill_names (ms : list (Z * list byte)) : list (list byte) :=
  omap (λ m, if (m.1 =? KIND_SPILL)%Z then Some (spill_name m.2) else None) ms.
Definition file_count (ms : list (Z * list byte)) : Z := Z.of_nat (length (filter (λ m, m.1 = KIND_FILE) ms)).

Lemma keys_split ms : (Z.of_nat (length (spill_names ms)) + file_count ms = Z.of_nat (length (omap key_of ms)))%Z.
Proof.
  unfold spill_names, file_count. induction ms as [|[k b] ms IH]; [done|]. rewrite filter_cons. csimpl. unfold key_of at 1. cbn [fst snd].
  assert (KIND_SPILL ≠ KIND_FILE) by done. case_decide as Hf; destruct (Z.eqb_spec k KIND_SPILL) as [Hs|Hs], (Z.eqb_spec k KIND_FILE) as [Hf'|Hf']; try congruence; simpl; lia.
Qed.

Lemma unlink_record r h m names files :
  holds_record r h m → (h < r_tail r)%Z →
  unlink_turn r (h, names, files) = ret (inl (h + rec_len m.2, names ++ spill_names [m], files + file_count [m])%Z).
Proof.
  intros (Hh & Hp & Hk & _) Ht. unfold unlink_turn. rewrite (proj2 (Z.ltb_lt _ _)) by done. rewrite Hh, (proj2 (Z.eqb_neq _ _)) by done.
  rewrite Hp. unfold rec_len, spill_names, file_count. rewrite filter_cons, filter_nil. csimpl. rewrite Z.add_assoc.
  assert (KIND_SPILL ≠ KIND_FILE) by done. case_decide as Hf; destruct (Z.eqb_spec m.1 KIND_SPILL) as [Hs|Hs], (Z.eqb_spec m.1 KIND_FILE) as [Hf'|Hf']; try congruence;
    rewrite ?app_nil_r; simpl; rewrite ?Z.add_0_r; done.
Qed.

Lemma unlink_scan r ms : ∀ head names files fuel,
  shaped r → (head mod 8 = 0)%Z → records r head ms (r_tail r) → (Z.to_nat (r_tail r - head) < fuel)%nat →
  loop fuel (unlink_turn r) (head, names, files) tt = (Ok (names ++ spill_names ms, files + file_count ms)%Z, tt).
Proof.
  induction ms as [|m ms IH]; intros head names files fuel S Hh Hr Hf; (destruct fuel as [|fuel]; [lia|]).
  { simpl in Hr. cbn [loop]. unfold unlink_turn at 1, bind at 1. rewrite (proj2 (Z.ltb_ge _ _)) by lia. simpl. by rewrite app_nil_r, Z.add_0_r. }
  pose proof (records_bounds r (m :: ms) head (r_tail r) S Hh Hr) as (_ & _ & Hb). specialize (Hb ltac:(done)).
  destruct Hr as (Hm & Hle & H8 & Hms). destruct (rec_len_spec m.2) as (Hl & Hl8 & _). assert (0 ≤ payload_len m.2)%Z by (unfold payload_len; lia).
  assert (∀ fuel, (Z.to_nat (r_tail r - at_record r head) < fuel)%nat →
    loop fuel (unlink_turn r) (at_record r head, names, files) tt = (Ok (names ++ spill_names (m :: ms), files + file_count (m :: ms))%Z, tt)) as Hrec.
  { intros [|fuel'] Hf'; [lia|]. cbn [loop]. rewrite (unlink_record r _ m) by (done || lia). unfold bind, ret at 1.
    rewrite IH; [|done|by rewrite Z.add_mod, H8, Hl8 by lia|done|lia].
    unfold spill_names, file_count. change (m :: ms) with ([m] ++ ms). rewrite omap_app, filter_app, length_app, <-(assoc_L (++)).
    by rewrite Nat2Z.inj_add, Z.add_assoc. }
  revert Hrec. destruct (at_record_bounds r head S Hh) as [->|[He Hge]]; [intros Hrec; by apply (Hrec (Datatypes.S fuel))|].
  intros Hrec. cbn [loop]. unfold unlink_turn at 1, bind at 1. rewrite (proj2 (Z.ltb_lt _ _)) by lia.
  pose proof (eq_refl (at_record r head)) as He'. unfold at_record in He' at 1.
  destruct (read_header (head mod cap r) r) as [len kind]. simpl in He'.
  destruct (kind =? KIND_PAD)%Z; [|lia]. unfold ret at 1. rewrite He'. apply Hrec. lia.
Qed.

(** The owner's [unlink] leaves no message and no object, and returns how many
    messages beside the ring were unread. *)
Theorem unlink_clears r items :
  queueing r items [] →
  let '(n, r') := unlink r in
  n = Ok (Z.of_nat (size (r_spills r))) ∧ r_spills r' = ∅ ∧ queueing r' [] [].
Proof.
  intros [(ms & Hh & Hc & Hnd & Hd) Hu Hs]. unfold unlink. simpl in Hnd, Hd. rewrite app_nil_r in Hnd, Hd.
  rewrite (unlink_scan r ms) by (apply Hh || lia). simpl.
  assert (filter (λ '((kind, _), _), kind = KIND_SPILL) (remove_noted (spill_names ms) (r_spills r)) = ∅) as ->.
  { apply map_empty. intros [k name]. apply eq_None_not_Some. intros [d [Hl Hk]%map_lookup_filter_Some].
    apply map_lookup_filter_Some in Hl as [Hl Hn]. apply Hn. split; [done|].
    apply elem_of_dom_2 in Hl. rewrite Hd, elem_of_list_to_set, list_elem_of_omap in Hl. destruct Hl as (m & Hm & Hkm).
    apply list_elem_of_omap. exists m. split; [done|]. unfold key_of in Hkm. destruct (_ || _); [|done]. injection Hkm as <- <-. by rewrite Hk. }
  rewrite map_size_empty. split_and!; [|done|].
  - f_equal. rewrite <-(size_dom (D:=gset _)), Hd, size_list_to_set by done. pose proof (keys_split ms). lia.
  - destruct Hh as [Hsh [H0 H8] Hr Hcap _ _ [Hm0 _]]. destruct (records_bounds r ms _ _ Hsh H8 Hr) as (Ht8 & Ht & _).
    split; [|done|done]. exists []. split_and!; [|done|apply NoDup_nil_2|apply dom_empty_L].
    split; simpl; try done; [by destruct Hsh|lia|destruct Hsh; lia|split; [done|lia]].
Qed.

(** ** Any number of producers and consumers

    A turn of a put, and a get, are one step each: the lock makes them so, and
    the objects they touch outside it are their own. *)

Record system := System {
  s_ring : ring;
  s_puts : gmap nat (list byte * bool * putting);   (* the puts under way: payload, disk, state *)
  s_placed : list (list byte);                      (* the payloads of the puts that returned True *)
  s_got : list (list byte);
}.

Section system.
Context (shm_answer disk_answer : ring → Z → os_answer) (fresh : ring → list byte).

(** A turn of put [p] and what becomes of it; one that raised is gone. *)
Definition after_turn (p : nat) (data : list byte) (disk : bool) (t : res turned) (r : ring) (w : system) : system :=
  match t with
  | Ok (Again st) | Ok (Sleep st) => System r (<[p := (data, disk, st)]> (s_puts w)) (s_placed w) (s_got w)
  | Ok (Return true) => System r (delete p (s_puts w)) (s_placed w ++ [data]) (s_got w)
  | Ok (Return false) | Raise _ | Spin => System r (delete p (s_puts w)) (s_placed w) (s_got w)
  end.

Inductive move : system → system → Prop :=
  | move_begin w p data disk :
      s_puts w !! p = None → (payload_len data < 2 ^ 64)%Z →
      move w (System (s_ring w) (<[p := (data, disk, start_put data (s_ring w))]> (s_puts w)) (s_placed w) (s_got w))
  | move_turn w p data disk st expired t r :
      s_puts w !! p = Some (data, disk, st) → few (s_ring w) →
      put_turn shm_answer disk_answer fresh disk expired data st (s_ring w) = (t, r) →
      move w (after_turn p data disk t r w)
  | move_get w x r :
      get_nowait (s_ring w) = (Ok (Some x), r) → move w (System r (s_puts w) (s_placed w) (s_got w ++ [x]))
  | move_get_many w n xs r :
      get_many_nowait n (s_ring w) = (Ok xs, r) → move w (System r (s_puts w) (s_placed w) (s_got w ++ xs)).

Definition start_system (max ring_bytes : Z) (spill : option Z) : system := System (new_ring max ring_bytes spill) ∅ [] [].

Inductive system_runs (w0 : system) : system → Prop :=
  | run_start : system_runs w0 w0
  | run_move w w' : system_runs w0 w → move w w' → system_runs w0 w'.
End system.

(** The spills of the puts under way. *)
Definition spills_of (ps : gmap nat (list byte * bool * putting)) : list (list byte * (Z * list byte)) :=
  map_to_list ps ≫= (λ '(_, (data, _, st)), own data st).

Lemma spills_of_insert ps p data disk st :
  spills_of (<[p := (data, disk, st)]> ps) ≡ₚ own data st ++ spills_of (delete p ps).
Proof.
  unfold spills_of. rewrite <-insert_delete_eq, map_to_list_insert by apply lookup_delete_eq. done.
Qed.

Lemma spills_of_lookup ps p data disk st :
  ps !! p = Some (data, disk, st) → spills_of ps ≡ₚ own data st ++ spills_of (delete p ps).
Proof. intros Hp. rewrite <-(insert_id ps p (data, disk, st) Hp) at 1. apply spills_of_insert. Qed.

Lemma queueing_perm r items u u' : u ≡ₚ u' → queueing r items u → queueing r items u'.
Proof.
  intros Hu [(ms & Hh & Hc & Hnd & Hd) Hf Hs].
  assert (omap key_of (ms ++ u.*2) ≡ₚ omap key_of (ms ++ u'.*2)) as Hp by (by rewrite Hu).
  split; [exists ms|by rewrite <-Hu|done]. split_and!; [done|done|by rewrite <-Hp|].
  rewrite Hd. apply set_eq. intros k. by rewrite !elem_of_list_to_set, Hp.
Qed.

Lemma omap_length_le {A B} (f : A → option B) l : (length (omap f l) ≤ length l)%nat.
Proof. induction l as [|x l IH]; [done|]. csimpl. destruct (f x); simpl; lia. Qed.

Lemma spills_of_length ps : (length (spills_of ps) ≤ size ps)%nat.
Proof.
  unfold spills_of. rewrite <-length_map_to_list. induction (map_to_list ps) as [|[p [[d k] st]] l IH]; [done|].
  rewrite bind_cons, length_app. cbn [length].
  assert (length (own d st) ≤ 1)%nat by (unfold own; destruct (spilled st); simpl; lia). lia.
Qed.

(** What every run keeps. *)
Definition in_order (w : system) : Prop := ∃ items,
  queueing (s_ring w) items (spills_of (s_puts w)) ∧ s_placed w = s_got w ++ items ∧
  map_Forall (λ _ '(data, _, st), put_ok (s_ring w) data st) (s_puts w).

Lemma new_ring_queueing max ring_bytes spill :
  (0 ≤ max)%Z → (0 ≤ default 0 spill)%Z → (ring_bytes < 2 ^ 32)%Z → queueing (new_ring max ring_bytes spill) [] [].
Proof.
  intros Hm Hs Hr. unfold new_ring. destruct (align8_spec (Z.max ring_bytes (64 * 2 ^ 10)) ltac:(lia)) as [H8 Hb].
  set (c := align8 (Z.max ring_bytes (64 * 2 ^ 10))) in *. pose proof (Z.mul_div_le c 4 ltac:(lia)).
  assert (0 ≤ c / 4)%Z by (apply Z.div_pos; lia).
  split; simpl; [|done|destruct spill; simpl in *; lia].
  exists []. split_and!; [|done|constructor|done]. split; simpl; try done; [|lia|lia].
  split; simpl; [lia|done|]. rewrite length_replicate. lia.
Qed.

Section runs.
Context (shm_answer disk_answer : ring → Z → os_answer) (fresh : ring → list byte).
Context (Hfresh : ∀ r k, few r → r_spills r !! (k, fresh r) = None) (Hname : ∀ r, (payload_len (fresh r) < 2 ^ 8)%Z).

Lemma move_keeps w w' : in_order w → move shm_answer disk_answer fresh w w' → in_order w'.
Proof using Hfresh Hname.
  intros I Hmv. revert I. destruct Hmv as [w0 p data disk Hn Hl|w0 p data disk st expired t r Hw Hfew Ht|w0 x r Hg|w0 n xs r Hg];
    intros (items & Q & Hp & Hok); unfold in_order; simpl.
  - exists items. split_and!; [|done|].
    + eapply queueing_perm; [|exact Q]. rewrite spills_of_insert, delete_id by done. done.
    + apply map_Forall_insert_2; [|done]. split; [|done]. unfold start_put. simpl. intros Hlt%Z.ltb_ge. done.
  - pose proof (queueing_perm _ _ _ _ (spills_of_lookup _ _ _ _ _ Hw) Q) as Q'.
    pose proof (put_turn_spec fresh Hfresh Hname shm_answer disk_answer disk expired data st (s_ring w0) items _ Q' (Hok _ _ Hw) Hfew) as Hs.
    rewrite Ht in Hs. destruct Hs as [(Hc & Hm & Hsa) Hs].
    assert (∀ d s, put_ok (s_ring w0) d s → put_ok r d s) as Hkeep by (intros d s; unfold put_ok; by rewrite Hsa).
    assert (map_Forall (λ _ '(data, _, st), put_ok r data st) (delete p (s_puts w0))) as Hdel.
    { apply map_Forall_delete. intros q [[d k] s] Hq. apply Hkeep. exact (Hok _ _ Hq). }
    destruct t as [[st'|st'|[]]|e|]; simpl; [| | | | |done].
    1,2: destruct Hs as [Hq Hpo]; exists items; split_and!; [by eapply queueing_perm; [symmetry; apply spills_of_insert|]|done|];
      rewrite <-insert_delete_eq; by apply map_Forall_insert_2.
    + exists (items ++ [data]). split_and!; [done|by rewrite Hp, (assoc_L (++))|done].
    + exists items. split_and!; [apply Hs|done|done].
    + exists items. split_and!; [apply Hs|done|done].
  - pose proof (get_nowait_spec _ _ _ Q) as Hs. rewrite Hg in Hs. destruct Hs as ([= Hx] & Q' & (_ & _ & Hsa)).
    destruct items as [|y items]; [done|]. injection Hx as ->. exists items. split_and!; [done|by rewrite Hp, <-(assoc_L (++))|].
    intros q [[d k] s] Hq. pose proof (Hok _ _ Hq) as Hk. unfold put_ok. by rewrite Hsa.
  - pose proof (get_many_spec n _ _ _ Q) as Hs. rewrite Hg in Hs. destruct Hs as ([= ->] & Q' & (_ & _ & Hsa)).
    exists (drop (n `max` 1) items). split_and!; [done|by rewrite Hp, <-(assoc_L (++)), take_drop|].
    intros q [[d k] s] Hq. pose proof (Hok _ _ Hq) as Hk. unfold put_ok. by rewrite Hsa.
Qed.

Lemma move_maxsize w w' :
  in_order w → move shm_answer disk_answer fresh w w' → maxsize (s_ring w') = maxsize (s_ring w).
Proof using Hfresh Hname.
  intros I Hmv. revert I. destruct Hmv as [w0 p data disk Hn Hl|w0 p data disk st expired t r Hw Hfew Ht|w0 x r Hg|w0 n xs r Hg];
    intros (items & Q & _ & Hok); [done| | |].
  - pose proof (put_turn_spec fresh Hfresh Hname shm_answer disk_answer disk expired data st (s_ring w0) items _
      (queueing_perm _ _ _ _ (spills_of_lookup _ _ _ _ _ Hw) Q) (Hok _ _ Hw) Hfew) as Hs.
    rewrite Ht in Hs. destruct Hs as [(_ & Hm2 & _) _]. destruct t as [[]|e|]; simpl; try done. by destruct b.
  - pose proof (get_nowait_spec _ _ _ Q) as Hs. rewrite Hg in Hs. by destruct Hs as (_ & _ & (_ & ? & _)).
  - pose proof (get_many_spec n _ _ _ Q) as Hs. rewrite Hg in Hs. by destruct Hs as (_ & _ & (_ & ? & _)).
Qed.

Lemma runs_in_order max ring_bytes spill w :
  (0 ≤ max)%Z → (0 ≤ default 0 spill)%Z → (ring_bytes < 2 ^ 32)%Z →
  system_runs shm_answer disk_answer fresh (start_system max ring_bytes spill) w → in_order w ∧ maxsize (s_ring w) = max.
Proof using Hfresh Hname.
  intros Hm Hsp Hr. induction 1 as [|w w' _ [IH Hmax] Hmv].
  - split; [|done]. exists []. split_and!; [by apply new_ring_queueing|done|apply map_Forall_empty].
  - split; [by eapply move_keeps|]. rewrite <-Hmax. by apply move_maxsize.
Qed.


(** With the deadline past, a turn ends the put or makes a spill due. *)
Lemma turn_moves_on disk data st r items others :
  queueing r items (own data st ++ others) →
  match put_turn shm_answer disk_answer fresh disk true data st r with
  | (Ok (Again st'), r') => must_spill st = false ∧ must_spill st' = true ∧ r' = r
  | (Ok (Sleep _), _) => False
  | _ => True
  end.
Proof using.
  intros [_ Hu _]. unfold put_turn, bind, make_spill, try_place.
  destruct (must_spill st) eqn:Hms; simpl.
  2:{ destruct (default (KIND_DATA, data) (spilled st)) as [k p]. destruct (place k p r); simpl; [done| |done].
      by destruct (k =? KIND_DATA)%Z. }
  assert (∀ kind rec r r1, kind ≠ KIND_DATA → match (match place kind rec r with
      | Placed r => (Ok (Return true), r)
      | NoRoom => if (kind =? KIND_DATA)%Z then (Ok (Again (Putting true (Some (kind, rec)))), r)
                  else (Ok (Return false), discard (Some (kind, rec)) r)
      | NoSlot => (Ok (Return false), discard (Some (kind, rec)) r) end) with
      | (Ok (Again st'), r') => true = false ∧ must_spill st' = true ∧ r' = r1 | (Ok (Sleep _), _) => False | _ => True end) as Hpl.
  { intros kind rec r0 r1 Hk. destruct (place kind rec r0); try done. by rewrite (proj2 (Z.eqb_neq _ _)). }
  unfold own in Hu. destruct (spilled st) as [[k rec]|] eqn:Hs; simpl.
  - rewrite Hs. simpl. apply Hpl. apply Forall_cons in Hu as [(k' & name & Hk & [= -> ->] & _) _]. by destruct Hk; subst.
  - destruct disk, (shm_answer r (payload_len data)), (disk_answer r (payload_len data)); simpl; try done; by apply Hpl.
Qed.

(** A put that does not block returns: the message is last in the queue, or
    nothing has changed, or an OSError says that there is neither shared memory
    nor disk. *)
Theorem put_nowait_outcome disk data r items others :
  queueing r items others → (payload_len data < 2 ^ 64)%Z → few r →
  let '(b, r') := put_nowait shm_answer disk_answer fresh disk data r in
  match b with
  | Ok true => queueing r' (items ++ [data]) others
  | Ok false => queueing r' items others
  | Raise e => queueing r' items others ∧ e = OSError
  | Spin => False
  end.
Proof using Hfresh Hname.
  intros Q Hl Hfew. unfold put_nowait.
  assert (∀ fuel st r0, queueing r0 items (own data st ++ others) → put_ok r0 data st → few r0 → (must_spill st = true ∨ 2 ≤ fuel)%nat → (1 ≤ fuel)%nat →
    let '(b, r') := loop fuel (λ st, let! t := put_turn shm_answer disk_answer fresh disk true data st in
                ret (match t with Again st | Sleep st => inl st | Return b => inr b end)) st r0 in
    match b with
    | Ok true => queueing r' (items ++ [data]) others
    | Ok false => queueing r' items others
    | Raise e => queueing r' items others ∧ e = OSError
    | Spin => False
    end) as Hloop.
  { induction fuel as [|fuel IH]; intros st r0 Q0 Hok Hf0 Hf Hf1; [lia|]. simpl. unfold bind at 1 2, ret at 1.
    pose proof (put_turn_spec fresh Hfresh Hname shm_answer disk_answer disk true data st r0 items others Q0 Hok Hf0) as Ht.
    pose proof (turn_moves_on disk data st r0 items others Q0) as Hmv.
    destruct (put_turn _ _ _ _ _ _ _ _) as [[[st'|st'|[]]|e|] r1]; destruct Ht as [_ Ht]; try done.
    - destruct Ht as [Q1 Hok1], Hmv as (Hm0 & Hm1 & ->). apply IH; [done|done|done|by left|]. destruct Hf as [Hf|Hf]; [congruence|lia].
    - exact (proj1 Ht). }
  apply Hloop; [done| |done|right; lia|lia]. split; [|done]. unfold start_put. simpl. intros Hlt%Z.ltb_ge. done.
Qed.
End runs.

(** ** A run *)
Module RingDemo.

(** Names of eight bytes: the first that no object has. *)
Definition name_of (i : nat) : list byte := le_bytes 8 (Z.of_nat i).
Definition used (r : ring) : list (list byte) := (map_to_list (r_spills r)).*1.*2.
Definition candidates (r : ring) : list (list byte) := map name_of (seq 0 (S (size (r_spills r)))).
Definition fresh_name (r : ring) : list byte := default (name_of 0) (head (filter (λ n, n ∉ used r) (candidates r))).

Lemma fresh_name_length r : (payload_len (fresh_name r) < 2 ^ 8)%Z.
Proof.
  unfold fresh_name. destruct (head _) as [n|] eqn:E; simpl; [|done].
  assert (n ∈ candidates r) as Hn.
  { apply (list_elem_of_filter (λ n, n ∉ used r)). by apply head_Some_elem_of. }
  unfold candidates in Hn. apply list_elem_of_fmap in Hn as (i & -> & _). unfold payload_len, name_of. by rewrite le_bytes_length.
Qed.

Lemma candidates_nodup r : few r → NoDup (candidates r).
Proof.
  intros Hf. unfold candidates. apply NoDup_fmap_2_strong; [|apply NoDup_seq].
  intros i j Hi%elem_of_seq Hj%elem_of_seq Heq. unfold name_of in Heq. apply (f_equal le_value) in Heq. unfold few in Hf.
  rewrite !le_value_bytes in Heq by (simpl; lia). lia.
Qed.

Lemma fresh_name_new r k : few r → r_spills r !! (k, fresh_name r) = None.
Proof.
  intros Hf. assert (fresh_name r ∉ used r) as Hn.
  { unfold fresh_name. destruct (filter (λ n, n ∉ used r) (candidates r)) as [|n l] eqn:E; simpl.
    2:{ apply (list_elem_of_filter (λ n, n ∉ used r) (candidates r)). rewrite E. by left. }
    exfalso. assert (candidates r ⊆+ used r) as Hle%submseteq_length.
    { apply NoDup_submseteq; [by apply candidates_nodup|]. intros n Hn. destruct (decide (n ∈ used r)) as [|Hno]; [done|].
      assert (n ∈ filter (λ n, n ∉ used r) (candidates r)) as Hin by (by apply list_elem_of_filter). rewrite E in Hin. by apply elem_of_nil in Hin. }
    unfold candidates, used in Hle. rewrite !length_fmap, length_seq, length_map_to_list in Hle. lia. }
  destruct (r_spills r !! (k, fresh_name r)) as [d|] eqn:Hd; [|done]. destruct Hn. unfold used. apply list_elem_of_fmap.
  exists (k, fresh_name r). split; [done|]. apply list_elem_of_fmap. exists (k, fresh_name r, d). split; [done|by apply elem_of_map_to_list].
Qed.

Definition has_room (_ : ring) (n : Z) : os_answer := if (n <? 2 ^ 20)%Z then Fine else NoSpace.

(** Steps as functions. *)
Definition begin (p : nat) (data : list byte) (w : system) : system :=
  match s_puts w !! p with
  | Some _ => w
  | None => System (s_ring w) (<[p := (data, false, start_put data (s_ring w))]> (s_puts w)) (s_placed w) (s_got w)
  end.
Definition take_turn (p : nat) (expired : bool) (w : system) : system :=
  match s_puts w !! p with
  | Some (data, disk, st) =>
      let '(t, r) := put_turn has_room has_room fresh_name disk expired data st (s_ring w) in after_turn p data disk t r w
  | None => w
  end.
Definition get1 (w : system) : system :=
  match get_nowait (s_ring w) with
  | (Ok (Some x), r) => System r (s_puts w) (s_placed w) (s_got w ++ [x])
  | _ => w
  end.

Notation reaches := (system_runs has_room has_room fresh_name).

Lemma begin_runs w0 p data w : reaches w0 w → (payload_len data < 2 ^ 64)%Z → reaches w0 (begin p data w).
Proof.
  intros Hr Hl. unfold begin. destruct (s_puts w !! p) eqn:E; [done|]. eapply run_move; [exact Hr|]. by apply move_begin.
Qed.
Lemma turn_runs w0 p expired w : reaches w0 w → few (s_ring w) → reaches w0 (take_turn p expired w).
Proof.
  intros Hr Hf. unfold take_turn. destruct (s_puts w !! p) as [[[data disk] st]|] eqn:E; [|done].
  destruct (put_turn _ _ _ _ _ _ _ _) as [t r] eqn:Et. eapply run_move; [exact Hr|]. by eapply move_turn.
Qed.
Lemma get1_runs w0 w : reaches w0 w → reaches w0 (get1 w).
Proof.
  intros Hr. unfold get1. destruct (get_nowait (s_ring w)) as [[[x|]|e|] r] eqn:E; try done.
  eapply run_move; [exact Hr|]. by apply move_get.
Qed.

(** Three puts in a ring of two: the second goes beside the ring, the third
    waits until the first was taken. *)
Definition short : list byte := [x61; x62; x63].
Definition long : list byte := [x64; x65; x66; x67; x68; x69].
Definition empty_system : system := start_system 2 0 (Some 4%Z).
Definition two_placed : system := take_turn 1 true (begin 1 long (take_turn 0 true (begin 0 short empty_system))).
Definition third_waits : system := take_turn 2 false (begin 2 short two_placed).
Definition third_placed : system := take_turn 2 false (get1 third_waits).

Lemma few_dec w : (Z.of_nat (size (r_spills (s_ring w))) <? 2 ^ 64)%Z = true → few (s_ring w).
Proof. apply Z.ltb_lt. Qed.


(** Capacity is not always [maxsize] items: payloads that fill the ring to the
    last byte leave no room for the record of a spill. *)
Definition quarter : list byte := replicate (Z.to_nat (16384 - 8)) x00.
Definition put_ (data : list byte) (r : ring) : bool * ring :=
  match put_nowait has_room has_room fresh_name false data r with (Ok b, r) => (b, r) | (_, r) => (false, r) end.
Theorem capacity_below_maxsize :
  let r := Nat.iter 4 (λ r, (put_ quarter r).2) (new_ring 10 0 None) in
  r_count r = 4%Z ∧ maxsize r = 10%Z ∧ (put_nowait has_room has_room fresh_name false [x61] r).1 = Ok false.
Proof. vm_compute. done. Qed.
End RingDemo.
