(* ===== verification/ObjectQueue.v ===== *)
(** * Objects through the ring (shmqueue.py over ring.rs)

    [ShmQueue] and [Ring] together: objects are encoded, their bytes travel
    through the byte ring of the Rust core, and are loaded on the other side.
    Encoding, each turn of a put, taking a message and loading it are steps of
    their own, of any number of processes. *)
From S2P Require Import Prelude Types Queues ShmQueue Ring.
From Stdlib Require Import Strings.Byte.

(** The bytes, and whether they go to disk if they have to spill. *)
Abbreviation encoding := (list byte * bool)%type.

Section object_queue.
Context {X : Type}.
(** pickle; the settings of the queue; the room in the store. *)
Context (dumps : X → list byte) (loads : list byte → res X).
Context (dump_handle : nat → list byte) (load_handle : list byte → option nat).
Context (parks_at : Z) (has_store : bool) (room : store → Z → bool).
(** What the ring asks of the system. *)
Context (shm_answer disk_answer : ring → Z → os_answer) (fresh : ring → list byte).

Definition pack_obj : X → store → encoding * store := encode dumps dump_handle parks_at has_store room.
Definition load_obj : list byte → store → res X * store := _load loads load_handle.

(** The ring with its puts and what it has handed out; the store; the objects
    of the puts that are not done, by the number of the put; those that were
    put, in order; those of them not yet loaded, by their place in that order;
    what the loads gave; and how many puts gave up. *)
Record objects := Objects {
  o_sys : system;
  o_store : store;
  o_puts : gmap nat (X * encoding);
  o_sent : list X;
  o_unloaded : gmap nat (X * encoding);
  o_loaded : gmap nat (res X);
  o_given_up : nat;
}.

(** [RingQueue.put] begins. *)
Definition begin_put (p : nat) (e : encoding) (w : system) : system :=
  System (s_ring w) (<[p := (e.1, e.2, start_put e.1 (s_ring w))]> (s_puts w)) (s_placed w) (s_got w).

(** A turn of put [p], of [x] encoded as [e]. When the ring answers False the
    caller may put the same encoding again; when it raises, the put is over. *)
Definition after_put (p : nat) (x : X) (e : encoding) (t : res turned) (r : ring) (o : objects) : objects :=
  let sys := after_turn p e.1 e.2 t r (o_sys o) in
  match t with
  | Ok (Return true) =>
      Objects sys (o_store o) (delete p (o_puts o)) (o_sent o ++ [x])
        (<[length (o_sent o) := (x, e)]> (o_unloaded o)) (o_loaded o) (o_given_up o)
  | Ok _ => Objects sys (o_store o) (o_puts o) (o_sent o) (o_unloaded o) (o_loaded o) (o_given_up o)
  | _ => Objects sys (o_store o) (delete p (o_puts o)) (o_sent o) (o_unloaded o) (o_loaded o) (S (o_given_up o))
  end.

Definition with_sys (sys : system) (o : objects) : objects :=
  Objects sys (o_store o) (o_puts o) (o_sent o) (o_unloaded o) (o_loaded o) (o_given_up o).

Inductive object_move : objects → objects → Prop :=
  (** [encode], then the first call of [put_encoded]. *)
  | om_put o p x e s :
      o_puts o !! p = None → s_puts (o_sys o) !! p = None →
      pack_obj x (o_store o) = (e, s) → (payload_len e.1 < 2 ^ 64)%Z →
      object_move o (Objects (begin_put p e (o_sys o)) s (<[p := (x, e)]> (o_puts o)) (o_sent o) (o_unloaded o) (o_loaded o) (o_given_up o))
  | om_turn o p x e st expired t r :
      o_puts o !! p = Some (x, e) → s_puts (o_sys o) !! p = Some (e, st) → few (s_ring (o_sys o)) →
      put_turn shm_answer disk_answer fresh e.2 expired e.1 st (s_ring (o_sys o)) = (t, r) →
      object_move o (after_put p x e t r o)
  (** [put_encoded] again, after [Full]. *)
  | om_retry o p x e :
      o_puts o !! p = Some (x, e) → s_puts (o_sys o) !! p = None → (payload_len e.1 < 2 ^ 64)%Z →
      object_move o (with_sys (begin_put p e (o_sys o)) o)
  (** [Full] goes to the caller. *)
  | om_give_up o p x e :
      o_puts o !! p = Some (x, e) → s_puts (o_sys o) !! p = None →
      object_move o (Objects (o_sys o) (o_store o) (delete p (o_puts o)) (o_sent o) (o_unloaded o) (o_loaded o) (S (o_given_up o)))
  | om_get o msg r :
      get_nowait (s_ring (o_sys o)) = (Ok (Some msg), r) →
      object_move o (with_sys (System r (s_puts (o_sys o)) (s_placed (o_sys o)) (s_got (o_sys o) ++ [msg])) o)
  | om_get_many o n msgs r :
      get_many_nowait n (s_ring (o_sys o)) = (Ok msgs, r) →
      object_move o (with_sys (System r (s_puts (o_sys o)) (s_placed (o_sys o)) (s_got (o_sys o) ++ msgs)) o)
  (** The process that took message [i] loads it. *)
  | om_load o i msg x s :
      s_got (o_sys o) !! i = Some msg → o_loaded o !! i = None → load_obj msg (o_store o) = (x, s) →
      object_move o (Objects (o_sys o) s (o_puts o) (o_sent o) (delete i (o_unloaded o)) (<[i := x]> (o_loaded o)) (o_given_up o)).

Definition no_queue_objects (max ring_bytes : Z) (spill : option Z) : objects :=
  Objects (start_system max ring_bytes spill) (Store ∅ 0) ∅ [] ∅ ∅ 0.

Inductive object_runs (o0 : objects) : objects → Prop :=
  | or_start : object_runs o0 o0
  | or_move o o' : object_runs o0 o → object_move o o' → object_runs o0 o'.
End object_queue.

(** ** What the runs keep *)

Section invariant.
Context {X : Type} (dumps : X → list byte) (loads : list byte → res X).
Context (dump_handle : nat → list byte) (load_handle : list byte → option nat).
Context (parks_at : Z) (has_store : bool) (room : store → Z → bool).
Context (Hpickle : lawful_pickle dumps loads dump_handle load_handle).
Local Abbreviation pack_ := (pack_obj dumps dump_handle parks_at has_store room).
Local Abbreviation load := (load_obj loads load_handle).

(** The store holds what the encodings refer to, each its own block, and
    [lost]. *)
Definition kept (s : store) (l : list (X * encoding)) (lost : gset nat) : Prop :=
  holding dumps dump_handle load_handle s l.*2 l.*1 lost.

Lemma Forall2_pairs {A B} (P : B → A → Prop) (l : list (A * B)) : Forall2 P l.*2 l.*1 ↔ Forall (λ x, P x.2 x.1) l.
Proof. induction l as [|[a b] l IH]; csimpl; [by split|]. by rewrite Forall2_cons, Forall_cons, IH. Qed.

#[export] Instance kept_perm s : Proper ((≡ₚ) ==> (=) ==> iff) (kept s).
Proof.
  assert (∀ l l' lost, l ≡ₚ l' → kept s l lost → kept s l' lost) as H.
  { intros l l' lost Hl (Hh & Hnd & Hdisj & Hdom & Hnext).
    assert (ids load_handle l.*2 ≡ₚ ids load_handle l'.*2) as Hids by (unfold ids; by rewrite Hl).
    assert (list_to_set (ids load_handle l'.*2) =@{gset nat} list_to_set (ids load_handle l.*2)) as Hset.
    { apply set_eq. intros b. by rewrite !elem_of_list_to_set, Hids. }
    unfold kept, holding. rewrite Hset. split_and!; try done; [|by rewrite <-Hids].
    apply Forall2_pairs. rewrite <-Hl. by apply Forall2_pairs. }
  intros l l' Hl lost _ <-. split; by apply H.
Qed.

Lemma kept_encode s l lost x e s' : pack_ x s = (e, s') → kept s l lost → kept s' ((x, e) :: l) lost.
Proof using Hpickle.
  intros He Hk. rewrite Permutation_cons_append. unfold kept. rewrite !fmap_app. simpl.
  destruct Hpickle as [H1 H2 H3].
  pose proof (encode_holding dumps loads dump_handle load_handle parks_at 0%Z has_store room H1 H2 H3 x s _ _ _ Hk) as H.
  unfold pack_obj in He. by rewrite He in H.
Qed.

Lemma kept_drop s x e l lost : kept s ((x, e) :: l) lost → ∃ lost', kept s l lost' ∧ (size lost' ≤ S (size lost))%nat.
Proof using Hpickle.
  rewrite Permutation_cons_append. unfold kept. rewrite !fmap_app. simpl. intros H. destruct Hpickle as [H1 H2 H3].
  apply (holding_drop dumps loads dump_handle load_handle 0%Z (λ _ _, false) H1 H2 H3) in H.
  eexists. split; [exact H|]. clear. rewrite size_union_alt. rewrite <-(Nat.add_1_l (size lost)). apply Nat.add_le_mono.
  - unfold ids. csimpl. destruct (block_of load_handle e) as [b|]; [|rewrite list_to_set_nil, size_empty; lia].
    rewrite list_to_set_singleton_L, size_singleton. lia.
  - apply subseteq_size. set_solver.
Qed.

Lemma kept_load s x e l lost r s' : load e.1 s = (r, s') → kept s ((x, e) :: l) lost → r = Ok x ∧ kept s' l lost.
Proof using Hpickle.
  intros Hl Hk. destruct Hpickle as [H1 H2 H3].
  destruct (load_holding dumps loads dump_handle load_handle 0%Z 0%Z false (λ _ _, false) H1 H2 H3 s e _ x _ lost Hk) as [Hr Hk'].
  unfold load_obj in Hl. rewrite Hl in *. by split.
Qed.

Context (shm_answer disk_answer : ring → Z → os_answer) (fresh : ring → list byte).
Context (max ring_bytes : Z) (spill : option Z).

(** The encodings that may still be loaded. *)
Definition live (o : objects (X:=X)) : list (X * encoding) := (map_to_list (o_unloaded o)).*2 ++ (map_to_list (o_puts o)).*2.

Record object_inv (o : objects (X:=X)) : Prop := {
  oi_sys : system_runs shm_answer disk_answer fresh (start_system max ring_bytes spill) (o_sys o);
  oi_puts p data disk st : s_puts (o_sys o) !! p = Some (data, disk, st) → ∃ x, o_puts o !! p = Some (x, (data, disk));
  oi_sent : length (s_placed (o_sys o)) = length (o_sent o);
  oi_unloaded i x e : o_unloaded o !! i = Some (x, e) → s_placed (o_sys o) !! i = Some e.1 ∧ o_sent o !! i = Some x;
  oi_loaded i r : o_loaded o !! i = Some r →
    o_unloaded o !! i = None ∧ ∃ x, o_sent o !! i = Some x ∧ r = Ok x;
  oi_all i : (i < length (o_sent o))%nat → o_loaded o !! i = None → is_Some (o_unloaded o !! i);
  oi_count : (size (o_loaded o) + size (o_unloaded o) = length (o_sent o))%nat;
  oi_kept : ∃ lost, kept (o_store o) (live o) lost ∧ (size lost ≤ o_given_up o)%nat;
}.

Lemma live_puts_insert (o : objects (X:=X)) p x e :
  o_puts o !! p = None → (map_to_list (<[p := (x, e)]> (o_puts o))).*2 ≡ₚ (x, e) :: (map_to_list (o_puts o)).*2.
Proof. intros Hp. by rewrite map_to_list_insert. Qed.

Lemma live_delete (m : gmap nat (X * encoding)) p x e :
  m !! p = Some (x, e) → (map_to_list m).*2 ≡ₚ (x, e) :: (map_to_list (delete p m)).*2.
Proof. intros Hp. rewrite <-(map_to_list_delete m p (x, e)) by done. done. Qed.

Lemma live_size (o : objects (X:=X)) : length (live o) = (size (o_unloaded o) + size (o_puts o))%nat.
Proof. unfold live. by rewrite length_app, !length_fmap, !length_map_to_list. Qed.

Lemma sys_step w w' :
  system_runs shm_answer disk_answer fresh (start_system max ring_bytes spill) w → move shm_answer disk_answer fresh w w' →
  system_runs shm_answer disk_answer fresh (start_system max ring_bytes spill) w'.
Proof. intros H1 H2. by eapply run_move. Qed.

(** The ring goes on by itself. *)
Lemma inv_with_sys o r xs :
  object_inv o → system_runs shm_answer disk_answer fresh (start_system max ring_bytes spill)
    (System r (s_puts (o_sys o)) (s_placed (o_sys o)) (s_got (o_sys o) ++ xs)) →
  object_inv (with_sys (System r (s_puts (o_sys o)) (s_placed (o_sys o)) (s_got (o_sys o) ++ xs)) o).
Proof using. intros [] Hr. by split. Qed.

Lemma inv_begin o p x e s ps :
  object_inv o → s_puts (o_sys o) !! p = None → (payload_len e.1 < 2 ^ 64)%Z → ps !! p = Some (x, e) →
  (∀ q y, q ≠ p → o_puts o !! q = Some y → ps !! q = Some y) →
  (∃ lost, kept s ((map_to_list (o_unloaded o)).*2 ++ (map_to_list ps).*2) lost ∧ (size lost ≤ o_given_up o)%nat) →
  object_inv (Objects (begin_put p e (o_sys o)) s ps (o_sent o) (o_unloaded o) (o_loaded o) (o_given_up o)).
Proof using.
  intros [] Hp Hl Hpe Hps Hk. split; simpl; try done.
  - eapply sys_step; [done|]. by apply move_begin.
  - intros q data disk st Hq. destruct (decide (q = p)) as [->|Hne].
    + rewrite lookup_insert_eq in Hq. injection Hq as <- <- <-. exists x. by rewrite <-surjective_pairing.
    + rewrite lookup_insert_ne in Hq by done. destruct (oi_puts0 _ _ _ _ Hq) as [y Hy]. exists y. by apply Hps.
Qed.

(** A put ends without its message in the ring. *)
Lemma inv_lost o p x e sys :
  object_inv o → o_puts o !! p = Some (x, e) →
  system_runs shm_answer disk_answer fresh (start_system max ring_bytes spill) sys →
  s_placed sys = s_placed (o_sys o) → s_puts sys = delete p (s_puts (o_sys o)) →
  object_inv (Objects sys (o_store o) (delete p (o_puts o)) (o_sent o) (o_unloaded o) (o_loaded o) (S (o_given_up o))).
Proof using Hpickle.
  intros [] Hp Hsys Hpl Hs. split; simpl; rewrite ?Hpl; try done.
  - rewrite Hs. intros q data disk st [Hne Hq]%lookup_delete_Some. destruct (oi_puts0 _ _ _ _ Hq) as [y Hy].
    exists y. by rewrite lookup_delete_ne.
  - destruct oi_kept0 as (lost & Hk & Hl). unfold live in Hk. rewrite (live_delete _ _ _ _ Hp), <-Permutation_middle in Hk.
    apply kept_drop in Hk as (lost' & Hk & Hl'). exists lost'. split; [exact Hk|lia].
Qed.

(** A put ends with its message in the ring. *)
Lemma inv_placed o p x e sys :
  object_inv o → o_puts o !! p = Some (x, e) →
  system_runs shm_answer disk_answer fresh (start_system max ring_bytes spill) sys →
  s_placed sys = s_placed (o_sys o) ++ [e.1] → s_puts sys = delete p (s_puts (o_sys o)) →
  object_inv (Objects sys (o_store o) (delete p (o_puts o)) (o_sent o ++ [x])
    (<[length (o_sent o) := (x, e)]> (o_unloaded o)) (o_loaded o) (o_given_up o)).
Proof using.
  intros I Hp Hsys Hpl Hs. pose proof I as [].
  assert (o_unloaded o !! length (o_sent o) = None) as Hnone.
  { destruct (o_unloaded o !! length (o_sent o)) as [[y e']|] eqn:E; [|done]. destruct (oi_unloaded0 _ _ _ E) as [_ Hy].
    apply lookup_lt_Some in Hy. lia. }
  assert (∀ i r, o_loaded o !! i = Some r → (i < length (o_sent o))%nat) as Hlt.
  { intros i r Hi. destruct (oi_loaded0 i r Hi) as (_ & y & Hy & _). by eapply lookup_lt_Some. }
  split; simpl; rewrite ?Hpl, ?Hs; try done.
  - intros q data disk st [Hne Hq]%lookup_delete_Some. destruct (oi_puts0 _ _ _ _ Hq) as [y Hy].
    exists y. by rewrite lookup_delete_ne.
  - rewrite !length_app, oi_sent0. done.
  - intros i y e' [[<- [= <- <-]]|[Hne Hi]]%lookup_insert_Some.
    + rewrite <-oi_sent0 at 1. by rewrite !list_lookup_middle.
    + destruct (oi_unloaded0 _ _ _ Hi) as [H1 H2]. split; by apply lookup_app_l_Some.
  - intros i r Hi. pose proof (Hlt i r Hi). destruct (oi_loaded0 i r Hi) as (Hn & y & Hy & Hr). rewrite lookup_insert_ne by lia.
    split; [done|]. exists y. split; [by apply lookup_app_l_Some|done].
  - intros i Hi Hn. rewrite length_app in Hi. simpl in Hi. destruct (decide (i = length (o_sent o))) as [->|Hne].
    + rewrite lookup_insert_eq. by eexists.
    + rewrite lookup_insert_ne by done. apply oi_all0; [lia|done].
  - rewrite map_size_insert_None, length_app by done. simpl. lia.
  - destruct oi_kept0 as (lost & Hk & Hl). exists lost. split; [|done]. unfold live in *. simpl.
    rewrite map_to_list_insert by done. csimpl. rewrite (live_delete _ _ _ _ Hp), <-Permutation_middle in Hk. exact Hk.
Qed.

Context (Hfresh : ∀ r k, few r → r_spills r !! (k, fresh r) = None) (Hname : ∀ r, (payload_len (fresh r) < 2 ^ 8)%Z).
Context (Hmax : (0 ≤ max)%Z) (Hspill : (0 ≤ default 0 spill)%Z) (Hbytes : (ring_bytes < 2 ^ 32)%Z).

(** What was taken was put, in order. *)
Lemma taken_was_put o i msg :
  object_inv o → s_got (o_sys o) !! i = Some msg → s_placed (o_sys o) !! i = Some msg.
Proof using Hfresh Hname Hmax Hspill Hbytes.
  intros I Hi. destruct (runs_in_order shm_answer disk_answer fresh Hfresh Hname max ring_bytes spill (o_sys o)
    Hmax Hspill Hbytes (oi_sys o I)) as [(items & _ & Hp & _) _]. rewrite Hp. by apply lookup_app_l_Some.
Qed.

Lemma inv_load o i msg r s :
  object_inv o → s_got (o_sys o) !! i = Some msg → o_loaded o !! i = None → load msg (o_store o) = (r, s) →
  object_inv (Objects (o_sys o) s (o_puts o) (o_sent o) (delete i (o_unloaded o)) (<[i := r]> (o_loaded o)) (o_given_up o)).
Proof using Hpickle Hfresh Hname Hmax Hspill Hbytes.
  intros I Hi Hn Hload. pose proof (taken_was_put o i msg I Hi) as Hpl. pose proof I as [].
  destruct (oi_all0 i) as [[x e] He]; [rewrite <-oi_sent0; by eapply lookup_lt_Some|done|].
  destruct (oi_unloaded0 i x e He) as [Hpe Hx]. rewrite Hpl in Hpe. injection Hpe as ->.
  destruct oi_kept0 as (lost & Hk & Hl). unfold live in Hk. rewrite (live_delete _ _ _ _ He) in Hk. simpl in Hk.
  apply (kept_load _ _ _ _ _ _ _ Hload) in Hk as [-> Hk].
  split; simpl; try done.
  - intros j y e' [_ Hj]%lookup_delete_Some. by apply oi_unloaded0.
  - intros j r [[<- <-]|[Hne Hj]]%lookup_insert_Some.
    + rewrite lookup_delete_eq. split; [done|]. by exists x.
    + rewrite lookup_delete_ne by done. by apply oi_loaded0.
  - intros j Hj [Hne Hnj]%lookup_insert_None. rewrite lookup_delete_ne by done. by apply oi_all0.
  - rewrite map_size_insert_None, map_size_delete_Some by (by rewrite ?He; eexists || done).
    assert (size (o_unloaded o) ≠ 0)%nat; [|lia]. intros H0%map_size_empty_inv. by rewrite H0 in He.
  - by exists lost.
Qed.

Lemma object_move_inv o o' :
  object_inv o →
  object_move dumps loads dump_handle load_handle parks_at has_store room shm_answer disk_answer fresh o o' → object_inv o'.
Proof using Hpickle Hfresh Hname Hmax Hspill Hbytes.
  intros I Hm. pose proof (oi_sys o I) as Hsys. pose proof (oi_kept o I) as (lost & Hk & Hl).
  destruct Hm as [o p x e s Hp Hsp He Hlen|o p x e st expired t r Hp Hsp Hfew Ht|o p x e Hp Hsp Hlen|o p x e Hp Hsp|
    o msg r Hg|o n msgs r Hg|o i msg r s Hi Hn Hload].
  - apply (inv_begin o p x); try done.
    + apply lookup_insert_eq.
    + intros q y Hne Hq. by rewrite lookup_insert_ne.
    + exists lost. split; [|done]. rewrite (live_puts_insert o p x e Hp), <-Permutation_middle. by eapply kept_encode.
  - destruct e as [data disk]. assert (move shm_answer disk_answer fresh (o_sys o) (after_turn p data disk t r (o_sys o))) as Hmv.
    { by eapply move_turn. }
    pose proof (sys_step _ _ Hsys Hmv) as Hsys'. destruct t as [[st'|st'|[]]|er|]; simpl in *.
    1,2: destruct I; split; try done; simpl; intros q d k s0 [[<- [= <- <- _]]|[_ Hq]]%lookup_insert_Some;
      [by exists x|by eapply oi_puts0].
    + by apply (inv_placed o p x (data, disk)).
    + destruct I; split; try done; simpl. intros q d k s0 [_ Hq]%lookup_delete_Some. by eapply oi_puts0.
    + by apply (inv_lost o p x (data, disk)).
    + by apply (inv_lost o p x (data, disk)).
  - apply (inv_begin o p x); try done. by exists lost.
  - apply (inv_lost o p x e); try done. by rewrite delete_id.
  - apply inv_with_sys; [done|]. eapply sys_step; [exact Hsys|]. by apply move_get.
  - apply inv_with_sys; [done|]. eapply sys_step; [exact Hsys|]. by eapply move_get_many.
  - by eapply inv_load.
Qed.
End invariant.

Lemma no_objects_inv {X} (dumps : X → list byte) dump_handle load_handle shm_answer disk_answer fresh max ring_bytes spill :
  object_inv dumps dump_handle load_handle shm_answer disk_answer fresh max ring_bytes spill (no_queue_objects (X:=X) max ring_bytes spill).
Proof.
  split; try done; simpl.
  - apply run_start.
  - intros i Hi. lia.
  - exists ∅. split; [apply holding_new|done].
Qed.

Section runs.
Context {X : Type} (dumps : X → list byte) (loads : list byte → res X).
Context (dump_handle : nat → list byte) (load_handle : list byte → option nat).
Context (parks_at : Z) (has_store : bool) (room : store → Z → bool).
Context (shm_answer disk_answer : ring → Z → os_answer) (fresh : ring → list byte).
Local Abbreviation runs max ring_bytes spill :=
  (object_runs dumps loads dump_handle load_handle parks_at has_store room shm_answer disk_answer fresh
     (no_queue_objects max ring_bytes spill)).

(** C20: Objects arrive as they were put, and in that order. In every run of any
    number of producers and consumers, each with the steps of its own between
    the others': the message that is taken [i]-th loads, whenever it is
    loaded, to the object that was put [i]-th, be it carried by the ring, by a
    block of the store, by a spill or by a file; the next message to be taken
    is the first that waits; and of the store no more blocks are in use than
    messages not yet loaded, puts not done and puts given up. *)
Theorem objects_arrive_in_order max ring_bytes spill o :
  lawful_pickle dumps loads dump_handle load_handle →
  (∀ r k, few r → r_spills r !! (k, fresh r) = None) → (∀ r, payload_len (fresh r) < 2 ^ 8)%Z →
  (0 ≤ max)%Z → (0 ≤ default 0 spill)%Z → (ring_bytes < 2 ^ 32)%Z →
  runs max ring_bytes spill o →
  (∀ i r, o_loaded o !! i = Some r → ∃ x, o_sent o !! i = Some x ∧ r = Ok x) ∧
  (∃ waiting, s_placed (o_sys o) = s_got (o_sys o) ++ waiting ∧ length (s_placed (o_sys o)) = length (o_sent o) ∧
     (get_nowait (s_ring (o_sys o))).1 = Ok (head waiting)) ∧
  (size (dom (blocks (o_store o))) + size (o_loaded o) ≤ length (o_sent o) + size (o_puts o) + o_given_up o)%nat.
Proof.
  intros Hp Hfresh Hname Hmax Hspill Hbytes Hr.
  assert (object_inv dumps dump_handle load_handle shm_answer disk_answer fresh max ring_bytes spill o) as I.
  { induction Hr as [|o o' _ IH Hm]; [apply no_objects_inv|by eapply object_move_inv]. }
  pose proof I as []. split_and!.
  - intros i r Hi. by destruct (oi_loaded0 i r Hi) as [_ ?].
  - destruct (runs_in_order shm_answer disk_answer fresh Hfresh Hname max ring_bytes spill (o_sys o)
      Hmax Hspill Hbytes oi_sys0) as [(items & Q & Hpl & _) _].
    exists items. split_and!; [done|done|]. pose proof (get_nowait_spec _ _ _ Q) as Hg.
    destruct (get_nowait (s_ring (o_sys o))). by destruct Hg as [-> _].
  - destruct oi_kept0 as (lost & Hk & Hl). apply holding_size in Hk. rewrite length_fmap, live_size in Hk. lia.
Qed.
End runs.

(** ** A run *)
Module ObjectDemo.
Import RingDemo.

Definition pack_bytes (x : list byte) (s : store) : encoding * store :=
  pack_obj ShmDemo.dumps ShmDemo.dump_handle 8 true ShmDemo.room x s.
Definition put_begins (p : nat) (x : list byte) (o : objects) : objects :=
  let '(e, s) := pack_bytes x (o_store o) in
  Objects (begin_put p e (o_sys o)) s (<[p := (x, e)]> (o_puts o)) (o_sent o) (o_unloaded o) (o_loaded o) (o_given_up o).
Definition put_turns (p : nat) (expired : bool) (o : objects (X:=list byte)) : objects :=
  match o_puts o !! p, s_puts (o_sys o) !! p with
  | Some (x, e), Some (_, st) =>
      let '(t, r) := put_turn has_room has_room fresh_name e.2 expired e.1 st (s_ring (o_sys o)) in after_put p x e t r o
  | _, _ => o
  end.
Definition takes (n : nat) (o : objects (X:=list byte)) : objects :=
  match get_many_nowait n (s_ring (o_sys o)) with
  | (Ok msgs, r) => with_sys (System r (s_puts (o_sys o)) (s_placed (o_sys o)) (s_got (o_sys o) ++ msgs)) o
  | _ => o
  end.
Definition loads_ (i : nat) (o : objects (X:=list byte)) : objects :=
  match s_got (o_sys o) !! i with
  | Some msg =>
      let '(x, s) := load_obj ShmDemo.loads ShmDemo.load_handle msg (o_store o) in
      Objects (o_sys o) s (o_puts o) (o_sent o) (delete i (o_unloaded o)) (<[i := x]> (o_loaded o)) (o_given_up o)
  | None => o
  end.

Notation runs_to := (object_runs ShmDemo.dumps ShmDemo.loads ShmDemo.dump_handle ShmDemo.load_handle 8 true ShmDemo.room
  has_room has_room fresh_name).

Lemma put_begins_runs o0 p x o :
  runs_to o0 o → o_puts o !! p = None → s_puts (o_sys o) !! p = None →
  (payload_len (pack_bytes x (o_store o)).1.1 <? 2 ^ 64)%Z = true → runs_to o0 (put_begins p x o).
Proof.
  intros Hr H1 H2 H3%Z.ltb_lt. unfold put_begins. destruct (pack_bytes x (o_store o)) as [e s] eqn:E.
  eapply or_move; [exact Hr|]. by apply om_put.
Qed.

Lemma put_turns_runs o0 p expired (x : list byte) (e : encoding) st o :
  runs_to o0 o → o_puts o !! p = Some (x, e) → s_puts (o_sys o) !! p = Some (e, st) →
  (Z.of_nat (size (r_spills (s_ring (o_sys o)))) <? 2 ^ 64)%Z = true → runs_to o0 (put_turns p expired o).
Proof.
  intros Hr H1 H2 H3%Z.ltb_lt. unfold put_turns. rewrite H1, H2.
  destruct (put_turn _ _ _ _ _ _ _ _) as [t r] eqn:E. eapply or_move; [exact Hr|]. by eapply om_turn.
Qed.

Lemma takes_runs o0 n o : runs_to o0 o → runs_to o0 (takes n o).
Proof.
  intros Hr. unfold takes. destruct (get_many_nowait n (s_ring (o_sys o))) as [[msgs|e|] r] eqn:E; try done.
  eapply or_move; [exact Hr|]. by eapply om_get_many.
Qed.

Lemma loads_runs o0 i o : runs_to o0 o → o_loaded o !! i = None → runs_to o0 (loads_ i o).
Proof.
  intros Hr Hn. unfold loads_. destruct (s_got (o_sys o) !! i) as [msg|] eqn:Hi; [|done].
  destruct (load_obj _ _ msg (o_store o)) as [x s] eqn:E. eapply or_move; [exact Hr|]. by eapply om_load.
Qed.

(** Two puts at a time, one by way of a block; two messages are taken, and the
    second is loaded first. *)
Definition o0 : objects (X:=list byte) := no_queue_objects 4 0 None.
Definition o1 : objects := put_begins 1 ShmDemo.small (put_begins 0 ShmDemo.large o0).
Definition o2 : objects := put_turns 1 true (put_turns 0 true o1).
Definition o3 : objects := put_turns 2 true (put_begins 2 ShmDemo.huge o2).
Definition o4 : objects := loads_ 1 (takes 2 o3).

Lemma objects_arrive_in_order_witness :
  o_sent o4 = [ShmDemo.large; ShmDemo.small; ShmDemo.huge] ∧ o_loaded o4 = {[ 1%nat := Ok ShmDemo.small ]} ∧
  dom (blocks (o_store o4)) = {[0%nat]} ∧
  (∀ i r, o_loaded o4 !! i = Some r → ∃ x, o_sent o4 !! i = Some x ∧ r = Ok x) ∧
  (∃ waiting, s_placed (o_sys o4) = s_got (o_sys o4) ++ waiting ∧ length (s_placed (o_sys o4)) = length (o_sent o4) ∧
     (get_nowait (s_ring (o_sys o4))).1 = Ok (head waiting)) ∧
  (size (dom (blocks (o_store o4))) + size (o_loaded o4) ≤ length (o_sent o4) + size (o_puts o4) + o_given_up o4)%nat.
Proof.
  split; [vm_compute; reflexivity|]. split; [vm_compute; reflexivity|]. split; [vm_compute; reflexivity|].
  assert (runs_to o0 o0) as H0 by apply or_start.
  assert (runs_to o0 o1) as H1.
  { unfold o1. apply put_begins_runs; [|vm_compute; reflexivity..]. apply put_begins_runs; [exact H0|vm_compute; reflexivity..]. }
  assert (runs_to o0 o2) as H2.
  { unfold o2. eapply put_turns_runs; [|vm_compute; reflexivity..]. eapply put_turns_runs; [exact H1|vm_compute; reflexivity..]. }
  assert (runs_to o0 o3) as H3.
  { unfold o3. eapply put_turns_runs; [|vm_compute; reflexivity..]. apply put_begins_runs; [exact H2|vm_compute; reflexivity..]. }
  assert (runs_to o0 o4) as H4.
  { unfold o4. apply loads_runs; [|vm_compute; reflexivity]. by apply takes_runs. }
  pose proof (objects_arrive_in_order ShmDemo.dumps ShmDemo.loads ShmDemo.dump_handle ShmDemo.load_handle 8 true ShmDemo.room
    has_room has_room fresh_name 4 0 None o4 ShmDemo.pickle fresh_name_new fresh_name_length) as H.
  apply H; [lia|simpl; lia|lia|exact H4].
Defined.
End ObjectDemo.
