(* ===== verification/Lock.v ===== *)
(** * The lock (rust/src/sys.rs: lock, unlock, shm_map_io)

    A word in shared memory: 0 when free, else the pid of the holder, with bit
    31 set when others may be asleep. A waiter that finds the same holder for a
    [SLICE] asks whether that process is alive, and takes the lock over when it
    is not. Each atomic operation of each thread is a step; between any two
    steps other threads run, time passes and processes are killed. Pids are
    not used again. *)
From S2P Require Import Prelude.

Definition SLICE : Z := 50.         (* ms *)
Definition SPIN : nat := 64.
Definition WAITERS : Z := Z.shiftl 1 31.
(** [v & !WAITERS], of a [u32]. *)
Definition holder_of (v : Z) : Z := Z.land v (Z.lxor (2 ^ 32 - 1) WAITERS).
Definition marked (v : Z) : bool := negb (Z.land v WAITERS =? 0)%Z.

(** ** Where a thread is *)

(** Before the operation named; [since], and [v] as it was loaded. *)
Inductive lock_pc :=
  | Outside
  | Entered                         (* the first compare_exchange *)
  | Spinning (n : nat)              (* the load of turn [n] *)
  | SpinTaking (n : nat)            (* its compare_exchange *)
  | Loading (since : Z)             (* the top of the loop *)
  | TakingFree (since : Z)
  | Marking (since v : Z)
  | Waiting (since v : Z)           (* futex::wait *)
  | Asleep (since v : Z)
  | Woken (since v : Z)             (* the load after it *)
  | Judging (since v : Z)           (* elapsed, holder, pid_alive *)
  | TakingOver (since v : Z)
  | Inside
  | Waking.                         (* futex::wake, after the swap of unlock *)

(** The word, the clock, the processes that were killed, and the threads with
    the pids of their processes. *)
Record locking := Locking {
  l_word : Z;
  l_clock : Z;
  l_dead : gset Z;
  l_threads : gmap nat (Z * lock_pc);
}.

Definition at_pc (t : nat) (me : Z) (c : lock_pc) (s : locking) : locking :=
  Locking (l_word s) (l_clock s) (l_dead s) (<[t := (me, c)]> (l_threads s)).
Definition set_word (v : Z) (s : locking) : locking := Locking v (l_clock s) (l_dead s) (l_threads s).

Definition pid_alive (pid : Z) (s : locking) : bool := bool_decide (pid ∉ l_dead s).

(** [compare_exchange(old, new)], and where the thread goes. *)
Definition compare_exchange (old new : Z) (t : nat) (me : Z) (ok failed : lock_pc) (s : locking) : locking :=
  if (l_word s =? old)%Z then at_pc t me ok (set_word new s) else at_pc t me failed s.

(** The next operation of thread [t]; [None] when it sleeps, or is not there.
    Outside it calls [lock], inside it calls [unlock]. *)
Definition lock_step (t : nat) (s : locking) : option locking :=
  match l_threads s !! t with
  | None => None
  | Some (me, c) =>
      let go c := at_pc t me c s in
      match c with
      | Outside => Some (go Entered)
      | Entered => Some (compare_exchange 0 me t me Inside (Spinning 0) s)
      | Spinning n =>
          if (n <? SPIN)%nat then Some (go (if (l_word s =? 0)%Z then SpinTaking n else Spinning (S n)))
          else Some (go (Loading (l_clock s)))
      | SpinTaking n => Some (compare_exchange 0 me t me Inside (Spinning (S n)) s)
      | Loading since =>
          let v := l_word s in
          Some (go (if (v =? 0)%Z then TakingFree since
                    else if marked v then Waiting since v else Marking since v))
      | TakingFree since => Some (compare_exchange 0 (Z.lor me WAITERS) t me Inside (Loading since) s)
      | Marking since v => Some (compare_exchange v (Z.lor v WAITERS) t me (Waiting since v) (Loading since) s)
      | Waiting since v => Some (go (if (l_word s =? Z.lor v WAITERS)%Z then Asleep since v else Woken since v))
      | Asleep _ _ => None
      | Woken since v =>
          Some (go (if (l_word s =? Z.lor v WAITERS)%Z then Judging since v else Loading (l_clock s)))
      | Judging since v =>
          Some (go (if (SLICE <=? l_clock s - since)%Z && negb (holder_of v =? me)%Z && negb (pid_alive (holder_of v) s)
                    then TakingOver since v else Loading since))
      | TakingOver since v =>
          Some (compare_exchange (Z.lor v WAITERS) (Z.lor me WAITERS) t me Inside (Loading since) s)
      | Inside => Some (at_pc t me (if marked (l_word s) then Waking else Outside) (set_word 0 s))
      | Waking => Some (go Outside)
      end
  end.

(** A sleeper is woken: by [futex::wake], by its timeout, by a signal. *)
Definition wake_up (t : nat) (s : locking) : locking :=
  match l_threads s !! t with
  | Some (me, Asleep since v) => at_pc t me (Woken since v) s
  | _ => s
  end.

(** What may happen next. *)
Inductive lock_move : locking → locking → Prop :=
  | lm_step t me c s s' :
      l_threads s !! t = Some (me, c) → me ∉ l_dead s → lock_step t s = Some s' → lock_move s s'
  | lm_wake t s : lock_move s (wake_up t s)
  | lm_time d s : (0 ≤ d)%Z → lock_move s (Locking (l_word s) (l_clock s + d) (l_dead s) (l_threads s))
  | lm_kill pid s : lock_move s (Locking (l_word s) (l_clock s) ({[pid]} ∪ l_dead s) (l_threads s))
  | lm_thread t pid s :
      l_threads s !! t = None → (0 < pid < 2 ^ 31)%Z → pid ∉ l_dead s → lock_move s (at_pc t pid Outside s).

(** A new segment: the word is 0, and nobody has it mapped. *)
Definition new_lock : locking := Locking 0 0 ∅ ∅.

Inductive lock_reachable : locking → Prop :=
  | lr_new : lock_reachable new_lock
  | lr_move s s' : lock_reachable s → lock_move s s' → lock_reachable s'.

(** Thread [t] with nobody else there: it steps, or sleeps its slice. *)
Definition alone (t : nat) (s : locking) : locking :=
  match lock_step t s with
  | Some s' => s'
  | None => wake_up t (Locking (l_word s) (l_clock s + SLICE) (l_dead s) (l_threads s))
  end.

(** ** The word *)

Lemma holder_land v : holder_of v = Z.land v (Z.ones 31).
Proof. reflexivity. Qed.

Lemma waiters_bit n : Z.testbit WAITERS n = (31 =? n)%Z.
Proof. change WAITERS with (2 ^ 31)%Z. by apply Z.pow2_bits_eqb. Qed.

Lemma marked_bit v : marked v = Z.testbit v 31.
Proof.
  unfold marked. assert (Z.land v WAITERS = if Z.testbit v 31 then WAITERS else 0)%Z as ->; [|by destruct (Z.testbit v 31)].
  apply Z.bits_inj'. intros n Hn. rewrite Z.land_spec, waiters_bit. destruct (Z.eqb_spec 31 n) as [<-|Hne].
  - destruct (Z.testbit v 31); [by rewrite waiters_bit|by rewrite Z.bits_0].
  - rewrite andb_false_r. destruct (Z.testbit v 31); [|by rewrite Z.bits_0]. rewrite waiters_bit. by destruct (Z.eqb_spec 31 n).
Qed.

Lemma marked_mark v : marked (Z.lor v WAITERS) = true.
Proof. rewrite marked_bit, Z.lor_spec, waiters_bit. apply orb_true_r. Qed.

Lemma mark_marked v : marked v = true → Z.lor v WAITERS = v.
Proof.
  rewrite marked_bit. intros H. apply Z.bits_inj'. intros n Hn. rewrite Z.lor_spec, waiters_bit.
  destruct (Z.eqb_spec 31 n) as [<-|]; [by rewrite H|apply orb_false_r].
Qed.

Lemma mark_nonzero v : Z.lor v WAITERS ≠ 0%Z.
Proof. intros H%(f_equal marked). by rewrite marked_mark in H. Qed.

Lemma holder_mark v : holder_of (Z.lor v WAITERS) = holder_of v.
Proof. rewrite !holder_land, Z.land_lor_distr_l. change (Z.land WAITERS (Z.ones 31)) with 0%Z. apply Z.lor_0_r. Qed.

Lemma holder_pid pid : (0 < pid < 2 ^ 31)%Z → holder_of pid = pid.
Proof. intros Hp. rewrite holder_land, Z.land_ones by lia. by rewrite Z.mod_small by lia. Qed.

(** ** One holder *)

(** A pid that has threads. *)
Definition pid_ok (s : locking) : Prop := map_Forall (λ _ '(me, _), 0 < me < 2 ^ 31)%Z (l_threads s).

(** Thread [o], of process [p], is the holder: it is inside, or its process was
    killed; of the living nobody else is. *)
Definition holds_lock (s : locking) (o : nat) (p : Z) : Prop :=
  holder_of (l_word s) = p ∧ (0 < p)%Z ∧
  (∃ c, l_threads s !! o = Some (p, c) ∧ (p ∉ l_dead s → c = Inside)) ∧
  ∀ t me, l_threads s !! t = Some (me, Inside) → me ∉ l_dead s → t = o.

(** [since] is past, and what was found out about [v] holds. *)
Definition pc_ok (s : locking) (c : lock_pc) : Prop :=
  match c with
  | TakingOver since v => holder_of v ∈ l_dead s ∧ (since ≤ l_clock s)%Z
  | Marking since v => v ≠ 0%Z ∧ (since ≤ l_clock s)%Z
  | Loading since | TakingFree since | Waiting since _ | Asleep since _ | Woken since _
  | Judging since _ => (since ≤ l_clock s)%Z
  | _ => True
  end.

Record lock_inv (s : locking) : Prop := {
  li_pids : pid_ok s;
  li_held : (l_word s = 0%Z ∧ ∀ t me, l_threads s !! t = Some (me, Inside) → me ∈ l_dead s) ∨ ∃ o p, holds_lock s o p;
  li_pcs : map_Forall (λ _ '(_, c), pc_ok s c) (l_threads s);
}.

Lemma pc_ok_later s s' c : l_dead s ⊆ l_dead s' → (l_clock s ≤ l_clock s')%Z → pc_ok s c → pc_ok s' c.
Proof. intros Hd Hc. destruct c; simpl; intuition (lia || set_solver). Qed.

Lemma at_pc_Some t me c s u x :
  l_threads (at_pc t me c s) !! u = Some x ↔ t = u ∧ (me, c) = x ∨ t ≠ u ∧ l_threads s !! u = Some x.
Proof. apply lookup_insert_Some. Qed.

Lemma inv_go t me c c' s :
  l_threads s !! t = Some (me, c) → c ≠ Inside → c' ≠ Inside → pc_ok s c' →
  lock_inv s → lock_inv (at_pc t me c' s).
Proof.
  intros Ht Hc Hc' Hok [Hp Hh Hpc]. split; simpl.
  - apply map_Forall_insert_2; [exact (Hp _ _ Ht)|exact Hp].
  - destruct Hh as [[Hw Hn]|(o & p & Ho & Hp0 & (co & Hoc & Hin) & Hu)]; [left|right].
    + split; [done|]. intros u m [[<- [= <- ->]]|[_ Hu]]%at_pc_Some; [done|by eapply Hn].
    + exists o, p. split_and!; [done|done| |].
      * destruct (decide (o = t)) as [->|Hne]; [|exists co; simpl; by rewrite lookup_insert_ne].
        rewrite Ht in Hoc. injection Hoc as <- <-. exists c'. simpl. rewrite lookup_insert_eq. split; [done|].
        intros Hm. by destruct (Hc (Hin Hm)).
      * intros u m [[<- [= <- ->]]|[_ Hum]]%at_pc_Some; [done|by eapply Hu].
  - apply map_Forall_insert_2; [done|]. exact Hpc.
Qed.

Lemma inv_take t me c w s :
  l_threads s !! t = Some (me, c) → me ∉ l_dead s → holder_of w = me →
  l_word s = 0%Z ∨ holder_of (l_word s) ∈ l_dead s → lock_inv s → lock_inv (at_pc t me Inside (set_word w s)).
Proof.
  intros Ht Hme Hw Hfree [Hp Hh Hpc].
  assert (∀ u m, l_threads s !! u = Some (m, Inside) → m ∈ l_dead s) as Hnone.
  { intros u m Hu. destruct Hh as [[_ Hn]|(o & p & Ho & Hp0 & (co & Hoc & Hin) & Huniq)]; [by eapply Hn|].
    destruct (decide (m ∈ l_dead s)) as [|Hm]; [done|]. pose proof (Huniq u m Hu Hm) as ->. rewrite Hu in Hoc. injection Hoc as -> _.
    destruct Hfree as [Hf|Hf]; [|by rewrite Ho in Hf]. rewrite Hf in Ho. change (holder_of 0) with 0%Z in Ho. lia. }
  split; simpl.
  - apply map_Forall_insert_2; [exact (Hp _ _ Ht)|exact Hp].
  - right. exists t, me. split_and!; [done|pose proof (Hp _ _ Ht) as H; simpl in H; lia| |].
    + exists Inside. simpl. by rewrite lookup_insert_eq.
    + intros u m [[<- _]|[_ Hu]]%at_pc_Some Hm; [done|]. by apply Hnone in Hu.
  - apply map_Forall_insert_2; [done|]. exact Hpc.
Qed.

Lemma inv_release t me c s :
  l_threads s !! t = Some (me, Inside) → me ∉ l_dead s → c = Waking ∨ c = Outside →
  lock_inv s → lock_inv (at_pc t me c (set_word 0 s)).
Proof.
  intros Ht Hme Hc [Hp Hh Hpc]. destruct Hh as [[_ Hn]|(o & p & _ & _ & _ & Huniq)]; [by apply Hn in Ht|].
  pose proof (Huniq t me Ht Hme) as ->. split; simpl.
  - apply map_Forall_insert_2; [exact (Hp _ _ Ht)|exact Hp].
  - left. split; [done|]. intros u m [[<- [= <- ->]]|[Hne Hu]]%at_pc_Some; [by destruct Hc|].
    destruct (decide (m ∈ l_dead s)) as [|Hm]; [done|]. by destruct Hne; symmetry; eapply Huniq.
  - apply map_Forall_insert_2; [by destruct Hc; subst|exact Hpc].
Qed.

Lemma inv_mark t me c c' s :
  l_threads s !! t = Some (me, c) → me ∉ l_dead s → c ≠ Inside → c' ≠ Inside → pc_ok s c' → l_word s ≠ 0%Z →
  lock_inv s → lock_inv (at_pc t me c' (set_word (Z.lor (l_word s) WAITERS) s)).
Proof.
  intros Ht Hme Hc Hc' Hok Hw I. pose proof (inv_go t me c c' s Ht Hc Hc' Hok I) as [Hp Hh Hpc].
  split; [exact Hp| |exact Hpc]. destruct Hh as [[Hw0 _]|(o & p & Ho & H)]; [done|]. right. exists o, p. split; [|exact H].
  simpl in *. by rewrite holder_mark.
Qed.

Lemma lock_step_inv t me c s s' :
  l_threads s !! t = Some (me, c) → me ∉ l_dead s → lock_step t s = Some s' → lock_inv s → lock_inv s'.
Proof.
  intros Ht Hme Hs I. pose proof (li_pcs s I t _ Ht) as Hok. simpl in Hok. pose proof (li_pids s I t _ Ht) as Hpid. simpl in Hpid.
  unfold lock_step in Hs. rewrite Ht in Hs.
  assert (∀ old new (failed : lock_pc), failed ≠ Inside → pc_ok s failed → c ≠ Inside → holder_of new = me → (old = 0 ∨ holder_of old ∈ l_dead s)%Z →
    lock_inv (compare_exchange old new t me Inside failed s)) as Htake.
  { intros old new failed Hf1 Hf2 Hc Hn Ho. unfold compare_exchange. destruct (Z.eqb_spec (l_word s) old) as [<-|].
    - by eapply inv_take.
    - by eapply inv_go. }
  destruct c; try (injection Hs as <-).
  - by eapply inv_go.
  - apply Htake; try done; [by apply holder_pid|by left].
  - destruct (n <? SPIN)%nat; injection Hs as <-; eapply inv_go; try done; first [by destruct (_ =? _)%Z|simpl; lia].
  - apply Htake; try done; [by apply holder_pid|by left].
  - eapply inv_go; try done; destruct (Z.eqb_spec (l_word s) 0); try done; by destruct (marked _).
  - apply Htake; try done; [by rewrite holder_mark, holder_pid|by left].
  - destruct Hok as [Hv Hok]. unfold compare_exchange. destruct (Z.eqb_spec (l_word s) v) as [<-|]; [|by eapply inv_go].
    by eapply inv_mark.
  - eapply inv_go; try done; by destruct (_ =? _)%Z.
  - done.
  - eapply inv_go; try done; destruct (_ =? _)%Z; try done. simpl. lia.
  - eapply inv_go; try done; destruct (_ && _) eqn:E; try done.
    apply andb_true_iff in E as [_ E]. unfold pid_alive in E. apply negb_true_iff, bool_decide_eq_false in E.
    simpl. split; [|done]. by apply dec_stable.
  - destruct Hok as [Hd Hok]. apply Htake; try done; [by rewrite holder_mark, holder_pid|]. right. by rewrite holder_mark.
  - eapply inv_release; try done. by destruct (marked _); [left|right].
  - by eapply inv_go.
Qed.

Lemma lock_move_inv s s' : lock_move s s' → lock_inv s → lock_inv s'.
Proof.
  intros [t me c s0 s1 Ht Hme Hs|t s0|d s0 Hd|pid s0|t pid s0 Ht Hpid Halive] I.
  - by eapply lock_step_inv.
  - unfold wake_up. destruct (l_threads s0 !! t) as [[me []]|] eqn:Ht; try done.
    eapply inv_go; try done. apply (li_pcs s0 I t _ Ht).
  - destruct I as [Hp Hh Hpc]. split; [exact Hp|exact Hh|]. eapply map_Forall_impl; [exact Hpc|].
    intros u [m c]. apply pc_ok_later; [done|simpl; lia].
  - destruct I as [Hp Hh Hpc]. split; [exact Hp| |].
    + destruct Hh as [[Hw Hn]|(o & p & Ho & Hp0 & (co & Hoc & Hin) & Hu)]; [left|right; exists o, p]; simpl.
      * split; [done|]. set_solver.
      * split_and!; [done|done|exists co; split; [done|set_solver]|set_solver].
    + eapply map_Forall_impl; [exact Hpc|]. intros u [m c]. apply pc_ok_later; [set_solver|done].
  - destruct I as [Hp Hh Hpc]. split; simpl.
    + by apply map_Forall_insert_2.
    + destruct Hh as [[Hw Hn]|(o & p & Ho & Hp0 & (co & Hoc & Hin) & Hu)]; [left|right; exists o, p].
      * split; [done|]. intros u m [[_ ?]|[_ Hum]]%at_pc_Some; [congruence|by eapply Hn].
      * split_and!; [done|done| |].
        -- exists co. simpl. rewrite lookup_insert_ne; [done|]. intros ->. congruence.
        -- intros u m [[_ ?]|[_ Hum]]%at_pc_Some; [congruence|by eapply Hu].
    + by apply map_Forall_insert_2.
Qed.

Lemma lock_reachable_inv s : lock_reachable s → lock_inv s.
Proof.
  induction 1 as [|s s' _ IH Hm]; [|by eapply lock_move_inv].
  split; [done|left; by split|done].
Qed.

(** C21: Whatever the interleaving, whoever is killed where, and however often
    the lock is taken over: of the threads of living processes at most one is
    between [lock] and [unlock], and while one is, the word names its process;
    when the word is 0 there is none. *)
Theorem lock_excludes s t1 t2 p1 p2 :
  lock_reachable s →
  l_threads s !! t1 = Some (p1, Inside) → p1 ∉ l_dead s →
  l_threads s !! t2 = Some (p2, Inside) → p2 ∉ l_dead s →
  t1 = t2 ∧ holder_of (l_word s) = p1 ∧ l_word s ≠ 0%Z.
Proof.
  intros Hr H1 Hd1 H2 Hd2. destruct (li_held s (lock_reachable_inv s Hr)) as [[_ Hn]|(o & p & Ho & Hp & (c & Hc & _) & Hu)]; [by apply Hn in H1|].
  pose proof (Hu _ _ H1 Hd1) as ->. pose proof (Hu _ _ H2 Hd2) as ->. rewrite H1 in Hc. injection Hc as -> _.
  split_and!; [done|done|]. intros Hw. rewrite Hw in Ho. change (holder_of 0) with 0%Z in Ho. lia.
Qed.

(** ** A dead holder *)

(** Between the call of [lock] and its return. *)
Definition trying (c : lock_pc) : bool :=
  match c with Outside | Inside | Waking => false | _ => true end.

(** Alone, thread [t] is inside after at most [k] steps. *)
Definition inside_within (k : nat) (t : nat) (me : Z) (s : locking) : Prop :=
  ∃ n, (n ≤ k)%nat ∧ l_threads (Nat.iter n (alone t) s) !! t = Some (me, Inside).

Lemma within_here k t me s : inside_within k t me (at_pc t me Inside s).
Proof. exists 0%nat. split; [lia|]. apply lookup_insert_eq. Qed.

Lemma within_step k t me s : inside_within k t me (alone t s) → inside_within (S k) t me s.
Proof. intros (n & Hn & H). exists (S n). split; [lia|]. by rewrite Nat.iter_succ_r. Qed.

Lemma within_more k k' t me s : (k ≤ k')%nat → inside_within k t me s → inside_within k' t me s.
Proof. intros Hk (n & Hn & H). exists n. split; [lia|done]. Qed.

Lemma at_pc_eq t me c s : l_threads (at_pc t me c s) !! t = Some (me, c).
Proof. apply lookup_insert_eq. Qed.

(** A step of [t], its place being known. *)
Ltac step_alone :=
  apply within_step; unfold alone, lock_step; rewrite ?at_pc_eq;
  repeat match goal with H : l_threads _ !! _ = Some _ |- _ => rewrite H end.

Section recovery.
Context (t : nat) (me : Z).

(** Thread [t] may take the lock of [s]. *)
Definition free_for (s : locking) : Prop :=
  me ∉ l_dead s ∧ (l_word s = 0 ∨ holder_of (l_word s) ∈ l_dead s)%Z.

Lemma free_at_pc c s : free_for s → free_for (at_pc t me c s).
Proof. done. Qed.

Lemma from_waiting s since v :
  free_for s → (since ≤ l_clock s)%Z → l_word s = Z.lor v WAITERS →
  inside_within 5 t me (at_pc t me (Waiting since v) s).
Proof.
  intros [Hme Hf] Hs Hw. assert (holder_of v ∈ l_dead s) as Hd.
  { destruct Hf as [Hf|Hf]; [by rewrite Hf in Hw; destruct (mark_nonzero v)|]. by rewrite Hw, holder_mark in Hf. }
  step_alone. simpl. rewrite (proj2 (Z.eqb_eq _ _)) by done.
  step_alone. unfold wake_up. simpl. rewrite lookup_insert_eq.
  step_alone. simpl. rewrite (proj2 (Z.eqb_eq _ _)) by done.
  step_alone. simpl. rewrite (proj2 (Z.leb_le _ _)) by (unfold SLICE; lia).
  rewrite (proj2 (Z.eqb_neq _ _)) by congruence. unfold pid_alive. simpl. rewrite bool_decide_eq_false_2 by (intros H; by apply H).
  step_alone. unfold compare_exchange. simpl. rewrite (proj2 (Z.eqb_eq _ _)) by done. apply within_here.
Qed.

Lemma from_loading s since :
  free_for s → (since ≤ l_clock s)%Z → inside_within 7 t me (at_pc t me (Loading since) s).
Proof.
  intros Hf Hs. step_alone. simpl. destruct (Z.eqb_spec (l_word s) 0) as [Hw|Hw].
  { step_alone. unfold compare_exchange. simpl. rewrite (proj2 (Z.eqb_eq _ _)) by done. apply within_here. }
  destruct (marked (l_word s)) eqn:Hm.
  - apply (within_more 5); [lia|]. apply from_waiting; [done|done|]. simpl. by rewrite mark_marked.
  - step_alone. unfold compare_exchange. simpl. rewrite Z.eqb_refl.
    apply from_waiting; [|done|done].
    destruct Hf as [Hme Hf]. split; [done|]. right. simpl. rewrite holder_mark. by destruct Hf.
Qed.

Lemma from_taking_free s since :
  free_for s → (since ≤ l_clock s)%Z → inside_within 8 t me (at_pc t me (TakingFree since) s).
Proof.
  intros Hf Hs. step_alone. unfold compare_exchange. simpl. destruct (_ =? _)%Z.
  - apply (within_more 0); [lia|]. apply within_here.
  - by apply from_loading.
Qed.

Lemma from_woken s since v :
  free_for s → (since ≤ l_clock s)%Z → inside_within 10 t me (at_pc t me (Woken since v) s).
Proof.
  intros Hf Hs. step_alone. simpl. destruct (_ =? _)%Z eqn:E; [|apply (within_more 7); [lia|]; by apply from_loading].
  apply Z.eqb_eq in E. step_alone. simpl. destruct (_ && _); [|apply (within_more 7); [lia|]; by apply from_loading].
  step_alone. unfold compare_exchange. simpl. rewrite E, Z.eqb_refl. apply (within_more 0); [lia|]. apply within_here.
Qed.

(** The spinning. *)
Lemma from_spinning s n :
  free_for s → (n ≤ SPIN)%nat → inside_within (2 * (SPIN - n) + 8) t me (at_pc t me (Spinning n) s).
Proof.
  intros Hf Hn. remember (SPIN - n)%nat as k eqn:Hk. revert n s Hf Hn Hk. induction k as [|k IH]; intros n s Hf Hn Hk.
  - step_alone. rewrite (proj2 (Nat.ltb_ge _ _)) by lia. apply (within_more 7); [lia|]. by apply from_loading.
  - apply (within_more (S (S (2 * k + 8)))); [lia|]. step_alone. rewrite (proj2 (Nat.ltb_lt _ _)) by lia. simpl.
    destruct (Z.eqb_spec (l_word s) 0) as [Hw|Hw].
    + step_alone. unfold compare_exchange. simpl. rewrite (proj2 (Z.eqb_eq _ _)) by done.
      apply (within_more 0); [lia|]. apply within_here.
    + apply (within_more (2 * k + 8)); [lia|]. apply IH; [done|lia|lia].
Qed.

Lemma from_spinning_any s n : free_for s → inside_within (2 * SPIN + 9) t me (at_pc t me (Spinning n) s).
Proof.
  intros Hf. destruct (decide (n ≤ SPIN)%nat) as [Hn|Hn].
  - apply (within_more (2 * (SPIN - n) + 8)); [lia|]. by apply from_spinning.
  - apply (within_more 8); [lia|]. step_alone. rewrite (proj2 (Nat.ltb_ge _ _)) by lia. by apply from_loading.
Qed.

Lemma from_taking_over s since v :
  free_for s → (since ≤ l_clock s)%Z → inside_within 8 t me (at_pc t me (TakingOver since v) s).
Proof.
  intros Hf Hs. step_alone. unfold compare_exchange. simpl. destruct (_ =? _)%Z.
  - apply (within_more 0); [lia|]. apply within_here.
  - by apply from_loading.
Qed.

Lemma from_waiting_any s since v :
  free_for s → (since ≤ l_clock s)%Z → inside_within 11 t me (at_pc t me (Waiting since v) s).
Proof.
  intros Hf Hs. destruct (Z.eqb_spec (l_word s) (Z.lor v WAITERS)) as [E|E].
  - apply (within_more 5); [lia|]. by apply from_waiting.
  - step_alone. simpl. rewrite (proj2 (Z.eqb_neq _ _)) by done. by apply from_woken.
Qed.

Lemma from_marking s since v :
  free_for s → (since ≤ l_clock s)%Z → v ≠ 0%Z → inside_within 8 t me (at_pc t me (Marking since v) s).
Proof.
  intros Hf Hs Hv. step_alone. unfold compare_exchange. simpl. destruct (Z.eqb_spec (l_word s) v) as [<-|]; [|by apply from_loading].
  apply (within_more 5); [lia|]. apply from_waiting; [|done|done].
  destruct Hf as [Hme Hf]. split; [done|]. right. simpl. rewrite holder_mark. by destruct Hf.
Qed.
End recovery.


(** ** Mapping an object (shm_map_io) *)

(** What the system calls answer; an error is its [errno]. [an_open]: an error
    other than that the name is there, or is not. *)
Record map_answers := MapAnswers {
  an_open : option Z;
  an_truncate : list (option Z);    (* one call after the other; [None] is success *)
  an_reserve : list (option Z);
  an_stat : Z + Z;                  (* an error, or the size *)
  an_map : option Z;
}.

(** The names there are, and this process's open descriptors and mappings. *)
Record shm_fs := ShmFs { shm_names : gset string; open_fds : nat; mappings : nat }.

Definition EEXIST : Z := 17.
Definition ENOENT : Z := 2.
Definition EINVAL : Z := 22.
Definition ENOSPC : Z := 28.
Definition ENOMEM : Z := 12.
Definition EINTR : Z := 4.
Definition is_no_space (e : Z) : bool := ((e =? ENOSPC) || (e =? ENOMEM))%Z.

(** [while call != 0: if errno != EINTR: fail]. *)
Fixpoint uninterrupted (answers : list (option Z)) : option Z :=
  match answers with
  | Some e :: rest => if (e =? EINTR)%Z then uninterrupted rest else Some e
  | _ => None
  end.

(** [shm_open]; with [O_EXCL] when the object is created. *)
Definition shm_open (name : string) (create : bool) (a : map_answers) (fs : shm_fs) : option Z * shm_fs :=
  match an_open a with
  | Some e => (Some e, fs)
  | None =>
      if create then
        if decide (name ∈ shm_names fs) then (Some EEXIST, fs)
        else (None, ShmFs ({[name]} ∪ shm_names fs) (S (open_fds fs)) (mappings fs))
      else if decide (name ∈ shm_names fs) then (None, ShmFs (shm_names fs) (S (open_fds fs)) (mappings fs))
      else (Some ENOENT, fs)
  end.

Definition close_fd (fs : shm_fs) : shm_fs := ShmFs (shm_names fs) (pred (open_fds fs)) (mappings fs).
Definition shm_unlink (name : string) (fs : shm_fs) : shm_fs := ShmFs (shm_names fs ∖ {[name]}) (open_fds fs) (mappings fs).

(** [fail]. *)
Definition map_fail (name : string) (create : bool) (e : Z) (fs : shm_fs) : (Z + Z) * shm_fs :=
  (inl e, if create then shm_unlink name (close_fd fs) else close_fd fs).

(** [shm_map_io(name, create_len)]: an error, or the length that is mapped. *)
Definition shm_map_io (name : string) (create_len : option Z) (a : map_answers) (fs : shm_fs) : (Z + Z) * shm_fs :=
  if existsb (Ascii.eqb Ascii.zero) (String.list_ascii_of_string name) then (inl EINVAL, fs)
  else
    let create := match create_len with Some _ => true | None => false end in
    match shm_open name create a fs with
    | (Some e, fs) => (inl e, fs)
    | (None, fs) =>
        match match create_len with
              | Some n =>
                  match uninterrupted (an_truncate a) with
                  | Some e => inl e
                  | None => match uninterrupted (an_reserve a) with Some e => inl e | None => inr n end
                  end
              | None => an_stat a
              end with
        | inl e => map_fail name create e fs
        | inr len =>
            match an_map a with
            | Some e => map_fail name create e fs
            | None => (inr len, close_fd (ShmFs (shm_names fs) (open_fds fs) (S (mappings fs))))
            end
        end
    end.

(** A mapping leaves no descriptor open. One that failed leaves nothing at all:
    an object that was created, for which there was no room, is gone again; a
    name that was there before is still there. *)
Theorem shm_map_all_or_nothing name create_len a fs :
  match shm_map_io name create_len a fs with
  | (inl _, fs') => fs' = fs
  | (inr len, fs') =>
      open_fds fs' = open_fds fs ∧ mappings fs' = S (mappings fs) ∧
      match create_len with
      | Some n => len = n ∧ name ∉ shm_names fs ∧ shm_names fs' = {[name]} ∪ shm_names fs
      | None => name ∈ shm_names fs ∧ shm_names fs' = shm_names fs
      end
  end.
Proof.
  unfold shm_map_io. destruct (existsb _ _); [done|]. unfold shm_open. destruct (an_open a); [done|].
  destruct fs as [ns fds maps]. destruct create_len as [n|]; simpl; (destruct (decide (name ∈ ns)) as [Hn|Hn]; [|try done]); try done.
  - unfold map_fail, shm_unlink. assert (({[name]} ∪ ns) ∖ {[name]} = ns) as Hs by set_solver.
    destruct (uninterrupted (an_truncate a)); simpl; [by rewrite Hs|]. destruct (uninterrupted (an_reserve a)); simpl; [by rewrite Hs|].
    destruct (an_map a); simpl; [by rewrite Hs|done].
  - destruct (an_stat a); [done|]. by destruct (an_map a).
Qed.

(** ** A run *)
Module LockDemo.

(** Thread 0 of process 100 takes the lock and is killed with it; thread 1 of
    process 200 has begun to wait. *)
Definition hire (t : nat) (pid : Z) (s : locking) : locking := at_pc t pid Outside s.
Definition run_one (t : nat) (s : locking) : locking := default s (lock_step t s).
Definition kill (pid : Z) (s : locking) : locking := Locking (l_word s) (l_clock s) ({[pid]} ∪ l_dead s) (l_threads s).

Definition joined : locking := hire 1 200 (hire 0 100 new_lock).
Definition taken : locking := run_one 0 (run_one 0 joined).
Definition waited : locking := Nat.iter 5 (run_one 1) taken.
Definition orphaned : locking := kill 100 waited.
Definition recovered : locking := Nat.iter 69 (alone 1) orphaned.

Lemma run_one_reachable t me c s :
  lock_reachable s → l_threads s !! t = Some (me, c) → me ∉ l_dead s → lock_reachable (run_one t s).
Proof.
  intros Hr Ht Hme. unfold run_one. destruct (lock_step t s) as [s'|] eqn:E; [|done].
  eapply lr_move; [exact Hr|]. by eapply lm_step.
Qed.

(** What a thread does alone is one of the runs. *)
Lemma alone_keeps t me c s :
  lock_reachable s → l_threads s !! t = Some (me, c) → me ∉ l_dead s →
  lock_reachable (alone t s) ∧ (∃ c', l_threads (alone t s) !! t = Some (me, c')) ∧ l_dead (alone t s) = l_dead s.
Proof.
  intros Hr Ht Hme. unfold alone. destruct (lock_step t s) as [s'|] eqn:E.
  - split; [eapply lr_move; [exact Hr|by eapply lm_step]|]. unfold lock_step, compare_exchange in E. rewrite Ht in E.
    destruct c; try (injection E as <-); try done; repeat case_match; try (injection E as <-);
      (split; [eexists; apply lookup_insert_eq|done]).
  - split; [|split; [|unfold wake_up; simpl; rewrite Ht; by destruct c]].
    + eapply lr_move; [eapply lr_move; [exact Hr|apply (lm_time SLICE); done]|apply lm_wake].
    + unfold wake_up. simpl. rewrite Ht. destruct c; try (by exists Outside); (eexists; simpl; try exact Ht; apply lookup_insert_eq).
Qed.
Lemma alone_reachable t me n : ∀ c s,
  lock_reachable s → l_threads s !! t = Some (me, c) → me ∉ l_dead s → lock_reachable (Nat.iter n (alone t) s).
Proof.
  induction n as [|n IH]; intros c s Hr Ht Hme; [done|]. rewrite Nat.iter_succ_r.
  destruct (alone_keeps t me c s Hr Ht Hme) as (Hr' & (c' & Ht') & Hd'). apply (IH c'); [done|done|by rewrite Hd'].
Qed.

Lemma waited_reachable : lock_reachable waited.
Proof.
  assert (lock_reachable joined) as Hr.
  { eapply lr_move; [eapply lr_move; [apply lr_new|]|]; apply lm_thread; (reflexivity || lia || apply not_elem_of_empty). }
  unfold waited, taken. simpl.
  repeat (eapply run_one_reachable; [|vm_compute; reflexivity|apply not_elem_of_empty]). exact Hr.
Qed.
Lemma orphaned_reachable : lock_reachable orphaned.
Proof. eapply lr_move; [apply waited_reachable|]. apply (lm_kill 100). Qed.

Lemma alive_200 : 200%Z ∉ l_dead orphaned.
Proof. apply (bool_decide_eq_true_1 _). vm_compute. reflexivity. Qed.

Lemma lock_excludes_witness :
  l_threads recovered = {[ 0%nat := (100%Z, Inside); 1%nat := (200%Z, Inside) ]} ∧
  holder_of (l_word recovered) = 200%Z ∧ l_word recovered ≠ 0%Z.
Proof.
  split; [vm_compute; reflexivity|].
  assert (lock_reachable recovered) as Hr.
  { eapply alone_reachable; [apply orphaned_reachable|vm_compute; reflexivity|apply alive_200]. }
  assert (200%Z ∉ l_dead recovered) as Hd by (apply (bool_decide_eq_true_1 _); vm_compute; reflexivity).
  pose proof (lock_excludes recovered 1 1 200 200 Hr ltac:(vm_compute; reflexivity) Hd ltac:(vm_compute; reflexivity) Hd) as H.
  exact (proj2 H).
Defined.

End LockDemo.
