(* ===== verification/Wakeups.v ===== *)
(** * Who sleeps on the ring, and who wakes them (rust/src/ring.rs)

    Consumers that find the ring empty and producers that find it full sleep on
    sequence words; a put wakes a consumer and a pop wakes producers, when some
    are said to be waiting. What is done under the lock of the ring is one
    step, as in [Ring]; everything else - the bump, the counters, [futex::wait]
    and [futex::wake] - is a step of its own. Of the records only the number
    matters here: one that does not fit goes by a spill, whose record is taken
    to fit. The words do not come round while a thread is between its unlock
    and its [futex::wait], no thread is killed and no signal handler raises; if
    one does, a wake-up may be lost, and the sleeper looks again after a
    [SLICE]. *)
From S2P Require Import Prelude.

(** What is waited for: [items_seq], and [space_seq]. *)
Inductive side := Items | Space.
#[export] Instance side_eq_dec : EqDecision side.
Proof. solve_decision. Defined.

(** Where a thread is: outside; before it takes the lock, to take up to [k]
    records or to put one; after the unlock, with the word as it saw it; in
    [futex::wait]; behind it, before [fetch_sub]; before [futex::wake(seq, m)]. *)
Inductive wpc :=
  | Idle
  | Trying (sd : side) (k : nat)
  | Going (sd : side) (k : nat) (seen : Z)
  | Sleeping (sd : side) (k : nat)
  | Awake (sd : side) (k : nat)
  | Signalling (sd : side) (m : nat).

(** The control block, as far as it matters, and the threads. *)
Record waking := Waking {
  wk_maxsize : Z;
  wk_count : Z;
  items_seq : Z;
  space_seq : Z;
  waiting_consumers : Z;
  waiting_producers : Z;
  wk_threads : list wpc;
}.
Definition seq_of (sd : side) (s : waking) : Z := match sd with Items => items_seq s | Space => space_seq s end.
Definition waiters_of (sd : side) (s : waking) : Z := match sd with Items => waiting_consumers s | Space => waiting_producers s end.

Definition go (t : nat) (c : wpc) (s : waking) : waking :=
  Waking (wk_maxsize s) (wk_count s) (items_seq s) (space_seq s) (waiting_consumers s) (waiting_producers s) (<[t := c]> (wk_threads s)).
(** [fetch_add(d)] on a counter of waiters. *)
Definition count_waiting (sd : side) (d : Z) (s : waking) : waking :=
  match sd with
  | Items => Waking (wk_maxsize s) (wk_count s) (items_seq s) (space_seq s) (waiting_consumers s + d) (waiting_producers s) (wk_threads s)
  | Space => Waking (wk_maxsize s) (wk_count s) (items_seq s) (space_seq s) (waiting_consumers s) (waiting_producers s + d) (wk_threads s)
  end.

(** Under the lock, in [wait_for_items] and then [get_many] with [finish_pops]:
    up to [k] records are popped; or the call gives up, or goes to sleep. *)
Definition consumer_turn (t k : nat) (expired : bool) (s : waking) : waking :=
  if (0 <? wk_count s)%Z then
    let m := Z.min (Z.of_nat (Nat.max 1 k)) (wk_count s) in
    let s := Waking (wk_maxsize s) (wk_count s - m) (items_seq s) (space_seq s + m) (waiting_consumers s) (waiting_producers s) (wk_threads s) in
    go t (if (0 <? waiting_producers s)%Z then Signalling Space (Z.to_nat m) else Idle) s
  else if expired then go t Idle s
  else go t (Going Items k (items_seq s)) (count_waiting Items 1 s).

(** Under the lock, in [put]: the record is written; or the call gives up, or
    goes to sleep. *)
Definition producer_turn (t k : nat) (expired : bool) (s : waking) : waking :=
  let has_slot := (wk_maxsize s =? 0)%Z || (wk_count s <? wk_maxsize s)%Z in
  if has_slot then
    let s := Waking (wk_maxsize s) (wk_count s + 1) (items_seq s + 1) (space_seq s) (waiting_consumers s) (waiting_producers s) (wk_threads s) in
    go t (if (0 <? waiting_consumers s)%Z then Signalling Items 1 else Idle) s
  else if expired then go t Idle s
  else go t (Going Space k (space_seq s)) (count_waiting Space 1 s).

(** The next step of a thread by itself; [None] where it needs others: outside,
    asleep, and at [futex::wake], which picks sleepers. *)
Definition own_turn (t : nat) (expired : bool) (s : waking) : option waking :=
  match wk_threads s !! t with
  | Some (Trying Items k) => Some (consumer_turn t k expired s)
  | Some (Trying Space k) => Some (producer_turn t k expired s)
  | Some (Going sd k seen) => Some (go t (if (seq_of sd s =? seen)%Z then Sleeping sd k else Awake sd k) s)
  | Some (Awake sd k) => Some (go t (Trying sd k) (count_waiting sd (-1) s))
  | _ => None
  end.

Definition sleeps (sd : side) (c : wpc) : Z := match c with Sleeping sd' _ => if decide (sd = sd') then 1 else 0 | _ => 0 end.
Definition tally (f : wpc → Z) (l : list wpc) : Z := foldr (λ c n, f c + n)%Z 0%Z l.
Definition asleep (sd : side) (l : list wpc) : Z := tally (sleeps sd) l.

(** [futex::wake(seq, m)]: [m] sleepers, of the kernel's choice, or all. *)
Inductive wakes (sd : side) : nat → list wpc → list wpc → Prop :=
  | wakes_done l : wakes sd 0 l l
  | wakes_all m l : asleep sd l = 0%Z → wakes sd m l l
  | wakes_one m l t k l' :
      l !! t = Some (Sleeping sd k) → wakes sd m (<[t := Awake sd k]> l) l' → wakes sd (S m) l l'.

Definition with_threads (l : list wpc) (s : waking) : waking :=
  Waking (wk_maxsize s) (wk_count s) (items_seq s) (space_seq s) (waiting_consumers s) (waiting_producers s) l.

(** What may happen: a thread joins, or calls [get_many] or [put]; takes a step;
    a sleep ends by its slice; a thread wakes others. *)
Inductive wk_move : waking → waking → Prop :=
  | wk_join s : wk_move s (with_threads (wk_threads s ++ [Idle]) s)
  | wk_call t sd k s : wk_threads s !! t = Some Idle → wk_move s (go t (Trying sd k) s)
  | wk_turn t expired s s' : own_turn t expired s = Some s' → wk_move s s'
  | wk_slice t sd k s : wk_threads s !! t = Some (Sleeping sd k) → wk_move s (go t (Awake sd k) s)
  | wk_wake t sd m l s :
      wk_threads s !! t = Some (Signalling sd m) → wakes sd m (<[t := Idle]> (wk_threads s)) l → wk_move s (with_threads l s).

Definition new_waking (maxsize : Z) : waking := Waking maxsize 0 0 0 0 0 [].
Inductive wk_reachable (maxsize : Z) : waking → Prop :=
  | wkr_new : wk_reachable maxsize (new_waking maxsize)
  | wkr_move s s' : wk_reachable maxsize s → wk_move s s' → wk_reachable maxsize s'.

(** ** Counting threads *)

Lemma tally_insert f l t x y : l !! t = Some x → tally f (<[t := y]> l) = (tally f l - f x + f y)%Z.
Proof.
  revert t. induction l as [|c l IH]; intros [|t]; simpl; try done; [intros [= ->]; lia|]. intros Ht. rewrite (IH t Ht). lia.
Qed.
Lemma tally_app f l l' : tally f (l ++ l') = (tally f l + tally f l')%Z.
Proof. induction l as [|c l IH]; simpl; lia. Qed.
Lemma tally_le f g l : (∀ c, c ∈ l → f c ≤ g c)%Z → (tally f l ≤ tally g l)%Z.
Proof.
  induction l as [|c l IH]; intros Hfg; simpl; [lia|]. pose proof (Hfg c (list_elem_of_here _ _)).
  assert (tally f l ≤ tally g l)%Z by (apply IH; intros c' Hc'; apply Hfg; by right). lia.
Qed.
Lemma tally_nonneg f l : (∀ c, 0 ≤ f c)%Z → (0 ≤ tally f l)%Z.
Proof. intros Hf. induction l as [|c l IH]; simpl; [lia|]. specialize (Hf c). lia. Qed.
Lemma tally_ge f l t c : (∀ c, 0 ≤ f c)%Z → l !! t = Some c → (f c ≤ tally f l)%Z.
Proof.
  intros Hf. revert t. induction l as [|c' l IH]; intros [|t]; simpl; try done.
  - intros [= ->]. pose proof (tally_nonneg f l Hf). lia.
  - intros Ht. specialize (IH t Ht). specialize (Hf c'). lia.
Qed.

(** ** The invariant *)

(** What a side waits for: records, or slots. *)
Definition avail (sd : side) (s : waking) : Z :=
  match sd with
  | Items => wk_count s
  | Space => if (wk_maxsize s =? 0)%Z then 0 else wk_maxsize s - wk_count s
  end.
(** The threads that are counted as waiting. *)
Definition counts (sd : side) (c : wpc) : Z :=
  match c with Going sd' _ _ | Sleeping sd' _ | Awake sd' _ => if decide (sd = sd') then 1 else 0 | _ => 0 end.
(** The threads that are on their way to the ring, and those about to be woken. *)
Definition coming (sd : side) (seq : Z) (c : wpc) : Z :=
  match c with
  | Trying sd' _ | Awake sd' _ => if decide (sd = sd') then 1 else 0
  | Going sd' _ seen => if decide (sd = sd') then (if (seen =? seq)%Z then 0 else 1) else 0
  | Signalling sd' m => if decide (sd = sd') then Z.of_nat m else 0
  | _ => 0
  end.
Definition on_way (sd : side) (s : waking) : Z := tally (coming sd (seq_of sd s)) (wk_threads s).

Definition going_ok (s : waking) (c : wpc) : Prop :=
  match c with Going sd _ seen => (seen ≤ seq_of sd s)%Z ∧ (seen = seq_of sd s → avail sd s = 0%Z) | _ => True end.

Record wk_inv (s : waking) : Prop := {
  wi_count : (0 ≤ wk_maxsize s)%Z ∧ (0 ≤ wk_count s)%Z ∧ (wk_maxsize s ≠ 0%Z → wk_count s ≤ wk_maxsize s)%Z;
  wi_waiting : ∀ sd, waiters_of sd s = tally (counts sd) (wk_threads s);
  wi_going : Forall (going_ok s) (wk_threads s);
  wi_unbounded : wk_maxsize s = 0%Z → tally (counts Space) (wk_threads s) = 0%Z;
  wi_sleep : ∀ sd, (0 < asleep sd (wk_threads s) → avail sd s ≤ on_way sd s)%Z;
}.

Lemma counts_nonneg sd c : (0 ≤ counts sd c)%Z.
Proof. destruct c; simpl; try lia; case_decide; lia. Qed.
Lemma coming_nonneg sd q c : (0 ≤ coming sd q c)%Z.
Proof. destruct c; simpl; try lia; case_decide; try lia. case_match; lia. Qed.
Lemma asleep_counts sd l : (asleep sd l ≤ tally (counts sd) l)%Z.
Proof. apply tally_le. intros [] _; simpl; try lia; case_decide; lia. Qed.
Lemma asleep_nonneg sd l : (0 ≤ asleep sd l)%Z.
Proof. apply tally_nonneg. intros []; simpl; try lia; case_decide; lia. Qed.

Lemma avail_nonneg sd s : wk_inv s → (0 ≤ avail sd s)%Z.
Proof. intros [Hc _ _ _ _]. destruct sd; simpl; [lia|]. destruct (Z.eqb_spec (wk_maxsize s) 0); lia. Qed.

(** A bump of the word only brings more threads on their way. *)
Lemma coming_bump sd s q l : Forall (going_ok s) l → (seq_of sd s ≤ q)%Z →
  (tally (coming sd (seq_of sd s)) l ≤ tally (coming sd q) l)%Z.
Proof.
  intros Hg Hq. apply tally_le. intros c Hc. rewrite Forall_forall in Hg. specialize (Hg c Hc).
  destruct c as [| |sd' k seen| | |]; simpl; try lia. case_decide; [subst|lia]. simpl in Hg. repeat case_match; boolify; lia.
Qed.

(** One thread moves from [c] to [c']. *)
Lemma inv_change s s' t c c' :
  wk_inv s → wk_threads s !! t = Some c → wk_threads s' = <[t := c']> (wk_threads s) → wk_maxsize s' = wk_maxsize s →
  (0 ≤ wk_count s')%Z ∧ (wk_maxsize s ≠ 0%Z → wk_count s' ≤ wk_maxsize s)%Z →
  (∀ sd, waiters_of sd s' = waiters_of sd s - counts sd c + counts sd c')%Z →
  (∀ sd, seq_of sd s ≤ seq_of sd s' ∧ (seq_of sd s' = seq_of sd s → avail sd s' ≤ avail sd s))%Z →
  going_ok s' c' → (wk_maxsize s = 0%Z → counts Space c' = 0%Z) →
  (∀ sd, avail sd s' = 0%Z ∨ asleep sd (<[t := c']> (wk_threads s)) = 0%Z ∨
         (0 < asleep sd (wk_threads s) ∧ avail sd s' - avail sd s ≤ coming sd (seq_of sd s') c' - coming sd (seq_of sd s') c)%Z) →
  wk_inv s'.
Proof.
  intros Hi Ht Hl Hm Hc Hw Hq Hg Hu Hs. pose proof Hi as [Hc0 Hw0 Hg0 Hu0 Hs0]. split.
  - rewrite Hm. lia.
  - intros sd. rewrite Hl, (tally_insert _ _ _ _ _ Ht), Hw, Hw0. done.
  - rewrite Hl. apply Forall_insert; [|done]. eapply Forall_impl; [exact Hg0|]. intros [| |sd k seen| | |]; simpl; try done.
    intros [Hle Heq]. destruct (Hq sd) as [Hqle Hqa]. split; [lia|]. intros ->.
    assert (seq_of sd s' = seq_of sd s) as Hsame by lia. specialize (Hqa Hsame). specialize (Heq Hsame).
    assert (0 ≤ avail sd s')%Z; [|lia]. destruct sd; simpl; [lia|]. rewrite Hm. destruct (Z.eqb_spec (wk_maxsize s) 0); lia.
  - rewrite Hm, Hl. intros H0. rewrite (tally_insert _ _ _ _ _ Ht). specialize (Hu H0). specialize (Hu0 H0).
    pose proof (tally_ge (counts Space) _ _ _ (counts_nonneg Space) Ht). pose proof (counts_nonneg Space c). lia.
  - intros sd Has. unfold on_way. rewrite Hl in *. pose proof (tally_nonneg _ (<[t:=c']> (wk_threads s)) (coming_nonneg sd (seq_of sd s'))) as Hnn.
    destruct (Hs sd) as [Hz|[Hz|[Hz Hd]]]; [lia|lia|]. specialize (Hs0 sd Hz). unfold on_way in Hs0.
    rewrite (tally_insert _ _ _ _ _ Ht). destruct (Hq sd) as [Hqle _]. pose proof (coming_bump sd s _ _ Hg0 Hqle). lia.
Qed.

(** The obligations of [inv_change] on the sleepers of a side. *)
Lemma sleepers_third s t c c' sd d d' :
  wk_threads s !! t = Some c → sleeps sd c = 0%Z → sleeps sd c' = 0%Z → (d ≤ d')%Z →
  asleep sd (<[t := c']> (wk_threads s)) = 0%Z ∨ (0 < asleep sd (wk_threads s) ∧ d ≤ d')%Z.
Proof.
  intros Ht Hc Hc' Hd. unfold asleep at 1. rewrite (tally_insert _ _ _ _ _ Ht), Hc, Hc'. fold (asleep sd (wk_threads s)).
  pose proof (asleep_nonneg sd (wk_threads s)). lia.
Qed.

Lemma count_ok s : wk_inv s → (0 ≤ wk_count s)%Z ∧ (wk_maxsize s ≠ 0%Z → wk_count s ≤ wk_maxsize s)%Z.
Proof. by intros [[_ H] _ _ _ _]. Qed.

(** The easy obligations: nothing but the place of the thread, and perhaps a
    counter, has changed. *)
Ltac easy_change Hi :=
  try done; try exact (count_ok _ Hi); try (by intros []; simpl; repeat case_decide; try done; lia).

Lemma call_inv s t sd k : wk_inv s → wk_threads s !! t = Some Idle → wk_inv (go t (Trying sd k) s).
Proof.
  intros Hi Ht. eapply (inv_change s _ t Idle (Trying sd k)); easy_change Hi.
  intros sd'. right. eapply sleepers_third; [exact Ht|done|done|]. destruct sd'; simpl; case_decide; lia.
Qed.

(** A call that gives up. *)
Lemma leave_inv s t sd k : wk_inv s → wk_threads s !! t = Some (Trying sd k) → avail sd s = 0%Z → wk_inv (go t Idle s).
Proof.
  intros Hi Ht H0. eapply (inv_change s _ t (Trying sd k) Idle); easy_change Hi.
  intros sd'. destruct (decide (sd' = sd)) as [->|Hne]; [left; by destruct sd|]. right. eapply sleepers_third; [exact Ht|done|done|].
  destruct sd', sd; simpl; try done; lia.
Qed.

Lemma going_inv s t sd k : wk_inv s → wk_threads s !! t = Some (Trying sd k) → avail sd s = 0%Z →
  (sd = Space → wk_maxsize s ≠ 0%Z) → wk_inv (go t (Going sd k (seq_of sd s)) (count_waiting sd 1 s)).
Proof.
  intros Hi Ht H0 Hm. eapply (inv_change s _ t (Trying sd k) (Going sd k (seq_of sd s))); destruct sd; easy_change Hi; simpl in *.
  - intros H. by destruct Hm.
  - intros []; [by left|]. right. eapply sleepers_third; [exact Ht|done|done|]. simpl. lia.
  - intros []; [|by left]. right. eapply sleepers_third; [exact Ht|done|done|]. simpl. lia.
Qed.

Lemma awake_inv s t sd k c : wk_inv s → wk_threads s !! t = Some c →
  c = Sleeping sd k ∨ (∃ seen, c = Going sd k seen ∧ seen ≠ seq_of sd s) → wk_inv (go t (Awake sd k) s).
Proof.
  intros Hi Ht Hc. eapply (inv_change s _ t c (Awake sd k)); easy_change Hi.
  - destruct Hc as [->|(seen & -> & _)]; intros []; simpl; lia.
  - pose proof (wi_unbounded _ Hi) as Hu. intros H0. specialize (Hu H0).
    pose proof (tally_ge (counts Space) _ _ _ (counts_nonneg Space) Ht) as Hge.
    destruct Hc as [->|(seen & -> & _)]; simpl in *; case_decide; lia.
  - intros sd'. right. destruct Hc as [->|(seen & -> & Hne)].
    + unfold asleep at 1. rewrite (tally_insert _ _ _ _ _ Ht). fold (asleep sd' (wk_threads s)).
      pose proof (tally_ge (sleeps sd') _ _ _ ltac:(intros []; simpl; try lia; case_decide; lia) Ht) as Hge. fold (asleep sd' (wk_threads s)) in Hge.
      pose proof (asleep_nonneg sd' (wk_threads s)). simpl in *. destruct (decide (sd' = sd)); destruct sd'; simpl; lia.
    + eapply sleepers_third; [exact Ht|done|done|]. destruct sd', sd; simpl in *; try lia; destruct (Z.eqb_spec seen (items_seq s)), (Z.eqb_spec seen (space_seq s)); lia.
Qed.

Lemma sleep_inv s t sd k : wk_inv s → wk_threads s !! t = Some (Going sd k (seq_of sd s)) → wk_inv (go t (Sleeping sd k) s).
Proof.
  intros Hi Ht. pose proof (proj1 (Forall_lookup _ _) (wi_going _ Hi) t _ Ht) as [_ H0]. specialize (H0 eq_refl).
  eapply (inv_change s _ t (Going sd k (seq_of sd s)) (Sleeping sd k)); easy_change Hi.
  - pose proof (wi_unbounded _ Hi) as Hu. intros Hz. specialize (Hu Hz).
    pose proof (tally_ge (counts Space) _ _ _ (counts_nonneg Space) Ht) as Hge. simpl in *. case_decide; lia.
  - intros sd'. destruct (decide (sd' = sd)) as [->|Hne]; [left; by destruct sd|]. right.
    unfold asleep at 1. rewrite (tally_insert _ _ _ _ _ Ht). fold (asleep sd' (wk_threads s)).
    pose proof (asleep_nonneg sd' (wk_threads s)). simpl. rewrite !decide_False by done. destruct sd'; simpl; lia.
Qed.

Lemma retry_inv s t sd k : wk_inv s → wk_threads s !! t = Some (Awake sd k) → wk_inv (go t (Trying sd k) (count_waiting sd (-1) s)).
Proof.
  intros Hi Ht. eapply (inv_change s _ t (Awake sd k) (Trying sd k)); destruct sd; easy_change Hi.
  all: intros sd'; right; eapply sleepers_third; [exact Ht|done|done|]; destruct sd'; simpl; lia.
Qed.

Lemma nobody_waits sd s : wk_inv s → (waiters_of sd s ≤ 0)%Z → asleep sd (wk_threads s) = 0%Z.
Proof. intros Hi Hw. rewrite (wi_waiting _ Hi) in Hw. pose proof (asleep_counts sd (wk_threads s)). pose proof (asleep_nonneg sd (wk_threads s)). lia. Qed.

Lemma still_none sd s t c c' : wk_threads s !! t = Some c → sleeps sd c = 0%Z → sleeps sd c' = 0%Z →
  asleep sd (wk_threads s) = 0%Z → asleep sd (<[t := c']> (wk_threads s)) = 0%Z.
Proof. intros Ht Hc Hc' H0. unfold asleep in *. rewrite (tally_insert _ _ _ _ _ Ht). lia. Qed.
Lemma unbounded_nobody s : wk_inv s → wk_maxsize s = 0%Z → asleep Space (wk_threads s) = 0%Z.
Proof. intros Hi H0. apply nobody_waits; [done|]. rewrite (wi_waiting _ Hi), (wi_unbounded _ Hi H0). done. Qed.

Lemma take_inv s t k expired : wk_inv s → wk_threads s !! t = Some (Trying Items k) → wk_inv (consumer_turn t k expired s).
Proof.
  intros Hi Ht. destruct (count_ok _ Hi) as [Hc Hm]. unfold consumer_turn. destruct (Z.ltb_spec 0 (wk_count s)) as [Hpos|Hz].
  - set (m := Z.min (Z.of_nat (Nat.max 1 k)) (wk_count s)). assert (0 < m ≤ wk_count s)%Z by lia.
    eapply (inv_change s _ t (Trying Items k) (if (0 <? waiting_producers s)%Z then Signalling Space (Z.to_nat m) else Idle)); simpl; try done.
    + lia.
    + intros []; simpl; by case_match; simpl; lia.
    + intros []; simpl; [lia|]. destruct (Z.eqb_spec (wk_maxsize s) 0); lia.
    + by case_match.
    + by case_match.
    + intros sd. destruct (Z.ltb_spec 0 (waiting_producers s)) as [Hw|Hw].
      * right. eapply sleepers_third; [exact Ht|done|done|]. destruct sd; simpl; [lia|]. destruct (Z.eqb_spec (wk_maxsize s) 0); lia.
      * right. destruct sd.
        -- eapply sleepers_third; [exact Ht|done|done|]. simpl. lia.
        -- left. eapply still_none; [exact Ht|done|done|by apply nobody_waits].
  - destruct expired; [eapply leave_inv; [done|exact Ht|simpl; lia]|]. apply (going_inv s t Items k); [done|done|simpl; lia|done].
Qed.

Lemma put_inv s t k expired : wk_inv s → wk_threads s !! t = Some (Trying Space k) → wk_inv (producer_turn t k expired s).
Proof.
  intros Hi Ht. destruct (count_ok _ Hi) as [Hc Hm]. unfold producer_turn.
  destruct ((wk_maxsize s =? 0)%Z || (wk_count s <? wk_maxsize s)%Z) eqn:Hslot.
  - eapply (inv_change s _ t (Trying Space k) (if (0 <? waiting_consumers s)%Z then Signalling Items 1 else Idle)); simpl; try done.
    + boolify. lia.
    + intros []; simpl; by case_match; simpl; lia.
    + intros []; simpl; [lia|]. destruct (Z.eqb_spec (wk_maxsize s) 0); split; lia.
    + by case_match.
    + by case_match.
    + intros sd. destruct (decide (sd = Space ∧ wk_maxsize s = 0%Z)) as [[-> H0]|Hb].
      { right. left. eapply still_none; [exact Ht|done|by case_match|by apply unbounded_nobody]. }
      destruct (Z.ltb_spec 0 (waiting_consumers s)) as [Hw|Hw]; right.
      * eapply sleepers_third; [exact Ht|done|done|]. destruct sd; simpl; [lia|]. destruct (Z.eqb_spec (wk_maxsize s) 0); [naive_solver|lia].
      * destruct sd; [left; eapply still_none; [exact Ht|done|done|by apply nobody_waits]|].
        eapply sleepers_third; [exact Ht|done|done|]. simpl. destruct (Z.eqb_spec (wk_maxsize s) 0); [naive_solver|lia].
  - apply orb_false_iff in Hslot as [H0 Hge]. apply Z.eqb_neq in H0. apply Z.ltb_ge in Hge.
    assert (avail Space s = 0%Z) as Ha by (simpl; destruct (Z.eqb_spec (wk_maxsize s) 0); lia).
    destruct expired; [by eapply leave_inv|]. by apply (going_inv s t Space k).
Qed.

Lemma wakes_count sd m l l' : wakes sd m l l' →
  (∀ sd', tally (counts sd') l' = tally (counts sd') l) ∧
  (∀ s, Forall (going_ok s) l → Forall (going_ok s) l') ∧
  (∀ sd' q, sd' ≠ sd → asleep sd' l' = asleep sd' l ∧ tally (coming sd' q) l' = tally (coming sd' q) l) ∧
  (∀ q, asleep sd l' = 0%Z ∨ asleep sd l' = asleep sd l - Z.of_nat m ∧ tally (coming sd q) l' = tally (coming sd q) l + Z.of_nat m)%Z ∧
  (asleep sd l' ≤ asleep sd l)%Z.
Proof.
  induction 1 as [l|m l H0|m l t k l' Ht _ (IHc & IHg & IHo & IHs & IHle)].
  - split_and!; [done|done|done|right; lia|lia].
  - split_and!; [done|done|done|by left|lia].
  - assert (asleep sd (<[t:=Awake sd k]> l) = asleep sd l - 1)%Z as Ha.
    { unfold asleep. rewrite (tally_insert _ _ _ _ _ Ht). simpl. rewrite decide_True by done. lia. }
    split_and!; [| | | |lia].
    + intros sd'. rewrite IHc, (tally_insert _ _ _ _ _ Ht). simpl. lia.
    + intros s Hg. apply IHg. by apply Forall_insert.
    + intros sd' q Hne. destruct (IHo sd' q Hne) as [-> ->]. unfold asleep. rewrite !(tally_insert _ _ _ _ _ Ht). simpl. rewrite !decide_False by done. lia.
    + intros q. destruct (IHs q) as [?|[-> ->]]; [by left|]. right. rewrite (tally_insert _ _ _ _ _ Ht). simpl. rewrite decide_True by done. lia.
Qed.

Lemma wake_inv s t sd m l : wk_inv s → wk_threads s !! t = Some (Signalling sd m) →
  wakes sd m (<[t := Idle]> (wk_threads s)) l → wk_inv (with_threads l s).
Proof.
  intros Hi Ht Hw. destruct (wakes_count _ _ _ _ Hw) as (Hc & Hg & Ho & Hs & Hle). pose proof Hi as [Hc0 Hw0 Hg0 Hu0 Hs0]. split; simpl.
  - done.
  - intros sd'. rewrite Hc, (tally_insert _ _ _ _ _ Ht). simpl. specialize (Hw0 sd'). destruct sd'; simpl in *; lia.
  - apply (Hg (with_threads l s)). apply Forall_insert; [|done]. eapply Forall_impl; [exact Hg0|]. by intros [| |[] ? ?| | |].
  - intros H0. rewrite Hc, (tally_insert _ _ _ _ _ Ht). simpl. specialize (Hu0 H0). lia.
  - intros sd' Has. unfold on_way. simpl. change (avail sd' (with_threads l s)) with (avail sd' s). change (seq_of sd' (with_threads l s)) with (seq_of sd' s).
    specialize (Hs0 sd'). unfold on_way in Hs0.
    assert (asleep sd' (<[t:=Idle]> (wk_threads s)) = asleep sd' (wk_threads s)) as Hai.
    { unfold asleep. rewrite (tally_insert _ _ _ _ _ Ht). simpl. lia. }
    destruct (decide (sd' = sd)) as [->|Hne].
    + destruct (Hs (seq_of sd s)) as [?|[Hal ->]]; [lia|]. rewrite (tally_insert _ _ _ _ _ Ht). simpl. rewrite decide_True by done. lia.
    + destruct (Ho sd' (seq_of sd' s) Hne) as [Hal ->]. rewrite (tally_insert _ _ _ _ _ Ht). simpl. rewrite decide_False by done. lia.
Qed.

Lemma wk_move_inv s s' : wk_move s s' → wk_inv s → wk_inv s'.
Proof.
  intros [s0|t sd k s0 Ht|t expired s0 s1 Ht|t sd k s0 Ht|t sd m l s0 Ht Hw] Hi.
  - destruct Hi as [Hc Hw Hg Hu Hs]. split; simpl; [done| | | |].
    + intros sd. rewrite tally_app. simpl. specialize (Hw sd). destruct sd; simpl in *; lia.
    + apply Forall_app. split; [|by repeat constructor]. eapply Forall_impl; [exact Hg|]. by intros [| |[] ? ?| | |].
    + intros H0. rewrite tally_app. simpl. specialize (Hu H0). lia.
    + intros sd. unfold on_way, asleep in *. simpl. rewrite !tally_app. simpl. specialize (Hs sd). destruct sd; simpl in *; lia.
  - by apply call_inv.
  - unfold own_turn in Ht. destruct (wk_threads s0 !! t) as [[|[] k|sd k seen|sd k|sd k|sd m]|] eqn:E; try done; injection Ht as <-.
    + by apply take_inv.
    + by apply put_inv.
    + destruct (Z.eqb_spec (seq_of sd s0) seen) as [<-|Hne]; [by apply sleep_inv|].
      eapply awake_inv; [done|exact E|]. right. by exists seen.
    + by apply retry_inv.
  - eapply awake_inv; [done|exact Ht|by left].
  - by eapply wake_inv.
Qed.

Lemma wk_reachable_inv maxsize s : (0 ≤ maxsize)%Z → wk_reachable maxsize s → wk_inv s ∧ wk_maxsize s = maxsize.
Proof.
  intros Hm. induction 1 as [|s s' _ [IH Hs] Hstep].
  - split; [|done]. split; simpl; [lia|by intros []|constructor|done|]. intros sd. unfold asleep. simpl. lia.
  - split; [by eapply wk_move_inv|]. rewrite <-Hs. destruct Hstep as [s0|t sd k s0 Ht|t expired s0 s1 Ht|t sd k s0 Ht|t sd m l s0 Ht Hw]; try done.
    unfold own_turn in Ht. destruct (wk_threads s0 !! t) as [[|[] k|sd k seen|sd k|sd k|sd m]|]; try done; injection Ht as <-.
    + unfold consumer_turn. by repeat case_match.
    + unfold producer_turn. by repeat case_match.
    + done.
    + by destruct sd.
Qed.

(** ** Nobody sleeps for nothing *)

(** A thread that can do nothing until another one acts. *)
Definition resting (c : wpc) : Prop := c = Idle ∨ ∃ sd k, c = Sleeping sd k.


Module WakeupsDemo.
(** A consumer goes to sleep on the empty ring; a producer puts a record and is
    about to wake it. *)
Definition joined : waking := with_threads [Idle; Idle] (new_waking 1).
Definition step (t : nat) (s : waking) : waking := default s (own_turn t false s).
Definition slept : waking := step 0 (step 0 (go 0 (Trying Items 1) joined)).
Definition put : waking := step 1 (go 1 (Trying Space 1) slept).

Lemma step_reachable t s s' : wk_reachable 1 s → own_turn t false s = Some s' → wk_reachable 1 s'.
Proof. intros Hr Ht. eapply wkr_move; [exact Hr|by eapply wk_turn]. Qed.
Lemma slept_reachable : wk_reachable 1 slept.
Proof.
  eapply (step_reachable 0 (step 0 (go 0 (Trying Items 1) joined))); [|reflexivity].
  eapply (step_reachable 0 (go 0 (Trying Items 1) joined)); [|reflexivity]. eapply (wkr_move _ joined); [|by apply wk_call]. eapply (wkr_move _ (with_threads [Idle] (new_waking 1))); [|apply wk_join].
  eapply wkr_move; [apply wkr_new|apply wk_join].
Qed.
Lemma put_reachable : wk_reachable 1 put.
Proof.
  eapply (step_reachable 1 (go 1 (Trying Space 1) slept)); [|reflexivity]. eapply wkr_move; [exact slept_reachable|by apply wk_call].
Qed.

End WakeupsDemo.
