(* ===== verification/ShmOwner.v ===== *)
(** * Who owns shared memory (shmstore.py, shmqueue.py)

    The owner of a store or a queue registers the names of its segments with
    the resource tracker, unlinks and unregisters them once, when it closes;
    every other process attaches by name, once per process however many of its
    threads ask. The store's segments are those of [BlockStore]. *)
From S2P Require Import Prelude BlockStore.
From Stdlib Require Import HexadecimalString HexadecimalN.

(** ** The resource tracker *)

(** The names it would unlink, and the KeyErrors it has printed. *)
Record tracker := Tracker { cache : gset string; key_errors : list string }.

Definition register (n : string) (t : tracker) : tracker := Tracker ({[ n ]} ∪ cache t) (key_errors t).
Definition unregister (n : string) (t : tracker) : tracker :=
  if decide (n ∈ cache t) then Tracker (cache t ∖ {[ n ]}) (key_errors t)
  else Tracker (cache t) (key_errors t ++ [n]).

Definition register_all (ns : list string) (t : tracker) : tracker := foldl (λ t n, register n t) t ns.
Definition unregister_all (ns : list string) (t : tracker) : tracker := foldl (λ t n, unregister n t) t ns.

Lemma register_all_cache ns : ∀ t,
  cache (register_all ns t) = list_to_set ns ∪ cache t ∧ key_errors (register_all ns t) = key_errors t.
Proof.
  induction ns as [|n ns IH]; intros t; simpl; [split; [set_solver|done]|].
  unfold register_all in *. simpl. destruct (IH (register n t)) as [-> ->]. split; [set_solver|done].
Qed.

(** What was registered once is unregistered without an error. *)
Lemma unregister_registered ns : ∀ t,
  NoDup ns → list_to_set ns ⊆ cache t →
  unregister_all ns t = Tracker (cache t ∖ list_to_set ns) (key_errors t).
Proof.
  induction ns as [|n ns IH]; intros t Hnd Hsub; simpl.
  { destruct t as [c e]. unfold unregister_all. simpl. f_equal. set_solver. }
  apply list.NoDup_cons in Hnd as [Hn Hnd]. unfold unregister_all in *. simpl. unfold unregister at 2.
  rewrite decide_True by set_solver. rewrite IH; [|done|set_solver]. simpl. f_equal. set_solver.
Qed.

Lemma balanced ns t :
  NoDup ns → list_to_set ns ## cache t → unregister_all ns (register_all ns t) = t.
Proof.
  intros Hnd Hd. destruct (register_all_cache ns t) as [Hc He].
  rewrite unregister_registered; [|done|rewrite Hc; set_solver]. rewrite Hc, He. destruct t as [c e]. simpl in *.
  f_equal. set_solver.
Qed.

(** [weakref.finalize]: runs its function the first time it is called. *)
Definition finalize {S} (f : S → S) (alive : bool) (s : S) : bool * S := (false, if alive then f s else s).

(** ** The payload store's owner *)

Definition hex (n : Z) : string := NilEmpty.string_of_uint (N.to_hex_uint (Z.to_N n)).
Definition seg_name (base : string) (id : Z) (dedicated : bool) : string :=
  (base ++ (if dedicated then "d" else "r") ++ hex id)%string.

(** [core.segment_names(count)]. *)
Definition segment_names (base : string) (count : Z) : list string :=
  (λ id, seg_name base id false) <$> seqZ 0 count.

(** The names [PayloadStore.__init__] registers. *)
Definition names (base : string) (s : core) : list string :=
  base :: segment_names base (limit (c_ctl s) / seg_bytes (c_ctl s)).

(** What a closing owner changes: the segments of the store, whether its control
    segment has a name, and the tracker. *)
Record owned := Owned { o_core : core; o_control : bool; o_tracker : tracker }.

Definition payload_init (base : string) (w : owned) : owned :=
  Owned (o_core w) (o_control w) (register_all (names base (o_core w)) (o_tracker w)).
(** [_close(core, registered)]. *)
Definition _close (registered : list string) (w : owned) : owned :=
  Owned (unlink_all (o_core w)) false (unregister_all registered (o_tracker w)).
(** [PayloadStore.close], the finalizer alive or not. *)
Definition payload_close (registered : list string) (alive : bool) (w : owned) : bool * owned :=
  finalize (_close registered) alive w.

(** Workers and the owner use the store in between. *)
Inductive used_from (mappable : core → Z → bool) (s : core) : core → Prop :=
  | use_none : used_from mappable s s
  | use_alloc s1 n : used_from mappable s s1 → (0 ≤ n)%Z → used_from mappable s (alloc mappable n s1).2
  | use_share s1 b h : used_from mappable s s1 → c_hdrs s1 !! b = Some h → (0 < rc h)%Z → used_from mappable s (share b s1)
  | use_drop s1 b h : used_from mappable s s1 → c_hdrs s1 !! b = Some h → (0 < rc h)%Z → used_from mappable s (drop b s1).

(** ** The queue's owner *)

(** The names of rings that exist, and the tracker. *)
Record rings := Rings { r_names : gset string; r_tracker : tracker }.

Record ring_queue := RingQueue {
  q_core : string;             (* _core.name *)
  q_finalizer : option bool;   (* None, or a finalizer and whether it is alive *)
  q_store : option string;
}.

(** [_release]. *)
Definition _release (name : string) (w : rings) : rings :=
  Rings (r_names w ∖ {[ name ]}) (unregister name (r_tracker w)).

(** [ShmQueue(...)] without a [_core]: the core makes a ring of a new name. *)
Definition queue_init (name : string) (store : option string) (w : rings) : ring_queue * rings :=
  (RingQueue name (Some true) store, Rings ({[ name ]} ∪ r_names w) (register name (r_tracker w))).
(** [__reduce__] and [_rebuild]: a copy attaches to the ring if it has its name. *)
Definition _rebuild (args : string * option string) (w : rings) : option ring_queue :=
  if decide (args.1 ∈ r_names w) then Some (RingQueue args.1 None args.2) else None.
Definition queue_reduce (q : ring_queue) : string * option string := (q_core q, q_store q).
(** [close]. *)
Definition queue_close (q : ring_queue) (w : rings) : ring_queue * rings :=
  match q_finalizer q with
  | None => (q, w)
  | Some alive => let '(alive, w) := finalize (_release (q_core q)) alive w in (RingQueue (q_core q) (Some alive) (q_store q), w)
  end.

(** ** Nothing is left behind *)

Lemma hex_inj n m : (0 ≤ n)%Z → (0 ≤ m)%Z → hex n = hex m → n = m.
Proof.
  intros Hn Hm Hh. unfold hex in Hh.
  assert (Some (N.to_hex_uint (Z.to_N n)) = Some (N.to_hex_uint (Z.to_N m))) as He.
  { rewrite <-!NilEmpty.usu. by rewrite Hh. }
  injection He as He. apply (f_equal N.of_hex_uint) in He. rewrite !HexadecimalN.Unsigned.of_to in He. lia.
Qed.

Lemma append_inj_l (a b c : string) : (a ++ b = a ++ c)%string → b = c.
Proof. induction a as [|x a IH]; simpl; [done|]. intros [= ?]. by apply IH. Qed.

Lemma seg_name_inj base i j d d' :
  (0 ≤ i)%Z → (0 ≤ j)%Z → seg_name base i d = seg_name base j d' → i = j ∧ d = d'.
Proof.
  intros Hi Hj Hs. unfold seg_name in Hs. apply append_inj_l in Hs. destruct d, d'; simpl in Hs; try done.
  all: injection Hs as Hs; split; [by apply hex_inj|done].
Qed.

Lemma seg_name_not_base base i d : seg_name base i d ≠ base.
Proof.
  unfold seg_name. induction base as [|c base IH]; simpl; [by destruct d|]. by intros [= ?].
Qed.

Lemma names_NoDup base s : NoDup (names base s).
Proof.
  constructor.
  - intros (id & Hn & _)%list_elem_of_fmap. symmetry in Hn. by apply seg_name_not_base in Hn.
  - apply NoDup_fmap_2_strong; [|apply NoDup_seqZ].
    intros i j Hi%elem_of_seqZ Hj%elem_of_seqZ Hs. apply seg_name_inj in Hs; [by destruct Hs|lia..].
Qed.

Lemma used_reachable mappable s0 s : reachable mappable s0 → used_from mappable s0 s → reachable mappable s.
Proof.
  intros Hr. induction 1; [done|by apply reach_alloc|by eapply reach_share|by eapply reach_drop].
Qed.

Lemma alloc_constants mappable n s :
  limit (c_ctl (alloc mappable n s).2) = limit (c_ctl s) ∧ seg_bytes (c_ctl (alloc mappable n s).2) = seg_bytes (c_ctl s).
Proof.
  unfold alloc, alloc_dedicated, take, grow, grow_commit, grow_refused. destruct (class_of _) as [cls size].
  destruct (unpack _) as [seg off]. repeat (case_match; simplify_eq/=); done.
Qed.

(** The limit and the size of a segment stay as the store was made. *)
Lemma used_constants mappable s0 s :
  used_from mappable s0 s → limit (c_ctl s) = limit (c_ctl s0) ∧ seg_bytes (c_ctl s) = seg_bytes (c_ctl s0).
Proof.
  induction 1 as [|s1 n _ [Hl Hs] Hn|s1 b h _ [Hl Hs] Hb Hr|s1 b h _ [Hl Hs] Hb Hr]; [done| | |].
  - destruct (alloc_constants mappable n s1) as [-> ->]. done.
  - unfold share. by rewrite Hb.
  - unfold drop. rewrite Hb. destruct (negb _), b as [[seg off] []]; done.
Qed.

(** The owner registered every regular segment there will ever be. *)
Lemma segments_registered mappable base s0 s id :
  reachable mappable s0 → used_from mappable s0 s → (id, false) ∈ c_segs s → seg_name base id false ∈ names base s0.
Proof.
  intros Hr Hu Hid. destruct (used_constants _ _ _ Hu) as [Hl Hs].
  destruct (reachable_inv _ _ (used_reachable _ _ _ Hr Hu)) as [fl I]. apply (i_regular _ _ I) in Hid.
  right. apply list_elem_of_fmap. exists id. split; [done|]. apply elem_of_seqZ. rewrite <-Hl, <-Hs.
  pose proof (i_used _ _ I). pose proof (i_cap _ _ I). pose proof (i_seg _ _ I).
  assert (0 ≤ dedicated_total (c_hdrs s))%Z.
  { apply total_nonneg. intros i o h Hh. by destruct (i_dedicated _ _ I _ _ _ Hh) as (_ & _ & _ & ?). }
  assert (nreg (c_ctl s) ≤ limit (c_ctl s) / seg_bytes (c_ctl s))%Z by (apply Z.div_le_lower_bound; lia). lia.
Qed.

Lemma unlink_all_empty mappable s : reachable mappable s → c_segs (unlink_all s) = ∅.
Proof.
  intros [fl I]%reachable_inv. unfold unlink_all. simpl. apply set_eq. intros [id d].
  rewrite elem_of_filter. split; [|set_solver]. intros [Hn Hid]. destruct Hn. destruct d.
  - apply (i_named _ _ I) in Hid as [h Hh]. by apply (i_dedicated _ _ I) in Hh as (_ & ? & _).
  - by apply (i_regular _ _ I).
Qed.


(** The owner of a queue unlinks it once. A copy that reached another process
    is the same ring and store, and its close does nothing; the owner's close
    takes the name and its registration back, again without effect the second
    time, and then no copy can attach. *)
Theorem queue_name_balanced name store w :
  name ∉ r_names w → name ∉ cache (r_tracker w) →
  let '(q, w1) := queue_init name store w in
  _rebuild (queue_reduce q) w1 = Some (RingQueue name None store) ∧
  queue_close (RingQueue name None store) w1 = (RingQueue name None store, w1) ∧
  let '(q2, w2) := queue_close q w1 in
  w2 = w ∧ queue_close q2 w2 = (q2, w2) ∧ _rebuild (queue_reduce q2) w2 = None.
Proof.
  intros Hn Ht. unfold queue_init, queue_close, queue_reduce, _rebuild, finalize, _release. cbn -[decide].
  rewrite (decide_True (P := name ∈ _)) by set_solver. rewrite decide_False by set_solver.
  split_and!; try done. destruct w as [ns [c e]]. unfold register, unregister. cbn -[decide] in *.
  rewrite decide_True by set_solver. f_equal; [|f_equal]; set_solver.
Qed.

(** ** Attaching once ([shmstore.store])

    Threads of one process ask for stores by name. A step of a thread is one
    line of [store]; [Store.attach] may raise. *)

Inductive pc :=
  | Entered                    (* before the first _attached.get(name) *)
  | Locking                    (* at "with _attach_lock" *)
  | Checking                   (* the second _attached.get(name) *)
  | Attaching                  (* Store.attach(name) *)
  | Storing (h : nat)          (* _attached[name] = s *)
  | Leaving (h : option nat)   (* leaves the lock: with a handle, or raising *)
  | Returned (h : nat)
  | Raised.

Record attach_state := AttachState {
  _attached : gmap string nat;
  _attach_lock : option nat;            (* the thread that holds it *)
  threads : gmap nat (string * pc);     (* what each thread asks for *)
  attaches : list string;               (* the calls of Store.attach that returned, newest last *)
}.

Definition set_pc (t : nat) (name : string) (c : pc) (w : attach_state) : attach_state :=
  AttachState (_attached w) (_attach_lock w) (<[t := (name, c)]> (threads w)) (attaches w).

(** One line of [store] in thread [t]; [None] where it has to wait, or is
    done. [ok]: does [Store.attach] return? A handle is the number of the call
    that made it. *)
Definition turn (ok : bool) (t : nat) (w : attach_state) : option attach_state :=
  match threads w !! t with
  | None => None
  | Some (name, c) =>
      match c with
      | Entered =>
          Some (set_pc t name (match _attached w !! name with Some h => Returned h | None => Locking end) w)
      | Locking =>
          match _attach_lock w with
          | None => Some (AttachState (_attached w) (Some t) (<[t := (name, Checking)]> (threads w)) (attaches w))
          | Some _ => None
          end
      | Checking =>
          Some (set_pc t name (match _attached w !! name with Some h => Leaving (Some h) | None => Attaching end) w)
      | Attaching =>
          Some (if ok then
                  AttachState (_attached w) (_attach_lock w) (<[t := (name, Storing (length (attaches w)))]> (threads w))
                    (attaches w ++ [name])
                else set_pc t name (Leaving None) w)
      | Storing h =>
          Some (AttachState (<[name := h]> (_attached w)) (_attach_lock w) (<[t := (name, Leaving (Some h))]> (threads w))
                  (attaches w))
      | Leaving h =>
          Some (AttachState (_attached w) None
                  (<[t := (name, match h with Some h => Returned h | None => Raised end)]> (threads w)) (attaches w))
      | Returned _ | Raised => None
      end
  end.

Definition in_lock (c : pc) : bool :=
  match c with Checking | Attaching | Storing _ | Leaving _ => true | _ => false end.
Definition finished (c : pc) : bool := match c with Returned _ | Raised => true | _ => false end.

(** Some threads have entered [store]; nothing else happened. *)
Definition asked (asks : gmap nat string) : attach_state :=
  AttachState ∅ None ((λ name, (name, Entered)) <$> asks) [].

(** Any interleaving of their turns. *)
Inductive interleaved (asks : gmap nat string) : attach_state → Prop :=
  | int_start : interleaved asks (asked asks)
  | int_turn w w' ok t : interleaved asks w → turn ok t w = Some w' → interleaved asks w'.

(** What every interleaving keeps. *)
Record attach_inv (w : attach_state) : Prop := {
  a_lock t name c : threads w !! t = Some (name, c) → in_lock c = true ↔ _attach_lock w = Some t;
  a_held t : _attach_lock w = Some t → is_Some (threads w !! t);
  a_map name h : _attached w !! name = Some h → attaches w !! h = Some name;
  a_once : NoDup (attaches w);
  a_seen name : name ∈ attaches w →
    is_Some (_attached w !! name) ∨ ∃ t h, threads w !! t = Some (name, Storing h);
  a_new t name : threads w !! t = Some (name, Attaching) → _attached w !! name = None;
  a_storing t name h : threads w !! t = Some (name, Storing h) → attaches w !! h = Some name ∧ _attached w !! name = None;
  a_leaving t name h : threads w !! t = Some (name, Leaving (Some h)) → _attached w !! name = Some h;
  a_returned t name h : threads w !! t = Some (name, Returned h) → _attached w !! name = Some h;
}.

Ltac one_thread := repeat match goal with
  | H : <[_ := _]> _ !! _ = Some _ |- _ => apply lookup_insert_Some in H as [[? ?]|[? ?]]; simplify_eq/=
  end.

Lemma attach_inv_start asks : attach_inv (asked asks).
Proof.
  assert (∀ t name c, threads (asked asks) !! t = Some (name, c) → c = Entered) as Hc.
  { intros t name c. simpl. rewrite lookup_fmap. destruct (asks !! t); simpl; naive_solver. }
  split; try done; try (by intros t name h Ht%Hc); try (by intros t name Ht%Hc).
  - intros t name c Ht. by rewrite (Hc _ _ _ Ht).
  - constructor.
  - set_solver.
Qed.

(** Only the holder of the lock is between its two ends. *)
Lemma lock_alone w t t' name name' c c' :
  attach_inv w → threads w !! t = Some (name, c) → threads w !! t' = Some (name', c') →
  in_lock c = true → in_lock c' = true → t = t'.
Proof. intros I Ht Ht' Hc%(a_lock _ I t name c Ht) Hc'%(a_lock _ I t' name' c' Ht'). congruence. Qed.

(** A turn that only moves on in the code. *)
Lemma attach_move w t name c c' :
  attach_inv w → threads w !! t = Some (name, c) → in_lock c' = in_lock c → (∀ h, c ≠ Storing h) →
  match c' with
  | Attaching => _attached w !! name = None
  | Leaving (Some h) | Returned h => _attached w !! name = Some h
  | Storing _ => False
  | _ => True
  end → attach_inv (set_pc t name c' w).
Proof.
  intros I Ht Hl Hst Hc'. split; simpl.
  - intros t' name' c2 H. one_thread; [|by apply (a_lock _ I _ _ _ H0)]. rewrite Hl. by apply (a_lock _ I _ _ _ Ht).
  - intros t' Hh. destruct (decide (t' = t)) as [->|]; [rewrite lookup_insert_eq; by eexists|].
    rewrite lookup_insert_ne by done. by apply I.
  - apply I.
  - apply I.
  - intros n Hn. destruct (a_seen _ I n Hn) as [?|(t' & h & Hh)]; [by left|right]. exists t', h.
    rewrite lookup_insert_ne; [done|]. intros <-. simplify_eq. by destruct (Hst h).
  - intros t' n H. one_thread; [done|by eapply (a_new _ I)].
  - intros t' n h H. one_thread; [done|by eapply (a_storing _ I)].
  - intros t' n h H. one_thread; [done|by eapply (a_leaving _ I)].
  - intros t' n h H. one_thread; [done|by eapply (a_returned _ I)].
Qed.

Lemma attach_enters w t name :
  attach_inv w → threads w !! t = Some (name, Locking) → _attach_lock w = None →
  attach_inv (AttachState (_attached w) (Some t) (<[t := (name, Checking)]> (threads w)) (attaches w)).
Proof.
  intros I Ht Hl. split; simpl.
  - intros t' n c H. one_thread; [done|]. split; [|congruence]. intros Hc%(a_lock _ I _ _ _ H0). congruence.
  - intros t' [= <-]. rewrite lookup_insert_eq. by eexists.
  - apply I.
  - apply I.
  - intros n Hn. destruct (a_seen _ I n Hn) as [?|(t' & h & Hh)]; [by left|right]. exists t', h.
    rewrite lookup_insert_ne; [done|]. intros <-. congruence.
  - intros t' n H. one_thread. by eapply (a_new _ I).
  - intros t' n h H. one_thread. by eapply (a_storing _ I).
  - intros t' n h H. one_thread. by eapply (a_leaving _ I).
  - intros t' n h H. one_thread. by eapply (a_returned _ I).
Qed.

Lemma attach_attaches w t name :
  attach_inv w → threads w !! t = Some (name, Attaching) →
  attach_inv (AttachState (_attached w) (_attach_lock w) (<[t := (name, Storing (length (attaches w)))]> (threads w))
                (attaches w ++ [name])).
Proof.
  intros I Ht. pose proof (a_new _ I _ _ Ht) as Hnone. split; simpl.
  - intros t' n c H. one_thread; [|by apply (a_lock _ I _ _ _ H0)]. by apply (a_lock _ I _ _ _ Ht).
  - intros t' Hh. destruct (decide (t' = t)) as [->|]; [rewrite lookup_insert_eq; by eexists|].
    rewrite lookup_insert_ne by done. by apply I.
  - intros n h Hh. apply lookup_app_l_Some. by apply I.
  - apply NoDup_app. split_and!; [apply I| |apply NoDup_singleton].
    intros n Hn Hs. apply list_elem_of_singleton in Hs as ->. destruct (a_seen _ I name Hn) as [[? ?]|(t' & h & Hh)]; [congruence|].
    assert (t = t') as <- by (by eapply lock_alone). congruence.
  - intros n Hn. apply elem_of_app in Hn as [Hn|Hn]; [|apply list_elem_of_singleton in Hn as ->].
    + destruct (a_seen _ I n Hn) as [?|(t' & h & Hh)]; [by left|]. assert (t = t') as <- by (by eapply lock_alone).
      congruence.
    + right. do 2 eexists. apply lookup_insert_eq.
  - intros t' n H. one_thread. by eapply (a_new _ I).
  - intros t' n h H. one_thread; [|by assert (t = t') by (by eapply lock_alone)].
    split; [|done]. by apply list_lookup_middle.
  - intros t' n h H. one_thread. by eapply (a_leaving _ I).
  - intros t' n h H. one_thread. by eapply (a_returned _ I).
Qed.

Lemma attach_stores w t name h :
  attach_inv w → threads w !! t = Some (name, Storing h) →
  attach_inv (AttachState (<[name := h]> (_attached w)) (_attach_lock w) (<[t := (name, Leaving (Some h))]> (threads w))
                (attaches w)).
Proof.
  intros I Ht. destruct (a_storing _ I _ _ _ Ht) as [Hh Hnone].
  assert (∀ n h', _attached w !! n = Some h' → <[name := h]> (_attached w) !! n = Some h') as Hkeep.
  { intros n h' Hn. rewrite lookup_insert_ne; [done|]. intros <-. congruence. }
  split; simpl.
  - intros t' n c H. one_thread; [|by apply (a_lock _ I _ _ _ H0)]. by apply (a_lock _ I _ _ _ Ht).
  - intros t' Hl. destruct (decide (t' = t)) as [->|]; [rewrite lookup_insert_eq; by eexists|].
    rewrite lookup_insert_ne by done. by apply I.
  - intros n h' Hn. one_thread; [done|by apply I].
  - apply I.
  - intros n Hn. left. destruct (decide (n = name)) as [->|]; [rewrite lookup_insert_eq; by eexists|].
    destruct (a_seen _ I n Hn) as [?|(t' & h' & Hh')]; [by rewrite lookup_insert_ne|].
    assert (t = t') as <- by (by eapply lock_alone). congruence.
  - intros t' n H. one_thread. by assert (t = t') by (by eapply lock_alone).
  - intros t' n h' H. one_thread. by assert (t = t') by (by eapply lock_alone).
  - intros t' n h' H. one_thread; [by rewrite lookup_insert_eq|]. by apply Hkeep, (a_leaving _ I t').
  - intros t' n h' H. one_thread. by apply Hkeep, (a_returned _ I t').
Qed.

Lemma attach_leaves w t name h :
  attach_inv w → threads w !! t = Some (name, Leaving h) →
  attach_inv (AttachState (_attached w) None
                (<[t := (name, match h with Some h => Returned h | None => Raised end)]> (threads w)) (attaches w)).
Proof.
  intros I Ht. assert (∀ t' n c, threads w !! t' = Some (n, c) → t ≠ t' → in_lock c = false) as Hout.
  { intros t' n c Ht' Hne. destruct (in_lock c) eqn:Hc; [|done]. destruct Hne. by eapply lock_alone. }
  split; simpl.
  - intros t' n c H. one_thread; [by destruct h|]. by rewrite (Hout _ _ _ H0).
  - done.
  - apply I.
  - apply I.
  - intros n Hn. destruct (a_seen _ I n Hn) as [?|(t' & h' & Hh)]; [by left|right]. exists t', h'.
    rewrite lookup_insert_ne; [done|]. intros <-. congruence.
  - intros t' n H. one_thread; [by destruct h|by eapply (a_new _ I)].
  - intros t' n h' H. one_thread; [by destruct h|by eapply (a_storing _ I)].
  - intros t' n h' H. one_thread; [by destruct h|by eapply (a_leaving _ I)].
  - intros t' n h' H. one_thread; [|by eapply (a_returned _ I)]. destruct h; simplify_eq. by eapply (a_leaving _ I).
Qed.

Lemma turn_keeps ok t w w' : attach_inv w → turn ok t w = Some w' → attach_inv w'.
Proof.
  intros I. unfold turn. destruct (threads w !! t) as [[name c]|] eqn:Ht; [|done]. destruct c; try done.
  - intros [= <-]. destruct (_attached w !! name) eqn:Hn; by eapply attach_move.
  - destruct (_attach_lock w) eqn:Hl; [done|]. intros [= <-]. by apply attach_enters.
  - intros [= <-]. destruct (_attached w !! name) eqn:Hn; by eapply attach_move.
  - intros [= <-]. destruct ok; [by apply attach_attaches|by eapply attach_move].
  - intros [= <-]. by apply attach_stores.
  - intros [= <-]. by apply attach_leaves.
Qed.

(** Whatever the interleaving of the threads of a process, [Store.attach]
    succeeds at most once for a name, and all the threads that asked for it and
    returned have the same handle; and while some thread is not done, some
    thread can move: nobody waits for ever on the lock. *)
Theorem store_attached_once asks w :
  interleaved asks w →
  NoDup (attaches w) ∧
  (∀ t1 t2 name h1 h2, threads w !! t1 = Some (name, Returned h1) → threads w !! t2 = Some (name, Returned h2) → h1 = h2) ∧
  (∀ t name h, threads w !! t = Some (name, Returned h) → attaches w !! h = Some name) ∧
  (∀ t name c ok, threads w !! t = Some (name, c) → finished c = false → ∃ t', is_Some (turn ok t' w)).
Proof.
  intros Hi. assert (attach_inv w) as I.
  { induction Hi as [|w w' ok t _ IH Ht]; [apply attach_inv_start|by eapply turn_keeps]. }
  split_and!; [apply I| | |].
  - intros t1 t2 name h1 h2 H1%(a_returned _ I) H2%(a_returned _ I). congruence.
  - intros t name h Ht%(a_returned _ I). by apply I.
  - intros t name c ok Ht Hf. destruct c; try done.
    2:{ destruct (_attach_lock w) as [t'|] eqn:Hl.
        - destruct (a_held _ I t' Hl) as [[n c] Hc]. pose proof (proj2 (a_lock _ I _ _ _ Hc) Hl) as Hin.
          exists t'. unfold turn. rewrite Hc. destruct c; try done; by eexists.
        - exists t. unfold turn. rewrite Ht, Hl. by eexists. }
    all: exists t; unfold turn; rewrite Ht; by eexists.
Qed.

(** ** The pickler of a thread ([shmqueue._dumps])

    A [ForkingPickler] copies the table of reducers when it is made; each thread
    keeps one until the number of registered reducers changes. *)

Inductive reducer :=
  | Registered (id : nat)             (* somebody else's *)
  | TensorReducer (torch : reducer)   (* _tensor_reducer(torch_reduce, torch) *)
  | NdarrayReducer.                   (* _reduce_ndarray *)

Abbreviation table := (gmap string reducer).
Definition TENSOR : string := "torch.Tensor".
Definition NDARRAY : string := "numpy.ndarray".

(** [ForkingPickler(buf, protocol).dispatch_table], then the fast paths. *)
Definition make_table (copyreg extra : table) (torch : bool) : table :=
  let p := extra ∪ copyreg in
  let p := match p !! TENSOR with Some r => if torch then <[TENSOR := TensorReducer r]> p else p | None => p end in
  <[NDARRAY := NdarrayReducer]> p.

(** [_tls]: the pickler's table and the count it was made at, and what the
    reducers read. *)
Record tls := Tls { tls_p : option (table * nat); tls_inline_max : Z; tls_store : option string }.

Definition _dumps (copyreg extra : table) (torch : bool) (inline_max : Z) (store : option string) (w : tls) : table * tls :=
  let n := size extra in
  let stale := match tls_p w with Some (_, m) => negb (m =? n)%nat | None => true end in
  let p := match tls_p w with
           | Some (p, _) => if stale then make_table copyreg extra torch else p
           | None => make_table copyreg extra torch
           end in
  (p, Tls (Some (p, n)) inline_max store).

(** Reducers registered for new types, and torch registering its own when it
    is imported, are seen by the next message. *)
Theorem pickler_current copyreg e0 e1 torch0 torch1 i0 i1 s0 s1 w :
  tls_p w = None → e0 ⊆ e1 →
  (torch0 = true ↔ TENSOR ∈ dom (e0 ∪ copyreg)) → (torch1 = true ↔ TENSOR ∈ dom (e1 ∪ copyreg)) →
  let '(_, w1) := _dumps copyreg e0 torch0 i0 s0 w in
  let '(p, w2) := _dumps copyreg e1 torch1 i1 s1 w1 in
  p = make_table copyreg e1 torch1 ∧ tls_inline_max w2 = i1 ∧ tls_store w2 = s1.
Proof.
  intros Hw Hsub H0 H1. unfold _dumps. rewrite Hw. simpl. split; [|done].
  destruct (Nat.eqb_spec (size e0) (size e1)) as [Hs|]; [|done]. simpl.
  assert (e0 = e1) as <- by (apply (map_subseteq_size_eq); [done|lia]).
  f_equal. destruct torch0, torch1; naive_solver.
Qed.

(** A reducer that replaces another is not: the thread goes on with the old
    one. *)
Theorem replaced_reducer_unseen :
  let e0 : table := {[ "T"%string := Registered 0 ]} in
  let e1 : table := {[ "T"%string := Registered 1 ]} in
  let '(_, w1) := _dumps ∅ e0 false 0 None (Tls None 0 None) in
  (_dumps ∅ e1 false 0 None w1).1 !! "T"%string = Some (Registered 0).
Proof. vm_compute. reflexivity. Qed.

(** ** Concrete owners *)

Module OwnerDemo.
Definition mappable (s : core) (n : Z) : bool := true.
Definition s0 : core := new_core (2 ^ 20) 1.
Definition used : core := (alloc mappable 100000 (alloc mappable 5000 s0).2).2.
Definition t0 : tracker := Tracker {[ "psm_other" ]} [].


Lemma queue_name_balanced_witness :
  let w := Rings {[ "gpq1.2_7" ]} t0 in
  (queue_close (queue_init "gpq1.2_8" None w).1 (queue_init "gpq1.2_8" None w).2).2 = w.
Proof.
  pose proof (queue_name_balanced "gpq1.2_8" None (Rings {[ "gpq1.2_7" ]} t0)
    ltac:(apply (bool_decide_eq_true_1 _); vm_compute; reflexivity)
    ltac:(apply (bool_decide_eq_true_1 _); vm_compute; reflexivity)) as H.
  destruct H as (_ & _ & H & _). exact H.
Defined.

(** Two threads ask for the same store; the second waits for the lock. *)
Definition asks : gmap nat string := {[ 0%nat := "S"%string; 1%nat := "S"%string ]}.
Definition turns (ts : list nat) (w : attach_state) : attach_state := foldl (λ w t, default w (turn true t w)) w ts.
Definition both : attach_state := turns [0; 1; 0; 0; 1; 0; 0; 0; 1; 1; 1]%nat (asked asks).

Lemma turns_interleaved ts : ∀ w, interleaved asks w → interleaved asks (turns ts w).
Proof.
  induction ts as [|t ts IH]; intros w Hw; [done|]. apply IH. destruct (turn true t w) eqn:Ht; [|done].
  by eapply int_turn.
Qed.

Lemma store_attached_once_witness :
  threads both = {[ 0%nat := ("S"%string, Returned 0); 1%nat := ("S"%string, Returned 0) ]} ∧ NoDup (attaches both).
Proof.
  pose proof (store_attached_once asks both (turns_interleaved _ _ (int_start asks))) as H.
  split; [vm_compute; reflexivity|apply H].
Defined.
End OwnerDemo.
