(* ===== verification/Autoscale.v ===== *)
(** * The planned autoscaler (_planned/autoscale.py)

    Nothing in the package calls it yet. A thread samples the input queue of
    each autoscaled stage and adds a worker, or stops one, after enough
    samples of the same kind. Ratios are compared exactly. *)
From S2P Require Import Prelude Types.

(** ** Thresholds (the defaults of [_autoscaler_thread]; times in ms) *)

Definition scale_up_samples : Z := 3.
Definition scale_down_samples : Z := 5.
Definition cooldown : Z := 3000.

(** ** CPU load *)

(** [_get_cpu_usage]: idle and total, unless [/proc/stat] cannot be read. *)
Definition cpu_times : Type := option (Z * Z).

Definition field_sum (parts : list Z) : Z := foldr Z.add 0%Z parts.
(** From the numbers of the first line. *)
Definition _get_cpu_usage (fields : option (list Z)) : cpu_times :=
  match fields with
  | Some l => match l !! 3%nat with Some idle => Some (idle, field_sum l) | None => None end
  | None => None
  end.

(** [prev_idle], [prev_total] and [cpu_saturated] after a sample. *)
Definition watch_cpu (prev curr : cpu_times) (saturated : bool) : cpu_times * bool :=
  match prev, curr with
  | Some (prev_idle, prev_total), Some (curr_idle, curr_total) =>
      let idle_delta := (curr_idle - prev_idle)%Z in
      let total_delta := (curr_total - prev_total)%Z in
      (curr, if (0 <? total_delta)%Z then (85 * total_delta <? 100 * (total_delta - idle_delta))%Z else saturated)
  | _, _ => (prev, saturated)
  end.

(** ** One stage *)

(** The job's settings, and what a sample reads of the stage. A queue without
    [_maxsize] reads 0. *)
Record limits := Limits { min_workers : option Z; max_workers : option Z }.
Record sample := Sample {
  sa_time : Z;
  sa_finished : Z;                (* stage_end_counters[i].value *)
  sa_in_size : Z; sa_in_max : Z;
  sa_out : option (Z * Z);        (* size and _maxsize of the output queue *)
  sa_saturated : bool;            (* cpu_saturated *)
  sa_put_ok : bool;               (* in_queue.put(WorkerStop, timeout=0.1) returned *)
}.

(** The entries of the stage in the three dicts, and its worker counters. *)
Record gauge := Gauge {
  g_high : Z;
  g_low : Z;
  g_last : option Z;
  g_total : Z;                    (* stage_worker_counts[i].value *)
  g_spawned : Z;                  (* stage_spawn_counts[i] *)
}.
Inductive scaling := Up (worker_idx : Z) | Down | DownFailed.

(** What the pressure of a sample asks for. *)
Inductive pressure := Hot | Blocked | Cold | Mild.
#[export] Instance pressure_eq_dec : EqDecision pressure.
Proof. solve_decision. Defined.
Definition active_workers (s : sample) (g : gauge) : Z := (g_total g - sa_finished s)%Z.
Definition out_blocked (s : sample) : bool :=
  match sa_out s with
  | Some (out_size, out_max) => (0 <? out_max)%Z && (9 * out_max <=? 10 * out_size)%Z
  | None => false
  end.
Definition pressure_of (l : limits) (s : sample) (g : gauge) : pressure :=
  let active := active_workers s g in
  if (active <? default (active * 4) (max_workers l))%Z && (8 * sa_in_max s <=? 10 * sa_in_size s)%Z then
    if sa_saturated s || out_blocked s then Blocked else Hot
  else if (default 1 (min_workers l) <? active)%Z && (10 * sa_in_size s <=? 2 * sa_in_max s)%Z then Cold
  else Mild.

(** [_spawn_additional_worker] and [_signal_worker_to_stop], as far as the
    counters go. *)
Definition _spawn_additional_worker (g : gauge) : scaling * gauge :=
  (Up (g_spawned g), Gauge (g_high g) (g_low g) (g_last g) (g_total g + 1) (g_spawned g + 1)).
Definition _signal_worker_to_stop (put_ok : bool) (g : gauge) : scaling * gauge :=
  if put_ok then (Down, Gauge (g_high g) (g_low g) (g_last g) (g_total g - 1) (g_spawned g))
  else (DownFailed, g).

(** The samples that are looked at: not in the cooldown, with active workers
    and a bounded input queue. That the stage has its counters and queues is
    taken for granted. *)
Definition looked_at (s : sample) (g : gauge) : bool :=
  match g_last g with Some t => (cooldown <=? sa_time s - t)%Z | None => true end &&
  (0 <? active_workers s g)%Z && (0 <? sa_in_max s)%Z.

Definition set_counts (high low : Z) (g : gauge) : gauge :=
  Gauge high low (g_last g) (g_total g) (g_spawned g).
Definition scale_now (t : Z) (g : gauge) : gauge :=
  Gauge (g_high g) (g_low g) (Some t) (g_total g) (g_spawned g).

(** The body of the loop over the stages. *)
Definition autoscale_stage (l : limits) (s : sample) (g : gauge) : option scaling * gauge :=
  if negb (looked_at s g) then (None, g)
  else
    match pressure_of l s g with
    | Blocked => (None, set_counts 0 (g_low g) g)
    | Hot =>
        let high := (g_high g + 1)%Z in
        if (scale_up_samples <=? high)%Z then
          let '(a, g) := _spawn_additional_worker (scale_now (sa_time s) (set_counts 0 0 g)) in (Some a, g)
        else (None, set_counts high 0 g)
    | Cold =>
        let low := (g_low g + 1)%Z in
        if (scale_down_samples <=? low)%Z then
          let '(a, g) := _signal_worker_to_stop (sa_put_ok s) (scale_now (sa_time s) (set_counts 0 0 g)) in (Some a, g)
        else (None, set_counts 0 low g)
    | Mild => (None, set_counts 0 0 g)
    end.

(** The samples of a stage, one after the other: when it was scaled, and how. *)
Fixpoint autoscale (l : limits) (ss : list sample) (g : gauge) : list (Z * scaling) * gauge :=
  match ss with
  | [] => ([], g)
  | s :: ss =>
      let '(a, g) := autoscale_stage l s g in
      let '(rest, g') := autoscale l ss g in
      (match a with Some a => [(sa_time s, a)] | None => [] end ++ rest, g')
  end.

(** ** Between its limits, and never too often *)

(** The actions of a list are at least the cooldown apart, the first of them
    from [last] on. *)
Fixpoint spaced (last : option Z) (xs : list (Z * scaling)) : Prop :=
  match xs with
  | [] => True
  | (t, _) :: xs => match last with Some t0 => (cooldown ≤ t - t0)%Z | None => True end ∧ spaced (Some t) xs
  end.

Definition change (x : Z * scaling) : Z := match x.2 with Up _ => 1 | Down => -1 | DownFailed => 0 end.
Definition net (xs : list (Z * scaling)) : Z := foldr (λ x n, (change x + n)%Z) 0%Z xs.

Lemma autoscale_stage_spec l s g :
  sa_finished s = 0%Z →
  (default 1 (min_workers l) ≤ g_total g)%Z → (∀ m, max_workers l = Some m → (g_total g ≤ m)%Z) →
  let '(a, g') := autoscale_stage l s g in
  (default 1 (min_workers l) ≤ g_total g')%Z ∧ (∀ m, max_workers l = Some m → (g_total g' ≤ m)%Z) ∧
  match a with
  | None => g_total g' = g_total g ∧ g_last g' = g_last g ∧ g_spawned g' = g_spawned g
  | Some a => g_last g' = Some (sa_time s) ∧ g_total g' = (g_total g + change (sa_time s, a))%Z ∧
      match g_last g with Some t0 => (cooldown ≤ sa_time s - t0)%Z | None => True end ∧
      g_spawned g' = (match a with Up _ => g_spawned g + 1 | _ => g_spawned g end)%Z ∧
      (∀ i, a = Up i → i = g_spawned g)
  end.
Proof.
  intros Hfin Hmin Hmax. unfold autoscale_stage. destruct (looked_at s g) eqn:El; simpl; [|done].
  unfold looked_at in El. apply andb_true_iff in El as [[El _]%andb_true_iff _].
  assert (match g_last g with Some t0 => (cooldown ≤ sa_time s - t0)%Z | None => True end) as Hcool.
  { destruct (g_last g); [by apply Z.leb_le|done]. }
  destruct (pressure_of l s g) eqn:Ep; simpl; [|by split_and!| |by split_and!]; unfold pressure_of, active_workers in Ep;
    rewrite Hfin, Z.sub_0_r in Ep.
  - destruct (_ <? default _ _)%Z eqn:E in Ep; [|by repeat case_match].
    destruct (scale_up_samples <=? _)%Z; simpl; [|by split_and!]. unfold change. simpl. split_and!; try done; try lia.
    + intros m Hm. rewrite Hm in E. simpl in E. lia.
    + by intros i [= ->].
  - assert (default 1 (min_workers l) < g_total g)%Z.
    { destruct (_ && _) in Ep; [by case_match|]. destruct (_ <? g_total g)%Z eqn:E in Ep; [lia|done]. }
    destruct (scale_down_samples <=? _)%Z; simpl; [|by split_and!]. unfold _signal_worker_to_stop. destruct (sa_put_ok s); simpl; unfold change; simpl;
      split_and!; try done; try lia; intros m Hm; specialize (Hmax m Hm); lia.
Qed.

(** ** A worker is added under sustained pressure *)

(** What the samples that were looked at asked for, the latest first. *)
Fixpoint seen_pressure (l : limits) (ss : list sample) (g : gauge) (past : list pressure) : list pressure * gauge :=
  match ss with
  | [] => (past, g)
  | s :: ss =>
      let past := if looked_at s g then pressure_of l s g :: past else past in
      seen_pressure l ss (autoscale_stage l s g).2 past
  end.

(** The two counters count the latest samples: those under pressure without
    interruption; those idle, with none in between but blocked ones. *)
Definition counted (g : gauge) (past : list pressure) : Prop :=
  (0 ≤ g_high g < scale_up_samples)%Z ∧ (0 ≤ g_low g < scale_down_samples)%Z ∧
  replicate (Z.to_nat (g_high g)) Hot `prefix_of` past ∧
  replicate (Z.to_nat (g_low g)) Cold `prefix_of` filter (λ p, p ≠ Blocked) past.

(** The bounds of [counted] and its empty prefixes. *)
Local Ltac counters :=
  unfold counted, scale_up_samples, scale_down_samples; simpl; split_and!; try lia; try apply prefix_nil.

Lemma counted_step l s g past :
  counted g past →
  let past' := if looked_at s g then pressure_of l s g :: past else past in
  counted (autoscale_stage l s g).2 past' ∧
  match (autoscale_stage l s g).1 with
  | Some (Up _) => replicate (Z.to_nat scale_up_samples) Hot `prefix_of` past'
  | Some _ => replicate (Z.to_nat scale_down_samples) Cold `prefix_of` filter (λ p, p ≠ Blocked) past'
  | None => True
  end.
Proof.
  intros Hc. pose proof Hc as (Hh & Hl & Hph & Hpl). cbn zeta. unfold autoscale_stage.
  destruct (looked_at s g); simpl; [|done]. unfold scale_up_samples, scale_down_samples in *.
  assert (∀ n, (0 ≤ n)%Z → ∀ p : pressure, replicate (Z.to_nat (n + 1)) p = p :: replicate (Z.to_nat n) p) as Hrep.
  { intros n Hn p. by replace (Z.to_nat (n + 1)) with (S (Z.to_nat n)) by lia. }
  destruct (pressure_of l s g) eqn:Ep; rewrite ?filter_cons; simpl.
  - destruct (3 <=? _)%Z eqn:E; boolify; simpl.
    + split; [counters|]. replace (g_high g) with 2%Z in Hph by lia.
      by apply prefix_cons.
    + split; [|done]. counters. rewrite Hrep by lia. by apply prefix_cons.
  - split; [|done]. counters; done.
  - destruct (5 <=? _)%Z eqn:E; boolify; simpl.
    + unfold _signal_worker_to_stop. replace (g_low g) with 4%Z in Hpl by lia.
      destruct (sa_put_ok s); simpl; (split; [counters|by apply prefix_cons]).
    + split; [|done]. counters. rewrite Hrep by lia. by apply prefix_cons.
  - split; [|done]. counters.
Qed.

Lemma seen_pressure_counted l ss g past :
  counted g past → let '(past', g') := seen_pressure l ss g past in counted g' past'.
Proof.
  revert g past. induction ss as [|s ss IH]; intros g past Hc; simpl; [done|].
  apply IH. by apply (counted_step l s g past).
Qed.

Definition new_gauge (num_workers : Z) : gauge := Gauge 0 0 None num_workers num_workers.

(** A worker is added when the last three samples that were looked at found
    the input queue 80% full, with room downstream and on the CPU; one is
    stopped when, leaving out those that found it as full but without such
    room, the last five found it at most 20% full. *)
Theorem autoscale_sustained (l : limits) (ss : list sample) (s : sample) (num_workers : Z) :
  let '(past, g) := seen_pressure l ss (new_gauge num_workers) [] in
  let past' := if looked_at s g then pressure_of l s g :: past else past in
  match (autoscale_stage l s g).1 with
  | Some (Up _) => [Hot; Hot; Hot] `prefix_of` past'
  | Some _ => [Cold; Cold; Cold; Cold; Cold] `prefix_of` filter (λ p, p ≠ Blocked) past'
  | None => True
  end.
Proof.
  pose proof (seen_pressure_counted l ss (new_gauge num_workers) []) as Hc.
  destruct (seen_pressure l ss (new_gauge num_workers) []) as [past g].
  apply counted_step, Hc. counters.
Qed.

(** While no worker finishes, a stage that starts between its limits stays
    there; its actions are at least the cooldown apart, account for its count
    of workers, and give new workers numbers of their own. *)
Theorem autoscale_within_limits (l : limits) (ss : list sample) (g : gauge) :
  Forall (λ s, sa_finished s = 0%Z) ss →
  (default 1 (min_workers l) ≤ g_total g)%Z → (∀ m, max_workers l = Some m → (g_total g ≤ m)%Z) →
  let '(xs, g') := autoscale l ss g in
  (default 1 (min_workers l) ≤ g_total g')%Z ∧ (∀ m, max_workers l = Some m → (g_total g' ≤ m)%Z) ∧
  g_total g' = (g_total g + net xs)%Z ∧ spaced (g_last g) xs ∧
  (∀ t i, (t, Up i) ∈ xs → (g_spawned g ≤ i < g_spawned g')%Z) ∧ (g_spawned g ≤ g_spawned g')%Z.
Proof.
  revert g. induction ss as [|s ss IH]; intros g Hfin Hmin Hmax; cbn [autoscale].
  - split_and!; try done; simpl; try lia. intros t i Hin. by apply elem_of_nil in Hin.
  - inversion Hfin as [|? ? Hf Hfs]; subst. pose proof (autoscale_stage_spec l s g Hf Hmin Hmax) as H1.
    destruct (autoscale_stage l s g) as [a g1]. destruct H1 as (Hmin1 & Hmax1 & Ha).
    specialize (IH g1 Hfs Hmin1 Hmax1). destruct (autoscale l ss g1) as [xs g2].
    destruct IH as (Hmin2 & Hmax2 & Htot & Hsp & Hup & Hle). destruct a as [a|].
    + destruct Ha as (Hl & Ht & Hc & Hs & Hi). rewrite Hl in Hsp. split_and!; try done; simpl.
      * unfold net in *. simpl. lia.
      * intros t i [[= -> <-]|Hin]%elem_of_cons.
        -- rewrite (Hi i eq_refl). simpl in *. lia.
        -- apply Hup in Hin. destruct a; lia.
      * destruct a; lia.
    + destruct Ha as (Ht & Hl & Hs). rewrite Hl, Hs in *. split_and!; try done. unfold net in *. simpl. lia.
Qed.

(** A full but blocked sample does not interrupt a series of idle ones. *)
Example idle_samples_interrupted :
  let sample size saturated t := Sample t 0 size 10 None saturated true in
  (autoscale (Limits None (Some 4%Z))
     [sample 0 false 1000; sample 1 false 2000; sample 9 true 3000; sample 2 false 4000; sample 1 false 5000;
      sample 0 false 6000]%Z (new_gauge 2)).1 = [(6000%Z, Down)].
Proof. reflexivity. Qed.
