(* ===== verification/AutoscaleSpawn.v ===== *)
(** * The worker an autoscaler spawns (_planned/autoscale.py)

    [_spawn_additional_worker] builds a positional tuple for [_worker_run] or
    [_threaded_worker_run], where [start] passes keywords; the two have to
    stay in step. It keeps the tuple as the configuration of the worker. *)
From S2P Require Import Prelude Types Text Placement Jobs Lifecycle Autoscale.

(** ** Calls by position *)

(** The values that are passed; [AOfPipe] is a shared object or a setting of
    the pipeline that every worker gets. *)
Inductive arg :=
  | ANone
  | AFunc (f : stage_func)
  | ARef (x : nat)
  | ARefs (l : list nat)
  | AInt (z : Z)
  | AInts (l : list Z)
  | ABool (b : bool)
  | AStr (s : string)
  | AStrs (l : list string)
  | AThreads (x : int_arg)
  | AOfPipe (attr : string).

Definition some {A} (f : A → arg) (o : option A) : arg := match o with Some x => f x | None => ANone end.

(** The parameters of [_worker_run] and of [_threaded_worker_run]. *)
Definition worker_params : list string :=
  ["worker"; "in_queue"; "out_queue"; "should_stop"; "gpu_id"; "timing_dict"; "worker_id"; "raise_errors";
   "stage_end_counter"; "stage_worker_count"; "stage_idx"; "stage_name"; "is_final_stage"; "expected_consumers";
   "upstream_done"; "stage_done"; "sequential"; "batch_size"; "drain_event"; "drain"; "all_queues"; "stage_names";
   "cpu_affinity"; "cpu_threads"; "out_chunk"; "out_chunk_ms"; "scavenge_hold"; "scavenge_park"; "scavenge_ipc";
   "busy_since"]%string.
Definition threaded_params : list string :=
  ["worker"; "in_queue"; "out_queue"; "should_stop"; "gpu_id"; "timing_dict"; "worker_id"; "raise_errors"; "num_threads";
   "stage_end_counter"; "stage_worker_count"; "stage_idx"; "stage_name"; "is_final_stage"; "expected_consumers";
   "upstream_done"; "stage_done"; "sequential"; "batch_size"; "drain_event"; "drain"; "all_queues"; "stage_names";
   "cpu_affinity"; "cpu_threads"; "out_chunk"; "out_chunk_ms"]%string.
Definition params (t : run_target) : list string :=
  match t with RunWorker => worker_params | RunThreaded => threaded_params end.

(** The parameters after a call with these arguments; those left out have
    their defaults. Too many arguments are a [TypeError]. *)
Definition bind_positional (ps : list string) (args : list arg) : res (list (string * arg)) :=
  if (length args <=? length ps)%nat then Ok (zip ps args) else Raise TypeError.

(** The keywords of a call by [_spawn(target, kwargs)]: the keys of the dict
    that [start] builds. *)
Definition keyword_args (t : run_target) (k : kwargs) : list (string * arg) :=
  [("worker", AFunc (k_worker k)); ("in_queue", some ARef (k_in_queue k)); ("out_queue", some ARef (k_out_queue k));
   ("should_stop", AOfPipe "should_stop"); ("timing_dict", some ARef (k_timing_dict k));
   ("raise_errors", AOfPipe "raise_errors"); ("stage_end_counter", ARef (k_stage_end_counter k));
   ("stage_worker_count", ARef (k_stage_worker_count k)); ("stage_idx", AInt (Z.of_nat (k_stage_idx k)));
   ("stage_name", AStr (k_stage_name k)); ("is_final_stage", ABool (k_is_final_stage k));
   ("expected_consumers", AOfPipe "expected_consumers"); ("upstream_done", some ARef (k_upstream_done k));
   ("stage_done", ARef (k_stage_done k)); ("sequential", AOfPipe "sequential"); ("batch_size", AInt (k_batch_size k));
   ("drain_event", AOfPipe "drain_event"); ("drain", ABool (k_drain k)); ("all_queues", ARefs (k_all_queues k));
   ("stage_names", AStrs (k_stage_names k)); ("cpu_threads", some AThreads (k_cpu_threads k));
   ("out_chunk", AInt (k_out_chunk k)); ("out_chunk_ms", AInt (k_out_chunk_ms k)); ("gpu_id", some AInt (k_gpu_id k));
   ("worker_id", AStr (k_worker_id k)); ("cpu_affinity", some AInts (k_cpu_affinity k))]%string ++
  match t with
  | RunWorker =>
      [("scavenge_hold", some ARef (k_scavenge_hold k)); ("scavenge_park", some ARef (k_scavenge_park k));
       ("scavenge_ipc", some ARef (k_scavenge_ipc k)); ("busy_since", some ARef (k_busy_since k))]%string
  | RunThreaded => [("num_threads", AInt (k_num_threads k))]%string
  end.

(** ** [_spawn_additional_worker] *)

(** The pipeline, with what it would have to have: [stage_spawn_counts]; the
    processes spawned here, with their calls; and the entries made here in
    [worker_configs], before the older ones. *)
Record auto_config := AutoConfig { ac_target : run_target; ac_args : list arg; ac_stage_name : string }.
Record scaled := Scaled {
  sc_pipe : pipe;
  sc_counts : list Z;
  sc_processes : list (nat * run_target * list arg);
  sc_configs : list (string * auto_config);
}.

Definition get_config (id : string) (w : scaled) : option (auto_config + worker_config) :=
  match dict_lookup id (sc_configs w) with
  | Some c => Some (inl c)
  | None => inr <$> dict_lookup id (p_worker_configs (sc_pipe w))
  end.

Definition next_id (i : nat) (n : Z) : string := "stage_" +:+ str_of_nat i +:+ "_worker_" +:+ str_of_Z n.

(** The tuple [args]; the stage has its counters and its done event. *)
Definition first_args (i : nat) (j : job) (worker_id : string) (p : pipe) : list arg :=
  [AFunc (j_func j); some ARef (match i with O => None | S i' => p_queues p !! i' end);
   some ARef (p_queues p !! i); AOfPipe "should_stop"; ANone; some ARef (p_manager p); AStr worker_id;
   AOfPipe "raise_errors"].
Definition middle_args (i : nat) (j : job) (cpus : option (list Z)) (p : pipe) : list arg :=
  [ARef (default 0%nat (p_end_counters p !! i)); ARef (default 0%nat (p_worker_counts p !! i)); AInt (Z.of_nat i);
   AStr (stage_name (j_func j)); ABool (bool_decide (i = (length (p_jobs p) - 1)%nat)); AOfPipe "expected_consumers";
   some ARef (match i with O => None | S i' => p_done_events p !! i' end);
   ARef (default 0%nat (p_done_events p !! i)); AOfPipe "sequential"; AInt (j_batch j); AOfPipe "drain_event";
   ABool (j_drain j); ARefs (p_queues p); AStrs (j_name <$> p_jobs p); some AInts cpus; some AThreads (j_cpu_threads j);
   AInt (default 0%Z (j_chunk_eff j)); AInt (j_chunk_ms j)].
Definition spawn_args (i : nat) (j : job) (worker_id : string) (cpus : option (list Z)) (p : pipe) : list arg :=
  if j_thread j then first_args i j worker_id p ++ [AInt (j_num_workers j)] ++ middle_args i j cpus p
  else first_args i j worker_id p ++ middle_args i j cpus p ++ [ANone; ANone; ANone; ANone].

Definition spawn_additional_worker (i : nat) (j : job) : prog scaled nat := λ w,
  match sc_counts w !! i with
  | None => (Raise IndexError, w)
  | Some n =>
      let w := Scaled (sc_pipe w) (<[i := (n + 1)%Z]> (sc_counts w)) (sc_processes w) (sc_configs w) in
      let worker_id := next_id i n in
      match _cpu_chunk (j_cpus j) n (j_num_workers j) with
      | Ok cpus =>
          let p := sc_pipe w in
          let count := default 0%nat (p_worker_counts p !! i) in
          let p := store_value count (value_of p count + 1) p in
          let target := if j_thread j then RunThreaded else RunWorker in
          let args := spawn_args i j worker_id cpus p in
          let pid := p_next p in
          let p := set_next (S pid) p in
          let p := set_processes (p_processes p ++ [pid]) p in
          let p := set_worker_info (p_worker_info p ++ [(pid, worker_id, stage_name (j_func j))]) p in
          (Ok pid, Scaled p (sc_counts w) (sc_processes w ++ [(pid, target, args)])
             (dict_set worker_id (AutoConfig target args (stage_name (j_func j))) (sc_configs w)))
      | Raise e => (Raise e, w)
      | Spin => (Spin, w)
      end
  end.

(** [_restart_worker] up to [config["kwargs"]]: an entry made here has no such
    key. *)
Definition restart_kwargs (worker_id : string) (w : scaled) : res kwargs :=
  match get_config worker_id w with
  | None => Raise ValueError
  | Some (inl _) => Raise KeyError
  | Some (inr c) => Ok (wc_kwargs c)
  end.

(** ** The tuple and the keywords *)

Lemma dict_lookup_missing {V} (k : string) (d : list (string * V)) : k ∉ d.*1 → dict_lookup k d = None.
Proof.
  induction d as [|[k' v] d IH]; simpl; [done|]. rewrite not_elem_of_cons. intros [Hne Hk].
  rewrite decide_False by done. by apply IH.
Qed.

Lemma keyword_names t k : (keyword_args t k).*1 ⊆ params t.
Proof.
  assert (forallb (λ x, bool_decide (x ∈ params t)) (keyword_args t k).*1 = true) as H by (by destruct t).
  intros x Hx. apply list_elem_of_In in Hx. by apply (proj1 (forallb_forall _ _) H x), bool_decide_eq_true in Hx.
Qed.

(** The preserved code is in step with the live signatures: by position it
    passes each parameter what [start] passes it by keyword. *)
Theorem positional_is_keyword i j worker_id cpus p :
  j_name j = stage_name (j_func j) →
  let t := if j_thread j then RunThreaded else RunWorker in
  let k := with_worker None (j_num_workers j) worker_id cpus None None None None (common i j p) in
  ∃ b, bind_positional (params t) (spawn_args i j worker_id cpus p) = Ok b ∧ b.*1 = params t ∧
    ∀ name, dict_lookup name b = dict_lookup name (keyword_args t k).
Proof.
  intros Hn t k. unfold k, common, spawn_args, middle_args, t. rewrite <-Hn. clear Hn k t.
  assert (∀ t (b : list (string * arg)) k, b.*1 = params t → Forall (λ x, dict_lookup x b = dict_lookup x (keyword_args t k)) (params t) →
    ∀ name, dict_lookup name b = dict_lookup name (keyword_args t k)) as Hall.
  { intros t b k Hb Hf name. destruct (decide (name ∈ params t)) as [Hin|Hout]; [by rewrite Forall_forall in Hf; apply Hf|].
    rewrite !dict_lookup_missing; [done| |by rewrite Hb]. intros Hk. by apply Hout, (keyword_names t k). }
  destruct (j_thread j); eexists; (split; [reflexivity|]); (split; [reflexivity|]); apply Hall; try reflexivity;
    repeat (apply Forall_cons; split; [reflexivity|]); apply Forall_nil_2.
Qed.

(** The worker is counted, numbered, started and listed; but the entry it gets
    has no [kwargs], so that it cannot be restarted when it has crashed. *)
Theorem spawned_worker_cannot_restart i j w n cpus :
  sc_counts w !! i = Some n → _cpu_chunk (j_cpus j) n (j_num_workers j) = Ok cpus →
  let '(r, w') := spawn_additional_worker i j w in
  let p := sc_pipe w in
  let count := default 0%nat (p_worker_counts p !! i) in
  r = Ok (p_next p) ∧ sc_counts w' !! i = Some (n + 1)%Z ∧
  value_of (sc_pipe w') count = (value_of p count + 1)%Z ∧
  p_worker_info (sc_pipe w') = p_worker_info p ++ [(p_next p, next_id i n, stage_name (j_func j))] ∧
  restart_kwargs (next_id i n) w' = Raise KeyError.
Proof.
  intros Hn Hc. unfold spawn_additional_worker. rewrite Hn, Hc. simpl. split_and!; try done.
  - apply list_lookup_insert_eq. by eapply lookup_lt_Some.
  - unfold value_of at 1. simpl. by rewrite lookup_insert_eq.
  - unfold restart_kwargs, get_config. simpl. induction (sc_configs w) as [|[k v] d IH]; simpl; [by rewrite decide_True|].
    case_decide; simpl; [by rewrite decide_True|]. by rewrite decide_False.
Qed.
