(* ===== verification/Examples.v ===== *)
(** * The stages of the example pipelines (examples/)

    Stages that keep a buffer: what they are given, what they return call by
    call, and what their [flush] yields at the end. A stage is run as the
    framework runs it with one worker: the items of each result go downstream,
    then those of [flush]. *)
From stdpp Require Import pretty.
From S2P Require Import Prelude Types.

(** ** Items that are dicts *)

(** [item[k]]. *)
Definition getitem (k : string) (item : py) : res py :=
  match item with
  | PyDict d => match dict_get k d with Some v => Ok v | None => Raise KeyError end
  | _ => Raise TypeError
  end.

(** [item[k] = v], and [del item[k]]. *)
Fixpoint dict_put (k : string) (v : py) (d : list (string * py)) : list (string * py) :=
  match d with
  | [] => [(k, v)]
  | (k', v') :: d => if decide (k = k') then (k, v) :: d else (k', v') :: dict_put k v d
  end.
Fixpoint dict_del (k : string) (d : list (string * py)) : list (string * py) :=
  match d with
  | [] => []
  | (k', v') :: d => if decide (k = k') then d else (k', v') :: dict_del k d
  end.

(** ** A stage with a state *)

Section stateful.
Context {S : Type} (call : py → prog S result) (flush : prog S generator).

(** Call by call: what goes downstream. A call that raises is reported, and its
    item is gone (a [ConnectionError] or [FileNotFoundError] would stop the
    stage; no call here raises one). *)
Fixpoint feed (items : list py) (s : S) : list py * S :=
  match items with
  | [] => ([], s)
  | x :: items =>
      let '(r, s) := call x s in
      let '(out, s) := feed items s in
      (result_items r ++ out, s)
  end.

(** Then [flush()]; an exception in it is reported, and nothing is sent. *)
Definition run_through (items : list py) (s : S) : list py * S :=
  let '(out, s) := feed items s in
  match flush s with
  | (Ok g, s) =>
      (out ++ match gen_raises g with None => filter (λ v, is_None v = false) (gen_yields g) | Some _ => [] end, s)
  | (_, s) => (out, s)
  end.

Lemma feed_app xs ys : ∀ s,
  feed (xs ++ ys) s = let '(out, s1) := feed xs s in let '(out', s2) := feed ys s1 in (out ++ out', s2).
Proof.
  induction xs as [|x xs IH]; intros s; simpl; [by destruct (feed ys s)|].
  destruct (call x s) as [r s1]. rewrite IH. destruct (feed xs s1) as [o s2]. destruct (feed ys s2). by rewrite (assoc_L (++)).
Qed.

(** By induction on the items, the last one last. *)
Lemma feed_ind (P : list py → list py → S → Prop) s0 :
  P [] [] s0 →
  (∀ xs x out s, P xs out s → let '(r, s') := call x s in P (xs ++ [x]) (out ++ result_items r) s') →
  ∀ items, let '(out, s) := feed items s0 in P items out s.
Proof.
  intros H0 Hs items. induction items as [|x items IH] using rev_ind; [done|]. rewrite feed_app. destruct (feed items s0) as [out s].
  simpl. specialize (Hs items x out s IH). destruct (call x s) as [r s']. by rewrite app_nil_r.
Qed.
End stateful.

(** ** Groups by key (group_by_key.py) *)

Module Grouping.
(** [GroupBySpeaker]: the dict [groups], in the order of its keys. *)
Abbreviation groups := (list (string * list py)).

Section grouping.
Context (group_size : Z).

(** [groups.setdefault(key, []).append(item)]; the group it is in. *)
Fixpoint append_to (key : string) (item : py) (gs : groups) : list py * groups :=
  match gs with
  | [] => ([item], [(key, [item])])
  | (k, l) :: gs =>
      if decide (key = k) then (l ++ [item], (k, l ++ [item]) :: gs)
      else let '(g, gs) := append_to key item gs in (g, (k, l) :: gs)
  end.
(** [groups.pop(key)]. *)
Definition pop (key : string) (gs : groups) : groups := filter (λ g, g.1 ≠ key) gs.

Definition full_group (key : string) (clips : list py) : py :=
  PyDict [("speaker", PyStr key); ("clips", PyList clips)].
Definition partial_group (key : string) (clips : list py) : py :=
  PyDict [("speaker", PyStr key); ("clips", PyList clips); ("partial", PyNum 1)].

(** [__call__]; the speakers of the example are strings. *)
Definition group_call (item : py) : prog groups result := λ gs,
  match getitem "speaker" item with
  | Ok (PyStr key) =>
      let '(g, gs) := append_to key item gs in
      if (group_size <=? Z.of_nat (length g))%Z then (Ok (RVal (full_group key g)), pop key gs)
      else (Ok (RVal PyNone), gs)
  | Ok _ => (Raise TypeError, gs)
  | Raise e => (Raise e, gs)
  | Spin => (Spin, gs)
  end.

(** [flush]. *)
Definition group_flush : prog groups generator := λ gs,
  (Ok (Generator ((λ g, partial_group g.1 g.2) <$> gs) None), []).

Definition GroupBySpeaker (items : list py) : list py := (run_through group_call group_flush items []).1.
End grouping.

(** [ProcessGroup]. *)
Definition process_group (group : py) : res py :=
  match getitem "speaker" group with
  | Ok speaker =>
      match getitem "clips" group with
      | Ok (PyList clips) =>
          Ok (PyDict [("speaker", speaker); ("n_clips", PyNum (Z.of_nat (length clips)));
                      ("partial", match group with PyDict d => default (PyNum 0) (dict_get "partial" d) | _ => PyNone end)])
      | Ok _ => Raise TypeError
      | Raise e => Raise e
      | Spin => Spin
      end
  | r => r
  end.

(** A clip of a speaker. *)
Definition clip_of (item : py) (key : string) : Prop := getitem "speaker" item = Ok (PyStr key).
#[export] Instance clip_of_dec item key : Decision (clip_of item key).
Proof.
  unfold clip_of. destruct (getitem "speaker" item) as [[| | |s| | | | | |]|e|];
    try (right; discriminate). destruct (decide (s = key)) as [->|]; [by left|right; congruence].
Defined.

(** [groups.get(key, [])]. *)
Fixpoint at_key (key : string) (gs : groups) : list py :=
  match gs with
  | [] => []
  | (k, l) :: gs => if decide (key = k) then l else at_key key gs
  end.

(** Groups that were sent: the speaker, the clips, and whether it is partial. *)
Abbreviation sent := (string * list py * bool)%type.
Definition sent_group (g : sent) : py := (if g.2 then partial_group else full_group) g.1.1 g.1.2.
Definition clips_of (key : string) (gs : list sent) : list py := concat ((λ g, g.1.2) <$> filter (λ g, g.1.1 = key) gs).

Lemma append_to_group key item gs : (append_to key item gs).1 = at_key key gs ++ [item].
Proof. induction gs as [|[k l] gs IH]; simpl; [done|]. case_decide; [done|]. by destruct (append_to key item gs). Qed.

Lemma append_to_at key item gs k :
  at_key k (append_to key item gs).2 = if decide (key = k) then at_key k gs ++ [item] else at_key k gs.
Proof.
  induction gs as [|[k' l] gs IH]; simpl.
  - repeat case_decide; congruence.
  - destruct (decide (key = k')) as [->|Hne]; simpl; [repeat case_decide; congruence|].
    destruct (append_to key item gs) as [g gs']. simpl in *. rewrite IH. repeat case_decide; congruence.
Qed.

Lemma append_to_keys key item gs k : k ∈ (append_to key item gs).2.*1 ↔ k = key ∨ k ∈ gs.*1.
Proof.
  induction gs as [|[k' l] gs IH]; simpl; [set_solver|]. case_decide as Hd; csimpl; [subst; set_solver|].
  destruct (append_to key item gs) as [g gs']. csimpl. set_solver.
Qed.

Lemma append_to_nodup key item gs : NoDup gs.*1 → NoDup (append_to key item gs).2.*1.
Proof.
  induction gs as [|[k l] gs IH]; csimpl; [intros _; apply NoDup_singleton|]. intros [Hk Hnd]%NoDup_cons.
  case_decide as Hd; [csimpl; by apply NoDup_cons|]. pose proof (append_to_keys key item gs k) as Hks. specialize (IH Hnd).
  destruct (append_to key item gs) as [g gs']. csimpl. apply NoDup_cons. split; [|done]. simpl in Hks. set_solver.
Qed.

Lemma pop_at key gs k : at_key k (pop key gs) = if decide (k = key) then [] else at_key k gs.
Proof.
  unfold pop. induction gs as [|[k' l] gs IH]; [by case_decide|]. rewrite filter_cons. simpl.
  repeat (case_decide; simpl); subst; try done; by rewrite IH, ?decide_True, ?decide_False by done.
Qed.

Lemma pop_keys key gs : NoDup gs.*1 → NoDup (pop key gs).*1 ∧ (pop key gs).*1 ⊆ gs.*1.
Proof.
  intros Hnd. unfold pop. assert ((filter (λ g, g.1 ≠ key) gs).*1 `sublist_of` gs.*1) as Hs by apply fmap_sublist, sublist_filter.
  split; [by eapply sublist_NoDup|]. intros k Hk. eapply elem_of_submseteq; [exact Hk|by apply sublist_submseteq].
Qed.

Lemma at_key_in k gs : k ∈ gs.*1 → ∃ l, (k, l) ∈ gs ∧ at_key k gs = l.
Proof.
  induction gs as [|[k' l] gs IH]; csimpl; [by intros ?%elem_of_nil|]. intros Hk. case_decide as Hd; [subst; exists l; set_solver|].
  destruct IH as (l' & Hl & E); [set_solver|]. exists l'. set_solver.
Qed.
Lemma at_key_out k gs : k ∉ gs.*1 → at_key k gs = [].
Proof. induction gs as [|[k' l] gs IH]; csimpl; [done|]. intros Hk. case_decide; [set_solver|]. apply IH. set_solver. Qed.

Lemma at_key_unique k l gs : NoDup gs.*1 → (k, l) ∈ gs → at_key k gs = l.
Proof.
  induction gs as [|[k' l'] gs IH]; csimpl; [by intros _ ?%elem_of_nil|]. intros [Hk Hnd]%NoDup_cons [[= -> ->]|Hin]%elem_of_cons.
  - by case_decide.
  - case_decide as Hd; [|by apply IH]. subst. destruct Hk. apply list_elem_of_fmap. by exists (k', l).
Qed.

(** The clips of a dict, by speaker. *)
Lemma clips_of_partial k gs : NoDup gs.*1 → clips_of k ((λ g, (g.1, g.2, true)) <$> gs) = at_key k gs.
Proof.
  unfold clips_of. induction gs as [|[k' l] gs IH]; csimpl; [done|]. intros [Hk Hnd]%NoDup_cons. rewrite filter_cons. simpl.
  specialize (IH Hnd). case_decide as Hd; csimpl.
  - subst. rewrite decide_True by done. rewrite IH, at_key_out by done. apply app_nil_r.
  - by rewrite decide_False by done.
Qed.

Lemma clips_of_app k gs gs' : clips_of k (gs ++ gs') = clips_of k gs ++ clips_of k gs'.
Proof. unfold clips_of. by rewrite filter_app, fmap_app, concat_app. Qed.

Section properties.
Context (size : Z).

(** After [items], the groups [out] were sent and [gs] are kept. *)
Definition grouped (items out : list py) (gs : groups) : Prop :=
  ∃ fulls : list sent, out = sent_group <$> fulls ∧
    (∀ k, clips_of k fulls ++ at_key k gs = filter (λ i, clip_of i k) items) ∧
    NoDup gs.*1 ∧ Forall (λ g, g.2 ≠ [] ∧ (Z.of_nat (length g.2) < size)%Z) gs ∧
    Forall (λ g : sent, g.2 = false ∧ Z.of_nat (length g.1.2) = Z.max 1 size) fulls.

Lemma grouped_nil : grouped [] [] [].
Proof. exists []. split_and!; [done|done|apply NoDup_nil_2|constructor|constructor]. Qed.

Lemma small_group_at k gs : Forall (λ g : string * list py, g.2 ≠ [] ∧ (Z.of_nat (length g.2) < size)%Z) gs →
  at_key k gs = [] ∨ (Z.of_nat (length (at_key k gs)) < size)%Z.
Proof.
  intros Hs. destruct (decide (k ∈ gs.*1)) as [Hin|]; [|left; by apply at_key_out].
  destruct (at_key_in k gs Hin) as (l & Hl & ->). rewrite Forall_forall in Hs. right. by destruct (Hs _ Hl).
Qed.

Lemma call_grouped items out gs x :
  (∃ key, clip_of x key) → grouped items out gs →
  let '(r, gs') := group_call size x gs in grouped (items ++ [x]) (out ++ result_items r) gs'.
Proof.
  intros [key Hkey] (fulls & -> & Hclips & Hnd & Hsmall & Hfull). unfold group_call. rewrite Hkey.
  pose proof (append_to_group key x gs) as Hg. pose proof (append_to_nodup key x gs Hnd) as Hnd'.
  pose proof (append_to_at key x gs) as Hat.
  assert (∀ k, filter (λ i, clip_of i k) (items ++ [x]) = filter (λ i, clip_of i k) items ++ if decide (key = k) then [x] else []) as Hfilter.
  { intros k. rewrite filter_app, filter_cons, filter_nil. f_equal.
    case_decide as Hc; case_decide as Hd; try done; [unfold clip_of in *; congruence|by subst]. }
  destruct (append_to key x gs) as [g gs'] eqn:E. simpl in *. subst g.
  assert (∀ k l, (k, l) ∈ gs' → k ≠ key → l ≠ [] ∧ (Z.of_nat (length l) < size)%Z) as Hother.
  { intros k l Hin Hne. assert (at_key k gs = l) as Hl.
    { rewrite <-(at_key_unique k l gs' Hnd' Hin). rewrite Hat, decide_False by done. done. }
    assert (k ∈ gs.*1) as Hk.
    { pose proof (append_to_keys key x gs k) as Hk. rewrite E in Hk. destruct (proj1 Hk) as [|]; [|done|done].
      apply list_elem_of_fmap. by exists (k, l). }
    destruct (at_key_in k gs Hk) as (l' & Hin' & Hl'). rewrite Forall_forall in Hsmall. rewrite <-Hl, Hl'. exact (Hsmall _ Hin'). }
  destruct (Z.leb_spec size (Z.of_nat (length (at_key key gs ++ [x])))) as [Hge|Hlt].
  - exists (fulls ++ [(key, at_key key gs ++ [x], false)]). destruct (pop_keys key gs' Hnd') as [Hnd2 _]. split_and!; [by rewrite fmap_app| |done| |].
    + intros k. rewrite clips_of_app, pop_at, Hfilter, <-Hclips, Hat. unfold clips_of at 2. rewrite filter_cons, filter_nil. simpl.
      destruct (decide (key = k)) as [->|Hne]; csimpl.
      * rewrite decide_True by done. by rewrite !app_nil_r, (assoc_L (++)).
      * rewrite decide_False by done. by rewrite !app_nil_r.
    + apply Forall_forall. intros [k l] Hin. unfold pop in Hin. apply list_elem_of_filter in Hin as [Hne Hin]. by apply (Hother k l).
    + apply Forall_app. split; [done|]. constructor; [|done]. split; [done|]. simpl.
      destruct (small_group_at key gs Hsmall) as [H0|H0]; rewrite ?H0 in *; rewrite ?length_app in *; simpl in *; lia.
  - exists fulls. split_and!; [by rewrite app_nil_r| |done| |done].
    + intros k. rewrite Hfilter, <-Hclips, Hat. case_decide; [by rewrite (assoc_L (++))|by rewrite app_nil_r].
    + apply Forall_forall. intros [k l] Hin. destruct (decide (k = key)) as [->|Hne]; [|by apply (Hother k l)].
      rewrite <-(at_key_unique key l gs' Hnd' Hin). rewrite Hat, decide_True by done. simpl. split; [by destruct (at_key key gs)|done].
Qed.
End properties.

(** No clip is lost, doubled or put with another speaker. Whatever the order
    in which the clips arrive: the groups that are sent have, speaker by
    speaker and taken together, the clips of the speaker in the order they
    came in; a group that is not marked partial has exactly [group_size] of
    them; and there is at most one partial group for a speaker, shorter than
    that and not empty. *)
Theorem groups_partition (size : Z) (items : list py) :
  Forall (λ i, ∃ key, clip_of i key) items →
  ∃ gs : list sent, GroupBySpeaker size items = sent_group <$> gs ∧
    (∀ key, clips_of key gs = filter (λ i, clip_of i key) items) ∧
    Forall (λ g : sent, if g.2 then g.1.2 ≠ [] ∧ (Z.of_nat (length g.1.2) < size)%Z
                        else Z.of_nat (length g.1.2) = Z.max 1 size) gs ∧
    NoDup (filter (λ g : sent, g.2 = true) gs).*1.*1.
Proof.
  intros Hitems. assert (let '(out, gs) := feed (group_call size) items [] in grouped size items out gs) as H.
  { induction items as [|x items IH] using rev_ind; [apply grouped_nil|]. apply Forall_app in Hitems as [Hi Hx]. apply Forall_inv in Hx.
    specialize (IH Hi). rewrite feed_app. destruct (feed _ items []) as [out gs]. simpl.
    pose proof (call_grouped size items out gs x Hx IH) as H. destruct (group_call size x gs) as [r gs']. by rewrite app_nil_r. }
  unfold GroupBySpeaker, run_through. destruct (feed _ items []) as [out gs]. destruct H as (fulls & -> & Hclips & Hnd & Hsmall & Hfull).
  exists (fulls ++ ((λ g, (g.1, g.2, true)) <$> gs)). split_and!.
  - simpl. rewrite fmap_app, <-list_fmap_compose. f_equal. apply filter_all, Forall_fmap, Forall_forall. done.
  - intros key. by rewrite clips_of_app, clips_of_partial, Hclips.
  - apply Forall_app. split.
    + eapply Forall_impl; [exact Hfull|]. intros [[k l] b] [Hb Hl]. simpl in Hb. subst. exact Hl.
    + apply Forall_fmap. exact Hsmall.
  - rewrite filter_app. assert (filter (λ g : sent, g.2 = true) fulls = []) as ->.
    { apply filter_none. eapply Forall_impl; [exact Hfull|]. intros g [Hg _]. by rewrite Hg. }
    rewrite filter_all by (apply Forall_fmap, Forall_forall; done). simpl. by rewrite <-!list_fmap_compose.
Qed.
End Grouping.

Module GroupingDemo.
Import Grouping.
Definition clip (s : string) (c : Z) : py := PyDict [("speaker", PyStr s); ("clip", PyNum c)].
Definition clips : list py := [clip "a" 0; clip "b" 0; clip "a" 1; clip "b" 1; clip "a" 2].

Lemma groups_partition_witness : ∃ gs : list sent,
  GroupBySpeaker 2 clips = sent_group <$> gs ∧
  clips_of "a" gs = [clip "a" 0; clip "a" 1; clip "a" 2] ∧ clips_of "b" gs = [clip "b" 0; clip "b" 1] ∧
  process_group <$> GroupBySpeaker 2 clips =
    [Ok (PyDict [("speaker", PyStr "a"); ("n_clips", PyNum 2); ("partial", PyNum 0)]);
     Ok (PyDict [("speaker", PyStr "b"); ("n_clips", PyNum 2); ("partial", PyNum 0)]);
     Ok (PyDict [("speaker", PyStr "a"); ("n_clips", PyNum 1); ("partial", PyNum 1)])].
Proof.
  assert (Forall (λ i, ∃ key, clip_of i key) clips) as Hc by (repeat constructor; by eexists).
  pose proof (groups_partition 2 clips Hc) as (gs & E & Hk & _). exists gs. split; [exact E|].
  rewrite !Hk. by vm_compute.
Defined.
End GroupingDemo.

(** ** A stage that retries (retry_downloader.py) *)

Section dicts.
Implicit Types (d : list (string * py)) (k : string) (v : py).

Lemma get_put_eq k v d : dict_get k (dict_put k v d) = Some v.
Proof. induction d as [|[k' v'] d IH]; simpl; [by case_decide|]. case_decide; simpl; by case_decide. Qed.
Lemma get_put_ne k k' v d : k ≠ k' → dict_get k (dict_put k' v d) = dict_get k d.
Proof.
  intros Hne. induction d as [|[k2 v2] d IH]; simpl; [by rewrite decide_False|].
  destruct (decide (k' = k2)) as [->|]; simpl; [by rewrite !decide_False|]. by rewrite IH.
Qed.
Lemma get_del_ne k k' d : k ≠ k' → dict_get k (dict_del k' d) = dict_get k d.
Proof.
  intros Hne. induction d as [|[k2 v2] d IH]; simpl; [done|]. destruct (decide (k' = k2)) as [->|]; simpl; [by rewrite decide_False|].
  by rewrite IH.
Qed.
End dicts.

(** [item[k] = v] on an object of any type. *)
Definition setitem (k : string) (v : py) (item : py) : res py :=
  match item with
  | PyDict d => Ok (PyDict (dict_put k v d))
  | _ => Raise TypeError
  end.

Fixpoint has_suffix (suffix s : string) : bool :=
  bool_decide (s = suffix) || match s with String.EmptyString => false | String.String _ s => has_suffix suffix s end.

Module Retry.

(** [UrlSource]. *)
Definition url_item (i : N) : py :=
  PyDict [("id", PyNum (Z.of_N i)); ("url", PyStr ("https://example.com/file_" +:+ pretty i)); ("attempts", PyNum 0)].
Definition url_source : generator := Generator ((λ i, url_item (N.of_nat i)) <$> seq 0 50) None.

Definition MAX_ATTEMPTS : Z := 3.

(** [_download]: [unlucky] is [random.random() < 0.3]. *)
Definition _download (unlucky : bool) (url : py) : res (list Byte.byte) :=
  match url with
  | PyStr url =>
      if has_suffix "_13" url then Raise ValueError
      else if unlucky then Raise TimeoutError
      else Ok (replicate (N.to_nat 1024) Byte.x78)
  | _ => Raise AttributeError
  end.

(** The input queue of the stage, and the items it printed a message about. *)
Record own_input := Stage { input : list py; reported : list py }.
Definition push_own (item : py) : prog own_input bool := λ s, (Ok true, Stage (input s ++ [item]) (reported s)).
Definition report (item : py) : prog own_input unit := λ s, (Ok tt, Stage (input s) (reported s ++ [item])).

Open Scope pipe_scope.

(** [Downloader.__call__]. *)
Definition download_call (unlucky : bool) (item : py) : prog own_input result :=
  let! attempts := of_res (getitem "attempts" item) in
  match attempts with
  | PyNum n =>
      let! item := of_res (setitem "attempts" (PyNum (n + 1)) item) in
      try_except
        (let! url := of_res (getitem "url" item) in
         let! data := of_res (_download unlucky url) in
         let! item := of_res (setitem "data" (PyBytes data) item) in
         ret (RVal item))
        (λ e, match e with
              | TimeoutError =>
                  if (n + 1 <? MAX_ATTEMPTS)%Z then push_own item ;! ret (RVal PyNone)
                  else report item ;! ret (RVal PyNone)
              | ValueError => report item ;! ret (RVal PyNone)
              | e => raise e
              end)
  | _ => raise TypeError
  end.

(** [Save]. *)
Definition save (item : py) : res py :=
  match getitem "id" item, getitem "attempts" item, getitem "data" item with
  | Ok i, Ok a, Ok (PyBytes b) => Ok (PyDict [("id", i); ("attempts", a); ("bytes", PyNum (Z.of_nat (length b)))])
  | Ok _, Ok _, Ok _ => Raise TypeError
  | Ok _, Ok _, Raise e | Ok _, Raise e, _ | Raise e, _, _ => Raise e
  | _, _, _ => Spin
  end.

(** Any number of workers: each takes the oldest item of the queue and calls
    [Downloader] on it; the calls end in any order. *)
Record fleet := Pool { at_stage : own_input; in_call : list py; sent : list py }.

Inductive pool_step : fleet → fleet → Prop :=
  | pool_take x q rep calls out :
      pool_step (Pool (Stage (x :: q) rep) calls out) (Pool (Stage q rep) (calls ++ [x]) out)
  | pool_call unlucky x before after s out :
      pool_step (Pool s (before ++ x :: after) out)
        (let '(r, s') := download_call unlucky x s in Pool s' (before ++ after) (out ++ result_items r)).

(** An item on its [n]th attempt, with a url. *)
Definition tried (n : Z) (item : py) : Prop :=
  ∃ d url, item = PyDict d ∧ dict_get "attempts" d = Some (PyNum n) ∧ dict_get "url" d = Some (PyStr url).
Definition to_try (item : py) : Prop := ∃ n, tried n item ∧ (0 ≤ n < MAX_ATTEMPTS)%Z.
Definition delivered (item : py) : Prop :=
  ∃ n b, getitem "attempts" item = Ok (PyNum n) ∧ getitem "data" item = Ok (PyBytes b) ∧ (1 ≤ n ≤ MAX_ATTEMPTS)%Z.
Definition gave_up (item : py) : Prop :=
  tried MAX_ATTEMPTS item ∨ ∃ url, getitem "url" item = Ok (PyStr url) ∧ has_suffix "_13" url = true.
Definition ids (items : list py) : list (res py) := getitem "id" <$> items.

(** The three ends of a call. *)
Lemma download_call_ends unlucky x n s : tried n x → (0 ≤ n < MAX_ATTEMPTS)%Z →
  ∃ y, getitem "id" y = getitem "id" x ∧
    (download_call unlucky x s = (Ok (RVal y), s) ∧ is_valid y = true ∧ delivered y ∧ (∀ l, y ≠ PyList l) ∨
     download_call unlucky x s = (Ok (RVal PyNone), Stage (input s ++ [y]) (reported s)) ∧ tried (n + 1) y ∧ (n + 1 < MAX_ATTEMPTS)%Z ∨
     download_call unlucky x s = (Ok (RVal PyNone), Stage (input s) (reported s ++ [y])) ∧ gave_up y).
Proof.
  intros (d & url & -> & Ha & Hu) Hn. unfold download_call, bind, of_res, ret, try_except. simpl. rewrite Ha. simpl.
  assert (tried (n + 1) (PyDict (dict_put "attempts" (PyNum (n + 1)) d))) as Ht.
  { exists (dict_put "attempts" (PyNum (n + 1)) d), url. split_and!; [done|apply get_put_eq|by rewrite get_put_ne]. }
  rewrite get_put_ne, Hu by done. simpl. destruct (has_suffix "_13" url) eqn:E.
  { exists (PyDict (dict_put "attempts" (PyNum (n + 1)) d)). split; [simpl; by rewrite get_put_ne|]. right; right. split; [done|]. right.
    exists url. simpl. rewrite get_put_ne, Hu by done. done. }
  destruct unlucky.
  - exists (PyDict (dict_put "attempts" (PyNum (n + 1)) d)). split; [simpl; by rewrite get_put_ne|]. right.
    destruct (Z.ltb_spec (n + 1) MAX_ATTEMPTS); [by left|]. right. split; [done|]. left.
    by replace MAX_ATTEMPTS with (n + 1)%Z by lia.
  - eexists (PyDict (dict_put "data" _ (dict_put "attempts" (PyNum (n + 1)) d))). split; [simpl; by rewrite !get_put_ne|].
    left. split_and!; [reflexivity|done| |done]. eexists (n + 1)%Z, _. simpl. rewrite get_put_eq, get_put_ne, get_put_eq by done.
    split_and!; [done|done|lia..].
Qed.

(** The attempts that are left. *)
Definition chances (item : py) : nat :=
  match getitem "attempts" item with Ok (PyNum n) => Z.to_nat (MAX_ATTEMPTS - n) | _ => 0 end.
Definition chances_of (items : list py) : nat := sum_list_with chances items.
Arguments chances_of : simpl never.
Definition budget (p : fleet) : nat := 2 * chances_of (input (at_stage p)) + 2 * chances_of (in_call p) - length (in_call p).

Definition pool_ok (items : list py) (p : fleet) : Prop :=
  ids (input (at_stage p) ++ in_call p ++ sent p ++ reported (at_stage p)) ≡ₚ ids items ∧
  Forall to_try (input (at_stage p)) ∧ Forall to_try (in_call p) ∧ Forall delivered (sent p) ∧ Forall gave_up (reported (at_stage p)).

Lemma chances_cons x l : chances_of (x :: l) = chances x + chances_of l.
Proof. done. Qed.
Lemma tried_chances n x : tried n x → chances x = Z.to_nat (MAX_ATTEMPTS - n).
Proof. intros (d & url & -> & Ha & _). unfold chances. simpl. by rewrite Ha. Qed.
Lemma to_try_chances x : to_try x → 1 ≤ chances x.
Proof. intros (n & Ht & Hn). rewrite (tried_chances n x Ht). lia. Qed.
Lemma calls_chances l : Forall to_try l → length l ≤ chances_of l.
Proof. induction 1 as [|x l Hx _ IH]; simpl; [lia|]. apply to_try_chances in Hx. rewrite chances_cons. lia. Qed.
Lemma chances_app l l' : chances_of (l ++ l') = chances_of l + chances_of l'.
Proof. apply sum_list_with_app. Qed.

Lemma pool_step_ok items p p' : pool_step p p' → pool_ok items p → pool_ok items p' ∧ budget p' < budget p.
Proof.
  intros Hs (Hids & Hq & Hc & Hsent & Hrep). unfold pool_ok, budget in *.
  destruct Hs as [x q rep calls out|unlucky x before after s out]; simpl in *.
  - apply Forall_cons in Hq as [Hx Hq]. pose proof (to_try_chances x Hx). pose proof (calls_chances calls Hc).
    split; [|rewrite chances_app, length_app, !chances_cons; simpl; change (chances_of []) with 0; lia].
    split_and!; [|done| |done|done]; [|by apply Forall_app_2; [|constructor]].
    rewrite <-Hids. unfold ids. rewrite !fmap_app. simpl. solve_Permutation.
  - apply Forall_app in Hc as [Hb Hc]. apply Forall_cons in Hc as [(n & Hx & Hn) Ha].
    pose proof (tried_chances n x Hx) as Hch. pose proof (calls_chances before Hb). pose proof (calls_chances after Ha).
    destruct (download_call_ends unlucky x n s Hx Hn) as (y & Hid & [(-> & Hv & Hd & Hl)|[(-> & Ht & Hlt)|(-> & Hg)]]);
      simpl; rewrite ?app_nil_r, ?chances_app, !length_app, !chances_cons, Hch; simpl.
    + assert (valid_items (as_list y) = [y]) as ->.
      { unfold valid_items. destruct y; try (by destruct (Hl l)); simpl; rewrite filter_cons, decide_True by done; by rewrite filter_nil. }
      split; [|lia]. split_and!; [|done|by apply Forall_app|by apply Forall_app_2; [|constructor]|done].
      rewrite <-Hids. unfold ids. rewrite !fmap_app, !fmap_cons. simpl. rewrite Hid. solve_Permutation.
    + split; [|rewrite (tried_chances _ _ Ht); change (chances_of []) with 0; lia].
      split_and!; [|apply Forall_app_2; [done|]; constructor; [exists (n + 1)%Z; split; [done|lia]|done]|by apply Forall_app|done|done].
      rewrite <-Hids. unfold ids. rewrite !fmap_app, !fmap_cons. simpl. rewrite Hid. solve_Permutation.
    + split; [|lia]. split_and!; [|done|by apply Forall_app|done|by apply Forall_app_2; [|constructor]].
      rewrite <-Hids. unfold ids. rewrite !fmap_app, !fmap_cons. simpl. rewrite Hid. solve_Permutation.
Qed.

End Retry.

Module RetryDemo.
Import Retry.
Definition two : list py := [url_item 13; url_item 7].

(** Number 13 is missing; number 7 times out once. *)
Lemma two_run : ∃ p, nsteps pool_step 6 (Pool (Stage two []) [] []) p ∧
  sent p = [PyDict [("id", PyNum 7); ("url", PyStr "https://example.com/file_7"); ("attempts", PyNum 2);
                    ("data", PyBytes (replicate 1024 Byte.x78))]] ∧
  ids (reported (at_stage p)) = [Ok (PyNum 13)].
Proof.
  eexists. split; [|split].
  - eapply nsteps_l; [apply pool_take|]. eapply nsteps_l; [apply pool_take|].
    eapply nsteps_l; [apply (pool_call true (url_item 7) [url_item 13] [])|].
    eapply nsteps_l; [apply (pool_call false (url_item 13) [] [])|].
    eapply nsteps_l; [apply pool_take|].
    eapply nsteps_l; [eapply (pool_call false _ [] [])|]. apply nsteps_O.
  - vm_compute. reflexivity.
  - vm_compute. reflexivity.
Defined.

End RetryDemo.
