(* ===== verification/Encode.v ===== *)
(** * Long audio through a GPU codec (examples/multi_stage_encode.py)

    [chunk_audio] cuts an item into chunks of one size, [Collate] packs chunks
    of any items into batches, [Encoder] encodes a batch at a time, and
    [Reassembler] puts the codes of each item together again, from chunks that
    arrive in any order. The audio decoder and the model are parameters; what
    is relied on of the model is that it encodes the rows of a batch
    independently. *)
From stdpp Require Import sorting.
From S2P Require Import Prelude.

(** ** Sorting by chunk index *)

Section sorting.
Context {X : Type}.
Implicit Types l : list (nat * X).

(** [list.sort(key=lambda x: x[0])], which is stable. *)
Fixpoint insert_idx (x : nat * X) l : list (nat * X) :=
  match l with
  | [] => [x]
  | y :: l => if decide (x.1 ≤ y.1)%nat then x :: y :: l else y :: insert_idx x l
  end.
Definition sort_idx l : list (nat * X) := foldr insert_idx [] l.

(** Before, for pairs with different indices. *)
Definition idx_before (x y : nat * X) : Prop := x = y ∨ (x.1 < y.1)%nat.
#[export] Instance idx_before_antisymm : AntiSymm (=) idx_before.
Proof. intros x y [->|?] [Heq|?]; [done..|by symmetry|lia]. Qed.

Lemma insert_idx_perm x l : insert_idx x l ≡ₚ x :: l.
Proof. induction l as [|y l IH]; simpl; [done|]. case_decide; [done|]. rewrite IH. apply Permutation_swap. Qed.
Lemma sort_idx_perm l : sort_idx l ≡ₚ l.
Proof. induction l as [|x l IH]; simpl; [done|]. by rewrite insert_idx_perm, IH. Qed.

Lemma insert_idx_sorted x l : x.1 ∉ l.*1 → StronglySorted idx_before l → StronglySorted idx_before (insert_idx x l).
Proof.
  intros Hx Hs. induction Hs as [|y l Hs IH Hy]; simpl; [by repeat constructor|]. csimpl in Hx.
  apply not_elem_of_cons in Hx as [Hne Hx]. case_decide as Hd.
  - constructor; [by constructor|]. constructor; [right; lia|]. eapply Forall_impl; [exact Hy|].
    intros z [->|Hz]; right; lia.
  - constructor; [by apply IH|]. rewrite insert_idx_perm. constructor; [right; lia|done].
Qed.
Lemma sort_idx_sorted l : NoDup l.*1 → StronglySorted idx_before (sort_idx l).
Proof.
  induction l as [|x l IH]; csimpl; [constructor|]. intros [Hx Hnd]%NoDup_cons. apply insert_idx_sorted; [|by apply IH].
  by rewrite sort_idx_perm.
Qed.

(** Sorting undoes any reordering of pairs that were numbered in order. *)
Lemma sort_idx_restores l l' : StronglySorted idx_before l → NoDup l.*1 → l' ≡ₚ l → sort_idx l' = l.
Proof.
  intros Hs Hnd Hp. apply (StronglySorted_unique idx_before); [|done|].
  - apply sort_idx_sorted. by rewrite Hp.
  - by rewrite sort_idx_perm.
Qed.

Lemma numbered_sorted (xs : list X) i : StronglySorted idx_before (zip (seq i (length xs)) xs).
Proof.
  revert i. induction xs as [|x xs IH]; intros i; simpl; constructor; [apply IH|]. apply Forall_forall. intros [j y] Hj%elem_of_zip_l.
  apply elem_of_seq in Hj. right. simpl. lia.
Qed.
Lemma numbered_nodup (xs : list X) i : NoDup (zip (seq i (length xs)) xs).*1.
Proof. rewrite fst_zip by (by rewrite length_seq). apply NoDup_seq. Qed.
End sorting.

(** ** The stages *)

Section encode.
(** Samples before and after [half()], and a time frame of codes: [torch.cat]
    with [dim=-1] joins frames. *)
Context {Sample Half Code : Type} (zero : Sample) (half : Sample → Half).
(** [375 * 2048] in the example. *)
Context (chunk_size : nat).

(** The dict of a chunk, with ["wav"] and, after the encoder, ["codes"]. *)
Record chunk := Chunk { chunk_id : string; chunk_idx : nat; total_chunks : Z; wav : list Half }.
Record encoded := Encoded { enc_id : string; enc_idx : nat; enc_total : Z; codes : list Code }.

(** [for i in range(0, len(waveform), chunk_size)]: at most [fuel] turns. *)
Fixpoint cut_from (fuel : nat) (item_id : string) (waveform : list Sample) (i : nat) (chunks : list chunk) : list chunk :=
  match fuel with
  | O => chunks
  | S fuel =>
      if decide (i < length waveform)%nat then
        let piece := take chunk_size (drop i waveform) in
        let piece := if decide (length piece < chunk_size)%nat
                     then piece ++ replicate (chunk_size - length piece) zero else piece in
        cut_from fuel item_id waveform (i + chunk_size) (chunks ++ [Chunk item_id (length chunks) (-1) (half <$> piece)])
      else chunks
  end.
(** [chunk_audio], given the decoded waveform; the second pass fills in
    [total_chunks]. *)
Definition chunk_audio (item : string * list Sample) : list chunk :=
  let chunks := cut_from (length item.2) item.1 item.2 0 [] in
  (λ c, Chunk (chunk_id c) (chunk_idx c) (Z.of_nat (length chunks)) (wav c)) <$> chunks.

(** [Collate.__call__]: the batches that are sent, and the new buffer. *)
Definition collate_call {X} (batch_size : Z) (item : X) (buffer : list X) : list (list X) * list X :=
  let buffer := buffer ++ [item] in
  if (batch_size <=? Z.of_nat (length buffer))%Z then ([buffer], []) else ([], buffer).
(** [Collate.flush]. *)
Definition collate_flush {X} (buffer : list X) : list (list X) := match buffer with [] => [] | _ => [buffer] end.
Fixpoint collate {X} (batch_size : Z) (items : list X) (buffer : list X) : list (list X) :=
  match items with
  | [] => collate_flush buffer
  | x :: items => let '(out, buffer) := collate_call batch_size x buffer in out ++ collate batch_size items buffer
  end.

(** [self.model.encode], on a batch of rows of the same length. *)
Context (encode : list (list Half) → list (list Code)).

(** [Encoder.__call__]: [torch.stack] refuses rows of different lengths, and an
    empty batch. *)
Definition stack (rows : list (list Half)) : res (list (list Half)) :=
  match rows with
  | [] => Raise RuntimeError
  | r :: _ => if decide (Forall (λ r', length r' = length r) rows) then Ok rows else Raise RuntimeError
  end.
Fixpoint with_codes (batch : list chunk) (cs : list (list Code)) : res (list encoded) :=
  match batch, cs with
  | [], _ => Ok []
  | _ :: _, [] => Raise IndexError
  | c :: batch, x :: cs =>
      match with_codes batch cs with
      | Ok out => Ok (Encoded (chunk_id c) (chunk_idx c) (total_chunks c) x :: out)
      | r => r
      end
  end.
Definition encoder_call (batch : list chunk) : res (list encoded) :=
  match stack (wav <$> batch) with
  | Ok rows => with_codes batch (encode rows)
  | Raise e => Raise e
  | Spin => Spin
  end.

(** [Reassembler]: the dict [pending] - what came of an item, and how many
    chunks it has - and the files that were saved. *)
Record reassembler := Reassembler {
  pending : gmap string (list (nat * list Code) * Z);
  saved : list (string * list Code);
}.
(** [__call__]: the item id, or nothing yet. *)
Definition reassembler_call (item : encoded) (r : reassembler) : option string * reassembler :=
  let '(chunks, total) := default ([], enc_total item) (pending r !! enc_id item) in
  let chunks := chunks ++ [(enc_idx item, codes item)] in
  if (Z.of_nat (length chunks) <? total)%Z then (None, Reassembler (<[enc_id item := (chunks, total)]> (pending r)) (saved r))
  else (Some (enc_id item), Reassembler (delete (enc_id item) (pending r)) (saved r ++ [(enc_id item, concat (sort_idx chunks).*2)])).
Fixpoint reassemble (items : list encoded) (r : reassembler) : list string * reassembler :=
  match items with
  | [] => ([], r)
  | x :: items =>
      let '(o, r) := reassembler_call x r in
      let '(out, r) := reassemble items r in
      (from_option (λ i, [i]) [] o ++ out, r)
  end.
End encode.

(** ** What each stage does *)

Arguments Chunk {_} _ _ _ _.
Arguments chunk_id {_} _.
Arguments chunk_idx {_} _.
Arguments total_chunks {_} _.
Arguments wav {_} _.
Arguments Encoded {_} _ _ _ _.
Arguments enc_id {_} _.
Arguments enc_idx {_} _.
Arguments enc_total {_} _.
Arguments codes {_} _.
Arguments Reassembler {_} _ _.
Arguments pending {_} _.
Arguments saved {_} _.

Section chunks.
Context {Sample Half : Type} (zero : Sample) (half : Sample → Half) (chunk_size : nat) (size_pos : 0 < chunk_size).
Implicit Types (w : list Sample) (c : chunk (Half := Half)).

(** Pieces of [w], numbered from [n]: full ones, padded at the end. *)
Definition cuts_of (k : string) (w : list Sample) (n : nat) (cs : list chunk) : Prop :=
  chunk_id <$> cs = replicate (length cs) k ∧
  chunk_idx <$> cs = seq n (length cs) ∧
  Forall (λ c, length (wav c) = chunk_size) cs ∧
  ∃ pad, pad < chunk_size ∧ concat (wav <$> cs) = half <$> (w ++ replicate pad zero).

Lemma cuts_cons k w n cs : w ≠ [] →
  cuts_of k (drop chunk_size w) (S n) cs →
  cuts_of k w n (Chunk k n (-1) (half <$> (take chunk_size w ++ replicate (chunk_size - length (take chunk_size w)) zero)) :: cs).
Proof using size_pos.
  intros Hw (Hid & Hidx & Hlen & pad & Hpad & Hcs). split_and!; csimpl; [by rewrite Hid|by rewrite Hidx| |].
  - constructor; [|done]. simpl. rewrite length_fmap, length_app, length_replicate, length_take. lia.
  - destruct (decide (chunk_size <= length w)) as [Hge|Hlt].
    + exists pad. split; [done|]. rewrite Hcs. replace (chunk_size - length (take chunk_size w)) with 0 by (rewrite length_take; lia). simpl.
      rewrite app_nil_r, <-fmap_app, (assoc_L (++)), take_drop. done.
    + rewrite drop_ge in Hcs by lia. rewrite take_ge in * by lia. simpl in Hcs.
      destruct cs as [|c cs]; simpl in *.
      * exists (chunk_size - length w). split; [destruct w; [done|simpl; lia]|]. by rewrite app_nil_r.
      * exfalso. apply Forall_cons in Hlen as [Hc _]. apply (f_equal length) in Hcs.
        rewrite length_app, length_fmap, length_replicate in Hcs. lia.
Qed.

Lemma cut_spec k w : ∀ fuel i chunks, length w ≤ fuel + i →
  ∃ cs, cut_from zero half chunk_size fuel k w i chunks = chunks ++ cs ∧ cuts_of k (drop i w) (length chunks) cs.
Proof using size_pos.
  assert (∀ i n, length w ≤ i → cuts_of k (drop i w) n []) as Hend.
  { intros i n Hi. rewrite drop_ge by done. split_and!; [done|done|constructor|]. by exists 0. }
  induction fuel as [|fuel IH]; intros i chunks Hf; simpl.
  { exists []. rewrite app_nil_r. split; [done|]. apply Hend. lia. }
  case_decide as Hi; [|exists []; rewrite app_nil_r; split; [done|]; apply Hend; lia].
  edestruct (IH (i + chunk_size)) as (cs & -> & Hcs); [lia|]. eexists (_ :: cs). rewrite <-(assoc_L (++)). split; [done|].
  rewrite length_app, Nat.add_1_r, <-drop_drop in Hcs.
  assert (drop i w ≠ []) as Hne by (intros H; apply (f_equal length) in H; rewrite length_drop in H; simpl in H; lia).
  pose proof (cuts_cons k _ _ _ Hne Hcs) as H. case_decide as Hd; [exact H|].
  replace (chunk_size - length (take chunk_size (drop i w))) with 0 in H by lia. by rewrite app_nil_r in H.
Qed.

(** The chunks of an item: as many as they say. *)
Lemma chunk_audio_cuts item : ∃ cs, chunk_audio zero half chunk_size item = cs ∧ cuts_of item.1 item.2 0 cs ∧
  Forall (λ c, total_chunks c = Z.of_nat (length cs)) cs.
Proof using size_pos.
  destruct (cut_spec item.1 item.2 (length item.2) 0 []) as (cs & E & Hid & Hidx & Hlen & pad & Hpad & Hcs); [lia|].
  unfold chunk_audio. rewrite E. simpl. eexists. split; [done|]. rewrite drop_0 in Hcs.
  split; [|rewrite length_fmap; apply Forall_fmap, Forall_forall; done].
  split_and!; rewrite ?length_fmap, <-?list_fmap_compose; [done|done|by apply Forall_fmap|by exists pad].
Qed.

Lemma chunk_audio_empty item : chunk_audio zero half chunk_size item = [] ↔ item.2 = [].
Proof using size_pos.
  destruct (chunk_audio_cuts item) as (cs & -> & (_ & _ & Hlen & pad & Hpad & Hcs) & _). split; intros Hz.
  - subst. simpl in Hcs. symmetry in Hcs. apply fmap_nil_inv in Hcs. by apply app_eq_nil in Hcs as [? _].
  - destruct cs as [|c cs]; [done|]. rewrite Hz in Hcs. apply Forall_cons in Hlen as [Hc _]. apply (f_equal length) in Hcs. simpl in Hcs.
    rewrite length_app, length_fmap, length_replicate in Hcs. lia.
Qed.
End chunks.

Lemma collate_parts {X} (batch_size : Z) (items : list X) : ∀ buffer,
  concat (collate batch_size items buffer) = buffer ++ items ∧ Forall (λ b, b ≠ []) (collate batch_size items buffer).
Proof.
  induction items as [|x items IH]; intros buffer; simpl.
  - destruct buffer as [|b buffer]; simpl; [done|]. rewrite !app_nil_r. split; [done|by repeat constructor].
  - unfold collate_call. destruct (batch_size <=? _)%Z; simpl.
    + destruct (IH []) as [-> Hne]. rewrite <-(assoc_L (++)). split; [done|]. constructor; [by destruct buffer|done].
    + destruct (IH (buffer ++ [x])) as [-> Hne]. by rewrite <-(assoc_L (++)).
Qed.

Section encoder.
Context {Half Code : Type} (encode : list (list Half) → list (list Code)) (encode1 : list Half → list Code).
(** The model encodes the rows of a batch independently. *)
Context (rowwise : ∀ rows, rows ≠ [] → encode rows = encode1 <$> rows).

Definition encode_chunk (c : chunk) : encoded := Encoded (chunk_id c) (chunk_idx c) (total_chunks c) (encode1 (wav c)).

Lemma with_codes_all batch : with_codes batch (encode1 <$> (wav <$> batch)) = Ok (encode_chunk <$> batch).
Proof. induction batch as [|c batch IH]; csimpl; [done|]. by rewrite IH. Qed.

Lemma encoder_call_all n batch : batch ≠ [] → Forall (λ c, length (wav c) = n) batch →
  encoder_call encode batch = Ok (encode_chunk <$> batch).
Proof using rowwise.
  intros Hne Hlen. unfold encoder_call. assert (stack (wav <$> batch) = Ok (wav <$> batch)) as ->.
  { destruct batch as [|c batch]; [done|]. csimpl. apply Forall_cons in Hlen as [Hc Hlen]. rewrite decide_True; [done|].
    constructor; [done|]. apply Forall_fmap. eapply Forall_impl; [exact Hlen|]. simpl. intros c' ->. by symmetry. }
  rewrite rowwise; [apply with_codes_all|]. by destruct batch.
Qed.
End encoder.

(** ** Reassembly *)

Section reassembly.
Context {Code : Type}.
Implicit Types (ps all : list (encoded (Code := Code))) (k : string) (r : reassembler (Code := Code)).

(** What came of an item. *)
Definition got k ps : list (nat * list Code) := (λ c, (enc_idx c, codes c)) <$> filter (λ c, enc_id c = k) ps.
Definition joined (chunks : list (nat * list Code)) : list Code := concat (sort_idx chunks).*2.

(** Every chunk says how many there are. *)
Definition counted all : Prop := Forall (λ c, enc_total c = Z.of_nat (length (got (enc_id c) all))) all.

(** After the chunks [ps] of [all]. *)
Definition progress all ps r : Prop :=
  (∀ k, pending r !! k = if decide (0 < length (got k ps) < length (got k all))
                         then Some (got k ps, Z.of_nat (length (got k all))) else None) ∧
  NoDup (saved r).*1 ∧
  ∀ k v, (k, v) ∈ saved r ↔ got k ps ≠ [] ∧ length (got k ps) = length (got k all) ∧ v = joined (got k ps).

Lemma got_app k ps ps' : got k (ps ++ ps') = got k ps ++ got k ps'.
Proof. unfold got. by rewrite filter_app, fmap_app. Qed.
Lemma got_one k c : got k [c] = if decide (enc_id c = k) then [(enc_idx c, codes c)] else [].
Proof. unfold got. rewrite filter_cons, filter_nil. by case_decide. Qed.
Lemma got_perm k ps ps' : ps ≡ₚ ps' → got k ps ≡ₚ got k ps'.
Proof. intros Hp. unfold got. by rewrite Hp. Qed.

Lemma progress_step all ps c rest r : counted all → all = ps ++ c :: rest → progress all ps r →
  let '(o, r') := reassembler_call c r in
  progress all (ps ++ [c]) r' ∧ (saved r').*1 = (saved r).*1 ++ from_option (λ i, [i]) [] o.
Proof.
  intros Hall E (Hp & Hnd & Hs). set (k := enc_id c).
  assert (enc_total c = Z.of_nat (length (got k all))) as Ht.
  { unfold counted in Hall. rewrite Forall_forall in Hall. apply Hall. rewrite E. set_solver. }
  assert (length (got k ps) + 1 ≤ length (got k all)) as Hle.
  { rewrite E. change (c :: rest) with ([c] ++ rest). rewrite !got_app, got_one, decide_True by done. rewrite !length_app. simpl. lia. }
  assert (∀ k', got k' (ps ++ [c]) = if decide (k = k') then got k' ps ++ [(enc_idx c, codes c)] else got k' ps) as Hgot.
  { intros k'. rewrite got_app, got_one. fold k. case_decide; [done|apply app_nil_r]. }
  unfold reassembler_call. fold k. rewrite Hp.
  assert (default ([], enc_total c) (if decide (0 < length (got k ps) < length (got k all)) then Some (got k ps, Z.of_nat (length (got k all))) else None)
          = (got k ps, Z.of_nat (length (got k all)))) as ->.
  { case_decide as Hd; [done|]. simpl. rewrite Ht. destruct (got k ps); [done|]. simpl in *. lia. }
  rewrite length_app. simpl. destruct (Z.ltb_spec (Z.of_nat (length (got k ps) + 1)) (Z.of_nat (length (got k all)))) as [Hlt|Hge].
  - split; [|by rewrite app_nil_r]. split_and!; [|done|].
    + intros k'. simpl. rewrite Hgot. destruct (decide (k = k')) as [<-|Hne].
      * rewrite lookup_insert_eq, length_app, decide_True by (simpl; lia). done.
      * rewrite lookup_insert_ne by done. apply Hp.
    + intros k' v. simpl. rewrite Hs, Hgot. destruct (decide (k = k')) as [<-|Hne]; [|done]. rewrite length_app. simpl.
      split; intros (_ & ? & _); lia.
  - split; [|simpl; by rewrite fmap_app]. split_and!; simpl.
    + intros k'. rewrite Hgot. destruct (decide (k = k')) as [<-|Hne].
      * rewrite lookup_delete_eq, length_app, decide_False by (simpl; lia). done.
      * rewrite lookup_delete_ne by done. apply Hp.
    + rewrite fmap_app. apply NoDup_app. split_and!; [done| |apply NoDup_singleton].
      intros k' [[k2 v] [-> Hin]]%list_elem_of_fmap. apply Hs in Hin as (_ & Hl & _). simpl. intros ->%list_elem_of_singleton. lia.
    + intros k' v. rewrite elem_of_app, list_elem_of_singleton, Hs, Hgot. destruct (decide (k = k')) as [<-|Hne].
      * rewrite length_app. simpl. split.
        -- intros [(_ & ? & _)|[= ->]]; [lia|]. split_and!; [by destruct (got k ps)|lia|done].
        -- intros (_ & _ & ->). by right.
      * split; [intros [?|[=]]; [done|congruence]|by left].
Qed.

Lemma reassemble_progress all rest : ∀ ps r, counted all → all = ps ++ rest → progress all ps r →
  let '(out, r') := reassemble rest r in progress all all r' ∧ (saved r').*1 = (saved r).*1 ++ out.
Proof.
  induction rest as [|c rest IH]; intros ps r Hall E Hp; simpl.
  - rewrite app_nil_r in E. subst. by rewrite app_nil_r.
  - pose proof (progress_step all ps c rest r Hall E Hp) as H. destruct (reassembler_call c r) as [o r1]. destruct H as [Hp1 Ho].
    assert (all = (ps ++ [c]) ++ rest) as E1 by by rewrite <-(assoc_L (++)).
    specialize (IH _ r1 Hall E1 Hp1). destruct (reassemble rest r1) as [out r2]. destruct IH as [? ->]. split; [done|].
    by rewrite Ho, (assoc_L (++)).
Qed.

(** In the end nothing is pending, and everything that came was saved. *)
Lemma reassemble_all all : counted all →
  let '(out, r) := reassemble all (Reassembler ∅ []) in
  pending r = ∅ ∧ (saved r).*1 = out ∧ NoDup out ∧ ∀ k v, (k, v) ∈ saved r ↔ got k all ≠ [] ∧ v = joined (got k all).
Proof.
  intros Hall. assert (progress all [] (Reassembler ∅ [])) as H0.
  { split_and!; [intros k; simpl; by rewrite lookup_empty|apply NoDup_nil_2|]. intros k v. simpl. split; [by intros ?%elem_of_nil|by intros []]. }
  pose proof (reassemble_progress all all [] _ Hall eq_refl H0) as H. destruct (reassemble all _) as [out r].
  destruct H as [(Hp & Hnd & Hs) Ho]. simpl in Ho. split_and!; [|done|by rewrite <-Ho|].
  - apply map_eq. intros k. rewrite Hp, lookup_empty, decide_False by lia. done.
  - intros k v. rewrite Hs. naive_solver.
Qed.
End reassembly.

(** ** The whole pipeline *)

Lemma keys_inj {A B} (l : list (A * B)) x y : NoDup l.*1 → x ∈ l → y ∈ l → x.1 = y.1 → x = y.
Proof.
  intros Hnd [i Hi]%list_elem_of_lookup [j Hj]%list_elem_of_lookup E. assert (i = j) as ->; [|congruence].
  eapply (NoDup_lookup _ _ _ x.1); [exact Hnd|by rewrite list_lookup_fmap, Hi|by rewrite list_lookup_fmap, Hj, E].
Qed.

Section pipeline.
Context {Sample Half Code : Type} (zero : Sample) (half : Sample → Half) (chunk_size : nat) (size_pos : 0 < chunk_size).
Context (encode : list (list Half) → list (list Code)) (encode1 : list Half → list Code).
Context (rowwise : ∀ rows, rows ≠ [] → encode rows = encode1 <$> rows).

(** The codes of an item: those of its chunks, in order. *)
Definition item_codes (item : string * list Sample) : list Code :=
  concat (encode1 <$> (wav <$> chunk_audio zero half chunk_size item)).
(** The encoded chunks of an item. *)
Definition item_chunks (item : string * list Sample) : list encoded :=
  encode_chunk encode1 <$> chunk_audio zero half chunk_size item.

Lemma got_own item : got item.1 (item_chunks item) = zip (seq 0 (length (item_chunks item))) (codes <$> item_chunks item).
Proof using size_pos.
  unfold item_chunks. destruct (chunk_audio_cuts zero half chunk_size size_pos item) as (cs & -> & (Hid & Hidx & _) & _).
  unfold got. rewrite filter_all.
  - rewrite length_fmap, <-Hidx, <-!list_fmap_compose. clear. induction cs; csimpl; congruence.
  - apply Forall_fmap. simpl. clear Hidx. revert Hid. generalize (length cs) as n. induction cs as [|c cs IH]; intros [|n]; csimpl; try done.
    intros [= Hc Hcs]. constructor; [done|]. by apply (IH n).
Qed.
Lemma got_other k item : k ≠ item.1 → got k (item_chunks item) = [].
Proof using size_pos.
  intros Hk. unfold item_chunks. destruct (chunk_audio_cuts zero half chunk_size size_pos item) as (cs & -> & (Hid & _) & _).
  unfold got. rewrite filter_none; [done|]. apply Forall_fmap. simpl. revert Hid. generalize (length cs) as n.
  induction cs as [|c cs IH]; intros [|n]; csimpl; try done. intros [= Hc Hcs]. constructor; [simpl; congruence|]. by apply (IH n).
Qed.

Lemma got_items items k : NoDup items.*1 →
  (∀ it, it ∈ items → it.1 = k → got k (items ≫= item_chunks) = zip (seq 0 (length (item_chunks it))) (codes <$> item_chunks it)) ∧
  (k ∉ items.*1 → got k (items ≫= item_chunks) = []).
Proof using size_pos.
  induction items as [|it items IH]; csimpl; [intros _; split; [by intros ? ?%elem_of_nil|done]|]. intros [Hit Hnd]%NoDup_cons.
  destruct (IH Hnd) as [Hin Hout]. rewrite got_app. split.
  - intros it' [->|Hit']%elem_of_cons <-.
    + rewrite got_own, Hout by done. apply app_nil_r.
    + rewrite got_other; [by apply Hin|]. intros E. apply Hit. rewrite <-E. by apply list_elem_of_fmap_2.
  - intros Hk%not_elem_of_cons. rewrite got_other by tauto. apply Hout. tauto.
Qed.

Lemma items_counted items : NoDup items.*1 → counted (items ≫= item_chunks).
Proof using size_pos.
  intros Hnd. apply Forall_forall. intros c (it & Hc & Hit)%list_elem_of_bind.
  destruct (got_items items (enc_id c) Hnd) as [Hgot _].
  assert (enc_id c = it.1 ∧ enc_total c = Z.of_nat (length (item_chunks it))) as [Hid ->].
  { revert Hc. unfold item_chunks. destruct (chunk_audio_cuts zero half chunk_size size_pos it) as (cs & -> & (Hid & _) & Ht).
    intros (c0 & -> & Hc0)%list_elem_of_fmap. rewrite length_fmap. rewrite Forall_forall in Ht. split; [|by apply Ht].
    simpl. apply (list_elem_of_fmap_2 chunk_id) in Hc0. rewrite Hid in Hc0. by apply elem_of_replicate in Hc0 as [? _]. }
  rewrite (Hgot it Hit) by done. by rewrite length_zip, length_seq, length_fmap, Nat.min_id.
Qed.
Lemma counted_perm (all all' : list (encoded (Code := Code))) : all ≡ₚ all' → counted all → counted all'.
Proof.
  intros Hp Hc. unfold counted in *. rewrite <-Hp. eapply Forall_impl; [exact Hc|]. intros c ->. by rewrite (got_perm _ _ _ Hp).
Qed.

Lemma joined_own it got' : got' ≡ₚ zip (seq 0 (length (item_chunks it))) (codes <$> item_chunks it) → joined got' = item_codes it.
Proof.
  intros Hp. unfold joined. rewrite <-(length_fmap codes) in Hp.
  rewrite (sort_idx_restores _ _ (numbered_sorted _ _) (numbered_nodup _ _) Hp), snd_zip by (by rewrite length_seq).
  unfold item_codes, item_chunks. by rewrite <-!list_fmap_compose.
Qed.

Lemma got_saved items arrived k v : NoDup items.*1 → arrived ≡ₚ items ≫= item_chunks →
  (got k arrived ≠ [] ∧ v = joined (got k arrived)) ↔ ∃ it, (k, v) = (it.1, item_codes it) ∧ it ∈ filter (λ it, it.2 ≠ []) items.
Proof using size_pos.
  intros Hnd Hp. destruct (got_items items k Hnd) as [Hin Hout]. pose proof (got_perm k _ _ Hp) as Hg.
  setoid_rewrite list_elem_of_filter. destruct (decide (k ∈ items.*1)) as [(it & -> & Hit)%list_elem_of_fmap|Hk].
  - rewrite (Hin it Hit eq_refl) in Hg. rewrite (joined_own it _ Hg).
    assert (got it.1 arrived ≠ [] ↔ it.2 ≠ []) as ->.
    { apply not_iff_compat. rewrite <-(chunk_audio_empty zero half chunk_size size_pos it). split; intros Hz.
      - rewrite Hz in Hg. apply Permutation_nil_l, (f_equal length) in Hg. unfold item_chunks in Hg. rewrite length_zip, length_seq, !length_fmap in Hg.
        apply nil_length_inv. simpl in Hg. lia.
      - unfold item_chunks in Hg. rewrite Hz in Hg. by apply Permutation_nil_r in Hg. }
    split; [intros [? ->]; by exists it|]. intros (it' & [= Hid ->] & Hne & Hit').
    assert (it' = it) as ->; [|done]. by apply (keys_inj items).
  - rewrite (Hout Hk) in Hg. apply Permutation_nil_r in Hg. rewrite Hg. split; [by intros []|].
    intros (it & [= -> _] & _ & Hit). destruct Hk. by apply list_elem_of_fmap_2.
Qed.

(** C23: Long audio comes back whole. Let the chunks of any items reach [Collate]
    in any order, its batches be encoded in any order and on any number of
    GPUs, and the encoded chunks reach [Reassembler] in any order: no batch is
    refused, every item with audio is saved exactly once and with the codes of
    its own chunks in their order, its id is returned then, and nothing is left
    pending. (An item without a sample has no chunks: it is never saved.) *)
Theorem audio_reassembled (batch_size : Z) (items : list (string * list Sample)) chunks batches :
  NoDup items.*1 →
  chunks ≡ₚ items ≫= chunk_audio zero half chunk_size →
  batches ≡ₚ collate batch_size chunks [] →
  ∃ outs, encoder_call encode <$> batches = Ok <$> outs ∧
    ∀ arrived, arrived ≡ₚ concat outs →
      let '(out, r) := reassemble arrived (Reassembler ∅ []) in
      pending r = ∅ ∧ out = (saved r).*1 ∧
      saved r ≡ₚ (λ it, (it.1, item_codes it)) <$> filter (λ it, it.2 ≠ []) items.
Proof using size_pos rowwise.
  intros Hnd Hchunks Hbatches. destruct (collate_parts batch_size chunks []) as [Hparts Hne]. rewrite <-Hbatches in Hne. simpl in Hparts.
  assert (concat batches ≡ₚ items ≫= chunk_audio zero half chunk_size) as Hall by (rewrite Hbatches, Hparts; exact Hchunks).
  exists (map (map (encode_chunk encode1)) batches). split.
  { assert (Forall (λ c, length (wav c) = chunk_size) (concat batches)) as Hlen.
    { rewrite Hall. apply Forall_bind, Forall_forall. intros it _; simpl.
      by destruct (chunk_audio_cuts zero half chunk_size size_pos it) as (cs & -> & (_ & _ & Hlen & _) & _). }
    clear Hall Hbatches. induction Hne as [|b batches Hb _ IH]; csimpl; [done|]. simpl in Hlen. apply Forall_app in Hlen as [Hl Hlen].
    rewrite (encoder_call_all encode encode1 rowwise chunk_size) by done. by rewrite IH. }
  intros arrived Harr. assert (arrived ≡ₚ items ≫= item_chunks) as Hp.
  { rewrite Harr, <-concat_map, Hall. unfold item_chunks. clear. induction items as [|it items IH]; csimpl; [done|]. by rewrite fmap_app, IH. }
  pose proof (reassemble_all arrived (counted_perm _ _ (symmetry Hp) (items_counted items Hnd))) as H.
  destruct (reassemble arrived _) as [out r]. destruct H as (Hpend & <- & Hout & Hs). split_and!; [done|done|].
  apply NoDup_Permutation; [by eapply NoDup_fmap_1|..].
  { apply (NoDup_fmap_1 fst). rewrite <-list_fmap_compose. change (fst ∘ _) with (fst (A := string) (B := list Sample)).
    eapply sublist_NoDup; [exact Hnd|apply fmap_sublist, sublist_filter]. }
  intros [k v]. rewrite Hs, list_elem_of_fmap. by apply got_saved.
Qed.
End pipeline.

Module EncodeDemo.
(** Chunks of two samples; a code is the sample it encodes, doubled. *)
Definition encode1 (row : list Z) : list Z := (λ z, 2 * z)%Z <$> row.
Definition items : list (string * list Z) := [("a", [1; 2; 3]); ("b", [4; 5]); ("c", [])]%Z.
Definition cut_all := items ≫= chunk_audio 0%Z id 2.
(** The chunks come in backwards, and so do the batches. *)
Definition batches := reverse (collate 2 (reverse cut_all) []).
Definition arrived : list (encoded (Code := Z)) :=
  reverse (concat ((λ b, match encoder_call (fmap encode1) b with Ok out => out | _ => [] end) <$> batches)).

Lemma audio_reassembled_witness :
  (∃ outs, encoder_call (fmap encode1) <$> batches = Ok <$> outs) ∧
  let '(out, r) := reassemble arrived (Reassembler ∅ []) in
  pending r = ∅ ∧ saved r ≡ₚ [("a", [2; 4; 6; 0]); ("b", [8; 10])]%Z.
Proof.
  assert (0 < 2) as H2 by lia.
  assert (NoDup items.*1) as Hnd by (vm_compute; repeat constructor; set_solver).
  assert (reverse cut_all ≡ₚ items ≫= chunk_audio 0%Z id 2) as Hc by apply reverse_Permutation.
  assert (batches ≡ₚ collate 2 (reverse cut_all) []) as Hb by apply reverse_Permutation.
  pose proof (audio_reassembled 0%Z id 2 H2 (fmap encode1) encode1 (λ rows _, eq_refl) 2 items (reverse cut_all) batches Hnd Hc Hb)
    as (outs & Ho & H). split; [by exists outs|].
  assert (outs = (λ b, match encoder_call (fmap encode1) b with Ok out => out | _ => [] end) <$> batches) as ->.
  { clear H. revert Ho. generalize batches as bs. intros bs. revert outs.
    induction bs as [|b bs IH]; intros [|o outs]; csimpl; try done. intros [= -> Hbs]. by rewrite <-(IH outs Hbs). }
  specialize (H arrived (reverse_Permutation _)). destruct (reassemble arrived _) as [out r]. destruct H as (Hp & _ & Hs).
  split; [exact Hp|exact Hs].
Defined.
End EncodeDemo.
