(* ===== verification/Batches.v ===== *)
(** * Stages that work on batches (examples/gpu_inference.py, examples/batch_s3_upload.py)

    [Inference] has the batches of the GPU example and what becomes of them on
    the way to the encoder; [Downloads] the batch downloader, as one thread and
    as several threads of one process run it; [Uploads] the batch uploader. *)
From stdpp Require Import pretty.
From S2P Require Import Prelude Types Examples.

(** ** GPU inference on batches (gpu_inference.py) *)

Module Inference.

(** [ItemSource]: the paths, and the position in them. *)
Definition source_call (paths : list string) : prog nat result := λ idx,
  match paths !! idx with
  | None => (Ok (RVal End), idx)
  | Some p => (Ok (RVal (PyDict [("path", PyStr p); ("idx", PyNum (Z.of_nat idx))])), S idx)
  end.

(** What a call of [load_audio] puts into an item: the samples of a file, which
    the decoder has, and the duration in samples. *)
Definition load_audio (decode : py → res (py * Z)) (item : py) : res py :=
  match getitem "path" item with
  | Ok path =>
      match decode path with
      | Ok (wav, n) => match setitem "wav" wav item with Ok item => setitem "duration" (PyNum n) item | r => r end
      | Raise e => Raise e
      | Spin => Spin
      end
  | r => r
  end.

Section batcher.
Context (batch_size : Z).
(** [Batcher]: the buffer. *)
Definition infer_call (item : py) : prog (list py) result := λ buffer,
  let buffer := buffer ++ [item] in
  if (batch_size <=? Z.of_nat (length buffer))%Z then (Ok (RVal (PyList buffer)), [])
  else (Ok (RVal PyNone), buffer).
(** [flush] returns a list. *)
Definition infer_flush : prog (list py) generator := λ buffer,
  (Ok (Generator buffer None), []).
End batcher.

(** [[f(x) for x in v]]. *)
Definition iterate (v : py) : res (list py) :=
  match v with
  | PyList l | PyTuple l => Ok l
  | PyDict d => Ok ((λ kv, PyStr kv.1) <$> d)
  | PyStr s => Ok ((λ c, PyStr (String.String c "")) <$> String.list_ascii_of_string s)
  | PyBytes b => Ok ((λ x, PyNum (Z.of_N (Byte.to_N x))) <$> b)
  | _ => Raise TypeError
  end.
Fixpoint each (f : py → res py) (l : list py) : res (list py) :=
  match l with
  | [] => Ok []
  | x :: l =>
      match f x with
      | Ok y => match each f l with Ok ys => Ok (y :: ys) | r => r end
      | Raise e => Raise e
      | Spin => Spin
      end
  end.

(** [del item["wav"]; item["embedding"] = embeddings[i].cpu()]. *)
Fixpoint embed (batch embeddings : list py) : res (list py) :=
  match batch, embeddings with
  | [], _ => Ok []
  | PyDict d :: batch, e :: embeddings =>
      match embed batch embeddings with
      | Ok out => Ok (PyDict (dict_put "embedding" e (dict_del "wav" d)) :: out)
      | r => r
      end
  | PyDict _ :: _, [] => Raise IndexError
  | _ :: _, _ => Raise TypeError
  end.

(** [GPUEncoder.__call__]; [model] pads the waveforms and embeds them. *)
Definition gpu_call (model : list py → res (list py)) (batch : py) : res result :=
  match iterate batch with
  | Ok items =>
      match each (getitem "wav") items with
      | Ok wavs =>
          match model wavs with
          | Ok embeddings => match embed items embeddings with Ok out => Ok (RVal (PyList out)) | Raise e => Raise e | Spin => Spin end
          | Raise e => Raise e
          | Spin => Spin
          end
      | Raise e => Raise e
      | Spin => Spin
      end
  | Raise e => Raise e
  | Spin => Spin
  end.

(** The batcher's output, and what the encoder makes of each part of it. *)
Definition batched (batch_size : Z) (items : list py) : list py :=
  (run_through (infer_call batch_size) infer_flush items []).1.

Lemma batched_items batch_size items : Forall (λ i, is_valid i = true) items → batched batch_size items = items.
Proof.
  intros Hv. unfold batched, run_through.
  assert (let '(out, buffer) := feed (infer_call batch_size) items [] in out ++ buffer = items) as H.
  { induction items as [|x items IH] using rev_ind; [done|]. apply Forall_app in Hv as [Hv Hx]. rewrite feed_app.
    specialize (IH Hv). destruct (feed _ items []) as [out buffer]. simpl. unfold infer_call.
    destruct (batch_size <=? _)%Z; simpl; rewrite app_nil_r, ?app_nil_r, <-IH, <-(assoc_L (++)); [|done]. f_equal.
    unfold valid_items. rewrite filter_all; [done|]. rewrite <-IH in Hv. apply Forall_app in Hv as [_ Hb]. by apply Forall_app. }
  destruct (feed _ items []) as [out buffer]. simpl. rewrite <-H in *. f_equal. apply filter_all.
  apply Forall_app in Hv as [_ Hb]. eapply Forall_impl; [exact Hb|]. intros x. unfold is_valid. by destruct (is_None x).
Qed.

(** No batch of the GPU example reaches its encoder. [Batcher] returns the
    batch itself, and a list of results goes downstream item by item: whatever
    [batch_size] is, the encoder is given the single items, in order, and
    raises [TypeError] on every one of them, whatever the model would have
    done. *)
Theorem batches_dissolve (batch_size : Z) (items : list py) (model : list py → res (list py)) :
  Forall (λ i, ∃ kv d, i = PyDict (kv :: d)) items →
  batched batch_size items = items ∧ gpu_call model <$> batched batch_size items = replicate (length items) (Raise TypeError).
Proof.
  intros Hd. rewrite batched_items; [split; [done|]|].
  - induction Hd as [|i items (kv & d & ->) _ IH]; csimpl; [done|]. by rewrite IH.
  - eapply Forall_impl; [exact Hd|]. intros i (kv & d & ->). done.
Qed.

(** On a batch it does what it should: the waveforms are gone, the embeddings
    are there, and the order of the items is kept. *)
Lemma gpu_call_batch model ds wavs es :
  each (getitem "wav") (PyDict <$> ds) = Ok wavs → model wavs = Ok es → length es = length ds →
  gpu_call model (PyList (PyDict <$> ds)) =
    Ok (RVal (PyList (zip_with (λ d e, PyDict (dict_put "embedding" e (dict_del "wav" d))) ds es))).
Proof.
  intros Hw Hm Hl. unfold gpu_call. simpl. rewrite Hw, Hm.
  assert (embed (PyDict <$> ds) es = Ok (zip_with (λ d e, PyDict (dict_put "embedding" e (dict_del "wav" d))) ds es)) as ->; [|done].
  clear Hw Hm. revert es Hl. induction ds as [|d ds IH]; intros [|e es]; csimpl; try done. intros [= Hl]. by rewrite IH.
Qed.
End Inference.

Module InferenceDemo.
Import Inference.
Definition item (k : string) (i : Z) : py := PyDict [("path", PyStr k); ("idx", PyNum i); ("wav", PyTensor false i)].
Lemma batches_dissolve_witness :
  batched 2 [item "a" 0; item "b" 1; item "c" 2] = [item "a" 0; item "b" 1; item "c" 2] ∧
  gpu_call (λ wavs, Ok wavs) <$> batched 2 [item "a" 0; item "b" 1; item "c" 2] = replicate 3 (Raise TypeError).
Proof.
  assert (Forall (λ i, ∃ kv d, i = PyDict (kv :: d)) [item "a" 0; item "b" 1; item "c" 2]) as H by (repeat constructor; by eexists _, _).
  pose proof (batches_dissolve 2 _ (λ wavs, Ok wavs) H) as Hd. exact Hd.
Defined.
Example batch_encoded :
  gpu_call (λ wavs, Ok wavs) (PyList [item "a" 0; item "b" 1]) =
  Ok (RVal (PyList [PyDict [("path", PyStr "a"); ("idx", PyNum 0); ("embedding", PyTensor false 0)];
                    PyDict [("path", PyStr "b"); ("idx", PyNum 1); ("embedding", PyTensor false 1)]])).
Proof. reflexivity. Qed.
End InferenceDemo.

(** ** Batched downloads (batch_s3_upload.py) *)

Module Downloads.
Section downloads.
(** [obs.get_async(store, key)]: the bytes of an object, if the store has them. *)
Context (get_async : string → option (list Byte.byte)).
Context (buffer_size : Z).

(** [str(v)] in [f"{item['s3_key']}.opus"], for a key that is a string. *)
Definition download_one (item : py) : option py :=
  match item, getitem "s3_key" item with
  | PyDict d, Ok (PyStr k) => (λ b, PyDict (dict_put "audio_bytes" (PyBytes b) d)) <$> get_async (k +:+ ".opus")
  | _, _ => None
  end.
(** [_download_batch]: [gather] keeps the order; what failed is left out. *)
Definition _download_batch (items : list py) : list py := omap download_one items.

(** The instance, which the threads of the process share: its lists - the
    [i]th is [heap !! i] -, the one [self._buffer] is, and whether
    [self._loop] is running. *)
Record shared := Shared { heap : list (list py); _buffer : nat; running : bool }.
Definition contents (sh : shared) (l : nat) : list py := default [] (heap sh !! l).

(** Where a thread is: between two items; in [self._buffer.append(item)], with
    the list it is to append to; at the test of the length; at [if not
    self._buffer]; at [items = self._buffer]; at [self._buffer = []]; at
    [run_until_complete]; in it, downloading a batch. *)
Inductive pc :=
  | Idle
  | Appending (item : py) (l : nat)
  | Measuring
  | Testing
  | Taking
  | Resetting (items : nat)
  | Starting (items : nat)
  | Downloading (batch : list py).
Record thread := Thread { at_pc : pc; todo : list py }.

(** A step of a thread: the instance, the thread, what it sent downstream and
    whether it raised. A loop that is running is refused with [RuntimeError],
    which the framework reports. *)
Definition thread_step (sh : shared) (t : thread) : shared * thread * list py * bool :=
  let '(Thread p items) := t in
  match p with
  | Idle =>
      match items with
      | [] => (sh, t, [], false)
      | x :: items => (sh, Thread (Appending x (_buffer sh)) items, [], false)
      end
  | Appending x l => (Shared (alter (λ b, b ++ [x]) l (heap sh)) (_buffer sh) (running sh), Thread Measuring items, [], false)
  | Measuring =>
      (sh, Thread (if (buffer_size <=? Z.of_nat (length (contents sh (_buffer sh))))%Z then Testing else Idle) items, [], false)
  | Testing => (sh, Thread (match contents sh (_buffer sh) with [] => Idle | _ => Taking end) items, [], false)
  | Taking => (sh, Thread (Resetting (_buffer sh)) items, [], false)
  | Resetting l => (Shared (heap sh ++ [[]]) (length (heap sh)) (running sh), Thread (Starting l) items, [], false)
  | Starting l =>
      if running sh then (sh, Thread Idle items, [], true)
      else (Shared (heap sh) (_buffer sh) true, Thread (Downloading (contents sh l)) items, [], false)
  | Downloading batch =>
      (Shared (heap sh) (_buffer sh) false, Thread Idle items, valid_items (_download_batch batch), false)
  end.

(** The process: its threads take their steps in the order of a schedule. *)
Record pool_process := Process { instance : shared; threads : list thread; downloaded : list py; errors : nat }.
Definition process_step (p : pool_process) (i : nat) : pool_process :=
  match threads p !! i with
  | None => p
  | Some t =>
      let '(sh, t, out, e) := thread_step (instance p) t in
      Process sh (<[i := t]> (threads p)) (downloaded p ++ out) (if e : bool then S (errors p) else errors p)
  end.
Definition run_threads (schedule : list nat) (p : pool_process) : pool_process := foldl process_step p schedule.
Definition started (work : list (list py)) : pool_process := Process (Shared [[]] 0 false) (Thread Idle <$> work) [] 0.
Definition finished (p : pool_process) : bool :=
  forallb (λ t, match at_pc t, todo t with Idle, [] => true | _, _ => false end) (threads p).
(** [flush], once the threads are done. *)
Definition flushed (p : pool_process) : list py :=
  let items := contents (instance p) (_buffer (instance p)) in
  match items with [] => [] | _ => _download_batch items end.

(** *** One thread *)

(** How far a thread is from the end of its work. *)
Definition distance (t : thread) : nat :=
  8 * length (todo t) +
  match at_pc t with
  | Idle => 0 | Appending _ _ => 7 | Measuring => 6 | Testing => 5 | Taking => 4 | Resetting _ => 3 | Starting _ => 2 | Downloading _ => 1
  end.

(** What a thread holds: the items of its batch, which the buffer may still
    have too, and the item it is to append. *)
Definition held (sh : shared) (p : pc) : list py :=
  match p with
  | Resetting _ => []
  | Starting l => contents sh l
  | Downloading batch => batch
  | _ => []
  end.
Definition sent_and_kept (sh : shared) (t : thread) (out : list py) : list py :=
  out ++ _download_batch (held sh (at_pc t) ++ contents sh (_buffer sh) ++
                          match at_pc t with Appending x _ => [x] | _ => [] end ++ todo t).
Definition alone (sh : shared) (p : pc) : Prop :=
  _buffer sh < length (heap sh) ∧
  running sh = match p with Downloading _ => true | _ => false end ∧
  match p with
  | Appending _ l | Resetting l => l = _buffer sh
  | Starting l => contents sh (_buffer sh) = []
  | Downloading _ => contents sh (_buffer sh) = []
  | _ => True
  end.

Lemma download_batch_app l l' : _download_batch (l ++ l') = _download_batch l ++ _download_batch l'.
Proof. apply omap_app. Qed.
Lemma download_batch_valid l : valid_items (_download_batch l) = _download_batch l.
Proof.
  apply filter_all. induction l as [|x l IH]; csimpl; [done|]. destruct (download_one x) as [y|] eqn:E; [|done]. constructor; [|done].
  unfold download_one in E. destruct x; try done. destruct (getitem _ _) as [[]| |]; try done. apply fmap_Some in E as (b & _ & ->). done.
Qed.

Lemma alone_step sh t out : alone sh (at_pc t) →
  let '(sh', t', out', e) := thread_step sh t in
  alone sh' (at_pc t') ∧ e = false ∧ sent_and_kept sh' t' (out ++ out') = sent_and_kept sh t out ∧
  (distance t' < distance t ∨ t' = t ∧ distance t = 0).
Proof.
  intros (Hb & Hr & Hp). destruct t as [p items]. simpl in *. destruct p as [|x l| | | |l|l|batch]; simpl in *.
  - destruct items as [|x items]; simpl; rewrite app_nil_r; (split_and!; [done|done|done|]); unfold distance; simpl; [by right|left; lia].
  - subst l. rewrite app_nil_r. destruct (lookup_lt_is_Some_2 _ _ Hb) as [b Eb].
    split_and!; [split_and!; simpl; [by rewrite length_alter|done..]|done| |unfold distance; simpl; lia].
    unfold sent_and_kept, contents. simpl. rewrite list_lookup_alter_eq, Eb. simpl. by rewrite <-(assoc_L (++)).
  - rewrite app_nil_r. case_match; (split_and!; [done..|unfold distance; simpl; lia]).
  - rewrite app_nil_r. case_match; (split_and!; [done..|unfold distance; simpl; lia]).
  - rewrite app_nil_r. split_and!; [done..|unfold distance; simpl; lia].
  - subst l. rewrite app_nil_r. split_and!; [split_and!; simpl; [rewrite length_app; simpl; lia|done|]|done| |unfold distance; simpl; lia].
    + unfold contents. simpl. by rewrite lookup_app_r, Nat.sub_diag by lia.
    + unfold sent_and_kept. simpl. unfold contents. simpl. rewrite (lookup_app_l (heap sh)) by done. rewrite (lookup_app_r (heap sh)), Nat.sub_diag by lia. done.
  - rewrite Hr, app_nil_r. split_and!; [done..|unfold distance; simpl; lia].
  - split_and!; [done..| |unfold distance; simpl; lia]. unfold sent_and_kept, contents in *. simpl. rewrite Hp, download_batch_valid. simpl.
    by rewrite download_batch_app, (assoc_L (++)).
Qed.

Lemma one_thread_run n : ∀ sh t out, alone sh (at_pc t) →
  ∃ sh' t' out', run_threads (replicate n 0) (Process sh [t] out 0) = Process sh' [t'] out' 0 ∧
    alone sh' (at_pc t') ∧ sent_and_kept sh' t' out' = sent_and_kept sh t out ∧ distance t' ≤ distance t - n.
Proof.
  induction n as [|n IH]; intros sh t out Ha; simpl; [exists sh, t, out; split_and!; [done..|lia]|].
  unfold process_step at 1. simpl. pose proof (alone_step sh t out Ha) as H.
  destruct (thread_step sh t) as [[[sh1 t1] out1] e]. destruct H as (Ha1 & -> & Hs & Hd).
  destruct (IH sh1 t1 (out ++ out1) Ha1) as (sh' & t' & out' & E & Ha' & Hs' & Hd'). exists sh', t', out'.
  unfold run_threads in E. split_and!; [exact E|done|by rewrite Hs'|]. destruct Hd as [?|[-> ?]]; lia.
Qed.

(** One thread downloads everything: after enough steps its work is done, no
    call has raised, and what it sent downstream followed by what [flush]
    returns are the items, each with its bytes and in order, without those
    the store does not have. *)
Theorem one_thread_downloads_all (items : list py) (n : nat) :
  8 * length items ≤ n →
  let p := run_threads (replicate n 0) (started [items]) in
  finished p = true ∧ errors p = 0 ∧ downloaded p ++ flushed p = _download_batch items.
Proof.
  intros Hn. simpl. destruct (one_thread_run n (Shared [[]] 0 false) (Thread Idle items) []) as (sh & [q work] & out & E & Ha & Hs & Hd).
  { split_and!; simpl; [lia|done..]. }
  unfold started. simpl. change (fmap _ _) with [Thread Idle items]. rewrite E. unfold distance in Hd. simpl in Hd.
  assert (q = Idle ∧ work = []) as [-> ->] by (destruct q, work; simpl in Hd; try lia; done).
  split_and!; [done..|]. unfold sent_and_kept in Hs. simpl in Hs. rewrite !app_nil_r in Hs. simpl in Hs. rewrite <-Hs. unfold flushed. simpl.
  by destruct (contents sh (_buffer sh)).
Qed.
End downloads.
End Downloads.

Module DownloadsDemo.
Import Downloads.
Definition item (k : string) : py := PyDict [("s3_key", PyStr k)].
Definition have (k : string) : option (list Byte.byte) := if decide (k = "c.opus") then None else Some [Byte.x00].
Definition got (k : string) : py := PyDict [("s3_key", PyStr k); ("audio_bytes", PyBytes [Byte.x00])].

Lemma one_thread_downloads_all_witness :
  let p := run_threads have 2 (replicate 24 0) (started [[item "a"; item "b"; item "c"]]) in
  finished p = true ∧ errors p = 0 ∧ downloaded p ++ flushed have p = [got "a"; got "b"].
Proof.
  assert (8 * length [item "a"; item "b"; item "c"] ≤ 24) as H by (simpl; lia).
  pose proof (one_thread_downloads_all have 2 _ 24 H) as Hd. exact Hd.
Defined.

(** Two threads of one process, as [thread=True] with [workers=2] has them: the
    second batch is full while the loop runs for the first. Its call raises,
    and its items are neither sent nor in the buffer any more. *)
Lemma threads_lose_batch :
  let p := run_threads have 2 (replicate 10 0 ++ replicate 10 1 ++ [0]) (started [[item "a"; item "b"]; [item "d"; item "e"]]) in
  finished p = true ∧ errors p = 1 ∧ downloaded p ++ flushed have p = [got "a"; got "b"] ∧
  _download_batch have [item "d"; item "e"] = [got "d"; got "e"].
Proof. by vm_compute. Qed.
End DownloadsDemo.

(** ** Batched uploads (batch_s3_upload.py) *)

Module Uploads.
Open Scope pipe_scope.

(** [process]. *)
Definition process (item : py) : res py :=
  match item with
  | PyDict d =>
      match dict_get "audio_bytes" d with
      | Some (PyBytes b) =>
          let d := dict_put "size" (PyNum (Z.of_nat (length b))) (dict_del "audio_bytes" d) in
          match dict_get "id" d with
          | Some i => Ok (PyDict (dict_put "result" (PyDict [("id", i); ("size", PyNum (Z.of_nat (length b)))]) d))
          | None => Raise KeyError
          end
      | Some _ => Raise TypeError
      | None => Raise KeyError
      end
  | PyList _ => Raise TypeError
  | _ => Raise AttributeError
  end.

Section uploads.
(** [json.dumps(v).encode()], [str(v)], and the object store: the puts of a
    batch, which [gather] runs together, and what they leave. *)
Context {W : Type} (dumps : py → res (list Byte.byte)) (str : py → string).
Context (put_all : list (string * list Byte.byte) → prog W unit).
Context (batch_size : Z).

Definition upload_object (item : py) : res (string * list Byte.byte) :=
  match getitem "id" item with
  | Ok i =>
      match getitem "result" item with
      | Ok r => match dumps r with Ok data => Ok ("output/" +:+ str i +:+ ".json", data) | Raise e => Raise e | Spin => Spin end
      | Raise e => Raise e
      | Spin => Spin
      end
  | Raise e => Raise e
  | Spin => Spin
  end.
Fixpoint upload_objects (items : list py) : res (list (string * list Byte.byte)) :=
  match items with
  | [] => Ok []
  | x :: items =>
      match upload_object x with
      | Ok o => match upload_objects items with Ok os => Ok (o :: os) | r => r end
      | Raise e => Raise e
      | Spin => Spin
      end
  end.

(** [BatchUploader]: the buffer, the count, and the store. *)
Record uploader := Uploader { buffer : list py; uploaded : Z; store : W }.
Definition with_store {X} (c : prog W X) : prog uploader X := λ u,
  let '(r, w) := c (store u) in (r, Uploader (buffer u) (uploaded u) w).
(** [_upload_batch]. (When an object cannot be made the code may already have
    put others of the batch; the error is the same.) *)
Definition _upload_batch (items : list py) : prog uploader unit :=
  let! os := of_res (upload_objects items) in with_store (put_all os).
(** [_flush_buffer]: the buffer is emptied before the upload, and the items are
    returned after it. *)
Definition _flush_buffer : prog uploader (list py) := λ u,
  match buffer u with
  | [] => (Ok [], u)
  | items =>
      (_upload_batch items ;!
       (λ u, (Ok items, Uploader (buffer u) (uploaded u + Z.of_nat (length items)) (store u))))
        (Uploader [] (uploaded u) (store u))
  end.
Definition uploader_call (item : py) : prog uploader result := λ u,
  let u := Uploader (buffer u ++ [item]) (uploaded u) (store u) in
  if (batch_size <=? Z.of_nat (length (buffer u)))%Z then (let! items := _flush_buffer in ret (RVal (PyList items))) u
  else (Ok (RVal PyNone), u).
Definition uploader_flush : prog uploader generator := let! items := _flush_buffer in ret (Generator items None).

(** What the store has of the objects that were put. *)
Context (log : W → list (string * list Byte.byte)).
(** A put that is answered leaves its object in the store. *)
Context (put_all_ok : ∀ os w, let '(r, w') := put_all os w in r = Ok tt ∧ log w' ≡ₚ log w ++ os).

Definition uploading (w : W) (items out : list py) (u : uploader) : Prop :=
  out ++ buffer u = items ∧ uploaded u = Z.of_nat (length out) ∧
  ∃ os, upload_objects out = Ok os ∧ log (store u) ≡ₚ log w ++ os.

Lemma upload_objects_app xs ys os : upload_objects (xs ++ ys) = Ok os →
  ∃ os1 os2, upload_objects xs = Ok os1 ∧ upload_objects ys = Ok os2 ∧ os = os1 ++ os2.
Proof.
  revert os. induction xs as [|x xs IH]; intros os; simpl; [intros ->; by exists [], os|].
  destruct (upload_object x) as [o| |]; [|done..]. destruct (upload_objects (xs ++ ys)) as [os'| |]; [|done..]. intros [= <-].
  destruct (IH os' eq_refl) as (os1 & os2 & -> & -> & ->). by exists (o :: os1), os2.
Qed.
Lemma upload_objects_snoc xs ys os os' : upload_objects xs = Ok os → upload_objects ys = Ok os' → upload_objects (xs ++ ys) = Ok (os ++ os').
Proof.
  revert os. induction xs as [|x xs IH]; intros os; simpl; [by intros [= <-]|].
  destruct (upload_object x) as [o| |]; [|done..]. destruct (upload_objects xs) as [os1| |]; [|done..]. intros [= <-] Hy. by rewrite (IH os1).
Qed.

Lemma flush_uploads w items out u : uploading w items out u → (∃ os, upload_objects items = Ok os) →
  ∃ u', _flush_buffer u = (Ok (buffer u), u') ∧ uploading w items (out ++ buffer u) u' ∧ buffer u' = [].
Proof using put_all_ok.
  intros (Hout & Hn & os & Ho & Hlog) [all Hall]. unfold _flush_buffer. destruct (buffer u) as [|x b] eqn:Eb.
  - exists u. rewrite app_nil_r. split_and!; [done| |done]. split_and!; [by rewrite Eb, app_nil_r in *|done|by exists os].
  - rewrite <-Hout in Hall. apply upload_objects_app in Hall as (os1 & os2 & Ho1 & Ho2 & ->).
    unfold _upload_batch, bind, of_res. rewrite Ho2. unfold with_store. simpl. pose proof (put_all_ok os2 (store u)) as Hput.
    destruct (put_all os2 (store u)) as [r w']. destruct Hput as [-> Hw]. eexists. split_and!; [reflexivity| |done].
    split_and!; simpl; [by rewrite app_nil_r|rewrite Hn, length_app; simpl; lia|].
    exists (os ++ os2). split; [by apply upload_objects_snoc|]. by rewrite Hw, Hlog, (assoc_L (++)).
Qed.

(** Everything is uploaded once, whatever [batch_size] is and wherever the
    stream ends: the items leave the stage in the order they came in, the
    count says how many they are, and what the store got is one object for
    each of them. *)
Theorem all_uploaded (items : list py) (os : list (string * list Byte.byte)) (w : W) :
  Forall (λ i, is_valid i = true) items → upload_objects items = Ok os →
  let '(out, u) := run_through uploader_call uploader_flush items (Uploader [] 0 w) in
  out = items ∧ buffer u = [] ∧ uploaded u = Z.of_nat (length items) ∧ log (store u) ≡ₚ log w ++ os.
Proof using put_all_ok.
  intros Hv Hos. unfold run_through.
  assert (let '(out, u) := feed uploader_call items (Uploader [] 0 w) in uploading w items out u) as H.
  { revert os Hos. induction items as [|x items IH] using rev_ind; intros os Hos; [split_and!; [done..|by exists []; simpl; rewrite app_nil_r]|].
    apply Forall_app in Hv as [Hv Hx]. rewrite feed_app. pose proof (upload_objects_app _ _ _ Hos) as (os1 & os2 & Ho1 & _ & _).
    specialize (IH Hv os1 Ho1). destruct (feed _ items _) as [out u]. destruct IH as (Hout & Hn & Hlog). simpl. unfold uploader_call.
    set (u1 := Uploader (buffer u ++ [x]) (uploaded u) (store u)).
    assert (uploading w (items ++ [x]) out u1) as Hu by (split_and!; [by rewrite <-Hout, <-(assoc_L (++))|done|done]).
    destruct (batch_size <=? _)%Z; [|simpl; by rewrite app_nil_r].
    destruct (flush_uploads w _ out u1 Hu (ex_intro _ os Hos)) as (u2 & E & Hu2 & _). unfold bind, ret. rewrite E. simpl.
    assert (valid_items (buffer u ++ [x]) = buffer u ++ [x]) as ->; [|by rewrite app_nil_r].
    apply filter_all. rewrite <-Hout in Hv. apply Forall_app in Hv as [_ Hb]. by apply Forall_app. }
  destruct (feed _ items _) as [out u]. destruct (flush_uploads w items out u H (ex_intro _ os Hos)) as (u2 & E & (Hout & Hn & os' & Ho & Hlog) & Hb).
  unfold uploader_flush, bind, ret. rewrite E. simpl. destruct H as (<- & _). rewrite filter_all.
  - rewrite Ho in Hos. injection Hos as ->. by split_and!.
  - apply Forall_app in Hv as [_ Hv]. eapply Forall_impl; [exact Hv|]. intros i. unfold is_valid. by destruct (is_None i).
Qed.
End uploads.
End Uploads.

Module UploadsDemo.
Import Uploads.
Definition item (i : Z) : py := PyDict [("id", PyNum i); ("result", PyNum (10 * i))].
Definition str (v : py) : string := match v with PyNum n => pretty n | _ => "" end.
Definition dumps (v : py) : res (list Byte.byte) := match v with PyNum _ => Ok [Byte.x7b; Byte.x7d] | _ => Raise TypeError end.
Definition put_all (os : list (string * list Byte.byte)) : prog (list (string * list Byte.byte)) unit := λ w, (Ok tt, w ++ os).

Lemma all_uploaded_witness :
  let '(out, u) := run_through (uploader_call dumps str put_all 2) (uploader_flush dumps str put_all) [item 1; item 2; item 3] (Uploader [] 0 []) in
  out = [item 1; item 2; item 3] ∧ uploaded u = 3%Z ∧
  store u ≡ₚ [("output/1.json", [Byte.x7b; Byte.x7d]); ("output/2.json", [Byte.x7b; Byte.x7d]); ("output/3.json", [Byte.x7b; Byte.x7d])].
Proof.
  assert (Forall (λ i, is_valid i = true) [item 1; item 2; item 3]) as Hv by (repeat constructor).
  assert (∀ os w, let '(r, w') := put_all os w in r = Ok tt ∧ w' ≡ₚ w ++ os) as Hp by done.
  pose proof (all_uploaded dumps str put_all 2 id Hp [item 1; item 2; item 3] _ [] Hv eq_refl) as H.
  destruct (run_through _ _ _ _) as [out u]. destruct H as (Ho & _ & Hn & Hs). split_and!; [exact Ho|exact Hn|exact Hs].
Defined.
End UploadsDemo.
