(* ===== verification/Demos.v ===== *)
(** * Sources and plain stages of the examples

    The demo of examples/demo.py and examples/planned/autoscale_demo.py, the
    stages of examples/basic_download.py, examples/s3_downloader.py and
    examples/training_dataloader.py. What the store, the decoder, the hash and
    the random numbers give is a parameter. *)
From S2P Require Import Prelude Types Examples.

(** ** A source that counts (demo.py) *)

Section demo.
(** For each item a draw of [expovariate(1 / 20)], in units of its own, of
    which [second] make a second, and 1000 random bytes. *)
Context (draw : nat → Z * list Byte.byte) (second : Z).

(** [max(5, min(120, duration))]. *)
Definition bounded (duration : Z) : Z := Z.max (5 * second) (Z.min (120 * second) duration).
Definition audio_item (idx : nat) : py :=
  PyDict [("id", PyNum (Z.of_nat idx)); ("duration", PyNum (bounded (draw idx).1)); ("data", PyBytes (draw idx).2)].

(** [AudioGenerator.__call__], with its [_idx]. *)
Definition audio_call (n_items : Z) : prog nat result := λ idx,
  if (n_items <=? Z.of_nat idx)%Z then (Ok (RVal End), idx)
  else
    let item := audio_item idx in
    if (n_items <=? Z.of_nat (S idx))%Z then (Ok (RVal (PyList [item; End])), S idx)
    else (Ok (RVal item), S idx).

(** A root stage is called again until it returns [End], a list with it, or a
    generator that does not raise: the items of [n] calls at most, and whether
    it ended. (A [ConnectionError] would end it too; no source here raises.) *)
Fixpoint called {S : Type} (call : prog S result) (n : nat) (s : S) : list py * bool * S :=
  match n with
  | O => ([], false, s)
  | S n =>
      let '(r, s) := call s in
      match r with
      | Ok (RVal v) =>
          if existsb _is_end (as_list v) then (valid_items (as_list v), true, s)
          else let '(out, e, s) := called call n s in (valid_items (as_list v) ++ out, e, s)
      | Ok (RGen g) =>
          match gen_raises g with
          | None => (valid_items (gen_yields g), true, s)
          | Some _ => let '(out, e, s) := called call n s in (valid_items (gen_yields g) ++ out, e, s)
          end
      | Raise _ => called call n s
      | Spin => ([], false, s)
      end
  end.

Lemma audio_called n_items k : ∀ idx, (Z.of_nat (idx + k) = n_items)%Z →
  called (audio_call n_items) (Nat.max 1 k) idx = (audio_item <$> seq idx k, true, idx + k).
Proof.
  induction k as [|k IH]; intros idx Hn.
  - simpl. unfold audio_call. rewrite (proj2 (Z.leb_le _ _)) by lia. simpl. by rewrite Nat.add_0_r.
  - replace (Nat.max 1 (S k)) with (S k) by lia. simpl. unfold audio_call at 1. rewrite (proj2 (Z.leb_gt n_items (Z.of_nat idx))) by lia.
    destruct k as [|k].
    + rewrite (proj2 (Z.leb_le n_items _)) by lia. simpl. by rewrite Nat.add_1_r.
    + rewrite (proj2 (Z.leb_gt n_items _)) by lia. cbn [audio_item]. specialize (IH (S idx)).
      change (Nat.max 1 (S k)) with (S k) in IH. rewrite IH by lia. simpl. repeat f_equal. lia.
Qed.

(** The demo source ends: it is called [n_items] times (once, when there are
    none), sends the items [0 ... n_items - 1] in order, all with a duration
    from 5 to 120 seconds, and the last call tells the framework that it was
    the last. *)
Theorem audio_source_ends (n_items : Z) :
  (0 ≤ second)%Z →
  called (audio_call n_items) (Nat.max 1 (Z.to_nat n_items)) 0 = (audio_item <$> seq 0 (Z.to_nat n_items), true, Z.to_nat n_items) ∧
  Forall (λ i, ∃ d, getitem "duration" i = Ok (PyNum d) ∧ (5 * second ≤ d ≤ 120 * second)%Z) (audio_item <$> seq 0 (Z.to_nat n_items)).
Proof.
  intros Hs. split.
  - destruct (decide (0 ≤ n_items)%Z) as [Hn|Hn]; [by apply audio_called; lia|].
    replace (Z.to_nat n_items) with 0 by lia. simpl. unfold audio_call. by rewrite (proj2 (Z.leb_le _ _)) by lia.
  - apply Forall_fmap, Forall_forall. intros i _. eexists. split; [done|]. unfold bounded. lia.
Qed.

(** [Downloader.__call__] and [Processor.__call__] of the demo; [True] is the
    number 1. *)
Definition demo_download (item : py) : res py := setitem "downloaded" (PyNum 1) item.
Definition demo_process (sha256 : list Byte.byte → string) (item : py) : res py :=
  match getitem "duration" item with
  | Ok (PyNum _) =>
      match getitem "data" item with
      | Ok (PyBytes b) =>
          match setitem "hash" (PyStr (String.substring 0 16 (sha256 b))) item with
          | Ok item => setitem "processed" (PyNum 1) item
          | r => r
          end
      | Ok _ => Raise TypeError
      | r => r
      end
  | Ok _ => Raise TypeError
  | r => r
  end.
Definition demo_collect (item : py) : res py := Ok item.
End demo.

(** ** Downloads by path (s3_downloader.py) *)

(** [str.split(sep, maxsplit)] for a separator of one character. *)
Fixpoint split_max (sep : ascii) (maxsplit : nat) (s : string) : list string :=
  match s with
  | String.EmptyString => [""]
  | String.String c s =>
      match maxsplit with
      | O => [String.String c s]
      | S n =>
          if decide (c = sep) then "" :: split_max sep n s
          else match split_max sep (S n) s with
               | [] => [String.String c ""]
               | w :: ws => String.String c w :: ws
               end
      end
  end.
(** [s3_key]. *)
Definition s3_key (path : string) : res string :=
  match split_max "/" 3 path !! 3 with Some k => Ok k | None => Raise IndexError end.

Fixpoint has_slash (s : string) : bool :=
  match s with String.EmptyString => false | String.String c s => bool_decide (c = "/"%char) || has_slash s end.

Lemma split_max_0 sep s : split_max sep 0 s = [s].
Proof. by destruct s. Qed.
Lemma split_max_word n w s : has_slash w = false → split_max "/" (S n) (w +:+ String.String "/" s) = w :: split_max "/" n s.
Proof.
  induction w as [|c w IH]; intros Hw; [done|]. simpl in Hw. apply orb_false_iff in Hw as [Hc Hw]. apply bool_decide_eq_false in Hc.
  change (split_max "/" (S n) (String.String c (w +:+ String.String "/" s)) = String.String c w :: split_max "/" n s).
  cbn [split_max]. rewrite decide_False by done. by rewrite (IH Hw).
Qed.

(** The key of [s3://bucket/key], slashes of its own included. *)
Lemma s3_key_of_url bucket key : has_slash bucket = false → s3_key ("s3://" +:+ bucket +:+ "/" +:+ key) = Ok key.
Proof.
  intros Hb. unfold s3_key. change ("s3://" +:+ bucket +:+ "/" +:+ key) with ("s3:" +:+ String.String "/" ("" +:+ String.String "/" (bucket +:+ String.String "/" key))).
  rewrite !split_max_word by done. by rewrite split_max_0.
Qed.
Example s3_key_plain : s3_key "plain/key" = Raise IndexError.
Proof. reflexivity. Qed.

(** [S3Downloader.process]: what cannot be read is dropped; the message about it
    needs the path again. *)
Definition s3_process (get : string → option (list Byte.byte)) (item : py) : res py :=
  match getitem "s3_path" item with
  | Ok (PyStr path) =>
      match s3_key path with
      | Ok key => match get key with Some b => setitem "data" (PyBytes b) item | None => Ok PyNone end
      | _ => Ok PyNone
      end
  | Ok _ => Ok PyNone
  | r => r
  end.
(** [KeySource], with [str] the decimal digits, and [Sink]. *)
Definition key_item (str : nat → string) (i : nat) : py :=
  PyDict [("id", PyNum (Z.of_nat i)); ("s3_path", PyStr ("s3://my-bucket/audio/" +:+ str i +:+ ".flac"))].
Definition key_source (str : nat → string) : generator := Generator (key_item str <$> seq 0 1000) None.
Definition sink (item : py) : res py :=
  match getitem "id" item with
  | Ok i =>
      match getitem "data" item with
      | Ok (PyBytes b) => Ok (PyDict [("id", i); ("size", PyNum (Z.of_nat (length b)))])
      | Ok _ => Raise TypeError
      | r => r
      end
  | r => r
  end.

(** An item of [KeySource] goes through with the bytes the store has for it. *)
Lemma key_item_downloaded str get i b :
  get ("audio/" +:+ str i +:+ ".flac") = Some b →
  ∃ item, s3_process get (key_item str i) = Ok item ∧ sink item = Ok (PyDict [("id", PyNum (Z.of_nat i)); ("size", PyNum (Z.of_nat (length b)))]).
Proof.
  intros Hb. unfold s3_process. simpl getitem. cbn match.
  change ("s3://my-bucket/audio/" +:+ str i +:+ ".flac") with ("s3://" +:+ "my-bucket" +:+ "/" +:+ ("audio/" +:+ str i +:+ ".flac")).
  rewrite s3_key_of_url by done. rewrite Hb. eexists. split; reflexivity.
Qed.

(** ** Downloads from a table (basic_download.py) *)

(** [Downloader.__call__]: an object that cannot be had raises. *)
Definition url_download (get : py → res (list Byte.byte)) (item : py) : res py :=
  match getitem "audio_url" item with
  | Ok url => match get url with Ok b => setitem "audio_bytes" (PyBytes b) item | Raise e => Raise e | Spin => Spin end
  | r => r
  end.
(** [process]: [item.pop("audio_bytes")], then the size. *)
Definition pop_size (item : py) : res py :=
  match item with
  | PyDict d =>
      match dict_get "audio_bytes" d with
      | Some (PyBytes b) => Ok (PyDict (dict_put "size" (PyNum (Z.of_nat (length b))) (dict_del "audio_bytes" d)))
      | Some _ => Raise TypeError
      | None => Raise KeyError
      end
  | PyList _ => Raise TypeError
  | _ => Raise AttributeError
  end.
(** [DBUpdater.__call__], with the ids that are marked processed. *)
Definition db_update (item : py) : prog (list py) py := λ marked,
  match getitem "id" item with
  | Ok i => (Ok item, marked ++ [i])
  | r => (r, marked)
  end.

(** ** Training data (training_dataloader.py) *)

(** [load_and_process]: [decode] gives the waveform and its number of samples,
    at 16000 in a second; what is shorter than a second or longer than 30 is
    dropped. The duration is in samples. *)
Definition load_and_process (decode : py → res (py * Z)) (item : py) : res py :=
  match item with
  | PyDict d =>
      match dict_get "audio_bytes" d with
      | Some b =>
          match decode b with
          | Ok (wav, samples) =>
              if (samples <? 16000)%Z || (30 * 16000 <? samples)%Z then Ok PyNone
              else Ok (PyDict (dict_put "duration" (PyNum samples) (dict_put "wav" wav (dict_del "audio_bytes" d))))
          | Raise e => Raise e
          | Spin => Spin
          end
      | None => Raise KeyError
      end
  | PyList _ => Raise TypeError
  | _ => Raise AttributeError
  end.

(** [[item[k] for item in batch]]. *)
Fixpoint column (k : string) (batch : list py) : res (list py) :=
  match batch with
  | [] => Ok []
  | x :: batch =>
      match getitem k x with
      | Ok v => match column k batch with Ok vs => Ok (v :: vs) | r => r end
      | Raise e => Raise e
      | Spin => Spin
      end
  end.
(** [collate]; [pad] is [pad_sequence]. *)
Definition collate_batch (pad : list py → res py) (batch : list py) : res py :=
  match column "wav" batch with
  | Ok ws =>
      match pad ws with
      | Ok wavs =>
          match column "text" batch with
          | Ok texts =>
              match column "id" batch with
              | Ok ids => Ok (PyDict [("wavs", wavs); ("texts", PyList texts); ("ids", PyList ids)])
              | Raise e => Raise e
              | Spin => Spin
              end
          | Raise e => Raise e
          | Spin => Spin
          end
      | r => r
      end
  | Raise e => Raise e
  | Spin => Spin
  end.

(** An item that was kept has its waveform, a duration in the bounds, and no
    bytes; its other fields are as they were. *)
Lemma load_and_process_kept decode d d' :
  load_and_process decode (PyDict d) = Ok (PyDict d') →
  ∃ samples, dict_get "duration" d' = Some (PyNum samples) ∧ (16000 ≤ samples ≤ 480000)%Z ∧
    ∀ k, k ∉ ["audio_bytes"; "wav"; "duration"] → dict_get k d' = dict_get k d.
Proof.
  unfold load_and_process. destruct (dict_get "audio_bytes" d) as [b|]; [|done]. destruct (decode b) as [[wav n]| |]; [|done..].
  destruct (Z.ltb_spec n 16000), (Z.ltb_spec (30 * 16000) n); simpl; try done. intros [= <-]. exists n.
  split_and!; [apply get_put_eq|lia|lia|]. intros k Hk. rewrite !get_put_ne, get_del_ne by set_solver. done.
Qed.

Module DemosDemo.
Definition draw (i : nat) : Z * list Byte.byte := (100 * Z.of_nat i, [Byte.x00])%Z.
Lemma audio_source_ends_witness :
  called (audio_call draw 1 2) 2 0 =
    ([PyDict [("id", PyNum 0); ("duration", PyNum 5); ("data", PyBytes [Byte.x00])];
      PyDict [("id", PyNum 1); ("duration", PyNum 100); ("data", PyBytes [Byte.x00])]], true, 2).
Proof.
  assert (0 ≤ 1)%Z as H by lia. pose proof (audio_source_ends draw 1 2 H) as [Hc _]. exact Hc.
Defined.
End DemosDemo.
