(* ===== verification/Display.v ===== *)
(** * What the statistics show (monitors.py, profiling.py)

    The ratios of audio time to wall time of [_collect_stats], the smoothed
    rates and the two display threads on top of them, and the profiles of the
    workers with their summary. Times, durations and rates are exact rationals
    where the code has floating-point numbers; the drawing of the table is a
    list of rows. *)
From Stdlib Require Import QArith Lqa.
From S2P Require Import Prelude Text Types Monitors Utils Examples.

Local Open Scope Q_scope.

(** ** Numbers as text *)

(** The integer nearest to [n / d], the even one of two. *)
Definition round_half_even (n d : Z) : Z :=
  let q := (n / d)%Z in
  let r := (2 * (n mod d))%Z in
  if (r <? d)%Z then q else if (d <? r)%Z then (q + 1)%Z else if Z.even q then q else (q + 1)%Z.
(** [f"{x:.0f}"]. *)
Definition fixed0 (x : Q) : string := str_of_Z (round_half_even (Qnum x) (Zpos (Qden x))).

(** [f"{x:.2f}"]. *)
Definition fixed2 (x : Q) : string :=
  let n := round_half_even (100 * Qnum x) (Zpos (Qden x)) in
  let cents := str_of_Z (Z.abs n mod 100) in
  ((if (n <? 0)%Z then "-" else "") +:+ str_of_Z (Z.abs n / 100) +:+ "." +:+
   (if (Z.abs n mod 100 <? 10)%Z then "0" +:+ cents else cents))%string.
Example fixed2_third : fixed2 (1 # 3) = "0.33"%string ∧ fixed2 (2005 # 1000) = "2.00"%string ∧ fixed2 (-7 # 2) = "-3.50"%string.
Proof. done. Qed.

Lemma round_half_even_near n d : (0 < d)%Z → (Z.abs (2 * n - 2 * d * round_half_even n d) <= d)%Z.
Proof.
  intros Hd. unfold round_half_even. pose proof (Z.div_mod n d ltac:(lia)). pose proof (Z.mod_pos_bound n d Hd).
  destruct (Z.ltb_spec (2 * (n mod d)) d); [|destruct (Z.ltb_spec d (2 * (n mod d))); [|destruct (Z.even _)]]; nia.
Qed.

(** [f"{n:,}"] for [n] that is not negative. *)
Fixpoint group3 (digits : list ascii) : list ascii :=
  match digits with
  | a :: b :: c :: (_ :: _) as rest => a :: b :: c :: ","%char :: group3 rest
  | l => l
  end.
Definition with_commas (n : Z) : string := text (rev (group3 (rev (chars (str_of_Z n))))).

Example with_commas_1234567 : with_commas 1234567 = "1,234,567"%string.
Proof. reflexivity. Qed.
Example fixed0_half : fixed0 (5 # 2) = "2"%string ∧ fixed0 (7 # 2) = "4"%string ∧ fixed0 (13 # 5) = "3"%string.
Proof. done. Qed.

(** [any(...)], and the comparisons. *)
Definition Qlt_bool (x y : Q) : bool := negb (Qle_bool y x).
Lemma Qlt_bool_iff x y : Qlt_bool x y = true ↔ x < y.
Proof.
  unfold Qlt_bool. rewrite negb_true_iff. split; intros H.
  - apply Qnot_le_lt. intros Hle. apply Qle_bool_iff in Hle. congruence.
  - destruct (Qle_bool y x) eqn:E; [|done]. apply Qle_bool_iff in E. lra.
Qed.

(** ** Audio per wall time (_collect_stats) *)

(** What a worker reports: audio duration, and when it started, if it says. *)
Record report := Report { audio_duration : Q; start_wall_time : option Q }.
Record audio := Audio { stage_rtf : Q; avg_worker_rtf : Q; has_audio : bool }.

Definition qsum : list Q → Q := foldr Qplus 0.

Section audio.
Context (now : Q).
(** [worker_rtfs], the earliest start, and the audio in total. *)
Definition worker_ratios (rs : list report) : list Q :=
  omap (λ r, match start_wall_time r with
             | Some s => if Qlt_bool 0 (now - s) then Some (audio_duration r / (now - s)) else None
             | None => None
             end) rs.
Definition earliest (rs : list report) : option Q :=
  foldl (λ e r, match start_wall_time r with
                | None => e
                | Some s => match e with None => Some s | Some e' => Some (if Qlt_bool s e' then s else e') end
                end) None rs.
(** The ratios of a stage; [reports] is [None] when no worker has reported. *)
Definition stage_audio (reports : list report) : audio :=
  match reports with
  | [] => Audio 0 0 false
  | _ =>
      let total := qsum (audio_duration <$> reports) in
      let ratios := worker_ratios reports in
      let wall := match earliest reports with
                  | Some e => if Qeq_bool e 0 then 0 else now - e
                  | None => 0
                  end in
      Audio (if Qlt_bool 0 wall then total / wall else 0)
            (match ratios with [] => 0 | _ => qsum ratios / inject_Z (Z.of_nat (length ratios)) end)
            (Qlt_bool 0 total)
  end.
End audio.

(** ** The table thread (_stats_monitor_thread) *)

(** A row of [_collect_stats] with its ratios and the name of the stage. *)
Record shown := Shown { sh_stats : stage_stats; sh_audio : audio; sh_name : string }.

(** [prev_snapshot] and [rates]. *)
Record smoothing := Smoothing { prev_snapshot : gmap Z (Q * Z); rates : gmap Z Q }.
Definition EMA_ALPHA : Q := 3 # 10.

(** The rate of a stage from its items [items] at time [now]. *)
Definition observe (now : Q) (idx items : Z) (sm : smoothing) : Q * smoothing :=
  let '(prev_time, prev_items) := default (now, items) (prev_snapshot sm !! idx) in
  let dt := now - prev_time in
  let rs :=
    if Qlt_bool 0 dt then
      let instant := inject_Z (items - prev_items) / dt in
      let old := default instant (rates sm !! idx) in
      <[idx := EMA_ALPHA * instant + (1 - EMA_ALPHA) * old]> (rates sm)
    else rates sm in
  (default 0 (rs !! idx), Smoothing (<[idx := (now, items)]> (prev_snapshot sm)) rs).

Definition ratio_text (a : audio) : string := (fixed0 (stage_rtf a) +:+ "/" +:+ fixed0 (avg_worker_rtf a) +:+ "x")%string.
(** A row of the table; the last column is there when any stage has audio. *)
Definition table_row (any_audio : bool) (s : shown) (rate : Q) : list string :=
  let st := sh_stats s in
  [sh_name s; with_commas (ss_items st);
   if Qlt_bool 0 rate then (with_commas (round_half_even (Qnum rate) (Zpos (Qden rate))) +:+ "/s")%string else ""%string;
   _queue_bar (ss_qsize st) (ss_qmax st) 10;
   (str_of_Z (ss_active st) +:+ "/" +:+ str_of_Z (ss_total_workers st))%string] ++
  (if any_audio then [if has_audio (sh_audio s) then ratio_text (sh_audio s) else ""%string] else []).

(** [build_table]: the stages that are not done. *)
Fixpoint table_rows (any_audio : bool) (now : Q) (all : list shown) (sm : smoothing) : list (list string) * smoothing :=
  match all with
  | [] => ([], sm)
  | s :: all =>
      if ss_done (sh_stats s) then table_rows any_audio now all sm
      else
        let '(rate, sm) := observe now (ss_stage_idx (sh_stats s)) (ss_items (sh_stats s)) sm in
        let '(rows, sm) := table_rows any_audio now all sm in
        (table_row any_audio s rate :: rows, sm)
  end.
Definition build_table (now : Q) (all : list shown) : smoothing → list (list string) * smoothing :=
  table_rows (existsb (λ s, has_audio (sh_audio s)) all) now all.

(** A turn of a display thread: whether the stop event is set after the wait,
    whether any worker has reported, and what [_collect_stats] gives. *)
Record turn := Turn { stopped : bool; reporting : bool; at_time : Q; collected : list shown }.

Fixpoint table_turns (turns : list turn) (sm : smoothing) : list (list (list string)) :=
  match turns with
  | [] => []
  | t :: turns =>
      if stopped t then []
      else if reporting t then
        let '(table, sm) := build_table (at_time t) (collected t) sm in table :: table_turns turns sm
      else table_turns turns sm
  end.
(** The tables that are shown: one at once, then one a turn. *)
Definition _stats_monitor_thread (first : turn) (turns : list turn) : list (list (list string)) :=
  let '(table, sm) := build_table (at_time first) (collected first) (Smoothing ∅ ∅) in
  table :: table_turns turns sm.

(** ** The text thread (_stats_monitor_thread_text) *)

Definition escape (code : string) : string := String (ascii_of_nat 27) ("[" +:+ code +:+ "m").
Definition queue_color (qsize qmax : Z) : string :=
  if (qmax =? 0)%Z then escape "2"
  else match bar_colour qsize qmax with Red => escape "31" | Yellow => escape "33" | Green => escape "32" end.
Definition prefix4 (s : string) : string := text (take 4 (chars s)).
Definition part (s : shown) : string :=
  let st := sh_stats s in
  (escape "36" +:+ prefix4 (sh_name s) +:+ escape "0" +:+ "|" +:+
   queue_color (ss_qsize st) (ss_qmax st) +:+
   (if (ss_qmax st =? 0)%Z then str_of_Z (ss_qsize st) else str_of_Z (ss_qsize st) +:+ "/" +:+ str_of_Z (ss_qmax st)) +:+
   escape "0" +:+ "|" +:+ ratio_text (sh_audio s))%string.
(** [total_items]: the items of the last stage. *)
Definition total_items (n_jobs : nat) (all : list shown) : Z :=
  foldl (λ t s, if (ss_stage_idx (sh_stats s) =? Z.of_nat n_jobs - 1)%Z then ss_items (sh_stats s) else t) 0%Z all.
Definition arrow : string := text (ascii_of_nat <$> [226; 150; 184]%nat).
Fixpoint join (sep : string) (parts : list string) : string :=
  match parts with [] => ""%string | [p] => p | p :: parts => (p +:+ sep +:+ join sep parts)%string end.
Definition text_line (n_jobs : nat) (all : list shown) : string :=
  ("[" +:+ str_of_Z (total_items n_jobs all) +:+ "] " +:+
   join arrow (part <$> filter (λ s, ss_done (sh_stats s) = false) all))%string.

(** One line a turn, on the console: pinned when it is a terminal; the pinned
    line is let go at the end. *)
Fixpoint text_turns (n_jobs : nat) (turns : list turn) (c : console) : console :=
  match turns with
  | [] => c
  | t :: turns =>
      if stopped t then c
      else if reporting t then
        let line := text_line n_jobs (collected t) in
        text_turns n_jobs turns (if co_tty c then _pin_stats_line line c else write (line +:+ newline)%string c)
      else text_turns n_jobs turns c
  end.
Definition _stats_monitor_thread_text (verbose : option string) (n_jobs : nat) (turns : list turn) (c : console) : console :=
  _log verbose "Stats monitor shutting down" (_unpin_stats_line (text_turns n_jobs turns c)).

(** ** What they mean *)

Lemma Qsum_nonneg l : Forall (λ x, 0 <= x) l → 0 <= qsum l.
Proof. induction 1; simpl; lra. Qed.

(** The earliest start is at most every start. *)
Lemma earliest_min rs e : earliest rs = Some e → Forall (λ r, ∀ s, start_wall_time r = Some s → e <= s) rs.
Proof.
  assert (∀ e0 e', foldl (λ e r, match start_wall_time r with
                | None => e
                | Some s => match e with None => Some s | Some e' => Some (if Qlt_bool s e' then s else e') end
                end) e0 rs = Some e' →
    (∀ x, e0 = Some x → e' <= x) ∧ Forall (λ r, ∀ s, start_wall_time r = Some s → e' <= s) rs) as H; [|by apply H].
  induction rs as [|r rs IH]; intros e0 e'; simpl; [intros ->; split; [|constructor]; intros x [= ->]; lra|].
  intros H. apply IH in H as [H1 H2]. split.
  - intros x ->. destruct (start_wall_time r) as [s|]; [|by apply H1]. specialize (H1 _ eq_refl).
    destruct (Qlt_bool s x) eqn:E; [apply Qlt_bool_iff in E; lra|done].
  - constructor; [|done]. intros s Hs. rewrite Hs in H1. destruct e0 as [x|]; [|by apply H1]. specialize (H1 _ eq_refl).
    destruct (Qlt_bool s x) eqn:E; [done|]. assert (x <= s); [|lra]. apply Qnot_lt_le. intros Hlt. apply Qlt_bool_iff in Hlt. congruence.
Qed.

Lemma ratios_cover now e rs : e < now →
  Forall (λ r, 0 <= audio_duration r ∧ ∃ s, start_wall_time r = Some s ∧ e <= s ∧ s < now) rs →
  length (worker_ratios now rs) = length rs ∧
  qsum (audio_duration <$> rs) / (now - e) <= qsum (worker_ratios now rs).
Proof.
  intros He. induction 1 as [|r rs (Ha & s & Hs & Hes & Hsn) _ [IHl IH]]; simpl; [split; [done|]; unfold Qdiv; rewrite Qmult_0_l; lra|].
  rewrite Hs. assert (Qlt_bool 0 (now - s) = true) as -> by (apply Qlt_bool_iff; lra). simpl. split; [by rewrite IHl|].
  assert (audio_duration r / (now - e) <= audio_duration r / (now - s)) as Hr.
  { unfold Qdiv. rewrite !(Qmult_comm (audio_duration r)). apply Qmult_le_compat_r; [|done].
    apply Qle_shift_inv_l; [lra|]. assert (/ (now - e) * (now - s) == (now - s) / (now - e)) as -> by (unfold Qdiv; ring).
    apply Qle_shift_div_r; lra. }
  assert ((audio_duration r + qsum (audio_duration <$> rs)) / (now - e) ==
          audio_duration r / (now - e) + qsum (audio_duration <$> rs) / (now - e)) as -> by (field; lra). lra.
Qed.

(** The ratio of a stage is not above the sum of the ratios of its workers, that
    is, their average times how many they are: a worker that started later
    counts the wall time of the stage before it. *)
Lemma stage_rtf_bounded now rs e :
  rs ≠ [] → earliest rs = Some e → ~ e == 0 →
  Forall (λ r, 0 <= audio_duration r ∧ ∃ s, start_wall_time r = Some s ∧ s < now) rs →
  let a := stage_audio now rs in
  0 <= stage_rtf a ∧ stage_rtf a <= inject_Z (Z.of_nat (length rs)) * avg_worker_rtf a.
Proof.
  intros Hne He He0 Hrs. simpl. pose proof (earliest_min rs e He) as Hmin.
  assert (e < now) as Hlt.
  { destruct rs as [|r rs]; [done|]. apply Forall_cons in Hrs as [(_ & s & Hs & Hsn) _]. apply Forall_cons in Hmin as [Hm _].
    specialize (Hm s Hs). lra. }
  destruct (ratios_cover now e rs Hlt) as [Hl Hq].
  { apply Forall_forall. intros r Hr. rewrite Forall_forall in Hrs, Hmin. destruct (Hrs r Hr) as (Ha & s & Hs & Hsn).
    split; [done|]. exists s. split_and!; [done|by apply (Hmin r Hr)|done]. }
  assert (0 <= qsum (audio_duration <$> rs)) as Hsum.
  { apply Qsum_nonneg, Forall_fmap. eapply Forall_impl; [exact Hrs|]. by intros r [Ha _]. }
  unfold stage_audio. destruct rs as [|r rs]; [done|]. rewrite He. destruct (Qeq_bool e 0) eqn:E0; [by apply Qeq_bool_iff in E0|].
  assert (Qlt_bool 0 (now - e) = true) as -> by (apply Qlt_bool_iff; lra). cbn [stage_rtf avg_worker_rtf]. split.
  - apply Qle_shift_div_l; lra.
  - destruct (worker_ratios now (r :: rs)) as [|x xs]; [done|]. rewrite Hl.
    assert (inject_Z (Z.of_nat (length (r :: rs))) * (qsum (x :: xs) / inject_Z (Z.of_nat (length (r :: rs)))) == qsum (x :: xs)) as ->; [|done].
    field. simpl length. intros H. unfold Qeq in H. simpl in H. lia.
Qed.

(** ** Smoothed rates *)

(** Observations of one stage: when, and how many items by then. [paced lo hi]
    says that between two of them there are between [lo] and [hi] items per
    unit of time. *)
Fixpoint paced (lo hi : Q) (obs : list (Q * Z)) : Prop :=
  match obs with
  | (t, n) :: ((t', n') :: _) as rest =>
      t < t' ∧ lo * (t' - t) <= inject_Z (n' - n) <= hi * (t' - t) ∧ paced lo hi rest
  | _ => True
  end.
Fixpoint observed (idx : Z) (obs : list (Q * Z)) (sm : smoothing) : list Q :=
  match obs with
  | [] => []
  | (t, n) :: obs => let '(r, sm) := observe t idx n sm in r :: observed idx obs sm
  end.

Lemma smoothed_between lo hi instant old : lo <= instant <= hi → lo <= old <= hi →
  lo <= EMA_ALPHA * instant + (1 - EMA_ALPHA) * old <= hi.
Proof. unfold EMA_ALPHA. lra. Qed.

Lemma observed_between lo hi idx obs : ∀ t n sm,
  prev_snapshot sm !! idx = Some (t, n) → (∀ r, rates sm !! idx = Some r → lo <= r <= hi) →
  paced lo hi ((t, n) :: obs) → Forall (λ r, lo <= r <= hi) (observed idx obs sm).
Proof.
  induction obs as [|[t' n'] obs IH]; intros t n sm Hp Hr Hpace; simpl; [done|]. destruct Hpace as (Ht & [Hlo Hhi] & Hpace).
  unfold observe. rewrite Hp. simpl. assert (Qlt_bool 0 (t' - t) = true) as -> by (apply Qlt_bool_iff; lra). rewrite lookup_insert_eq. simpl.
  assert (lo <= inject_Z (n' - n) / (t' - t) <= hi) as Hi.
  { split; [apply Qle_shift_div_l; [lra|exact Hlo]|apply Qle_shift_div_r; [lra|exact Hhi]]. }
  assert (lo <= EMA_ALPHA * (inject_Z (n' - n) / (t' - t)) + (1 - EMA_ALPHA) * default (inject_Z (n' - n) / (t' - t)) (rates sm !! idx) <= hi) as Hnew.
  { apply smoothed_between; [done|]. destruct (rates sm !! idx) as [r|] eqn:E; [by apply Hr|done]. }
  constructor; [done|]. apply (IH t' n'); simpl; [by rewrite lookup_insert_eq| |done].
  intros r. rewrite lookup_insert_eq. by intros [= <-].
Qed.

(** The rate that is shown stays between the slowest and the fastest pace of the
    stage, from the second table on; the first one shows none. *)
Theorem shown_rate_between (lo hi : Q) (idx n : Z) (t : Q) (obs : list (Q * Z)) :
  paced lo hi ((t, n) :: obs) →
  ∃ rs, observed idx ((t, n) :: obs) (Smoothing ∅ ∅) = 0 :: rs ∧ Forall (λ r, lo <= r <= hi) rs ∧ length rs = length obs.
Proof.
  intros Hp. simpl. unfold observe. simpl. rewrite lookup_empty. simpl. assert (Qlt_bool 0 (t - t) = false) as ->.
  { destruct (Qlt_bool 0 (t - t)) eqn:E; [|done]. apply Qlt_bool_iff in E. lra. }
  rewrite lookup_empty. simpl. eexists. split_and!; [done| |].
  - apply (observed_between lo hi idx obs t n); simpl; [by rewrite lookup_insert_eq|intros r; by rewrite lookup_empty|done].
  - generalize (Smoothing (<[idx:=(t, n)]> ∅) ∅). clear. induction obs as [|[t' n'] obs IH]; intros sm; [done|].
    simpl. destruct (observe t' idx n' sm). simpl. by rewrite IH.
Qed.

(** ** Profiles (profiling.py) *)

Section profile.
(** The process of a worker: its target, [dump_stats], which gives the file of
    the worker, and [getrusage]. *)
Context {W : Type} (target : prog W unit) (dump_stats : prog W unit) (ru_maxrss : prog W Z).
Open Scope pipe_scope.
(** [_profiled_worker], with the shared [peak_rss_kb] beside the world. *)
Definition _profiled_worker : prog (W * Z) unit :=
  try_finally (lift target)
    (lift dump_stats ;! let! rss := lift ru_maxrss in put_obj rss).

(** Whatever becomes of the worker, its profile is written and its memory
    recorded, and an exception goes on afterwards. *)
Lemma profiled_worker_records w rss0 w1 w2 w3 rss r :
  target w = (r, w1) → r ≠ Spin → dump_stats w1 = (Ok tt, w2) → ru_maxrss w2 = (Ok rss, w3) →
  _profiled_worker (w, rss0) = (r, (w3, rss)).
Proof.
  intros Ht Hr Hd Hu. unfold _profiled_worker, try_finally, bind, lift, put_obj, zoom. simpl. rewrite Ht.
  destruct r as [[]|e|]; [| |done]; simpl; by rewrite Hd; simpl; rewrite Hu.
Qed.
End profile.

(** The profile of a worker: CPU time, and the text of its five top functions. *)
Record profile := Profile { total_tt : Q; top_funcs : string }.
Record profile_row := ProfileRow { pr_worker : string; pr_stage : string; pr_time : Q; pr_rss_mb : Q; pr_top : string }.

(** The first loop of [print_profile_summary]: a worker without a file, or
    without a measured size, is listed with zeroes. *)
Definition profile_rows (files : string → option profile) (rss : gmap string Z) (workers : list (string * string)) : list profile_row :=
  (λ w, let mb := match rss !! w.1 with Some kb => inject_Z kb / 1024 | None => 0 end in
        match files w.1 with
        | Some p => ProfileRow w.1 w.2 (total_tt p) mb (top_funcs p)
        | None => ProfileRow w.1 w.2 0 mb ""
        end) <$> workers.
(** The second one: the rows whose functions are printed. *)
Fixpoint profile_sections (seen : list string) (rows : list profile_row) : list profile_row :=
  match rows with
  | [] => []
  | r :: rows =>
      if bool_decide (pr_stage r ∈ seen) || bool_decide (pr_top r = ""%string) then profile_sections seen rows
      else r :: profile_sections (pr_stage r :: seen) rows
  end.
(** The lines of a section. *)
Definition section_lines (r : profile_row) : list string :=
  ("--- " +:+ pr_stage r +:+ " (" +:+ pr_worker r +:+ ") ---")%string ::
  ((λ l, ("  " +:+ text l)%string) <$>
    filter (λ l, strip_chars l ≠ []) (split_chars (ascii_of_nat 10) (strip_chars (chars (pr_top r))))) ++ [""%string].

(** Each stage with a profile has its functions printed once, by the first of
    its workers that has one. *)
Lemma profile_sections_once rows : ∀ seen,
  NoDup (pr_stage <$> profile_sections seen rows) ∧
  ∀ st, st ∈ pr_stage <$> profile_sections seen rows ↔ st ∉ seen ∧ ∃ r, r ∈ rows ∧ pr_stage r = st ∧ pr_top r ≠ ""%string.
Proof.
  induction rows as [|r rows IH]; intros seen; csimpl; [split; [apply NoDup_nil_2|]; set_solver|].
  destruct (decide (pr_stage r ∈ seen)) as [Hin|Hin]; [|destruct (decide (pr_top r = ""%string)) as [Ht|Ht]].
  - rewrite bool_decide_true by done. simpl. destruct (IH seen) as [Hnd Hst]. split; [done|]. set_solver.
  - rewrite (bool_decide_true (pr_top r = _)), orb_true_r by done. destruct (IH seen) as [Hnd Hst]. split; [done|]. set_solver.
  - rewrite !bool_decide_false by done. simpl. destruct (IH (pr_stage r :: seen)) as [Hnd Hst]. csimpl. split.
    + apply NoDup_cons. split; [|done]. rewrite Hst. set_solver.
    + intros st. rewrite elem_of_cons, Hst. destruct (decide (st = pr_stage r)); set_solver.
Qed.

(** ** The real-time factor (utils.py, RTF) *)

Section rtf.
Open Scope pipe_scope.
(** [RTF], with what it printed; the clock is read once a call, and once more
    when [load] did not run. Durations are in units of [unit] to a second. *)
Record rtf := RTFState { rtf_start : option Q; rtf_total : Z; rtf_printed : list string }.
Definition new_rtf : rtf := RTFState None 0 [].
Definition rtf_load (now : Q) (r : rtf) : rtf :=
  match rtf_start r with None => RTFState (Some now) (rtf_total r) (rtf_printed r) | Some _ => r end.
Definition rtf_call (second : positive) (now later : Q) (item : py) : prog rtf py := λ r,
  let r := rtf_load now r in
  match getitem "duration" item with
  | Ok (PyNum d) =>
      let r := RTFState (rtf_start r) (rtf_total r + d) (rtf_printed r) in
      let elapsed := later - default now (rtf_start r) in
      if Qeq_bool elapsed 0 then (Raise ZeroDivisionError, r)
      else (Ok item, RTFState (rtf_start r) (rtf_total r) (rtf_printed r ++ [(fixed2 ((rtf_total r # second) / elapsed) +:+ "x")%string]))
  | Ok _ => (Raise TypeError, r)
  | Raise e => (Raise e, r)
  | Spin => (Spin, r)
  end.
End rtf.

(** A call passes its item on as it is, and prints a line, once the clock has
    moved since the start; an item without a duration is not passed on. *)
Lemma rtf_call_passes second now later d i r s :
  rtf_start r = Some s → s < later → getitem "duration" i = Ok (PyNum d) →
  ∃ line, rtf_call second now later i r = (Ok i, RTFState (Some s) (rtf_total r + d) (rtf_printed r ++ [line])).
Proof.
  intros Hs Hl Hd. unfold rtf_call, rtf_load. rewrite Hs, Hd. simpl. rewrite Hs. simpl. destruct (Qeq_bool (later - s) 0) eqn:E.
  - apply Qeq_bool_iff in E. lra.
  - by eexists.
Qed.

Module DisplayDemo.
(** Two workers; the later one is the faster. *)
Definition two : list report := [Report 100 (Some 10); Report 90 (Some 40)].
Example two_ratios : worker_ratios 50 two = [100 / 40; 90 / 10] ∧ earliest two = Some 10.
Proof. by vm_compute. Qed.
Example two_shown : ratio_text (stage_audio 50 two) = "5/6x"%string.
Proof. by vm_compute. Qed.
Example rates_shown : fixed0 <$> observed 0 [(0, 0%Z); (1, 10%Z); (2, 30%Z)] (Smoothing ∅ ∅) = ["0"; "10"; "13"]%string.
Proof. by vm_compute. Qed.
End DisplayDemo.
